(* ===== verification/_CoqProject ===== *)
-Q . S2P
Prelude.v
Index.v
Collections.v
Graph.v
Topo.v
Reduction.v
Scc.v
SccSearch.v
SccProofs.v
GraphTests.v
Model.v
Compiler.v
TaskOrder.v
CompilerProofs.v
CompilerCorrect.v
Determinism.v
Request.v
CompilerTests.v
Scheduler.v
TestRuns.v
Effects.v
Policy.v
Tracker.v
Fd.v
Buffer.v
Ptrace.v
Processes.v
Supervision.v
RunnerTests.v
Programs.v
Spawn.v
Filters.v
Messages.v
Startup.v
StartupLogic.v
StartupProofs.v
StartupSupervisor.v
StartupCorrect.v
SampleKernel.v
LaunchTests.v
TargetTests.v
Launch.v
Interruptions.v
Progress.v
