(* ===== verification/Prelude.v ===== *)
(** * sys-tester: a verification library

    sys-tester runs a program under supervision and checks it against a test: a
    tree of expected system calls ("atoms") with ordering constraints.  This
    library models the parts of the crate that decide something, and proves
    what they promise to each other.

    ** The program and its model

    A test is built as a [TaskInfo] (src/src/model.rs) and compiled
    (src/src/compiler.rs) to a [CompiledSetup]: the atoms in an order that
    respects the constraints, and the reduced graph of the ordering with its
    transpose, computed by the algorithms of src/src/graph.rs.  The supervisor
    (src/src/runner/supervisor.rs) hands out the atoms whose predecessors are
    done when the target makes the matching request (src/src/runner/request.rs).
    The target is started by three processes that exchange messages through a
    shared page and a socket (src/src/runner/spawn.rs).  Its system calls reach
    the supervisor through a seccomp filter generated by the build script
    (src/build.rs) and embedded in the crate (src/src/seccomp_filters.rs), a
    listener (src/src/runner/tracker.rs, errno.rs), tables of descriptors
    (src/src/runner/fd.rs) and a buffer for the target's memory
    (src/src/buffer.rs); the processes the target creates are followed with
    ptrace (src/src/runner/ptrace.rs).

    The foundations:

    - [Prelude]: the result type [exec] of Rust code (return, error, panic),
      its rules [wp], or [wpp] for code that may panic, vectors, loops, hash
      iteration and machine integers.
    - [Effects]: code that calls the kernel, as a state and error monad with
      the rules [ewp]; [steady] for what it keeps.
    - [Programs]: code that runs step by step and can be interleaved, with the
      logic [wlp].

    Indices and graphs:

    - [Index]: src/src/index.rs, the [Idx] trait with its bound, [IndexSpan]
      and [UnionFind]; [Collections]: the slices and vectors of that file, with
      capacity and mutable references.
    - [Graph]: the representations of src/src/graph.rs behind the class
      [DirectedGraph]; well-formedness, edges and paths.
    - [Topo]: [topological_order]: one definition per block of the loop
      ([dag_root], [dag_recurse], [dag_enter], [dag_leave], [dag_cycle]).
    - [Reduction]: [transitive_solved_reduction] and [transitive_reduction].
    - [Scc]: [tarjan]; [SccSearch] what holds between two turns of the search,
      [SccProofs] that it finds the strongly connected components.
    - [GraphTests]: the unit tests of index.rs and graph.rs, run on the model.

    The compiler:

    - [Model]: src/src/model.rs.
    - [Compiler]: [TaskInfo::compile], one definition per local function and
      per phase, composed by [compile].
    - [TaskOrder]: what the order of a test means, without reference to the
      compiler: containment, first and last atoms of a task, and [before].
    - [CompilerProofs], [CompilerCorrect]: each phase, then the whole;
      [Determinism]: independence of hash iteration.
    - [Request]: src/src/runner/request.rs.
    - [CompilerTests]: the unit tests of these files.

    Scheduling:

    - [Scheduler]: the scheduling state of [Supervisor] ([ready_atoms],
      [wait_counts], [info]) with [new], [mark_done], [iter_undone] and
      [get_task]; runs are a step relation [sched_step] whose second component
      is the set of atoms handed out and not yet completed.
    - [TestRuns]: the compiler and the scheduler together.

    The supervisor at run time:

    - [Policy]: src/build.rs; libseccomp is the class [Libseccomp], what it
      documents is [LibseccompLaws].
    - [Tracker]: src/src/runner/tracker.rs and errno.rs; the ioctls of the
      listener are the class [Listener].
    - [Fd]: src/src/runner/fd.rs; [ProcFileSpace] is a class with the range and
      the map spaces as instances.
    - [Buffer]: src/src/buffer.rs; [process_vm_readv] is the class
      [ProcessMemory], what it documents is [vm_law].
    - [Ptrace]: src/src/runner/ptrace.rs; the requests and waits are the class
      [Ptrace] over an arbitrary state of the kernel.
    - [Processes]: the process table of [Supervisor], with process creation and
      reaping; its state is the supervisor with the kernel's.
    - [Supervision]: the loop that answers a running target while it polls for
      its next process creation (the tests of supervisor.rs), over [Tracker],
      [Ptrace] and [Processes] together.  What seccomp and ptrace do with a
      target is a state machine on views ([wait_answer], [trace_answer],
      [poll_answer], [recv_answer], [send_answer]); a kernel that follows it is
      the class [Supervision], with [Machine] as an instance.
    - [RunnerTests]: the unit tests of buffer.rs and supervisor.rs that start
      no process.

    Starting a target:

    - [Spawn]: src/src/runner/spawn.rs: the programs of the supervisor
      ([spawn_seccomp_target]), the spawner ([spawner_main]) and the target
      ([target_entry]), which share a page and descriptors.
    - [Startup]: the three programs side by side, as a step relation on worlds
      with a log; the answers of the kernel are the class [Kernel].
    - [StartupLogic], [StartupProofs], [StartupSupervisor]: what holds of each
      process at every call it makes; [StartupCorrect]: the invariant of every
      reachable world, and the laws of the kernel it needs ([KernelLaws]).
    - [SampleKernel]: a kernel that keeps these laws, on which launches run;
      [LaunchTests]: the tests of spawn.rs for launches that fail, run on it.
    - [TargetTests]: test_support.rs and the tests that go on with a launched
      target, which follows a script on [Machine].
    - [Launch]: what a launch guarantees and reports; [Interruptions]: calls
      that are made again; [Progress]: launches end.
    - [Filters]: src/src/seccomp_filters.rs, composed with [Policy].
    - [Messages]: the messages of error.rs, spawn.rs and buffer.rs.

    ** What the theorems show

    - Compiler: on references in range [compile] returns a setup or a genuine
      cycle and never panics ([compile_result]); the setup orders the atoms
      exactly as the test does ([compile_order]), its graph is reduced
      ([compile_reduced]) and comes with its transpose
      ([compile_before_graph]), and nothing depends on the iteration order of
      hash sets ([compile_deterministic]).
    - Graphs: the search returns a forward order exactly for acyclic graphs
      ([topological_order_correct]); the reduction keeps reachability and
      nothing redundant ([transitive_solved_reduction_correct],
      [transitive_reduction_correct]); the components of [tarjan] are the
      classes of mutual reachability ([tarjan_correct]).
    - Indices: [find_root_correct], [cluster_map_correct], and every element of
      an [IndexVec] has an index of its type ([index_vec_typed]).
    - Scheduler and whole runs: an atom is handed out only after everything the
      test puts before it ([get_task_safe], [test_order_respected]); wait
      counts never underflow, and completing an atom panics only at the
      [todo!] for logs, when a [DebugName] would be ready ([mark_done_total]);
      runs are finite and end with everything done or at that [todo!], which a
      test without [DebugName]s never reaches ([sched_run_completes],
      [test_completes]), except when an atom is ordered before itself, which
      [compile] does not reject ([compile_keeps_self_dependency],
      [self_dependency_stuck], [self_dependent_test_stuck]).
    - Filters: each policy's program decides every system call as the policy
      says ([export_filter_decides]), also once it is written to a file and
      embedded ([embedded_filters_decide], [include_filter_roundtrip]);
      stricter policies allow less ([stricter_allows_less]), and the reserved
      descriptor range means the same to the filter and to the supervisor
      ([filter_agrees_with_lookup]).
    - Processes: the process table implements an abstract one whose steps are
      labelled with what is registered, forked or reaped, and a process is
      forked or reaped only on the evidence of the kernel, read off the log of
      the calls ([process_table_refines], [process_creation_table]); a creation
      that would share descriptors is skipped before the process runs on
      ([shared_tables_rejected]);
      following a creation delivers each signal once
      ([continue_to_fork_outcome]), rejecting one skips the system call
      ([reject_process_creation_effect]), and these loops end, with those that
      wait for a creation and reap ([ptrace_loops_end]), except for vfork
      ([vfork_never_created]).
    - The event loop: whatever a target does before its next fork or clone,
      each notified call is let through once and in order, the signals arrive,
      and the creation ends as the kernel and the supervisor say
      ([supervised_creation]); waiting without answering can wait forever
      ([blocking_wait_starves]).
    - Descriptors and memory: answers of the listener, tracking of descriptors,
      and a copy buffer that implements a list of bytes
      ([page_buffer_refines]) with exact copies from another process
      ([copy_bytes_exact], [copy_c_path_exact]).
    - Launches, in every interleaving of the processes: a target that is
      returned is filtered, traced and past execve ([spawned_target_ready]); a
      failure leaves no descriptor behind and, once the startup was read as
      done, is reported as it was recorded and leaves no target that runs, one
      at a stop it reported apart ([spawn_failure_reported]); every launch ends
      ([launch_ends]).
    - Tests: those of the crate that need no process of their own pass on the
      model ([graph_tests_pass], [model_tests_pass], [compiler_tests_pass] for
      every iteration order, [buffer_tests_pass], [supervisor_tests_pass]), and
      so do those of launches on the sample kernel ([launch_tests_pass],
      [target_tests_pass]).

    ** Conventions

    - The model is of a build with overflow checks and debug assertions: both
      panic.  Undefined behaviour of unsafe code is [Panic] too, so the theorems
      that exclude panics exclude it.
    - Indices and counts are [nat] with the bounds of [u32] and [usize] written
      out where the code can exceed them; descriptors and errors are [Z], raw
      system-call arguments [N].
    - A hash map or set is iterated in an order the model takes as a parameter
      ([HashOrder]): an arbitrary permutation that may differ between loops.
    - Fuel: [find_root] takes one more than the number of elements (the depth
      of a forest), [build_boundary] one more than the number of tasks (a task
      on the stack stops the recursion), the searches [dag_fuel] and [tj_fuel]
      (from the numbers of nodes and edges), the worklist [follow_fuel] (twice
      the number of edges plus one), the memory loops one more than the bytes
      to read, since every read makes progress.  The totality theorems show
      that none runs out.
    - Some loops last as long as the kernel makes them: [recv] while it reports
      interruptions, the ptrace loops while it reports stops
      ([finite_events]), the event loop while the target reports other things
      ([reports_cost]), the calls of a launch while they are interrupted.
      Their theorems ask for more fuel than there are such reports; the fuel
      of a launch bounds the consecutive interruptions of a call.
    - Traits are classes; a trait's laws are stated once and used by clients.

    ** What is not modelled

    - What a target does: the programs of the tests are scripts of what they
      report, not executables.  A test that runs one checks the kernel as much
      as the crate, and the kernel here is the documented one.
    - [Debug] implementations, re-exports (src/src/lib.rs, mod.rs), and what the
      build script prints to cargo.
    - Allocation failure, alignment, timing, and the orderings of atomic
      accesses: memory is sequentially consistent.  How far a vector grows when
      it is full is a parameter ([Growth]). *)

From stdpp Require Export base tactics list gmap sets strings numbers relations sorting.

#[export] Set Warnings "-clear-no-such-hyp".

(** ** Computations that return, fail, panic or run out of fuel

    [exec E A] is the result of running a piece of the Rust code: [Ret a] is a
    normal return (the [Ok] of a [Result]), [Throw e] an [Err(e)] that [?]
    propagates, [Panic] a Rust panic (index out of range, [unwrap] on [None],
    a failed [assert!]/[debug_assert!], an arithmetic overflow in a build with
    overflow checks, [todo!], [unreachable!]).  [NoFuel] is not a behaviour of
    the program: it marks a fuelled loop cut short, and every totality theorem
    excludes it. *)

Inductive exec (E A : Type) : Type :=
| Ret (a : A)
| Throw (e : E)
| Panic
| NoFuel.
Arguments Ret {E A} a.
Arguments Throw {E A} e.
Arguments Panic {E A}.
Arguments NoFuel {E A}.

#[global] Instance exec_ret {E} : MRet (exec E) := λ A a, Ret a.
#[global] Instance exec_bind {E} : MBind (exec E) := λ A B k m,
  match m with
  | Ret a => k a
  | Throw e => Throw e
  | Panic => Panic
  | NoFuel => NoFuel
  end.

(** Total-correctness postconditions: [wp m P Q] says that [m] neither panics
    nor runs out of fuel, that a returned value satisfies [P] and a thrown
    error satisfies [Q]. *)
Definition wp {E A} (m : exec E A) (P : A → Prop) (Q : E → Prop) : Prop :=
  match m with
  | Ret a => P a
  | Throw e => Q e
  | Panic | NoFuel => False
  end.

#[global] Arguments wp : simpl never.

(** [Option::expect] / [unwrap]. *)
Definition expect {E A} (o : option A) : exec E A :=
  match o with Some a => Ret a | None => Panic end.

(** [assert!] / [debug_assert!]. *)
Definition check {E} (b : bool) : exec E () :=
  if b then Ret () else Panic.

(** ** Vectors: [v[i]], [v[i] = x], [push], [pop], [last] *)

Definition vget {E A} (v : list A) (i : nat) : exec E A := expect (v !! i).

Definition vset {E A} (v : list A) (i : nat) (x : A) : exec E (list A) :=
  if decide (i < length v) then Ret (<[i:=x]> v) else Panic.

Definition vpush {A} (v : list A) (x : A) : list A := v ++ [x].

Definition vpop {A} (v : list A) : option (A * list A) :=
  match rev v with
  | [] => None
  | x :: r => Some (x, rev r)
  end.

(** The last element replaced (the target of [last_mut()]). *)
Definition vset_last {A} (v : list A) (x : A) : list A :=
  match vpop v with
  | Some (_, w) => vpush w x
  | None => v
  end.

(** [&v[start..stop]]: [None] when the range is decreasing or leaves [v]. *)
Definition slice {A} (v : list A) (start stop : nat) : option (list A) :=
  if decide (start <= stop ∧ stop <= length v)
  then Some (take (stop - start) (drop start v)) else None.

(** [Vec::dedup]: drops consecutive repetitions. *)
Fixpoint dedup {A} `{EqDecision A} (v : list A) : list A :=
  match v with
  | [] => []
  | x :: v' =>
      match v' with
      | [] => [x]
      | y :: _ => if decide (x = y) then dedup v' else x :: dedup v'
      end
  end.

(** [sort_unstable] on integers. *)
Definition sort_nat (v : list nat) : list nat := merge_sort le v.

(** [sort_unstable_by_key] on values paired with their keys.  The relative
    order of values with equal keys is the sorting library's choice; the
    theorems use it where equal keys mean equal values. *)
Definition key_le (a b : nat * nat) : Prop := a.1 <= b.1.
#[global] Instance key_le_dec : RelDecision key_le.
Proof. intros a b. unfold key_le. apply _. Defined.
Definition sort_by_key (v : list (nat * nat)) : list nat := snd <$> merge_sort key_le v.

(** Iteration order of a hash set of indices: any enumeration of the set,
    possibly a different one at every iteration.  The first argument names the
    iteration, so that two iterations over equal sets may differ. *)
Class HashOrder := {
  hash_iter : list nat → gset nat → list nat;
  hash_iter_perm : ∀ site s, hash_iter site s ≡ₚ elements s;
}.

(** ** Loops *)

(** [for x in xs { body }] over an iterator fixed before the loop. *)
Fixpoint for_each {E A S} (xs : list A) (body : A → S → exec E S) (s : S) : exec E S :=
  match xs with
  | [] => Ret s
  | x :: xs => s ← body x s; for_each xs body s
  end.

(** [while]/[loop] with explicit fuel: the body returns [inl s] to go round
    again and [inr r] to leave the loop. *)
Fixpoint loop {E S R} (body : S → exec E (S + R)) (fuel : nat) (s : S) : exec E R :=
  match fuel with
  | 0 => NoFuel
  | S fuel =>
      o ← body s;
      match o with
      | inl s => loop body fuel s
      | inr r => Ret r
      end
  end.

(** ** Machine integers *)

Definition u32_MAX : N := 4294967295.
Definition u64_MAX : N := 18446744073709551615.
Definition usize_MAX : N := u64_MAX.

(** [x as u32] for a [usize]. *)
Definition as_u32 (x : nat) : nat := N.to_nat (N.of_nat x `mod` 4294967296).

(** [a + b] on [usize] with overflow checks. *)
Definition usize_add {E} (a b : nat) : exec E nat :=
  if decide (N.of_nat a + N.of_nat b <= usize_MAX)%N then Ret (a + b) else Panic.

(** ** Rules for [wp] *)

Section wp_rules.
  Context {E A : Type}.
  Implicit Types (m : exec E A) (P : A → Prop) (Q : E → Prop).

Lemma wp_ret (a : A) P Q : P a → wp (E:=E) (Ret a) P Q.
Proof. exact (λ H, H). Qed.

Lemma wp_throw (e : E) P Q : Q e → wp (A:=A) (Throw e) P Q.
Proof. exact (λ H, H). Qed.

Lemma wp_mono m P P' Q Q' :
  wp m P Q → (∀ a, P a → P' a) → (∀ e, Q e → Q' e) → wp m P' Q'.
Proof. unfold wp. destruct m; auto. Qed.

Lemma wp_bind {B} m (k : A → exec E B) (P : B → Prop) Q :
  wp m (λ a, wp (k a) P Q) Q → wp (m ≫= k) P Q.
Proof. unfold wp. destruct m; auto. Qed.

Lemma wp_bind_inv {B} m (k : A → exec E B) (P : B → Prop) Q :
  wp (m ≫= k) P Q → wp m (λ a, wp (k a) P Q) Q.
Proof. unfold wp. destruct m; auto. Qed.

Lemma wp_inv m P Q : wp m P Q → (∃ a, m = Ret a ∧ P a) ∨ (∃ e, m = Throw e ∧ Q e).
Proof. unfold wp. destruct m; naive_solver. Qed.

Lemma wp_total m P : wp m P (λ _, False) → ∃ a, m = Ret a ∧ P a.
Proof. intros [?|(? & _ & [])]%wp_inv. done. Qed.

Lemma wp_eq m a P Q : m = Ret a → P a → wp m P Q.
Proof. intros -> ?. by apply wp_ret. Qed.

Lemma wp_ret_inv m a P Q : wp m P Q → m = Ret a → P a.
Proof. intros H ->. apply H. Qed.

Lemma wp_throw_inv m e P Q : wp m P Q → m = Throw e → Q e.
Proof. intros H ->. apply H. Qed.

Lemma wp_and m P P' Q : wp m P Q → wp m P' Q → wp m (λ a, P a ∧ P' a) Q.
Proof. unfold wp. destruct m; auto. Qed.

Lemma bind_ret_inv {B} m (k : A → exec E B) b :
  m ≫= k = Ret b → ∃ a, m = Ret a ∧ k a = Ret b.
Proof. destruct m; naive_solver. Qed.

Lemma wp_expect (o : option A) (a : A) P Q : o = Some a → P a → wp (E:=E) (expect o) P Q.
Proof. intros -> ?. by apply wp_ret. Qed.

Lemma wp_vget (v : list A) i P Q :
  i < length v → (∀ a, v !! i = Some a → P a) → wp (E:=E) (vget v i) P Q.
Proof.
  intros [a Ha]%lookup_lt_is_Some H. eapply wp_expect; [done|]. by apply H.
Qed.

Lemma vset_lt (v : list A) i x : i < length v → vset (E:=E) v i x = Ret (<[i:=x]> v).
Proof. intros H. unfold vset. by rewrite decide_True. Qed.

Lemma wp_vset (v : list A) i x (P : list A → Prop) Q :
  i < length v → P (<[i:=x]> v) → wp (E:=E) (vset v i x) P Q.
Proof. intros H ?. rewrite vset_lt by done. by apply wp_ret. Qed.

End wp_rules.

Lemma wp_check {E} b (P : () → Prop) (Q : E → Prop) : b = true → P () → wp (check b) P Q.
Proof. intros -> ?. by apply wp_ret. Qed.

(** The invariant of a [for] loop speaks about the prefix already visited. *)
Lemma wp_for_each {E A S} (I : list A → S → Prop) (xs : list A)
    (body : A → S → exec E S) (s : S) (P : S → Prop) (Q : E → Prop) :
  I [] s →
  (∀ pre x post s, xs = pre ++ x :: post → I pre s → wp (body x s) (I (pre ++ [x])) Q) →
  (∀ s, I xs s → P s) →
  wp (for_each xs body s) P Q.
Proof.
  intros Hinit Hstep Hfin.
  cut (∀ post pre s, xs = pre ++ post → I pre s → wp (for_each post body s) P Q).
  { intros H. by apply (H xs []). }
  clear s Hinit. induction post as [|x post IH]; intros pre s -> HI; simpl.
  - apply wp_ret, Hfin. by rewrite app_nil_r.
  - apply wp_bind. eapply wp_mono; [by eapply Hstep|simpl|done].
    intros s' HI'. apply (IH (pre ++ [x])); [|done]. by rewrite <-app_assoc.
Qed.

(** [wpp may m P]: [m] returns a value of [P], or panics, which it does only if
    [may]. *)
Definition wpp {E A} (may : Prop) (m : exec E A) (P : A → Prop) : Prop :=
  match m with Ret a => P a | Panic => may | Throw _ | NoFuel => False end.

Section wpp_rules.
  Context {E A : Type} {may : Prop}.
  Implicit Types (m : exec E A) (P : A → Prop).

Lemma wpp_wp m P : wp m P (λ _, False) → wpp may m P.
Proof. unfold wp, wpp. by destruct m. Qed.

Lemma wpp_mono m P P' : wpp may m P → (∀ a, P a → P' a) → wpp may m P'.
Proof. unfold wpp. destruct m; auto. Qed.

Lemma wpp_bind {B} m (k : A → exec E B) (P : B → Prop) :
  wpp may m (λ a, wpp may (k a) P) → wpp may (m ≫= k) P.
Proof. unfold wpp. destruct m; auto. Qed.

Lemma wpp_for_each {S} (I : list A → S → Prop) (xs : list A)
    (body : A → S → exec E S) (s : S) (P : S → Prop) :
  I [] s →
  (∀ pre x post s, xs = pre ++ x :: post → I pre s → wpp may (body x s) (I (pre ++ [x]))) →
  (∀ s, I xs s → P s) →
  wpp may (for_each xs body s) P.
Proof.
  intros Hinit Hstep Hfin.
  cut (∀ post pre s, xs = pre ++ post → I pre s → wpp may (for_each post body s) P).
  { intros H. by apply (H xs []). }
  clear s Hinit. induction post as [|x post IH]; intros pre s -> HI; simpl.
  - apply Hfin. by rewrite app_nil_r.
  - specialize (Hstep pre x post s eq_refl HI). destruct (body x s) as [s'| | |]; try done.
    apply (IH (pre ++ [x])); [|done]. by rewrite <-app_assoc.
Qed.

End wpp_rules.

Lemma wp_mapM {E A B} (R : A → B → Prop) (f : A → exec E B) (xs : list A)
    (P : list B → Prop) (Q : E → Prop) :
  (∀ x, x ∈ xs → wp (f x) (R x) Q) →
  (∀ ys, Forall2 R xs ys → P ys) →
  wp (mapM f xs) P Q.
Proof.
  revert P. induction xs as [|x xs IH]; intros P Hf HP; simpl.
  - apply wp_ret, HP. constructor.
  - apply wp_bind. eapply wp_mono; [apply Hf; left|simpl|done].
    intros y Hy. apply wp_bind. apply IH; [intros; apply Hf; by right|].
    intros ys Hys. apply wp_ret, HP. by constructor.
Qed.

Lemma mapM_ret {E A B} (f : A → exec E B) (g : A → B) (xs : list A) :
  (∀ x, x ∈ xs → f x = Ret (g x)) → mapM f xs = Ret (g <$> xs).
Proof.
  induction xs as [|x xs IH]; intros H; simpl; [done|].
  rewrite (H x) by left. simpl. rewrite IH; [done|]. intros; apply H; by right.
Qed.

(** A loop whose measure decreases at every turn returns, given more fuel than
    the initial measure, with what its invariant establishes on leaving. *)
Lemma wp_loop {E S R} (I : S → Prop) (μ : S → nat)
    (body : S → exec E (S + R)) (fuel : nat) (s : S) (P : R → Prop) (Q : E → Prop) :
  (∀ s, I s → wp (body s) (λ o, match o with
                                | inl s' => I s' ∧ μ s' < μ s
                                | inr r => P r
                                end) Q) →
  I s → μ s < fuel →
  wp (loop body fuel s) P Q.
Proof.
  intros Hbody. revert s. induction fuel as [|fuel IH]; intros s HI Hμ; [lia|]; simpl.
  apply wp_bind. eapply wp_mono; [by apply Hbody|simpl|done].
  intros [s'|r]; [|by apply wp_ret]. intros [HI' Hlt]. apply IH; [done|lia].
Qed.

(** ** Lists *)

Lemma vpop_app {A} (v : list A) x : vpop (v ++ [x]) = Some (x, v).
Proof. unfold vpop. rewrite rev_app_distr. simpl. by rewrite rev_involutive. Qed.

Lemma vpop_nil {A} : vpop (A:=A) [] = None.
Proof. done. Qed.

Lemma list_snoc_inv {A} (v : list A) : v = [] ∨ ∃ w x, v = w ++ [x].
Proof. destruct v as [|x w _] using rev_ind; eauto. Qed.

Lemma lookup_snoc {A} (v : list A) x : (v ++ [x]) !! length v = Some x.
Proof. rewrite lookup_app_r by lia. by rewrite Nat.sub_diag. Qed.

Lemma list_insert_snoc {A} (v : list A) x y : <[length v:=y]> (v ++ [x]) = v ++ [y].
Proof. rewrite insert_app_r_alt by lia. by rewrite Nat.sub_diag. Qed.

(** In a [for] loop over [0..n] the visited prefix is [0..x]. *)
Lemma seq_split n pre x post : seq 0 n = pre ++ x :: post → pre = seq 0 x ∧ x < n.
Proof.
  intros H.
  assert (Hlen : length pre + S (length post) = n).
  { apply (f_equal length) in H. rewrite length_seq, length_app in H. simpl in H. lia. }
  assert (Hx : (seq 0 n) !! length pre = Some x).
  { rewrite H, lookup_app_r by lia. by rewrite Nat.sub_diag. }
  apply lookup_seq in Hx as [-> Hlt]. simpl in *. split; [|lia].
  apply (f_equal (take (length pre))) in H.
  rewrite take_app_length, take_seq, Nat.min_l in H by lia. done.
Qed.

(** ** Integers *)

Lemma as_u32_small x : (N.of_nat x <= u32_MAX)%N → as_u32 x = x.
Proof. intros H. unfold as_u32, u32_MAX in *. rewrite N.mod_small; lia. Qed.

Lemma usize_add_small {E} a b :
  (N.of_nat a + N.of_nat b <= usize_MAX)%N → usize_add (E:=E) a b = Ret (a + b).
Proof. intros H. unfold usize_add. by rewrite decide_True. Qed.

(** ** Automation *)

Create HintDb exec.
#[export] Hint Resolve wp_ret wp_throw : exec.

(** One step of symbolic execution: open a bind, or close a [Ret]. *)
Ltac wp_step :=
  match goal with
  | |- wp (_ ≫= _) _ _ => apply wp_bind
  | |- wp (Ret _) _ _ => apply wp_ret
  | |- wp (Throw _) _ _ => apply wp_throw
  | |- wp (mret _) _ _ => apply wp_ret
  end.
Ltac wp_steps := repeat (wp_step; simpl).

(** Run [x ← vget v i; _] and [v ← vset v i x; _]. *)
Tactic Notation "wp_get" simple_intropattern(x) simple_intropattern(H) :=
  apply wp_bind, wp_vget; [solve [done|simpl; lia]|intros x H; cbv beta].
Tactic Notation "wp_set" :=
  apply wp_bind, wp_vset; [solve [done|simpl; lia]|cbv beta].

(** Turns [m ≫= k = Ret b] hypotheses into their components. *)
Ltac inv_bind H :=
  apply bind_ret_inv in H as (? & ? & H).
