(* ===== verification/Index.v ===== *)
(** * Typed indices and union-find ([src/src/index.rs])

    The [Idx] trait, [IndexSpan], pushing to an [IndexVec] and [UnionFind].  A
    value of an index type is the [usize] that [Idx::index] returns for it; what
    distinguishes the implementations is the range check of [Idx::new],
    recorded in [idx_limit]. *)

From S2P Require Import Prelude.

(** ** The [Idx] trait *)

Class Idx := { idx_limit : N }.

Definition idx_usize : Idx := {| idx_limit := usize_MAX |}.
Definition idx_u32 : Idx := {| idx_limit := u32_MAX |}.

Definition idx_fits `{Idx} (i : nat) : Prop := (N.of_nat i <= idx_limit)%N.

(** [Idx::new]: [assert!(idx <= u32::MAX as usize)] for [u32]; the identity on
    every [usize] for [usize]. *)
Definition idx_new `{Idx} {E} (i : nat) : exec E nat :=
  if decide (N.of_nat i <= idx_limit)%N then Ret i else Panic.

Definition idx_plus `{Idx} {E} (x amount : nat) : exec E nat :=
  s ← usize_add x amount; idx_new s.

Definition idx_increment_by `{Idx} {E} (x amount : nat) : exec E nat :=
  idx_plus x amount.

(** ** [IndexSpan] *)

Record IndexSpan := { span_start : nat; span_count : nat }.

Definition span_new `{Idx} {E} (start count : nat) : exec E IndexSpan :=
  c ← idx_new count; Ret {| span_start := start; span_count := c |}.

Definition span_begin (s : IndexSpan) : nat := span_start s.

Definition span_len (s : IndexSpan) : nat := span_count s.

Definition span_is_empty (s : IndexSpan) : bool := bool_decide (span_len s = 0).

Definition span_at `{Idx} {E} (s : IndexSpan) (index : nat) : exec E nat :=
  _ ← check (bool_decide (index < span_len s));
  idx_plus (span_start s) index.

Definition span_ids `{Idx} {E} (s : IndexSpan) : exec E (list nat) :=
  mapM (λ i, idx_plus (span_start s) i) (seq 0 (span_len s)).

Definition span_subslice `{Idx} {E} (s : IndexSpan) (offset count : nat) : exec E IndexSpan :=
  _ ← check (bool_decide (offset <= span_len s));
  stop ← usize_add offset count;
  _ ← check (bool_decide (stop <= span_len s));
  start ← idx_plus (span_start s) offset;
  span_new start count.

(** ** [IndexVec]: the operations that compute an index, on the contents

    The other methods are in [Collections]. *)

Section IndexVec.
  Context `{Idx} {E T : Type}.

Definition next_index (v : list T) : exec E nat := idx_new (length v).

Definition index_push (v : list T) (value : T) : exec E (nat * list T) :=
  index ← next_index v; Ret (index, vpush v value).

End IndexVec.

(** ** [UnionFind] *)

Section UnionFind.
  Context `{Idx} {E : Type}.

Definition push_singleton (uf : list nat) : exec E (nat * list nat) :=
  id ← next_index uf; Ret (id, vpush uf id).

(** [find_root] recurses on the parent and compresses the path on the way
    back; the fuel bounds the recursion depth. *)
Fixpoint find_root (fuel : nat) (uf : list nat) (idx : nat) : exec E (nat * list nat) :=
  match fuel with
  | 0 => NoFuel
  | S fuel =>
      p ← vget uf idx;
      if decide (p = idx) then Ret (idx, uf)
      else
        '(root, uf) ← find_root fuel uf p;
        uf ← vset uf idx root;
        Ret (root, uf)
  end.

(** First loop of [cluster_map]: compress every path. *)
Definition compress_all (uf : list nat) : exec E (list nat) :=
  for_each (seq 0 (length uf)) (λ raw_index uf,
    index ← idx_new raw_index;
    '(_, uf) ← find_root (S (length uf)) uf index;
    Ret uf) uf.

(** Second loop: number the roots in index order. *)
Definition number_roots (uf map : list nat) : exec E (list nat * nat) :=
  for_each (seq 0 (length uf)) (λ raw_index '(map, cluster_count),
    index ← idx_new raw_index;
    p ← vget uf index;
    if decide (p = index) then
      c ← idx_new cluster_count;
      map ← vset map index c;
      Ret (map, S cluster_count)
    else Ret (map, cluster_count)) (map, 0).

(** Third loop: every element takes its root's number. *)
Definition spread_numbers (uf map : list nat) : exec E (list nat) :=
  for_each (seq 0 (length uf)) (λ raw_index map,
    index ← idx_new raw_index;
    p ← vget uf index;
    c ← vget map p;
    vset map index c) map.

(** Returns the cluster map, the number of clusters and the compressed
    forest. *)
Definition cluster_map (uf : list nat) : exec E (list nat * nat * list nat) :=
  zero ← idx_new 0;
  let map := replicate (length uf) zero in
  uf ← compress_all uf;
  '(map, cluster_count) ← number_roots uf map;
  map ← spread_numbers uf map;
  Ret (map, cluster_count, uf).

End UnionFind.

(** *** Specification of the forest *)

Definition uf_parent (uf : list nat) (i p : nat) : Prop := uf !! i = Some p ∧ p ≠ i.

Definition uf_root (uf : list nat) (i r : nat) : Prop :=
  rtc (uf_parent uf) i r ∧ uf !! r = Some r.

(** A forest: parents are in range and [rank] decreases towards the root. *)
Definition uf_forest (rank : nat → nat) (uf : list nat) : Prop :=
  ∀ i p, uf !! i = Some p → p < length uf ∧ (p ≠ i → rank p < rank i).

(** Number of elements of rank below [i]'s. *)
Definition uf_depth (rank : nat → nat) (n i : nat) : nat :=
  length (filter (λ j, rank j < rank i) (seq 0 n)).

(** The path from [i] is compressed to [r], and the rest is as it was. *)
Definition uf_flattened (uf : list nat) (i r : nat) (uf' : list nat) : Prop :=
  (∀ j, rtc (uf_parent uf) i j → uf' !! j = Some r) ∧
  (∀ j, ¬ rtc (uf_parent uf) i j → uf' !! j = uf !! j).

(** What compressing paths may do to a forest. *)
Definition uf_compressed (rank : nat → nat) (uf uf' : list nat) : Prop :=
  length uf' = length uf ∧ uf_forest rank uf' ∧
  (∀ j s, uf_root uf j s → uf_root uf' j s) ∧
  (∀ j, uf' !! j = uf !! j ∨ ∃ s, uf_root uf j s ∧ uf' !! j = Some s).

(** The number of a root: how many roots have a smaller index. *)
Definition uf_number (uf : list nat) (r : nat) : nat :=
  length (filter (λ i, uf !! i = Some i) (seq 0 r)).

(** Every index below [n] passes [Idx::new]. *)
Definition idx_room `{Idx} (n : nat) : Prop := ∀ i, i < n → idx_fits i.

(** ** Lemmas *)


Lemma idx_new_fits `{Idx} {E} i : idx_fits i → idx_new (E:=E) i = Ret i.
Proof. intros H'. unfold idx_new. by rewrite decide_True. Qed.

Lemma wp_idx_new `{Idx} {E} i (P : nat → Prop) (Q : E → Prop) :
  idx_fits i → P i → wp (idx_new i) P Q.
Proof. intros ? ?. rewrite idx_new_fits by done. by apply wp_ret. Qed.

(** Run [i ← idx_new n; _]. *)
Ltac wp_new := apply wp_bind, wp_idx_new; [by auto|cbv beta].

Lemma idx_fits_le `{Idx} i j : i <= j → idx_fits j → idx_fits i.
Proof. unfold idx_fits. lia. Qed.

Lemma uf_root_in uf i r : uf_root uf i r → r < length uf.
Proof. intros [_ ?]. by eapply lookup_lt_Some. Qed.

Lemma uf_root_det uf i r r' : uf_root uf i r → uf_root uf i r' → r = r'.
Proof.
  intros [Hr Hrr] [Hr' Hrr']. revert Hr'.
  induction Hr as [i|i p r [Hip Hne] _ IH]; intros Hr'.
  - inversion Hr' as [|? ? ? [? ?]]; naive_solver.
  - apply IH; [done|]. inversion Hr' as [|? p' ? [? ?]]; naive_solver.
Qed.

Lemma uf_root_step uf i p r : uf !! i = Some p → uf_root uf p r → uf_root uf i r.
Proof.
  intros Hi [Hp Hr]. split; [|done].
  destruct (decide (p = i)) as [->|]; [done|]. by eapply rtc_l.
Qed.

Lemma uf_root_parent uf i p r : uf !! i = Some p → uf_root uf i r → uf_root uf p r.
Proof.
  intros Hi [Hp Hr]. split; [|done].
  inversion Hp as [|? p' ? [Hi' ?]]; simplify_eq; done.
Qed.

Section forest.
  Context (rank : nat → nat).

Lemma uf_root_rank uf i r :
  uf_forest rank uf → uf_root uf i r → r ≠ i → rank r < rank i.
Proof.
  intros Hf [Hp _]. induction Hp as [i|i p r [Hi Hne] Hp IH]; [done|].
  intros _. destruct (Hf _ _ Hi) as [_ Hlt]. specialize (Hlt Hne).
  destruct (decide (r = p)) as [->|Hrp]; [done|]. specialize (IH Hrp). lia.
Qed.

Lemma uf_root_exists uf i :
  uf_forest rank uf → i < length uf → ∃ r, uf_root uf i r.
Proof.
  intros Hf. remember (rank i) as k eqn:Hk. revert i Hk.
  induction k as [k IH] using lt_wf_ind. intros i -> [p Hp]%lookup_lt_is_Some.
  destruct (decide (p = i)) as [->|Hne]; [by exists i; split|].
  destruct (Hf _ _ Hp) as [Hlt Hr].
  destruct (IH (rank p) (Hr Hne) p eq_refl Hlt) as [r Hroot].
  exists r. by eapply uf_root_step.
Qed.

(** Pointing an element at its root changes no root. *)
Lemma uf_root_compress uf i r :
  uf_forest rank uf → uf_root uf i r →
  uf_forest rank (<[i:=r]> uf) ∧ (∀ j s, uf_root uf j s → uf_root (<[i:=r]> uf) j s).
Proof.
  intros Hf Hir. pose proof (uf_root_in _ _ _ Hir) as Hr.
  split.
  - intros j p [(-> & <- & Hlt)|[Hne Hj]]%list_lookup_insert_Some.
    + rewrite length_insert. split; [done|]. by eapply uf_root_rank.
    + rewrite length_insert. by apply Hf.
  - intros j s [Hjs Hs]. revert Hs.
    assert (Hrr : <[i:=r]> uf !! r = Some r).
    { destruct (decide (i = r)) as [->|];
        [by rewrite list_lookup_insert_eq|].
      rewrite list_lookup_insert_ne by done. apply Hir. }
    induction Hjs as [s|j p s [Hj Hne] Hps IH]; intros Hs.
    + split; [done|]. destruct (decide (i = s)) as [->|].
      * by rewrite (uf_root_det uf s r s Hir (conj (rtc_refl _ _) Hs)) in *.
      * by rewrite list_lookup_insert_ne.
    + destruct (decide (i = j)) as [->|].
      * assert (r = s) as ->.
        { eapply uf_root_det; [done|]. split; [|done]. by eapply rtc_l. }
        eapply uf_root_step; [apply list_lookup_insert_eq; by eapply lookup_lt_Some|].
        by split.
      * eapply uf_root_step; [by rewrite list_lookup_insert_ne|]. by apply IH.
Qed.

Lemma uf_depth_lt n i p : p < n → rank p < rank i → uf_depth rank n p < uf_depth rank n i.
Proof.
  intros Hp Hlt. unfold uf_depth.
  assert (Hperm : p :: filter (λ j, rank j < rank p) (seq 0 n) ⊆+
                  filter (λ j, rank j < rank i) (seq 0 n)).
  { apply NoDup_submseteq.
    - constructor; [rewrite list_elem_of_filter; lia|]. apply NoDup_filter, NoDup_seq.
    - intros x [->|Hx]%elem_of_cons; rewrite list_elem_of_filter in *; rewrite elem_of_seq in *; lia. }
  apply submseteq_length in Hperm. simpl in Hperm. lia.
Qed.

Lemma uf_depth_le n i : uf_depth rank n i <= n.
Proof. unfold uf_depth. etrans; [apply length_filter|]. by rewrite length_seq. Qed.

Lemma uf_compressed_refl uf : uf_forest rank uf → uf_compressed rank uf uf.
Proof. intros Hf. split_and!; auto. Qed.

Lemma find_root_spec {E} fuel uf i (Q : E → Prop) :
  uf_forest rank uf → i < length uf → uf_depth rank (length uf) i < fuel →
  wp (find_root fuel uf i)
     (λ '(r, uf'), uf_root uf i r ∧ uf_flattened uf i r uf' ∧ uf_compressed rank uf uf') Q.
Proof.
  revert uf i. induction fuel as [|fuel IH]; intros uf i Hf Hi Hd; [lia|]. simpl.
  wp_get p Hp. case_decide as Hpi.
  - subst p. split; [by split|]. split; [|by apply uf_compressed_refl]. split; [|done].
    intros j Hij. by inversion Hij as [|? q ? [Hq Hne] _]; simplify_eq.
  - destruct (Hf _ _ Hp) as [Hlt Hrk]. specialize (Hrk Hpi).
    pose proof (uf_depth_lt (length uf) i p Hlt Hrk).
    apply wp_bind. eapply wp_mono; [apply IH; [done..|lia]| |done].
    intros [r uf1] (Hroot & [Hup Hoff] & Hlen & Hf1 & Hroots & Hch). simpl.
    wp_set. simpl.
    assert (Hir : uf_root uf i r) by by eapply uf_root_step.
    destruct (uf_root_compress uf1 i r Hf1 (Hroots _ _ Hir)) as [Hf2 Hroots2].
    assert (Hat : <[i:=r]> uf1 !! i = Some r) by (apply list_lookup_insert_eq; lia).
    split; [done|]. split; [|split; [by rewrite length_insert|split; [done|split; [by eauto|]]]].
    + split; intros j Hij; (destruct (decide (i = j)) as [<-|Hne]; [|rewrite list_lookup_insert_ne by done]).
      * done.
      * apply Hup. by inversion Hij as [|? q ? [Hq _]]; simplify_eq.
      * by destruct Hij.
      * apply Hoff. intros Hpj. apply Hij. by eapply rtc_l.
    + intros j. destruct (decide (i = j)) as [<-|]; [by right; exists r|].
      rewrite list_lookup_insert_ne by done. apply Hch.
Qed.

(** *** [cluster_map] *)


Lemma compress_all_spec `{Idx} {E} uf (P : list nat → Prop) (Q : E → Prop) :
  uf_forest rank uf → idx_room (length uf) →
  (∀ uf', uf_compressed rank uf uf' → (∀ j s, uf_root uf j s → uf' !! j = Some s) → P uf') →
  wp (compress_all uf) P Q.
Proof.
  intros Hf Hroom HP. unfold compress_all.
  apply (wp_for_each (λ pre uf', uf_compressed rank uf uf' ∧
    ∀ j s, j ∈ pre → uf_root uf j s → uf' !! j = Some s)).
  - split; [by apply uf_compressed_refl|]. by intros ? ? ?%elem_of_nil.
  - intros pre x post uf1 [-> Hx]%seq_split [(Hlen & Hf1 & Hr1 & Hc1) Hpre].
    wp_new. apply wp_bind.
    eapply wp_mono; [apply find_root_spec; [done|lia|]| |done].
    { pose proof (uf_depth_le (length uf1) x). lia. }
    intros [r uf2] (Hroot & [Hpath _] & Hlen2 & Hf2 & Hr2 & Hc2).
    pose proof (Hpath x (rtc_refl _ _)) as Hx2. simpl. split.
    + split_and!; [lia|done|by eauto|]. intros j.
      destruct (Hc2 j) as [->|(s & Hs & ->)]; [apply Hc1|].
      destruct (decide (j < length uf)) as [Hj|Hj].
      * destruct (uf_root_exists uf j Hf Hj) as [s' Hs']. right. exists s'.
        split; [done|]. f_equal. eapply uf_root_det; [done|]. by apply Hr1.
      * destruct Hs as [Hs1 Hs2]. inversion Hs1 as [|? ? ? [Hj' ?]]; subst;
          [apply lookup_lt_Some in Hs2|apply lookup_lt_Some in Hj']; lia.
    + intros j s [Hj| ->%list_elem_of_singleton]%elem_of_app Hs.
      * destruct (Hc2 j) as [->|(s' & Hs' & ->)]; [by apply Hpre|].
        f_equal. eapply uf_root_det; [done|]. by apply Hr1.
      * rewrite Hx2. f_equal. eapply uf_root_det; [done|]. by apply Hr1.
  - intros uf' [Hc Hall]. apply HP; [done|]. intros j s Hs. apply Hall; [|done].
    apply elem_of_seq. split; [lia|]. destruct Hs as [Hs1 Hs2].
    inversion Hs1 as [|? ? ? [Hj ?]]; subst; by eapply lookup_lt_Some.
Qed.

End forest.

Lemma uf_number_S uf r :
  uf_number uf (S r) = uf_number uf r + (if decide (uf !! r = Some r) then 1 else 0).
Proof.
  unfold uf_number. rewrite seq_S, filter_app, length_app. f_equal. simpl.
  rewrite filter_cons. by case_decide.
Qed.

Lemma uf_number_le uf r : uf_number uf r <= r.
Proof. unfold uf_number. etrans; [apply length_filter|]. by rewrite length_seq. Qed.

Lemma uf_number_mono uf r s : r <= s → uf_number uf r <= uf_number uf s.
Proof.
  induction 1 as [|s _ IH]; [done|]. rewrite uf_number_S. lia.
Qed.

Lemma uf_number_lt uf r s :
  uf !! r = Some r → r < s → uf_number uf r < uf_number uf s.
Proof.
  intros Hr Hlt. pose proof (uf_number_mono uf (S r) s Hlt) as Hm.
  rewrite uf_number_S, decide_True in Hm by done. lia.
Qed.

Lemma uf_number_inj uf r s :
  uf !! r = Some r → uf !! s = Some s → uf_number uf r = uf_number uf s → r = s.
Proof.
  intros Hr Hs Heq. destruct (Nat.lt_trichotomy r s) as [Hlt|[?|Hlt]]; [|done|].
  - pose proof (uf_number_lt uf r s Hr Hlt). lia.
  - pose proof (uf_number_lt uf s r Hs Hlt). lia.
Qed.

(** Every number below the number of roots is taken. *)
Lemma uf_number_dense uf n c :
  c < uf_number uf n → ∃ r, r < n ∧ uf !! r = Some r ∧ uf_number uf r = c.
Proof.
  induction n as [|n IH]; intros Hc; [unfold uf_number in Hc; simpl in Hc; lia|].
  rewrite uf_number_S in Hc. destruct (decide (c < uf_number uf n)) as [Hlt|Hge].
  - destruct (IH Hlt) as (r & ? & ?). exists r. split; [lia|done].
  - case_decide; [|lia]. exists n. split; [lia|]. split; [done|lia].
Qed.

Lemma number_roots_spec `{Idx} {E} uf map0 (P : list nat * nat → Prop) (Q : E → Prop) :
  idx_room (length uf) → length map0 = length uf →
  (∀ map, length map = length uf →
     (∀ r, uf !! r = Some r → map !! r = Some (uf_number uf r)) →
     P (map, uf_number uf (length uf))) →
  wp (number_roots uf map0) P Q.
Proof.
  intros Hroom Hlen0 HP. unfold number_roots.
  apply (wp_for_each (λ pre '(map, c), c = uf_number uf (length pre) ∧
    length map = length uf ∧
    ∀ r, r < length pre → uf !! r = Some r → map !! r = Some (uf_number uf r))).
  - simpl. split_and!; [done..|lia].
  - intros pre x post [map c] [-> Hx]%seq_split (-> & Hlen & Hmap).
    wp_new. apply wp_bind, wp_vget; [done|].
    intros p Hp. rewrite length_app, !length_seq in *. simpl. rewrite Nat.add_1_r.
    case_decide as Hpx.
    + subst p. pose proof (uf_number_le uf x). apply wp_bind, wp_idx_new; [apply Hroom; lia|]. cbv beta. wp_set. simpl.
      rewrite uf_number_S, decide_True by done. split; [lia|].
      rewrite length_insert. split; [done|]. intros r Hr Hrr.
      destruct (decide (r = x)) as [->|]; [apply list_lookup_insert_eq; lia|].
      rewrite list_lookup_insert_ne by done. apply Hmap; [lia|done].
    + simpl. rewrite uf_number_S, decide_False by naive_solver.
      split; [lia|]. split; [done|]. intros r Hr Hrr.
      destruct (decide (r = x)) as [->|]; [naive_solver|]. apply Hmap; [lia|done].
  - intros [map c]. rewrite length_seq. intros (-> & Hlen & Hmap). apply HP; [done|].
    intros r Hr. apply Hmap; [by eapply lookup_lt_Some|done].
Qed.

Lemma spread_numbers_spec `{Idx} {E} uf map0 (P : list nat → Prop) (Q : E → Prop) :
  idx_room (length uf) → length map0 = length uf →
  (∀ i r, uf !! i = Some r → uf !! r = Some r) →
  (∀ r, uf !! r = Some r → map0 !! r = Some (uf_number uf r)) →
  (∀ map, length map = length uf →
     (∀ i r, uf !! i = Some r → map !! i = Some (uf_number uf r)) → P map) →
  wp (spread_numbers uf map0) P Q.
Proof.
  intros Hroom Hlen0 Hflat Hmap0 HP. unfold spread_numbers.
  apply (wp_for_each (λ pre map, length map = length uf ∧
    ∀ i r, uf !! i = Some r → i ∈ pre ∨ i = r → map !! i = Some (uf_number uf r))).
  - split; [done|]. intros i r Hi [[]%elem_of_nil| ->]. by apply Hmap0.
  - intros pre x post map [-> Hx]%seq_split (Hlen & Hmap).
    wp_new. apply wp_bind, wp_vget; [done|].
    intros p Hp. simpl. apply wp_bind. unfold vget.
    assert (Hpp : map !! p = Some (uf_number uf p)) by (apply Hmap; [by eapply Hflat|by right]).
    rewrite Hpp. simpl. apply wp_vset; [lia|]. rewrite length_insert. split; [done|].
    intros i r Hi Hor. destruct (decide (i = x)) as [->|].
    + simplify_eq. apply list_lookup_insert_eq. lia.
    + rewrite list_lookup_insert_ne by done. apply Hmap; [done|].
      destruct Hor as [[?| ->%list_elem_of_singleton]%elem_of_app|]; auto; done.
  - intros map [Hlen Hmap]. apply HP; [done|]. intros i r Hi. apply Hmap; [done|].
    left. apply elem_of_seq. split; [lia|]. by eapply lookup_lt_Some.
Qed.

Lemma cluster_map_spec `{Idx} {E} rank uf (P : list nat * nat * list nat → Prop) (Q : E → Prop) :
  uf_forest rank uf → idx_room (length uf) →
  (∀ map uf', length map = length uf → uf_compressed rank uf uf' →
     (∀ i r, uf_root uf i r → map !! i = Some (uf_number uf r)) →
     P (map, uf_number uf (length uf), uf')) →
  wp (cluster_map uf) P Q.
Proof.
  intros Hf Hroom HP. unfold cluster_map.
  apply wp_bind, wp_idx_new; [unfold idx_fits; lia|]. cbv beta zeta.
  apply wp_bind, (compress_all_spec rank); [done..|]. intros uf' Hc Hflat.
  destruct Hc as (Hlen & Hf' & Hr & Hch).
  assert (Hroots : ∀ r, uf' !! r = Some r ↔ uf !! r = Some r).
  { intros r. split; intros Hrr.
    - destruct (uf_root_exists rank uf r Hf) as [s Hs]; [rewrite <-Hlen; by eapply lookup_lt_Some|].
      pose proof (Hflat _ _ Hs). simplify_eq. apply Hs.
    - apply Hflat. by split. }
  assert (Hnum : ∀ r, uf_number uf' r = uf_number uf r).
  { intros r. unfold uf_number. f_equal. apply list_filter_iff. done. }
  apply wp_bind, number_roots_spec; [by rewrite Hlen|by rewrite length_replicate|].
  intros map1 Hlen1 Hmap1. apply wp_bind, spread_numbers_spec;
    [by rewrite Hlen|done| |done|].
  { intros i r Hi. apply Hroots.
    destruct (uf_root_exists rank uf i Hf) as [s Hs]; [rewrite <-Hlen; by eapply lookup_lt_Some|].
    pose proof (Hflat _ _ Hs). simplify_eq. apply Hs. }
  intros map Hlen2 Hmap. apply wp_ret. rewrite Hnum, Hlen.
  apply HP; [lia|by split_and!|]. intros i r Hi. rewrite <-Hnum. apply Hmap. by apply Hflat.
Qed.

(** ** Properties *)

(** C31: [find_root] on a forest returns the root of the element, makes every
    element of the path to it point at the root, changes no other element, and
    leaves every element's root as it was; it never recurses deeper than the
    number of elements. *)
Theorem find_root_correct rank uf i :
  uf_forest rank uf → i < length uf →
  ∃ r uf', find_root (E:=()) (S (length uf)) uf i = Ret (r, uf') ∧
    uf_root uf i r ∧ uf_flattened uf i r uf' ∧ length uf' = length uf ∧
    uf_forest rank uf' ∧ ∀ j s, uf_root uf j s ↔ uf_root uf' j s.
Proof.
  intros Hf Hi.
  pose proof (uf_depth_le rank (length uf) i) as Hd.
  destruct (wp_total _ _ (find_root_spec rank (E:=()) (S (length uf)) uf i _ Hf Hi
    ltac:(lia))) as ([r uf'] & -> & Hr & Hup & Hlen & Hf' & Hroots & _).
  exists r, uf'. split_and!; try done. intros j s. split; [apply Hroots|].
  intros Hs. destruct (uf_root_exists rank uf j Hf) as [s' Hs'].
  { rewrite <-Hlen. destruct Hs as [Hs1 Hs2].
    inversion Hs1 as [|? ? ? [Hj ?]]; subst; by eapply lookup_lt_Some. }
  by rewrite (uf_root_det _ _ _ _ Hs (Hroots _ _ Hs')).
Qed.

Lemma find_root_correct_witness :
  ∃ r uf', find_root (E:=()) 7 [1; 2; 2; 4; 4; 5] 0 = Ret (r, uf') ∧ r = 2 ∧
    uf' = [2; 2; 2; 4; 4; 5] ∧ uf_flattened [1; 2; 2; 4; 4; 5] 0 r uf'.
Proof.
  destruct (find_root_correct (λ i, 6 - i) [1; 2; 2; 4; 4; 5] 0)
    as (r & uf' & Heq & _ & Hflat & _).
  - intros i p Hi. repeat (destruct i as [|i]; [injection Hi as <-; simpl; lia|simpl in Hi]).
    discriminate Hi.
  - simpl. lia.
  - exists r, uf'. split; [exact Heq|]. vm_compute in Heq. injection Heq as <- <-.
    split; [reflexivity|]. split; [reflexivity|exact Hflat].
Defined.

(** C32: [cluster_map] on a forest numbers the clusters densely in root-index
    order: an element's number is the number of roots below its root, so two
    elements share a number exactly when they share a root, and every number
    below the returned count is used. *)
Theorem cluster_map_correct `{Idx} rank uf :
  uf_forest rank uf → idx_room (length uf) →
  ∃ map count uf', cluster_map (E:=()) uf = Ret (map, count, uf') ∧
    length map = length uf ∧
    (∀ i r, uf_root uf i r → map !! i = Some (uf_number uf r)) ∧
    (∀ i j r s, uf_root uf i r → uf_root uf j s → map !! i = map !! j ↔ r = s) ∧
    (∀ i c, map !! i = Some c → c < count) ∧
    (∀ c, c < count → ∃ i, map !! i = Some c).
Proof.
  intros Hf Hroom.
  assert (Hwp : wp (E:=()) (cluster_map uf) (λ '(map, count, uf'),
    length map = length uf ∧ count = uf_number uf (length uf) ∧
    ∀ i r, uf_root uf i r → map !! i = Some (uf_number uf r)) (λ _, False)).
  { apply (cluster_map_spec rank); [done..|]. intros. by split_and!. }
  apply wp_total in Hwp as ([[map count] uf'] & -> & Hlen & -> & Hmap).
  exists map, (uf_number uf (length uf)), uf'. split_and!; try done.
  - intros i j r s Hi Hj. rewrite (Hmap _ _ Hi), (Hmap _ _ Hj). split; [|by intros ->].
    intros [= Heq]. eapply uf_number_inj; [apply Hi|apply Hj|done].
  - intros i c Hi. pose proof (lookup_lt_Some _ _ _ Hi) as Hlt. rewrite Hlen in Hlt.
    destruct (uf_root_exists rank uf i Hf Hlt) as [r Hr].
    rewrite (Hmap _ _ Hr) in Hi. injection Hi as <-.
    apply uf_number_lt; [apply Hr|by eapply uf_root_in].
  - intros c (r & Hr & Hrr & <-)%uf_number_dense. exists r. apply Hmap. by split.
Qed.

Lemma cluster_map_correct_witness :
  ∃ map count uf', cluster_map (H:=idx_u32) (E:=()) [1; 2; 2; 4; 4; 5] = Ret (map, count, uf') ∧
    map = [0; 0; 0; 1; 1; 2] ∧ count = 3 ∧ (∀ c, c < count → ∃ i, map !! i = Some c).
Proof.
  destruct (cluster_map_correct (H:=idx_u32) (λ i, 6 - i) [1; 2; 2; 4; 4; 5])
    as (map & count & uf' & Heq & _ & _ & _ & _ & Hd).
  - intros i p Hi. repeat (destruct i as [|i]; [injection Hi as <-; simpl; lia|simpl in Hi]).
    discriminate Hi.
  - intros i Hi. unfold idx_fits. simpl in *. unfold u32_MAX. lia.
  - exists map, count, uf'. split; [exact Heq|]. vm_compute in Heq.
    injection Heq as <- <- _. repeat split. exact Hd.
Defined.
