(* ===== verification/Collections.v ===== *)
(** * Typed slices and vectors ([src/src/index.rs], lines 99 to 467 and 517 to 546)

    [IndexSlice], [IndexSliceMut] and [IndexVec] wrap a slice, a mutable slice
    and a [Vec] whose positions are named by an index type.  The other files
    use the contents of an [IndexVec] as a list; this file has every method of
    the three types, with the capacity of the vector and with mutable
    references, and shows what the index type guarantees. *)

From S2P Require Import Prelude Index.

(** ** Mutable references

    A mutable reference to a part [A] of an owner [S]: what it reads and what
    the owner becomes when it is written. *)

Record Borrow (S A : Type) := borrow { deref : A; write : A → S }.
Arguments borrow {S A} deref write.
Arguments deref {S A} b.
Arguments write {S A} b x.

(** The owner of the owner. *)
Definition reborrow {S S' A} (f : S → S') (b : Borrow S A) : Borrow S' A :=
  borrow (deref b) (f ∘ write b).

(** [slice::get_mut]. *)
Definition slot {T} (l : list T) (i : nat) : option (Borrow (list T) T) :=
  x ← l !! i; Some (borrow x (λ y, <[i:=y]> l)).

(** [slice::iter_mut]: a loop that left after some elements has written only
    those. *)
Definition slots {T} (l : list T) : Borrow (list T) (list T) :=
  borrow l (λ w, take (length l) w ++ drop (length w) l).

(** [get_disjoint_mut([a, b])]: an error when the positions coincide or one is
    out of range. *)
Definition disjoint_slots {T} (l : list T) (a b : nat) : option (Borrow (list T) (T * T)) :=
  if decide (a = b) then None
  else
    x ← l !! a;
    y ← l !! b;
    Some (borrow (x, y) (λ '(x', y'), <[b:=y']> (<[a:=x']> l))).

(** The pairs that [enumerate().map(|(i, value)| (I::new(i), value))] yields. *)
Definition enumerated `{Idx} {E T} (l : list T) : exec E (list (nat * T)) :=
  mapM (λ '(i, value), j ← idx_new i; Ret (j, value)) (imap pair l).

(** ** [IndexSlice] *)

Record IndexSlice (T : Type) := slice_new { slice_raw : list T }.
Arguments slice_new {T} slice_raw.
Arguments slice_raw {T} i.

Section IndexSlice.
  Context `{Idx} {E T : Type}.

Definition slice_len (s : IndexSlice T) : nat := length (slice_raw s).

Definition slice_is_empty (s : IndexSlice T) : bool := bool_decide (slice_raw s = []).

Definition slice_get (s : IndexSlice T) (index : nat) : option T := slice_raw s !! index.

Definition slice_iter (s : IndexSlice T) : list T := slice_raw s.

Definition slice_iter_enumerated (s : IndexSlice T) : exec E (list (nat * T)) :=
  enumerated (slice_raw s).

Definition slice_index (s : IndexSlice T) (index : nat) : exec E T := vget (slice_raw s) index.

End IndexSlice.

(** ** [IndexSliceMut] *)

Record IndexSliceMut (T : Type) := slice_mut_new { slice_mut_raw : list T }.
Arguments slice_mut_new {T} slice_mut_raw.
Arguments slice_mut_raw {T} i.

Section IndexSliceMut.
  Context `{Idx} {E T : Type}.
  Implicit Types s : IndexSliceMut T.

Definition slice_mut_len s : nat := length (slice_mut_raw s).

Definition slice_mut_is_empty s : bool := bool_decide (slice_mut_raw s = []).

Definition slice_mut_get s (index : nat) : option T := slice_mut_raw s !! index.

Definition slice_mut_get_mut s (index : nat) : option (Borrow (IndexSliceMut T) T) :=
  reborrow slice_mut_new <$> slot (slice_mut_raw s) index.

Definition slice_mut_iter s : list T := slice_mut_raw s.

Definition slice_mut_iter_mut s : Borrow (IndexSliceMut T) (list T) :=
  reborrow slice_mut_new (slots (slice_mut_raw s)).

Definition slice_mut_iter_enumerated s : exec E (list (nat * T)) := enumerated (slice_mut_raw s).

(** The indices of the elements, and the references to them. *)
Definition slice_mut_iter_enumerated_mut s
    : exec E (list nat * Borrow (IndexSliceMut T) (list T)) :=
  pairs ← enumerated (slice_mut_raw s);
  Ret (pairs.*1, reborrow slice_mut_new (slots (slice_mut_raw s))).

Definition slice_mut_pick2_mut s (a b : nat) : exec E (Borrow (IndexSliceMut T) (T * T)) :=
  r ← expect (disjoint_slots (slice_mut_raw s) a b);
  Ret (reborrow slice_mut_new r).

Definition slice_mut_index s (index : nat) : exec E T := vget (slice_mut_raw s) index.

Definition slice_mut_index_mut s (index : nat) : exec E (Borrow (IndexSliceMut T) T) :=
  r ← expect (slot (slice_mut_raw s) index);
  Ret (reborrow slice_mut_new r).

End IndexSliceMut.

(** ** [IndexVec]

    [Vec] promises a capacity that is enough, not which one: [grow] is what
    the library chooses when [needed] elements exceed the capacity. *)

Class Growth := {
  grow : nat → nat → nat;
  grow_enough cap needed : needed <= grow cap needed;
}.

Record IndexVec (T : Type) := { vec_raw : list T; vec_capacity : nat }.
Arguments vec_raw {T} i.
Arguments vec_capacity {T} i.

Section IndexVec.
  Context `{Idx} `{Growth} {E T : Type}.
  Implicit Types v : IndexVec T.

(** The same allocation with other contents. *)
Definition vec_with v (l : list T) : IndexVec T :=
  {| vec_raw := l; vec_capacity := vec_capacity v |}.

Definition vec_new : IndexVec T := {| vec_raw := []; vec_capacity := 0 |}.

Definition vec_with_capacity (capacity : nat) : IndexVec T :=
  {| vec_raw := []; vec_capacity := if decide (capacity = 0) then 0 else grow 0 capacity |}.

(** The [Vec] keeps the capacity it came with. *)
Definition vec_from_raw (raw : list T) (capacity : nat) : IndexVec T :=
  {| vec_raw := raw; vec_capacity := capacity |}.

Definition vec_into_raw v : list T := vec_raw v.

Definition vec_raw_mut v : Borrow (IndexVec T) (list T) :=
  borrow (vec_raw v) (vec_with v).

Definition vec_as_slice v : IndexSlice T := slice_new (vec_raw v).

Definition vec_as_mut_slice v : Borrow (IndexVec T) (IndexSliceMut T) :=
  borrow (slice_mut_new (vec_raw v)) (λ s, vec_with v (slice_mut_raw s)).

Definition vec_len v : nat := length (vec_raw v).

Definition vec_is_empty v : bool := bool_decide (vec_raw v = []).

Definition vec_clear v : IndexVec T := vec_with v [].

(** Room for [additional] more elements. *)
Definition vec_reserve v (additional : nat) : IndexVec T :=
  {| vec_raw := vec_raw v;
     vec_capacity := if decide (vec_capacity v < vec_len v + additional)
                     then grow (vec_capacity v) (vec_len v + additional) else vec_capacity v |}.

Definition vec_next_index v : exec E nat := idx_new (vec_len v).

Definition vec_push v (value : T) : exec E (nat * IndexVec T) :=
  index ← vec_next_index v;
  Ret (index, vec_with (vec_reserve v 1) (vpush (vec_raw v) value)).

Definition vec_pop v : option (T * IndexVec T) :=
  '(value, raw) ← vpop (vec_raw v); Some (value, vec_with v raw).

Definition vec_get v (index : nat) : option T := vec_raw v !! index.

Definition vec_get_mut v (index : nat) : option (Borrow (IndexVec T) T) :=
  reborrow (vec_with v) <$> slot (vec_raw v) index.

Definition vec_iter v : list T := vec_raw v.

Definition vec_iter_mut v : Borrow (IndexVec T) (list T) :=
  reborrow (vec_with v) (slots (vec_raw v)).

Definition vec_iter_enumerated v : exec E (list (nat * T)) := enumerated (vec_raw v).

Definition vec_iter_enumerated_mut v : exec E (list nat * Borrow (IndexVec T) (list T)) :=
  pairs ← enumerated (vec_raw v);
  Ret (pairs.*1, reborrow (vec_with v) (slots (vec_raw v))).

Definition vec_pick2_mut v (a b : nat) : exec E (Borrow (IndexVec T) (T * T)) :=
  r ← expect (disjoint_slots (vec_raw v) a b);
  Ret (reborrow (vec_with v) r).

Definition vec_default : IndexVec T := vec_new.

Definition vec_index v (index : nat) : exec E T := vget (vec_raw v) index.

Definition vec_index_mut v (index : nat) : exec E (Borrow (IndexVec T) T) :=
  r ← expect (slot (vec_raw v) index);
  Ret (reborrow (vec_with v) r).

Definition vec_from (raw : list T) (capacity : nat) : IndexVec T := vec_from_raw raw capacity.

(** Collecting allocates for the elements collected. *)
Definition vec_from_iter (elements : list T) : IndexVec T :=
  vec_from_raw elements (if decide (elements = []) then 0 else grow 0 (length elements)).

End IndexVec.

(** ** [UnionFind]: the wrapper

    [find_root] and [cluster_map] of [Index] work on the contents. *)

Record UnionFind := uf_from_raw { uf_to_raw : IndexVec nat }.

Section UnionFind.
  Context `{Idx} `{Growth} {E : Type}.

Definition uf_new : UnionFind := uf_from_raw vec_new.

Definition uf_len (u : UnionFind) : nat := vec_len (uf_to_raw u).

Definition uf_is_empty (u : UnionFind) : bool := vec_is_empty (uf_to_raw u).

Definition uf_push_singleton (u : UnionFind) : exec E (nat * UnionFind) :=
  id ← vec_next_index (uf_to_raw u);
  '(_, raw) ← vec_push (uf_to_raw u) id;
  Ret (id, uf_from_raw raw).

Definition uf_clear (u : UnionFind) : UnionFind := uf_from_raw (vec_clear (uf_to_raw u)).

Definition uf_default : UnionFind := uf_new.

Definition uf_index (u : UnionFind) (index : nat) : exec E nat := vec_index (uf_to_raw u) index.

Definition uf_index_mut (u : UnionFind) (index : nat) : exec E (Borrow UnionFind nat) :=
  r ← vec_index_mut (uf_to_raw u) index;
  Ret (reborrow uf_from_raw r).

(** [find_root] with the reads and writes of [Index] and [IndexMut]. *)
Fixpoint uf_find_root (fuel : nat) (u : UnionFind) (idx : nat) : exec E (nat * UnionFind) :=
  match fuel with
  | 0 => NoFuel
  | S fuel =>
      p ← uf_index u idx;
      if decide (p = idx) then Ret (idx, u)
      else
        '(root, u) ← uf_find_root fuel u p;
        r ← uf_index_mut u idx;
        Ret (root, write r root)
  end.

End UnionFind.

(** ** Programs that use a vector *)

Inductive vec_op (T : Type) :=
| Push (value : T)
| Pop
| Clear
| Reserve (additional : nat)
| Assign (index : nat) (value : T)
| Pick2 (a b : nat) (f : T * T → T * T)
| Visit (f : list T → list T).
Arguments Push {T} value.
Arguments Pop {T}.
Arguments Clear {T}.
Arguments Reserve {T} additional.
Arguments Assign {T} index value.
Arguments Pick2 {T} a b f.
Arguments Visit {T} f.

Section programs.
  Context `{Idx} `{Growth} {E T : Type}.

Definition vec_step (o : vec_op T) (v : IndexVec T) : exec E (IndexVec T) :=
  match o with
  | Push value => '(_, v) ← vec_push v value; Ret v
  | Pop => Ret (default v (snd <$> vec_pop v))
  | Clear => Ret (vec_clear v)
  | Reserve additional => Ret (vec_reserve v additional)
  | Assign index value => r ← vec_index_mut v index; Ret (write r value)
  | Pick2 a b f => r ← vec_pick2_mut v a b; Ret (write r (f (deref r)))
  | Visit f => let r := vec_iter_mut v in Ret (write r (f (deref r)))
  end.

Definition vec_run (os : list (vec_op T)) (v : IndexVec T) : exec E (IndexVec T) :=
  for_each os vec_step v.

(** Every position has an index of the index type, and the elements fit. *)
Definition vec_typed (v : IndexVec T) : Prop :=
  idx_room (vec_len v) ∧ vec_len v <= vec_capacity v.

End programs.

(** ** Lemmas *)

Lemma slot_spec {T} (l : list T) i :
  match slot l i with
  | Some r => l !! i = Some (deref r) ∧ ∀ x, write r x = <[i:=x]> l
  | None => l !! i = None
  end.
Proof. unfold slot. destruct (l !! i) eqn:Hi; simpl; [by split|done]. Qed.

Lemma length_slots {T} (l w : list T) : length (write (slots l) w) = length l.
Proof. simpl. rewrite length_app, length_take, length_drop. lia. Qed.

Lemma disjoint_slots_spec {T} (l : list T) a b :
  match disjoint_slots l a b with
  | Some r => a ≠ b ∧ l !! a = Some (deref r).1 ∧ l !! b = Some (deref r).2 ∧
      ∀ x y, write r (x, y) = <[b:=y]> (<[a:=x]> l)
  | None => a = b ∨ l !! a = None ∨ l !! b = None
  end.
Proof.
  unfold disjoint_slots. destruct (decide (a = b)); [by left|].
  destruct (l !! a) eqn:Ha; simpl; [|by auto]. destruct (l !! b) eqn:Hb; simpl; [done|by auto].
Qed.

Section lemmas.
  Context `{Idx} {E T : Type}.

Lemma enumerated_ret (l : list T) : idx_room (length l) → enumerated (E:=E) l = Ret (imap pair l).
Proof.
  intros Hroom. unfold enumerated. rewrite (mapM_ret _ id).
  - by rewrite list_fmap_id.
  - intros [i x] (j & y & Hj & Hl)%elem_of_lookup_imap. injection Hj as -> ->.
    rewrite idx_new_fits; [done|]. apply Hroom. by eapply lookup_lt_Some.
Qed.

(** An index that does not exist stops the enumeration. *)
Lemma enumerated_room (l : list T) ps : enumerated (E:=E) l = Ret ps → idx_room (length l).
Proof.
  intros Heq i Hi. destruct (lookup_lt_is_Some_2 l i Hi) as [x Hx].
  assert (Hp : (imap pair l) !! i = Some (i, x)) by (by rewrite list_lookup_imap, Hx).
  unfold enumerated in Heq. revert ps Heq Hp. generalize (imap pair l). intros ql. revert i Hi Hx.
  assert (Hgo : ∀ (ql : list (nat * T)) ps n i x,
    mapM (λ '(i, value), j ← idx_new i; Ret (j, value)) ql = Ret (E:=E) ps → ql !! n = Some (i, x) → idx_fits i).
  { clear. induction ql as [|[j y] ql IH]; intros ps n i x Heq Hn; [done|]. simpl in Heq.
    unfold idx_new in Heq. destruct (decide (N.of_nat j <= idx_limit)%N); [|done]. simpl in Heq.
    destruct n as [|n]; [by injection Hn as -> ->|].
    apply bind_ret_inv in Heq as (ps' & Heq & _). by eapply IH. }
  intros i Hi Hx ps Heq Hp. by eapply Hgo.
Qed.

Lemma elem_of_enumerated (l : list T) i x : (i, x) ∈ imap pair l ↔ l !! i = Some x.
Proof.
  rewrite elem_of_lookup_imap. split; [by intros (? & ? & [= -> ->] & ?)|]. intros. by exists i, x.
Qed.

End lemmas.

Section vectors.
  Context `{Idx} `{Growth} {E T : Type}.
  Implicit Types v : IndexVec T.

Lemma vec_push_spec v x (P : nat * IndexVec T → Prop) (Q : E → Prop) :
  idx_fits (vec_len v) → P (vec_len v, vec_with (vec_reserve v 1) (vpush (vec_raw v) x)) →
  wp (vec_push v x) P Q.
Proof.
  intros Hfit HP. unfold vec_push, vec_next_index. apply wp_bind, wp_idx_new; [done|]. by apply wp_ret.
Qed.

Lemma vec_push_inv v x i v' : vec_push (E:=E) v x = Ret (i, v') →
  idx_fits (vec_len v) ∧ i = vec_len v ∧ v' = vec_with (vec_reserve v 1) (vpush (vec_raw v) x).
Proof.
  unfold vec_push, vec_next_index, idx_new. case_decide; [|done]. simpl. intros [= <- <-]. done.
Qed.

(** The contents alone: what the other files use. *)
Lemma vec_push_list v x :
  (p ← vec_push (E:=E) v x; Ret (p.1, vec_raw p.2)) = index_push (vec_raw v) x.
Proof.
  unfold vec_push, vec_next_index, index_push, next_index, vec_len. destruct (idx_new (length (vec_raw v))); done.
Qed.

Lemma vec_reserve_enough v n : vec_len v + n <= vec_capacity (vec_reserve v n).
Proof. simpl. case_decide; [apply grow_enough|lia]. Qed.

Lemma idx_room_S n : idx_room n → idx_fits n → idx_room (S n).
Proof. intros Hr Hn i Hi. destruct (decide (i = n)) as [->|]; [done|]. apply Hr. lia. Qed.

Lemma idx_room_le n m : idx_room n → m <= n → idx_room m.
Proof. intros Hr Hm i Hi. apply Hr. lia. Qed.

(** Other contents of the same length. *)
Lemma vec_typed_with v l : length l <= vec_len v → vec_typed v → vec_typed (vec_with v l).
Proof. intros Hl [Hr Hc]. split; unfold vec_len in *; simpl; [by eapply idx_room_le|lia]. Qed.

Lemma vec_step_typed o v v' : vec_typed v → vec_step (E:=E) o v = Ret v' → vec_typed v'.
Proof.
  intros Hv. pose proof Hv as [Hr Hc]. destruct o as [x| | |n|i x|a b f|f]; cbn [vec_step].
  - intros ([i w] & (Hfit & _ & ->)%vec_push_inv & [= <-])%bind_ret_inv.
    pose proof (vec_reserve_enough v 1). unfold vec_typed, vec_len in *. simpl. unfold vpush. rewrite length_app. simpl.
    split; [rewrite Nat.add_1_r; by apply idx_room_S|]. simpl in *. lia.
  - intros [= <-]. unfold vec_pop. destruct (list_snoc_inv (vec_raw v)) as [Hn|(w & x & Hw)].
    + by rewrite Hn.
    + rewrite Hw, vpop_app. simpl. apply vec_typed_with; [|done]. unfold vec_len. rewrite Hw, length_app. lia.
  - intros [= <-]. apply vec_typed_with; [simpl; lia|done].
  - intros [= <-]. pose proof (vec_reserve_enough v n). split; [done|]. unfold vec_len in *. simpl in *. lia.
  - unfold vec_index_mut. pose proof (slot_spec (vec_raw v) i) as Hs. destruct (slot (vec_raw v) i) as [r|]; [|done].
    destruct Hs as [_ Hw]. intros [= <-]. simpl. rewrite Hw. apply vec_typed_with; [|done]. by rewrite length_insert.
  - unfold vec_pick2_mut. pose proof (disjoint_slots_spec (vec_raw v) a b) as Hs.
    destruct (disjoint_slots (vec_raw v) a b) as [r|]; [|done]. destruct Hs as (_ & _ & _ & Hw). intros [= <-]. simpl.
    destruct (f (deref r)) as [x y]. rewrite Hw. apply vec_typed_with; [|done]. by rewrite !length_insert.
  - intros [= <-]. pose proof (length_slots (vec_raw v) (f (vec_raw v))) as Hl.
    apply (vec_typed_with v (write (slots (vec_raw v)) (f (vec_raw v)))); [unfold vec_len; lia|done].
Qed.

Lemma vec_run_typed os v v' : vec_typed v → vec_run (E:=E) os v = Ret v' → vec_typed v'.
Proof.
  unfold vec_run. revert v. induction os as [|o os IH]; intros v Hv; simpl; [by intros [= <-]|].
  intros (w & Hw & Hrun)%bind_ret_inv. eapply IH; [|done]. by eapply vec_step_typed.
Qed.

Lemma vec_new_typed : vec_typed (T:=T) vec_new.
Proof. split; [intros i Hi; unfold vec_len in Hi; simpl in Hi; lia|done]. Qed.

Lemma vec_with_capacity_typed n : vec_typed (T:=T) (vec_with_capacity n).
Proof. split; [intros i Hi; unfold vec_len in Hi; simpl in Hi; lia|]. unfold vec_len. simpl. lia. Qed.

(** Reserved room is not allocated again. *)
Lemma vec_pushes_reserved xs v v' :
  vec_len v + length xs <= vec_capacity v → vec_run (E:=E) (Push <$> xs) v = Ret v' →
  vec_capacity v' = vec_capacity v ∧ vec_raw v' = vec_raw v ++ xs.
Proof.
  unfold vec_run. revert v. induction xs as [|x xs IH]; intros v Hlen; simpl.
  - intros [= <-]. by rewrite app_nil_r.
  - intros (w & ([i w'] & (_ & _ & ->)%vec_push_inv & [= <-])%bind_ret_inv & Hrun)%bind_ret_inv.
    simpl in Hlen. unfold vec_len in *. apply IH in Hrun as [Hc Hr].
    + simpl in Hc, Hr. unfold vpush in Hr. rewrite <-app_assoc in Hr. simpl in Hr. split; [|done].
      rewrite Hc, decide_False by (unfold vec_len; lia). done.
    + simpl. unfold vpush. rewrite length_app. simpl. case_decide; [unfold vec_len in *|]; lia.
Qed.

End vectors.

(** The contents of the wrapper follow [find_root]. *)
Lemma uf_find_root_list `{Idx} `{Growth} {E} fuel u i :
  uf_find_root (E:=E) fuel u i =
    ('(root, l) ← find_root fuel (vec_raw (uf_to_raw u)) i;
     Ret (root, uf_from_raw (vec_with (uf_to_raw u) l))).
Proof.
  revert u i. induction fuel as [|fuel IH]; intros u i; [done|]. cbn [uf_find_root find_root].
  unfold uf_index, vec_index. destruct (vget (vec_raw (uf_to_raw u)) i) as [p| | |]; simpl; [|done..].
  destruct (decide (p = i)); [by destruct u as [[]]|]. rewrite IH.
  destruct (find_root fuel (vec_raw (uf_to_raw u)) p) as [[root l]| | |]; simpl; [|done..].
  unfold uf_index_mut, vec_index_mut, slot, vset. simpl.
  destruct (l !! i) as [y|] eqn:Hy; simpl.
  - rewrite decide_True by (by eapply lookup_lt_Some). done.
  - apply lookup_ge_None in Hy. by rewrite decide_False by lia.
Qed.

(** ** Properties *)

Section properties.
  Context `{Idx} `{Growth} {T : Type}.
  Implicit Types v : IndexVec T.

(** C33: the index type names every position of a vector that was built with the
    methods of [IndexVec] from an empty one: whatever is done to it, the
    enumeration returns, pairs each index with the element found there and
    misses none, every index it yields is a value of the index type, and a
    further push answers the index at which the new element is found, leaving
    the others where they were. *)
Theorem index_vec_typed capacity os v :
  vec_run (E:=()) os (vec_with_capacity capacity) = Ret v →
  vec_len v <= vec_capacity v ∧
  (∃ ps, vec_iter_enumerated (E:=()) v = Ret ps ∧ ps.*2 = vec_iter v ∧
     ∀ i x, ((i, x) ∈ ps ↔ vec_get v i = Some x) ∧ ((i, x) ∈ ps → idx_fits i)) ∧
  (∀ x i v', vec_push (E:=()) v x = Ret (i, v') →
     vec_get v' i = Some x ∧ ∀ j, j ≠ i → vec_get v' j = vec_get v j).
Proof.
  intros Hrun. destruct (vec_run_typed _ _ _ (vec_with_capacity_typed capacity) Hrun) as [Hroom Hcap].
  split; [done|]. split.
  - exists (imap pair (vec_raw v)). split_and!; [by apply enumerated_ret| |].
    + rewrite fmap_imap. change (imap (const id) (vec_raw v) = vec_iter v). by rewrite imap_const, list_fmap_id.
    + intros i x. rewrite elem_of_enumerated. split; [done|]. intros Hx. apply Hroom. by eapply lookup_lt_Some.
  - intros x i v' (_ & -> & ->)%vec_push_inv. unfold vec_get, vec_len. simpl. unfold vpush.
    split; [apply lookup_snoc|]. intros j Hj. destruct (decide (j < length (vec_raw v))); [by rewrite lookup_app_l|].
    rewrite !lookup_ge_None_2; [done|lia|rewrite length_app; simpl; lia].
Qed.

(** C34: the two references of [pick2_mut] never alias: it returns exactly for
    two different positions in range, and writing through both, in either
    order or through the mutable slice, leaves the vector with these two
    elements replaced. *)
Theorem pick2_mut_disjoint v a b :
  ((a = b ∨ vec_get v a = None ∨ vec_get v b = None) → vec_pick2_mut (E:=()) v a b = Panic) ∧
  ∀ x y, a ≠ b → vec_get v a = Some x → vec_get v b = Some y →
    ∃ r s, vec_pick2_mut (E:=()) v a b = Ret r ∧ deref r = (x, y) ∧
      slice_mut_pick2_mut (E:=()) (deref (vec_as_mut_slice v)) a b = Ret s ∧
      ∀ x' y', vec_run [Assign a x'; Assign b y'] v = Ret (E:=()) (write r (x', y')) ∧
        vec_run [Assign b y'; Assign a x'] v = Ret (E:=()) (write r (x', y')) ∧
        write (vec_as_mut_slice v) (write s (x', y')) = write r (x', y') ∧
        ∀ j, vec_get (write r (x', y')) j =
          if decide (j = a) then Some x' else if decide (j = b) then Some y' else vec_get v j.
Proof.
  unfold vec_get, vec_pick2_mut, slice_mut_pick2_mut, disjoint_slots. simpl. split.
  - intros Hor. case_decide; [done|]. destruct (vec_raw v !! a); simpl; [|done].
    destruct (vec_raw v !! b); [|done]. naive_solver.
  - intros x y Hab Ha Hb. rewrite decide_False by done. rewrite Ha. simpl. rewrite Hb. simpl.
    do 2 eexists. split; [done|]. split; [done|]. split; [done|]. intros x' y'. split_and!.
    + unfold vec_run, for_each, vec_step, vec_index_mut, slot. rewrite Ha. simpl.
      by rewrite list_lookup_insert_ne, Hb.
    + unfold vec_run, for_each, vec_step, vec_index_mut, slot. rewrite Hb. simpl.
      rewrite list_lookup_insert_ne, Ha by done. simpl. by rewrite list_insert_insert_ne.
    + done.
    + intros j. simpl. pose proof (lookup_lt_Some _ _ _ Ha). pose proof (lookup_lt_Some _ _ _ Hb).
      destruct (decide (j = a)) as [->|Hja]; [rewrite list_lookup_insert_ne by done; by apply list_lookup_insert_eq|].
      destruct (decide (j = b)) as [->|Hjb]; [apply list_lookup_insert_eq; by rewrite length_insert|].
      by rewrite !list_lookup_insert_ne.
Qed.

End properties.

#[local] Instance doubling : Growth.
Proof. refine {| grow cap needed := max (2 * cap) needed |}. intros cap needed. apply Nat.le_max_r. Defined.

Definition sample_ops : list (vec_op nat) :=
  [Push 7; Push 8; Pop; Push 9; Pick2 0 1 (λ '(x, y), (y, x)); Visit (λ l, S <$> take 1 l); Reserve 3].

Lemma index_vec_typed_witness :
  ∃ v, vec_run (H:=idx_u32) (E:=()) sample_ops (vec_with_capacity 2) = Ret v ∧
    vec_raw v = [10; 7] ∧ vec_get v 1 = Some 7 ∧ vec_len v <= vec_capacity v.
Proof.
  eexists. split; [vm_compute; reflexivity|].
  destruct (index_vec_typed (H:=idx_u32) 2 sample_ops {| vec_raw := [10; 7]; vec_capacity := 5 |})
    as (Hcap & (ps & _ & _ & Hps) & _); [vm_compute; reflexivity|].
  split; [reflexivity|]. split; [|exact Hcap]. apply (Hps 1 7). apply (Hps 1 7). reflexivity.
Defined.

Lemma pick2_mut_disjoint_witness :
  ∃ r, vec_pick2_mut (E:=()) {| vec_raw := [4; 5; 6]; vec_capacity := 3 |} 2 0 = Ret r ∧
    vec_get (write r (1, 2)) 0 = Some 2 ∧ vec_get (write r (1, 2)) 1 = Some 5.
Proof.
  destruct (pick2_mut_disjoint (H:=idx_u32) {| vec_raw := [4; 5; 6]; vec_capacity := 3 |} 2 0) as [_ Hok].
  destruct (Hok 6 4) as (r & s & Heq & _ & _ & Hw); [discriminate|reflexivity|reflexivity|].
  exists r. split; [exact Heq|]. destruct (Hw 1 2) as (_ & _ & _ & Hj).
  split; [exact (Hj 0)|exact (Hj 1)].
Defined.
