(* ===== verification/Graph.v ===== *)
(** * Directed graphs ([src/src/graph.rs], lines 1 to 101 and 289 to 333)

    The [DirectedGraph] trait and its implementations [BasicGraph], [VecGraph]
    and [BasicOrder].  The algorithms of [Topo] and [Reduction] are written
    against the class, as the code writes them against the trait. *)

From S2P Require Import Prelude Index.

(** ** The trait *)

(** [edges g v] is [None] where the implementation panics (index out of
    range); otherwise the sequence its iterator yields.  The algorithms borrow
    the graph immutably, so the sequence is fixed while they run. *)
Class DirectedGraph (G : Type) := {
  num_nodes : G → nat;
  edges : G → nat → option (list nat);
}.

Definition iter_nodes `{Idx} `{DirectedGraph G} {E} (g : G) : exec E (list nat) :=
  mapM idx_new (seq 0 (num_nodes g)).

(** ** [BasicGraph] *)

Record BasicGraph := { bg_edges : list (list nat) }.

#[export] Instance BasicGraph_graph : DirectedGraph BasicGraph := {|
  num_nodes g := length (bg_edges g);
  edges g i := bg_edges g !! i;
|}.

(** ** [VecGraph]: adjacency ranges into one edge array *)

Record VecGraph := { vg_nodes : list (nat * nat); vg_edges : list nat }.

Definition vg_new_empty : VecGraph := {| vg_nodes := []; vg_edges := [] |}.

Definition vg_from_raw (nodes : list (nat * nat)) (edges : list nat) : VecGraph :=
  {| vg_nodes := nodes; vg_edges := edges |}.

Definition num_edges (g : VecGraph) : nat := length (vg_edges g).

Definition full_edges (g : VecGraph) (i : nat) : option (list nat) :=
  '(start, stop) ← vg_nodes g !! i;
  slice (vg_edges g) start stop.

#[export] Instance VecGraph_graph : DirectedGraph VecGraph := {|
  num_nodes g := length (vg_nodes g);
  edges g i := full_edges g i;
|}.

(** The loop body shared by the two packing constructors. *)
Definition vg_pack `{Idx} {E} (adjacency_list : list nat) (g : VecGraph) : exec E VecGraph :=
  let start := length (vg_edges g) in
  let edges := vg_edges g ++ adjacency_list in
  '(_, nodes) ← index_push (vg_nodes g) (start, length edges);
  Ret {| vg_nodes := nodes; vg_edges := edges |}.

Definition vg_from_graph `{Idx} `{DirectedGraph G} {E} (g : G) : exec E VecGraph :=
  nodes ← iter_nodes g;
  for_each nodes (λ node vg,
    es ← expect (edges g node);
    vg_pack es vg) vg_new_empty.

Definition vg_from_adjacency_lists `{Idx} {E} (lists : list (list nat)) : exec E VecGraph :=
  for_each lists vg_pack vg_new_empty.

(** ** [BasicOrder]: labelled edges in one hash map per node *)

Record BasicOrder (T : Type) := { bo_edges : list (gmap nat T) }.
Arguments bo_edges {T} _.
Arguments Build_BasicOrder {T} _.

Section BasicOrder.
  Context {T : Type}.

Definition bo_new : BasicOrder T := Build_BasicOrder [].

Definition add_node `{Idx} {E} (o : BasicOrder T) : exec E (nat * BasicOrder T) :=
  '(i, edges) ← index_push (bo_edges o) ∅;
  Ret (i, Build_BasicOrder edges).

Definition add_edge {E} (o : BasicOrder T) (from to : nat) (label : T) : exec E (BasicOrder T) :=
  m ← vget (bo_edges o) from;
  edges ← vset (bo_edges o) from (<[to:=label]> m);
  Ret (Build_BasicOrder edges).

Definition unify {E} (o : BasicOrder T) (a b : nat) (label : T) : exec E (BasicOrder T) :=
  o ← add_edge o a b label;
  add_edge o b a label.

#[export] Instance BasicOrder_graph `{HashOrder} : DirectedGraph (BasicOrder T) := {|
  num_nodes o := length (bo_edges o);
  edges o i := hash_iter [i] ∘ dom <$> bo_edges o !! i;
|}.

End BasicOrder.

(** ** Vocabulary of the specifications *)

(** The edges of [v], none where the iterator would panic. *)
Definition adj `{DirectedGraph G} (g : G) (v : nat) : list nat := default [] (edges g v).

Definition gedge `{DirectedGraph G} (g : G) (v w : nat) : Prop :=
  v < num_nodes g ∧ w ∈ adj g v.

(** Every node index fits the index type and every edge leads to a node. *)
Definition graph_wf `{Idx} `{DirectedGraph G} (g : G) : Prop :=
  idx_room (num_nodes g) ∧
  ∀ v, v < num_nodes g → edges g v = Some (adj g v) ∧ Forall (λ w, w < num_nodes g) (adj g v).

(** A test for [graph_wf]. *)
Definition graph_wfb `{Idx} `{DirectedGraph G} (g : G) : bool :=
  (N.of_nat (num_nodes g) <=? N.succ idx_limit)%N &&
  forallb (λ v, match edges g v with
                | Some es => forallb (λ w, w <? num_nodes g) es
                | None => false
                end) (seq 0 (num_nodes g)).

Definition acyclic `{DirectedGraph G} (g : G) : Prop := ∀ v, ¬ tc (gedge g) v v.

(** A walk along edges of [R]. *)
Definition walk (R : nat → nat → Prop) (p : list nat) : Prop :=
  ∀ i x y, p !! i = Some x → p !! S i = Some y → R x y.

(** A simple closed path: the first and last nodes are identical and no other
    node repeats. *)
Definition closed_path (R : nat → nat → Prop) (c : list nat) : Prop :=
  ∃ v p, c = v :: p ++ [v] ∧ NoDup (v :: p) ∧ walk R c.

(** ** Lemmas *)

Section lemmas.
  Context `{Idx} `{DirectedGraph G}.
  Implicit Types g : G.

Lemma graph_wfb_wf g : graph_wfb g = true → graph_wf g.
Proof.
  unfold graph_wfb. rewrite andb_true_iff, N.leb_le, forallb_forall. intros [Hn Hes].
  split.
  - intros i Hi. unfold idx_fits. lia.
  - intros v Hv. specialize (Hes v). unfold adj.
    destruct (edges g v) as [es|]; [|exfalso; by discriminate Hes; apply in_seq; lia].
    split; [done|]. rewrite forallb_forall in Hes. apply Forall_forall. intros w Hw.
    apply Nat.ltb_lt, Hes; [apply in_seq; lia|by apply list_elem_of_In].
Qed.

Lemma iter_nodes_ret {E} g : idx_room (num_nodes g) → iter_nodes (E:=E) g = Ret (seq 0 (num_nodes g)).
Proof.
  intros Hroom. unfold iter_nodes. rewrite (mapM_ret _ id).
  - by rewrite list_fmap_id.
  - intros x Hx%elem_of_seq. apply (idx_new_fits x), Hroom. lia.
Qed.

Lemma gedge_lt g v w : graph_wf g → gedge g v w → v < num_nodes g ∧ w < num_nodes g.
Proof.
  intros [_ Hg] [Hv Hw]. split; [done|]. destruct (Hg v Hv) as [_ Hall].
  rewrite Forall_forall in Hall. by apply Hall.
Qed.

Lemma tc_gedge_lt g v w : graph_wf g → tc (gedge g) v w → v < num_nodes g ∧ w < num_nodes g.
Proof.
  intros Hg Hp. induction Hp as [v w Hvw|v w x Hvw _ IH].
  - by apply gedge_lt.
  - destruct (gedge_lt _ _ _ Hg Hvw). naive_solver.
Qed.

Lemma edges_adj g v : graph_wf g → v < num_nodes g → edges g v = Some (adj g v).
Proof. intros [_ Hg] Hv. by apply Hg. Qed.

End lemmas.

Lemma walk_tail R x p : walk R (x :: p) → walk R p.
Proof. intros Hw i. apply (Hw (S i)). Qed.

Lemma walk_drop R n p : walk R p → walk R (drop n p).
Proof. intros Hw i x y. rewrite !lookup_drop, Nat.add_succ_r. apply Hw. Qed.

Lemma walk_snoc R p x y : walk R (p ++ [x]) → R x y → walk R (p ++ [x] ++ [y]).
Proof.
  intros Hw Hxy i a b Ha Hb. destruct (decide (i = length p)) as [->|].
  - rewrite lookup_app_r, Nat.sub_diag in Ha by lia.
    rewrite lookup_app_r, Nat.sub_succ_l, Nat.sub_diag in Hb by lia. simpl in *. naive_solver.
  - rewrite app_assoc in Ha, Hb. pose proof (lookup_lt_Some _ _ _ Hb) as Hlt.
    rewrite !length_app in Hlt. simpl in Hlt.
    apply (Hw i); [rewrite <-Ha|rewrite <-Hb]; rewrite (lookup_app_l (p ++ [x]));
      rewrite ?length_app; simpl; done || lia.
Qed.

(** A walk of at least two nodes is a nonempty path. *)
Lemma walk_tc R x p y : walk R (x :: p ++ [y]) → tc R x y.
Proof.
  revert x. induction p as [|z p IH]; intros x Hw.
  - apply tc_once. by apply (Hw 0).
  - eapply tc_l; [by apply (Hw 0)|]. apply IH. by eapply walk_tail.
Qed.

(** A node met again while walking closes a cycle. *)
Lemma walk_cycle R path i v :
  walk R (path ++ [v]) → NoDup path → path !! i = Some v → closed_path R (drop i path ++ [v]).
Proof.
  intros Hw Hnd Hi. pose proof (lookup_lt_Some _ _ _ Hi).
  apply (walk_drop _ i) in Hw. rewrite drop_app_le in Hw by lia.
  rewrite (drop_S _ v i) in * by done. simpl in *.
  exists v, (drop (S i) path). split_and!; [done| |done].
  rewrite <-(take_drop i path), (drop_S _ v i) in Hnd by done.
  by apply NoDup_app in Hnd as (_ & _ & ?).
Qed.

Lemma closed_path_tc R c : closed_path R c → ∃ v, tc R v v.
Proof. intros (v & p & -> & _ & Hw). exists v. by eapply walk_tc. Qed.

(** *** Packing adjacency lists *)

Section pack.
  Context `{Idx}.

(** The packed graph [vg] stands for the adjacency lists [lists]. *)
Definition vg_repr (vg : VecGraph) (lists : list (list nat)) : Prop :=
  length (vg_nodes vg) = length lists ∧ ∀ v, edges vg v = lists !! v.

Lemma slice_app_l {A} (v w : list A) i j s : slice v i j = Some s → slice (v ++ w) i j = Some s.
Proof.
  unfold slice. case_decide as Hd; [|done]. intros [= <-]. destruct Hd.
  rewrite decide_True by (rewrite length_app; lia). f_equal.
  rewrite drop_app_le by lia. apply take_app_le. rewrite length_drop. lia.
Qed.

Lemma slice_app_r {A} (v w : list A) : slice (v ++ w) (length v) (length (v ++ w)) = Some w.
Proof.
  unfold slice. rewrite length_app. rewrite decide_True by lia. f_equal.
  rewrite drop_app_length, take_ge by lia. done.
Qed.

Lemma vg_pack_spec {E} vg lists l (P : VecGraph → Prop) (Q : E → Prop) :
  idx_fits (length lists) → vg_repr vg lists →
  (∀ vg', vg_repr vg' (lists ++ [l]) → P vg') → wp (vg_pack l vg) P Q.
Proof.
  intros Hfit [Hlen Hes] HP. unfold vg_pack, index_push, next_index.
  apply wp_bind, wp_bind, wp_idx_new; [by rewrite Hlen|]. apply wp_ret, wp_ret, HP.
  split; simpl; unfold vpush; [rewrite !length_app; simpl; lia|].
  intros v. unfold full_edges. simpl.
  destruct (decide (v < length lists)) as [Hv|Hv].
  - rewrite !lookup_app_l by lia. rewrite <-Hes. simpl. unfold full_edges.
    destruct (vg_nodes vg !! v) as [[i j]|] eqn:Hn; simpl; [|done].
    specialize (Hes v). simpl in Hes. unfold full_edges in Hes. rewrite Hn in Hes. simpl in Hes.
    apply lookup_lt_is_Some in Hv as [s Hs]. rewrite Hs in *. rewrite Hes. by apply slice_app_l.
  - destruct (decide (v = length lists)) as [->|].
    + rewrite <-Hlen at 1. rewrite !lookup_snoc. simpl. apply slice_app_r.
    + rewrite !lookup_ge_None_2 by (rewrite length_app; simpl; lia). done.
Qed.

Lemma vg_from_lists_spec {E} lists (P : VecGraph → Prop) (Q : E → Prop) :
  idx_room (length lists) → (∀ vg, vg_repr vg lists → P vg) →
  wp (vg_from_adjacency_lists lists) P Q.
Proof.
  intros Hroom HP. unfold vg_from_adjacency_lists.
  apply (wp_for_each (λ pre vg, vg_repr vg pre)); [|intros pre x post vg ->|done].
  - split; [done|]. intros v. by destruct v.
  - intros Hvg. eapply vg_pack_spec; [|done..]. apply Hroom. rewrite length_app. simpl. lia.
Qed.

Lemma vg_from_graph_spec {E} `{DirectedGraph G} (g : G) (P : VecGraph → Prop) (Q : E → Prop) :
  graph_wf g → (∀ vg, vg_repr vg (adj g <$> seq 0 (num_nodes g)) → P vg) →
  wp (vg_from_graph g) P Q.
Proof.
  intros Hg HP. unfold vg_from_graph. rewrite iter_nodes_ret by apply Hg. simpl.
  apply (wp_for_each (λ pre vg, vg_repr vg (adj g <$> pre))); [|intros pre x post vg Hseq|done].
  - split; [done|]. intros v. by destruct v.
  - intros Hvg. apply seq_split in Hseq as [-> Hx].
    rewrite edges_adj by done. simpl. rewrite fmap_app. simpl.
    eapply vg_pack_spec; [|done..]. rewrite length_fmap, length_seq. by apply Hg.
Qed.

End pack.

(** ** Properties *)

(** Copying a graph into the contiguous representation preserves the number
    of nodes and every adjacency list, order and repetitions included, and so
    the number of edges is their total length. *)
Theorem vg_from_graph_preserves `{Idx} `{DirectedGraph G} (g : G) :
  graph_wf g →
  ∃ vg, vg_from_graph (E:=()) g = Ret vg ∧
    num_nodes vg = num_nodes g ∧ (∀ v, v < num_nodes g → edges vg v = edges g v) ∧
    (∀ v, num_nodes g <= v → edges vg v = None).
Proof.
  intros Hg.
  assert (Hwp : wp (E:=()) (vg_from_graph g)
    (λ vg, vg_repr vg (adj g <$> seq 0 (num_nodes g))) (λ _, False)).
  { by apply vg_from_graph_spec. }
  apply wp_total in Hwp as (vg & Heq & Hlen & Hes).
  exists vg. split; [done|]. rewrite length_fmap, length_seq in Hlen. split; [done|]. split.
  - intros v Hv. rewrite Hes, list_lookup_fmap, lookup_seq_lt by done. simpl.
    symmetry. by apply edges_adj.
  - intros v Hv. rewrite Hes. apply lookup_ge_None_2. by rewrite length_fmap, length_seq.
Qed.

Lemma vg_from_graph_preserves_witness :
  ∃ vg, vg_from_graph (H:=idx_usize) (E:=())
    {| bg_edges := [[1; 3; 1]; []; [2]; []; [0]] |} = Ret vg ∧
    num_edges vg = 5 ∧ edges vg 0 = Some [1; 3; 1].
Proof.
  destruct (vg_from_graph_preserves (H:=idx_usize)
    {| bg_edges := [[1; 3; 1]; []; [2]; []; [0]] |}) as (vg & Heq & _ & Hes & _).
  - apply graph_wfb_wf. reflexivity.
  - exists vg. split; [exact Heq|]. split.
    + vm_compute in Heq. injection Heq as <-. reflexivity.
    + rewrite (Hes 0); [reflexivity|simpl; lia].
Defined.
