(* ===== verification/Topo.v ===== *)
(** * Topological ordering ([src/src/graph.rs], lines 335 to 436)

    [topological_order] is an iterative depth-first search with an explicit
    stack of half-consumed edge iterators.  It returns an order and its
    inverse, or the first cycle it meets. *)

From S2P Require Import Prelude Index Graph.

(** ** Data *)

Record GraphCycle := { gc_nodes : list nat }.

Record TopologicalOrder := { topo_order : list nat; topo_map : list nat }.

Inductive DagVisitState := NotSeen | Working | Done.

#[export] Instance DagVisitState_dec : EqDecision DagVisitState.
Proof. solve_decision. Defined.

(** [edges] holds what the iterator has yet to yield. *)
Record DagWorkFrame := { frame_node : nat; frame_edges : list nat }.

(** The local variables of [topological_order]. *)
Record TopoState := {
  ts_states : list DagVisitState;
  ts_stack_pos : list N;
  ts_call_stack : list DagWorkFrame;
  ts_reverse_order : list nat;
}.

Section topo.
  Context `{Idx} `{DirectedGraph G}.

(** Entering a node: mark it [Working], record its stack position, push its
    frame.  The code does this for a root and for an unseen successor. *)
Definition dag_enter (g : G) (node : nat) (st : TopoState) : exec GraphCycle TopoState :=
  states ← vset (ts_states st) node Working;
  stack_pos ← vset (ts_stack_pos st) node (N.of_nat (length (ts_call_stack st)));
  es ← expect (edges g node);
  Ret {| ts_states := states;
         ts_stack_pos := stack_pos;
         ts_call_stack := vpush (ts_call_stack st) {| frame_node := node; frame_edges := es |};
         ts_reverse_order := ts_reverse_order st |}.

(** Leaving a node whose iterator is exhausted. *)
Definition dag_leave (st : TopoState) : exec GraphCycle TopoState :=
  '(frame, call_stack) ← expect (vpop (ts_call_stack st));
  states ← vset (ts_states st) (frame_node frame) Done;
  stack_pos ← vset (ts_stack_pos st) (frame_node frame) usize_MAX;
  Ret {| ts_states := states;
         ts_stack_pos := stack_pos;
         ts_call_stack := call_stack;
         ts_reverse_order := vpush (ts_reverse_order st) (frame_node frame) |}.

(** The cycle reported when an edge leads back to the working node [next]. *)
Definition dag_cycle (st : TopoState) (next : nat) : exec GraphCycle GraphCycle :=
  start ← vget (ts_stack_pos st) next;
  _ ← check (bool_decide (start <= N.of_nat (length (ts_call_stack st)))%N);
  let cycle := frame_node <$> drop (N.to_nat start) (ts_call_stack st) in
  Ret {| gc_nodes := vpush cycle next |}.

(** One turn of ['recurse]: the top frame takes its next edge, or is left when
    it has none; the loop ends on an empty stack. *)
Definition dag_recurse (g : G) (st : TopoState) : exec GraphCycle (TopoState + TopoState) :=
  match last (ts_call_stack st) with
  | None => Ret (inr st)
  | Some frame =>
      match frame_edges frame with
      | [] => st ← dag_leave st; Ret (inl st)
      | next :: rest =>
          let st := {| ts_states := ts_states st;
                       ts_stack_pos := ts_stack_pos st;
                       ts_call_stack := vset_last (ts_call_stack st)
                         {| frame_node := frame_node frame; frame_edges := rest |};
                       ts_reverse_order := ts_reverse_order st |} in
          state ← vget (ts_states st) next;
          match state with
          | NotSeen => st ← dag_enter g next st; Ret (inl st)
          | Working => c ← dag_cycle st next; Throw c
          | Done => Ret (inl st)
          end
      end
  end.

(** Enough turns for the search from one root: one per edge and one per node. *)
Definition dag_fuel (g : G) : nat :=
  S (sum_list_with (λ v, S (length (adj g v))) (seq 0 (num_nodes g))).

Definition dag_root (g : G) (root : nat) (st : TopoState) : exec GraphCycle TopoState :=
  state ← vget (ts_states st) root;
  if decide (state ≠ NotSeen) then Ret st
  else
    st ← dag_enter g root st;
    loop (dag_recurse g) (dag_fuel g) st.

(** [map[order[i]] = i]. *)
Definition invert_order (order map : list nat) : exec GraphCycle (list nat) :=
  for_each (imap pair order) (λ '(index, node) map,
    i ← idx_new index;
    vset map node i) map.

Definition topological_order (g : G) : exec GraphCycle TopologicalOrder :=
  nodes ← iter_nodes g;
  st ← for_each nodes (dag_root g)
    {| ts_states := (λ _, NotSeen) <$> nodes;
       ts_stack_pos := (λ _, usize_MAX) <$> nodes;
       ts_call_stack := [];
       ts_reverse_order := [] |};
  let order := reverse (ts_reverse_order st) in
  map ← iter_nodes g;
  map ← invert_order order map;
  Ret {| topo_order := order; topo_map := map |}.

End topo.

(** ** Specification *)

(** [t] lists the nodes below [n] once each, with their positions. *)
Definition topo_perm (n : nat) (t : TopologicalOrder) : Prop :=
  topo_order t ≡ₚ seq 0 n ∧ length (topo_map t) = n ∧
  ∀ i v, topo_order t !! i = Some v ↔ topo_map t !! v = Some i.

(** The edge [v -> w] leads forward in [t]. *)
Definition topo_forward (t : TopologicalOrder) (v w : nat) : Prop :=
  ∃ i j, topo_map t !! v = Some i ∧ topo_map t !! w = Some j ∧ i < j.

(** *** The invariant of the search *)

Section invariant.
  Context `{DirectedGraph G} (g : G).

(** The nodes of the search path: the stack, and the successor [pend] (at most
    one) whose edge has been taken and which has not been looked at yet. *)
Definition dag_path (stack : list DagWorkFrame) (pend : list nat) : list nat :=
  (frame_node <$> stack) ++ pend.

(** The frames are the working nodes with their positions; each frame has
    consumed a prefix of its node's edges, whose targets are done or come next
    on the path. *)
Definition stack_inv (states : list DagVisitState) (pos : list N)
    (stack : list DagWorkFrame) (pend : list nat) : Prop :=
  ∀ i f, stack !! i = Some f →
    frame_node f < num_nodes g ∧
    states !! frame_node f = Some Working ∧
    pos !! frame_node f = Some (N.of_nat i) ∧
    ∃ used, adj g (frame_node f) = used ++ frame_edges f ∧
      ∀ w, w ∈ used → states !! w = Some Done ∨ dag_path stack pend !! S i = Some w.

Record dag_inv (pend : list nat) (st : TopoState) : Prop := {
  inv_states : length (ts_states st) = num_nodes g;
  inv_pos : length (ts_stack_pos st) = num_nodes g;
  inv_pend : ∀ v, v ∈ pend → v < num_nodes g;
  inv_stack : stack_inv (ts_states st) (ts_stack_pos st) (ts_call_stack st) pend;
  inv_walk : walk (gedge g) (dag_path (ts_call_stack st) pend);
  inv_working : ∀ v, ts_states st !! v = Some Working → v ∈ frame_node <$> ts_call_stack st;
  inv_done : ∀ v, ts_states st !! v = Some Done ↔ v ∈ ts_reverse_order st;
  inv_nodup : NoDup (ts_reverse_order st);
  inv_closed : ∀ i v w, ts_reverse_order st !! i = Some v → gedge g v w →
    ∃ j, j < i ∧ ts_reverse_order st !! j = Some w;
}.

(** Edges and nodes the search has yet to consume. *)
Definition dag_cost (v : nat) : nat := S (length (adj g v)).
Definition unseen (states : list DagVisitState) : list nat :=
  filter (λ v, states !! v = Some NotSeen) (seq 0 (num_nodes g)).
Definition dag_measure (st : TopoState) : nat :=
  sum_list_with dag_cost (unseen (ts_states st)) +
  sum_list_with (λ f, S (length (frame_edges f))) (ts_call_stack st).

End invariant.

(** The seen nodes of [st] are still seen in [st']. *)
Definition seen_in (st st' : TopoState) : Prop :=
  ∀ v, ts_states st' !! v = Some NotSeen → ts_states st !! v = Some NotSeen.

(** ** Lemmas *)

(** A loop that writes the position of every element of a permutation inverts
    it. *)
Lemma invert_loop_spec {E} (body : nat * nat → list nat → exec E (list nat)) n order map0
    (P : list nat → Prop) Q :
  order ≡ₚ seq 0 n → length map0 = n →
  (∀ i v map, i < n → body (i, v) map = vset map v i) →
  (∀ map, length map = n → (∀ i v, order !! i = Some v ↔ map !! v = Some i) → P map) →
  wp (for_each (imap pair order) body map0) P Q.
Proof.
  intros Hperm Hlen Hbody HP.
  assert (Hin : ∀ v, v ∈ order ↔ v < n) by (intros v; rewrite Hperm, elem_of_seq; lia).
  assert (Hnd : NoDup order) by (rewrite Hperm; apply NoDup_seq).
  assert (Hlo : length order = n) by (by rewrite Hperm, length_seq).
  apply (wp_for_each (λ pre map, length map = n ∧
    ∀ i v, i < length pre → order !! i = Some v → map !! v = Some i)).
  - split; [done|]. simpl. lia.
  - intros pre [i v] post map Heq [Hm Hpre].
    assert (Hi : imap pair order !! length pre = Some (i, v))
      by (rewrite Heq, lookup_app_r, Nat.sub_diag by lia; done).
    apply list_lookup_imap_Some in Hi as (v' & Hv & [= -> ->]).
    pose proof (lookup_lt_Some _ _ _ Hv) as Hlt.
    rewrite Hbody by lia. apply wp_vset.
    { rewrite Hm. apply Hin. by eapply list_elem_of_lookup_2. }
    rewrite length_insert, length_app. split; [done|]. simpl. intros j w Hj Hw.
    destruct (decide (j = length pre)) as [->|Hne].
    + simplify_eq. apply list_lookup_insert_eq. rewrite Hm. apply Hin. by eapply list_elem_of_lookup_2.
    + rewrite list_lookup_insert_ne; [apply Hpre; [lia|done]|].
      intros ->. apply Hne. by eapply NoDup_lookup.
  - intros map [Hm Hall]. rewrite length_imap in Hall. apply HP; [done|]. intros i v. split.
    + intros Hv. apply Hall; [by eapply lookup_lt_Some|done].
    + intros Hi. assert (v ∈ order) as [j Hj]%list_elem_of_lookup.
      { apply Hin. rewrite <-Hm. by eapply lookup_lt_Some. }
      rewrite (Hall j v (lookup_lt_Some _ _ _ Hj) Hj) in Hi. by simplify_eq.
Qed.

Section proofs.
  Context `{Idx} `{DirectedGraph G} (g : G) (Hg : graph_wf g).

Lemma sum_list_with_perm {A} (f : A → nat) l k : l ≡ₚ k → sum_list_with f l = sum_list_with f k.
Proof. by intros ->. Qed.

(** *** The measure *)

Lemma unseen_elem states v : length states = num_nodes g →
  v ∈ unseen g states ↔ states !! v = Some NotSeen.
Proof.
  intros Hlen. unfold unseen. rewrite list_elem_of_filter, elem_of_seq.
  split; [tauto|]. intros Hv. split; [done|]. apply lookup_lt_Some in Hv. lia.
Qed.

Lemma unseen_mark states v s : length states = num_nodes g →
  states !! v = Some NotSeen → s ≠ NotSeen →
  unseen g states ≡ₚ v :: unseen g (<[v:=s]> states).
Proof.
  intros Hlen Hv Hs. pose proof (lookup_lt_Some _ _ _ Hv).
  apply NoDup_Permutation; [apply NoDup_filter, NoDup_seq|constructor|].
  - rewrite unseen_elem by (by rewrite length_insert). rewrite list_lookup_insert_eq by done. naive_solver.
  - apply NoDup_filter, NoDup_seq.
  - intros x. rewrite elem_of_cons, !unseen_elem by (by rewrite ?length_insert).
    rewrite list_lookup_insert_Some. destruct (decide (v = x)) as [->|]; intuition congruence.
Qed.

Lemma unseen_remark states v s s' : states !! v = Some s' → s' ≠ NotSeen → s ≠ NotSeen →
  unseen g (<[v:=s]> states) = unseen g states.
Proof.
  intros Hv Hs' Hs. unfold unseen. apply list_filter_iff. intros x.
  rewrite list_lookup_insert_Some. pose proof (lookup_lt_Some _ _ _ Hv).
  destruct (decide (v = x)) as [->|]; intuition congruence.
Qed.

Lemma dag_measure_fuel st : ts_call_stack st = [] → dag_measure g st < dag_fuel g.
Proof.
  intros Hst. unfold dag_measure, dag_fuel. rewrite Hst. simpl.
  assert (Hle : ∀ l, sum_list_with (dag_cost g) (filter (λ v, ts_states st !! v = Some NotSeen) l)
               <= sum_list_with (λ v, S (length (adj g v))) l).
  { induction l as [|x l IH]; [done|]. rewrite filter_cons. case_decide; simpl; unfold dag_cost in *; lia. }
  specialize (Hle (seq 0 (num_nodes g))). unfold unseen. lia.
Qed.

(** *** The stack *)

Lemma stack_pos_inj states pos stack pend i j f f' :
  stack_inv g states pos stack pend → stack !! i = Some f → stack !! j = Some f' →
  frame_node f = frame_node f' → i = j.
Proof.
  intros Hs Hi Hj Heq. destruct (Hs _ _ Hi) as (_ & _ & Hpi & _).
  destruct (Hs _ _ Hj) as (_ & _ & Hpj & _). rewrite Heq in Hpi. simplify_eq. lia.
Qed.

Lemma dag_path_nodup states pos stack pend :
  stack_inv g states pos stack pend → NoDup (frame_node <$> stack).
Proof.
  intros Hs. apply NoDup_alt. intros i j v. rewrite !list_lookup_fmap_Some.
  intros (f & -> & Hi) (f' & Heq & Hj). by eapply stack_pos_inj.
Qed.

(** Taking the next edge of the top frame makes its target pending. *)
Lemma stack_inv_advance states pos w node next rest :
  stack_inv g states pos (w ++ [{| frame_node := node; frame_edges := next :: rest |}]) [] →
  stack_inv g states pos (w ++ [{| frame_node := node; frame_edges := rest |}]) [next].
Proof.
  intros Hs i f [[Hlt Hi]|[-> <-]]%lookup_snoc_Some.
  - destruct (Hs i f) as (? & ? & ? & used & Hadj & Hused); [apply lookup_snoc_Some; by left|].
    split_and!; try done. exists used. split; [done|]. intros x [?|Hx]%Hused; [by left|right].
    unfold dag_path in *. rewrite fmap_app, app_nil_r in *. by apply lookup_app_l_Some.
  - destruct (Hs (length w) _ (lookup_snoc _ _)) as (? & ? & ? & used & Hadj & Hused). simpl in *.
    split_and!; try done. exists (used ++ [next]). rewrite <-app_assoc. split; [done|].
    intros x [Hx| ->%list_elem_of_singleton]%elem_of_app.
    + destruct (Hused x Hx) as [?|Hx']; [by left|].
      apply lookup_lt_Some in Hx'. unfold dag_path in Hx'. rewrite app_nil_r, length_fmap, length_app in Hx'.
      simpl in Hx'. lia.
    + right. unfold dag_path. rewrite lookup_app_r by (rewrite length_fmap, length_app; simpl; lia).
      rewrite length_fmap, length_app. simpl. by replace (S (length w) - _) with 0 by lia.
Qed.

Lemma stack_inv_settle states pos stack next :
  stack_inv g states pos stack [next] → states !! next = Some Done →
  stack_inv g states pos stack [].
Proof.
  intros Hs Hd i f Hi. destruct (Hs i f Hi) as (? & ? & ? & used & Hadj & Hused).
  split_and!; try done. exists used. split; [done|]. intros x [?|Hx]%Hused; [by left|].
  unfold dag_path in *. apply lookup_snoc_Some in Hx as [[_ Hx]|[_ ->]]; [|by left].
  right. by rewrite app_nil_r.
Qed.

Lemma stack_inv_enter states pos stack next :
  stack_inv g states pos stack [next] → next < num_nodes g →
  length states = num_nodes g → length pos = num_nodes g →
  states !! next = Some NotSeen →
  stack_inv g (<[next:=Working]> states) (<[next:=N.of_nat (length stack)]> pos)
    (stack ++ [{| frame_node := next; frame_edges := adj g next |}]) [].
Proof.
  intros Hs Hn Hls Hlp Hu i f [[Hlt Hi]|[-> <-]]%lookup_snoc_Some; simpl.
  - destruct (Hs i f Hi) as (? & Hw & ? & used & Hadj & Hused).
    assert (next ≠ frame_node f) by (intros ->; congruence).
    rewrite !list_lookup_insert_ne by done. split_and!; try done.
    exists used. split; [done|]. intros x [Hx|Hx]%Hused.
    + left. rewrite list_lookup_insert_ne by (intros ->; congruence). done.
    + right. unfold dag_path in *. by rewrite fmap_app, app_nil_r.
  - rewrite !list_lookup_insert_eq by lia. split_and!; try done.
    exists []. split; [done|]. by intros ? ?%elem_of_nil.
Qed.

Lemma stack_inv_leave states pos w node :
  stack_inv g states pos (w ++ [{| frame_node := node; frame_edges := [] |}]) [] →
  stack_inv g (<[node:=Done]> states) (<[node:=usize_MAX]> pos) w [].
Proof.
  intros Hs i f Hi. pose proof (lookup_lt_Some _ _ _ Hi) as Hlt.
  assert (Hi' : (w ++ [{| frame_node := node; frame_edges := [] |}]) !! i = Some f)
    by (by apply lookup_app_l_Some).
  destruct (Hs i f Hi') as (? & ? & ? & used & Hadj & Hused).
  destruct (Hs (length w) _ (lookup_snoc _ _)) as (_ & Hw & _ & _). simpl in Hw.
  assert (node ≠ frame_node f) as Hne.
  { intros ->. pose proof (stack_pos_inj _ _ _ _ _ _ _ _ Hs Hi' (lookup_snoc _ _) eq_refl). lia. }
  rewrite !list_lookup_insert_ne by done. split_and!; try done.
  exists used. split; [done|]. intros x [Hx|Hx]%Hused.
  - left. rewrite list_lookup_insert_ne by (intros ->; congruence). done.
  - unfold dag_path in *. rewrite app_nil_r in *. rewrite fmap_app in Hx. simpl in Hx.
    apply lookup_snoc_Some in Hx as [[_ Hx]|[_ <-]]; [by right|].
    left. apply list_lookup_insert_eq. by eapply lookup_lt_Some.
Qed.

(** *** The steps *)

Lemma dag_enter_spec st next (P : TopoState → Prop) Q :
  dag_inv g [next] st → ts_states st !! next = Some NotSeen →
  (∀ st', dag_inv g [] st' → dag_measure g st' = dag_measure g st → seen_in st st' →
     ts_states st' !! next ≠ Some NotSeen → P st') →
  wp (dag_enter g next st) P Q.
Proof.
  intros [Hls Hlp Hpd Hst Hwalk Hwk Hdn Hnd Hcl] Hu HP.
  assert (Hn : next < num_nodes g) by (apply Hpd; left).
  unfold dag_enter. wp_set. wp_set. rewrite edges_adj by done. simpl. apply wp_ret, HP.
  - split; simpl; unfold vpush; try done.
    + by rewrite length_insert.
    + by rewrite length_insert.
    + by intros v ?%elem_of_nil.
    + by apply stack_inv_enter.
    + unfold dag_path in *. by rewrite fmap_app, app_nil_r.
    + intros v. rewrite fmap_app, elem_of_app, list_lookup_insert_Some. simpl.
      intros [(-> & _ & _)|[_ Hv]]; [right; by left|left; by apply Hwk].
    + intros v. rewrite <-Hdn, list_lookup_insert_Some. split; [|intros Hv].
      * intros [(_ & ? & _)|[_ ?]]; done.
      * right. split; [|done]. intros ->. congruence.
  - unfold dag_measure. simpl. unfold vpush.
    rewrite (sum_list_with_perm _ _ _ (unseen_mark _ _ Working Hls Hu ltac:(done))), sum_list_with_app.
    simpl. unfold dag_cost. lia.
  - intros v. simpl. rewrite list_lookup_insert_Some. intros [(_ & ? & _)|[_ ?]]; done.
  - simpl. rewrite list_lookup_insert_eq by lia. done.
Qed.

Lemma dag_leave_spec st w node (P : TopoState → Prop) Q :
  dag_inv g [] st → ts_call_stack st = w ++ [{| frame_node := node; frame_edges := [] |}] →
  (∀ st', dag_inv g [] st' → dag_measure g st' < dag_measure g st → seen_in st st' → P st') →
  wp (dag_leave st) P Q.
Proof.
  intros [Hls Hlp Hpd Hst Hwalk Hwk Hdn Hnd Hcl] Heq HP. rewrite Heq in *.
  destruct (Hst (length w) _ (lookup_snoc _ _)) as (Hn & Hw & Hp & used & Hadj & Hused). simpl in *.
  rewrite app_nil_r in Hadj. subst used.
  unfold dag_leave. rewrite Heq, vpop_app. apply wp_bind, wp_ret. wp_set. wp_set.
  apply wp_ret, HP.
  - split; simpl; unfold vpush.
    + by rewrite length_insert.
    + by rewrite length_insert.
    + done.
    + by apply stack_inv_leave.
    + unfold dag_path in *. rewrite app_nil_r, fmap_app in Hwalk. rewrite app_nil_r.
      intros i x y Hx Hy. apply (Hwalk i); by apply lookup_app_l_Some.
    + intros v. rewrite list_lookup_insert_Some. intros [(_ & ? & _)|[Hne Hv]]; [done|].
      apply Hwk in Hv. rewrite fmap_app, elem_of_app in Hv. simpl in Hv.
      destruct Hv as [?| ->%list_elem_of_singleton]; done.
    + intros v. rewrite elem_of_app, list_elem_of_singleton, <-Hdn, list_lookup_insert_Some.
      destruct (decide (node = v)) as [->|]; intuition lia || congruence.
    + apply NoDup_app. split_and!; [done| |by apply NoDup_singleton].
      intros x Hx ->%list_elem_of_singleton. apply Hdn in Hx. congruence.
    + intros i v x [[Hi Hv]|[-> <-]]%lookup_snoc_Some Hx.
      * destruct (Hcl _ _ _ Hv Hx) as (j & Hj & Hjx). exists j. split; [done|].
        by apply lookup_app_l_Some.
      * destruct (Hused x (proj2 Hx)) as [Hd|Hd].
        -- apply Hdn, list_elem_of_lookup in Hd as [j Hj]. exists j.
           split; [by eapply lookup_lt_Some|by apply lookup_app_l_Some].
        -- apply lookup_lt_Some in Hd. unfold dag_path in Hd.
           rewrite app_nil_r, length_fmap, length_app in Hd. simpl in Hd. lia.
  - unfold dag_measure. simpl. rewrite Heq, sum_list_with_app, (unseen_remark _ _ _ _ Hw) by done.
    simpl. lia.
  - intros v. simpl. rewrite list_lookup_insert_Some. intros [(_ & ? & _)|[_ ?]]; done.
Qed.

Lemma dag_inv_advance st w node next rest :
  dag_inv g [] st →
  ts_call_stack st = w ++ [{| frame_node := node; frame_edges := next :: rest |}] →
  dag_inv g [next] {| ts_states := ts_states st; ts_stack_pos := ts_stack_pos st;
     ts_call_stack := w ++ [{| frame_node := node; frame_edges := rest |}];
     ts_reverse_order := ts_reverse_order st |}.
Proof.
  intros [Hls Hlp Hpd Hst Hwalk Hwk Hdn Hnd Hcl] Heq. rewrite Heq in *.
  destruct (Hst (length w) _ (lookup_snoc _ _)) as (Hn & Hw & Hp & used & Hadj & Hused). simpl in *.
  assert (Hedge : gedge g node next) by (split; [done|]; rewrite Hadj; apply elem_of_app; right; left).
  split; simpl; try done.
  - intros v ->%list_elem_of_singleton. by eapply (gedge_lt g).
  - by apply stack_inv_advance.
  - unfold dag_path in *. rewrite app_nil_r, fmap_app in Hwalk. rewrite fmap_app, <-app_assoc.
    by apply walk_snoc.
  - intros v Hv%Hwk. by rewrite fmap_app in *.
Qed.

Lemma dag_cycle_spec st next (P : GraphCycle → Prop) Q :
  dag_inv g [next] st → ts_states st !! next = Some Working →
  (∀ c, closed_path (gedge g) (gc_nodes c) → P c) →
  wp (dag_cycle st next) P Q.
Proof.
  intros [Hls Hlp Hpd Hst Hwalk Hwk Hdn Hnd Hcl] Hw HP.
  apply Hwk, list_elem_of_fmap in Hw as (f & -> & [i Hi]%list_elem_of_lookup).
  destruct (Hst i f Hi) as (_ & _ & Hp & _). unfold dag_cycle.
  apply wp_bind. unfold vget. rewrite Hp. apply wp_ret.
  pose proof (lookup_lt_Some _ _ _ Hi) as Hlt.
  apply wp_bind, wp_check; [by apply bool_decide_eq_true; lia|]. apply wp_ret, HP. simpl.
  rewrite Nat2N.id, fmap_drop. apply walk_cycle; [done|by eapply dag_path_nodup|].
  rewrite list_lookup_fmap, Hi. done.
Qed.

Lemma dag_recurse_spec st (P : TopoState + TopoState → Prop) (Q : GraphCycle → Prop) :
  dag_inv g [] st →
  (∀ c, closed_path (gedge g) (gc_nodes c) → Q c) →
  (∀ st', dag_inv g [] st' → dag_measure g st' < dag_measure g st → seen_in st st' → P (inl st')) →
  (ts_call_stack st = [] → P (inr st)) →
  wp (dag_recurse g st) P Q.
Proof.
  intros Hinv HQ Hgo Hstop. unfold dag_recurse.
  destruct (list_snoc_inv (ts_call_stack st)) as [Heq|(w & [node es] & Heq)].
  { rewrite Heq. simpl. apply wp_ret. auto. }
  rewrite Heq, last_snoc. simpl. destruct es as [|next rest].
  { apply wp_bind. eapply dag_leave_spec; [done..|]. intros. apply wp_ret. auto. }
  unfold vset_last. rewrite vpop_app. unfold vpush.
  pose proof (dag_inv_advance _ _ _ _ _ Hinv Heq) as Hadv.
  set (st1 := Build_TopoState _ _ _ _) in *.
  assert (Hm : dag_measure g st1 < dag_measure g st).
  { unfold dag_measure, st1. simpl. rewrite Heq, !sum_list_with_app. simpl. lia. }
  assert (Hn : next < length (ts_states st1)).
  { rewrite (inv_states _ _ _ Hadv). apply (inv_pend _ _ _ Hadv). left. }
  wp_get state Hs. destruct state.
  - apply wp_bind. eapply dag_enter_spec; [done..|]. intros st' ? Hm' Hseen _.
    apply wp_ret, Hgo; [done|lia|done].
  - apply wp_bind. eapply dag_cycle_spec; [done..|]. intros c Hc. apply wp_throw. auto.
  - apply wp_ret, Hgo; [|done|by intros v].
    destruct Hadv as [? ? ? Hst Hwalk ? ? ? ?]. split; try done.
    + by intros v ?%elem_of_nil.
    + by eapply stack_inv_settle.
    + unfold dag_path in *. rewrite app_nil_r. intros i x y Hx Hy.
      apply (Hwalk i); by apply lookup_app_l_Some.
Qed.

(** *** The search *)

Lemma dag_root_spec st root (P : TopoState → Prop) (Q : GraphCycle → Prop) :
  dag_inv g [] st → ts_call_stack st = [] → root < num_nodes g →
  (∀ c, closed_path (gedge g) (gc_nodes c) → Q c) →
  (∀ st', dag_inv g [] st' → ts_call_stack st' = [] → seen_in st st' →
     ts_states st' !! root ≠ Some NotSeen → P st') →
  wp (dag_root g root st) P Q.
Proof.
  intros Hinv Hst Hroot HQ HP. unfold dag_root.
  apply wp_bind, wp_vget; [by rewrite (inv_states _ _ _ Hinv)|]. intros state Hs.
  case_decide as Hseen.
  { apply wp_ret, HP; [done..|by intros v|congruence]. }
  destruct state; try done. clear Hseen.
  assert (Hinv1 : dag_inv g [root] st).
  { destruct Hinv as [? ? ? Hsti ? ? ? ? ?]. split; try done.
    - by intros v ->%list_elem_of_singleton.
    - rewrite Hst. by intros i f ?.
    - rewrite Hst. by intros [|i] x y Hx Hy. }
  apply wp_bind. eapply dag_enter_spec; [done..|]. intros st1 Hinv2 Hm Hseen Hr.
  apply (wp_loop (λ st', dag_inv g [] st' ∧ seen_in st st' ∧
    ts_states st' !! root ≠ Some NotSeen) (dag_measure g)).
  - intros st' (Hinv' & Hseen' & Hr'). eapply dag_recurse_spec; [done..| |].
    + intros st'' ? ? Hseen''. split; [split_and!; [done|intros v; auto|]|done].
      intros Hu. by apply Hr', Hseen''.
    + intros Hst'. by apply HP.
  - done.
  - rewrite Hm. by apply dag_measure_fuel.
Qed.

Lemma invert_order_spec order map0 (P : list nat → Prop) Q :
  order ≡ₚ seq 0 (num_nodes g) → length map0 = num_nodes g →
  (∀ map, length map = num_nodes g →
     (∀ i v, order !! i = Some v ↔ map !! v = Some i) → P map) →
  wp (invert_order order map0) P Q.
Proof.
  intros Hperm Hlen HP. eapply invert_loop_spec; [done..| |done].
  intros i v map Hi. rewrite idx_new_fits by (by apply Hg). done.
Qed.

Lemma topological_order_spec (P : TopologicalOrder → Prop) (Q : GraphCycle → Prop) :
  (∀ t, topo_perm (num_nodes g) t → (∀ v w, gedge g v w → topo_forward t v w) → P t) →
  (∀ c, closed_path (gedge g) (gc_nodes c) → Q c) →
  wp (topological_order g) P Q.
Proof.
  intros HP HQ. unfold topological_order. rewrite iter_nodes_ret by apply Hg. simpl.
  apply wp_bind. apply (wp_for_each (λ pre st, dag_inv g [] st ∧ ts_call_stack st = [] ∧
    ∀ v, v ∈ pre → ts_states st !! v ≠ Some NotSeen)).
  - assert (Hns : ∀ v s, ((λ _, NotSeen) <$> seq 0 (num_nodes g)) !! v = Some s → s = NotSeen).
    { intros v s (? & -> & _)%list_lookup_fmap_Some. done. }
    split_and!; [split; simpl|done|by intros ? ?%elem_of_nil].
    + by rewrite length_fmap, length_seq.
    + by rewrite length_fmap, length_seq.
    + by intros ? ?%elem_of_nil.
    + by intros i f ?.
    + by intros i x y ?.
    + by intros v ?%Hns.
    + intros v. split; [by intros ?%Hns|by intros ?%elem_of_nil].
    + constructor.
    + done.
  - intros pre root post st [-> Hr]%seq_split (Hinv & Hst & Hpre).
    eapply dag_root_spec; [done..|]. intros st' ? ? Hseen ?. split_and!; [done..|].
    intros v [Hv| ->%list_elem_of_singleton]%elem_of_app; [|done].
    intros Hu. by apply (Hpre v Hv), Hseen.
  - intros st ([Hls _ _ _ _ Hwk Hdn Hnd Hcl] & Hst & Hall).
    set (order := ts_reverse_order st) in *.
    assert (Hin : ∀ v, v ∈ order ↔ v < num_nodes g).
    { intros v. rewrite <-Hdn, <-Hls. split; [apply lookup_lt_Some|].
      intros Hv. pose proof Hv as [s Hs]%lookup_lt_is_Some. destruct s; [|by apply Hwk in Hs; rewrite Hst in Hs; apply elem_of_nil in Hs|done].
      exfalso. apply (Hall v); [apply elem_of_seq; lia|done]. }
    assert (Hperm : reverse order ≡ₚ seq 0 (num_nodes g)).
    { rewrite reverse_Permutation. apply NoDup_Permutation; [done|apply NoDup_seq|].
      intros v. rewrite Hin, elem_of_seq. lia. }
    assert (Hlo : length order = num_nodes g)
      by (by rewrite <-(length_reverse order), Hperm, length_seq).
    apply wp_bind, invert_order_spec; [done|by rewrite length_seq|].
    intros map Hm Hmap. apply wp_ret, HP; [done|]. intros v w Hvw.
    assert (v ∈ order) as [i Hi]%list_elem_of_lookup by (apply Hin, Hvw).
    destruct (Hcl i v w Hi Hvw) as (j & Hj & Hjw).
    pose proof (lookup_lt_Some _ _ _ Hi).
    assert (Hrev : ∀ k x, order !! k = Some x → map !! x = Some (length order - S k)).
    { intros k x Hk. apply Hmap. pose proof (lookup_lt_Some _ _ _ Hk).
      rewrite reverse_lookup by lia. by replace (length order - S (length order - S k)) with k by lia. }
    exists (length order - S i), (length order - S j). split_and!; [by apply Hrev..|lia].
Qed.

End proofs.

(** A forward order leaves no room for a cycle. *)
Lemma topo_forward_tc (R : nat → nat → Prop) t v w :
  (∀ x y, R x y → topo_forward t x y) → tc R v w → topo_forward t v w.
Proof.
  intros Hf Hp. induction Hp as [x y ?|x y z Hxy _ IH]; [by apply Hf|].
  destruct (Hf _ _ Hxy) as (i & j & ? & ? & ?), IH as (j' & k & ? & ? & ?).
  simplify_eq. exists i, k. split_and!; [done..|lia].
Qed.

Lemma topo_forward_irrefl t v : ¬ topo_forward t v v.
Proof. intros (i & j & ? & ? & ?). simplify_eq. lia. Qed.

Section properties.
  Context `{Idx} `{DirectedGraph G} (g : G).

(** ** Properties *)

(** On a well-formed graph the search always returns: an order or a cycle,
    never a panic, and the fuel of the model is never exhausted. *)
Lemma topological_order_total :
  graph_wf g → (∃ t, topological_order g = Ret t) ∨ (∃ c, topological_order g = Throw c).
Proof.
  intros Hg.
  assert (Hwp : wp (topological_order g) (λ _, True) (λ _, True)) by by apply topological_order_spec.
  apply wp_inv in Hwp. naive_solver.
Qed.

(** An order that is returned lists every node exactly once, [map] is its
    inverse, and every edge points from an earlier node to a later one. *)
Lemma topological_order_sound t :
  graph_wf g → topological_order g = Ret t →
  topo_perm (num_nodes g) t ∧ ∀ v w, gedge g v w → topo_forward t v w.
Proof.
  intros Hg Heq.
  refine (wp_ret_inv _ t (λ t, topo_perm (num_nodes g) t ∧ ∀ v w, gedge g v w → topo_forward t v w)
    (λ _, True) _ Heq).
  apply topological_order_spec; auto.
Qed.

(** A reported cycle is a closed path of the graph that repeats no node but
    its ends. *)
Lemma topological_order_cycle c :
  graph_wf g → topological_order g = Throw c → closed_path (gedge g) (gc_nodes c).
Proof.
  intros Hg Heq.
  refine (wp_throw_inv _ c (λ _, True) (λ c, closed_path (gedge g) (gc_nodes c)) _ Heq).
  apply topological_order_spec; auto.
Qed.

(** An order is returned exactly when the graph is acyclic. *)
Lemma topological_order_iff_acyclic :
  graph_wf g → (∃ t, topological_order g = Ret t) ↔ acyclic g.
Proof.
  intros Hg.
  assert (Hwp : wp (topological_order g) (λ t, ∀ v w, gedge g v w → topo_forward t v w)
    (λ c, closed_path (gedge g) (gc_nodes c))) by (by apply topological_order_spec).
  apply wp_inv in Hwp as [(t & -> & Hf)|(c & -> & Hc)].
  - split; [|by eauto]. intros _ v Hv. by eapply topo_forward_irrefl, topo_forward_tc.
  - split; [by intros [? ?]|]. intros Hac. apply closed_path_tc in Hc as [v Hv]. by apply Hac in Hv.
Qed.

(** C13: on a well-formed graph the search always returns, without panics. On an
    acyclic graph it returns an order that lists every node exactly once, whose
    [map] is its inverse and along which every edge leads forward; on any other
    graph it reports a closed path of the graph that repeats no node but its
    ends. *)
Theorem topological_order_correct :
  graph_wf g →
  (∃ t, topological_order g = Ret t ∧ acyclic g ∧
     topo_perm (num_nodes g) t ∧ ∀ v w, gedge g v w → topo_forward t v w) ∨
  (∃ c, topological_order g = Throw c ∧ ¬ acyclic g ∧ closed_path (gedge g) (gc_nodes c)).
Proof.
  intros Hg. pose proof (topological_order_iff_acyclic Hg) as Hac.
  destruct (topological_order_total Hg) as [[t Ht]|[c Hc]]; [left; exists t|right; exists c].
  - destruct (topological_order_sound t Hg Ht). split_and!; [done| |done..]. apply Hac. by exists t.
  - split_and!; [done| |by apply topological_order_cycle]. intros [t Ht]%Hac. congruence.
Qed.

End properties.

(** The graph of [tests::finds_cycle] and an acyclic variant. *)
Definition sample_cyclic : BasicGraph := {| bg_edges := [[1]; [2]; [3]; [1]] |}.
Definition sample_dag : BasicGraph := {| bg_edges := [[1; 2; 3]; [2; 3]; [3]; []] |}.

Lemma topological_order_correct_witness :
  topological_order (H:=idx_usize) sample_cyclic = Throw {| gc_nodes := [1; 2; 3; 1] |} ∧
  closed_path (gedge sample_cyclic) [1; 2; 3; 1] ∧ ¬ acyclic sample_cyclic.
Proof.
  assert (Hrun : topological_order (H:=idx_usize) sample_cyclic = Throw {| gc_nodes := [1; 2; 3; 1] |})
    by (vm_compute; reflexivity).
  destruct (topological_order_correct (H:=idx_usize) sample_cyclic) as [(t & Ht & _)|(c & Hc & Hac & Hp)].
  - apply graph_wfb_wf. reflexivity.
  - rewrite Hrun in Ht. discriminate.
  - rewrite Hrun in Hc. injection Hc as <-. split; [exact Hrun|]. split; [exact Hp|exact Hac].
Defined.

Example topological_order_dag :
  topological_order (H:=idx_usize) sample_dag =
    Ret {| topo_order := [0; 1; 2; 3]; topo_map := [0; 1; 2; 3] |}.
Proof. vm_compute. reflexivity. Qed.
