(* ===== verification/Reduction.v ===== *)
(** * Transitive reduction ([src/src/graph.rs], lines 438 to 489)

    [transitive_solved_reduction] drops every edge implied by a longer path,
    given an order in which every edge between different nodes leads forward.
    The callers pass a topological order of the graph ([transitive_reduction])
    or of a larger graph without the self-loops ([TaskInfo::compile]), so
    self-loops are admitted here. *)

From S2P Require Import Prelude Index Graph Topo.

Section reduction.
  Context `{Idx} `{DirectedGraph G}.

(** [graph.edges(from)] sorted by position and deduplicated. *)
Definition sorted_successors {E} (g : G) (topo : TopologicalOrder) (from : nat) : exec E (list nat) :=
  successors ← expect (edges g from);
  keyed ← mapM (λ to, k ← vget (topo_map topo) to; Ret (k, to)) successors;
  Ret (dedup (sort_by_key keyed)).

(** [covered[index] |= value] for every cell of a row. *)
Definition cover_row {E} (row covered : list bool) : exec E (list bool) :=
  for_each (imap pair row) (λ '(index, value) covered,
    c ← vget covered index;
    vset covered index (c || value)) covered.

(** One successor of [from]: skipped when already covered, kept otherwise. *)
Definition keep_successor {E} (reachable : list (list bool)) (from to : nat)
    (st : list (list nat) * list bool) : exec E (list (list nat) * list bool) :=
  let '(reduced, covered) := st in
  c ← vget covered to;
  if c : bool then Ret (reduced, covered)
  else
    kept ← vget reduced from;
    reduced ← vset reduced from (vpush kept to);
    covered ← vset covered to true;
    row ← vget reachable to;
    covered ← cover_row row covered;
    Ret (reduced, covered).

(** One node of the reversed order. *)
Definition reduce_node {E} (g : G) (topo : TopologicalOrder) (from : nat)
    (st : list (list bool) * list (list nat)) : exec E (list (list bool) * list (list nat)) :=
  let '(reachable, reduced) := st in
  successors ← sorted_successors g topo from;
  '(reduced, covered) ←
    for_each successors (keep_successor reachable from)
      (reduced, replicate (num_nodes g) false);
  reachable ← vset reachable from covered;
  Ret (reachable, reduced).

Definition transitive_solved_reduction {E} (g : G) (topo : TopologicalOrder) : exec E BasicGraph :=
  nodes ← iter_nodes g;
  let reachable := (λ _, replicate (num_nodes g) false) <$> nodes in
  nodes ← iter_nodes g;
  let reduced := (λ _, []) <$> nodes in
  '(_, reduced) ← for_each (reverse (topo_order topo)) (reduce_node g topo) (reachable, reduced);
  Ret {| bg_edges := reduced |}.

Definition transitive_reduction (g : G) : exec GraphCycle (BasicGraph * TopologicalOrder) :=
  topo ← topological_order g;
  reduced ← transitive_solved_reduction g topo;
  Ret (reduced, topo).

End reduction.

(** ** Specification *)

(** The position of a node in the order. *)
Definition topo_pos (t : TopologicalOrder) (v : nat) : nat := default 0 (topo_map t !! v).

(** Every edge between different nodes leads forward. *)
Definition topo_weak `{DirectedGraph G} (g : G) (t : TopologicalOrder) : Prop :=
  topo_perm (num_nodes g) t ∧ ∀ v w, gedge g v w → v = w ∨ topo_forward t v w.

(** [kept] reduces the successors of [v]: edges of [v]; every edge is kept or
    implied through a kept one; no kept edge is implied through another edge;
    in the order's order. *)
Record reduces `{DirectedGraph G} (g : G) (t : TopologicalOrder) (v : nat) (kept : list nat) : Prop := {
  red_sub : ∀ w, w ∈ kept → gedge g v w;
  red_cover : ∀ w, gedge g v w → w ∈ kept ∨ ∃ x, x ∈ kept ∧ x ≠ v ∧ tc (gedge g) x w;
  red_minimal : ∀ w x, w ∈ kept → gedge g v x → x ≠ w → x ≠ v → ¬ tc (gedge g) x w;
  red_sorted : StronglySorted (λ a b, topo_pos t a < topo_pos t b) kept;
}.

(** [row] marks what [P] holds of. *)
Definition row_marks (n : nat) (row : list bool) (P : nat → Prop) : Prop :=
  length row = n ∧ ∀ w, row !! w = Some true ↔ P w.

(** ** Lemmas *)

Lemma dedup_elem {A} `{EqDecision A} (l : list A) x : x ∈ dedup l ↔ x ∈ l.
Proof.
  induction l as [|y l IH]; [done|]. simpl. destruct l as [|z l]; [done|].
  case_decide as Heq; rewrite ?elem_of_cons in *; rewrite IH; naive_solver.
Qed.

Section dedup_sorted.
  Context (key : nat → nat).

Lemma dedup_sorted l :
  StronglySorted (λ a b, key a <= key b) l →
  (∀ x y, x ∈ l → y ∈ l → key x = key y → x = y) →
  StronglySorted (λ a b, key a < key b) (dedup l).
Proof.
  induction l as [|x l IH]; intros Hs Hinj; [constructor|].
  apply StronglySorted_inv in Hs as [Hs Hx]. simpl. destruct l as [|y l]; [repeat constructor|].
  assert (Hd : StronglySorted (λ a b, key a < key b) (dedup (y :: l))).
  { apply IH; [done|]. intros ? ? ? ?. apply Hinj; by right. }
  case_decide as Heq; [done|]. constructor; [done|].
  apply Forall_forall. intros z Hz. rewrite dedup_elem in Hz. rewrite Forall_forall in Hx.
  assert (key x ≠ key y) by (intros ?; apply Heq, Hinj; [left|right; left|done]).
  pose proof (Hx y ltac:(left)). apply StronglySorted_inv in Hs as [_ Hy].
  rewrite Forall_forall in Hy. apply elem_of_cons in Hz as [->|Hz]; [lia|].
  pose proof (Hy z Hz). simpl in *. lia.
Qed.

#[local] Instance key_le_total : Total key_le.
Proof. intros a b. unfold key_le. lia. Qed.
#[local] Instance key_le_trans : Transitive key_le.
Proof. intros a b c. unfold key_le. lia. Qed.

Lemma sort_by_key_spec l :
  sort_by_key ((λ x, (key x, x)) <$> l) ≡ₚ l ∧
  StronglySorted (λ a b, key a <= key b) (sort_by_key ((λ x, (key x, x)) <$> l)).
Proof.
  unfold sort_by_key. set (keyed := (λ x, (key x, x)) <$> l).
  assert (Hperm : merge_sort key_le keyed ≡ₚ keyed) by apply merge_sort_Permutation.
  split.
  - rewrite Hperm. unfold keyed. rewrite <-list_fmap_compose. simpl.
    by rewrite list_fmap_id.
  - assert (Hk : ∀ p, p ∈ merge_sort key_le keyed → p.1 = key p.2).
    { intros p. rewrite Hperm. unfold keyed. by intros (x & -> & _)%list_elem_of_fmap. }
    pose proof (StronglySorted_merge_sort key_le keyed) as Hs.
    revert Hk Hs. generalize (merge_sort key_le keyed). intros ps Hk Hs.
    induction ps as [|p ps IH]; simpl; [constructor|].
    apply StronglySorted_inv in Hs as [Hs Hp]. constructor; [apply IH; [|done]|].
    + intros q ?. apply Hk. by right.
    + rewrite Forall_forall in Hp. apply Forall_forall. intros z (q & -> & Hq)%list_elem_of_fmap.
      rewrite <-(Hk p), <-(Hk q); [by apply Hp|by right|by left].
Qed.

End dedup_sorted.

Lemma cover_row_spec {E} n row covered (P R : nat → Prop) (Q : list bool → Prop) (X : E → Prop) :
  row_marks n row P → row_marks n covered R →
  (∀ covered', row_marks n covered' (λ w, R w ∨ P w) → Q covered') →
  wp (cover_row row covered) Q X.
Proof.
  intros [Hlr HP] [Hlc HR] HQ. unfold cover_row.
  apply (wp_for_each (λ pre covered', length covered' = n ∧
    ∀ w, covered' !! w = Some true ↔ R w ∨ (w < length pre ∧ P w))).
  - split; [done|]. intros w. rewrite HR. simpl. intuition lia.
  - intros pre [i b] post cov Heq [Hlen Hpre].
    assert (Hi : imap pair row !! length pre = Some (i, b))
      by (rewrite Heq, lookup_app_r, Nat.sub_diag by lia; done).
    apply list_lookup_imap_Some in Hi as (b' & Hb & [= -> ->]).
    pose proof (lookup_lt_Some _ _ _ Hb). wp_get c Hc. apply wp_vset; [lia|].
    rewrite length_insert, length_app. split; [done|]. intros w. simpl.
    rewrite list_lookup_insert_Some. specialize (Hpre w). specialize (HP w).
    destruct (decide (length pre = w)) as [<-|Hne].
    + rewrite Hc, Hb in *. destruct b', c; simpl; intuition (lia || congruence).
    + rewrite Hpre. intuition lia.
  - intros cov [Hlen Hall]. rewrite length_imap in Hall. apply HQ. split; [done|].
    intros w. rewrite Hall. split; [naive_solver|]. intros [?|Hw]; [by left|right].
    split; [|done]. apply HP in Hw. apply lookup_lt_Some in Hw. lia.
Qed.

Section proofs.
  Context `{Idx} `{DirectedGraph G} (g : G) (t : TopologicalOrder).
  Context (Hg : graph_wf g) (Ht : topo_weak g t).

(** What holds of a successor [x] marked by its finished row. *)
Definition implies (from x w : nat) : Prop := x ≠ from ∧ tc (gedge g) x w.

Lemma topo_pos_lookup v : v < num_nodes g → topo_map t !! v = Some (topo_pos t v).
Proof.
  destruct Ht as [(_ & Hlen & _) _]. intros Hv. unfold topo_pos.
  rewrite <-Hlen in Hv. apply lookup_lt_is_Some in Hv as [i ->]. done.
Qed.

Lemma topo_pos_order v : v < num_nodes g → topo_order t !! topo_pos t v = Some v.
Proof. intros Hv. destruct Ht as [(_ & _ & Hinv) _]. by apply Hinv, topo_pos_lookup. Qed.

Lemma topo_pos_inj v w : v < num_nodes g → w < num_nodes g → topo_pos t v = topo_pos t w → v = w.
Proof.
  intros Hv%topo_pos_order Hw%topo_pos_order Heq. rewrite Heq in Hv. by simplify_eq.
Qed.

Lemma topo_pos_edge v w : gedge g v w → v ≠ w → topo_pos t v < topo_pos t w.
Proof.
  intros Hvw Hne. destruct (gedge_lt _ _ _ Hg Hvw) as [Hv Hw].
  destruct Ht as [_ Hf]. destruct (Hf _ _ Hvw) as [?|(i & j & Hi & Hj & Hlt)]; [done|].
  rewrite topo_pos_lookup in Hi, Hj by done. simplify_eq. done.
Qed.

Lemma topo_pos_tc v w : tc (gedge g) v w → v ≠ w → topo_pos t v < topo_pos t w.
Proof.
  intros Hp. induction Hp as [v w Hvw|v w x Hvw _ IH]; intros Hne; [by apply topo_pos_edge|].
  destruct (decide (v = w)) as [->|Hvw']; [by apply IH|].
  pose proof (topo_pos_edge _ _ Hvw Hvw').
  destruct (decide (w = x)) as [->|Hwx]; [done|]. specialize (IH Hwx). lia.
Qed.

Lemma sorted_successors_spec {E} from (P : list nat → Prop) (Q : E → Prop) :
  from < num_nodes g →
  (∀ l, (∀ w, w ∈ l ↔ gedge g from w) →
     StronglySorted (λ a b, topo_pos t a < topo_pos t b) l → P l) →
  wp (sorted_successors g t from) P Q.
Proof.
  intros Hfrom HP. unfold sorted_successors. rewrite edges_adj by done. simpl.
  assert (Hlt : ∀ w, w ∈ adj g from → w < num_nodes g) by (intros w Hw; by apply (gedge_lt g from w)).
  rewrite (mapM_ret _ (λ x, (topo_pos t x, x))).
  - destruct (sort_by_key_spec (topo_pos t) (adj g from)) as [Hperm Hs].
    apply wp_ret, HP.
    + intros w. rewrite dedup_elem, Hperm. unfold gedge. naive_solver.
    + apply dedup_sorted; [done|]. intros x y. rewrite Hperm. intros ? ?. apply topo_pos_inj; auto.
  - intros x Hx. unfold vget. by rewrite topo_pos_lookup by auto.
Qed.

(** The state of the loop over the successors of [from]. *)
Definition keep_inv (reduced0 : list (list nat)) (from : nat) (pre : list nat)
    (st : list (list nat) * list bool) : Prop :=
  ∃ kept, st.1 = <[from:=kept]> reduced0 ∧
    row_marks (num_nodes g) st.2 (λ w, ∃ x, x ∈ pre ∧ (w = x ∨ implies from x w)) ∧
    (∀ w, w ∈ kept → w ∈ pre) ∧
    (∀ w, w ∈ pre → w ∈ kept ∨ ∃ x, x ∈ kept ∧ implies from x w) ∧
    (∀ w x, w ∈ kept → x ∈ pre → x ≠ w → ¬ implies from x w) ∧
    StronglySorted (λ a b, topo_pos t a < topo_pos t b) kept.

Lemma implies_trans from x y w : implies from x y → implies from y w → implies from x w.
Proof. intros [Hx Hxy] [_ Hyw]. split; [done|]. by etrans. Qed.

Lemma keep_inv_skip reduced0 from pre to st :
  keep_inv reduced0 from pre st → st.2 !! to = Some true → to ∉ pre →
  StronglySorted (λ a b, topo_pos t a < topo_pos t b) (pre ++ [to]) →
  keep_inv reduced0 from (pre ++ [to]) st.
Proof.
  intros (kept & Heq & [Hlen Hcov] & Hsub & Hall & Hmin & Hs) Hc Hto Hsort.
  apply Hcov in Hc as (x & Hx & [->|Himp]); [done|].
  exists kept. split_and!; [done| | | | |done].
  - split; [done|]. intros w. rewrite Hcov. split.
    + intros (y & Hy & Hw). exists y. split; [apply elem_of_app; by left|done].
    + intros (y & [Hy| ->%list_elem_of_singleton]%elem_of_app & Hw); [by exists y|].
      exists x. split; [done|]. right. destruct Hw as [->|Hw]; [done|]. by eapply implies_trans.
  - intros w ?. apply elem_of_app. left. auto.
  - intros w [Hw| ->%list_elem_of_singleton]%elem_of_app; [auto|]. right.
    destruct (Hall x Hx) as [?|(y & Hy & Hyx)]; [by exists x|].
    exists y. split; [done|]. by eapply implies_trans.
  - intros w y Hw [Hy| ->%list_elem_of_singleton]%elem_of_app Hne; [by apply Hmin|].
    intros [_ Htc]. pose proof (topo_pos_tc _ _ Htc Hne).
    pose proof (StronglySorted_app_1_elem_of _ _ _ w to Hsort (Hsub _ Hw) ltac:(left)). simpl in *. lia.
Qed.

Lemma keep_inv_keep reduced0 from pre to kept covered covered' :
  keep_inv reduced0 from pre (<[from:=kept]> reduced0, covered) →
  from < length reduced0 → to ∉ pre → covered !! to = Some false →
  row_marks (num_nodes g) covered' (λ w, <[to:=true]> covered !! w = Some true ∨ implies from to w) →
  StronglySorted (λ a b, topo_pos t a < topo_pos t b) (pre ++ [to]) →
  keep_inv reduced0 from (pre ++ [to]) (<[from:=kept ++ [to]]> reduced0, covered').
Proof.
  intros (kept' & Heq & [Hlen Hcov] & Hsub & Hall & Hmin & Hs) Hfrom Hto Hc [Hlen' Hcov'] Hsort.
  simpl in *. assert (kept' = kept) as ->.
  { apply (f_equal (lookup from)) in Heq. rewrite !list_lookup_insert_eq in Heq by done. congruence. }
  pose proof (lookup_lt_Some _ _ _ Hc) as Hlt.
  exists (kept ++ [to]). simpl. split_and!; [done| | | | |].
  - split; [done|]. intros w. rewrite Hcov', list_lookup_insert_Some, Hcov. split.
    + intros [[(<- & _ & _)|(_ & x & Hx & Hw)]|Hw].
      * exists to. set_solver.
      * exists x. set_solver.
      * exists to. set_solver.
    + intros (x & [Hx| ->%list_elem_of_singleton]%elem_of_app & Hw).
      * left. destruct (decide (to = w)) as [->|]; [by left|right]. eauto.
      * destruct Hw as [->|?]; [left; by left|by right].
  - set_solver.
  - intros w [Hw| ->%list_elem_of_singleton]%elem_of_app; [|left; set_solver].
    destruct (Hall w Hw) as [?|(x & Hx & ?)]; [left; set_solver|right]. exists x. set_solver.
  - intros w x [Hw| ->%list_elem_of_singleton]%elem_of_app [Hx| ->%list_elem_of_singleton]%elem_of_app Hne.
    + by apply Hmin.
    + intros [_ Htc]. pose proof (topo_pos_tc _ _ Htc Hne).
      pose proof (StronglySorted_app_1_elem_of _ _ _ w to Hsort (Hsub _ Hw) ltac:(left)). simpl in *. lia.
    + intros Himp. assert (covered !! to = Some true) by (apply Hcov; eauto). congruence.
    + done.
  - apply StronglySorted_app_2; [|done|repeat constructor].
    intros x y Hx ->%list_elem_of_singleton.
    by apply (StronglySorted_app_1_elem_of _ _ _ x to Hsort (Hsub _ Hx)); left.
Qed.

Lemma keep_successors_spec {E} reachable reduced0 from succs
    (P : list (list nat) * list bool → Prop) (Q : E → Prop) :
  (∀ w, w ∈ succs ↔ gedge g from w) →
  StronglySorted (λ a b, topo_pos t a < topo_pos t b) succs →
  (∀ x, gedge g from x → ∃ row, reachable !! x = Some row ∧ row_marks (num_nodes g) row (implies from x)) →
  reduced0 !! from = Some [] →
  (∀ kept covered, reduces g t from kept → row_marks (num_nodes g) covered (tc (gedge g) from) →
     P (<[from:=kept]> reduced0, covered)) →
  wp (for_each succs (keep_successor reachable from) (reduced0, replicate (num_nodes g) false)) P Q.
Proof.
  intros Hin Hsort Hrows Hred HP. pose proof (lookup_lt_Some _ _ _ Hred) as Hfrom.
  apply (wp_for_each (keep_inv reduced0 from)).
  - exists []. simpl. split_and!; try (by intros ? ?%elem_of_nil); [by rewrite list_insert_id| | |constructor].
    + split; [by rewrite length_replicate|]. intros w. split; [|by intros (? & ?%elem_of_nil & _)].
      by intros [? _]%lookup_replicate.
    + by intros ? ? ?%elem_of_nil.
  - intros pre to post [reduced covered] -> Hinv. unfold keep_successor.
    assert (Hto : gedge g from to) by (apply Hin; set_solver).
    destruct (gedge_lt _ _ _ Hg Hto) as [_ Hlt].
    assert (Hsort' : StronglySorted (λ a b, topo_pos t a < topo_pos t b) (pre ++ [to])).
    { rewrite (cons_middle to), app_assoc in Hsort. by eapply StronglySorted_app_1_l. }
    assert (Hnin : to ∉ pre).
    { intros Hp. pose proof (StronglySorted_app_1_elem_of _ _ _ to to Hsort' Hp ltac:(left)). simpl in *. lia. }
    pose proof Hinv as (kept & Heq & [Hlen Hcov] & _). simpl in *. subst reduced.
    wp_get c Hc. destruct c.
    + apply wp_ret. by apply keep_inv_skip.
    + apply wp_bind. unfold vget at 1. rewrite list_lookup_insert_eq by done. apply wp_ret.
      apply wp_bind, wp_vset; [by rewrite length_insert|]. rewrite list_insert_insert_eq. wp_set.
      destruct (Hrows to Hto) as (row & Hrow & Hmarks).
      apply wp_bind. unfold vget. rewrite Hrow. apply wp_ret, wp_bind.
      eapply (cover_row_spec _ _ _ _ (λ w, <[to:=true]> covered !! w = Some true));
        [done|split; [by rewrite length_insert|done]|].
      intros covered' Hcov'. apply wp_ret. by eapply keep_inv_keep.
  - intros [reduced covered] (kept & Heq & Hcov & Hsub & Hall & Hmin & Hs). simpl in *. subst reduced.
    apply HP.
    + split; [intros w ?; by apply Hin, Hsub| | |done].
      * intros w Hw%Hin. destruct (Hall w Hw) as [?|(x & ? & ? & ?)]; [by left|right; eauto].
      * intros w x Hw Hx%Hin Hne Hnf Htc. by eapply Hmin.
    + destruct Hcov as [Hlen Hcov]. split; [done|]. intros w. rewrite Hcov. split.
      * intros (x & Hx%Hin & [->|[_ ?]]); [by apply tc_once|by eapply tc_l].
      * intros Htc. remember from as v eqn:Hv in Htc.
        induction Htc as [v w Hvw|v x w Hvx Hxw IH]; subst v.
        -- exists w. split; [by apply Hin|by left].
        -- destruct (decide (x = from)) as [->|Hne]; [by apply IH|].
           exists x. split; [by apply Hin|]. right. by split.
Qed.

(** The state of the loop over the reversed order: processed nodes have their
    reachability row and their reduced successors, the others are blank. *)
Definition reduce_inv (pre : list nat) (st : list (list bool) * list (list nat)) : Prop :=
  length st.1 = num_nodes g ∧ length st.2 = num_nodes g ∧
  ∀ v, v < num_nodes g → ∃ row kept, st.1 !! v = Some row ∧ st.2 !! v = Some kept ∧
    ((v ∈ pre ∧ row_marks (num_nodes g) row (tc (gedge g) v) ∧ reduces g t v kept) ∨
     ((v ∉ pre) ∧ row_marks (num_nodes g) row (λ _, False) ∧ kept = [])).

(** Successors come before their node in the reversed order. *)
Lemma reverse_order_before pre from post w :
  reverse (topo_order t) = pre ++ from :: post → gedge g from w → w ≠ from → w ∈ pre ∧ from ∉ pre.
Proof.
  intros Heq Hw Hne. destruct (gedge_lt _ _ _ Hg Hw) as [Hf Hwn].
  pose proof (topo_pos_edge _ _ Hw (not_eq_sym Hne)) as Hlt.
  pose proof (topo_pos_order _ Hf) as Hpf. pose proof (topo_pos_order _ Hwn) as Hpw.
  destruct Ht as [(Hperm & _ & _) _].
  assert (Hnd : NoDup (pre ++ from :: post)).
  { rewrite <-Heq, reverse_Permutation, Hperm. apply NoDup_seq. }
  assert (Hrev : ∀ v, v < num_nodes g →
    (pre ++ from :: post) !! (length (topo_order t) - S (topo_pos t v)) = Some v).
  { intros v Hv. pose proof (topo_pos_order v Hv) as Hpv.
    pose proof (lookup_lt_Some _ _ _ Hpv). rewrite <-Heq, reverse_lookup by lia.
    by replace (_ - S (_ - _)) with (topo_pos t v) by lia. }
  pose proof (lookup_lt_Some _ _ _ Hpf). pose proof (lookup_lt_Some _ _ _ Hpw).
  assert (Hidx : length (topo_order t) - S (topo_pos t from) = length pre).
  { eapply NoDup_lookup; [done|by apply Hrev|]. by rewrite lookup_app_r, Nat.sub_diag by lia. }
  split.
  - specialize (Hrev w Hwn). rewrite lookup_app_l in Hrev by lia. by eapply list_elem_of_lookup_2.
  - apply NoDup_app in Hnd as (_ & Hnd & _). intros ?. eapply Hnd; [done|left].
Qed.

Lemma reduce_node_spec {E} pre from post st
    (P : list (list bool) * list (list nat) → Prop) (Q : E → Prop) :
  reverse (topo_order t) = pre ++ from :: post → reduce_inv pre st →
  (∀ st', reduce_inv (pre ++ [from]) st' → P st') →
  wp (reduce_node g t from st) P Q.
Proof.
  intros Heq (Hl1 & Hl2 & Hinv) HP. destruct st as [reachable reduced]. simpl in *.
  destruct (Ht) as [(Hperm & _ & _) _].
  assert (Hnd : NoDup (pre ++ from :: post)).
  { rewrite <-Heq, reverse_Permutation, Hperm. apply NoDup_seq. }
  assert (Hfrom : from < num_nodes g).
  { assert (from ∈ seq 0 (num_nodes g)) as ?%elem_of_seq; [|lia].
    rewrite <-Hperm, <-reverse_Permutation, Heq. set_solver. }
  assert (Hnin : from ∉ pre).
  { apply NoDup_app in Hnd as (_ & Hnd & _). intros ?. eapply Hnd; [done|left]. }
  apply wp_bind, sorted_successors_spec; [done|]. intros succs Hin Hsort.
  destruct (Hinv from Hfrom) as (row & kept0 & Hrow & Hkept & [[? _]|(_ & Hblank & ->)]); [done|].
  apply wp_bind. eapply keep_successors_spec; [done..| |done|].
  { intros x Hx. destruct (decide (x = from)) as [->|Hne].
    - exists row. split; [done|]. destruct Hblank as [? Hb]. split; [done|].
      intros w. rewrite Hb. unfold implies. naive_solver.
    - destruct (reverse_order_before _ _ _ _ Heq Hx Hne) as [Hpre _].
      destruct (Hinv x) as (rowx & keptx & ? & ? & [(_ & [? Hm] & _)|[? _]]); [by apply (gedge_lt g from)| |done].
      exists rowx. split; [done|]. split; [done|]. intros w. rewrite Hm. unfold implies. naive_solver. }
  intros kept covered Hred Hcov. simpl. apply wp_bind, wp_vset; [lia|]. apply wp_ret, HP.
  split_and!; simpl; [by rewrite length_insert..|]. intros v Hv.
  destruct (decide (from = v)) as [<-|Hne].
  - exists covered, kept. rewrite !list_lookup_insert_eq by lia. split_and!; [done..|].
    left. split_and!; [set_solver|done..].
  - rewrite !list_lookup_insert_ne by done.
    destruct (Hinv v Hv) as (rowv & keptv & ? & ? & Hv'). exists rowv, keptv. split_and!; [done..|].
    destruct Hv' as [(? & ? & ?)|(? & ? & ?)]; [left|right]; set_solver.
Qed.

Lemma transitive_solved_reduction_spec {E} (P : BasicGraph → Prop) (Q : E → Prop) :
  (∀ r, num_nodes r = num_nodes g → (∀ v, v < num_nodes g → ∃ kept, edges r v = Some kept ∧ reduces g t v kept) → P r) →
  wp (transitive_solved_reduction g t) P Q.
Proof.
  intros HP. unfold transitive_solved_reduction. rewrite !iter_nodes_ret by apply Hg. simpl.
  apply wp_bind, (wp_for_each reduce_inv).
  - split_and!; simpl; [by rewrite length_fmap, length_seq..|]. intros v Hv.
    exists (replicate (num_nodes g) false), [].
    rewrite !list_lookup_fmap, !lookup_seq_lt by done. split_and!; [done..|].
    right. split_and!; [by intros ?%elem_of_nil| |done]. split; [by rewrite length_replicate|].
    intros w. split; [|done]. by intros [? _]%lookup_replicate.
  - intros pre from post st Heq Hinv. by eapply reduce_node_spec.
  - intros [reachable reduced] (_ & Hlen & Hinv). apply wp_ret, HP; [done|]. intros v Hv.
    destruct (Hinv v Hv) as (row & kept & _ & Hk & [(_ & _ & ?)|[Hnin _]]); [by exists kept|].
    exfalso. apply Hnin. rewrite reverse_Permutation.
    destruct Ht as [(-> & _) _]. apply elem_of_seq. lia.
Qed.

(** A graph that reduces every node of [g]. *)
Definition reduces_all (r : BasicGraph) : Prop :=
  num_nodes r = num_nodes g ∧
  ∀ v, v < num_nodes g → ∃ kept, edges r v = Some kept ∧ reduces g t v kept.

Lemma reduces_gedge r v w : reduces_all r → gedge r v w → gedge g v w.
Proof.
  intros [Hn Hr] [Hv Hw]. rewrite Hn in Hv. destruct (Hr v Hv) as (kept & Hk & Hred).
  unfold adj in Hw. rewrite Hk in Hw. by apply (red_sub _ _ _ _ Hred).
Qed.

Lemma reduces_kept r v w kept : reduces_all r → v < num_nodes g → edges r v = Some kept →
  w ∈ kept → gedge r v w.
Proof. intros [Hn _] Hv Hk Hw. split; [lia|]. unfold adj. by rewrite Hk. Qed.

Lemma reduces_edge_path r v w : reduces_all r → gedge g v w → tc (gedge r) v w.
Proof.
  intros Hr. remember (num_nodes g - topo_pos t v) as k eqn:Hk. revert v w Hk.
  induction k as [k IH] using lt_wf_ind. intros v w -> Hvw.
  destruct (gedge_lt _ _ _ Hg Hvw) as [Hv Hw].
  destruct (proj2 Hr v Hv) as (kept & Hkept & Hred).
  destruct (red_cover _ _ _ _ Hred w Hvw) as [?|(x & Hx & Hne & Hxw)].
  { by eapply tc_once, reduces_kept. }
  pose proof (red_sub _ _ _ _ Hred _ Hx) as Hvx.
  pose proof (topo_pos_edge _ _ Hvx (not_eq_sym Hne)) as Hlt.
  assert (Hpos : ∀ y, y < num_nodes g → topo_pos t y < num_nodes g).
  { intros y Hy%topo_pos_order%lookup_lt_Some. destruct Ht as [(Hperm & _) _].
    by rewrite Hperm, length_seq in Hy. }
  eapply tc_l; [by eapply reduces_kept|]. clear Hx.
  assert (Hstep : ∀ y z, topo_pos t v < topo_pos t y → gedge g y z → tc (gedge r) y z).
  { intros y z Hy Hyz. destruct (gedge_lt _ _ _ Hg Hyz) as [Hyn _]. pose proof (Hpos y Hyn).
    eapply IH; [|done|done]. lia. }
  assert (Hlift : ∀ y, tc (gedge g) y w → topo_pos t v < topo_pos t y → tc (gedge r) y w).
  { intros y Hyw. induction Hyw as [y z Hyz|y z z' Hyz Hzz IH']; intros Hlty; [by apply Hstep|].
    etrans; [by apply Hstep|]. apply IH'; [done..|].
    destruct (decide (y = z)) as [->|Hyz']; [done|]. pose proof (topo_pos_edge _ _ Hyz Hyz'). lia. }
  by apply Hlift.
Qed.

(** Nodewise reductions preserve reachability. *)
Lemma reduces_tc r v w : reduces_all r → tc (gedge r) v w ↔ tc (gedge g) v w.
Proof.
  intros Hr. split; intros Hp; induction Hp as [v w Hvw|v w x Hvw _ IH].
  - by eapply tc_once, reduces_gedge.
  - eapply tc_l; [by eapply reduces_gedge|done].
  - by apply reduces_edge_path.
  - etrans; [by apply reduces_edge_path|done].
Qed.

End proofs.

(** ** Properties *)

(** Reachability without one edge. *)
Definition gedge_without `{DirectedGraph G} (g : G) (v w x y : nat) : Prop :=
  gedge g x y ∧ (x, y) ≠ (v, w).

(** A graph that reduces every node has no edge implied by others. *)
Lemma reduces_minimal `{DirectedGraph G} (g : G) t r v w :
  reduces_all g t r → gedge r v w → v ≠ w → ¬ tc (gedge_without r v w) v w.
Proof.
  intros Hr Hvw Hne Hp.
  assert (Hlift : ∀ x, tc (gedge_without r v w) x w → tc (gedge g) x w).
  { intros x Hx. induction Hx as [x y [Hxy _]|x y z [Hxy _] _ IH];
      apply (reduces_gedge g t) in Hxy; [by apply tc_once|done|by eapply tc_l; eauto|done]. }
  destruct Hr as [Hn Hall]. destruct Hvw as [Hv Hw]. rewrite Hn in Hv.
  destruct (Hall v Hv) as (kept & Hkept & Hred). unfold adj in Hw. rewrite Hkept in Hw. simpl in Hw.
  cut (∀ x y, tc (gedge_without r v w) x y → x = v → y = w → False); [eauto|].
  intros x y Hxy. induction Hxy as [x y [_ Hxy]|x z y [Hxz Hne'] Hzy IH]; intros -> ->; [done|].
  destruct (decide (z = v)) as [->|Hzv]; [by apply IH|].
  apply (red_minimal _ _ _ _ Hred w z); [done| |congruence|done|by apply Hlift].
  by apply (reduces_gedge g t r).
Qed.

Section properties.
  Context `{Idx} `{DirectedGraph G} (g : G) (t : TopologicalOrder).

(** Given an order in which edges between different nodes lead forward, the
    reduction returns a graph on the same nodes whose edges are edges of the
    input and which reaches exactly the same nodes. *)
Lemma transitive_solved_reduction_reachability :
  graph_wf g → topo_weak g t →
  ∃ r, transitive_solved_reduction (E:=()) g t = Ret r ∧
    num_nodes r = num_nodes g ∧
    (∀ v w, gedge r v w → gedge g v w) ∧
    (∀ v w, tc (gedge r) v w ↔ tc (gedge g) v w).
Proof.
  intros Hg Ht.
  assert (Hwp : wp (E:=()) (transitive_solved_reduction g t) (reduces_all g t) (λ _, False)).
  { apply transitive_solved_reduction_spec; [done..|]. intros. by split. }
  apply wp_total in Hwp as (r & Heq & Hr). exists r.
  split_and!; [done|by destruct Hr| |]; intros v w.
  - by eapply reduces_gedge.
  - by eapply reduces_tc.
Qed.

(** The reduction is irredundant: without any one of its edges between
    different nodes, the target of that edge is no longer reachable from its
    source. *)
Lemma transitive_solved_reduction_minimal r v w :
  graph_wf g → topo_weak g t → transitive_solved_reduction (E:=()) g t = Ret r →
  gedge r v w → v ≠ w → ¬ tc (gedge_without r v w) v w.
Proof.
  intros Hg Ht Heq. apply (reduces_minimal g t).
  refine (wp_ret_inv _ r (reduces_all g t) (λ _, False) _ Heq).
  apply transitive_solved_reduction_spec; [done..|]. intros. by split.
Qed.

(** C15: given an order in which edges between different nodes lead forward, the
    reduction returns a graph on the same nodes whose edges are edges of the
    input, which reaches exactly the same nodes and in which no edge is implied
    by the others: without any one of its edges between different nodes, the
    target of that edge is no longer reachable from its source. *)
Theorem transitive_solved_reduction_correct :
  graph_wf g → topo_weak g t →
  ∃ r, transitive_solved_reduction (E:=()) g t = Ret r ∧
    num_nodes r = num_nodes g ∧
    (∀ v w, gedge r v w → gedge g v w) ∧
    (∀ v w, tc (gedge r) v w ↔ tc (gedge g) v w) ∧
    (∀ v w, gedge r v w → v ≠ w → ¬ tc (gedge_without r v w) v w).
Proof.
  intros Hg Ht. destruct (transitive_solved_reduction_reachability Hg Ht) as (r & Hr & ? & ? & ?).
  exists r. split_and!; [done..|]. intros v w. by apply transitive_solved_reduction_minimal.
Qed.

(** [transitive_reduction] either reports a cycle of the graph, which then
    is not acyclic, or returns a topological order of it together with a graph
    that reaches exactly the same nodes. *)
Theorem transitive_reduction_correct :
  graph_wf g →
  (∃ r t, transitive_reduction g = Ret (r, t) ∧ acyclic g ∧
     topo_perm (num_nodes g) t ∧ (∀ v w, gedge g v w → topo_forward t v w) ∧
     (∀ v w, tc (gedge r) v w ↔ tc (gedge g) v w)) ∨
  (∃ c, transitive_reduction g = Throw c ∧ closed_path (gedge g) (gc_nodes c) ∧ ¬ acyclic g).
Proof.
  intros Hg.
  assert (Hwp : wp (transitive_reduction g)
    (λ '(r, t), topo_perm (num_nodes g) t ∧ (∀ v w, gedge g v w → topo_forward t v w) ∧
       reduces_all g t r ∧ topo_weak g t)
    (λ c, closed_path (gedge g) (gc_nodes c))).
  { unfold transitive_reduction. apply wp_bind, topological_order_spec; [done| |done].
    intros t' Hp Hf. assert (topo_weak g t') by (split; [done|intros; right; auto]).
    apply wp_bind, (transitive_solved_reduction_spec g t'); [done..|]. intros r' ? ?.
    apply wp_ret. split_and!; done. }
  apply wp_inv in Hwp as [([r t'] & -> & Hp & Hf & Hr & Hw)|(c & -> & Hc)]; [left|right].
  - exists r, t'. split_and!; [done| |done..|].
    + intros v Hv. by eapply topo_forward_irrefl, topo_forward_tc.
    + intros v w. by eapply reduces_tc.
  - exists c. split_and!; [done..|]. intros Hac. apply closed_path_tc in Hc as [v Hv]. by apply Hac in Hv.
Qed.

End properties.

(** The graph and order of [tests::removes_transitive_edges]. *)
Definition sample_redundant : BasicGraph := {| bg_edges := [[1; 2; 3]; [2; 3]; [3]; []] |}.
Definition sample_order : TopologicalOrder :=
  {| topo_order := [0; 1; 2; 3]; topo_map := [0; 1; 2; 3] |}.

Lemma sample_wf : graph_wf (H:=idx_usize) sample_redundant.
Proof. apply graph_wfb_wf. reflexivity. Defined.

Lemma sample_weak : topo_weak sample_redundant sample_order.
Proof.
  split.
  - split; [reflexivity|]. split; [reflexivity|]. intros i v.
    destruct i as [|[|[|[|i]]]], v as [|[|[|[|v]]]]; simpl; split; intros [=]; subst; reflexivity.
  - intros v w [Hv Hw]. right. exists v, w. simpl in Hv.
    destruct v as [|[|[|[|v]]]]; [| | | |lia]; unfold adj in Hw; simpl in Hw;
      repeat (apply elem_of_cons in Hw as [->|Hw]; [split_and!; [reflexivity|reflexivity|lia]|]);
      by apply elem_of_nil in Hw.
Defined.

Lemma transitive_solved_reduction_correct_witness :
  ∃ r, transitive_solved_reduction (H:=idx_usize) (E:=()) sample_redundant sample_order = Ret r ∧
    r = {| bg_edges := [[1]; [2]; [3]; []] |} ∧ tc (gedge r) 0 3 ∧ ¬ tc (gedge_without r 1 2) 1 2.
Proof.
  destruct (transitive_solved_reduction_correct (H:=idx_usize) sample_redundant sample_order
    sample_wf sample_weak) as (r & Heq & _ & _ & Htc & Hmin).
  exists r. split; [exact Heq|].
  vm_compute in Heq. injection Heq as <-. split; [reflexivity|]. split.
  - apply Htc, tc_once. split; [simpl; lia|]. unfold adj. simpl. set_solver.
  - apply Hmin; [|lia]. split; [simpl; lia|]. unfold adj. simpl. set_solver.
Defined.

Lemma transitive_reduction_correct_witness :
  ∃ c, transitive_reduction (H:=idx_usize) sample_cyclic = Throw c ∧
    closed_path (gedge sample_cyclic) (gc_nodes c).
Proof.
  destruct (transitive_reduction_correct (H:=idx_usize) sample_cyclic)
    as [(r & t & Heq & _)|(c & Heq & Hc & _)].
  - apply graph_wfb_wf. reflexivity.
  - vm_compute in Heq. discriminate Heq.
  - exists c. split; [exact Heq|exact Hc].
Defined.
