(* ===== verification/Scc.v ===== *)
(** * Strongly connected components ([src/src/graph.rs], lines 103 to 287)

    [tarjan] visits the nodes depth first.  A node is [Working] from its visit
    until its component is complete; the component of a node is complete when
    the node is left and no edge led from below it to a node visited earlier
    that still works. *)

From S2P Require Import Prelude Index Graph.

(** ** Data *)

Inductive VisitState :=
| NotSeen
| Working (index min_val : nat)
| Done (index min_val scc_id : nat).

Definition get_min {E} (s : VisitState) : exec E nat :=
  match s with
  | NotSeen => Panic
  | Working _ min_val | Done _ min_val _ => Ret min_val
  end.

Definition update_min {E} (other : nat) (s : VisitState) : exec E VisitState :=
  match s with
  | NotSeen => Panic
  | Working index min_val => Ret (Working index (if decide (other < min_val) then other else min_val))
  | Done index min_val cid => Ret (Done index (if decide (other < min_val) then other else min_val) cid)
  end.

Definition mark_done (cid : nat) (s : VisitState) : VisitState :=
  match s with
  | Working index min_val => Done index min_val cid
  | s => s
  end.

(** [edges] holds what the iterator has yet to yield. *)
Record WorkFrame := { frame_node : nat; frame_edges : list nat; frame_successors : nat }.

Record SCCS := { sccs_map : list nat; sccs_comps : list (list nat); sccs_dag : VecGraph }.

(** The local variables of [tarjan]. *)
Record TarjanState := {
  tj_states : list VisitState;
  tj_index : nat;
  tj_call_stack : list WorkFrame;
  tj_scc_stack : list nat;
  tj_successor_stack : list nat;
  tj_map : list nat;
  tj_comps : list (list nat);
  tj_dag : VecGraph;
}.

Definition with_states (states : list VisitState) (st : TarjanState) : TarjanState :=
  {| tj_states := states; tj_index := tj_index st; tj_call_stack := tj_call_stack st;
     tj_scc_stack := tj_scc_stack st; tj_successor_stack := tj_successor_stack st;
     tj_map := tj_map st; tj_comps := tj_comps st; tj_dag := tj_dag st |}.

Definition with_call_stack (stack : list WorkFrame) (st : TarjanState) : TarjanState :=
  {| tj_states := tj_states st; tj_index := tj_index st; tj_call_stack := stack;
     tj_scc_stack := tj_scc_stack st; tj_successor_stack := tj_successor_stack st;
     tj_map := tj_map st; tj_comps := tj_comps st; tj_dag := tj_dag st |}.

Definition with_successors (successors : list nat) (st : TarjanState) : TarjanState :=
  {| tj_states := tj_states st; tj_index := tj_index st; tj_call_stack := tj_call_stack st;
     tj_scc_stack := tj_scc_stack st; tj_successor_stack := successors;
     tj_map := tj_map st; tj_comps := tj_comps st; tj_dag := tj_dag st |}.

(** [filter(|s| successor_dedup.insert( *s))]: the first occurrences. *)
Fixpoint keep_new (seen : gset nat) (l : list nat) : list nat :=
  match l with
  | [] => []
  | x :: l => if decide (x ∈ seen) then keep_new seen l else x :: keep_new ({[x]} ∪ seen) l
  end.

Section tarjan.
  Context `{Idx} `{DirectedGraph G} {E : Type}.

(** Entering a root or an unseen successor. *)
Definition tj_enter (g : G) (node : nat) (st : TarjanState) : exec E TarjanState :=
  es ← expect (edges g node);
  let index := tj_index st in
  states ← vset (tj_states st) node (Working index index);
  index' ← idx_increment_by index 1;
  Ret {| tj_states := states;
         tj_index := index';
         tj_call_stack := vpush (tj_call_stack st)
           {| frame_node := node; frame_edges := es;
              frame_successors := length (tj_successor_stack st) |};
         tj_scc_stack := vpush (tj_scc_stack st) node;
         tj_successor_stack := tj_successor_stack st;
         tj_map := tj_map st; tj_comps := tj_comps st; tj_dag := tj_dag st |}.

(** [states[node].update_min(other)]. *)
Definition lower_min (node other : nat) (st : TarjanState) : exec E TarjanState :=
  s ← vget (tj_states st) node;
  s ← update_min other s;
  states ← vset (tj_states st) node s;
  Ret (with_states states st).

(** One turn of the loop that gathers the members of a component. *)
Definition gather_member (node cid : nat)
    (s : list nat * list VisitState * list nat * list nat)
    : exec E ((list nat * list VisitState * list nat * list nat) +
              (list nat * list VisitState * list nat * list nat)) :=
  let '(scc_stack, states, map, members) := s in
  '(c, scc_stack) ← expect (vpop scc_stack);
  state ← vget states c;
  states ← vset states c (mark_done cid state);
  map ← vset map c cid;
  let s := (scc_stack, states, map, vpush members c) in
  Ret (if decide (c = node) then inr s else inl s).

(** [successor_stack.drain(len..)]: what stays and what is taken. *)
Definition drain (v : list nat) (len : nat) : exec E (list nat * list nat) :=
  if decide (len <= length v) then Ret (take len v, drop len v) else Panic.

(** A component is complete: the frame has been popped. *)
Definition close_component (frame : WorkFrame) (st : TarjanState) : exec E TarjanState :=
  cid ← idx_new (length (tj_comps st));
  '(scc_stack, states, map, members) ←
    loop (gather_member (frame_node frame) cid) (S (length (tj_scc_stack st)))
      (tj_scc_stack st, tj_states st, tj_map st, []);
  '(_, comps) ← index_push (tj_comps st) members;
  '(kept, drained) ← drain (tj_successor_stack st) (frame_successors frame);
  dag ← vg_pack (keep_new ∅ drained) (tj_dag st);
  let successors := match last (tj_call_stack st) with
                    | Some _ => vpush kept cid
                    | None => kept
                    end in
  Ret {| tj_states := states; tj_index := tj_index st; tj_call_stack := tj_call_stack st;
         tj_scc_stack := scc_stack; tj_successor_stack := successors;
         tj_map := map; tj_comps := comps; tj_dag := dag |}.

(** Leaving a node whose iterator is exhausted. *)
Definition tj_leave (st : TarjanState) : exec E TarjanState :=
  '(frame, call_stack) ← expect (vpop (tj_call_stack st));
  let st := with_call_stack call_stack st in
  state ← vget (tj_states st) (frame_node frame);
  st ← match state with
       | Working i min_val => if decide (i = min_val) then close_component frame st else Ret st
       | _ => Ret st
       end;
  match last (tj_call_stack st) with
  | Some pf =>
      s ← vget (tj_states st) (frame_node frame);
      m ← get_min s;
      lower_min (frame_node pf) m st
  | None => Ret st
  end.

(** One turn of ['recurse]. *)
Definition tj_recurse (g : G) (st : TarjanState) : exec E (TarjanState + TarjanState) :=
  match last (tj_call_stack st) with
  | None => Ret (inr st)
  | Some frame =>
      match frame_edges frame with
      | [] => st ← tj_leave st; Ret (inl st)
      | next :: rest =>
          let st := with_call_stack (vset_last (tj_call_stack st)
            {| frame_node := frame_node frame; frame_edges := rest;
               frame_successors := frame_successors frame |}) st in
          state ← vget (tj_states st) next;
          match state with
          | NotSeen => st ← tj_enter g next st; Ret (inl st)
          | Working index _ => st ← lower_min (frame_node frame) index st; Ret (inl st)
          | Done _ _ scc_id =>
              Ret (inl (with_successors (vpush (tj_successor_stack st) scc_id) st))
          end
      end
  end.

(** Enough turns for the search from one root: one per edge and one per node. *)
Definition tj_fuel (g : G) : nat :=
  S (sum_list_with (λ v, S (length (adj g v))) (seq 0 (num_nodes g))).

Definition tj_root (g : G) (node : nat) (st : TarjanState) : exec E TarjanState :=
  state ← vget (tj_states st) node;
  match state with
  | NotSeen => st ← tj_enter g node st; loop (tj_recurse g) (tj_fuel g) st
  | Working _ _ => Panic
  | Done _ _ _ => Ret st
  end.

Definition tarjan (g : G) : exec E SCCS :=
  nodes ← iter_nodes g;
  map ← mapM (λ _, idx_new 0) nodes;
  index ← idx_new 0;
  st ← for_each nodes (tj_root g)
    {| tj_states := (λ _, NotSeen) <$> nodes; tj_index := index;
       tj_call_stack := []; tj_scc_stack := []; tj_successor_stack := [];
       tj_map := map; tj_comps := []; tj_dag := vg_new_empty |};
  Ret {| sccs_map := tj_map st; sccs_comps := tj_comps st; sccs_dag := tj_dag st |}.

End tarjan.

Example tarjan_sample :
  tarjan (H:=idx_usize) (E:=()) {| bg_edges := [[1; 3]; [2]; [1; 3; 3; 2]; [4]; [3; 5]; []] |} =
  Ret {| sccs_map := [3; 2; 2; 1; 1; 0]; sccs_comps := [[5]; [4; 3]; [2; 1]; [0]];
         sccs_dag := {| vg_nodes := [(0, 0); (0, 1); (1, 2); (2, 4)]; vg_edges := [0; 1; 2; 1] |} |}.
Proof. vm_compute. reflexivity. Qed.
