(* ===== verification/SccSearch.v ===== *)
(** * The search of [tarjan]

    What holds between two turns of the search, as a relation between the
    states of the nodes, the path of the nodes being visited, the stacks, and
    [used], the edges each working node has followed so far; and how the turns
    keep it. *)

From stdpp Require Import functions.
From S2P Require Import Prelude Index Graph Scc.

(** ** The states of the nodes *)

(** The index and the minimum of a working node, the component of a done one. *)
Definition num (states : list VisitState) (x : nat) : option nat :=
  match states !! x with Some (Working i _) => Some i | _ => None end.
Definition low (states : list VisitState) (x : nat) : option nat :=
  match states !! x with Some (Working _ m) => Some m | _ => None end.
Definition comp (states : list VisitState) (x : nat) : option nat :=
  match states !! x with Some (Done _ _ c) => Some c | _ => None end.
Definition seen (states : list VisitState) (x : nat) : Prop :=
  is_Some (num states x) ∨ is_Some (comp states x).

Lemma num_low states x i : num states x = Some i → ∃ m, low states x = Some m ∧ states !! x = Some (Working i m).
Proof. unfold num, low. destruct (states !! x) as [[| |]|]; naive_solver. Qed.

Lemma low_num states x m : low states x = Some m → ∃ i, num states x = Some i ∧ states !! x = Some (Working i m).
Proof. unfold num, low. destruct (states !! x) as [[| |]|]; naive_solver. Qed.

Lemma num_comp states x i c : num states x = Some i → comp states x = Some c → False.
Proof. unfold num, comp. destruct (states !! x) as [[| |]|]; naive_solver. Qed.

Lemma num_lt states x i : num states x = Some i → x < length states.
Proof. unfold num. destruct (states !! x) eqn:Hx; [intros _; by eapply lookup_lt_Some|done]. Qed.

Lemma unseen_not_seen states x : states !! x = Some NotSeen → num states x = None ∧ comp states x = None.
Proof. unfold num, comp. by intros ->. Qed.

(** A working node with another minimum. *)
Lemma lowered states v i m m0 (states' := <[v:=Working i m0]> states) :
  states !! v = Some (Working i m) →
  (∀ x, num states' x = num states x) ∧ (∀ x, comp states' x = comp states x) ∧
  (∀ x, low states' x = if decide (x = v) then Some m0 else low states x).
Proof.
  intros Hv. pose proof (lookup_lt_Some _ _ _ Hv) as Hlt. unfold num, comp, low, states'.
  split_and!; intros x; destruct (decide (x = v)) as [->|Hne];
    rewrite ?list_lookup_insert_eq, ?list_lookup_insert_ne by done; by rewrite ?Hv.
Qed.

(** A new working node. *)
Lemma entered states v i (states' := <[v:=Working i i]> states) :
  states !! v = Some NotSeen →
  (∀ x, num states' x = if decide (x = v) then Some i else num states x) ∧
  (∀ x, low states' x = if decide (x = v) then Some i else low states x) ∧
  (∀ x, comp states' x = comp states x).
Proof.
  intros Hv. pose proof (lookup_lt_Some _ _ _ Hv) as Hlt. unfold num, comp, low, states'.
  split_and!; intros x; destruct (decide (x = v)) as [->|Hne];
    rewrite ?list_lookup_insert_eq, ?list_lookup_insert_ne by done; by rewrite ?Hv.
Qed.

(** ** The invariant *)

Section search.
  Context `{DirectedGraph G} (g : G).

Abbreviation R := (gedge g).

(** Before the next node of the path. *)
Definition bounded (states : list VisitState) (path : list nat) (k i : nat) : Prop :=
  ∀ v j, path !! S k = Some v → num states v = Some j → i < j.

(** The part of the successors that belongs to a node of the path. *)
Definition segment (lens successors : list nat) (k a : nat) : list nat :=
  match lens !! S k with
  | Some b => take (b - a) (drop a successors)
  | None => drop a successors
  end.

(** Left without a component, and waiting for the node of the path above. *)
Definition waiting (used : nat → list nat) (states : list VisitState) (path : list nat) (x i : nat) : Prop :=
  used x = adj g x ∧ (∀ m, low states x = Some m → m < i) ∧
  ∃ k v j, path !! k = Some v ∧ num states v = Some j ∧ j < i ∧ bounded states path k i ∧
    ∀ n m, low states v = Some n → low states x = Some m → n <= m.

Record search_inv (used : nat → list nat) (states : list VisitState) (index : nat)
    (path lens stack successors : list nat) : Prop := {
  si_stack x : x ∈ stack ↔ is_Some (num states x);
  si_sorted p q x y i j : p < q → stack !! p = Some x → stack !! q = Some y →
    num states x = Some i → num states y = Some j → i < j;
  si_index x i : num states x = Some i → i < index;
  si_low x i m : num states x = Some i → low states x = Some m →
    m <= i ∧ ∃ u, num states u = Some m ∧ rtc R x u;
  si_used x m y j : low states x = Some m → y ∈ used x → num states y = Some j → m <= j;
  si_seen x i y : num states x = Some i → y ∈ used x → seen states y;
  si_closed x c y : comp states x = Some c → R x y → is_Some (comp states y);
  si_path k v : path !! k = Some v → is_Some (num states v);
  si_order k l v w i j : k < l → path !! k = Some v → path !! l = Some w →
    num states v = Some i → num states w = Some j → i < j;
  si_waiting x i : num states x = Some i → x ∉ path → waiting used states path x i;
  si_reach k v j x i : path !! k = Some v → num states v = Some j → num states x = Some i →
    j <= i → rtc R v x;
  si_before k v j x i y l : path !! S k = Some v → num states v = Some j → num states x = Some i →
    i < j → y ∈ used x → num states y = Some l → j <= l → path !! k = Some x ∧ y = v;
  si_tree k v w : path !! k = Some v → path !! S k = Some w → w ∈ used v;
  si_lens : length lens = length path;
  si_len k a : lens !! k = Some a → a <= length successors ∧ (k = 0 → a = 0) ∧
    ∀ l b, k <= l → lens !! l = Some b → a <= b;
  si_rest : path = [] → successors = [];
  si_succ k v j a : path !! k = Some v → num states v = Some j → lens !! k = Some a →
    ∀ c, c ∈ segment lens successors k a ↔
      ∃ x i y, num states x = Some i ∧ j <= i ∧ bounded states path k i ∧ y ∈ used x ∧ comp states y = Some c;
}.

(** ** First consequences *)

Section facts.
  Context {used states index path lens stack successors}
    (Hinv : search_inv used states index path lens stack successors).

Lemma num_inj x y i : num states x = Some i → num states y = Some i → x = y.
Proof.
  intros Hx Hy.
  assert (x ∈ stack) as [p Hp]%list_elem_of_lookup by (apply (si_stack _ _ _ _ _ _ _ Hinv); by eexists).
  assert (y ∈ stack) as [q Hq]%list_elem_of_lookup by (apply (si_stack _ _ _ _ _ _ _ Hinv); by eexists).
  destruct (lt_eq_lt_dec p q) as [[Hlt|Heq]|Hlt]; [|congruence|].
  - pose proof (si_sorted _ _ _ _ _ _ _ Hinv _ _ _ _ _ _ Hlt Hp Hq Hx Hy). lia.
  - pose proof (si_sorted _ _ _ _ _ _ _ Hinv _ _ _ _ _ _ Hlt Hq Hp Hy Hx). lia.
Qed.

Lemma stack_nodup : NoDup stack.
Proof.
  apply NoDup_alt. intros p q x Hp Hq.
  assert (is_Some (num states x)) as [i Hi] by (eapply (si_stack _ _ _ _ _ _ _ Hinv), list_elem_of_lookup_2, Hp).
  destruct (lt_eq_lt_dec p q) as [[Hlt|Heq]|Hlt]; [|done|].
  - pose proof (si_sorted _ _ _ _ _ _ _ Hinv _ _ _ _ _ _ Hlt Hp Hq Hi Hi). lia.
  - pose proof (si_sorted _ _ _ _ _ _ _ Hinv _ _ _ _ _ _ Hlt Hq Hp Hi Hi). lia.
Qed.

Lemma path_le k l v w i j :
  k <= l → path !! k = Some v → path !! l = Some w → num states v = Some i → num states w = Some j → i <= j.
Proof.
  intros Hkl Hv Hw Hi Hj. destruct (decide (k = l)) as [Heq|Hne]; [assert (i = j) by congruence; lia|].
  apply Nat.lt_le_incl. eapply (si_order _ _ _ _ _ _ _ Hinv k l); [lia|done..].
Qed.

(** Only the top of the path has no bound. *)
Lemma bounded_top k i j v p :
  path = p ++ [v] → num states v = Some j → bounded states path k i → j <= i → k < length path → k = length p.
Proof.
  intros Hp Hv Hb Hji Hk.
  assert (Hlen : length path = S (length p)) by (rewrite Hp, length_app; simpl; lia).
  assert (Htop : path !! length p = Some v) by (rewrite Hp; apply lookup_snoc).
  destruct (decide (k = length p)) as [|Hne]; [done|exfalso].
  assert (is_Some (path !! S k)) as [w Hw] by (apply lookup_lt_is_Some; lia).
  destruct (si_path _ _ _ _ _ _ _ Hinv _ _ Hw) as [l Hl].
  pose proof (Hb _ _ Hw Hl).
  pose proof (path_le (S k) (length p) w v l j ltac:(lia) Hw Htop Hl Hv). lia.
Qed.

(** A working node has followed edges of its own. *)
Lemma not_on_path_used x i : num states x = Some i → x ∉ path → used x = adj g x.
Proof. intros Hx Hp. by apply (si_waiting _ _ _ _ _ _ _ Hinv x i). Qed.

End facts.

(** ** Following an edge to a node that was seen *)

Lemma fn_insert_eq (f : nat → list nat) x v : <[x:=v]> f x = v.
Proof. apply fn_lookup_insert. Qed.

Lemma used_edge used states index path lens stack successors x i y :
  search_inv used states index path lens stack successors →
  (∀ v, v ∈ path → ∃ rest, adj g v = used v ++ rest) →
  (∀ v i, num states v = Some i → v < num_nodes g) →
  num states x = Some i → y ∈ used x → R x y.
Proof.
  intros Hinv Hpath Hlt Hx Hy. split; [by eapply Hlt|].
  destruct (decide (x ∈ path)) as [Hp|Hp].
  - destruct (Hpath x Hp) as [rest ->]. apply elem_of_app. by left.
  - by rewrite <-(not_on_path_used Hinv x i Hx Hp).
Qed.

(** The successors, with those that the edge adds. *)
Lemma advance_succ {used used' : nat → list nat} {states index p v lens stack successors i next new}
    (path := p ++ [v]) :
  search_inv used states index path lens stack successors → num states v = Some i →
  (∀ x y, y ∈ used' x → y ∈ used x ∨ (x = v ∧ y = next)) → (∀ x y, y ∈ used x → y ∈ used' x) →
  next ∈ used' v → (∀ c, c ∈ new ↔ comp states next = Some c) →
  ∀ k w j a, path !! k = Some w → num states w = Some j → lens !! k = Some a →
  ∀ c, c ∈ segment lens (successors ++ new) k a ↔
    ∃ x i y, num states x = Some i ∧ j <= i ∧ bounded states path k i ∧ y ∈ used' x ∧ comp states y = Some c.
Proof.
  intros Hinv Hvi Hused Hsub Hnextv Hnew.
  intros k w j a Hk Hw Ha c. pose proof Hinv as [_ _ _ _ _ _ _ _ _ _ _ _ _ Hll Hle' _ Hsu].
  specialize (Hsu k w j a Hk Hw Ha).
  destruct (Hle' k a Ha) as (Hak & _ & Hnexts).
  unfold segment in *. destruct (lens !! S k) as [b|] eqn:Hb.
  + destruct (Hle' (S k) b Hb) as (Hbs & _ & _).
    rewrite drop_app_le by lia. rewrite take_app_le by (rewrite length_drop; lia).
    rewrite Hsu.
    split; intros (x & l & y & Hx & Hjl & Hbo & Hy & Hc); exists x, l, y; split_and!; try done; [by apply Hsub|].
    destruct (Hused x y Hy) as [?|[-> ->]]; [done|exfalso].
    assert (S k < length path) by (rewrite <-Hll; by eapply lookup_lt_Some).
    assert (k = length p); [|unfold path in *; rewrite length_app in *; simpl in *; lia].
    assert (l = i) as -> by congruence. eapply (bounded_top Hinv); [done|exact Hvi|exact Hbo|lia|lia].
  + rewrite drop_app_le by lia. rewrite elem_of_app, Hsu, Hnew.
    assert (k = length p) as ->.
    { apply lookup_ge_None in Hb. apply lookup_lt_Some in Hk. unfold path in *.
      rewrite length_app in *. simpl in *. lia. }
    assert (path !! length p = Some v) by apply lookup_snoc.
    assert (w = v) as -> by congruence. assert (j = i) as -> by congruence.
    split.
    * intros [(x & l & y & Hx & Hjl & Hbo & Hy & Hc)|Hc].
      -- exists x, l, y. split_and!; try done. by apply Hsub.
      -- exists v, i, next. split_and!; try done.
         intros w l Hw'. apply lookup_lt_Some in Hw'. unfold path in Hw'. rewrite length_app in Hw'. simpl in Hw'. lia.
    * intros (x & l & y & Hx & Hjl & Hbo & [Hy|[-> ->]]%Hused & Hc); [left|by right].
      by exists x, l, y.
Qed.

(** One edge more is used. *)
Lemma used_more (used : nat → list nat) v next x y :
  y ∈ <[v:=used v ++ [next]]> used x ↔ y ∈ used x ∨ (x = v ∧ y = next).
Proof.
  destruct (decide (x = v)) as [->|Hne].
  - rewrite fn_lookup_insert. set_solver.
  - rewrite fn_lookup_insert_ne by done. naive_solver.
Qed.

(** [m0] is the new minimum, and [new] what the edge adds to the successors. *)
Lemma inv_advance used states index p v lens stack successors i m m0 next new
    (path := p ++ [v]) (used' := <[v:=used v ++ [next]]> used) (states' := <[v:=Working i m0]> states) :
  search_inv used states index path lens stack successors →
  states !! v = Some (Working i m) → R v next → seen states next →
  m0 <= m → (m0 = m ∨ num states next = Some m0) →
  (∀ j, num states next = Some j → m0 <= j) →
  (∀ c, c ∈ new ↔ comp states next = Some c) →
  search_inv used' states' index path lens stack (successors ++ new).
Proof.
  intros Hinv Hv Hedge Hseen Hle Hm0 Hnext Hnew.
  destruct (lowered states v i m m0 Hv) as (Hnum & Hcomp & Hlow). fold states' in Hnum, Hcomp, Hlow.
  assert (Hvi : num states v = Some i) by (unfold num; by rewrite Hv).
  assert (Hvm : low states v = Some m) by (unfold low; by rewrite Hv).
  assert (Htop : path !! length p = Some v) by apply lookup_snoc.
  assert (Hused : ∀ x y, y ∈ used' x → y ∈ used x ∨ (x = v ∧ y = next)) by (intros; by apply used_more).
  assert (Hsub : ∀ x y, y ∈ used x → y ∈ used' x) by (intros; apply used_more; by left).
  assert (Hlower : ∀ x n, low states' x = Some n → ∃ n', low states x = Some n' ∧ n <= n').
  { intros x n. rewrite Hlow. case_decide as Hx; [intros [= <-]; subst x; eauto|eauto]. }
  pose proof Hinv as [Hst Hso Hix Hlo Hus Hse Hcl Hpa Hor Hwa Hre Hbe Htr Hll Hle' Hrest Hsu].
  split; try setoid_rewrite Hnum; try setoid_rewrite Hcomp; try done.
  - intros x j n Hx. rewrite Hlow. case_decide as Heq; [intros [= <-]; subst x|by apply Hlo].
    destruct (Hlo v i m Hvi Hvm) as [Hmi Hu]. assert (j = i) as -> by congruence. split; [lia|].
    destruct Hm0 as [->|Hn]; [done|]. exists next. split; [done|by apply rtc_once].
  - intros x n y j Hn [Hy|[-> ->]]%Hused Hj.
    + destruct (Hlower x n Hn) as (n' & Hn' & ?). pose proof (Hus x n' y j Hn' Hy Hj). lia.
    + rewrite Hlow, decide_True in Hn by done. injection Hn as <-. by apply Hnext.
  - unfold seen. setoid_rewrite Hnum. setoid_rewrite Hcomp.
    intros x j y Hx [Hy|[-> ->]]%Hused; [by eapply Hse|done].
  - intros x j Hx Hp. assert (x ≠ v) by (intros ->; apply Hp; set_solver).
    destruct (Hwa x j Hx Hp) as (Hfull & Hlt & k & w & l & Hk & Hw & Hlj & Hb & Hmin).
    split; [unfold used'; by rewrite fn_lookup_insert_ne|]. split.
    + intros n. rewrite Hlow, decide_False by done. apply Hlt.
    + exists k, w, l. rewrite Hnum. split_and!; try done.
      * intros w' l'. rewrite Hnum. apply Hb.
      * intros n n' (n2 & Hn2 & ?)%Hlower. rewrite Hlow, decide_False by done. intros Hn'.
        pose proof (Hmin n2 n' Hn2 Hn'). lia.
  - intros k w j x l y n Hk Hw Hx Hlt [Hy|[-> ->]]%Hused Hn Hjn; [by eapply Hbe|].
    exfalso. assert (S k <= length p) by (apply lookup_lt_Some in Hk; unfold path in Hk; rewrite length_app in Hk; simpl in Hk; lia).
    pose proof (path_le Hinv (S k) (length p) w v j i ltac:(done) Hk Htop Hw Hvi). assert (l = i) by congruence. lia.
  - intros k w x Hk Hx. eapply Hsub, Htr; [exact Hk|exact Hx].
  - intros k a Hk. destruct (Hle' k a Hk) as (? & ? & ?). rewrite length_app. split_and!; [lia|done|done].
  - unfold path. intros ?. by destruct p.
  - intros k w j a Hk Hw Ha c. unfold bounded. setoid_rewrite Hnum. eapply (advance_succ Hinv Hvi Hused Hsub); try done.
    unfold used'. rewrite fn_insert_eq. set_solver.
Qed.

(** ** Entering a node *)

(** The edges followed once the last node of the path leads to [next]. *)
Definition used_enter (used : nat → list nat) (path : list nat) (next : nat) : nat → list nat :=
  <[next:=[]]> (match last path with Some v => <[v:=used v ++ [next]]> used | None => used end).

Lemma used_enter_new used path next : used_enter used path next next = [].
Proof. unfold used_enter. by rewrite fn_lookup_insert. Qed.

Lemma used_enter_inv used path next x y :
  y ∈ used_enter used path next x → x ≠ next ∧ (y ∈ used x ∨ (last path = Some x ∧ y = next)).
Proof.
  unfold used_enter. destruct (decide (x = next)) as [->|Hne].
  - rewrite fn_lookup_insert. by intros ?%elem_of_nil.
  - rewrite fn_lookup_insert_ne by done. intros Hy. split; [done|]. destruct (last path) as [v|]; [|by left].
    destruct (decide (x = v)) as [->|]; [rewrite fn_insert_eq in Hy|rewrite fn_lookup_insert_ne in Hy by done; by left].
    apply elem_of_app in Hy as [?| ->%list_elem_of_singleton]; [by left|by right].
Qed.

Lemma used_enter_sub used path next x y : x ≠ next → y ∈ used x → y ∈ used_enter used path next x.
Proof.
  intros Hne Hy. unfold used_enter. rewrite fn_lookup_insert_ne by done.
  destruct (last path) as [v|]; [|done]. destruct (decide (x = v)) as [->|]; [|by rewrite fn_lookup_insert_ne].
  rewrite fn_insert_eq. set_solver.
Qed.

Lemma used_enter_last used path next x : x ≠ next → last path = Some x → next ∈ used_enter used path next x.
Proof.
  intros Hne Hx. unfold used_enter. rewrite fn_lookup_insert_ne by done. rewrite Hx, fn_insert_eq. set_solver.
Qed.

Lemma used_enter_other used path next x : x ≠ next → last path ≠ Some x → used_enter used path next x = used x.
Proof.
  intros Hne Hx. unfold used_enter. rewrite fn_lookup_insert_ne by done.
  destruct (last path) as [v|]; [|done]. rewrite fn_lookup_insert_ne by congruence. done.
Qed.

Lemma last_at (l : list nat) k v : l !! k = Some v → k = length l - 1 → last l = Some v.
Proof. intros Hv ->. by rewrite last_lookup, <-Nat.sub_1_r. Qed.

Section enter.
  Context {used states index path lens stack successors next}
    (Hinv : search_inv used states index path lens stack successors)
    (Hns : states !! next = Some NotSeen).

Abbreviation states' := (<[next:=Working index index]> states).
Abbreviation used' := (used_enter used path next).

Lemma enter_num x : num states' x = if decide (x = next) then Some index else num states x.
Proof. by destruct (entered states next index Hns). Qed.

Lemma enter_low x : low states' x = if decide (x = next) then Some index else low states x.
Proof. by destruct (entered states next index Hns) as (_ & ? & _). Qed.

Lemma enter_comp x : comp states' x = comp states x.
Proof. by destruct (entered states next index Hns) as (_ & _ & ?). Qed.

Lemma enter_unseen : num states next = None ∧ comp states next = None.
Proof. by apply unseen_not_seen. Qed.

Lemma enter_old x i : num states x = Some i → x ≠ next.
Proof. intros Hx ->. destruct enter_unseen. congruence. Qed.

Lemma enter_path_old k v : path !! k = Some v → v ≠ next.
Proof. intros Hv. destruct (si_path _ _ _ _ _ _ _ Hinv k v Hv) as [j Hj]. by eapply enter_old. Qed.

Lemma enter_keeps x i : num states x = Some i → num states' x = Some i.
Proof. intros Hx. rewrite enter_num, decide_False by (by eapply enter_old). done. Qed.

Lemma enter_case x i : num states' x = Some i →
  (x = next ∧ i = index) ∨ (x ≠ next ∧ num states x = Some i ∧ i < index).
Proof.
  rewrite enter_num. case_decide; [intros [= <-]; by left|]. intros Hx. right.
  split_and!; [done|done|by eapply (si_index _ _ _ _ _ _ _ Hinv)].
Qed.

Lemma enter_path k v j : path !! k = Some v → num states' v = Some j → num states v = Some j.
Proof.
  intros Hv [[-> _]|(_ & ? & _)]%enter_case; [|done]. by apply enter_path_old in Hv.
Qed.

Lemma enter_bounded k i : k < length path → i < index →
  bounded states' (path ++ [next]) k i ↔ bounded states path k i.
Proof.
  intros Hk Hi. unfold bounded. setoid_rewrite enter_num. split.
  - intros Hb v j Hv Hj. apply (Hb v); [by apply lookup_app_l_Some|].
    rewrite decide_False; [done|by eapply enter_old].
  - intros Hb v j [[_ Hv]|[_ <-]]%lookup_snoc_Some; [|rewrite decide_True by done; by intros [= <-]].
    case_decide; [by intros [= <-]|]. by apply Hb.
Qed.

Lemma enter_waiting x i : num states' x = Some i → x ∉ path ++ [next] → waiting used' states' (path ++ [next]) x i.
Proof.
  pose proof Hinv as [Hst Hso Hix Hlo Hus Hse Hcl Hpa Hor Hwa Hre Hbe Htr Hll Hle Hrest Hsu].
  destruct enter_unseen as [Hnn Hnc].
  intros [[-> _]|(Hxn & Hi & Hlt)]%enter_case Hp; [set_solver|].
  assert (Hp' : x ∉ path) by set_solver.
  destruct (Hwa x i Hi Hp') as (Hfull & Hlt' & k & w & l & Hk & Hw & Hlj & Hb & Hmin).
  split; [|split].
  + rewrite used_enter_other; [done|done|]. intros Hl. apply Hp'. by eapply last_Some_elem_of.
  + intros m. rewrite enter_low, decide_False by done. apply Hlt'.
  + exists k, w, l. split; [by apply lookup_app_l_Some|]. split; [by apply enter_keeps|]. split; [done|]. split.
    * apply enter_bounded; [by eapply lookup_lt_Some|done|done].
    * intros n m. rewrite !enter_low, !decide_False by (first [done|by eapply enter_path_old]). apply Hmin.
Qed.

Lemma enter_reach k v j x i :
  (∀ u, last path = Some u → R u next) →
  (path ++ [next]) !! k = Some v → num states' v = Some j → num states' x = Some i → j <= i → rtc R v x.
Proof.
  pose proof Hinv as [Hst Hso Hix Hlo Hus Hse Hcl Hpa Hor Hwa Hre Hbe Htr Hll Hle Hrest Hsu].
  destruct enter_unseen as [Hnn Hnc].
  intros Hedge Hv Hj Hi Hji. apply lookup_snoc_Some in Hv as [[Hk Hv]|[-> <-]].
  + destruct (Hpa k v Hv) as [j' Hj']. pose proof (enter_keeps v j' Hj'). assert (j' = j) as -> by congruence.
    apply enter_case in Hi as [[-> ->]|(Hxn & Hi & _)]; [|by eapply Hre].
    destruct (lookup_lt_is_Some_2 path (length path - 1)) as [t Ht]; [lia|].
    destruct (Hpa _ _ Ht) as [l Hl]. eapply rtc_r; [|apply Hedge; by eapply last_at].
    eapply Hre; [exact Hv|exact Hj'|exact Hl|]. eapply (path_le Hinv k); [|done..]. lia.
  + rewrite enter_num, decide_True in Hj by done. injection Hj as <-.
    apply enter_case in Hi as [[-> ->]|(Hxn & Hi & ?)]; [done|lia].
Qed.

Lemma enter_before k v j x i y l :
  (path ++ [next]) !! S k = Some v → num states' v = Some j → num states' x = Some i → i < j →
  y ∈ used' x → num states' y = Some l → j <= l → (path ++ [next]) !! k = Some x ∧ y = v.
Proof.
  pose proof Hinv as [Hst Hso Hix Hlo Hus Hse Hcl Hpa Hor Hwa Hre Hbe Htr Hll Hle Hrest Hsu].
  destruct enter_unseen as [Hnn Hnc].
  intros Hv Hj Hi Hlt [Hxn Hy]%used_enter_inv Hl Hjl.
  apply enter_case in Hi as [[-> _]|(_ & Hi & Hii)]; [done|].
  apply lookup_snoc_Some in Hv as [[Hk Hv]|[Hk <-]].
  + destruct (Hpa _ v Hv) as [j' Hj']. pose proof (enter_keeps v j' Hj'). assert (j' = j) as -> by congruence.
    destruct Hy as [Hy|[Hx ->]].
    * apply enter_case in Hl as [[-> _]|(_ & Hl & _)].
      { exfalso. destruct (Hse x i next Hi Hy) as [[? ?]|[? ?]]; congruence. }
      destruct (Hbe k v j x i y l Hv Hj' Hi Hlt Hy Hl Hjl) as [? ->]. split; [by apply lookup_app_l_Some|done].
    * exfalso. rewrite last_lookup in Hx.
      pose proof (path_le Hinv (S k) (pred (length path)) v x j i ltac:(lia) Hv Hx Hj' Hi). lia.
  + rewrite enter_num, decide_True in Hj by done. injection Hj as <-.
    apply enter_case in Hl as [[-> _]|(_ & _ & ?)]; [|lia]. destruct Hy as [Hy|[Hx _]].
    * exfalso. destruct (Hse x i next Hi Hy) as [[? ?]|[? ?]]; congruence.
    * split; [|done]. rewrite last_lookup in Hx. apply lookup_app_l_Some. by rewrite <-Hk in Hx.
Qed.

Lemma enter_succ k v j a c :
  (path ++ [next]) !! k = Some v → num states' v = Some j → (lens ++ [length successors]) !! k = Some a →
  c ∈ segment (lens ++ [length successors]) successors k a ↔
    ∃ x i y, num states' x = Some i ∧ j <= i ∧ bounded states' (path ++ [next]) k i ∧ y ∈ used' x ∧ comp states' y = Some c.
Proof.
  pose proof Hinv as [Hst Hso Hix Hlo Hus Hse Hcl Hpa Hor Hwa Hre Hbe Htr Hll Hle Hrest Hsu].
  destruct enter_unseen as [Hnn Hnc].
  intros Hv Hj Ha. unfold segment. apply lookup_snoc_Some in Hv as [[Hk Hv]|[-> <-]].
  + destruct (Hpa _ v Hv) as [j' Hj']. pose proof (enter_keeps v j' Hj'). assert (j' = j) as -> by congruence.
    apply lookup_snoc_Some in Ha as [[_ Ha]|[-> _]]; [|lia].
    destruct (Hle k a Ha) as (Hak & _ & _).
    assert (Hseg : match (lens ++ [length successors]) !! S k with
      | Some b => take (b - a) (drop a successors) | None => drop a successors end =
      segment lens successors k a).
    { unfold segment. destruct (decide (S k < length lens)) as [Hlt|Hge].
      - by rewrite lookup_app_l.
      - assert (S k = length lens) as -> by lia. rewrite lookup_snoc, lookup_ge_None_2 by lia.
        apply take_ge. rewrite length_drop. lia. }
    rewrite Hseg, (Hsu k v j a Hv Hj' Ha c). setoid_rewrite enter_comp. split.
    * intros (x & i & y & Hi & Hji & Hb & Hy & Hc). exists x, i, y. split; [by apply enter_keeps|]. split; [done|].
      split; [apply enter_bounded; [done|by eapply Hix|done]|].
      split; [|done]. apply used_enter_sub; [by eapply enter_old|done].
    * intros (x & i & y & Hi & Hji & Hb & [Hxn Hy]%used_enter_inv & Hc).
      apply enter_case in Hi as [[-> _]|(_ & Hi & Hii)]; [done|]. exists x, i, y.
      destruct Hy as [Hy|[_ ->]]; [|congruence]. split_and!; try done. by apply enter_bounded.
  + apply lookup_snoc_Some in Ha as [[? _]|[_ <-]]; [lia|].
    rewrite enter_num, decide_True in Hj by done. injection Hj as <-.
    rewrite lookup_ge_None_2 by (rewrite length_app; simpl; lia).
    rewrite drop_ge by done. split; [by intros ?%elem_of_nil|].
    intros (x & i & y & Hi & Hji & _ & [Hxn Hy]%used_enter_inv & _).
    apply enter_case in Hi as [[-> _]|(_ & _ & ?)]; [done|lia].
Qed.

(** A list of numbered nodes in the order of their numbers stays so. *)
Lemma enter_increasing (l : list nat) k n v w i j :
  (∀ x, x ∈ l → is_Some (num states x)) →
  (∀ k n v w i j, k < n → l !! k = Some v → l !! n = Some w →
     num states v = Some i → num states w = Some j → i < j) →
  k < n → (l ++ [next]) !! k = Some v → (l ++ [next]) !! n = Some w →
  num states' v = Some i → num states' w = Some j → i < j.
Proof.
  intros Hnum Hinc Hkn Hv Hw Hi Hj. apply lookup_snoc_Some in Hv as [[_ Hv]|[-> _]].
  2: { apply lookup_lt_Some in Hw. rewrite length_app in Hw. simpl in Hw. lia. }
  destruct (Hnum v) as [i' Hi']; [by eapply list_elem_of_lookup_2|].
  pose proof (enter_keeps v i' Hi'). assert (i' = i) as -> by congruence.
  apply enter_case in Hj as [[-> ->]|(Hwn & Hj & _)]; [by eapply (si_index _ _ _ _ _ _ _ Hinv)|].
  apply lookup_snoc_Some in Hw as [[_ Hw]|[_ ?]]; [by eapply (Hinc k n)|congruence].
Qed.

(** The marks of the successors stay in order. *)
Lemma enter_len k a :
  (lens ++ [length successors]) !! k = Some a →
  a <= length successors ∧ (k = 0 → a = 0) ∧
  ∀ l b, k <= l → (lens ++ [length successors]) !! l = Some b → a <= b.
Proof.
  pose proof (si_len _ _ _ _ _ _ _ Hinv) as Hle.
  intros [[Hk Ha]|[-> <-]]%lookup_snoc_Some.
  - destruct (Hle k a Ha) as (? & ? & Hnexts). split_and!; [done|done|].
    intros l b Hkl [[_ Hb]|[_ <-]]%lookup_snoc_Some; [by eapply Hnexts|done].
  - split; [done|]. split.
    + intros Hz. rewrite (si_rest _ _ _ _ _ _ _ Hinv); [done|].
      apply length_zero_iff_nil. rewrite <-(si_lens _ _ _ _ _ _ _ Hinv). lia.
    + intros l b Hkl [[? Hb]|[_ <-]]%lookup_snoc_Some; [lia|done].
Qed.

Lemma inv_enter :
  (∀ v, last path = Some v → R v next) →
  search_inv used' states' (S index) (path ++ [next]) (lens ++ [length successors]) (stack ++ [next]) successors.
Proof.
  intros Hedge.
  pose proof Hinv as [Hst Hso Hix Hlo Hus Hse Hcl Hpa Hor Hwa Hre Hbe Htr Hll Hle Hrest Hsu].
  destruct enter_unseen as [Hnn Hnc].
  split.
  - intros x. rewrite elem_of_app, list_elem_of_singleton, Hst, enter_num. case_decide; naive_solver.
  - intros a b x y i j Hab Ha Hb. apply (enter_increasing stack a b); [by intros z Hz%Hst|done..].
  - intros x i [[_ ->]|(_ & _ & ?)]%enter_case; lia.
  - intros x i m [[-> ->]|(Hxn & Hi & ?)]%enter_case; rewrite enter_low.
    + rewrite decide_True by done. intros [= <-]. split; [done|]. exists next. split; [|done].
      by rewrite enter_num, decide_True.
    + rewrite decide_False by done. intros Hm. destruct (Hlo x i m Hi Hm) as (? & u & Hu & ?).
      split; [done|]. exists u. split; [by apply enter_keeps|done].
  - intros x m y j Hm [Hxn Hy]%used_enter_inv Hj. rewrite enter_low, decide_False in Hm by done.
    destruct (low_num _ _ _ Hm) as (i & Hi & _). pose proof (Hix _ _ Hi). destruct (Hlo x i m Hi Hm) as [? _].
    apply enter_case in Hj as [[-> ->]|(Hyn & Hj & _)]; [lia|].
    destruct Hy as [Hy|[_ ->]]; [by eapply Hus|done].
  - unfold seen. setoid_rewrite enter_comp. intros x i y Hi [Hxn Hy]%used_enter_inv.
    apply enter_case in Hi as [[-> _]|(_ & Hi & _)]; [done|].
    destruct Hy as [Hy|[_ ->]]; [|left; rewrite enter_num, decide_True by done; by eexists].
    destruct (Hse x i y Hi Hy) as [[j Hj]|?]; [left; exists j; by apply enter_keeps|by right].
  - setoid_rewrite enter_comp. done.
  - intros k v [[_ Hv]|[_ <-]]%lookup_snoc_Some.
    + destruct (Hpa k v Hv) as [j Hj]. exists j. by apply enter_keeps.
    + rewrite enter_num, decide_True by done. by eexists.
  - intros k l v w i j Hkl Hv Hw. apply (enter_increasing path k l); [|done..].
    intros z [n Hz]%list_elem_of_lookup. by eapply Hpa.
  - apply enter_waiting.
  - intros k v j x i. by apply enter_reach.
  - apply enter_before.
  - intros k v w Hv Hw. apply lookup_snoc_Some in Hv as [[Hk Hv]|[-> _]].
    2: { apply lookup_lt_Some in Hw. rewrite length_app in Hw. simpl in Hw. lia. }
    apply lookup_snoc_Some in Hw as [[_ Hw]|[Hl <-]].
    + apply used_enter_sub; [by eapply enter_path_old|by eapply Htr].
    + apply used_enter_last; [by eapply enter_path_old|]. eapply last_at; [done|lia].
  - rewrite !length_app. simpl. lia.
  - apply enter_len.
  - intros Hnil. by apply app_eq_nil in Hnil as [_ ?].
  - intros k v j a Hv Hj Ha c. by eapply enter_succ.
Qed.

End enter.

(** ** Leaving a node whose component is not complete *)

Lemma bounded_snoc states path v k i : bounded states (path ++ [v]) k i → bounded states path k i.
Proof. intros Hb w j Hw. apply Hb. by apply lookup_app_l_Some. Qed.

Lemma segment_snoc lens successors k a b : lens !! k = Some a → k < length lens - 1 →
  segment (lens ++ [b]) successors k a = segment lens successors k a.
Proof. intros Ha Hk. unfold segment. by rewrite lookup_app_l by lia. Qed.

Section leave.
  Context {used states index p w v lens a stack successors i m wi wm}
    (Hinv : search_inv used states index ((p ++ [w]) ++ [v]) (lens ++ [a]) stack successors)
    (Hv : states !! v = Some (Working i m)) (Hw : states !! w = Some (Working wi wm))
    (Hfull : used v = adj g v) (Hmi : m ≠ i) (Hedge : R w v).

Abbreviation wm' := (if decide (m < wm) then m else wm).
Abbreviation left_states := (<[w:=Working wi wm']> states).

Lemma leave_num x : num left_states x = num states x.
Proof. apply (lowered states w wi wm _ Hw). Qed.

Lemma leave_comp x : comp left_states x = comp states x.
Proof. apply (lowered states w wi wm _ Hw). Qed.

Lemma leave_low x : low left_states x = if decide (x = w) then Some wm' else low states x.
Proof. apply (lowered states w wi wm _ Hw). Qed.

Lemma leave_lower x n : low left_states x = Some n → ∃ n', low states x = Some n' ∧ n <= n'.
Proof.
  rewrite leave_low. case_decide as Hx; [|eauto]. intros [= <-]. subst x. exists wm.
  split; [by unfold low; rewrite Hw|]. case_decide; lia.
Qed.

Lemma leave_facts : num states v = Some i ∧ low states v = Some m ∧ num states w = Some wi ∧ low states w = Some wm.
Proof. unfold num, low. by rewrite Hv, Hw. Qed.

Lemma leave_path k u : (p ++ [w]) !! k = Some u → ((p ++ [w]) ++ [v]) !! k = Some u ∧ k <= length p.
Proof.
  intros Hu. split; [by apply lookup_app_l_Some|]. apply lookup_lt_Some in Hu.
  rewrite length_app in Hu. simpl in Hu. lia.
Qed.

Lemma leave_ends : ((p ++ [w]) ++ [v]) !! length p = Some w ∧ ((p ++ [w]) ++ [v]) !! S (length p) = Some v.
Proof.
  split; [apply lookup_app_l_Some, lookup_snoc|].
  replace (S (length p)) with (length (p ++ [w])) by (rewrite length_app; simpl; lia). apply lookup_snoc.
Qed.

Lemma leave_lens : length lens = S (length p).
Proof. pose proof (si_lens _ _ _ _ _ _ _ Hinv) as Hl. rewrite !length_app in Hl. simpl in Hl. lia. Qed.

Lemma leave_order : wi < i.
Proof.
  destruct leave_facts as (Hvi & _ & Hwi & _), leave_ends as [Hwp Hvp].
  eapply (si_order _ _ _ _ _ _ _ Hinv (length p)); [|done..]. lia.
Qed.

(** The parent is the last node of the path, whose minimum was lowered. *)
Lemma leave_waits_for_parent x j :
  num states x = Some j → x ≠ w → used x = adj g x → (∀ n, low states x = Some n → n < j) → wi < j →
  (∀ n, low states x = Some n → m <= n) → waiting used left_states (p ++ [w]) x j.
Proof.
  intros Hx Hxw Hfx Hlt Hj Hmin. destruct leave_facts as (_ & _ & Hwi & _).
  split; [done|]. split; [intros n; rewrite leave_low, decide_False by done; apply Hlt|].
  exists (length p), w, wi. rewrite leave_num. split_and!; [apply lookup_snoc|done|done| |].
  - intros u l Hu. apply lookup_lt_Some in Hu. rewrite length_app in Hu. simpl in Hu. lia.
  - intros n n'. rewrite !leave_low. destruct (decide (w = w)); [|done]. destruct (decide (x = w)); [done|].
    intros [= <-] Hn'.
    pose proof (Hmin n' Hn'). case_decide; lia.
Qed.

Lemma leave_waiting x j : num states x = Some j → x ∉ p ++ [w] → waiting used left_states (p ++ [w]) x j.
Proof.
  intros Hx Hp. destruct leave_facts as (Hvi & Hvm & Hwi & Hwm). pose proof leave_order as Hlt.
  assert (Hxw : x ≠ w) by (intros ->; set_solver).
  destruct (decide (x = v)) as [->|Hxv].
  { assert (j = i) as -> by congruence. destruct (si_low _ _ _ _ _ _ _ Hinv v i m Hvi Hvm) as [Hmle _].
    apply leave_waits_for_parent; try done; intros n Hn; rewrite Hvm in Hn; injection Hn as <-; lia. }
  destruct (si_waiting _ _ _ _ _ _ _ Hinv x j Hx) as (Hfx & Hmin & k & u & l & Hk & Hu & Hlj & Hb & Hle);
    [set_solver|].
  destruct (decide (u = v)) as [->|Huv].
  - assert (l = i) as -> by congruence. apply leave_waits_for_parent; try done; [lia|].
    intros n Hn. by apply Hle.
  - apply lookup_snoc_Some in Hk as [[_ Hk]|[_ ?]]; [|congruence].
    split; [done|]. split; [intros n; rewrite leave_low, decide_False by done; apply Hmin|].
    exists k, u, l. rewrite leave_num. split_and!; try done.
    + intros u' l'. rewrite leave_num. apply bounded_snoc in Hb. apply Hb.
    + intros n n' (n2 & Hn2 & ?)%leave_lower. rewrite leave_low, decide_False by done. intros Hn'.
      pose proof (Hle n2 n' Hn2 Hn'). lia.
Qed.

(** The successors of the node left become those of its parent. *)
Lemma leave_succ_parent b c : lens !! length p = Some b →
  c ∈ segment lens successors (length p) b ↔
    ∃ x l y, num states x = Some l ∧ wi <= l ∧ bounded states (p ++ [w]) (length p) l ∧ y ∈ used x ∧ comp states y = Some c.
Proof.
  intros Hb. destruct leave_facts as (Hvi & _ & Hwi & _), leave_ends as [Hwp Hvp].
  pose proof leave_lens as Hlens. pose proof leave_order as Hlt.
  assert (Hb' : (lens ++ [a]) !! length p = Some b) by (by apply lookup_app_l_Some).
  assert (Ha : (lens ++ [a]) !! S (length p) = Some a) by (rewrite <-Hlens; apply lookup_snoc).
  pose proof (si_succ _ _ _ _ _ _ _ Hinv _ w wi b Hwp Hwi Hb' c) as Hc.
  pose proof (si_succ _ _ _ _ _ _ _ Hinv _ v i a Hvp Hvi Ha c) as Hc'.
  unfold segment in *. rewrite Ha in Hc. rewrite lookup_ge_None_2 in Hc' by (rewrite length_app; simpl; lia).
  rewrite lookup_ge_None_2 by lia.
  destruct (si_len _ _ _ _ _ _ _ Hinv _ _ Hb') as (? & _ & Hnexts).
  pose proof (Hnexts _ _ (Nat.le_succ_diag_r _) Ha) as Hba.
  assert (Hsplit : drop b successors = take (a - b) (drop b successors) ++ drop a successors).
  { rewrite <-(take_drop (a - b) (drop b successors)) at 1. rewrite drop_drop. do 2 f_equal. lia. }
  rewrite Hsplit, elem_of_app, Hc, Hc'. split.
  - intros [(x & l & y & Hx & Hl & _ & Hy & Hcy)|(x & l & y & Hx & Hl & _ & Hy & Hcy)];
      exists x, l, y; split_and!; try done; try lia;
      intros ? ? Hu'%lookup_lt_Some; rewrite length_app in Hu'; simpl in Hu'; lia.
  - intros (x & l & y & Hx & Hl & _ & Hy & Hcy). destruct (decide (l < i)); [left|right]; exists x, l, y.
    + split_and!; try done. intros u' l' Hu' Hl'. assert (u' = v) as -> by congruence.
      assert (l' = i) as -> by congruence. done.
    + split_and!; try done; [lia|]. intros ? ? Hu'%lookup_lt_Some.
      rewrite !length_app in Hu'. simpl in Hu'. lia.
Qed.

Lemma leave_succ k u j b c :
  (p ++ [w]) !! k = Some u → num states u = Some j → lens !! k = Some b →
  c ∈ segment lens successors k b ↔
    ∃ x l y, num states x = Some l ∧ j <= l ∧ bounded states (p ++ [w]) k l ∧ y ∈ used x ∧ comp states y = Some c.
Proof.
  intros Hu Hj Hb. destruct leave_facts as (_ & _ & Hwi & _). pose proof leave_lens as Hlens.
  destruct (decide (k = length p)) as [->|Hne].
  { rewrite lookup_snoc in Hu. injection Hu as <-. assert (j = wi) as -> by congruence. by apply leave_succ_parent. }
  destruct (leave_path k u Hu) as [Hu' Hk].
  rewrite <-(segment_snoc lens successors k b a) by (first [done|lia]).
  rewrite (si_succ _ _ _ _ _ _ _ Hinv k u j b Hu' Hj) by (by apply lookup_app_l_Some).
  split; intros (x & l & y & Hx & Hl & Hbo & Hy & Hcy); exists x, l, y; split_and!; try done;
    intros u' l' Hn; apply Hbo.
  - by apply lookup_app_l_Some.
  - rewrite lookup_app_l in Hn by (rewrite length_app; simpl; lia). done.
Qed.

Lemma inv_leave : search_inv used left_states index (p ++ [w]) lens stack successors.
Proof.
  destruct leave_facts as (Hvi & Hvm & Hwi & Hwm). pose proof leave_lens as Hlens.
  pose proof Hinv as [Hst Hso Hix Hlo Hus Hse Hcl Hpa Hor Hwa Hre Hbe Htr Hll Hle Hrest Hsu].
  split; unfold bounded, seen; try setoid_rewrite leave_num; try setoid_rewrite leave_comp; try done.
  - intros x j n Hx. rewrite leave_low. case_decide as Heq; [|by apply Hlo]. subst x. intros [= <-].
    destruct (Hlo w wi wm Hwi Hwm) as [Hle' Hu]. assert (j = wi) as -> by congruence.
    case_decide; [|done]. split; [lia|].
    destruct (Hlo v i m Hvi Hvm) as [_ (u & Hu' & Hr)]. exists u. split; [done|]. by eapply rtc_l.
  - intros x n y j (n' & Hn' & ?)%leave_lower Hy Hj. pose proof (Hus x n' y j Hn' Hy Hj). lia.
  - intros k u [Hu _]%leave_path. by eapply Hpa.
  - intros k l u u' j j' Hkl [Hu _]%leave_path [Hu' _]%leave_path. by apply (Hor k l).
  - apply leave_waiting.
  - intros k u j x l [Hu _]%leave_path. by eapply Hre.
  - intros k u j x l y n [Hu Hk]%leave_path Hj Hx Hlt Hy Hn Hjn.
    destruct (Hbe k u j x l y n Hu Hj Hx Hlt Hy Hn Hjn) as [Hkx ->]. split; [|done].
    rewrite lookup_app_l in Hkx by (rewrite length_app; simpl; lia). done.
  - intros k u u' [Hu _]%leave_path [Hu' _]%leave_path. by eapply Htr.
  - rewrite Hlens, length_app. simpl. lia.
  - intros k b Hb. destruct (Hle k b) as (? & ? & Hnexts); [by apply lookup_app_l_Some|].
    split_and!; [done|done|]. intros l b' Hkl Hb'. eapply Hnexts; [done|by apply lookup_app_l_Some].
  - intros Hnil. by apply app_eq_nil in Hnil as [_ ?].
  - intros k u j b Hu Hj Hb c. by eapply leave_succ.
Qed.

End leave.

(** ** Completing a component *)

(** The working nodes from the index [i] on are done. *)
Definition closes (i cid : nat) (states states' : list VisitState) : Prop :=
  (∀ x j, num states' x = Some j ↔ num states x = Some j ∧ j < i) ∧
  (∀ x m, low states' x = Some m → low states x = Some m) ∧
  (∀ x c, comp states' x = Some c ↔
     comp states x = Some c ∨ (c = cid ∧ ∃ j, num states x = Some j ∧ i <= j)).

Section component.
  Context {used states index p v lens stack successors}
    (Hinv : search_inv used states index (p ++ [v]) lens stack successors).
  Context (i : nat) (Hvi : num states v = Some i) (Hvm : low states v = Some i) (Hfull : used v = adj g v).

Definition member (x : nat) : Prop := ∃ j, num states x = Some j ∧ i <= j.

Lemma path_before k w j : (p ++ [v]) !! k = Some w → num states w = Some j → k < length p → j < i.
Proof.
  intros Hw Hj Hk. eapply (si_order _ _ _ _ _ _ _ Hinv k (length p)); [lia|exact Hw| |done..].
  apply lookup_snoc.
Qed.

Lemma member_off_path x j : num states x = Some j → i <= j → x ≠ v → x ∉ p ++ [v].
Proof.
  intros Hx Hj Hne [k Hk]%list_elem_of_lookup. pose proof Hk as Hk'.
  apply lookup_snoc_Some in Hk' as [[Hlk _]|[_ ?]]; [|congruence].
  pose proof (path_before k x j Hk Hx Hlk). lia.
Qed.

Lemma member_used x : member x → used x = adj g x.
Proof.
  intros (j & Hx & Hj). destruct (decide (x = v)) as [->|Hne]; [done|].
  eapply not_on_path_used; [exact Hinv|exact Hx|]. by eapply member_off_path.
Qed.

Lemma member_from x : member x → rtc R v x.
Proof.
  intros (j & Hx & Hj). eapply (si_reach _ _ _ _ _ _ _ Hinv (length p)); [apply lookup_snoc|done..].
Qed.

(** Whoever waits below [v] leads back to it. *)
Lemma member_to x : member x → rtc R x v.
Proof.
  intros (j & Hx & Hj). revert x Hx Hj. induction (lt_wf j) as [j _ IH]. intros x Hx Hj.
  destruct (decide (x = v)) as [->|Hne]; [done|].
  destruct (si_waiting _ _ _ _ _ _ _ Hinv x j Hx) as (_ & Hmin & k & w & l & Hk & Hw & Hl & Hb & Hle);
    [by eapply member_off_path|].
  destruct (num_low _ _ _ Hx) as (m & Hm & _). specialize (Hmin m Hm).
  assert (k = length p) as ->.
  { eapply (bounded_top Hinv); [done|exact Hvi|exact Hb|done|by eapply lookup_lt_Some]. }
  rewrite lookup_snoc in Hk. injection Hk as <-. assert (l = i) as -> by congruence.
  specialize (Hle i m Hvm Hm).
  destruct (si_low _ _ _ _ _ _ _ Hinv x j m Hx Hm) as (_ & u & Hu & Hr).
  etrans; [exact Hr|]. by eapply (IH m).
Qed.

Lemma member_closed x y : member x → R x y → member y ∨ is_Some (comp states y).
Proof.
  intros Hmem Hxy. pose proof (member_used x Hmem) as Hu. destruct Hmem as (j & Hx & Hj).
  assert (Hy : y ∈ used x) by (rewrite Hu; apply Hxy).
  destruct (si_seen _ _ _ _ _ _ _ Hinv x j y Hx Hy) as [[l Hl]|?]; [left|by right].
  exists l. split; [done|]. destruct (num_low _ _ _ Hx) as (m & Hm & _).
  pose proof (si_used _ _ _ _ _ _ _ Hinv x m y l Hm Hy Hl).
  destruct (decide (x = v)) as [->|Hne]; [assert (m = i) by congruence; lia|].
  destruct (si_waiting _ _ _ _ _ _ _ Hinv x j Hx) as (_ & Hmin & k & w & n & Hk & Hw & Hn & Hb & Hle);
    [by eapply member_off_path|].
  assert (k = length p) as ->.
  { eapply (bounded_top Hinv); [done|exact Hvi|exact Hb|done|by eapply lookup_lt_Some]. }
  rewrite lookup_snoc in Hk. injection Hk as <-. pose proof (Hle i m Hvm Hm). lia.
Qed.

Lemma done_reach x c y : comp states x = Some c → rtc R x y → is_Some (comp states y).
Proof.
  intros Hx Hr. revert c Hx. induction Hr as [x|x y z Hxy _ IH]; intros c Hx; [by eexists|].
  destruct (si_closed _ _ _ _ _ _ _ Hinv x c y Hx Hxy) as [d Hd]. by eapply IH.
Qed.

(** The members are a strongly connected component. *)
Lemma member_scc x y : member x → (member y ↔ rtc R x y ∧ rtc R y x).
Proof.
  intros Hx. split.
  - intros Hy. split; etrans; [by apply member_to|by apply member_from|by apply member_to|by apply member_from].
  - intros [Hxy Hyx].
    assert (Hgo : ∀ x y, rtc R x y → member x → member y ∨ is_Some (comp states y)).
    { intros a b Hr. induction Hr as [a|a b c Hab Hbc IH]; intros Ha; [by left|].
      destruct (member_closed a b Ha Hab) as [Hb|[d Hd]]; [by apply IH|right]. by eapply done_reach. }
    destruct (Hgo x y Hxy Hx) as [?|[d Hd]]; [done|exfalso].
    destruct (done_reach y d x Hd Hyx) as [d' Hd']. destruct Hx as (j & Hj & _). by eapply num_comp.
Qed.

End component.

(** The members are on top of the stack. *)
Lemma stack_members used states index path lens s1 v s2 successors i :
  search_inv used states index path lens (s1 ++ v :: s2) successors → num states v = Some i →
  (∀ x, x ∈ s1 → ∃ j, num states x = Some j ∧ j < i) ∧ (∀ x, x ∈ v :: s2 → member (states:=states) i x).
Proof.
  intros Hinv Hv. pose proof Hinv as [Hst Hso _ _ _ _ _ _ _ _ _ _ _ _ _ _ _].
  assert (Hmid : (s1 ++ v :: s2) !! length s1 = Some v) by (by rewrite list_lookup_middle).
  split.
  - intros x Hx. destruct (proj1 (Hst x)) as [j Hj]; [set_solver|]. exists j. split; [done|].
    apply list_elem_of_lookup in Hx as [k Hk]. pose proof (lookup_lt_Some _ _ _ Hk).
    eapply (Hso k (length s1)); [done|by apply lookup_app_l_Some|done..].
  - intros x Hx. destruct (proj1 (Hst x)) as [j Hj]; [set_solver|]. exists j. split; [done|].
    apply elem_of_cons in Hx as [->|Hx]; [assert (j = i) by congruence; lia|].
    apply list_elem_of_lookup in Hx as [k Hk]. apply Nat.lt_le_incl.
    eapply (Hso (length s1) (S (length s1 + k))); [lia|done| |done..].
    rewrite lookup_app_r by lia. by replace (S (length s1 + k) - length s1) with (S k) by lia.
Qed.

Section close.
  Context {used states index p v lens a s1 s2 successors i cid states'}
    (Hinv : search_inv used states index (p ++ [v]) (lens ++ [a]) (s1 ++ v :: s2) successors)
    (Hvi : num states v = Some i) (Hvm : low states v = Some i) (Hfull : used v = adj g v)
    (Hnum : ∀ x j, num states' x = Some j ↔ num states x = Some j ∧ j < i)
    (Hlow : ∀ x m, low states' x = Some m → low states x = Some m)
    (Hcomp : ∀ x c, comp states' x = Some c ↔
      comp states x = Some c ∨ (c = cid ∧ ∃ j, num states x = Some j ∧ i <= j)).

Lemma close_path k u : p !! k = Some u → (p ++ [v]) !! k = Some u ∧ k < length p.
Proof. intros Hu. split; [by apply lookup_app_l_Some|by eapply lookup_lt_Some]. Qed.

Lemma close_before k u : p !! k = Some u → ∃ j, num states u = Some j ∧ j < i.
Proof.
  intros [Hu Hk]%close_path. destruct (si_path _ _ _ _ _ _ _ Hinv k u Hu) as [j Hj]. exists j.
  split; [done|]. by eapply (path_before Hinv i Hvi).
Qed.

Lemma close_bounded k j : bounded states (p ++ [v]) k j → bounded states' p k j.
Proof. intros Hb w l Hw [Hl _]%Hnum. apply (Hb w l); [by apply close_path|done]. Qed.

Lemma close_lens : length lens = length p.
Proof. pose proof (si_lens _ _ _ _ _ _ _ Hinv) as Hl. rewrite !length_app in Hl. simpl in Hl. lia. Qed.

Lemma close_waiting x j : num states' x = Some j → x ∉ p → waiting used states' p x j.
Proof.
  intros [Hj Hji]%Hnum Hp. assert (Hxp : x ∉ p ++ [v]).
  { intros [?| ->%list_elem_of_singleton]%elem_of_app; [done|]. assert (j = i) by congruence. lia. }
  destruct (si_waiting _ _ _ _ _ _ _ Hinv x j Hj Hxp) as (Hf & Hlt & k & u & l & Hk & Hu & Hlj & Hb & Hmin).
  split; [done|]. split; [intros m Hm%Hlow; by apply Hlt|].
  apply lookup_snoc_Some in Hk as [[Hk' Hk]|[_ <-]]; [|assert (l = i) by congruence; lia].
  exists k, u, l. split_and!; [done|apply Hnum; split; [done|lia]|done|by apply close_bounded|].
  intros n m Hn%Hlow Hm%Hlow. by apply Hmin.
Qed.

(** An edge into the component from below starts at the last node of the path. *)
Lemma close_into x l y :
  0 < length p → num states x = Some l → l < i → y ∈ used x → member (states:=states) i y →
  p !! (length p - 1) = Some x ∧ y = v.
Proof.
  intros Hp Hl Hli Hy (n & Hn & Hin).
  destruct (si_before _ _ _ _ _ _ _ Hinv (length p - 1) v i x l y n) as [Hx ->]; try done.
  - replace (S (length p - 1)) with (length p) by lia. apply lookup_snoc.
  - rewrite lookup_app_l in Hx by lia. done.
Qed.

(** Between two nodes of the path, the bound is that of the next one. *)
Lemma close_bound k l : k < length p →
  bounded states (p ++ [v]) k l ↔ bounded states' p k l ∧ l < i.
Proof.
  intros Hk. split.
  - intros Hbo. split; [by apply close_bounded|].
    destruct (lookup_lt_is_Some_2 (p ++ [v]) (S k)) as [w Hw]; [rewrite length_app; simpl; lia|].
    destruct (si_path _ _ _ _ _ _ _ Hinv _ _ Hw) as [n Hn]. pose proof (Hbo w n Hw Hn).
    pose proof (path_le Hinv (S k) (length p) w v n i ltac:(lia) Hw ltac:(apply lookup_snoc) Hn Hvi). lia.
  - intros [Hbo Hli] w n [[_ Hw]|[_ <-]]%lookup_snoc_Some Hn; [|assert (n = i) by congruence; lia].
    destruct (close_before _ _ Hw) as (n' & Hn' & ?). apply (Hbo w n Hw). apply Hnum.
    split; [done|]. assert (n = n') by congruence. lia.
Qed.

(** The component becomes a successor of the last node of the path only. *)
Lemma close_new_successor k u j : p !! k = Some u → num states u = Some j →
  (∃ x l y, num states' x = Some l ∧ j <= l ∧ bounded states' p k l ∧ y ∈ used x ∧ member (states:=states) i y) ↔
  k = length p - 1.
Proof.
  intros Hu Hj. destruct (close_path k u Hu) as [Hu' Hk]. split.
  - intros (x & l & y & Hl & Hjl & Hbo & Hy & Hmem). apply Hnum in Hl as [Hl Hli].
    destruct (close_into x l y ltac:(lia) Hl Hli Hy Hmem) as [[Hx _]%close_path _].
    destruct (decide (k = length p - 1)) as [|Hne]; [done|exfalso].
    destruct (lookup_lt_is_Some_2 p (S k)) as [w Hw]; [lia|].
    destruct (close_before _ _ Hw) as (n & Hn & Hni). pose proof (Hbo w n Hw ltac:(by apply Hnum)).
    apply close_path in Hw as [Hw _].
    pose proof (path_le Hinv (S k) (length p - 1) w x n l ltac:(lia) Hw Hx Hn Hl). lia.
  - intros ->. destruct (close_before _ _ Hu) as (j' & Hj' & Hji). assert (j' = j) as -> by congruence.
    exists u, j, v. split_and!; [by apply Hnum|done| | |by exists i].
    + intros w n Hw%lookup_lt_Some. lia.
    + eapply (si_tree _ _ _ _ _ _ _ Hinv); [exact Hu'|].
      replace (S (length p - 1)) with (length p) by lia. apply lookup_snoc.
Qed.

Lemma close_succ_iff k u j b c : p !! k = Some u → num states u = Some j → lens !! k = Some b →
  (∃ x l y, num states' x = Some l ∧ j <= l ∧ bounded states' p k l ∧ y ∈ used x ∧ comp states' y = Some c) ↔
  c ∈ segment (lens ++ [a]) successors k b ∨ (c = cid ∧ k = length p - 1).
Proof.
  intros Hu Hj Hb. destruct (close_path k u Hu) as [Hu' Hk].
  rewrite (si_succ _ _ _ _ _ _ _ Hinv k u j b Hu' Hj) by (by apply lookup_app_l_Some).
  rewrite <-(close_new_successor k u j Hu Hj). setoid_rewrite close_bound; [|done]. split.
  - intros (x & l & y & Hl & Hjl & Hbo & Hy & [Hcy|[-> Hmem]]%Hcomp); [left|right].
    + apply Hnum in Hl as [? ?]. by exists x, l, y.
    + split; [done|]. by exists x, l, y.
  - intros [(x & l & y & Hl & Hjl & [Hbo Hli] & Hy & Hcy)|[-> (x & l & y & Hl & Hjl & Hbo & Hy & Hmem)]];
      exists x, l, y; split_and!; try done.
    + by apply Hnum.
    + apply Hcomp. by left.
    + apply Hcomp. by right.
Qed.

Abbreviation left_successors := (take a successors ++ match last p with Some _ => [cid] | None => [] end).

Lemma close_segment k b c : lens !! k = Some b →
  c ∈ segment lens left_successors k b ↔
  c ∈ segment (lens ++ [a]) successors k b ∨ (c = cid ∧ k = length p - 1).
Proof.
  intros Hb. pose proof (lookup_lt_Some _ _ _ Hb) as Hk. pose proof close_lens as Hlens.
  assert (Ha : (lens ++ [a]) !! length p = Some a) by (rewrite <-Hlens; apply lookup_snoc).
  assert (Hnext : ∀ l b, (lens ++ [a]) !! l = Some b → l <= length p → b <= a).
  { intros l b' Hb' Hl. by apply (si_len _ _ _ _ _ _ _ Hinv l b' Hb') in Ha. }
  assert (Has : a <= length successors) by apply (si_len _ _ _ _ _ _ _ Hinv _ _ Ha).
  pose proof (Hnext k b ltac:(by apply lookup_app_l_Some) ltac:(lia)) as Hba. unfold segment.
  rewrite drop_app_le by (rewrite length_take; lia).
  destruct (decide (k = length p - 1)) as [->|Hne].
  - replace (S (length p - 1)) with (length p) by lia. rewrite Ha, lookup_ge_None_2 by lia.
    assert (is_Some (last p)) as [t ->] by (rewrite last_lookup; apply lookup_lt_is_Some; lia).
    rewrite elem_of_app, list_elem_of_singleton, skipn_firstn_comm. tauto.
  - destruct (lookup_lt_is_Some_2 lens (S k)) as [b2 Hb2]; [lia|].
    assert (Hb2' : (lens ++ [a]) !! S k = Some b2) by (by apply lookup_app_l_Some).
    pose proof (Hnext _ _ Hb2' ltac:(lia)). rewrite Hb2, Hb2'.
    rewrite take_app_le by (rewrite length_drop, length_take; lia).
    rewrite skipn_firstn_comm, take_take. replace ((b2 - b) `min` (a - b)) with (b2 - b) by lia. tauto.
Qed.

Lemma close_len k b : lens !! k = Some b →
  b <= length left_successors ∧ (k = 0 → b = 0) ∧ ∀ l b', k <= l → lens !! l = Some b' → b <= b'.
Proof.
  intros Hb. pose proof (lookup_lt_Some _ _ _ Hb) as Hk.
  assert (Ha : (lens ++ [a]) !! length lens = Some a) by apply lookup_snoc.
  destruct (si_len _ _ _ _ _ _ _ Hinv k b) as (? & ? & Hnexts); [by apply lookup_app_l_Some|].
  pose proof (Hnexts (length lens) a ltac:(lia) Ha).
  split_and!; [rewrite length_app, length_take; lia|done|].
  intros l b' Hkl Hb'. eapply Hnexts; [done|by apply lookup_app_l_Some].
Qed.

Lemma inv_close_states : search_inv used states' index p lens s1 left_successors.
Proof.
  destruct (stack_members _ _ _ _ _ _ _ _ _ _ Hinv Hvi) as [Hbelow Habove].
  pose proof Hinv as [Hst Hso Hix Hlo Hus Hse Hcl Hpa Hor Hwa Hre Hbe Htr Hll Hle Hrest Hsu].
  split.
  - intros x. split; [intros Hx; destruct (Hbelow x Hx) as (j & ? & ?); exists j; by apply Hnum|].
    intros [j [Hj Hji]%Hnum]. assert (x ∈ s1 ++ v :: s2) as [?|Hx]%elem_of_app by (apply Hst; by eexists); [done|].
    destruct (Habove x Hx) as (l & Hl & ?). assert (l = j) by congruence. lia.
  - intros k l x y j n Hkl Hx Hy [Hj _]%Hnum [Hn _]%Hnum.
    eapply (Hso k l); [done|by apply lookup_app_l_Some|by apply lookup_app_l_Some|done..].
  - intros x j [Hj _]%Hnum. by eapply Hix.
  - intros x j m [Hj Hji]%Hnum Hm%Hlow. destruct (Hlo x j m Hj Hm) as (? & u & Hu & ?).
    split; [done|]. exists u. split; [|done]. apply Hnum. split; [done|lia].
  - intros x m y j Hm%Hlow Hy [Hj _]%Hnum. by eapply Hus.
  - intros x j y [Hj _]%Hnum Hy. destruct (Hse x j y Hj Hy) as [[l Hl]|[c Hc]].
    + destruct (decide (l < i)); [left; exists l; by apply Hnum|right].
      exists cid. apply Hcomp. right. split; [done|]. exists l. split; [done|lia].
    + right. exists c. apply Hcomp. by left.
  - intros x c y [Hc|(_ & Hmem)]%Hcomp Hxy.
    + destruct (Hcl x c y Hc Hxy) as [d Hd]. exists d. apply Hcomp. by left.
    + destruct (member_closed Hinv i Hvi Hvm Hfull x y Hmem Hxy) as [Hy|[d Hd]];
        [exists cid; apply Hcomp; by right|exists d; apply Hcomp; by left].
  - intros k u Hu. destruct (close_before k u Hu) as (j & ? & ?). exists j. by apply Hnum.
  - intros k l u w j n Hkl [Hu _]%close_path [Hw _]%close_path [Hj _]%Hnum [Hn _]%Hnum. by eapply (Hor k l).
  - apply close_waiting.
  - intros k u j x l [Hu _]%close_path [Hj _]%Hnum [Hl _]%Hnum. by eapply Hre.
  - intros k u j x l y n [Hu Hk]%close_path [Hj _]%Hnum [Hl _]%Hnum Hlt Hy [Hn _]%Hnum Hjn.
    destruct (Hbe k u j x l y n Hu Hj Hl Hlt Hy Hn Hjn) as [Hkx ->]. split; [|done].
    rewrite lookup_app_l in Hkx by lia. done.
  - intros k u w [Hu _]%close_path [Hw _]%close_path. by eapply Htr.
  - apply close_lens.
  - apply close_len.
  - intros Hp. rewrite Hp. simpl. rewrite app_nil_r. pose proof close_lens as Hl. rewrite Hp in Hl.
    apply nil_length_inv in Hl. rewrite Hl in Hle.
    destruct (Hle 0 a) as (_ & Ha & _); [done|]. by rewrite Ha.
  - intros k u j b Hu [Hj Hji]%Hnum Hb c. rewrite close_segment by done. by rewrite close_succ_iff.
Qed.

End close.

Lemma inv_close used states index p v lens a s1 s2 successors i cid states' :
  search_inv used states index (p ++ [v]) (lens ++ [a]) (s1 ++ v :: s2) successors →
  num states v = Some i → low states v = Some i → used v = adj g v → closes i cid states states' →
  search_inv used states' index p lens s1
    (take a successors ++ match last p with Some _ => [cid] | None => [] end).
Proof. intros Hinv Hvi Hvm Hfull (Hnum & Hlow & Hcomp). by eapply inv_close_states. Qed.

End search.
