(* ===== verification/SccProofs.v ===== *)
(** * [tarjan] finds the strongly connected components

    The components found so far, the invariant of the program, its turns, and
    the theorem. *)

From stdpp Require Import functions.
From S2P Require Import Prelude Index Graph Scc SccSearch.

(** ** Sums over the nodes *)

Lemma sum_seq_update (f f' : nat → nat) v a n :
  a <= v < a + n → (∀ x, x ≠ v → f' x = f x) →
  sum_list_with f' (seq a n) + f v = sum_list_with f (seq a n) + f' v.
Proof.
  revert a. induction n as [|n IH]; intros a Hv Hf; [lia|]. simpl.
  destruct (decide (v = a)) as [->|Hne].
  - assert (Hrest : sum_list_with f' (seq (S a) n) = sum_list_with f (seq (S a) n)); [|lia].
    clear IH Hv. assert (Hgo : ∀ m b, a < b → sum_list_with f' (seq b m) = sum_list_with f (seq b m)).
    { induction m as [|m IH]; intros b Hb; simpl; [done|]. rewrite Hf by lia. by rewrite IH by lia. }
    apply Hgo. lia.
  - rewrite (Hf a) by done. specialize (IH (S a) ltac:(lia) Hf). lia.
Qed.

Lemma sum_list_with_eq (f f' : nat → nat) l : (∀ x, f x = f' x) → sum_list_with f l = sum_list_with f' l.
Proof. intros Hf. induction l as [|x l IH]; simpl; [done|]. by rewrite Hf, IH. Qed.

Section counting.
  Context `{DirectedGraph G} (g : G).

(** Nodes not seen, and the edges and nodes left to visit. *)
Definition unseen_count (states : list VisitState) : nat :=
  sum_list_with (λ x, match states !! x with Some NotSeen => 1 | _ => 0 end) (seq 0 (num_nodes g)).
Definition unseen_cost (states : list VisitState) : nat :=
  sum_list_with (λ x, match states !! x with Some NotSeen => S (length (adj g x)) | _ => 0 end)
    (seq 0 (num_nodes g)).
Definition tj_measure (st : TarjanState) : nat :=
  unseen_cost (tj_states st) + sum_list_with (λ f, S (length (frame_edges f))) (tj_call_stack st).

Lemma unseen_enter states v i :
  states !! v = Some NotSeen → v < num_nodes g →
  let states' := <[v:=Working i i]> states in
  unseen_count states = S (unseen_count states') ∧
  unseen_cost states = S (length (adj g v)) + unseen_cost states'.
Proof.
  intros Hv Hn states'. pose proof (lookup_lt_Some _ _ _ Hv) as Hlt.
  assert (Hother : ∀ x, x ≠ v → states' !! x = states !! x)
    by (intros x Hx; unfold states'; by rewrite list_lookup_insert_ne).
  assert (Hself : states' !! v = Some (Working i i)) by (by apply list_lookup_insert_eq).
  assert (Hone : ∀ a, let f states x := match states !! x with Some NotSeen => a x | _ => 0 end in
    sum_list_with (f states) (seq 0 (num_nodes g)) = a v + sum_list_with (f states') (seq 0 (num_nodes g))).
  { intros a f. pose proof (sum_seq_update (f states) (f states') v 0 (num_nodes g) ltac:(lia)) as Hsum.
    assert (Hv1 : f states v = a v) by (unfold f; by rewrite Hv).
    assert (Hv2 : f states' v = 0) by (unfold f; by rewrite Hself).
    rewrite Hv1, Hv2 in Hsum. rewrite <-(Nat.add_0_r (sum_list_with (f states) _)), <-Hsum; [lia|].
    intros x Hx. unfold f. by rewrite Hother. }
  split; [apply (Hone (λ _, 1))|apply (Hone (λ x, S (length (adj g x))))].
Qed.

Lemma unseen_keep states states' :
  (∀ x, states !! x = Some NotSeen ↔ states' !! x = Some NotSeen) →
  unseen_count states' = unseen_count states ∧ unseen_cost states' = unseen_cost states.
Proof.
  intros Hsame. unfold unseen_count, unseen_cost.
  split; apply sum_list_with_eq; intros x; specialize (Hsame x);
    destruct (states !! x) as [[]|], (states' !! x) as [[]|]; naive_solver.
Qed.

Lemma unseen_count_le states : unseen_count states <= num_nodes g.
Proof.
  unfold unseen_count. rewrite <-(length_seq (num_nodes g) 0) at 2.
  generalize (seq 0 (num_nodes g)). intros l. induction l as [|x l IH]; simpl; [done|].
  destruct (states !! x) as [[]|]; lia.
Qed.

Lemma tj_measure_fuel st : tj_call_stack st = [] → tj_measure st < tj_fuel g.
Proof.
  intros Hst. unfold tj_measure, tj_fuel, unseen_cost. rewrite Hst. simpl. rewrite Nat.add_0_r.
  apply Nat.lt_succ_r. induction (seq 0 (num_nodes g)) as [|x l IH]; simpl; [done|].
  destruct (tj_states st !! x) as [[]|]; lia.
Qed.

End counting.

(** ** Lists *)

Lemma keep_new_spec seen l x : x ∈ keep_new seen l ↔ x ∈ l ∧ x ∉ seen.
Proof.
  revert seen. induction l as [|y l IH]; intros seen; simpl; [set_solver|].
  case_decide; rewrite ?elem_of_cons, IH; [set_solver|]. destruct (decide (x = y)); set_solver.
Qed.

Lemma keep_new_nodup seen l : NoDup (keep_new seen l).
Proof.
  revert seen. induction l as [|y l IH]; intros seen; simpl; [constructor|].
  case_decide; [done|]. constructor; [|done]. rewrite keep_new_spec. set_solver.
Qed.

(** What the loop over the stack leaves. *)
Lemma gather_spec {E} node cid s1 s2 states map members fuel
    (P : list nat * list VisitState * list nat * list nat → Prop) (Q : E → Prop) :
  length s2 < fuel → NoDup (node :: s2) →
  (∀ x, x ∈ node :: s2 → x < length states ∧ x < length map) →
  (∀ states' map', length states' = length states → length map' = length map →
     (∀ x, states' !! x = if decide (x ∈ node :: s2) then mark_done cid <$> states !! x else states !! x) →
     (∀ x, map' !! x = if decide (x ∈ node :: s2) then Some cid else map !! x) →
     P (s1, states', map', members ++ reverse (node :: s2))) →
  wp (loop (gather_member node cid) fuel (s1 ++ node :: s2, states, map, members)) P Q.
Proof.
  revert fuel states map members. induction s2 as [|c s2 IH] using rev_ind; intros fuel states map members Hf Hnd Hlt HP;
    (destruct fuel as [|fuel]; [simpl in Hf; lia|]); simpl.
  - rewrite vpop_app. destruct (Hlt node) as [Hls Hlm]; [set_solver|].
    wp_steps. apply wp_vget; [done|]. intros s Hs. wp_steps. apply wp_vset; [done|].
    wp_steps. apply wp_vset; [done|]. rewrite decide_True by done. wp_steps.
    apply HP; [by rewrite length_insert|by rewrite length_insert| |].
    + intros x. destruct (decide (x = node)) as [->|Hne].
      * rewrite list_lookup_insert_eq, decide_True, Hs by (done || set_solver). done.
      * rewrite list_lookup_insert_ne, decide_False by (done || set_solver). done.
    + intros x. destruct (decide (x = node)) as [->|Hne].
      * rewrite list_lookup_insert_eq, decide_True by (done || set_solver). done.
      * rewrite list_lookup_insert_ne, decide_False by (done || set_solver). done.
  - assert (Hnc : (c ≠ node) ∧ (c ∉ s2) ∧ NoDup (node :: s2)).
    { apply NoDup_cons in Hnd as [Hn Hnd]. apply NoDup_app in Hnd as (Hnd & Hdis & _).
      split_and!; [set_solver| |constructor; [set_solver|done]]. intros Hc. by apply (Hdis c Hc), list_elem_of_singleton. }
    destruct Hnc as (Hcn & Hcs & Hnd'). destruct (Hlt c) as [Hls Hlm]; [set_solver|].
    replace (s1 ++ node :: (s2 ++ [c])) with ((s1 ++ node :: s2) ++ [c]) by (by rewrite <-app_assoc).
    rewrite vpop_app. wp_steps. apply wp_vget; [done|]. intros s Hs. wp_steps. apply wp_vset; [done|].
    wp_steps. apply wp_vset; [done|]. rewrite decide_False by done. wp_steps.
    apply IH; [rewrite length_app in Hf; simpl in Hf; lia|done| |].
    + intros x Hx. rewrite !length_insert. apply Hlt. set_solver.
    + intros states' map' Hl1 Hl2 Hst Hmp. rewrite length_insert in Hl1. rewrite length_insert in Hl2.
      unfold vpush in *. rewrite <-app_assoc.
      replace ([c] ++ reverse (node :: s2)) with (reverse (node :: (s2 ++ [c])))
        by (by rewrite !reverse_cons, reverse_app).
      apply HP; [done|done| |].
      * intros x. rewrite Hst. destruct (decide (x = c)) as [->|Hne].
        -- rewrite list_lookup_insert_eq, decide_False, decide_True, Hs by (done || set_solver). done.
        -- rewrite list_lookup_insert_ne by done. destruct (decide (x ∈ node :: s2)).
           ++ rewrite decide_True by set_solver. done.
           ++ rewrite decide_False by set_solver. done.
      * intros x. rewrite Hmp. destruct (decide (x = c)) as [->|Hne].
        -- rewrite list_lookup_insert_eq, decide_False, decide_True by (done || set_solver). done.
        -- rewrite list_lookup_insert_ne by done. destruct (decide (x ∈ node :: s2)).
           ++ rewrite decide_True by set_solver. done.
           ++ rewrite decide_False by set_solver. done.
Qed.

(** ** The components found so far *)

Section components.
  Context `{DirectedGraph G} (g : G).

Abbreviation R := (gedge g).

Record comps_inv (states : list VisitState) (map : list nat) (comps : list (list nat)) (dag : VecGraph) : Prop := {
  ci_len : length map = num_nodes g;
  ci_map x c : comp states x = Some c → map !! x = Some c;
  ci_members c ms : comps !! c = Some ms → ms ≠ [] ∧ NoDup ms ∧ ∀ x, x ∈ ms ↔ comp states x = Some c;
  ci_bound x c : comp states x = Some c → c < length comps;
  ci_scc x c y : comp states x = Some c → (comp states y = Some c ↔ rtc R x y ∧ rtc R y x);
  ci_back x c y d : comp states x = Some c → comp states y = Some d → R x y → d <= c;
  ci_dag : ∃ lists, vg_repr dag lists ∧ length lists = length comps ∧
    ∀ c es, lists !! c = Some es → NoDup es ∧
      ∀ d, d ∈ es ↔ d < c ∧ ∃ x y, comp states x = Some c ∧ comp states y = Some d ∧ R x y;
}.

(** Components are not empty, so there are fewer than nodes. *)
Lemma comps_room states map comps dag v i :
  comps_inv states map comps dag → length states = num_nodes g → num states v = Some i →
  length comps < num_nodes g.
Proof.
  intros Hci Hlen Hv.
  set (head_of c := default v (comps !! c ≫= head)).
  assert (Hhead : ∀ c, c < length comps → comp states (head_of c) = Some c).
  { intros c Hc. destruct (lookup_lt_is_Some_2 comps c Hc) as [ms Hms]. unfold head_of. rewrite Hms. simpl.
    destruct (ci_members _ _ _ _ Hci c ms Hms) as (Hne & _ & Hin). destruct ms as [|x ms]; [done|].
    apply Hin. left. }
  assert (Hnd : NoDup (v :: (head_of <$> seq 0 (length comps)))).
  { constructor.
    - intros (c & Heq & Hc%elem_of_seq)%list_elem_of_fmap. eapply num_comp; [exact Hv|].
      rewrite Heq at 1. apply Hhead. lia.
    - apply NoDup_fmap_2_strong; [|apply NoDup_seq].
      intros c d Hc%elem_of_seq Hd%elem_of_seq Heq. apply (f_equal (comp states)) in Heq.
      rewrite !Hhead in Heq by lia. congruence. }
  assert (Hsub : v :: (head_of <$> seq 0 (length comps)) ⊆+ seq 0 (num_nodes g)).
  { apply NoDup_submseteq; [done|]. intros x [->|(c & -> & Hc%elem_of_seq)%list_elem_of_fmap]%elem_of_cons.
    - apply elem_of_seq. rewrite <-Hlen. apply num_lt in Hv. lia.
    - apply elem_of_seq. rewrite <-Hlen. assert (Hcomp := Hhead c ltac:(lia)).
      unfold comp in Hcomp. destruct (states !! head_of c) eqn:Hl; [|done].
      apply lookup_lt_Some in Hl. lia. }
  apply submseteq_length in Hsub. simpl in Hsub. rewrite length_fmap, !length_seq in Hsub. lia.
Qed.

(** The states and the map after the members are gathered. *)
Lemma gathered used states index path lens s1 v s2 successors i cid states' (map map' : list nat) :
  search_inv g used states index path lens (s1 ++ v :: s2) successors → num states v = Some i →
  (∀ x, states' !! x = if decide (x ∈ v :: s2) then mark_done cid <$> states !! x else states !! x) →
  (∀ x, map' !! x = if decide (x ∈ v :: s2) then Some cid else map !! x) →
  closes i cid states states' ∧
  (∀ x, states !! x = Some NotSeen ↔ states' !! x = Some NotSeen) ∧
  (∀ x, member (states:=states) i x → map' !! x = Some cid) ∧
  (∀ x, ¬ member (states:=states) i x → map' !! x = map !! x) ∧
  (∀ x, x ∈ v :: s2 ↔ member (states:=states) i x).
Proof.
  intros Hinv Hv Hst Hmp. destruct (stack_members _ _ _ _ _ _ _ _ _ _ _ Hinv Hv) as [Hbelow Habove].
  assert (Hmem : ∀ x, x ∈ v :: s2 ↔ member (states:=states) i x).
  { intros x. split; [apply Habove|]. intros (j & Hj & Hij).
    assert (x ∈ s1 ++ v :: s2) as [Hx|?]%elem_of_app by (apply (si_stack _ _ _ _ _ _ _ _ Hinv); by eexists); [|done].
    destruct (Hbelow x Hx) as (l & Hl & ?). assert (l = j) by congruence. lia. }
  assert (Hin : ∀ x, x ∈ v :: s2 → ∃ j m, states !! x = Some (Working j m) ∧
    states' !! x = Some (Done j m cid) ∧ i <= j).
  { intros x Hx. destruct (Habove x Hx) as (j & Hj & Hij). destruct (num_low _ _ _ Hj) as (m & _ & Hs).
    exists j, m. rewrite Hst, decide_True, Hs by done. done. }
  assert (Hout : ∀ x, x ∉ v :: s2 → states' !! x = states !! x ∧ ∀ j, num states x = Some j → j < i).
  { intros x Hx. rewrite Hst, decide_False by done. split; [done|]. intros j Hj.
    destruct (decide (j < i)); [done|]. destruct Hx. apply Hmem. exists j. split; [done|lia]. }
  split_and!; [split_and!| | | |done].
  - intros x j. destruct (decide (x ∈ v :: s2)) as [Hx|Hx].
    + destruct (Hin x Hx) as (l & m & Hs & Hs' & Hl). unfold num. rewrite Hs, Hs'. naive_solver lia.
    + destruct (Hout x Hx) as [Hs Hj]. unfold num in *. rewrite Hs. naive_solver.
  - intros x m. destruct (decide (x ∈ v :: s2)) as [Hx|Hx].
    + destruct (Hin x Hx) as (l & n & Hs & Hs' & Hl). unfold low. by rewrite Hs'.
    + destruct (Hout x Hx) as [Hs _]. unfold low. by rewrite Hs.
  - intros x c. destruct (decide (x ∈ v :: s2)) as [Hx|Hx].
    + destruct (Hin x Hx) as (l & n & Hs & Hs' & Hl). unfold comp, num. rewrite Hs, Hs'. split; [naive_solver|].
      intros [?|[-> _]]; done.
    + destruct (Hout x Hx) as [Hs Hj]. unfold comp. rewrite Hs. split; [by left|].
      intros [?|(_ & j & Hxj & ?)]; [done|]. specialize (Hj j Hxj). lia.
  - intros x. destruct (decide (x ∈ v :: s2)) as [Hx|Hx].
    + destruct (Hin x Hx) as (l & n & Hs & Hs' & Hl). by rewrite Hs, Hs'.
    + destruct (Hout x Hx) as [Hs _]. by rewrite Hs.
  - intros x Hx%Hmem. by rewrite Hmp, decide_True.
  - intros x Hx. rewrite Hmp, decide_False; [done|]. by rewrite Hmem.
Qed.

(** A component is added. *)
Lemma comps_close used states index p v lens stack successors i states' map map' comps dag dag' ms lists es :
  search_inv g used states index (p ++ [v]) lens stack successors →
  num states v = Some i → low states v = Some i → used v = adj g v →
  comps_inv states map comps dag →
  vg_repr dag lists → length lists = length comps →
  (∀ c es, lists !! c = Some es → NoDup es ∧
      ∀ d, d ∈ es ↔ d < c ∧ ∃ x y, comp states x = Some c ∧ comp states y = Some d ∧ R x y) →
  closes i (length comps) states states' → length map' = length map →
  (∀ x, member (states:=states) i x → map' !! x = Some (length comps)) →
  (∀ x, ¬ member (states:=states) i x → map' !! x = map !! x) →
  NoDup ms → (∀ x, x ∈ ms ↔ member (states:=states) i x) →
  vg_repr dag' (lists ++ [es]) → NoDup es →
  (∀ d, d ∈ es ↔ ∃ x y, member (states:=states) i x ∧ R x y ∧ comp states y = Some d) →
  comps_inv states' map' (comps ++ [ms]) dag'.
Proof.
  intros Hinv Hvi Hvm Hfull Hci Hrepr Hll Hlists (Hnum & Hlow & Hcomp) Hml Hin Hout Hnd Hms Hrepr' Hndes Hes.
  pose proof Hci as [Hlen Hmap Hmem Hbd Hscc Hback _]. set (cid := length comps) in *.
  assert (Hnew : ∀ x, comp states' x = Some cid ↔ member (states:=states) i x).
  { intros x. rewrite Hcomp. split; [intros [Hx|[_ ?]]; [apply Hbd in Hx; lia|done]|by right]. }
  assert (Hold : ∀ x c, c ≠ cid → comp states' x = Some c ↔ comp states x = Some c).
  { intros x c Hc. rewrite Hcomp. naive_solver. }
  assert (Hexcl : ∀ x c, comp states x = Some c → ¬ member (states:=states) i x).
  { intros x c Hx (j & Hj & _). by eapply num_comp. }
  split.
  - by rewrite Hml.
  - intros x c Hx. destruct (decide (c = cid)) as [->|Hc]; [by apply Hin, Hnew|].
    apply Hold in Hx; [|done]. rewrite Hout; [by apply Hmap|by eapply Hexcl].
  - intros c ms' [[Hc Hms']|[-> <-]]%lookup_snoc_Some.
    + destruct (Hmem c ms' Hms') as (? & ? & Hx). split_and!; [done|done|].
      intros x. rewrite Hx, Hold by (unfold cid; lia). done.
    + split_and!; [|done|intros x; fold cid; by rewrite Hms, Hnew].
      intros ->. assert (v ∈ @nil nat); [|by eapply elem_of_nil]. apply Hms. by exists i.
  - intros x c Hx. rewrite length_app. simpl. destruct (decide (c = cid)) as [->|Hc]; [lia|].
    apply Hold in Hx; [|done]. apply Hbd in Hx. lia.
  - intros x c y Hx. destruct (decide (c = cid)) as [->|Hc].
    + rewrite Hnew. apply Hnew in Hx. by eapply (member_scc g Hinv).
    + rewrite Hold by done. apply Hold in Hx; [|done]. by apply Hscc.
  - intros x c y d Hx Hy Hxy. destruct (decide (c = cid)) as [->|Hc].
    + destruct (decide (d = cid)) as [->|Hd]; [done|]. apply Hold in Hy; [|done]. apply Hbd in Hy. lia.
    + apply Hold in Hx; [|done]. destruct (si_closed _ _ _ _ _ _ _ _ Hinv x c y Hx Hxy) as [d' Hd'].
      assert (d' = d) as ->; [|by eapply Hback].
      assert (comp states' y = Some d') by (apply Hcomp; by left). congruence.
  - exists (lists ++ [es]). split; [done|]. split; [rewrite !length_app; simpl; lia|].
    intros c es' [[Hc Hes']|[-> <-]]%lookup_snoc_Some.
    + destruct (Hlists c es' Hes') as [? Hd]. split; [done|]. intros d. rewrite Hd.
      split; intros (? & x & y & Hx & Hy & ?); (split; [done|]); exists x, y; split_and!; try done;
        (apply Hold; [unfold cid; lia|done]) || (apply Hold in Hx; [done|unfold cid; lia]) ||
        (apply Hold in Hy; [done|unfold cid; lia]).
    + split; [done|]. intros d. rewrite Hll, Hes. fold cid. split.
      * intros (x & y & Hx & Hxy & Hy). split; [by eapply Hbd|]. exists x, y.
        split_and!; [by apply Hnew|apply Hcomp; by left|done].
      * intros (Hd & x & y & Hx%Hnew & Hy & Hxy). exists x, y. split_and!; try done.
        apply Hold in Hy; [done|lia].
Qed.

End components.

(** ** The program *)

Section program.
  Context `{Idx} `{DirectedGraph G} (g : G) (Hg : graph_wf g).
  Context (Hroom : idx_fits (num_nodes g)) (Husize : (N.of_nat (num_nodes g) <= usize_MAX)%N).
  Context {E : Type}.

Definition tj_path (st : TarjanState) : list nat := frame_node <$> tj_call_stack st.
Definition tj_lens (st : TarjanState) : list nat := frame_successors <$> tj_call_stack st.

(** [pend] is the successor, at most one, that the last frame has taken from
    its iterator and not looked at yet. *)
Record tj_inv (pend : list nat) (used : nat → list nat) (st : TarjanState) : Prop := {
  ti_search : search_inv g used (tj_states st) (tj_index st) (tj_path st) (tj_lens st)
    (tj_scc_stack st) (tj_successor_stack st);
  ti_len : length (tj_states st) = num_nodes g;
  ti_frames k f : tj_call_stack st !! k = Some f →
    adj g (frame_node f) = used (frame_node f) ++ (if decide (S k = length (tj_call_stack st)) then pend else []) ++ frame_edges f;
  ti_comps : comps_inv g (tj_states st) (tj_map st) (tj_comps st) (tj_dag st);
  ti_count : tj_index st + unseen_count g (tj_states st) <= num_nodes g;
}.

(** Nodes stay seen. *)
Definition tj_seen_in (st st' : TarjanState) : Prop :=
  ∀ x, tj_states st' !! x = Some NotSeen → tj_states st !! x = Some NotSeen.

Lemma path_snoc st w f : tj_call_stack st = w ++ [f] →
  tj_path st = (frame_node <$> w) ++ [frame_node f] ∧ tj_lens st = (frame_successors <$> w) ++ [frame_successors f].
Proof. intros Hst. unfold tj_path, tj_lens. rewrite Hst. by rewrite !fmap_app. Qed.

(** The last node of the path. *)
Lemma top_frame pend used st w f :
  tj_inv pend used st → tj_call_stack st = w ++ [f] →
  ∃ i m, tj_states st !! frame_node f = Some (Working i m) ∧ frame_node f < num_nodes g ∧
    adj g (frame_node f) = used (frame_node f) ++ pend ++ frame_edges f.
Proof.
  intros Hinv Hst. destruct (path_snoc _ _ _ Hst) as [Hp _].
  destruct (si_path _ _ _ _ _ _ _ _ (ti_search _ _ _ Hinv) (length w) (frame_node f)) as [i Hi].
  { rewrite Hp. rewrite <-(length_fmap frame_node w). apply lookup_snoc. }
  destruct (num_low _ _ _ Hi) as (m & _ & Hs). exists i, m. split; [done|]. split.
  - rewrite <-(ti_len _ _ _ Hinv). by eapply num_lt.
  - pose proof (ti_frames _ _ _ Hinv (length w) f) as Hf. rewrite Hst in Hf.
    rewrite Hf by apply lookup_snoc. by rewrite decide_True by (rewrite length_app; simpl; lia).
Qed.

(** Frames of different nodes. *)
Lemma frames_inj pend used st k l f f' :
  tj_inv pend used st → tj_call_stack st !! k = Some f → tj_call_stack st !! l = Some f' →
  frame_node f = frame_node f' → k = l.
Proof.
  intros Hinv Hf Hf' Heq. pose proof (ti_search _ _ _ Hinv) as Hs.
  assert (Hk : tj_path st !! k = Some (frame_node f)) by (unfold tj_path; by rewrite list_lookup_fmap, Hf).
  assert (Hl : tj_path st !! l = Some (frame_node f)) by (unfold tj_path; rewrite list_lookup_fmap, Hf'; by rewrite Heq).
  destruct (si_path _ _ _ _ _ _ _ _ Hs _ _ Hk) as [i Hi].
  destruct (lt_eq_lt_dec k l) as [[Hlt|Heq']|Hlt]; [exfalso|done|exfalso].
  - pose proof (si_order _ _ _ _ _ _ _ _ Hs k l _ _ i i Hlt Hk Hl Hi Hi). lia.
  - pose proof (si_order _ _ _ _ _ _ _ _ Hs l k _ _ i i Hlt Hl Hk Hi Hi). lia.
Qed.

Lemma lower_min_spec node other i m st (P : TarjanState → Prop) (Q : E → Prop) :
  tj_states st !! node = Some (Working i m) →
  P (with_states (<[node:=Working i (if decide (other < m) then other else m)]> (tj_states st)) st) →
  wp (lower_min node other st) P Q.
Proof.
  intros Hs HP. unfold lower_min. pose proof (lookup_lt_Some _ _ _ Hs) as Hlt.
  apply wp_bind, wp_vget; [done|]. intros s Hs'. assert (s = Working i m) as -> by congruence.
  apply wp_bind. simpl. apply wp_ret. by wp_set; apply wp_ret.
Qed.

(** The edge that was taken leads to a node that was seen. *)
Lemma tj_advance used st w f next i m m0 new :
  tj_inv [next] used st → tj_call_stack st = w ++ [f] →
  tj_states st !! frame_node f = Some (Working i m) → seen (tj_states st) next →
  m0 <= m → (m0 = m ∨ num (tj_states st) next = Some m0) →
  (∀ j, num (tj_states st) next = Some j → m0 <= j) →
  (∀ c, c ∈ new ↔ comp (tj_states st) next = Some c) →
  let st' := with_successors (tj_successor_stack st ++ new)
    (with_states (<[frame_node f:=Working i m0]> (tj_states st)) st) in
  tj_inv [] (<[frame_node f:=used (frame_node f) ++ [next]]> used) st' ∧
  tj_measure g st' = tj_measure g st ∧ tj_seen_in st st'.
Proof.
  intros Hinv Hst Hs Hseen Hle Hm0 Hnext Hnew st'.
  destruct (path_snoc _ _ _ Hst) as [Hp Hl]. destruct (top_frame _ _ _ _ _ Hinv Hst) as (i' & m' & _ & Hn & Hadj).
  assert (Hedge : gedge g (frame_node f) next) by (split; [done|]; rewrite Hadj; set_solver).
  destruct (lowered (tj_states st) (frame_node f) i m m0 Hs) as (Hnum & Hcomp & _).
  assert (Hns : ∀ x, tj_states st !! x = Some NotSeen ↔ tj_states st' !! x = Some NotSeen).
  { intros x. simpl. destruct (decide (x = frame_node f)) as [->|Hne].
    - rewrite list_lookup_insert_eq, Hs by (by eapply lookup_lt_Some). done.
    - by rewrite list_lookup_insert_ne. }
  destruct (unseen_keep g _ _ Hns) as [Hcount Hcost].
  split; [split|split].
  - pose proof (ti_search _ _ _ Hinv) as Hsearch. rewrite Hp in Hsearch.
    change (tj_path st') with (tj_path st). change (tj_lens st') with (tj_lens st). rewrite Hp.
    by eapply inv_advance.
  - simpl. rewrite length_insert. apply Hinv.
  - intros k f' Hk. change (tj_call_stack st') with (tj_call_stack st) in *.
    pose proof (ti_frames _ _ _ Hinv k f' Hk) as Hf. rewrite Hf.
    assert (Hkl : tj_call_stack st !! length w = Some f) by (rewrite Hst; apply lookup_snoc).
    assert (Hlen : length (tj_call_stack st) = S (length w)) by (rewrite Hst, length_app; simpl; lia).
    destruct (decide (k = length w)) as [->|Hne].
    + assert (f' = f) as -> by congruence. rewrite !decide_True by lia. rewrite fn_lookup_insert.
      simpl. by rewrite <-app_assoc.
    + rewrite !decide_False by lia. rewrite fn_lookup_insert_ne; [done|].
      intros Heq. apply Hne. by eapply frames_inj.
  - destruct (ti_comps _ _ _ Hinv) as [Hcl Hcm Hcmem Hcb Hcs Hcbk Hcd].
    split; simpl; try setoid_rewrite Hcomp; done.
  - simpl in *. rewrite Hcount. apply Hinv.
  - unfold tj_measure. by rewrite Hcost.
  - intros x Hx. by apply Hns.
Qed.

Lemma tj_enter_spec used st next (P : TarjanState → Prop) (Q : E → Prop) :
  tj_inv [next] used st → tj_states st !! next = Some NotSeen → next < num_nodes g →
  (∀ st', (∃ used', tj_inv [] used' st') → tj_measure g st' = tj_measure g st → tj_seen_in st st' →
     tj_states st' !! next ≠ Some NotSeen → P st') →
  wp (tj_enter g next st) P Q.
Proof.
  intros Hinv Hns Hn HP. unfold tj_enter. rewrite edges_adj by done. apply wp_bind, wp_ret.
  pose proof (ti_len _ _ _ Hinv) as Hlen. wp_set.
  destruct (unseen_enter g (tj_states st) next (tj_index st) Hns Hn) as [Hcount Hcost].
  pose proof (ti_count _ _ _ Hinv) as Hroom'.
  unfold idx_increment_by, idx_plus. apply wp_bind, wp_bind.
  rewrite usize_add_small by (unfold usize_MAX, u64_MAX in *; lia). apply wp_ret. rewrite Nat.add_1_r.
  apply wp_idx_new; [unfold idx_fits in *; lia|]. apply wp_ret, HP.
  - exists (used_enter used (tj_path st) next). split; simpl.
    + unfold tj_path, tj_lens, vpush. simpl. rewrite !fmap_app. apply inv_enter; [apply Hinv|done|].
      intros v Hv. unfold tj_path in Hv. rewrite fmap_last in Hv. apply fmap_Some in Hv as (f & Hf & ->).
      apply last_Some in Hf as [w Hw]. destruct (top_frame _ _ _ _ _ Hinv Hw) as (_ & _ & _ & Hlt & Hadj).
      split; [done|]. rewrite Hadj. set_solver.
    + by rewrite length_insert.
    + intros k f Hk. replace (if decide _ then _ else _) with (@nil nat) by (by case_decide).
      unfold vpush in Hk. apply lookup_snoc_Some in Hk as [[Hlt Hk]|[_ <-]]; [|simpl; by rewrite used_enter_new].
      pose proof (ti_frames _ _ _ Hinv k f Hk) as Hf. simpl.
      assert (Hpk : tj_path st !! k = Some (frame_node f)) by (unfold tj_path; by rewrite list_lookup_fmap, Hk).
      assert (Hne : frame_node f ≠ next).
      { intros Heq. destruct (si_path _ _ _ _ _ _ _ _ (ti_search _ _ _ Hinv) _ _ Hpk) as [j Hj].
        destruct (unseen_not_seen _ _ Hns) as [Hnn _]. congruence. }
      unfold used_enter. rewrite fn_lookup_insert_ne by done. rewrite last_lookup.
      unfold tj_path at 1. rewrite length_fmap. case_decide as Hlast.
      * rewrite <-Hlast. simpl. rewrite Hpk, fn_lookup_insert, Hf. simpl. by rewrite <-app_assoc.
      * rewrite Hf. destruct (tj_path st !! pred (length (tj_call_stack st))) as [u|] eqn:Hu; [|done].
        rewrite fn_lookup_insert_ne; [done|]. intros ->.
        unfold tj_path in Hu. apply list_lookup_fmap_Some in Hu as (f' & Heq & Hu).
        pose proof (frames_inj _ _ _ _ _ _ _ Hinv Hk Hu Heq). lia.
    + destruct (entered (tj_states st) next (tj_index st) Hns) as (_ & _ & Hcomp).
      destruct (ti_comps _ _ _ Hinv) as [Hcl Hcm Hcmem Hcb Hcs Hcbk Hcd].
      split; try setoid_rewrite Hcomp; done.
    + lia.
  - unfold tj_measure, vpush. simpl. rewrite sum_list_with_app. simpl. lia.
  - intros x. simpl. rewrite list_lookup_insert_Some. intros [(_ & ? & _)|[_ ?]]; done.
  - simpl. rewrite list_lookup_insert_eq by lia. done.
Qed.

(** The successors gathered for a component are those of its members. *)
Lemma component_successors used states index p v l a stack successors i d :
  search_inv g used states index (p ++ [v]) (l ++ [a]) stack successors → length states = num_nodes g →
  length l = length p → num states v = Some i → used v = adj g v →
  d ∈ drop a successors ↔ ∃ x y, member (states:=states) i x ∧ gedge g x y ∧ comp states y = Some d.
Proof.
  intros Hsearch Hlen Hl Hvi Hfull.
  pose proof (si_succ _ _ _ _ _ _ _ _ Hsearch (length p) v i a) as Hsucc. unfold segment in Hsucc.
  rewrite (lookup_ge_None_2 (l ++ [a]) (S (length p))) in Hsucc by (rewrite length_app; simpl; lia).
  rewrite Hsucc; [|apply lookup_snoc|done|rewrite <-Hl; apply lookup_snoc]. split.
  - intros (x & n & y & Hx & Hin & _ & Hy & Hc). exists x, y.
    assert (Hmx : member (states:=states) i x) by (by exists n). split; [done|]. split; [|done].
    split; [rewrite <-Hlen; by eapply num_lt|]. by rewrite <-(member_used g Hsearch i Hvi Hfull x Hmx).
  - intros (x & y & Hmx & Hxy & Hc).
    pose proof (member_used g Hsearch i Hvi Hfull x Hmx) as Hu. destruct Hmx as (n & Hx & Hin).
    exists x, n, y. split_and!; [done|done| |rewrite Hu; apply Hxy|done].
    intros u n' Hu'%lookup_lt_Some. rewrite length_app in Hu'. simpl in Hu'. lia.
Qed.

(** Completing the component of the node that is left. *)
Lemma close_component_spec used st w f i (P : TarjanState → Prop) (Q : E → Prop) :
  tj_inv [] used st → tj_call_stack st = w ++ [f] → frame_edges f = [] →
  tj_states st !! frame_node f = Some (Working i i) →
  (∀ st', tj_inv [] used st' → tj_call_stack st' = w →
     (∀ x, tj_states st !! x = Some NotSeen ↔ tj_states st' !! x = Some NotSeen) →
     (∃ j cid, tj_states st' !! frame_node f = Some (Done j i cid)) →
     (∀ x j m, tj_states st' !! x = Some (Working j m) → tj_states st !! x = Some (Working j m)) → P st') →
  wp (close_component f (with_call_stack w st)) P Q.
Proof.
  intros Hinv Hst Hnil Hs HP.
  destruct (path_snoc _ _ _ Hst) as [Hp Hl]. destruct (top_frame _ _ _ _ _ Hinv Hst) as (j & m & _ & Hn & Hadj).
  rewrite Hnil, !app_nil_r in Hadj.
  pose proof (ti_search _ _ _ Hinv) as Hsearch. rewrite Hp, Hl in Hsearch.
  set (v := frame_node f) in *. set (a := frame_successors f) in *.
  assert (Hvi : num (tj_states st) v = Some i) by (unfold num; by rewrite Hs).
  assert (Hvm : low (tj_states st) v = Some i) by (unfold low; by rewrite Hs).
  assert (v ∈ tj_scc_stack st) as (s1 & s2 & Hstack)%list_elem_of_split
    by (apply (si_stack _ _ _ _ _ _ _ _ Hsearch); by eexists).
  pose proof (comps_room g _ _ _ _ _ _ (ti_comps _ _ _ Hinv) (ti_len _ _ _ Hinv) Hvi) as Hcroom.
  assert (Hcid : idx_fits (length (tj_comps st))) by (eapply idx_fits_le; [|exact Hroom]; lia).
  pose proof (stack_nodup g Hsearch) as Hnd. rewrite Hstack in Hnd, Hsearch.
  apply NoDup_app in Hnd as (_ & _ & Hnd).
  destruct (ti_comps _ _ _ Hinv) as [Hcl Hcm Hcmem Hcb Hcs Hcbk (lists & Hrepr & Hll & Hlists)].
  destruct (stack_members _ _ _ _ _ _ _ _ _ _ _ Hsearch Hvi) as [_ Habove].
  destruct (si_len _ _ _ _ _ _ _ _ Hsearch (length (frame_successors <$> w)) a) as (Ha & _ & _); [apply lookup_snoc|].
  unfold close_component, with_call_stack.
  cbn [tj_comps tj_scc_stack tj_states tj_map tj_call_stack tj_successor_stack tj_dag tj_index].
  apply wp_bind, wp_idx_new; [done|]. apply wp_bind. rewrite Hstack.
  apply gather_spec; [rewrite length_app; simpl; lia|done| |].
  { intros x Hx. destruct (Habove x Hx) as (l & Hl' & _). pose proof (num_lt _ _ _ Hl') as Hlt.
    pose proof (ti_len _ _ _ Hinv). split; [done|lia]. }
  intros states' map' Hls Hlm Hstates Hmap.
  destruct (gathered g _ _ _ _ _ _ _ _ _ _ _ _ _ _ Hsearch Hvi Hstates Hmap) as (Hcloses & Hns & Hin & Hout & Hmem).
  unfold index_push, next_index. apply wp_bind, wp_bind, wp_idx_new; [done|]. apply wp_ret.
  apply wp_bind. unfold drain. fold a. rewrite decide_True by done. apply wp_ret.
  apply wp_bind. eapply vg_pack_spec; [by rewrite Hll|done|]. intros dag' Hdag'. apply wp_ret.
  destruct (unseen_keep g _ _ Hns) as [Hcount _]. apply HP.
  - split; cbn [tj_comps tj_scc_stack tj_states tj_map tj_call_stack tj_successor_stack tj_dag tj_index].
    + replace (match last w with Some _ => _ | None => _ end) with
        (take a (tj_successor_stack st) ++ match last (frame_node <$> w) with Some _ => [length (tj_comps st)] | None => [] end).
      2: { rewrite fmap_last. unfold vpush. destruct (last w); [done|]. simpl. apply app_nil_r. }
      unfold tj_path, tj_lens. simpl. by eapply inv_close.
    + rewrite Hls. apply Hinv.
    + intros k f' Hk. pose proof (ti_frames _ _ _ Hinv k f') as Hf. rewrite Hst in Hf.
      rewrite Hf by (by apply lookup_app_l_Some). simpl. by repeat case_decide.
    + unfold vpush. rewrite app_nil_l.
      eapply (comps_close g _ _ _ _ _ _ _ _ _ _ _ _ _ _ _ _ _ _ Hsearch Hvi Hvm (eq_sym Hadj)
        (ti_comps _ _ _ Hinv) Hrepr Hll Hlists Hcloses Hlm Hin Hout); try done.
      * by rewrite reverse_Permutation.
      * intros x. by rewrite elem_of_reverse.
      * apply keep_new_nodup.
      * intros d. rewrite keep_new_spec.
        rewrite (component_successors _ _ _ _ _ _ _ _ _ _ d Hsearch (ti_len _ _ _ Hinv)) by (rewrite ?length_fmap; done).
        set_solver.
    + rewrite Hcount. apply Hinv.
  - done.
  - apply Hns.
  - cbn [tj_states]. destruct (num_low _ _ _ Hvi) as (n & Hn' & Hs'). exists i, (length (tj_comps st)).
    rewrite Hstates, decide_True by set_solver. rewrite Hs. done.
  - cbn [tj_states]. intros x n m'. rewrite Hstates. case_decide; [|done].
    destruct (tj_states st !! x) as [[]|]; done.
Qed.

(** A node left before its component is complete has a node above it. *)
Lemma root_complete used states index lens stack successors v i m :
  search_inv g used states index [v] lens stack successors → states !! v = Some (Working i m) → i = m.
Proof.
  intros Hinv Hs. assert (Hi : num states v = Some i) by (unfold num; by rewrite Hs).
  assert (Hm : low states v = Some m) by (unfold low; by rewrite Hs).
  destruct (si_low _ _ _ _ _ _ _ _ Hinv v i m Hi Hm) as (Hle & u & Hu & _).
  destruct (decide (i = m)) as [|Hne]; [done|exfalso].
  assert (u ≠ v) by (intros ->; congruence).
  destruct (si_waiting _ _ _ _ _ _ _ _ Hinv u m Hu) as (_ & _ & k & w & j & Hk & Hw & Hj & _); [set_solver|].
  apply list_lookup_singleton_Some in Hk as [_ <-]. assert (j = i) by congruence. lia.
Qed.

(** The node above was visited earlier. *)
Lemma parent_below used st w pf f pi pm i m :
  tj_inv [] used st → tj_call_stack st = (w ++ [pf]) ++ [f] →
  tj_states st !! frame_node pf = Some (Working pi pm) → tj_states st !! frame_node f = Some (Working i m) →
  pm <= pi /\ pi < i.
Proof.
  intros Hinv Hst Hp Hf. pose proof (ti_search _ _ _ Hinv) as Hs.
  assert (Hpi : num (tj_states st) (frame_node pf) = Some pi) by (unfold num; by rewrite Hp).
  assert (Hi : num (tj_states st) (frame_node f) = Some i) by (unfold num; by rewrite Hf).
  assert (Hpm : low (tj_states st) (frame_node pf) = Some pm) by (unfold low; by rewrite Hp).
  split; [by eapply (si_low _ _ _ _ _ _ _ _ Hs)|].
  eapply (si_order _ _ _ _ _ _ _ _ Hs (length w) (S (length w))); [lia| | |done|done].
  - unfold tj_path. rewrite Hst, list_lookup_fmap, lookup_app_l by (rewrite length_app; simpl; lia).
    by rewrite lookup_snoc.
  - unfold tj_path. rewrite Hst, list_lookup_fmap.
    replace (S (length w)) with (length (w ++ [pf])) by (rewrite length_app; simpl; lia). by rewrite lookup_snoc.
Qed.

(** A node is left before its component is complete. *)
Lemma tj_left used st w pf f pi pm i m :
  tj_inv [] used st → tj_call_stack st = (w ++ [pf]) ++ [f] → frame_edges f = [] →
  tj_states st !! frame_node f = Some (Working i m) → tj_states st !! frame_node pf = Some (Working pi pm) →
  m ≠ i →
  let states' := <[frame_node pf:=Working pi (if decide (m < pm) then m else pm)]> (tj_states st) in
  let st' := with_states states' (with_call_stack (w ++ [pf]) st) in
  tj_inv [] used st' ∧ unseen_cost g states' = unseen_cost g (tj_states st) ∧ tj_seen_in st st'.
Proof.
  intros Hinv Hst Hnil Hf Hp Hne states' st'.
  destruct (top_frame _ _ _ _ _ Hinv Hst) as (_ & _ & _ & _ & Hadj). rewrite Hnil, !app_nil_r in Hadj.
  assert (Hns : ∀ x, tj_states st !! x = Some NotSeen ↔ states' !! x = Some NotSeen).
  { intros x. unfold states'. destruct (decide (x = frame_node pf)) as [->|Hx].
    - rewrite list_lookup_insert_eq, Hp by (by eapply lookup_lt_Some). done.
    - by rewrite list_lookup_insert_ne. }
  destruct (unseen_keep g _ _ Hns) as [Hcount Hcost].
  assert (Hpath : tj_path st = ((frame_node <$> w) ++ [frame_node pf]) ++ [frame_node f])
    by (unfold tj_path; by rewrite Hst, !fmap_app).
  assert (Hlens : tj_lens st = (frame_successors <$> w ++ [pf]) ++ [frame_successors f])
    by (unfold tj_lens; by rewrite Hst, !fmap_app).
  assert (Hpk : tj_call_stack st !! length w = Some pf).
  { rewrite Hst, lookup_app_l by (rewrite length_app; simpl; lia). apply lookup_snoc. }
  pose proof (ti_search _ _ _ Hinv) as Hsearch. rewrite Hpath, Hlens in Hsearch.
  destruct (lowered (tj_states st) (frame_node pf) pi pm (if decide (m < pm) then m else pm) Hp) as (Hnum & Hcomp & _).
  split; [split|split; [done|]].
  - unfold st', tj_path, tj_lens. cbn [with_states with_call_stack tj_states tj_call_stack tj_index tj_scc_stack tj_successor_stack].
    rewrite fmap_app. eapply inv_leave; [done|done|done|by rewrite Hadj|done|].
    split; [rewrite <-(ti_len _ _ _ Hinv); by eapply lookup_lt_Some|].
    rewrite (ti_frames _ _ _ Hinv _ _ Hpk). apply elem_of_app. left.
    eapply (si_tree _ _ _ _ _ _ _ _ Hsearch (length (frame_node <$> w))).
    + rewrite lookup_app_l by (rewrite length_app; simpl; lia). apply lookup_snoc.
    + replace (S (length (frame_node <$> w))) with (length ((frame_node <$> w) ++ [frame_node pf]))
        by (rewrite length_app; simpl; lia). apply lookup_snoc.
  - simpl. unfold states'. rewrite length_insert. apply Hinv.
  - intros k f' Hk. pose proof (ti_frames _ _ _ Hinv k f') as Hfr. rewrite Hst in Hfr.
    rewrite Hfr by (by apply lookup_app_l_Some). by repeat case_decide.
  - destruct (ti_comps _ _ _ Hinv) as [Hcl Hcm Hcmem Hcb Hcs Hcbk Hcd].
    unfold st', states'. split; simpl; try setoid_rewrite Hcomp; done.
  - simpl. rewrite Hcount. apply Hinv.
  - intros x Hx. by apply Hns.
Qed.

Lemma tj_leave_spec used st w f (P : TarjanState → Prop) (Q : E → Prop) :
  tj_inv [] used st → tj_call_stack st = w ++ [f] → frame_edges f = [] →
  (∀ st', tj_inv [] used st' → tj_measure g st' < tj_measure g st → tj_seen_in st st' → P st') →
  wp (tj_leave st) P Q.
Proof.
  intros Hinv Hst Hnil HP. destruct (top_frame _ _ _ _ _ Hinv Hst) as (i & m & Hs & Hn & Hadj).
  unfold tj_leave. rewrite Hst, vpop_app. apply wp_bind, wp_ret.
  apply wp_bind, wp_vget; [by eapply lookup_lt_Some|]. intros s Hs'. assert (s = Working i m) as ->.
  { change (tj_states (with_call_stack w st)) with (tj_states st) in Hs'. congruence. }
  assert (Hsum : sum_list_with (λ f, S (length (frame_edges f))) (tj_call_stack st) =
    S (sum_list_with (λ f, S (length (frame_edges f))) w)).
  { rewrite Hst, sum_list_with_app. simpl. rewrite Hnil. simpl. lia. }
  apply wp_bind. case_decide as Him.
  - subst m. eapply close_component_spec; [done..|]. intros st' Hinv' Hw Hns (j & cid & Hdone) Hsame.
    destruct (unseen_keep g _ _ Hns) as [_ Hcost].
    assert (HP' : P st').
    { apply (HP st' Hinv'); [unfold tj_measure; rewrite Hw, Hcost; lia|]. intros x Hx. by apply Hns. }
    rewrite Hw. destruct (last w) as [pf|] eqn:Hlast; [|by apply wp_ret].
    apply last_Some in Hlast as [w' ->]. destruct (top_frame _ _ _ _ _ Hinv' Hw) as (pi & pm & Hps & _).
    apply wp_bind, wp_vget; [by eapply lookup_lt_Some|]. intros s Hsd. assert (s = Done j i cid) as -> by congruence.
    apply wp_bind. apply wp_ret. eapply lower_min_spec; [done|].
    rewrite decide_False; [rewrite list_insert_id by done; by destruct st'|].
    pose proof (parent_below _ _ _ _ _ _ _ _ _ Hinv Hst (Hsame _ _ _ Hps) Hs). lia.
  - apply wp_ret. cbn [with_call_stack tj_call_stack]. destruct (list_snoc_inv w) as [->|(w' & pf & ->)]; [exfalso|].
    { apply Him. pose proof (ti_search _ _ _ Hinv) as Hsearch. unfold tj_path in Hsearch. rewrite Hst in Hsearch.
      exact (root_complete _ _ _ _ _ _ _ _ _ Hsearch Hs). }
    rewrite last_snoc. destruct (si_path _ _ _ _ _ _ _ _ (ti_search _ _ _ Hinv) (length w') (frame_node pf)) as [pi Hpi].
    { unfold tj_path. rewrite Hst, list_lookup_fmap, lookup_app_l by (rewrite length_app; simpl; lia).
      by rewrite lookup_snoc. }
    destruct (num_low _ _ _ Hpi) as (pm & _ & Hps).
    apply wp_bind, wp_vget; [by eapply lookup_lt_Some|]. intros s Hs''. assert (s = Working i m) as ->.
    { change (tj_states (with_call_stack (w' ++ [pf]) st)) with (tj_states st) in Hs''. congruence. }
    apply wp_bind, wp_ret. eapply lower_min_spec; [exact Hps|].
    destruct (tj_left _ _ _ _ _ _ _ _ _ Hinv Hst Hnil Hs Hps) as (Hinv' & Hcost & Hseen); [congruence|].
    apply HP; [done| |done]. unfold tj_measure in *. cbn [with_states with_call_stack tj_states tj_call_stack] in *.
    rewrite Hsum, Hcost. lia.
Qed.

(** Taking the next edge of the last frame. *)
Lemma tj_take used st w node next rest len :
  tj_inv [] used st →
  tj_call_stack st = w ++ [{| frame_node := node; frame_edges := next :: rest; frame_successors := len |}] →
  let f := {| frame_node := node; frame_edges := rest; frame_successors := len |} in
  let st' := with_call_stack (w ++ [f]) st in
  tj_inv [next] used st' ∧ tj_measure g st' < tj_measure g st ∧ next < num_nodes g.
Proof.
  intros Hinv Hst f st'. destruct (path_snoc _ _ _ Hst) as [Hp Hl].
  destruct (top_frame _ _ _ _ _ Hinv Hst) as (i & m & _ & Hn & Hadj). simpl in Hn, Hadj.
  split; [split|split].
  - unfold st', tj_path, tj_lens. simpl. rewrite !fmap_app. pose proof (ti_search _ _ _ Hinv) as Hs.
    by rewrite Hp, Hl in Hs.
  - apply Hinv.
  - intros k f' Hk. unfold st' in *. cbn [with_call_stack tj_call_stack] in *.
    apply lookup_snoc_Some in Hk as [[Hlt Hk]|[-> <-]].
    + rewrite decide_False by (rewrite length_app; simpl; lia).
      pose proof (ti_frames _ _ _ Hinv k f') as Hf. rewrite Hst in Hf.
      rewrite Hf by (by apply lookup_app_l_Some). by case_decide.
    + by rewrite decide_True by (rewrite length_app; simpl; lia).
  - apply Hinv.
  - apply Hinv.
  - unfold tj_measure, st'. cbn [with_call_stack tj_call_stack tj_states]. rewrite Hst, !sum_list_with_app. simpl. lia.
  - destruct (proj2 Hg node Hn) as [_ Hall]. rewrite Forall_forall in Hall. apply Hall. rewrite Hadj. set_solver.
Qed.

Lemma tj_recurse_spec st (P : TarjanState + TarjanState → Prop) (Q : E → Prop) :
  (∃ used, tj_inv [] used st) →
  (∀ st', (∃ used, tj_inv [] used st') → tj_measure g st' < tj_measure g st → tj_seen_in st st' → P (inl st')) →
  (tj_call_stack st = [] → P (inr st)) →
  wp (tj_recurse g st) P Q.
Proof.
  intros [used Hinv] Hgo Hstop. unfold tj_recurse.
  destruct (list_snoc_inv (tj_call_stack st)) as [Hst|(w & [node es len] & Hst)].
  { rewrite Hst. simpl. apply wp_ret. auto. }
  rewrite Hst, last_snoc. cbn [frame_edges frame_node frame_successors]. destruct es as [|next rest].
  { apply wp_bind. eapply tj_leave_spec; [done..|]. intros st' ? ? ?. apply wp_ret, Hgo; [by exists used|done|done]. }
  unfold vset_last. rewrite vpop_app. unfold vpush.
  destruct (tj_take _ _ _ _ _ _ _ Hinv Hst) as (Hinv1 & Hmeasure & Hn).
  set (f := Build_WorkFrame node rest len) in *. set (st1 := with_call_stack (w ++ [f]) st) in *.
  destruct (top_frame _ _ _ _ _ Hinv1 eq_refl) as (i & m & Hs & _ & _).
  apply wp_bind, wp_vget; [by rewrite (ti_len _ _ _ Hinv1)|]. intros state Hstate. destruct state as [|j n|j n c].
  - apply wp_bind. eapply tj_enter_spec; [done..|]. intros st' ? Hm Hseen _. apply wp_ret, Hgo; [done|lia|done].
  - assert (Hj : num (tj_states st1) next = Some j) by (unfold num; by rewrite Hstate).
    apply wp_bind. eapply lower_min_spec; [exact Hs|]. apply wp_ret.
    destruct (tj_advance used st1 w f next i m (if decide (j < m) then j else m) [] Hinv1 eq_refl Hs)
      as (Hinv2 & Hm & Hseen); [left; by eexists|destruct (decide (j < m)); lia|
        destruct (decide (j < m)); [by right|by left]| | |].
    { intros j' Hj'. assert (j' = j) as -> by congruence. destruct (decide (j < m)); lia. }
    { intros c. split; [by intros ?%elem_of_nil|]. intros Hc. exfalso. by eapply num_comp. }
    rewrite app_nil_r in Hinv2, Hm, Hseen. apply Hgo; [eexists; exact Hinv2| |exact Hseen].
    by eapply Nat.le_lt_trans; [exact (Nat.eq_le_incl _ _ Hm)|].
  - assert (Hc : comp (tj_states st1) next = Some c) by (unfold comp; by rewrite Hstate).
    apply wp_ret. destruct (tj_advance used st1 w f next i m m [c] Hinv1 eq_refl Hs)
      as (Hinv2 & Hm & Hseen); [right; by eexists|done|by left| | |].
    { intros j' Hj'. exfalso. by eapply num_comp. }
    { intros c'. rewrite list_elem_of_singleton. naive_solver. }
    rewrite list_insert_id in Hinv2, Hm, Hseen by done. apply Hgo; [eexists; exact Hinv2| |exact Hseen].
    by eapply Nat.le_lt_trans; [exact (Nat.eq_le_incl _ _ Hm)|].
Qed.

Lemma tj_root_spec root st (P : TarjanState → Prop) (Q : E → Prop) :
  (∃ used, tj_inv [] used st) → tj_call_stack st = [] → root < num_nodes g →
  (∀ st', (∃ used, tj_inv [] used st') → tj_call_stack st' = [] → tj_seen_in st st' →
     tj_states st' !! root ≠ Some NotSeen → P st') →
  wp (tj_root g root st) P Q.
Proof.
  intros [used Hinv] Hst Hroot HP. unfold tj_root.
  apply wp_bind, wp_vget; [by rewrite (ti_len _ _ _ Hinv)|]. intros state Hs. destruct state as [|j m|j m c].
  - assert (Hinv1 : tj_inv [root] used st).
    { destruct Hinv as [? ? _ ? ?]. split; try done. rewrite Hst. by intros k f ?. }
    apply wp_bind. eapply tj_enter_spec; [done..|]. intros st1 Hinv2 Hm Hseen Hr.
    apply (wp_loop (λ st', (∃ used, tj_inv [] used st') ∧ tj_seen_in st st' ∧
      tj_states st' !! root ≠ Some NotSeen) (tj_measure g)).
    + intros st' (Hinv' & Hseen' & Hr'). eapply tj_recurse_spec; [done| |].
      * intros st'' ? ? Hseen''. split; [split_and!; [done|intros x; auto|]|done].
        intros Hu. by apply Hr', Hseen''.
      * intros Hst'. by apply HP.
    + done.
    + rewrite Hm. by apply tj_measure_fuel.
  - exfalso. assert (Hj : num (tj_states st) root = Some j) by (unfold num; by rewrite Hs).
    destruct (si_waiting _ _ _ _ _ _ _ _ (ti_search _ _ _ Hinv) root j Hj) as (_ & _ & k & v & l & Hk & _);
      unfold tj_path in *; rewrite Hst in *; [by intros ?%elem_of_nil|done].
  - apply wp_ret, HP; [by exists used|done|by intros x|congruence].
Qed.

(** *** The whole search *)

Definition tj_start (nodes map : list nat) : TarjanState :=
  {| tj_states := (λ _, NotSeen) <$> nodes; tj_index := 0;
     tj_call_stack := []; tj_scc_stack := []; tj_successor_stack := [];
     tj_map := map; tj_comps := []; tj_dag := vg_new_empty |}.

Lemma tj_start_inv map : length map = num_nodes g → tj_inv [] (λ _, []) (tj_start (seq 0 (num_nodes g)) map).
Proof.
  intros Hmap. unfold tj_start. set (states := (λ _, NotSeen) <$> seq 0 (num_nodes g)).
  assert (Hns : ∀ x s, states !! x = Some s → s = NotSeen).
  { intros x s Hs. by apply list_lookup_fmap_Some in Hs as (v & Heq & _). }
  assert (Hnone : ∀ x, num states x = None ∧ comp states x = None).
  { intros x. unfold num, comp. destruct (states !! x) as [s|] eqn:Hs; [by rewrite (Hns _ _ Hs)|done]. }
  assert (Hnum := λ x, proj1 (Hnone x)). assert (Hcomp := λ x, proj2 (Hnone x)). simpl in Hnum, Hcomp.
  split; simpl.
  - unfold tj_path, tj_lens. simpl. split; try setoid_rewrite Hnum; try setoid_rewrite Hcomp; try done.
    intros x. split; [by intros ?%elem_of_nil|by intros []].
  - unfold states. by rewrite length_fmap, length_seq.
  - by intros k f ?.
  - split; try setoid_rewrite Hcomp; try done. exists []. split; [split; [done|intros v; by destruct v]|].
    split; [done|]. by intros c es ?.
  - apply unseen_count_le.
Qed.

Definition is_sccs (s : SCCS) : Prop :=
  length (sccs_map s) = num_nodes g ∧
  (∀ x c, sccs_map s !! x = Some c → c < length (sccs_comps s)) ∧
  (∀ c ms, sccs_comps s !! c = Some ms → ms ≠ [] ∧ NoDup ms ∧ ∀ x, x ∈ ms ↔ sccs_map s !! x = Some c) ∧
  (∀ x y, x < num_nodes g → y < num_nodes g →
     (sccs_map s !! x = sccs_map s !! y ↔ rtc (gedge g) x y ∧ rtc (gedge g) y x)) ∧
  num_nodes (sccs_dag s) = length (sccs_comps s) ∧
  ∀ c, c < length (sccs_comps s) → ∃ es, edges (sccs_dag s) c = Some es ∧ NoDup es ∧
    ∀ d, (d ∈ es ↔ d ≠ c ∧ ∃ x y, sccs_map s !! x = Some c ∧ sccs_map s !! y = Some d ∧ gedge g x y) ∧
         (d ∈ es → d < c).

(** When every node is done. *)
Lemma comps_sccs states map comps dag :
  comps_inv g states map comps dag → (∀ x, x < num_nodes g → is_Some (comp states x)) →
  is_sccs {| sccs_map := map; sccs_comps := comps; sccs_dag := dag |}.
Proof.
  intros [Hlen Hmap Hmem Hbd Hscc Hback (lists & [Hdl Hde] & Hll & Hlists)] Hall.
  assert (Hcm : ∀ x c, map !! x = Some c ↔ comp states x = Some c).
  { intros x c. split; [|apply Hmap]. intros Hx. pose proof (lookup_lt_Some _ _ _ Hx) as Hlt.
    destruct (Hall x) as [c' Hc']; [lia|]. pose proof (Hmap _ _ Hc'). congruence. }
  assert (Hsome : ∀ x, x < num_nodes g → ∃ c, map !! x = Some c ∧ comp states x = Some c).
  { intros x Hx. destruct (Hall x Hx) as [c Hc]. exists c. split; [by apply Hmap|done]. }
  split_and!; simpl.
  - done.
  - intros x c Hx%Hcm. by eapply Hbd.
  - intros c ms Hms. destruct (Hmem c ms Hms) as (? & ? & Hin). split_and!; [done|done|].
    intros x. by rewrite Hin, Hcm.
  - intros x y Hx Hy. destruct (Hsome x Hx) as (c & Hmx & Hcx), (Hsome y Hy) as (d & Hmy & Hcy).
    rewrite Hmx, Hmy, <-(Hscc x c y Hcx), Hcy. split; congruence.
  - lia.
  - intros c Hc. destruct (lookup_lt_is_Some_2 lists c) as [es Hes]; [lia|].
    destruct (Hlists c es Hes) as [Hnd Hin]. exists es. simpl in Hde. rewrite Hde. split_and!; [done|done|].
    intros d. split; [|intros Hd; by apply Hin in Hd as [? _]]. rewrite Hin. setoid_rewrite Hcm. split.
    + intros (Hd & x & y & Hx & Hy & Hxy). split; [lia|by exists x, y].
    + intros (Hd & x & y & Hx & Hy & Hxy). split; [|by exists x, y].
      pose proof (Hback x c y d Hx Hy Hxy). lia.
Qed.

Lemma tarjan_spec (P : SCCS → Prop) (Q : E → Prop) :
  (∀ s, is_sccs s → P s) → wp (tarjan g) P Q.
Proof.
  intros HP. unfold tarjan. rewrite iter_nodes_ret by apply Hg. simpl.
  assert (Hzero : idx_fits 0) by (eapply idx_fits_le; [|exact Hroom]; lia).
  rewrite (mapM_ret _ (λ _, 0)) by (intros; by apply idx_new_fits). simpl.
  apply wp_bind, wp_idx_new; [done|]. apply wp_bind.
  apply (wp_for_each (λ pre st, (∃ used, tj_inv [] used st) ∧ tj_call_stack st = [] ∧
    ∀ v, v ∈ pre → tj_states st !! v ≠ Some NotSeen)).
  - split_and!; [|done|by intros ? ?%elem_of_nil]. exists (λ _, []).
    apply tj_start_inv. by rewrite length_fmap, length_seq.
  - intros pre root post st [-> Hr]%seq_split (Hinv & Hst & Hpre).
    eapply tj_root_spec; [done..|]. intros st' ? ? Hseen ?. split_and!; [done..|].
    intros v [Hv| ->%list_elem_of_singleton]%elem_of_app; [|done].
    intros Hu. by apply (Hpre v Hv), Hseen.
  - intros st ([used Hinv] & Hst & Hall). apply wp_ret, HP.
    apply (comps_sccs (tj_states st)); [apply Hinv|]. intros x Hx.
    destruct (lookup_lt_is_Some_2 (tj_states st) x) as [s Hs]; [by rewrite (ti_len _ _ _ Hinv)|].
    unfold comp. rewrite Hs. destruct s as [|j m|j m c]; [|exfalso|by eexists].
    + exfalso. apply (Hall x); [apply elem_of_seq; lia|done].
    + assert (Hj : num (tj_states st) x = Some j) by (unfold num; by rewrite Hs).
      destruct (si_waiting _ _ _ _ _ _ _ _ (ti_search _ _ _ Hinv) x j Hj) as (_ & _ & k & v & l & Hk & _);
        unfold tj_path in *; rewrite Hst in *; [by intros ?%elem_of_nil|done].
Qed.

End program.

(** ** Properties *)

(** C14: for every graph whose edges lead to nodes and that has one node fewer
    than the index type could number, [tarjan] returns without panicking: two
    nodes are in the same component exactly when each can be reached from the
    other, every component lists its members once, the graph of the components
    has an edge between two different components exactly when the graph has one
    between their members, without repetition, and every edge leads to a
    component found earlier. *)
Theorem tarjan_correct `{Idx} `{DirectedGraph G} (g : G) :
  graph_wf g → idx_fits (num_nodes g) → (N.of_nat (num_nodes g) <= usize_MAX)%N →
  ∃ s, tarjan (E:=()) g = Ret s ∧ is_sccs g s.
Proof.
  intros Hg Hroom Husize.
  assert (Hwp : wp (E:=()) (tarjan g) (is_sccs g) (λ _, False)) by (by apply tarjan_spec).
  apply wp_total in Hwp as (s & Hs & His). by exists s.
Qed.

Lemma tarjan_correct_witness :
  ∃ s, tarjan (H:=idx_usize) (E:=()) {| bg_edges := [[1; 3]; [2]; [1; 3; 3; 2]; [4]; [3; 5]; []] |} = Ret s ∧
    sccs_map s = [3; 2; 2; 1; 1; 0] ∧
    rtc (gedge {| bg_edges := [[1; 3]; [2]; [1; 3; 3; 2]; [4]; [3; 5]; []] |}) 1 2.
Proof.
  destruct (tarjan_correct (H:=idx_usize) {| bg_edges := [[1; 3]; [2]; [1; 3; 3; 2]; [4]; [3; 5]; []] |})
    as (s & Heq & _ & _ & _ & Hscc & _).
  - apply graph_wfb_wf. reflexivity.
  - vm_compute. discriminate.
  - vm_compute. discriminate.
  - exists s. split; [exact Heq|]. vm_compute in Heq. injection Heq as <-. split; [reflexivity|].
    apply (Hscc 1 2); [simpl; lia|simpl; lia|reflexivity].
Defined.
