(* ===== verification/GraphTests.v ===== *)
(** * The unit tests of the graph algorithms (the [tests] modules of
    [src/src/graph.rs] and [src/src/index.rs])

    The tests of the crate, run on the model: each function is translated with
    its assertions, a failed assertion being a panic.  The oracle of the tests
    of [tarjan], [assert_invariants], is also shown to accept every graph. *)

From S2P Require Import Prelude Index Graph Topo Reduction Scc SccProofs.

#[local] Existing Instance idx_usize.

(** Evaluates each test of a list. *)
Ltac run_tests :=
  repeat apply Forall_cons_2; [vm_compute; reflexivity..|apply Forall_nil_2].

(** ** Helpers *)

Abbreviation test := (exec () ()).
Abbreviation node_set := (gset nat).
Abbreviation dag_edge := (node_set * node_set)%type.

(** [assert_eq!]. *)
Definition assert_eq {A} `{EqDecision A} (a b : A) : test := check (bool_decide (a = b)).

(** [Result::unwrap]. *)
Definition unwrap {E A} (m : exec E A) : exec () A :=
  match m with Ret a => Ret a | NoFuel => NoFuel | _ => Panic end.

Definition unwrap_err {E A} (m : exec E A) : exec () E :=
  match m with Throw e => Ret e | NoFuel => NoFuel | _ => Panic end.

Definition graph (num_nodes : nat) (edges : list (nat * nat)) : exec () BasicGraph :=
  bg ← for_each edges (λ '(from, to) bg,
    l ← vget bg from;
    vset bg from (vpush l to)) (replicate num_nodes []);
  Ret {| bg_edges := bg |}.

Definition set_of (nodes : list nat) : node_set := list_to_set nodes.

Definition sets_of (comps : list (list nat)) : gset node_set := list_to_set (set_of <$> comps).

Definition actual_comps (sccs : SCCS) : gset node_set := sets_of (sccs_comps sccs).

Definition actual_dag_edges (sccs : SCCS) : exec () (gset dag_edge) :=
  for_each (seq 0 (length (sccs_comps sccs))) (λ from edges,
    from_set ← vget (sccs_comps sccs) from;
    '(start, stop) ← vget (vg_nodes (sccs_dag sccs)) from;
    tos ← expect (slice (vg_edges (sccs_dag sccs)) start stop);
    for_each tos (λ to edges,
      to_set ← vget (sccs_comps sccs) to;
      Ret ({[(set_of from_set, set_of to_set)]} ∪ edges)) edges) ∅.

Definition expected_dag_edges (edges : list (list nat * list nat)) : gset dag_edge :=
  list_to_set ((λ '(from, to), (set_of from, set_of to)) <$> edges).

(** The members of one component: each is mapped to it and was in none before. *)
Definition check_component (sccs : SCCS) (cid : nat) (comp : list nat) (seen : gmap nat nat) : exec () (gmap nat nat) :=
  for_each comp (λ node seen,
    c ← vget (sccs_map sccs) node;
    _ ← assert_eq c cid;
    _ ← check (bool_decide (seen !! node = None));
    Ret (<[node:=cid]> seen)) seen.

(** No edge of the graph of components leads back to its component. *)
Definition check_no_self_edge (sccs : SCCS) (from : nat) : test :=
  '(start, stop) ← vget (vg_nodes (sccs_dag sccs)) from;
  tos ← expect (slice (vg_edges (sccs_dag sccs)) start stop);
  for_each tos (λ to _, check (bool_decide (from ≠ to))) ().

Definition assert_invariants (g : BasicGraph) (sccs : SCCS) : test :=
  seen ← for_each (imap pair (sccs_comps sccs)) (λ '(cid, comp) seen, check_component sccs cid comp seen) ∅;
  nodes ← iter_nodes g;
  _ ← for_each nodes (λ node _, check (bool_decide (is_Some ((seen : gmap nat nat) !! node)))) ();
  _ ← assert_eq (length (vg_nodes (sccs_dag sccs))) (length (sccs_comps sccs));
  for_each (seq 0 (length (sccs_comps sccs))) (λ from _, check_no_self_edge sccs from) ().

Definition assert_sccs (g : BasicGraph) (expected_comps : list (list nat))
    (expected_edges : list (list nat * list nat)) : test :=
  sccs ← tarjan g;
  _ ← assert_eq (actual_comps sccs) (sets_of expected_comps);
  _ ← assert_invariants g sccs;
  dag_edges ← actual_dag_edges sccs;
  assert_eq dag_edges (expected_dag_edges expected_edges).

(** The tests that build a graph and compare its components. *)
Definition sccs_test (num_nodes : nat) (edges : list (nat * nat)) (expected_comps : list (list nat))
    (expected_edges : list (list nat * list nat)) : test :=
  g ← graph num_nodes edges;
  assert_sccs g expected_comps expected_edges.

(** ** Tests *)

Definition vec_graph_from_graph_preserves_adjacency_lists : test :=
  source ← graph 5 [(0, 1); (0, 3); (0, 1); (2, 2); (4, 0)];
  compact ← vg_from_graph source;
  _ ← assert_eq (num_nodes compact) 5;
  _ ← assert_eq (num_edges compact) 5;
  nodes ← iter_nodes source;
  for_each nodes (λ node _,
    a ← expect (edges compact node);
    b ← expect (edges source node);
    assert_eq a b) ().

Definition empty_graph : test := sccs_test 0 [] [] [].

Definition found_hard_graph : test :=
  g ← graph 3 [(1, 2)];
  sccs ← tarjan g;
  nodes ← iter_nodes (sccs_dag sccs);
  _ ← for_each nodes (λ node _, _ ← expect (edges (sccs_dag sccs) node); Ret ()) ();
  assert_sccs g [[0]; [1]; [2]] [([1], [2])].

Definition isolated_nodes : test := sccs_test 4 [] [[0]; [1]; [2]; [3]] [].

Definition simple_chain : test :=
  sccs_test 4 [(0, 1); (1, 2); (2, 3)] [[0]; [1]; [2]; [3]] [([0], [1]); ([1], [2]); ([2], [3])].

Definition simple_cycle : test := sccs_test 3 [(0, 1); (1, 2); (2, 0)] [[0; 1; 2]] [].

Definition self_loop : test := sccs_test 1 [(0, 0)] [[0]] [].

Definition disconnected_cycles : test :=
  sccs_test 5 [(0, 1); (1, 0); (2, 3); (3, 4); (4, 2)] [[0; 1]; [2; 3; 4]] [].

Definition edge_between_sccs_does_not_merge_them : test :=
  sccs_test 4 [(0, 1); (1, 0); (1, 2); (2, 3); (3, 2)] [[0; 1]; [2; 3]] [([0; 1], [2; 3])].

Definition diamond_without_back_edges : test :=
  sccs_test 4 [(0, 1); (0, 2); (1, 3); (2, 3)] [[0]; [1]; [2]; [3]]
    [([0], [1]); ([0], [2]); ([1], [3]); ([2], [3])].

Definition diamond_with_back_edge : test :=
  sccs_test 4 [(0, 1); (0, 2); (1, 3); (2, 3); (3, 0)] [[0; 1; 2; 3]] [].

Definition cycle_reaching_tail : test :=
  sccs_test 5 [(0, 1); (1, 2); (2, 0); (2, 3); (3, 4)] [[0; 1; 2]; [3]; [4]]
    [([0; 1; 2], [3]); ([3], [4])].

Definition tail_reaching_cycle : test :=
  sccs_test 4 [(0, 1); (1, 2); (2, 3); (3, 1)] [[0]; [1; 2; 3]] [([0], [1; 2; 3])].

Definition cross_edge_to_done_scc_does_not_corrupt_lowlink : test :=
  sccs_test 4 [(0, 1); (1, 0); (2, 3); (3, 2); (2, 0)] [[0; 1]; [2; 3]] [([2; 3], [0; 1])].

Definition dag_deduplicates_many_edges_between_same_sccs : test :=
  sccs_test 4 [(0, 1); (1, 0); (2, 3); (3, 2); (0, 2); (0, 3); (1, 2); (1, 3)] [[0; 1]; [2; 3]]
    [([0; 1], [2; 3])].

Definition branching_scc_dag : test :=
  sccs_test 6 [(0, 1); (1, 0); (0, 2); (1, 3); (2, 4); (3, 5); (4, 5); (5, 4)] [[0; 1]; [2]; [3]; [4; 5]]
    [([0; 1], [2]); ([0; 1], [3]); ([2], [4; 5]); ([3], [4; 5])].

Definition child_scc_edge_is_recorded_after_child_finishes : test :=
  sccs_test 2 [(0, 1)] [[0]; [1]] [([0], [1])].

Definition finds_cycle : test :=
  g ← graph 4 [(0, 1); (1, 2); (2, 3); (3, 1)];
  cycle ← unwrap_err (topological_order g);
  assert_eq (gc_nodes cycle) [1; 2; 3; 1].

Definition removes_transitive_edges : test :=
  g ← graph 4 [(0, 1); (1, 2); (2, 3); (0, 2); (0, 3); (1, 3)];
  '(reduced, topo) ← unwrap (transitive_reduction g);
  _ ← assert_eq (bg_edges reduced) [[1]; [2]; [3]; []];
  nodes ← iter_nodes g;
  for_each nodes (λ from _,
    tos ← expect (edges g from);
    for_each tos (λ to _,
      a ← vget (topo_map topo) from;
      b ← vget (topo_map topo) to;
      check (bool_decide (a < b))) ()) ().

Definition union_find_cluster_map_is_dense : test :=
  '(map, cluster_count, _) ← cluster_map (H:=idx_u32) [1; 2; 2; 4; 4; 5];
  _ ← assert_eq map [0; 0; 0; 1; 1; 2];
  c ← vget map 3;
  _ ← assert_eq c 1;
  assert_eq cluster_count 3.

Definition union_find_cluster_map_handles_empty_input : test :=
  '(map, cluster_count, _) ← cluster_map (H:=idx_u32) [];
  assert_eq (map, cluster_count) ([], 0).

Definition graph_tests : list test := [
  vec_graph_from_graph_preserves_adjacency_lists; empty_graph; found_hard_graph; isolated_nodes;
  simple_chain; simple_cycle; self_loop; disconnected_cycles; edge_between_sccs_does_not_merge_them;
  diamond_without_back_edges; diamond_with_back_edge; cycle_reaching_tail; tail_reaching_cycle;
  cross_edge_to_done_scc_does_not_corrupt_lowlink; dag_deduplicates_many_edges_between_same_sccs;
  branching_scc_dag; child_scc_edge_is_recorded_after_child_finishes; finds_cycle;
  removes_transitive_edges; union_find_cluster_map_is_dense; union_find_cluster_map_handles_empty_input].

Lemma graph_tests_pass : Forall (λ t, t = Ret ()) graph_tests.
Proof. unfold graph_tests. run_tests. Qed.

(** ** The oracle accepts every graph *)

Section oracle.
  Context (g : BasicGraph) (s : SCCS) (Hs : is_sccs g s).

Lemma component_member c ms x : sccs_comps s !! c = Some ms → x ∈ ms ↔ sccs_map s !! x = Some c.
Proof. destruct Hs as (_ & _ & Hmem & _). intros Hc. by apply (Hmem c ms Hc). Qed.

(** The nodes of the components before [c]. *)
Definition seen_before (c : nat) (seen : gmap nat nat) : Prop :=
  ∀ x d, seen !! x = Some d ↔ d < c ∧ sccs_map s !! x = Some d.

Lemma check_component_spec c ms seen (P : gmap nat nat → Prop) :
  sccs_comps s !! c = Some ms → seen_before c seen → (∀ seen', seen_before (S c) seen' → P seen') →
  wp (check_component s c ms seen) P (λ _, False).
Proof.
  intros Hc Hseen HP. destruct Hs as (_ & _ & Hmem & _). destruct (Hmem c ms Hc) as (_ & Hnd & Hin).
  apply (wp_for_each (λ pre seen', ∀ x d, seen' !! x = Some d ↔ seen !! x = Some d ∨ (d = c ∧ x ∈ pre))).
  - set_solver.
  - intros pre x post seen' Hms Hseen'. assert (Hx : sccs_map s !! x = Some c) by (apply Hin; rewrite Hms; set_solver).
    apply wp_bind, (wp_expect _ c); [done|]. apply wp_bind, wp_check; [by apply bool_decide_true|].
    apply wp_bind, wp_check.
    { apply bool_decide_true. destruct (seen' !! x) as [d|] eqn:Hd; [exfalso|done].
      apply Hseen' in Hd as [[? Hd]%Hseen|[-> Hd]]; [simplify_eq; lia|].
      rewrite Hms in Hnd. apply NoDup_app in Hnd as (_ & Hnd & _). apply (Hnd x Hd). left. }
    apply wp_ret. intros y d. rewrite lookup_insert_Some, Hseen', elem_of_app, list_elem_of_singleton.
    destruct (decide (x = y)) as [->|]; [|naive_solver]. split; [naive_solver|].
    intros [[? Hd]%Hseen|[-> _]]; [simplify_eq; lia|by left].
  - intros seen' Hseen'. apply HP. intros x d. pose proof (Hseen x d) as Hx'.
    rewrite Hseen', Hx', Hin. clear Hx'. split; [naive_solver lia|].
    intros [Hd Hx]. destruct (decide (d = c)) as [->|]; [by right|left; split; [lia|done]].
Qed.

Lemma check_no_self_edge_spec c : c < length (sccs_comps s) → wp (check_no_self_edge s c) (λ _, True) (λ _, False).
Proof.
  intros Hc. destruct Hs as (_ & _ & _ & _ & _ & Hdag). destruct (Hdag c Hc) as (es & Hes & _ & Hin).
  change (full_edges (sccs_dag s) c = Some es) in Hes. unfold full_edges in Hes.
  apply bind_Some in Hes as ([start stop] & Hnode & Hslice). unfold check_no_self_edge.
  apply wp_bind, (wp_expect _ (start, stop)); [done|]. apply wp_bind, (wp_expect _ es); [done|].
  apply (wp_for_each (λ _ _, True)); [done| |done]. intros pre d post _ Heq _. apply wp_check; [|done].
  apply bool_decide_true. intros <-. assert (Hcc : c ∈ es) by (rewrite Heq; set_solver).
  apply Hin in Hcc as [? _]. done.
Qed.

Lemma invariants_accepted : idx_room (num_nodes g) → assert_invariants g s = Ret ().
Proof.
  intros Hroom. pose proof Hs as (Hlen & Hmap & _ & _ & Hdag & _).
  assert (Hwp : wp (assert_invariants g s) (λ _, True) (λ _, False)).
  { unfold assert_invariants. apply wp_bind.
    apply (wp_for_each (λ pre seen, seen_before (length pre) seen)).
    - intros x d. rewrite lookup_empty. split; [done|]. intros [Hd _]. simpl in Hd. lia.
    - intros pre [c ms] post seen Heq Hseen.
      assert (Hc : imap pair (sccs_comps s) !! length pre = Some (c, ms)) by (rewrite Heq; by rewrite list_lookup_middle).
      rewrite list_lookup_imap in Hc. apply fmap_Some in Hc as (ms' & Hc & [= -> ->]).
      apply check_component_spec; [done|done|]. intros seen' Hseen'. rewrite length_app. simpl. by rewrite Nat.add_1_r.
    - intros seen Hseen. rewrite length_imap in Hseen. apply wp_bind. rewrite iter_nodes_ret by done. apply wp_ret.
      apply wp_bind, (wp_for_each (λ _ _, True)); [done| |].
      + intros pre x post _ Hx _. apply seq_split in Hx as [_ Hx]. apply wp_check; [|done]. apply bool_decide_true.
        destruct (lookup_lt_is_Some_2 (sccs_map s) x) as [c Hc]; [lia|]. exists c. apply Hseen. split; [by eapply Hmap|done].
      + intros _ _. apply wp_bind, wp_check; [by apply bool_decide_true|].
        apply (wp_for_each (λ _ _, True)); [done| |done].
        intros pre c post _ Hc _. apply seq_split in Hc as [_ Hc]. by apply check_no_self_edge_spec. }
  apply wp_total in Hwp as ([] & Heq & _). done.
Qed.

End oracle.

(** The assertions that the tests make about the components of their graphs
    hold for the components of every graph. *)
Theorem invariants_hold (g : BasicGraph) :
  graph_wf g → idx_fits (num_nodes g) → (N.of_nat (num_nodes g) <= usize_MAX)%N →
  ∃ s, tarjan (E:=()) g = Ret s ∧ assert_invariants g s = Ret ().
Proof.
  intros Hg Hroom Husize.
  assert (Hwp : wp (tarjan (E:=()) g) (λ s, assert_invariants g s = Ret ()) (λ _, False)).
  { apply tarjan_spec; [done..|]. intros s Hs. by apply invariants_accepted; [|apply Hg]. }
  apply wp_total in Hwp as (s & ? & ?). by exists s.
Qed.
