(* ===== verification/Model.v ===== *)
(** * The test model ([src/src/model.rs])

    Atoms, tasks and the compiled setup.  Strings stand for the [&'static str]
    texts, [N] for the unsigned fields ([u32], [usize]), [Z] for [i32]. *)

From S2P Require Import Prelude Index Graph.

Abbreviation Text := string.

(** [Option<NonZero<u32>>]. *)
Abbreviation ErrCode := (option positive).

Record MockFd := { mock_id : N }.

Inductive IpFamily := V4 | V6.

Inductive ShutdownHow := ShutRead | ShutWrite | ShutBoth.

(** [std::net::SocketAddr]. *)
Inductive SocketAddr :=
| SockV4 (ip port : N)
| SockV6 (ip port flowinfo scope_id : N).

Inductive AtomData :=
| Open (file : MockFd) (path : Text)
| TcpSocket (family : IpFamily)
| Bind (socket : MockFd) (address : SocketAddr)
| Listen (socket : MockFd) (backlog : Z)
| Connect (socket : MockFd) (address : SocketAddr)
| Accept (socket : MockFd)
| Shutdown (socket : MockFd) (how : ShutdownHow)
| Read (file : MockFd) (expected : Text) (size : N)
| Write (file : MockFd) (text : Text) (size : N)
| Close (file : MockFd)
| DebugName (name : Text).

Record Atom := { atom_data : AtomData; atom_error : ErrCode }.

Inductive Task :=
| TAtom (atom : Atom)
| TOrdered (children : list nat)
| TUnordered (children : list nat).

Record TaskInfo := {
  ti_tasks : list Task;
  ti_happens_before : gmap nat (list nat);
  ti_file_count : N;
}.

Definition task_info_default : TaskInfo :=
  {| ti_tasks := []; ti_happens_before := ∅; ti_file_count := 0 |}.

(** [new_file]: [checked_add(1).expect("too many files")]. *)
Definition new_file {E} (info : TaskInfo) : exec E (MockFd * TaskInfo) :=
  let file := {| mock_id := ti_file_count info |} in
  if decide (ti_file_count info < u32_MAX)%N then
    Ret (file, {| ti_tasks := ti_tasks info;
                  ti_happens_before := ti_happens_before info;
                  ti_file_count := ti_file_count info + 1 |})
  else Panic.

Record CompiledSetup := {
  cs_atoms : list Atom;
  cs_file_count : N;
  cs_after_graph : VecGraph;
  cs_before_graph : VecGraph;
}.

(** [new_file] called [k] times. *)
Fixpoint new_files {E} (k : nat) (info : TaskInfo) : exec E (list MockFd * TaskInfo) :=
  match k with
  | 0 => Ret ([], info)
  | S k =>
      '(file, info) ← new_file info;
      '(files, info) ← new_files k info;
      Ret (file :: files, info)
  end.

(** ** Properties *)

(** Successive [new_file] calls hand out consecutive, hence distinct,
    descriptors from the current count, as long as the [u32] counter does not
    overflow; the call that would overflow it panics. *)
Theorem new_files_dense k info :
  (ti_file_count info + N.of_nat k <= u32_MAX)%N →
  ∃ files info', new_files (E:=()) k info = Ret (files, info') ∧
    files = (λ i, {| mock_id := ti_file_count info + N.of_nat i |}) <$> seq 0 k ∧
    NoDup files ∧ ti_file_count info' = (ti_file_count info + N.of_nat k)%N ∧
    ti_tasks info' = ti_tasks info ∧
    ((ti_file_count info + N.of_nat k)%N = u32_MAX → new_file (E:=()) info' = Panic).
Proof.
  intros Hk.
  assert (Hrun : ∀ k info, (ti_file_count info + N.of_nat k <= u32_MAX)%N →
    new_files (E:=()) k info =
      Ret ((λ i, {| mock_id := ti_file_count info + N.of_nat i |}) <$> seq 0 k,
           {| ti_tasks := ti_tasks info; ti_happens_before := ti_happens_before info;
              ti_file_count := ti_file_count info + N.of_nat k |})).
  { clear. induction k as [|k IH]; intros info Hk.
    - simpl. destruct info; simpl in *. by rewrite N.add_0_r.
    - simpl new_files. unfold new_file at 1. rewrite decide_True by lia. simpl.
      rewrite IH by (simpl; lia). simpl. rewrite N.add_0_r, <-(fmap_S_seq 0), <-list_fmap_compose.
      f_equal. f_equal.
      + f_equal. apply list_fmap_ext. intros i x _. simpl. f_equal. lia.
      + f_equal. lia. }
  rewrite Hrun by done. eexists _, _. split; [done|]. split; [done|]. split_and!; try done.
  - apply NoDup_fmap_2_strong; [|apply NoDup_seq]. intros i j _ _ [= Heq]. lia.
  - intros Hmax. unfold new_file. simpl. rewrite decide_False by lia. done.
Qed.

Lemma new_files_dense_witness :
  ∃ files info', new_files (E:=()) 2 task_info_default = Ret (files, info') ∧
    files = [{| mock_id := 0 |}; {| mock_id := 1 |}] ∧ ti_file_count info' = 2%N.
Proof.
  destruct (new_files_dense 2 task_info_default) as (files & info' & Heq & Hf & _ & Hc & _).
  - vm_compute. discriminate.
  - exists files, info'. split; [exact Heq|]. split; [rewrite Hf; reflexivity|exact Hc].
Defined.
