(* ===== verification/Compiler.v ===== *)
(** * The test compiler ([src/src/compiler.rs])

    [TaskInfo::compile], phase by phase.  Task and atom identifiers are [u32]
    indices, so the graphs are indexed by [idx_u32]. *)

From S2P Require Import Prelude Index Graph Topo Reduction Model.

#[export] Existing Instance idx_u32 | 0.

(** ** Local types of [compile] *)

Record Boundary := { entries : list nat; exits : list nat }.

Inductive State := SNotSeen | SOnStack | SDone.

Record BoundaryBuild := {
  bb_boundaries : list (option Boundary);
  bb_states : list State;
  bb_stack : list nat;
  bb_stack_positions : list nat;
  bb_atom_edges : list (gset nat);
}.

(** ** Local functions of [compile] *)

(** [edges[from].extend(xs)] on an array of sets. *)
Definition extend_set {E} (edges : list (gset nat)) (from : nat) (xs : list nat) : exec E (list (gset nat)) :=
  s ← vget edges from;
  vset edges from (s ∪ list_to_set xs).

(** Adds every edge from [exits] to every node in [entries]. *)
Definition connect {E} (edges : list (gset nat)) (exits entries : list nat) : exec E (list (gset nat)) :=
  for_each exits (λ from edges,
    for_each entries (λ to edges, extend_set edges from [to]) edges) edges.

Definition deduplicate (values : list nat) : list nat := dedup (sort_nat values).

(** The loop over the children of an [Unordered] task; [rec] is
    [build_boundary]. *)
Definition unordered_child
    (rec : nat → BoundaryBuild → exec GraphCycle (Boundary * BoundaryBuild))
    (child_idx : nat) (st : list nat * list nat * BoundaryBuild)
    : exec GraphCycle (list nat * list nat * BoundaryBuild) :=
  let '(ens, exs, build) := st in
  '(child, build) ← rec child_idx build;
  Ret (ens ++ entries child, exs ++ exits child, build).

(** The loop over the children of an [Ordered] task. *)
Definition ordered_child
    (rec : nat → BoundaryBuild → exec GraphCycle (Boundary * BoundaryBuild))
    (child_idx : nat) (st : list nat * option (list nat) * BoundaryBuild)
    : exec GraphCycle (list nat * option (list nat) * BoundaryBuild) :=
  let '(ens, previous_exits, build) := st in
  '(child, build) ← rec child_idx build;
  if decide (entries child = []) then Ret (ens, previous_exits, build)
  else
    let ens := if decide (ens = []) then entries child else ens in
    atom_edges ←
      match previous_exits with
      | Some previous => connect (bb_atom_edges build) previous (entries child)
      | None => Ret (bb_atom_edges build)
      end;
    Ret (ens, Some (exits child),
      {| bb_boundaries := bb_boundaries build;
         bb_states := bb_states build;
         bb_stack := bb_stack build;
         bb_stack_positions := bb_stack_positions build;
         bb_atom_edges := atom_edges |}).

(** The [match &tasks[idx]] of [build_boundary]. *)
Definition task_boundary
    (rec : nat → BoundaryBuild → exec GraphCycle (Boundary * BoundaryBuild))
    (tasks : list Task) (atoms_map : list nat) (idx : nat) (build : BoundaryBuild)
    : exec GraphCycle (Boundary * BoundaryBuild) :=
  task ← vget tasks idx;
  match task with
  | TAtom _ =>
      atom ← vget atoms_map idx;
      Ret ({| entries := [atom]; exits := [atom] |}, build)
  | TUnordered children =>
      '(ens, exs, build) ← for_each children (unordered_child rec) ([], [], build);
      Ret ({| entries := deduplicate ens; exits := deduplicate exs |}, build)
  | TOrdered children =>
      '(ens, previous_exits, build) ← for_each children (ordered_child rec) ([], None, build);
      Ret ({| entries := ens; exits := default [] previous_exits |}, build)
  end.

(** Marking a task [OnStack], and [Done] with its boundary. *)
Definition enter_task {E} (idx : nat) (build : BoundaryBuild) : exec E BoundaryBuild :=
  states ← vset (bb_states build) idx SOnStack;
  positions ← vset (bb_stack_positions build) idx (length (bb_stack build));
  Ret {| bb_boundaries := bb_boundaries build;
         bb_states := states;
         bb_stack := vpush (bb_stack build) idx;
         bb_stack_positions := positions;
         bb_atom_edges := bb_atom_edges build |}.

Definition leave_task {E} (idx : nat) (boundary : Boundary) (build : BoundaryBuild) : exec E BoundaryBuild :=
  let stack := match vpop (bb_stack build) with Some (_, s) => s | None => [] end in
  states ← vset (bb_states build) idx SDone;
  boundaries ← vset (bb_boundaries build) idx (Some boundary);
  Ret {| bb_boundaries := boundaries;
         bb_states := states;
         bb_stack := stack;
         bb_stack_positions := bb_stack_positions build;
         bb_atom_edges := bb_atom_edges build |}.

(** The fuel bounds the recursion depth, which containment cycles cannot
    exceed because a task on the stack stops the recursion. *)
Fixpoint build_boundary (tasks : list Task) (atoms_map : list nat) (fuel : nat)
    (idx : nat) (build : BoundaryBuild) : exec GraphCycle (Boundary * BoundaryBuild) :=
  match fuel with
  | 0 => NoFuel
  | S fuel =>
      state ← vget (bb_states build) idx;
      match state with
      | SOnStack =>
          start ← vget (bb_stack_positions build) idx;
          nodes ← expect (slice (bb_stack build) start (length (bb_stack build)));
          Throw {| gc_nodes := vpush nodes idx |}
      | SDone =>
          boundary ← vget (bb_boundaries build) idx;
          boundary ← expect boundary;
          Ret (boundary, build)
      | SNotSeen =>
          build ← enter_task idx build;
          '(boundary, build) ← task_boundary (build_boundary tasks atoms_map fuel) tasks atoms_map idx build;
          build ← leave_task idx boundary build;
          Ret (boundary, build)
      end
  end.

(** ** Phases of [compile] *)

Definition is_atom (task : Task) : bool :=
  match task with TAtom _ => true | _ => false end.

(** Atom tasks packed in task-index order; [atoms_map] is 0 on composites. *)
Definition pack_atoms {E} (tasks : list Task) : exec E (list Atom * list nat) :=
  '(atoms, atoms_map, _) ←
    for_each tasks (λ task '(atoms, atoms_map, count),
      match task with
      | TAtom atom =>
          _ ← check (bool_decide (N.of_nat count < u32_MAX)%N);
          Ret (vpush atoms atom, vpush atoms_map count, S count)
      | _ => Ret (atoms, vpush atoms_map 0, count)
      end) ([], [], 0);
  Ret (atoms, atoms_map).

(** Intrinsic boundaries and nested atom ordering. *)
Definition compute_boundaries (tasks : list Task) (atoms_map : list nat) (atom_count : nat)
    : exec GraphCycle BoundaryBuild :=
  for_each (seq 0 (length tasks)) (λ task_idx build,
    '(_, build) ← build_boundary tasks atoms_map (S (length tasks)) (as_u32 task_idx) build;
    Ret build)
    {| bb_boundaries := replicate (length tasks) None;
       bb_states := replicate (length tasks) SNotSeen;
       bb_stack := [];
       bb_stack_positions := replicate (length tasks) 0;
       bb_atom_edges := replicate atom_count ∅ |}.

(** [children.windows(2)]. *)
Definition windows2 (children : list nat) : list (nat * nat) := zip children (tail children).

Section compile.
  Context `{HashOrder}.

(** The task-level ordering graph: explicit constraints and consecutive
    children of [Ordered] tasks. *)
Definition build_task_edges {E} (info : TaskInfo) : exec E (list (gset nat)) :=
  task_edges ←
    for_each (hash_iter [0] (dom (ti_happens_before info))) (λ from task_edges,
      destinations ← expect (ti_happens_before info !! from);
      extend_set task_edges from destinations)
      (replicate (length (ti_tasks info)) ∅);
  for_each (ti_tasks info) (λ task task_edges,
    match task with
    | TOrdered children =>
        for_each (windows2 children) (λ '(a, b) task_edges, extend_set task_edges a [b]) task_edges
    | _ => Ret task_edges
    end) task_edges.

(** [boundaries[i].as_ref().unwrap()]. *)
Definition get_boundary {E} (boundaries : list (option Boundary)) (i : nat) : exec E Boundary :=
  b ← vget boundaries i; expect b.

(** One turn of the worklist that follows the task edges of [from] through
    empty tasks.  The state is [(seen, stack, atom_edges)]. *)
Definition follow_step {E} (boundaries : list (option Boundary)) (task_edges : list (gset nat))
    (from : nat) (source : Boundary) (st : list bool * list nat * list (gset nat))
    : exec E ((list bool * list nat * list (gset nat)) + list (gset nat)) :=
  let '(seen, stack, atom_edges) := st in
  match vpop stack with
  | None => Ret (inr atom_edges)
  | Some (to, stack) =>
      s ← vget seen to;
      if s : bool then Ret (inl (seen, stack, atom_edges))
      else
        seen ← vset seen to true;
        destination ← get_boundary boundaries to;
        if decide (entries destination = []) then
          next ← vget task_edges to;
          Ret (inl (seen, stack ++ hash_iter [2; from; to] next, atom_edges))
        else
          atom_edges ← connect atom_edges (exits source) (entries destination);
          Ret (inl (seen, stack, atom_edges))
  end.

(** Enough turns: every task edge is pushed at most twice and popped once. *)
Definition follow_fuel (task_edges : list (gset nat)) : nat :=
  S (2 * sum_list_with size task_edges).

Definition contract_from {E} (boundaries : list (option Boundary)) (task_edges : list (gset nat))
    (from : nat) (atom_edges : list (gset nat)) : exec E (list (gset nat)) :=
  source ← get_boundary boundaries from;
  if decide (entries source = []) then Ret atom_edges
  else
    start ← vget task_edges from;
    loop (follow_step boundaries task_edges from source) (follow_fuel task_edges)
      (replicate (length boundaries) false, hash_iter [1; from] start, atom_edges).

Definition contract_empty {E} (boundaries : list (option Boundary)) (task_edges : list (gset nat))
    (atom_edges : list (gset nat)) : exec E (list (gset nat)) :=
  for_each (seq 0 (as_u32 (length boundaries))) (contract_from boundaries task_edges) atom_edges.

(** The task indices of the atoms, in packing order. *)
Definition atom_tasks_of (tasks : list Task) : list nat :=
  omap (λ '(task, value), if is_atom value then Some (as_u32 task) else None) (imap pair tasks).

(** Adds the atom edges between different atoms to the task graph. *)
Definition add_atom_edges {E} (atom_tasks : list nat) (atom_edges task_edges : list (gset nat))
    : exec E (list (gset nat)) :=
  for_each (imap pair atom_edges) (λ '(from, destinations) task_edges,
    from_task ← vget atom_tasks from;
    to_tasks ← mapM (vget atom_tasks) (hash_iter [3; from] destinations);
    extend_set task_edges from_task (filter (λ to_task, from_task ≠ to_task) to_tasks)) task_edges.

(** Each set as a sorted list, packed. *)
Definition pack_sets {E} (site : nat) (sets : list (gset nat)) : exec E VecGraph :=
  vg_from_adjacency_lists (imap (λ i s, sort_nat (hash_iter [site; i] s)) sets).

(** The atoms in the order of the task graph, with their positions. *)
Definition order_atoms {E} (tasks : list Task) (atoms_map : list nat) (atom_count : nat)
    (task_order : TopologicalOrder) : exec E TopologicalOrder :=
  order ← mapM (λ task,
    value ← vget tasks task;
    if is_atom value then (atom ← vget atoms_map task; Ret [atom]) else Ret []) (topo_order task_order);
  let order := mjoin order in
  map ← for_each (imap pair order) (λ '(index, atom) map, vset map atom (as_u32 index))
    (seq 0 (as_u32 atom_count));
  Ret {| topo_order := order; topo_map := map |}.

(** The reduced graph renumbered by position. *)
Definition remap_graph {E} (atom_order : TopologicalOrder) (reduced : BasicGraph) : exec E VecGraph :=
  lists ← mapM (λ from,
    es ← expect (edges reduced from);
    mapM (vget (topo_map atom_order)) es) (topo_order atom_order);
  vg_from_adjacency_lists lists.

(** The transposed graph. *)
Definition transpose {E} (after_graph : VecGraph) : exec E VecGraph :=
  nodes ← iter_nodes after_graph;
  before_edges ← for_each nodes (λ from before_edges,
    es ← expect (edges after_graph from);
    for_each es (λ to before_edges,
      l ← vget before_edges to;
      vset before_edges to (vpush l from)) before_edges)
    (replicate (num_nodes after_graph) []);
  vg_from_adjacency_lists before_edges.

Definition compile (info : TaskInfo) : exec GraphCycle CompiledSetup :=
  let tasks := ti_tasks info in
  '(atoms, atoms_map) ← pack_atoms tasks;
  build ← compute_boundaries tasks atoms_map (length atoms);
  task_edges ← build_task_edges info;
  atom_edges ← contract_empty (bb_boundaries build) task_edges (bb_atom_edges build);
  task_edges ← add_atom_edges (atom_tasks_of tasks) atom_edges task_edges;
  task_graph ← pack_sets 4 task_edges;
  task_order ← topological_order task_graph;
  atom_graph ← pack_sets 5 atom_edges;
  atom_order ← order_atoms tasks atoms_map (length atoms) task_order;
  reduced ← transitive_solved_reduction atom_graph atom_order;
  ordered_atoms ← mapM (vget atoms) (topo_order atom_order);
  after_graph ← remap_graph atom_order reduced;
  before_graph ← transpose after_graph;
  Ret {| cs_atoms := ordered_atoms;
         cs_file_count := ti_file_count info;
         cs_after_graph := after_graph;
         cs_before_graph := before_graph |}.

End compile.

(** A concrete iteration order, for evaluation. *)
Definition hash_elements : HashOrder := {|
  hash_iter _ s := elements s;
  hash_iter_perm _ s := reflexivity _;
|}.

(** [tests::dependencies_use_group_boundaries]. *)
Definition debug_atom (name : Text) : Task :=
  TAtom {| atom_data := DebugName name; atom_error := None |}.
Definition sample_groups : TaskInfo := {|
  ti_tasks := [debug_atom "a"; debug_atom "b"; debug_atom "c"; debug_atom "d";
               TUnordered [0; 1]; TOrdered [2; 3]];
  ti_happens_before := {[4 := [5]]};
  ti_file_count := 0;
|}.
