(* ===== verification/TaskOrder.v ===== *)
(** * What the order of a test means

    The abstract contract of [TaskInfo::compile]: which atoms a test requires
    to execute before which others, stated on the task description alone.
    [Compiler] computes it; [CompilerProofs] shows that it does. *)

From S2P Require Import Prelude Index Graph Model Compiler.

(** ** Tasks and the atoms they contain *)

Definition children_of (ts : list Task) (t : nat) : list nat :=
  match ts !! t with
  | Some (TOrdered cs) | Some (TUnordered cs) => cs
  | _ => []
  end.

Definition child (ts : list Task) (t c : nat) : Prop := c ∈ children_of ts t.

Definition atom_task (ts : list Task) (a : nat) : Prop := ∃ at', ts !! a = Some (TAtom at').

Definition in_task (ts : list Task) (t a : nat) : Prop := rtc (child ts) t a ∧ atom_task ts a.

Definition empty_task (ts : list Task) (t : nat) : Prop := ∀ a, ¬ in_task ts t a.

(** Containment below [t] is well-founded. *)
Definition nested (ts : list Task) (t : nat) : Prop := Acc (λ c t, child ts t c) t.

(** The atoms of a task that may execute first, and last. *)
Inductive first_atom (ts : list Task) : nat → nat → Prop :=
| first_self a : atom_task ts a → first_atom ts a a
| first_unordered t cs c a :
    ts !! t = Some (TUnordered cs) → c ∈ cs → first_atom ts c a → first_atom ts t a
| first_ordered t pre c post a :
    ts !! t = Some (TOrdered (pre ++ c :: post)) → Forall (empty_task ts) pre →
    first_atom ts c a → first_atom ts t a.

Inductive last_atom (ts : list Task) : nat → nat → Prop :=
| last_self a : atom_task ts a → last_atom ts a a
| last_unordered t cs c a :
    ts !! t = Some (TUnordered cs) → c ∈ cs → last_atom ts c a → last_atom ts t a
| last_ordered t pre c post a :
    ts !! t = Some (TOrdered (pre ++ c :: post)) → Forall (empty_task ts) post →
    last_atom ts c a → last_atom ts t a.

(** ** The required order *)

(** Explicit constraints, and consecutive children of [Ordered] tasks. *)
Inductive task_edge (info : TaskInfo) (u v : nat) : Prop :=
| task_edge_explicit ds : ti_happens_before info !! u = Some ds → v ∈ ds → task_edge info u v
| task_edge_ordered t pre post :
    ti_tasks info !! t = Some (TOrdered (pre ++ u :: v :: post)) → task_edge info u v.

(** A constraint passes through tasks that contain no atoms. *)
Inductive leads_to (info : TaskInfo) : nat → nat → Prop :=
| leads_once u v : task_edge info u v → leads_to info u v
| leads_through u e v :
    task_edge info u e → empty_task (ti_tasks info) e → leads_to info e v → leads_to info u v.

(** Every atom of a task precedes every atom of a task it leads to. *)
Definition before (info : TaskInfo) (a b : nat) : Prop :=
  ∃ u v, in_task (ti_tasks info) u a ∧ in_task (ti_tasks info) v b ∧ leads_to info u v.

(** The edges a compiler needs: from the last atoms of a task to the first
    atoms of a task it leads to. *)
Definition boundary_edge (info : TaskInfo) (a b : nat) : Prop :=
  ∃ u v, last_atom (ti_tasks info) u a ∧ first_atom (ti_tasks info) v b ∧ leads_to info u v.

(** Task references are in range. *)
Definition info_wf (info : TaskInfo) : Prop :=
  (N.of_nat (length (ti_tasks info)) <= u32_MAX)%N ∧
  (∀ t c, child (ti_tasks info) t c → c < length (ti_tasks info)) ∧
  (∀ u ds, ti_happens_before info !! u = Some ds →
     u < length (ti_tasks info) ∧ Forall (λ v, v < length (ti_tasks info)) ds).

(** A test for [info_wf]. *)
Definition info_wfb (info : TaskInfo) : bool :=
  (N.of_nat (length (ti_tasks info)) <=? u32_MAX)%N &&
  forallb (λ t, forallb (λ c, c <? length (ti_tasks info)) (children_of (ti_tasks info) t))
    (seq 0 (length (ti_tasks info))) &&
  forallb (λ '(u, ds), (u <? length (ti_tasks info)) &&
                       forallb (λ v, v <? length (ti_tasks info)) ds)
    (map_to_list (ti_happens_before info)).

(** ** Lemmas *)

Lemma info_wfb_wf info : info_wfb info = true → info_wf info.
Proof.
  unfold info_wfb. rewrite !andb_true_iff, N.leb_le, !forallb_forall. intros [[Hn Hc] Hh].
  split_and!; [done| |].
  - intros t c Htc. unfold child in Htc. pose proof Htc as Htc'. unfold children_of in Htc'.
    destruct (ti_tasks info !! t) eqn:Ht; [|by apply elem_of_nil in Htc'].
    apply lookup_lt_Some in Ht. specialize (Hc t). rewrite in_seq, forallb_forall in Hc.
    apply Nat.ltb_lt, Hc; [lia|]. by apply list_elem_of_In.
  - intros u ds Hu. specialize (Hh (u, ds)). rewrite andb_true_iff, Nat.ltb_lt, forallb_forall in Hh.
    destruct Hh as [Hlt Hds]; [by apply list_elem_of_In, elem_of_map_to_list|].
    split; [done|]. apply Forall_forall. intros v Hv. by apply Nat.ltb_lt, Hds, list_elem_of_In.
Qed.

Section tasks.
  Context (ts : list Task).

Lemma in_task_self a : atom_task ts a → in_task ts a a.
Proof. by split. Qed.

Lemma in_task_child t c a : child ts t c → in_task ts c a → in_task ts t a.
Proof. intros Htc [Hca Ha]. split; [by eapply rtc_l|done]. Qed.

Lemma atom_no_child a c : atom_task ts a → ¬ child ts a c.
Proof. intros [? Ha]. unfold child, children_of. rewrite Ha. apply not_elem_of_nil. Qed.

Lemma in_task_inv t a : in_task ts t a →
  (t = a ∧ atom_task ts a) ∨ ∃ c, child ts t c ∧ in_task ts c a.
Proof. intros [Hp Ha]. inversion Hp as [|? c ? Htc Hca]; subst; [by left|right; exists c; by split]. Qed.

Lemma child_unordered t cs c : ts !! t = Some (TUnordered cs) → child ts t c ↔ c ∈ cs.
Proof. intros Ht. unfold child, children_of. by rewrite Ht. Qed.

Lemma child_ordered t cs c : ts !! t = Some (TOrdered cs) → child ts t c ↔ c ∈ cs.
Proof. intros Ht. unfold child, children_of. by rewrite Ht. Qed.

Lemma first_in_task t a : first_atom ts t a → in_task ts t a.
Proof.
  induction 1 as [a Ha|t cs c a Ht Hc _ IH|t pre c post a Ht _ _ IH].
  - by apply in_task_self.
  - eapply in_task_child; [|done]. by apply (child_unordered _ _ _ Ht).
  - eapply in_task_child; [|done]. apply (child_ordered _ _ _ Ht). set_solver.
Qed.

Lemma last_in_task t a : last_atom ts t a → in_task ts t a.
Proof.
  induction 1 as [a Ha|t cs c a Ht Hc _ IH|t pre c post a Ht _ _ IH].
  - by apply in_task_self.
  - eapply in_task_child; [|done]. by apply (child_unordered _ _ _ Ht).
  - eapply in_task_child; [|done]. apply (child_ordered _ _ _ Ht). set_solver.
Qed.

(** In a list of tasks that are empty or not, the first that is not. *)
Lemma split_first_nonempty cs :
  Forall (λ c, empty_task ts c ∨ ∃ a, first_atom ts c a) cs →
  Forall (empty_task ts) cs ∨
  ∃ pre c post a, cs = pre ++ c :: post ∧ Forall (empty_task ts) pre ∧ first_atom ts c a.
Proof.
  induction 1 as [|c cs [Hc|[a Ha]] _ IH]; [by left| |].
  - destruct IH as [?|(pre & c' & post & a & -> & ? & ?)]; [left; by constructor|right].
    exists (c :: pre), c', post, a. split_and!; [done|by constructor|done].
  - right. by exists [], c, cs, a.
Qed.

Lemma split_last_nonempty cs :
  Forall (λ c, empty_task ts c ∨ ∃ a, last_atom ts c a) cs →
  Forall (empty_task ts) cs ∨
  ∃ pre c post a, cs = pre ++ c :: post ∧ Forall (empty_task ts) post ∧ last_atom ts c a.
Proof.
  induction cs as [|c cs IH] using rev_ind; [by left|]. intros Hall.
  apply Forall_app in Hall as [Hcs Hc]. apply Forall_singleton in Hc as [Hc|[a Ha]].
  - destruct (IH Hcs) as [?|(pre & c' & post & a & -> & ? & ?)].
    + left. apply Forall_app. split; [done|by constructor].
    + right. exists pre, c', (post ++ [c]), a. split_and!; [by rewrite <-app_assoc| |done].
      apply Forall_app. split; [done|by constructor].
  - right. by exists cs, c, [], a.
Qed.

Lemma first_or_empty t : nested ts t → empty_task ts t ∨ ∃ a, first_atom ts t a.
Proof.
  induction 1 as [t _ IH]. destruct (ts !! t) as [[at'|cs|cs]|] eqn:Ht.
  - right. exists t. apply first_self. by exists at'.
  - destruct (split_first_nonempty cs) as [Hall|(pre & c & post & a & -> & Hpre & Ha)].
    + apply Forall_forall. intros c Hc. apply IH. by apply (child_ordered _ _ _ Ht).
    + left. intros a [[<- [? Ha]]|(c & Hc & Hca)]%in_task_inv; [congruence|].
      apply (child_ordered _ _ _ Ht) in Hc. rewrite Forall_forall in Hall. by eapply Hall.
    + right. exists a. by eapply first_ordered.
  - destruct (split_first_nonempty cs) as [Hall|(pre & c & post & a & -> & Hpre & Ha)].
    + apply Forall_forall. intros c Hc. apply IH. by apply (child_unordered _ _ _ Ht).
    + left. intros a [[<- [? Ha]]|(c & Hc & Hca)]%in_task_inv; [congruence|].
      apply (child_unordered _ _ _ Ht) in Hc. rewrite Forall_forall in Hall. by eapply Hall.
    + right. exists a. eapply first_unordered; [done| |done]. set_solver.
  - left. intros a [[<- [? Ha]]|(c & Hc & Hca)]%in_task_inv; [congruence|].
    unfold child, children_of in Hc. rewrite Ht in Hc. by apply elem_of_nil in Hc.
Qed.

Lemma first_nonempty t a : nested ts t → in_task ts t a → ∃ f, first_atom ts t f.
Proof. intros [He|?]%first_or_empty Ha; [by apply He in Ha|done]. Qed.

End tasks.

(** *** Consecutive children *)

Lemma windows2_elem cs u v : (u, v) ∈ windows2 cs ↔ ∃ pre post, cs = pre ++ u :: v :: post.
Proof.
  unfold windows2. split.
  - induction cs as [|x cs IH]; simpl; [by intros ?%elem_of_nil|].
    destruct cs as [|y cs]; simpl in *; [by intros ?%elem_of_nil|].
    intros [[= -> ->]|Hin]%elem_of_cons; [by exists [], cs|].
    destruct (IH Hin) as (pre & post & Heq). exists (x :: pre), post. by rewrite Heq.
  - intros (pre & post & ->). induction pre as [|x pre IH]; simpl; [by left|].
    destruct pre as [|y pre]; simpl in *; by right.
Qed.

Section order.
  Context (info : TaskInfo).
  Abbreviation ts := (ti_tasks info).

(** A child leads to the next child that is not empty. *)
Lemma ordered_leads t pre c mid c' post :
  ts !! t = Some (TOrdered (pre ++ c :: mid ++ c' :: post)) → Forall (empty_task ts) mid →
  leads_to info c c'.
Proof.
  revert pre c. induction mid as [|e mid IH]; intros pre c Ht Hmid.
  - by eapply leads_once, task_edge_ordered.
  - apply Forall_cons in Hmid as [He Hmid]. eapply leads_through; [|done|].
    + by eapply task_edge_ordered.
    + apply (IH (pre ++ [c])); [|done]. by rewrite <-app_assoc.
Qed.

Lemma boundary_edge_before a b : boundary_edge info a b → before info a b.
Proof.
  intros (u & v & Hu & Hv & Huv). exists u, v.
  split_and!; [by apply last_in_task|by apply first_in_task|done].
Qed.

(** From any atom of a task one reaches a last atom of the task... *)
Lemma reach_last t a : nested ts t → in_task ts t a →
  ∃ e, last_atom ts t e ∧ rtc (boundary_edge info) a e.
Proof.
  intros Hn. revert a. induction Hn as [t Hacc IH]. intros a Ha.
  pose proof Ha as [[-> Hat]|(c & Hc & Hca)]%in_task_inv.
  { exists a. split; [by apply last_self|done]. }
  unfold child, children_of in Hc. destruct (ts !! t) as [[|cs|cs]|] eqn:Ht;
    try by apply elem_of_nil in Hc.
  - apply list_elem_of_split in Hc as (pre & post & ->).
    assert (Hkids : ∀ x, x ∈ pre ++ c :: post → child ts t x)
      by (intros x; by apply (child_ordered _ _ _ _ Ht)).
    destruct (IH c (Hkids c ltac:(set_solver)) a Hca) as (e & He & Hae). clear Ha Hca.
    remember (length post) as k eqn:Hk. revert pre c post e Ht Hkids He Hae Hk.
    induction k as [k IHk] using lt_wf_ind. intros pre c post e Ht Hkids He Hae ->.
    destruct (split_first_nonempty ts post) as [Hall|(mid & c' & post' & f & -> & Hmid & Hf)].
    + apply Forall_forall. intros x Hx. apply first_or_empty, Hacc, Hkids. set_solver.
    + exists e. split; [by eapply last_ordered|done].
    + assert (Hc' : child ts t c') by (apply Hkids; set_solver).
      destruct (IH c' Hc' f) as (e' & He' & Hfe'); [by apply first_in_task|].
      rewrite app_comm_cons, app_assoc in Ht, Hkids.
      eapply (IHk (length post')); [|done|done|done| |done].
      * rewrite length_app. simpl. lia.
      * etrans; [done|]. eapply rtc_l; [|done]. exists c, c'. split_and!; [done..|].
        eapply (ordered_leads t pre c mid c' post'); [|done]. by rewrite Ht, <-app_assoc.
  - destruct (IH c) with (a := a) as (e & He & Hae); [by apply (child_unordered _ _ _ _ Ht)|done|].
    exists e. split; [by eapply last_unordered|done].
Qed.

(** ... and it is reached from a first atom. *)
Lemma reach_first t a : nested ts t → in_task ts t a →
  ∃ f, first_atom ts t f ∧ rtc (boundary_edge info) f a.
Proof.
  intros Hn. revert a. induction Hn as [t Hacc IH]. intros a Ha.
  pose proof Ha as [[-> Hat]|(c & Hc & Hca)]%in_task_inv.
  { exists a. split; [by apply first_self|done]. }
  unfold child, children_of in Hc. destruct (ts !! t) as [[|cs|cs]|] eqn:Ht;
    try by apply elem_of_nil in Hc.
  - apply list_elem_of_split in Hc as (pre & post & ->).
    assert (Hkids : ∀ x, x ∈ pre ++ c :: post → child ts t x)
      by (intros x; by apply (child_ordered _ _ _ _ Ht)).
    destruct (IH c (Hkids c ltac:(set_solver)) a Hca) as (f & Hf & Hfa). clear Ha Hca.
    remember (length pre) as k eqn:Hk. revert pre c post f Ht Hkids Hf Hfa Hk.
    induction k as [k IHk] using lt_wf_ind. intros pre c post f Ht Hkids Hf Hfa ->.
    destruct (split_last_nonempty ts pre) as [Hall|(pre' & c' & mid & e & -> & Hmid & He)].
    + apply Forall_forall. intros x Hx. assert (Hx' : child ts t x) by (apply Hkids; set_solver).
      destruct (first_or_empty ts x (Hacc x Hx')) as [?|[y Hy%first_in_task]]; [by left|right].
      destruct (reach_last x y (Hacc x Hx') Hy) as (e & He & _). by exists e.
    + exists f. split; [by eapply first_ordered|done].
    + assert (Hc' : child ts t c') by (apply Hkids; set_solver).
      destruct (IH c' Hc' e) as (f' & Hf' & Hfe'); [by apply last_in_task|].
      rewrite <-app_assoc in Ht, Hkids. simpl in Ht, Hkids.
      eapply (IHk (length pre')); [|done|done|done| |done].
      * rewrite length_app. simpl. lia.
      * etrans; [done|]. eapply rtc_l; [|done]. exists c', c. split_and!; [done..|].
        by eapply ordered_leads.
  - destruct (IH c) with (a := a) as (f & Hf & Hfa); [by apply (child_unordered _ _ _ _ Ht)|done|].
    exists f. split; [by eapply first_unordered|done].
Qed.

(** The boundary edges generate exactly the required order. *)
Lemma boundary_edge_tc a b :
  (∀ t, nested ts t) → tc (boundary_edge info) a b ↔ tc (before info) a b.
Proof.
  intros Hn. split; intros Hp; induction Hp as [a b Hab|a b c Hab _ IH].
  - by apply tc_once, boundary_edge_before.
  - eapply tc_l; [by apply boundary_edge_before|done].
  - destruct Hab as (u & v & Hu & Hv & Huv).
    destruct (reach_last u a (Hn u) Hu) as (e & He & Hae).
    destruct (reach_first v b (Hn v) Hv) as (f & Hf & Hfb).
    eapply tc_rtc_l; [done|]. eapply tc_rtc_r; [|done]. apply tc_once. by exists u, v.
  - destruct Hab as (u & v & Hu & Hv & Huv).
    destruct (reach_last u a (Hn u) Hu) as (e & He & Hae).
    destruct (reach_first v b (Hn v) Hv) as (f & Hf & Hfb).
    eapply tc_rtc_l; [done|]. etrans; [|done]. eapply tc_rtc_r; [|done].
    apply tc_once. by exists u, v.
Qed.

End order.
