(* ===== verification/CompilerProofs.v ===== *)
(** * Correctness of the test compiler

    [compile] computes the order that [TaskOrder] requires: this file follows
    the phases of [Compiler] and ends with the properties of the whole. *)

From S2P Require Import Prelude Index Graph Topo Reduction Model Compiler TaskOrder.

(** ** Specifications of the phases *)

(** The atom tasks in packing order: the atom with identifier [i] is the task
    [atom_ids ts !! i]. *)
Definition atom_ids (ts : list Task) : list nat :=
  omap (λ '(t, v), if is_atom v then Some t else None) (imap pair ts).

(** Edges of an array of sets. *)
Definition set_edge (E : list (gset nat)) (i j : nat) : Prop := ∃ s, E !! i = Some s ∧ j ∈ s.

(** The atom-identifier edge [i -> j] stands for a task pair in [R]. *)
Definition id_rel (ts : list Task) (R : nat → nat → Prop) (i j : nat) : Prop :=
  ∃ a b, atom_ids ts !! i = Some a ∧ atom_ids ts !! j = Some b ∧ R a b.

(** The boundary [b] of task [t]. *)
Definition boundary_ok (ts : list Task) (b : Boundary) (t : nat) : Prop :=
  (∀ i, i ∈ entries b ↔ ∃ a, atom_ids ts !! i = Some a ∧ first_atom ts t a) ∧
  (∀ i, i ∈ exits b ↔ ∃ a, atom_ids ts !! i = Some a ∧ last_atom ts t a).

(** The state of [build_boundary]. *)
Record build_inv (info : TaskInfo) (bb : BoundaryBuild) : Prop := {
  bi_states : length (bb_states bb) = length (ti_tasks info);
  bi_positions : length (bb_stack_positions bb) = length (ti_tasks info);
  bi_boundaries : length (bb_boundaries bb) = length (ti_tasks info);
  bi_edges : length (bb_atom_edges bb) = length (atom_ids (ti_tasks info));
  bi_stack : ∀ i v, bb_stack bb !! i = Some v →
    bb_states bb !! v = Some SOnStack ∧ bb_stack_positions bb !! v = Some i;
  bi_onstack : ∀ v, bb_states bb !! v = Some SOnStack → v ∈ bb_stack bb;
  bi_walk : walk (child (ti_tasks info)) (bb_stack bb);
  bi_done : ∀ v, bb_states bb !! v = Some SDone → ∃ b,
    bb_boundaries bb !! v = Some (Some b) ∧ boundary_ok (ti_tasks info) b v ∧ nested (ti_tasks info) v;
  bi_sound : ∀ i j, set_edge (bb_atom_edges bb) i j →
    id_rel (ti_tasks info) (boundary_edge info) i j;
}.

(** First atoms of the first task of a list that is not empty. *)
Definition first_of (ts : list Task) (cs : list nat) (a : nat) : Prop :=
  ∃ pre c post, cs = pre ++ c :: post ∧ Forall (empty_task ts) pre ∧ first_atom ts c a.

(** The last task of a list that is not empty, and its last atoms. *)
Definition last_of (ts : list Task) (cs : list nat) (ex : option (list nat)) : Prop :=
  match ex with
  | None => Forall (empty_task ts) cs
  | Some ex => ∃ pre c post, cs = pre ++ c :: post ∧ Forall (empty_task ts) post ∧
      ¬ empty_task ts c ∧ ∀ i, i ∈ ex ↔ ∃ a, atom_ids ts !! i = Some a ∧ last_atom ts c a
  end.

(** ** Sets of edges *)

Lemma extend_set_spec {E} es from xs (P : list (gset nat) → Prop) (Q : E → Prop) :
  from < length es →
  (∀ es', length es' = length es →
     (∀ i j, set_edge es' i j ↔ set_edge es i j ∨ (i = from ∧ j ∈ xs)) → P es') →
  wp (extend_set es from xs) P Q.
Proof.
  intros Hlt HP. unfold extend_set. wp_get s Hs. apply wp_vset; [done|].
  apply HP; [by rewrite length_insert|]. intros i j. unfold set_edge. split.
  - intros (s' & [(<- & <- & _)|[Hne Hi]]%list_lookup_insert_Some & Hj); [|by left; exists s'].
    apply elem_of_union in Hj as [Hj|Hj%elem_of_list_to_set]; [left; by exists s|by right].
  - intros [(s' & Hi & Hj)|[-> Hj]].
    + destruct (decide (from = i)) as [->|Hne].
      * exists (s ∪ list_to_set xs). rewrite list_lookup_insert_eq by done. split; [done|].
        simplify_eq. set_solver.
      * exists s'. by rewrite list_lookup_insert_ne.
    + exists (s ∪ list_to_set xs). rewrite list_lookup_insert_eq by done. split; [done|].
      apply elem_of_union. right. by apply elem_of_list_to_set.
Qed.

Lemma connect_spec {E} es exs ens (P : list (gset nat) → Prop) (Q : E → Prop) :
  (∀ i, i ∈ exs → i < length es) →
  (∀ es', length es' = length es →
     (∀ i j, set_edge es' i j ↔ set_edge es i j ∨ (i ∈ exs ∧ j ∈ ens)) → P es') →
  wp (connect es exs ens) P Q.
Proof.
  intros Hlt HP. unfold connect.
  apply (wp_for_each (λ pre es', length es' = length es ∧
    ∀ i j, set_edge es' i j ↔ set_edge es i j ∨ (i ∈ pre ∧ j ∈ ens))).
  - split; [done|]. intros i j. set_solver.
  - intros pre from post es1 -> [Hlen1 Hes1].
    apply (wp_for_each (λ pre' es', length es' = length es ∧
      ∀ i j, set_edge es' i j ↔ set_edge es1 i j ∨ (i = from ∧ j ∈ pre'))).
    + split; [done|]. intros i j. set_solver.
    + intros pre' to post' es2 _ [Hlen2 Hes2]. apply extend_set_spec.
      { rewrite Hlen2. apply Hlt. set_solver. }
      intros es3 Hlen3 Hes3. split; [lia|]. intros i j. rewrite Hes3, Hes2. set_solver.
    + intros es2 [Hlen2 Hes2]. split; [done|]. intros i j. rewrite Hes2, Hes1. set_solver.
  - intros es' [? ?]. by apply HP.
Qed.

(** ** Packing *)

Lemma atom_ids_snoc ts t :
  atom_ids (ts ++ [t]) = atom_ids ts ++ (if is_atom t then [length ts] else []).
Proof.
  unfold atom_ids. rewrite imap_app, omap_app. f_equal. simpl. rewrite Nat.add_0_r.
  by destruct (is_atom t).
Qed.

Lemma atom_ids_elem ts a : a ∈ atom_ids ts ↔ atom_task ts a.
Proof.
  unfold atom_ids. rewrite list_elem_of_omap. split.
  - intros ([t v] & (i & y & [= -> ->] & Hy)%elem_of_lookup_imap & Ha).
    destruct y; simpl in Ha; simplify_eq. by eexists.
  - intros [at' Ha]. exists (a, TAtom at'). split; [|done].
    by apply (elem_of_lookup_imap_2 pair).
Qed.

Lemma atom_ids_lookup ts i a : atom_ids ts !! i = Some a → atom_task ts a.
Proof. intros Hi. apply atom_ids_elem. by eapply list_elem_of_lookup_2. Qed.

Lemma atom_task_lt ts a : atom_task ts a → a < length ts.
Proof. intros [? Ha]. by eapply lookup_lt_Some. Qed.

Lemma atom_ids_nodup ts : NoDup (atom_ids ts).
Proof.
  induction ts as [|t ts IH] using rev_ind; [constructor|]. rewrite atom_ids_snoc.
  apply NoDup_app. split_and!; [done| |destruct (is_atom t); [apply NoDup_singleton|constructor]].
  intros a Ha%atom_ids_elem%atom_task_lt. destruct (is_atom t); [|by intros ?%elem_of_nil].
  intros ->%list_elem_of_singleton. lia.
Qed.

Lemma atom_ids_inj ts i j a : atom_ids ts !! i = Some a → atom_ids ts !! j = Some a → i = j.
Proof. apply NoDup_lookup, atom_ids_nodup. Qed.

Lemma atom_ids_length ts : length (atom_ids ts) <= length ts.
Proof.
  induction ts as [|t ts IH] using rev_ind; [done|]. rewrite atom_ids_snoc, !length_app.
  destruct (is_atom t); simpl; lia.
Qed.

Lemma atom_tasks_of_ids ts : (N.of_nat (length ts) <= u32_MAX)%N → atom_tasks_of ts = atom_ids ts.
Proof.
  intros Hn. unfold atom_tasks_of, atom_ids.
  assert (Hall : ∀ p, p ∈ imap pair ts → (N.of_nat p.1 <= u32_MAX)%N).
  { intros p (i & y & -> & Hy)%elem_of_lookup_imap. simpl. apply lookup_lt_Some in Hy. lia. }
  induction (imap pair ts) as [|[t v] l IH]; [done|]. csimpl.
  rewrite (as_u32_small t) by apply (Hall (t, v) ltac:(left)). rewrite IH; [done|].
  intros p ?. apply Hall. by right.
Qed.

(** [pack_atoms] numbers the atoms. *)
Definition packed (ts : list Task) (atoms : list Atom) (atoms_map : list nat) : Prop :=
  length atoms = length (atom_ids ts) ∧ length atoms_map = length ts ∧
  ∀ i a, atom_ids ts !! i = Some a →
    atoms_map !! a = Some i ∧ ∃ at', ts !! a = Some (TAtom at') ∧ atoms !! i = Some at'.

Lemma packed_snoc ts t atoms atoms_map :
  packed ts atoms atoms_map →
  packed (ts ++ [t]) (match t with TAtom at' => vpush atoms at' | _ => atoms end)
    (vpush atoms_map (if is_atom t then length atoms else 0)).
Proof.
  intros (Hl & Hm & Hall). unfold packed, vpush. rewrite atom_ids_snoc, !length_app, Hl, Hm.
  split_and!; [destruct t; simpl; rewrite ?length_app; simpl; lia|done|].
  intros i a Hi. apply lookup_app_Some in Hi as [Hi|[Hge Hi]].
  - destruct (Hall _ _ Hi) as (Ha & at' & Ht & Hat). split; [by apply lookup_app_l_Some|].
    exists at'. split; [by apply lookup_app_l_Some|]. destruct t; try done. by apply lookup_app_l_Some.
  - destruct t as [at'|cs|cs]; simpl in Hi; [|done..].
    destruct (i - length (atom_ids ts)) as [|k] eqn:Hk; [|by destruct k]. simplify_eq/=.
    assert (i = length atoms) as -> by lia.
    split; [rewrite <-Hm, Hl; apply lookup_snoc|]. exists at'.
    split; [apply lookup_snoc|rewrite Hl; rewrite <-Hl; apply lookup_snoc].
Qed.

Lemma pack_atoms_spec {E} ts (P : list Atom * list nat → Prop) (Q : E → Prop) :
  (N.of_nat (length ts) <= u32_MAX)%N →
  (∀ atoms atoms_map, packed ts atoms atoms_map → P (atoms, atoms_map)) →
  wp (pack_atoms ts) P Q.
Proof.
  intros Hn HP. unfold pack_atoms.
  apply wp_bind, (wp_for_each (λ pre '(atoms, atoms_map, count),
    packed pre atoms atoms_map ∧ count = length atoms)).
  - split; [|done]. by split_and!.
  - intros pre t post [[atoms atoms_map] count] -> [Hp ->].
    pose proof (packed_snoc _ t _ _ Hp) as Hp'.
    destruct t as [at'|cs|cs]; [|by apply wp_ret..].
    apply wp_bind, wp_check.
    { apply bool_decide_eq_true. destruct Hp as (-> & _ & _).
      pose proof (atom_ids_length pre). rewrite length_app in Hn. simpl in Hn. lia. }
    apply wp_ret. split; [done|]. unfold vpush. rewrite length_app. simpl. lia.
  - intros [[atoms atoms_map] count] [? _]. apply wp_ret. by apply HP.
Qed.

(** ** Boundaries *)

Section boundaries.
  Context (info : TaskInfo).
  Abbreviation ts := (ti_tasks info).
  Context (Hwf : info_wf info) (atoms : list Atom) (atoms_map : list nat).
  Context (Hpacked : packed ts atoms atoms_map).

Lemma atom_has_id a : atom_task ts a → ∃ i, atom_ids ts !! i = Some a.
Proof. intros Ha. by apply list_elem_of_lookup, atom_ids_elem. Qed.

Lemma boundary_entries_nil b t :
  boundary_ok ts b t → nested ts t → entries b = [] ↔ empty_task ts t.
Proof.
  intros [Hen _] Hn. split.
  - intros Hnil a Ha. destruct (first_nonempty _ _ _ Hn Ha) as [f Hf].
    destruct (atom_has_id f) as [i Hi]; [apply (first_in_task _ _ _ Hf)|].
    assert (i ∈ entries b) as Hin by (apply Hen; eauto). rewrite Hnil in Hin. by apply elem_of_nil in Hin.
  - intros He. destruct (entries b) as [|i l] eqn:Heq; [done|exfalso].
    destruct (proj1 (Hen i) ltac:(left)) as (a & _ & Ha). by eapply He, first_in_task.
Qed.

Lemma boundary_exits_lt b t i : boundary_ok ts b t → i ∈ exits b → i < length (atom_ids ts).
Proof. intros [_ Hex] Hi%Hex. destruct Hi as (a & Hi & _). by eapply lookup_lt_Some. Qed.

(** What a call of [build_boundary] guarantees about the new state. *)
Definition build_post (bb : BoundaryBuild) (t : nat) (r : Boundary * BoundaryBuild) : Prop :=
  build_inv info r.2 ∧ bb_stack r.2 = bb_stack bb ∧
  (∀ v, bb_states bb !! v = Some SDone → bb_states r.2 !! v = Some SDone) ∧
  bb_states r.2 !! t = Some SDone ∧ boundary_ok ts r.1 t ∧ nested ts t.

(** ... and, for the [match] on the task, before it is marked done. *)
Definition task_post (bb : BoundaryBuild) (t : nat) (r : Boundary * BoundaryBuild) : Prop :=
  build_inv info r.2 ∧ bb_stack r.2 = bb_stack bb ∧
  (∀ v, bb_states bb !! v = Some SDone → bb_states r.2 !! v = Some SDone) ∧
  boundary_ok ts r.1 t ∧ nested ts t.

Definition cycle_of_children (c : GraphCycle) : Prop := closed_path (child ts) (gc_nodes c).

Section children.
  Context (rec : nat → BoundaryBuild → exec GraphCycle (Boundary * BoundaryBuild)).
  Context (bb0 : BoundaryBuild) (t : nat).
  (** The recursive call, on the children of [t] with the stack of [bb0]. *)
  Context (Hrec : ∀ c bb, child ts t c → build_inv info bb → bb_stack bb = bb_stack bb0 →
    wp (rec c bb) (build_post bb c) cycle_of_children).

(** What both loops keep. *)
Definition loop_post (pre : list nat) (bb : BoundaryBuild) : Prop :=
  build_inv info bb ∧ bb_stack bb = bb_stack bb0 ∧
  (∀ v, bb_states bb0 !! v = Some SDone → bb_states bb !! v = Some SDone) ∧
  Forall (nested ts) pre.

Lemma unordered_children_spec cs (Ht : ts !! t = Some (TUnordered cs)) bb
    (P : list nat * list nat * BoundaryBuild → Prop) :
  loop_post [] bb →
  (∀ ens exs bb', loop_post cs bb' →
    (∀ i, i ∈ ens ↔ ∃ a c, c ∈ cs ∧ atom_ids ts !! i = Some a ∧ first_atom ts c a) →
    (∀ i, i ∈ exs ↔ ∃ a c, c ∈ cs ∧ atom_ids ts !! i = Some a ∧ last_atom ts c a) →
    P (ens, exs, bb')) →
  wp (for_each cs (unordered_child rec) ([], [], bb)) P cycle_of_children.
Proof.
  intros Hbb HP. apply (wp_for_each (λ pre '(ens, exs, bb), loop_post pre bb ∧
    (∀ i, i ∈ ens ↔ ∃ a c, c ∈ pre ∧ atom_ids ts !! i = Some a ∧ first_atom ts c a) ∧
    (∀ i, i ∈ exs ↔ ∃ a c, c ∈ pre ∧ atom_ids ts !! i = Some a ∧ last_atom ts c a))).
  - split_and!; [done|set_solver..].
  - intros pre c post [[ens exs] bb1] Heq ((Hinv & Hst & Hmono & Hnest) & Hen & Hex).
    assert (Hc : child ts t c) by (apply (child_unordered _ _ _ _ Ht); set_solver).
    apply wp_bind. eapply wp_mono; [by apply Hrec| |done].
    intros [b bb2] (Hinv2 & Hst2 & Hmono2 & _ & [Hben Hbex] & Hn). simpl in *.
    apply wp_ret. split_and!.
    + split_and!; [done|congruence|auto|]. apply Forall_app. by split; [|constructor].
    + intros i. rewrite elem_of_app, Hen, Hben. set_solver.
    + intros i. rewrite elem_of_app, Hex, Hbex. set_solver.
  - intros [[ens exs] bb'] (? & ? & ?). by apply HP.
Qed.

Lemma first_of_snoc pre c a :
  first_of ts (pre ++ [c]) a ↔ first_of ts pre a ∨ (Forall (empty_task ts) pre ∧ first_atom ts c a).
Proof.
  split.
  - intros (p & x & q & Heq & Hp & Ha). destruct (list_snoc_inv q) as [->|(q' & y & ->)].
    + apply app_inj_tail in Heq as [-> ->]. by right.
    + rewrite app_comm_cons, app_assoc in Heq. apply app_inj_tail in Heq as [-> ->].
      left. by exists p, x, q'.
  - intros [(p & x & q & -> & Hp & Ha)|[Hp Ha]].
    + exists p, x, (q ++ [c]). by rewrite <-app_assoc.
    + by exists pre, c, [].
Qed.

(** The loop over the children of an ordered task, after those in [pre]. *)
Definition ordered_inv (pre : list nat) (st : list nat * option (list nat) * BoundaryBuild) : Prop :=
  let '(ens, ex, bb) := st in
  loop_post pre bb ∧
  (∀ i, i ∈ ens ↔ ∃ a, atom_ids ts !! i = Some a ∧ first_of ts pre a) ∧
  last_of ts pre ex ∧ (ens = [] ↔ Forall (empty_task ts) pre).

(** A turn for a child without atoms, *)
Lemma ordered_turn_empty pre c ens ex bb bb' :
  ordered_inv pre (ens, ex, bb) → loop_post (pre ++ [c]) bb' → empty_task ts c →
  ordered_inv (pre ++ [c]) (ens, ex, bb').
Proof.
  intros (_ & Hen & Hex & Hnil) Hbb' Hc. split_and!; [done| | |].
  - intros i. rewrite Hen. setoid_rewrite first_of_snoc. split; [naive_solver|].
    intros (a & Hi & [?|[_ Ha]]); [by exists a|]. by apply first_in_task, Hc in Ha.
  - destruct ex as [ex|]; simpl in *.
    + destruct Hex as (p & x & q & -> & Hq & Hx & Hi). exists p, x, (q ++ [c]).
      split_and!; [by rewrite <-app_assoc| |done..]. apply Forall_app. by split; [|constructor].
    + apply Forall_app. by split; [|constructor].
  - rewrite Hnil, Forall_app, Forall_singleton. naive_solver.
Qed.

(** and for one with atoms. *)
Lemma ordered_turn_child pre c ens ex bb b bb' :
  ordered_inv pre (ens, ex, bb) → loop_post (pre ++ [c]) bb' →
  boundary_ok ts b c → ¬ empty_task ts c → entries b ≠ [] →
  ordered_inv (pre ++ [c]) (if decide (ens = []) then entries b else ens, Some (exits b), bb').
Proof.
  intros (_ & Hen & Hex & Hnil) Hbb' [Hben Hbex] Hc Hne. split_and!; [done| | |].
  - intros i. setoid_rewrite first_of_snoc. destruct (decide (ens = [])) as [->|Hens].
    + rewrite Hben. split.
      * intros (a & Hi & Ha). exists a. split; [done|]. right. split; [by apply Hnil|done].
      * intros (a & Hi & [Ha|[_ Ha]]); [|by exists a].
        assert (i ∈ []) as []%elem_of_nil. apply Hen. by exists a.
    + rewrite Hen. split; [naive_solver|]. intros (a & Hi & [?|[Hp _]]); [by exists a|].
      by apply Hnil in Hp.
  - exists pre, c, []. split_and!; [done|constructor|done|done].
  - split; [intros; exfalso; by case_decide|]. rewrite Forall_app, Forall_singleton. by intros [_ ?].
Qed.

(** The edges from the child before. *)
Lemma ordered_turn_edges cs (Ht : ts !! t = Some (TOrdered cs)) pre c post ex b bb :
  cs = pre ++ c :: post → last_of ts pre ex → build_inv info bb → boundary_ok ts b c →
  wp (E:=GraphCycle) (match ex with
      | Some previous => connect (bb_atom_edges bb) previous (entries b)
      | None => Ret (bb_atom_edges bb) end)
    (λ es, length es = length (bb_atom_edges bb) ∧
      ∀ i j, set_edge es i j → id_rel ts (boundary_edge info) i j) cycle_of_children.
Proof.
  intros Heq Hex Hinv [Hben _]. destruct ex as [previous|]; [|apply wp_ret; split; [done|apply Hinv]].
  destruct Hex as (p & x & q & -> & Hq & Hx & Hi). apply connect_spec.
  - intros i (a & Hia & _)%Hi. rewrite (bi_edges _ _ Hinv). by eapply lookup_lt_Some.
  - intros es Hl Hs. split; [done|]. intros i j [Hij|[Hii Hjj]]%Hs; [by apply Hinv|].
    apply Hi in Hii as (a & Hia & Ha). apply Hben in Hjj as (a' & Hja & Ha').
    exists a, a'. split_and!; [done..|]. exists x, c. split_and!; [done..|].
    eapply (ordered_leads info t p x q c post); [|done]. by rewrite Ht, Heq, <-!app_assoc.
Qed.

Lemma ordered_children_spec cs (Ht : ts !! t = Some (TOrdered cs)) bb
    (P : list nat * option (list nat) * BoundaryBuild → Prop) :
  loop_post [] bb →
  (∀ ens ex bb', loop_post cs bb' →
    (∀ i, i ∈ ens ↔ ∃ a, atom_ids ts !! i = Some a ∧ first_of ts cs a) →
    last_of ts cs ex → P (ens, ex, bb')) →
  wp (for_each cs (ordered_child rec) ([], None, bb)) P cycle_of_children.
Proof.
  intros Hbb HP. apply (wp_for_each ordered_inv).
  - split_and!; [done| |by constructor|done]. intros i. split; [by intros ?%elem_of_nil|].
    by intros (a & _ & [|? p] & ? & ? & [=] & _).
  - intros pre c post [[ens ex] bb1] Heq Hpre.
    destruct (Hpre) as ((Hinv & Hst & Hmono & Hnest) & _ & Hex & _).
    assert (Hc : child ts t c) by (apply (child_ordered _ _ _ _ Ht); set_solver).
    apply wp_bind. eapply wp_mono; [by apply Hrec| |done].
    intros [b bb2] (Hinv2 & Hst2 & Hmono2 & _ & Hb & Hn). simpl in *.
    pose proof (boundary_entries_nil _ _ Hb Hn) as Hempty.
    assert (Hnest' : Forall (nested ts) (pre ++ [c])) by (apply Forall_app; by split; [|constructor]).
    case_decide as Hbnil.
    { apply wp_ret. eapply ordered_turn_empty; [done| |by apply Hempty]. split_and!; [done|congruence|auto|done]. }
    apply wp_bind. eapply wp_mono; [by eapply ordered_turn_edges| |done]. intros es [Hl Hs]. apply wp_ret.
    eapply ordered_turn_child; [done| |done|by rewrite <-Hempty|done].
    split_and!; [|simpl; congruence|simpl; auto|done].
    destruct Hinv2. split; simpl; try done. congruence.
  - intros [[ens ex] bb'] (? & ? & ? & _). by apply HP.
Qed.

End children.

Lemma deduplicate_elem l x : x ∈ deduplicate l ↔ x ∈ l.
Proof. unfold deduplicate, sort_nat. by rewrite dedup_elem, merge_sort_Permutation. Qed.

(** The boundaries of an atom, of a group, and of a sequence. *)
Lemma atom_boundary t i :
  atom_task ts t → atom_ids ts !! i = Some t →
  boundary_ok ts {| entries := [i]; exits := [i] |} t ∧ nested ts t.
Proof.
  intros Hat Hi. split; [|constructor; intros c Hc; by apply atom_no_child in Hc].
  destruct (Hat) as [at' Ht]. split; simpl; intros j; rewrite list_elem_of_singleton; split.
  - intros ->. exists t. split; [done|]. by apply first_self.
  - intros (a & Hj & Ha). inversion Ha; subst; try congruence. by eapply atom_ids_inj.
  - intros ->. exists t. split; [done|]. by apply last_self.
  - intros (a & Hj & Ha). inversion Ha; subst; try congruence. by eapply atom_ids_inj.
Qed.

Lemma unordered_boundary t cs ens exs :
  ts !! t = Some (TUnordered cs) →
  (∀ i, i ∈ ens ↔ ∃ a c, c ∈ cs ∧ atom_ids ts !! i = Some a ∧ first_atom ts c a) →
  (∀ i, i ∈ exs ↔ ∃ a c, c ∈ cs ∧ atom_ids ts !! i = Some a ∧ last_atom ts c a) →
  boundary_ok ts {| entries := deduplicate ens; exits := deduplicate exs |} t.
Proof.
  intros Ht Hen Hex. split; simpl; intros i; rewrite deduplicate_elem.
  - rewrite Hen. split.
    + intros (a & c & Hc & Hi & Ha). exists a. split; [done|]. by eapply first_unordered.
    + intros (a & Hi & Ha). inversion Ha as [? [? ?]|? cs' c ? Hts Hc Hca|]; subst; [congruence| |congruence].
      rewrite Ht in Hts. injection Hts as ->. by exists a, c.
  - rewrite Hex. split.
    + intros (a & c & Hc & Hi & Ha). exists a. split; [done|]. by eapply last_unordered.
    + intros (a & Hi & Ha). inversion Ha as [? [? ?]|? cs' c ? Hts Hc Hca|]; subst; [congruence| |congruence].
      rewrite Ht in Hts. injection Hts as ->. by exists a, c.
Qed.

(** The last child with atoms is unique. *)
Lemma last_child_unique p c q p' c' q' :
  p ++ c :: q = p' ++ c' :: q' → Forall (empty_task ts) q → Forall (empty_task ts) q' →
  ¬ empty_task ts c → ¬ empty_task ts c' → c' = c.
Proof.
  rewrite !Forall_forall. intros Heq Hq Hq' Hc Hc'.
  destruct (decide (length p = length p')) as [Hl|Hl].
  { apply app_inj_1 in Heq as [_ [= ? _]]; done. }
  exfalso. destruct (decide (length p < length p')).
  - apply (f_equal (lookup (length p'))) in Heq.
    rewrite (lookup_app_r p'), Nat.sub_diag in Heq by lia. simpl in Heq.
    rewrite lookup_app_r, lookup_cons_ne_0 in Heq by lia.
    apply list_elem_of_lookup_2 in Heq. by apply Hc', Hq.
  - apply (f_equal (lookup (length p))) in Heq.
    rewrite lookup_app_r, Nat.sub_diag in Heq by lia. simpl in Heq. symmetry in Heq.
    rewrite lookup_app_r, lookup_cons_ne_0 in Heq by lia.
    apply list_elem_of_lookup_2 in Heq. by apply Hc, Hq'.
Qed.

Lemma ordered_boundary t cs ens ex :
  ts !! t = Some (TOrdered cs) →
  (∀ i, i ∈ ens ↔ ∃ a, atom_ids ts !! i = Some a ∧ first_of ts cs a) →
  last_of ts cs ex →
  boundary_ok ts {| entries := ens; exits := default [] ex |} t.
Proof.
  intros Ht Hen Hex. split; simpl; intros i.
  - rewrite Hen. split; intros (a & Hi & Ha); exists a; (split; [done|]).
    + destruct Ha as (p & c & q & -> & Hp & Ha). by eapply first_ordered.
    + inversion Ha as [? [? ?]| |? p c q ? Hts Hp Hca]; subst; [congruence..|].
      rewrite Ht in Hts. injection Hts as ->. by exists p, c, q.
  - assert (Hlast : ∀ a, last_atom ts t a → ∃ p c q,
      cs = p ++ c :: q ∧ Forall (empty_task ts) q ∧ last_atom ts c a).
    { intros a Ha. inversion Ha as [? [? ?]| |? p c q ? Hts Hq Hca]; subst; [congruence..|].
      rewrite Ht in Hts. injection Hts as ->. by exists p, c, q. }
    assert (Hfull : ∀ c a, last_atom ts c a → ¬ empty_task ts c).
    { intros c a Ha He. by eapply He, last_in_task. }
    destruct ex as [ex|]; simpl in *.
    + destruct Hex as (p & c & q & -> & Hq & Hc & Hi). rewrite Hi.
      split; intros (a & Hia & Ha); exists a; (split; [done|]); [by eapply last_ordered|].
      destruct (Hlast a Ha) as (p' & c' & q' & Heq & Hq' & Hca).
      by rewrite <-(last_child_unique _ _ _ _ _ _ Heq Hq Hq' Hc (Hfull _ _ Hca)).
    + split; [by intros ?%elem_of_nil|]. intros (a & _ & (p & c & q & -> & _ & Hca)%Hlast).
      rewrite Forall_forall in Hex. exfalso. apply (Hfull _ _ Hca), Hex. set_solver.
Qed.

Lemma task_boundary_spec rec bb t :
  t < length ts → build_inv info bb → last (bb_stack bb) = Some t →
  (∀ c bb', child ts t c → build_inv info bb' → bb_stack bb' = bb_stack bb →
    wp (rec c bb') (build_post bb' c) cycle_of_children) →
  wp (task_boundary rec ts atoms_map t bb) (task_post bb t) cycle_of_children.
Proof.
  intros Hlt Hinv Htop Hrec. unfold task_boundary. wp_get task Ht.
  assert (Hloop : loop_post bb [] bb) by (by split_and!).
  destruct task as [at'|cs|cs]; apply wp_bind.
  - assert (Hat : atom_task ts t) by by eexists.
    destruct (atom_has_id t Hat) as [i Hi].
    destruct Hpacked as (_ & _ & Hp). destruct (Hp _ _ Hi) as (Hm & _).
    unfold vget. rewrite Hm. apply wp_ret, wp_ret.
    destruct (atom_boundary t i Hat Hi). by split_and!.
  - apply (ordered_children_spec rec bb t Hrec cs Ht bb); [done|].
    intros ens ex bb' (Hinv' & Hst & Hmono & Hn) Hen Hex. apply wp_ret.
    split_and!; [done..|by eapply ordered_boundary|].
    constructor. intros c Hc%(child_ordered _ _ _ _ Ht). rewrite Forall_forall in Hn. by apply Hn.
  - apply (unordered_children_spec rec bb t Hrec cs Ht bb); [done|].
    intros ens exs bb' (Hinv' & Hst & Hmono & Hn) Hen Hex. apply wp_ret.
    split_and!; [done..|by eapply unordered_boundary|].
    constructor. intros c Hc%(child_unordered _ _ _ _ Ht). rewrite Forall_forall in Hn. by apply Hn.
Qed.

Lemma build_stack_nodup bb : build_inv info bb → NoDup (bb_stack bb).
Proof.
  intros Hinv. apply NoDup_alt. intros i j v [_ Hi]%(bi_stack _ _ Hinv) [_ Hj]%(bi_stack _ _ Hinv).
  congruence.
Qed.

Lemma build_stack_length bb : build_inv info bb → length (bb_stack bb) <= length ts.
Proof.
  intros Hinv. rewrite <-(length_seq (length ts) 0).
  apply submseteq_length, NoDup_submseteq; [by apply build_stack_nodup|].
  intros v [i [Hv _]%(bi_stack _ _ Hinv)]%list_elem_of_lookup.
  apply elem_of_seq. apply lookup_lt_Some in Hv. rewrite (bi_states _ _ Hinv) in Hv. lia.
Qed.

Lemma enter_task_spec t bb (P : BoundaryBuild → Prop) (Q : GraphCycle → Prop) :
  build_inv info bb → bb_states bb !! t = Some SNotSeen → walk (child ts) (bb_stack bb ++ [t]) →
  (∀ bb', build_inv info bb' → bb_stack bb' = bb_stack bb ++ [t] →
     bb_states bb' = <[t:=SOnStack]> (bb_states bb) → P bb') →
  wp (enter_task t bb) P Q.
Proof.
  intros Hinv Ht Hwalk HP. pose proof (lookup_lt_Some _ _ _ Ht) as Hlt.
  destruct Hinv as [Hs Hp Hb He Hst Hon Hw Hd Hsound]. unfold enter_task.
  wp_set. wp_set. apply wp_ret, HP; [|done..].
  split; simpl; rewrite ?length_insert; try done.
  - intros i v [Hi|[-> ->]]%lookup_snoc_Some.
    + destruct Hi as [Hi Hv]. destruct (Hst _ _ Hv).
      rewrite !list_lookup_insert_ne by congruence. done.
    + rewrite !list_lookup_insert_eq by lia. done.
  - intros v [(-> & _ & _)|[_ Hv]]%list_lookup_insert_Some; unfold vpush; [set_solver|].
    apply elem_of_app. left. by apply Hon.
  - intros v [(_ & [=] & _)|[_ Hv]]%list_lookup_insert_Some. by apply Hd.
Qed.

Lemma leave_task_spec t b bb stack (P : BoundaryBuild → Prop) (Q : GraphCycle → Prop) :
  build_inv info bb → bb_stack bb = stack ++ [t] → t < length ts →
  boundary_ok ts b t → nested ts t →
  (∀ bb', build_inv info bb' → bb_stack bb' = stack →
     bb_states bb' = <[t:=SDone]> (bb_states bb) → P bb') →
  wp (leave_task t b bb) P Q.
Proof.
  intros Hinv Hstack Hlt Hbok Hn HP. pose proof (build_stack_nodup _ Hinv) as Hnd.
  destruct Hinv as [Hs Hp Hb He Hst Hon Hw Hd Hsound]. unfold leave_task.
  rewrite Hstack in *. rewrite vpop_app. wp_set. wp_set. apply wp_ret, HP; [|done..].
  apply NoDup_app in Hnd as (_ & Hnd & _).
  split; simpl; rewrite ?length_insert; try done.
  - intros i v Hi. destruct (Hst i v) as [Hv ?]; [by apply lookup_app_l_Some|].
    rewrite list_lookup_insert_ne; [done|]. intros <-. apply (Hnd t); [|set_solver].
    by eapply list_elem_of_lookup_2.
  - intros v [(_ & [=] & _)|[Hne Hv]]%list_lookup_insert_Some. apply Hon in Hv. set_solver.
  - intros i x y Hx Hy. apply (Hw i); by apply lookup_app_l_Some.
  - intros v [(-> & _ & _)|[Hne Hv]]%list_lookup_insert_Some.
    + exists b. rewrite list_lookup_insert_eq by lia. done.
    + rewrite list_lookup_insert_ne by done. by apply Hd.
Qed.

Lemma build_boundary_spec fuel t bb :
  t < length ts → build_inv info bb → walk (child ts) (bb_stack bb ++ [t]) →
  length ts < fuel + length (bb_stack bb) →
  wp (build_boundary ts atoms_map fuel t bb) (build_post bb t) cycle_of_children.
Proof.
  revert t bb. induction fuel as [|fuel IH]; intros t bb Hlt Hinv Hwalk Hfuel.
  { apply build_stack_length in Hinv. simpl in Hfuel. lia. }
  simpl. apply wp_bind, wp_vget; [by rewrite (bi_states _ _ Hinv)|].
  intros [| |] Hstate.
  - apply wp_bind, enter_task_spec; [done..|]. intros bb1 Hinv1 Hst1 Hstates1.
    apply wp_bind. eapply wp_mono; [apply task_boundary_spec; [done..| |]| |done].
    + by rewrite Hst1, last_snoc.
    + intros c bb' Hc Hinv' Hst'. apply IH; [by eapply (proj1 (proj2 Hwf))|done| |].
      * rewrite Hst', Hst1, <-app_assoc. by apply walk_snoc.
      * rewrite Hst', Hst1, length_app. simpl. lia.
    + intros [b bb2] (Hinv2 & Hst2 & Hmono2 & Hb & Hn). simpl in *.
      apply wp_bind. eapply leave_task_spec; [done|by rewrite Hst2|done..|].
      intros bb3 Hinv3 Hst3 Hstates3. apply wp_ret. split_and!; simpl; try done; try apply Hb.
      * intros v Hv. rewrite Hstates3. destruct (decide (t = v)) as [<-|Hne]; [congruence|].
        rewrite list_lookup_insert_ne by done. apply Hmono2. rewrite Hstates1.
        by rewrite list_lookup_insert_ne.
      * rewrite Hstates3. apply list_lookup_insert_eq. by rewrite (bi_states _ _ Hinv2).
  - pose proof (bi_onstack _ _ Hinv t Hstate) as [i Hi]%list_elem_of_lookup.
    destruct (bi_stack _ _ Hinv _ _ Hi) as [_ Hpos]. pose proof (lookup_lt_Some _ _ _ Hi).
    unfold vget, slice. rewrite Hpos. simpl. rewrite decide_True by lia. simpl.
    rewrite take_ge by (rewrite length_drop; lia).
    apply wp_throw. unfold cycle_of_children. simpl. unfold vpush.
    apply walk_cycle; [done|by apply build_stack_nodup|done].
  - destruct (bi_done _ _ Hinv _ Hstate) as (b & Hb & Hbok & Hn).
    unfold vget. rewrite Hb. simpl. apply wp_ret. by split_and!.
Qed.

(** The intrinsic boundary of every task, and sound nested ordering. *)
Definition boundaries_ok (bb : BoundaryBuild) : Prop :=
  length (bb_boundaries bb) = length ts ∧
  (∀ t, t < length ts → ∃ b, bb_boundaries bb !! t = Some (Some b) ∧ boundary_ok ts b t) ∧
  (∀ t, nested ts t) ∧
  length (bb_atom_edges bb) = length (atom_ids ts) ∧
  (∀ i j, set_edge (bb_atom_edges bb) i j → id_rel ts (boundary_edge info) i j).

Lemma compute_boundaries_spec (P : BoundaryBuild → Prop) (Q : GraphCycle → Prop) :
  (∀ bb, boundaries_ok bb → P bb) → (∀ c, cycle_of_children c → Q c) →
  wp (compute_boundaries ts atoms_map (length atoms)) P Q.
Proof.
  intros HP HQ. unfold compute_boundaries.
  apply (wp_for_each (λ pre bb, build_inv info bb ∧ bb_stack bb = [] ∧
    ∀ t, t ∈ pre → bb_states bb !! t = Some SDone)).
  - destruct Hpacked as (Hl & _).
    assert (Hns : ∀ v s, replicate (length ts) SNotSeen !! v = Some s → s = SNotSeen).
    { by intros v s [? ?]%lookup_replicate. }
    split_and!; [split; simpl; rewrite ?length_replicate; try done|done|by intros ? ?%elem_of_nil].
    + by intros v ?%Hns.
    + by intros v ?%Hns.
    + intros i j (s & [-> _]%lookup_replicate & Hj). by apply not_elem_of_empty in Hj.
  - intros pre t post bb Hseq (Hinv & Hst & Hdone). apply seq_split in Hseq as [-> Ht].
    destruct Hwf as (Hn & _). rewrite as_u32_small by lia.
    apply wp_bind. eapply wp_mono; [apply build_boundary_spec| |by apply HQ]; try done.
    + rewrite Hst. intros [|i] x y ?; done.
    + rewrite Hst. simpl. lia.
    + intros [b bb'] (Hinv' & Hst' & Hmono & Ht' & _). simpl in *. apply wp_ret.
      split_and!; [done|congruence|]. intros v [Hv| ->%list_elem_of_singleton]%elem_of_app; auto.
  - intros bb (Hinv & _ & Hdone). apply HP.
    assert (Hall : ∀ t, t < length ts → ∃ b, bb_boundaries bb !! t = Some (Some b) ∧
      boundary_ok ts b t ∧ nested ts t).
    { intros t Ht. apply (bi_done _ _ Hinv), Hdone, elem_of_seq. lia. }
    split_and!; [apply Hinv| | |apply Hinv|apply Hinv].
    + intros t (b & ? & ? & _)%Hall. by exists b.
    + intros t. destruct (decide (t < length ts)) as [(_ & _ & _ & ?)%Hall|Hge]; [done|].
      constructor. intros c Hc. unfold child, children_of in Hc.
      rewrite lookup_ge_None_2 in Hc by lia. by apply elem_of_nil in Hc.
Qed.

End boundaries.

(** ** Task edges *)

Lemma task_edge_lt info u v : info_wf info → task_edge info u v →
  u < length (ti_tasks info) ∧ v < length (ti_tasks info).
Proof.
  intros (_ & Hc & Hh) [ds Hu Hv|t pre post Ht].
  - destruct (Hh _ _ Hu) as [? Hds]. rewrite Forall_forall in Hds. auto.
  - split; apply (Hc t), (child_ordered _ _ _ _ Ht); set_solver.
Qed.

Lemma leads_to_lt info u v : info_wf info → leads_to info u v →
  u < length (ti_tasks info) ∧ v < length (ti_tasks info).
Proof.
  intros Hwf. induction 1 as [u v H|u e v H _ _ [_ IH]]; apply (task_edge_lt _ _ _ Hwf) in H; naive_solver.
Qed.

(** Edges given by [happens_before]. *)
Definition explicit_edge (info : TaskInfo) (u v : nat) : Prop :=
  ∃ ds, ti_happens_before info !! u = Some ds ∧ v ∈ ds.

Lemma explicit_edges_spec `{HashOrder} {E} info (P : list (gset nat) → Prop) (Q : E → Prop) :
  info_wf info →
  (∀ es, length es = length (ti_tasks info) → (∀ u v, set_edge es u v ↔ explicit_edge info u v) → P es) →
  wp (for_each (hash_iter [0] (dom (ti_happens_before info))) (λ from task_edges,
    destinations ← expect (ti_happens_before info !! from);
    extend_set task_edges from destinations) (replicate (length (ti_tasks info)) ∅)) P Q.
Proof.
  intros (_ & _ & Hh) HP. apply (wp_for_each (λ pre es, length es = length (ti_tasks info) ∧
    ∀ u v, set_edge es u v ↔ u ∈ pre ∧ explicit_edge info u v)).
  - rewrite length_replicate. split; [done|]. intros u v. split; [|set_solver].
    intros (s & [-> _]%lookup_replicate & Hv). by apply not_elem_of_empty in Hv.
  - intros pre u post es Hiter [Hlen Hes].
    assert (Hu : u ∈ dom (ti_happens_before info)).
    { apply elem_of_elements. rewrite <-(hash_iter_perm [0]), Hiter. set_solver. }
    apply elem_of_dom in Hu as [ds Hds]. rewrite Hds. simpl.
    apply extend_set_spec; [rewrite Hlen; by eapply Hh|]. intros es' Hlen' Hes'.
    split; [lia|]. intros i j. rewrite Hes', Hes. unfold explicit_edge. split.
    + intros [[Hi Hx]|[-> Hj]]; (split; [set_solver|]); eauto.
    + intros [Hi (ds' & Hi' & Hj)]. apply elem_of_app in Hi as [Hi| ->%list_elem_of_singleton].
      * left. eauto.
      * right. by simplify_eq.
  - intros es [Hlen Hes]. apply HP; [done|]. intros u v.
    rewrite Hes, hash_iter_perm, elem_of_elements, elem_of_dom. split; [naive_solver|].
    intros Hx. split; [|done]. destruct Hx as (ds & Hds & _). by exists ds.
Qed.

(** The edges of one sequence. *)
Lemma sequence_edges_spec {E} children es (P : list (gset nat) → Prop) (Q : E → Prop) :
  (∀ c, c ∈ children → c < length es) →
  (∀ es', length es' = length es →
    (∀ u v, set_edge es' u v ↔ set_edge es u v ∨ ∃ p q, children = p ++ u :: v :: q) → P es') →
  wp (for_each (windows2 children) (λ '(a, b) task_edges, extend_set task_edges a [b]) es) P Q.
Proof.
  intros Hlt HP. apply (wp_for_each (λ done es', length es' = length es ∧
    ∀ u v, set_edge es' u v ↔ set_edge es u v ∨ (u, v) ∈ done)).
  - split; [done|]. set_solver.
  - intros dn [a b] rest es2 Hwin [Hlen2 Hes2].
    assert (Hab : (a, b) ∈ windows2 children) by (rewrite Hwin; set_solver).
    apply windows2_elem in Hab as (p & q & ->). apply extend_set_spec.
    { rewrite Hlen2. apply Hlt. set_solver. }
    intros es3 Hlen3 Hes3. split; [lia|]. intros u v. rewrite Hes3, Hes2, elem_of_app.
    rewrite !list_elem_of_singleton. naive_solver.
  - intros es2 [Hlen2 Hes2]. apply HP; [done|]. intros u v. by rewrite Hes2, windows2_elem.
Qed.

(** A task more, among the tasks that may be sequences with [u] before [v]. *)
Lemma sequence_snoc (pre : list Task) task u v :
  (∃ t p q, (pre ++ [task]) !! t = Some (TOrdered (p ++ u :: v :: q))) ↔
  (∃ t p q, pre !! t = Some (TOrdered (p ++ u :: v :: q))) ∨ (∃ p q, task = TOrdered (p ++ u :: v :: q)).
Proof.
  setoid_rewrite lookup_snoc_Some. split.
  - intros (t & p & q & [[_ ?]|[_ ->]]); [left|right]; eauto.
  - intros [(t & p & q & Ht)|(p & q & ->)]; [|by eauto 10].
    exists t, p, q. left. split; [by eapply lookup_lt_Some|done].
Qed.

Lemma build_task_edges_spec `{HashOrder} {E} info (P : list (gset nat) → Prop) (Q : E → Prop) :
  info_wf info →
  (∀ es, length es = length (ti_tasks info) → (∀ u v, set_edge es u v ↔ task_edge info u v) → P es) →
  wp (build_task_edges info) P Q.
Proof.
  intros Hwf HP. pose proof Hwf as (_ & Hc & _). unfold build_task_edges.
  apply wp_bind, explicit_edges_spec; [done|]. intros es Hlen Hes.
  apply (wp_for_each (λ pre es', length es' = length (ti_tasks info) ∧
    ∀ u v, set_edge es' u v ↔
      explicit_edge info u v ∨ ∃ t p q, pre !! t = Some (TOrdered (p ++ u :: v :: q)))).
  - split; [done|]. intros u v. rewrite Hes. split; [by left|]. by intros [?|(? & ? & ? & ?)].
  - intros pre task post es1 Heq [Hlen1 Hes1].
    assert (Htask : ti_tasks info !! length pre = Some task) by (rewrite Heq, list_lookup_middle; done).
    destruct task as [at'|cs|cs];
      try (apply wp_ret; split; [done|]; intros u v; rewrite Hes1, sequence_snoc; naive_solver).
    apply sequence_edges_spec.
    + intros c Hin. rewrite Hlen1. apply (Hc (length pre)), (child_ordered _ _ _ _ Htask), Hin.
    + intros es2 Hlen2 Hes2. split; [lia|]. intros u v. rewrite Hes2, Hes1, sequence_snoc. naive_solver.
  - intros es1 [Hlen1 Hes1]. apply HP; [done|]. intros u v. rewrite Hes1. split.
    + intros [(ds & ? & ?)|(t & p & q & ?)]; [by eapply task_edge_explicit|by eapply task_edge_ordered].
    + intros [ds ? ?|t p q ?]; [left; by exists ds|right; by exists t, p, q].
Qed.

(** ** Contraction of empty tasks *)

(** The task edges not pushed yet. *)
Definition unseen_work (seen : list bool) (task_edges : list (gset nat)) : nat :=
  sum_list (zip_with (λ (b : bool) s, if b then 0 else size s) seen task_edges).

Lemma unseen_work_see seen tes v s :
  seen !! v = Some false → tes !! v = Some s →
  unseen_work (<[v:=true]> seen) tes + size s = unseen_work seen tes.
Proof.
  unfold unseen_work. revert tes v.
  induction seen as [|b seen IH]; intros [|s' tes] [|v] Hv Hs; simplify_eq/=; [lia|].
  rewrite <-(IH tes v) by done. lia.
Qed.

Lemma unseen_work_init n (tes : list (gset nat)) : unseen_work (replicate n false) tes <= sum_list_with size tes.
Proof.
  unfold unseen_work. revert n. induction tes as [|s tes IH]; intros [|n]; simpl; [lia..|].
  specialize (IH n). lia.
Qed.

Lemma sum_sizes_ge (tes : list (gset nat)) v s : tes !! v = Some s → size s <= sum_list_with size tes.
Proof.
  revert v. induction tes as [|s' tes IH]; intros [|v] Hv; simplify_eq/=; [lia|].
  specialize (IH _ Hv). lia.
Qed.

Section contraction.
  Context `{HashOrder} (info : TaskInfo) (Hwf : info_wf info).
  Abbreviation ts := (ti_tasks info).
  Context (boundaries : list (option Boundary)) (task_edges : list (gset nat)).
  Context (Hboundaries : length boundaries = length ts).
  Context (Hbok : ∀ t, t < length ts → ∃ b, boundaries !! t = Some (Some b) ∧ boundary_ok ts b t).
  Context (Hnested : ∀ t, nested ts t).
  Context (Hlen : length task_edges = length ts).
  Context (Hedge : ∀ u v, set_edge task_edges u v ↔ task_edge info u v).

(** The atom edges out of [from]. *)
Definition from_edge (from i j : nat) : Prop :=
  ∃ v a b, leads_to info from v ∧ atom_ids ts !! i = Some a ∧ last_atom ts from a ∧
           atom_ids ts !! j = Some b ∧ first_atom ts v b.

(** The state of the worklist that follows the edges of [from]. *)
Record follow_inv (from : nat) (source : Boundary) (es0 : list (gset nat))
    (st : list bool * list nat * list (gset nat)) : Prop := {
  fi_seen_len : length st.1.1 = length ts;
  fi_len : length st.2 = length es0;
  fi_seen : ∀ v, st.1.1 !! v = Some true → leads_to info from v;
  fi_stack : ∀ v, v ∈ st.1.2 → leads_to info from v;
  fi_start : ∀ v, task_edge info from v → st.1.1 !! v = Some true ∨ v ∈ st.1.2;
  fi_next : ∀ e v, st.1.1 !! e = Some true → empty_task ts e → task_edge info e v →
    st.1.1 !! v = Some true ∨ v ∈ st.1.2;
  fi_edges : ∀ i j, set_edge st.2 i j ↔ set_edge es0 i j ∨
    (i ∈ exits source ∧ ∃ v b, st.1.1 !! v = Some true ∧ boundaries !! v = Some (Some b) ∧ j ∈ entries b);
}.

Lemma follow_done from source es0 seen es v :
  follow_inv from source es0 (seen, [], es) → leads_to info from v → seen !! v = Some true.
Proof.
  intros Hinv Hp. pose proof (fi_start _ _ _ _ Hinv) as Hfirst.
  pose proof (fi_next _ _ _ _ Hinv) as Hnext. clear Hinv. simpl in *.
  assert (Hnil : ∀ P x, P ∨ x ∈ @nil nat → P) by (intros P x [?|[]%not_elem_of_nil]; done).
  induction Hp as [u v Huv|u e v Hue He _ IH]; [by eapply Hnil, Hfirst|].
  apply IH. intros w Hw. apply (Hnext e w); [|done..]. by eapply Hnil, Hfirst.
Qed.

Lemma empty_path_snoc from e v :
  leads_to info from e → empty_task ts e → task_edge info e v → leads_to info from v.
Proof.
  intros Hp He Hev. induction Hp as [u e Hue|u x e Hux Hx _ IH].
  - eapply leads_through; [done..|]. by apply leads_once.
  - eapply leads_through; [done..|]. by apply IH.
Qed.

(** The pop of a task already seen. *)
Lemma follow_inv_pop from source es0 seen stack to es :
  follow_inv from source es0 (seen, stack ++ [to], es) → seen !! to = Some true →
  follow_inv from source es0 (seen, stack, es).
Proof.
  intros [Hl1 Hl2 Hse Hst Hsa Hne Hes] Hto. split; simpl in *; try done.
  - intros v Hv. apply Hst. set_solver.
  - intros v [?|[?| ->%list_elem_of_singleton]%elem_of_app]%Hsa; auto.
  - intros e v He Hem Hev. destruct (Hne e v He Hem Hev) as [?|[?| ->%list_elem_of_singleton]%elem_of_app]; auto.
Qed.

(** The visit of a new task: its successors are pushed when it is empty, its
    entries connected when it is not. *)
Lemma follow_inv_see from source es0 seen stack to es b push es' :
  follow_inv from source es0 (seen, stack ++ [to], es) → to < length ts →
  boundaries !! to = Some (Some b) →
  (∀ v, v ∈ push → empty_task ts to ∧ task_edge info to v) →
  (empty_task ts to → ∀ v, task_edge info to v → v ∈ push) →
  length es' = length es →
  (∀ i j, set_edge es' i j ↔ set_edge es i j ∨ (i ∈ exits source ∧ j ∈ entries b)) →
  follow_inv from source es0 (<[to:=true]> seen, stack ++ push, es').
Proof.
  intros [Hl1 Hl2 Hse Hst Hsa Hne Hes] Hlt Hb Hpush Hall Hl Hes'. simpl in *.
  assert (Hto : leads_to info from to) by (apply Hst; set_solver).
  assert (Hsee : ∀ v, <[to:=true]> seen !! v = Some true ↔ v = to ∨ seen !! v = Some true).
  { intros v. rewrite list_lookup_insert_Some. destruct (decide (to = v)) as [->|]; [|naive_solver].
    rewrite Hl1. naive_solver. }
  split; simpl; [by rewrite length_insert|congruence|..].
  - intros v [->|?]%Hsee; auto.
  - intros v [Hv|Hv]%elem_of_app; [apply Hst; set_solver|].
    destruct (Hpush v Hv). by eapply empty_path_snoc.
  - intros v [Hv|[Hv| ->%list_elem_of_singleton]%elem_of_app]%Hsa; rewrite Hsee, elem_of_app; auto.
  - intros e v [->|He]%Hsee Hem Hev; rewrite Hsee, elem_of_app; [by auto|].
    destruct (Hne e v He Hem Hev) as [?|[?| ->%list_elem_of_singleton]%elem_of_app]; auto.
  - intros i j. rewrite Hes', Hes. setoid_rewrite Hsee. split.
    + intros [[?|(? & v & b' & ? & ? & ?)]|[? ?]]; eauto 10.
    + intros [?|(? & v & b' & [->|?] & ? & ?)]; simplify_eq; eauto 10.
Qed.

Definition follow_measure (st : list bool * list nat * list (gset nat)) : nat :=
  length st.1.2 + unseen_work st.1.1 task_edges.

Lemma get_boundary_spec {E} t b (P : Boundary → Prop) (Q : E → Prop) :
  boundaries !! t = Some (Some b) → P b → wp (get_boundary boundaries t) P Q.
Proof. intros Hb HP. unfold get_boundary, vget. rewrite Hb. by apply wp_ret. Qed.

Lemma follow_step_spec {E} from source es0 st (Q : E → Prop) :
  boundary_ok ts source from → length es0 = length (atom_ids ts) → follow_inv from source es0 st →
  wp (follow_step boundaries task_edges from source st)
    (λ o, match o with
          | inl st' => follow_inv from source es0 st' ∧ follow_measure st' < follow_measure st
          | inr es => follow_inv from source es0 (st.1.1, [], es)
          end) Q.
Proof.
  intros Hsource Hes0 Hinv. destruct st as [[seen stack] es]. simpl.
  destruct (list_snoc_inv stack) as [->|(stack' & to & ->)]; [by apply wp_ret|].
  rewrite vpop_app. assert (Hto : to < length ts).
  { eapply (leads_to_lt _ from); [done|]. apply (fi_stack _ _ _ _ Hinv). set_solver. }
  destruct (Hbok to Hto) as (b & Hb & Hbto).
  pose proof (fi_seen_len _ _ _ _ Hinv) as Hsl. simpl in Hsl.
  apply wp_bind, wp_vget; [lia|]. intros [|] Hseen.
  { apply wp_ret. split; [by eapply follow_inv_pop|]. unfold follow_measure. simpl.
    rewrite length_app. simpl. lia. }
  apply wp_bind, wp_vset; [lia|].
  apply wp_bind, (get_boundary_spec _ b); [done|].
  assert (∃ next, task_edges !! to = Some next) as [next Hnext] by (apply lookup_lt_is_Some; lia).
  pose proof (unseen_work_see _ _ _ _ Hseen Hnext) as Hwork.
  pose proof (boundary_entries_nil _ _ _ Hbto (Hnested to)) as Hnil.
  assert (Hedges : ∀ v, v ∈ hash_iter [2; from; to] next ↔ task_edge info to v).
  { intros v. rewrite hash_iter_perm, elem_of_elements, <-Hedge. unfold set_edge. rewrite Hnext. naive_solver. }
  case_decide as Hempty.
  - unfold vget. rewrite Hnext. simpl. apply wp_ret. split.
    + eapply follow_inv_see; [done..| | |done|].
      * intros v ?%Hedges. split; [by apply Hnil|done].
      * intros _ v. apply Hedges.
      * intros i j. rewrite Hempty. set_solver.
    + unfold follow_measure. simpl. rewrite !length_app, hash_iter_perm. simpl.
      change (length (elements next)) with (size next). lia.
  - apply wp_bind, connect_spec.
    { intros i Hi. apply (boundary_exits_lt info source from) in Hi; [|done].
      pose proof (fi_len _ _ _ _ Hinv). simpl in *. lia. }
    intros es' Hl' Hes'. apply wp_ret. split.
    + rewrite <-(app_nil_r stack'). eapply follow_inv_see; [done..| | |done|done].
      * by intros v ?%elem_of_nil.
      * intros He. by apply Hnil in He.
    + unfold follow_measure. simpl. rewrite !length_app. simpl. lia.
Qed.

Lemma contract_from_spec {E} from es (P : list (gset nat) → Prop) (Q : E → Prop) :
  from < length ts → length es = length (atom_ids ts) →
  (∀ es', length es' = length es →
     (∀ i j, set_edge es' i j ↔ set_edge es i j ∨ from_edge from i j) → P es') →
  wp (contract_from boundaries task_edges from es) P Q.
Proof.
  intros Hlt Hes HP. unfold contract_from. destruct (Hbok from Hlt) as (source & Hb & Hsource).
  apply wp_bind, (get_boundary_spec _ source); [done|].
  pose proof (boundary_entries_nil _ _ _ Hsource (Hnested from)) as Hnil. case_decide as Hempty.
  { apply wp_ret, HP; [done|]. intros i j. split; [by left|].
    intros [?|(v & a & b & _ & _ & Ha%last_in_task & _)]; [done|]. exfalso. by eapply Hnil. }
  assert (∃ start, task_edges !! from = Some start) as [start Hstart] by (apply lookup_lt_is_Some; lia).
  apply wp_bind. unfold vget. rewrite Hstart. apply wp_ret.
  assert (Hedges : ∀ v, v ∈ hash_iter [1; from] start ↔ task_edge info from v).
  { intros v. rewrite hash_iter_perm, elem_of_elements, <-Hedge. unfold set_edge. rewrite Hstart. naive_solver. }
  assert (Hunseen : ∀ v, ¬ replicate (length boundaries) false !! v = Some true).
  { by intros v [? _]%lookup_replicate. }
  eapply (wp_loop (follow_inv from source es) follow_measure).
  - intros st Hst. eapply wp_mono; [by apply follow_step_spec| |done].
    intros [st'|es']; [done|]. intros Hinv. apply HP; [apply (fi_len _ _ _ _ Hinv)|].
    intros i j. rewrite (fi_edges _ _ _ _ Hinv i j). simpl. split.
    + intros [?|(Hi & v & b & Hv & Hbv & Hj)]; [by left|right].
      pose proof (fi_seen _ _ _ _ Hinv v Hv) as Hp. destruct (Hbok v) as (b' & Hb' & Hbok').
      { by apply (leads_to_lt _ _ _ Hwf Hp). }
      simplify_eq. apply Hsource in Hi as (a & Hi & Ha). apply Hbok' in Hj as (b'' & Hj & Hb'').
      by exists v, a, b''.
    + intros [?|(v & a & b & Hp & Hi & Ha & Hj & Hb')]; [by left|right].
      split; [apply Hsource; eauto|]. destruct (Hbok v) as (bv & Hbv & Hbok').
      { by apply (leads_to_lt _ _ _ Hwf Hp). }
      exists v, bv. split_and!; [by eapply follow_done|done|apply Hbok'; eauto].
  - split; simpl; [by rewrite length_replicate|done|..].
    + by intros v ?%Hunseen.
    + intros v ?%Hedges. by apply leads_once.
    + intros v ?%Hedges. by right.
    + by intros e v ?%Hunseen.
    + intros i j. split; [by left|]. intros [?|(_ & v & b & ?%Hunseen & _)]; done.
  - unfold follow_measure, follow_fuel. simpl. rewrite hash_iter_perm.
    change (length (elements start)) with (size start).
    pose proof (unseen_work_init (length boundaries) task_edges).
    pose proof (sum_sizes_ge _ _ _ Hstart). lia.
Qed.

Lemma contract_empty_spec {E} es (P : list (gset nat) → Prop) (Q : E → Prop) :
  length es = length (atom_ids ts) →
  (∀ i j, set_edge es i j → id_rel ts (boundary_edge info) i j) →
  (∀ es', length es' = length (atom_ids ts) →
     (∀ i j, set_edge es' i j ↔ id_rel ts (boundary_edge info) i j) → P es') →
  wp (contract_empty boundaries task_edges es) P Q.
Proof.
  intros Hes Hsound HP. unfold contract_empty. rewrite Hboundaries, as_u32_small by apply Hwf.
  apply (wp_for_each (λ pre es', length es' = length es ∧
    ∀ i j, set_edge es' i j ↔ set_edge es i j ∨ ∃ u, u ∈ pre ∧ from_edge u i j)).
  - split; [done|]. set_solver.
  - intros pre u post es1 [-> Hu]%seq_split [Hlen1 Hes1].
    apply contract_from_spec; [done|lia|]. intros es2 Hlen2 Hes2. split; [lia|].
    intros i j. rewrite Hes2, Hes1. set_solver.
  - intros es' [Hlen' Hes']. apply HP; [lia|]. intros i j. rewrite Hes'. split.
    + intros [?|(u & _ & v & a & b & ? & ? & ? & ? & ?)]; [by apply Hsound|].
      exists a, b. split_and!; [done..|]. by exists u, v.
    + intros (a & b & Hi & Hj & u & v & Ha & Hb & Hp). right. exists u.
      split; [apply elem_of_seq; apply (leads_to_lt _ _ _ Hwf) in Hp; lia|]. by exists v, a, b.
Qed.

End contraction.
