(* ===== verification/CompilerCorrect.v ===== *)
(** * The compiled setup respects the order of the test

    From the edges computed in [CompilerProofs] to the final graphs: the
    task graph and its order, the reduction of the atom graph, the renumbering
    and the transposition; then the properties of [compile] as a whole. *)

From S2P Require Import Prelude Index Graph Topo Reduction Model Compiler TaskOrder CompilerProofs.

(** ** Specifications *)

(** The edges of the graph that [compile] orders: the task edges, and the atom
    edges between different atoms. *)
Definition order_edge (info : TaskInfo) (u v : nat) : Prop :=
  task_edge info u v ∨ (boundary_edge info u v ∧ u ≠ v).

(** The final graphs, for the atom tasks [order] in execution order. *)
Record compiled (info : TaskInfo) (order : list nat) (cs : CompiledSetup) : Prop := {
  co_perm : order ≡ₚ atom_ids (ti_tasks info);
  co_atoms : Forall2 (λ a at', ti_tasks info !! a = Some (TAtom at')) order (cs_atoms cs);
  co_files : cs_file_count cs = ti_file_count info;
  co_after_wf : graph_wf (cs_after_graph cs);
  co_after_nodes : num_nodes (cs_after_graph cs) = length order;
  co_order : ∀ p q a b, order !! p = Some a → order !! q = Some b →
    tc (gedge (cs_after_graph cs)) p q ↔ tc (boundary_edge info) a b;
  co_forward : ∀ p q, gedge (cs_after_graph cs) p q → p <= q;
  co_self : ∀ p a, order !! p = Some a → gedge (cs_after_graph cs) p p ↔ boundary_edge info a a;
  co_sorted : ∀ p, p < length order → StronglySorted lt (adj (cs_after_graph cs) p);
  co_minimal : ∀ p q, gedge (cs_after_graph cs) p q → p ≠ q →
    ¬ tc (gedge_without (cs_after_graph cs) p q) p q;
  co_before_nodes : num_nodes (cs_before_graph cs) = length order;
  co_before : ∀ q, q < length order → edges (cs_before_graph cs) q =
    Some (filter (λ p, q ∈ adj (cs_after_graph cs) p) (seq 0 (length order)));
}.

(** ** Packing sets of edges *)

Lemma elem_of_imap_pair {A} (l : list A) i x : (i, x) ∈ imap pair l ↔ l !! i = Some x.
Proof.
  rewrite elem_of_lookup_imap. split; [by intros (j & y & [= -> ->] & ?)|].
  intros Hx. by exists i, x.
Qed.

Lemma pack_sets_spec `{HashOrder} {E} site sets (P : VecGraph → Prop) (Q : E → Prop) :
  idx_room (length sets) →
  (∀ i j, set_edge sets i j → j < length sets) →
  (∀ vg, num_nodes vg = length sets → graph_wf vg → (∀ i j, gedge vg i j ↔ set_edge sets i j) → P vg) →
  wp (pack_sets site sets) P Q.
Proof.
  intros Hroom Hlt HP. unfold pack_sets. apply vg_from_lists_spec; [by rewrite length_imap|].
  intros vg [Hlen Hes]. rewrite length_imap in Hlen.
  assert (Hadj : ∀ i s, sets !! i = Some s →
    edges vg i = Some (sort_nat (hash_iter [site; i] s)) ∧
    ∀ j, j ∈ sort_nat (hash_iter [site; i] s) ↔ j ∈ s).
  { intros i s Hs. rewrite Hes, list_lookup_imap, Hs. split; [done|]. intros j.
    unfold sort_nat. by rewrite merge_sort_Permutation, hash_iter_perm, elem_of_elements. }
  assert (Hedge : ∀ i j, gedge vg i j ↔ set_edge sets i j).
  { intros i j. unfold gedge, adj, set_edge. change (num_nodes vg) with (length (vg_nodes vg)).
    rewrite Hlen. split.
    - intros [[s Hs]%lookup_lt_is_Some Hj]. destruct (Hadj _ _ Hs) as [He Hin].
      rewrite He in Hj. exists s. split; [done|]. by apply Hin.
    - intros (s & Hs & Hj). split; [by eapply lookup_lt_Some|].
      destruct (Hadj _ _ Hs) as [He Hin]. rewrite He. by apply Hin. }
  apply HP; [done| |done]. split; [by change (num_nodes vg) with (length (vg_nodes vg)); rewrite Hlen|].
  intros i Hi. change (num_nodes vg) with (length (vg_nodes vg)) in *. rewrite Hlen in Hi.
  pose proof Hi as [s Hs]%lookup_lt_is_Some. destruct (Hadj _ _ Hs) as [He _]. unfold adj at 1.
  rewrite He. split; [done|]. apply Forall_forall. intros j Hj. rewrite Hlen. apply (Hlt i).
  apply Hedge. split; [by change (num_nodes vg) with (length (vg_nodes vg)); rewrite Hlen|done].
Qed.

(** The elements named by the positions of a set. *)
Lemma names_of_set `{HashOrder} site (ids : list nat) (s : gset nat) bs :
  Forall2 (λ j b, ids !! j = Some b) (hash_iter site s) bs →
  ∀ b, b ∈ bs ↔ ∃ j, j ∈ s ∧ ids !! j = Some b.
Proof.
  intros Hbs b. setoid_rewrite <-elem_of_elements. setoid_rewrite <-(hash_iter_perm site s). split.
  - intros [k Hk]%list_elem_of_lookup. destruct (Forall2_lookup_r _ _ _ _ _ Hbs Hk) as (j & Hj & ?).
    exists j. split; [by eapply list_elem_of_lookup_2|done].
  - intros (j & [k Hk]%list_elem_of_lookup & Hj).
    destruct (Forall2_lookup_l _ _ _ _ _ Hbs Hk) as (b' & Hb' & ?). simplify_eq.
    by eapply list_elem_of_lookup_2.
Qed.

(** The edges between atoms as edges between their tasks. *)
Lemma named_atom_edges info atom_edges u v :
  (∀ i j, set_edge atom_edges i j ↔ id_rel (ti_tasks info) (boundary_edge info) i j) →
  (∃ i s j, atom_edges !! i = Some s ∧ j ∈ s ∧ atom_ids (ti_tasks info) !! i = Some u ∧
     atom_ids (ti_tasks info) !! j = Some v ∧ u ≠ v) ↔ boundary_edge info u v ∧ u ≠ v.
Proof.
  intros Hatom. split.
  - intros (i & s & j & Hs & Hj & Hu & Hv & Hne). split; [|done].
    destruct (proj1 (Hatom i j)) as (a & b & Ha & Hb & ?); [by exists s|]. by simplify_eq.
  - intros [Hb Hne].
    assert (Hid : ∀ a, atom_task (ti_tasks info) a → ∃ i, atom_ids (ti_tasks info) !! i = Some a).
    { intros a Ha. by apply list_elem_of_lookup, atom_ids_elem. }
    pose proof Hb as (x & y & [_ Hu]%last_in_task & [_ Hv]%first_in_task & _).
    destruct (Hid _ Hu) as [i Hi], (Hid _ Hv) as [j Hj].
    destruct (proj2 (Hatom i j)) as (s & Hs & Hjs); [by exists u, v|]. by exists i, s, j.
Qed.

Lemma add_atom_edges_spec `{HashOrder} {E} info atom_edges task_edges (P : list (gset nat) → Prop) (Q : E → Prop) :
  length atom_edges = length (atom_ids (ti_tasks info)) →
  (∀ i j, set_edge atom_edges i j ↔ id_rel (ti_tasks info) (boundary_edge info) i j) →
  length task_edges = length (ti_tasks info) →
  (∀ u v, set_edge task_edges u v ↔ task_edge info u v) →
  (∀ es, length es = length (ti_tasks info) → (∀ u v, set_edge es u v ↔ order_edge info u v) → P es) →
  wp (add_atom_edges (atom_ids (ti_tasks info)) atom_edges task_edges) P Q.
Proof.
  intros Hla Hatom Hlt Htask HP. unfold add_atom_edges.
  apply (wp_for_each (λ pre es, length es = length (ti_tasks info) ∧
    ∀ u v, set_edge es u v ↔ task_edge info u v ∨ ∃ i s j, (i, s) ∈ pre ∧ j ∈ s ∧
      atom_ids (ti_tasks info) !! i = Some u ∧ atom_ids (ti_tasks info) !! j = Some v ∧ u ≠ v)).
  - split; [done|]. intros u v. rewrite Htask. split; [by left|].
    intros [?|(? & ? & ? & []%not_elem_of_nil & _)]; done.
  - intros pre [i s] post es Heq [Hlen Hes].
    assert (Hi : atom_edges !! i = Some s) by (apply elem_of_imap_pair; rewrite Heq; set_solver).
    assert (is_Some (atom_ids (ti_tasks info) !! i)) as [a Ha]
      by (apply lookup_lt_is_Some; rewrite <-Hla; by eapply lookup_lt_Some).
    apply wp_bind, (wp_expect _ a); [done|].
    apply wp_bind, (wp_mapM (λ j b, atom_ids (ti_tasks info) !! j = Some b)).
    + intros j Hj. rewrite hash_iter_perm, elem_of_elements in Hj.
      destruct (proj1 (Hatom i j)) as (_ & b & _ & Hb & _); [by exists s|].
      unfold vget. rewrite Hb. by apply wp_ret.
    + intros bs Hall. pose proof (names_of_set _ _ _ _ Hall) as Hbs. apply extend_set_spec.
      { rewrite Hlen. by apply atom_task_lt, atom_ids_lookup with i. }
      intros es' Hlen' Hes'. split; [lia|]. intros u v.
      rewrite Hes', Hes, list_elem_of_filter, Hbs. setoid_rewrite elem_of_app.
      setoid_rewrite list_elem_of_singleton. split.
      * intros [[?|(i' & s' & j & ? & ? & ? & ? & ?)]|[-> [Hne (j & Hj & Hv)]]];
          [by left|right; exists i', s', j; by auto|right; exists i, s, j; by auto].
      * intros [?|(i' & s' & j & [?|[= -> ->]] & ? & ? & ? & ?)]; [by left; left| |].
        -- left. right. by exists i', s', j.
        -- right. simplify_eq. split; [done|]. split; [done|]. by exists j.
  - intros es [Hlen Hes]. apply HP; [done|]. intros u v. rewrite Hes. unfold order_edge.
    apply or_iff_compat_l. setoid_rewrite elem_of_imap_pair. by apply named_atom_edges.
Qed.

(** ** The order of the atoms *)

Lemma NoDup_omap_inj {A B} (f : A → option B) l :
  (∀ x y z, f x = Some z → f y = Some z → x = y) → NoDup l → NoDup (omap f l).
Proof.
  intros Hinj. induction 1 as [|x l Hx _ IH]; [constructor|]. simpl.
  destruct (f x) as [z|] eqn:Hz; [|done]. constructor; [|done].
  intros (y & Hy & Hfy)%list_elem_of_omap. by rewrite (Hinj x y z) in Hx.
Qed.

Lemma lookup_split2 {A} (l : list A) i j x y :
  l !! i = Some x → l !! j = Some y → i < j → ∃ l1 l2 l3, l = l1 ++ x :: l2 ++ y :: l3.
Proof.
  intros (l1 & l' & -> & ->)%list_elem_of_split_length Hj Hlt.
  rewrite lookup_app_r in Hj by lia. destruct (j - length l1) as [|k] eqn:?; [lia|]. simpl in Hj.
  apply list_elem_of_split_length in Hj as (l2 & l3 & -> & _). by exists l1, l2, l3.
Qed.

(** The identifier of an atom task. *)
Definition pick_atom (ts : list Task) (atoms_map : list nat) (a : nat) : option nat :=
  match ts !! a with Some (TAtom _) => atoms_map !! a | _ => None end.

Lemma pick_atom_ids ts atoms atoms_map a i :
  packed ts atoms atoms_map → pick_atom ts atoms_map a = Some i ↔ atom_ids ts !! i = Some a.
Proof.
  intros (_ & _ & Hp). unfold pick_atom. split.
  - destruct (ts !! a) as [[at'|cs|cs]|] eqn:Ha; try done. intros Hi.
    assert (∃ j, atom_ids ts !! j = Some a) as [j Hj].
    { apply list_elem_of_lookup, atom_ids_elem. by exists at'. }
    destruct (Hp _ _ Hj) as (Hm & _). by simplify_eq.
  - intros Hi. destruct (Hp _ _ Hi) as (Hm & at' & Ha & _). by rewrite Ha.
Qed.

Lemma order_atoms_spec {E} ts atoms atoms_map t (P : TopologicalOrder → Prop) (Q : E → Prop) :
  (N.of_nat (length ts) <= u32_MAX)%N → packed ts atoms atoms_map → topo_perm (length ts) t →
  (∀ ao, topo_perm (length (atom_ids ts)) ao →
     (∀ a b i j, topo_forward t a b → atom_ids ts !! i = Some a → atom_ids ts !! j = Some b →
        topo_forward ao i j) → P ao) →
  wp (order_atoms ts atoms_map (length atoms) t) P Q.
Proof.
  intros Hn Hp (Hperm & Hlen & Hinv) HP. unfold order_atoms.
  pose proof (pick_atom_ids ts atoms atoms_map) as Hpick. destruct (Hp) as (Hla & Hlm & _).
  rewrite (mapM_ret _ (λ a, from_option (λ i, [i]) [] (pick_atom ts atoms_map a))).
  2:{ intros a Ha. rewrite Hperm, elem_of_seq in Ha. unfold vget, pick_atom.
      destruct (lookup_lt_is_Some_2 ts a) as [task Htask]; [lia|].
      destruct (lookup_lt_is_Some_2 atoms_map a) as [i Hi]; [lia|]. rewrite Htask, Hi.
      by destruct task. }
  simpl. assert (Hjoin : ∀ l, mjoin ((λ a, from_option (λ i, [i]) [] (pick_atom ts atoms_map a)) <$> l) =
    omap (pick_atom ts atoms_map) l).
  { induction l as [|a l IH]; [done|]. simpl. destruct (pick_atom ts atoms_map a); simpl; [by f_equal|done]. }
  rewrite Hjoin. set (order := omap (pick_atom ts atoms_map) (topo_order t)).
  assert (Hin : ∀ i, i ∈ order ↔ i < length (atom_ids ts)).
  { intros i. unfold order. rewrite list_elem_of_omap. setoid_rewrite Hpick; [|done]. split.
    - intros (a & _ & Hi). by eapply lookup_lt_Some.
    - intros [a Ha]%lookup_lt_is_Some. exists a. split; [|done]. rewrite Hperm. apply elem_of_seq.
      apply atom_ids_lookup, atom_task_lt in Ha. lia. }
  assert (Horder : order ≡ₚ seq 0 (length (atom_ids ts))).
  { apply NoDup_Permutation.
    - apply NoDup_omap_inj; [|rewrite Hperm; apply NoDup_seq]. intros x y i Hx Hy.
      apply Hpick in Hx, Hy; [|done..]. by simplify_eq.
    - apply NoDup_seq.
    - intros i. rewrite Hin, elem_of_seq. lia. }
  pose proof (atom_ids_length ts). rewrite as_u32_small by lia.
  apply wp_bind, (invert_loop_spec _ (length (atom_ids ts))); [done|by rewrite length_seq| |].
  { intros i v map Hi. by rewrite as_u32_small by lia. }
  intros map Hmap Hmapinv. apply wp_ret, HP; [by split_and!|].
  intros a b i j (k & l & Hk & Hl & Hlt) Hi Hj. apply Hinv in Hk, Hl.
  destruct (lookup_split2 _ _ _ _ _ Hk Hl Hlt) as (l1 & l2 & l3 & Ht).
  apply Hpick in Hi, Hj; [|done..].
  assert (Hsplit : order = omap (pick_atom ts atoms_map) l1 ++
    i :: omap (pick_atom ts atoms_map) l2 ++ j :: omap (pick_atom ts atoms_map) l3).
  { unfold order. rewrite Ht, omap_app. simpl. rewrite Hi, omap_app. simpl. by rewrite Hj. }
  eexists _, _. split_and!; [apply Hmapinv|apply Hmapinv|].
  - rewrite Hsplit. by apply list_lookup_middle.
  - rewrite Hsplit, app_comm_cons, app_assoc. by apply list_lookup_middle.
  - rewrite length_app. simpl. lia.
Qed.

(** ** Renumbering and transposing *)

Section renumber.
  Context (ao : TopologicalOrder) (m : nat) (Hao : topo_perm m ao).
  Context (r : BasicGraph) (Hr : num_nodes r = m).
  Context (Hwf : ∀ v, v < m → ∃ kept, edges r v = Some kept ∧ (∀ w, w ∈ kept → w < m) ∧
    StronglySorted (λ a b, topo_pos ao a < topo_pos ao b) kept).

Lemma ao_pos v : v < m → topo_map ao !! v = Some (topo_pos ao v).
Proof.
  intros Hv. destruct Hao as (_ & Hl & _). unfold topo_pos.
  destruct (lookup_lt_is_Some_2 (topo_map ao) v) as [p Hp]; [lia|]. by rewrite Hp.
Qed.

Lemma ao_order_length : length (topo_order ao) = m.
Proof. destruct Hao as (Hp & _). by rewrite Hp, length_seq. Qed.

Lemma remap_graph_spec {E} (P : VecGraph → Prop) (Q : E → Prop) :
  idx_room m →
  (∀ vg, num_nodes vg = m → graph_wf vg →
     (∀ p v, topo_order ao !! p = Some v → adj vg p = topo_pos ao <$> adj r v) →
     (∀ p, p < m → StronglySorted lt (adj vg p)) → P vg) →
  wp (remap_graph ao r) P Q.
Proof.
  intros Hroom HP. unfold remap_graph.
  assert (Hin : ∀ p v, topo_order ao !! p = Some v → v < m).
  { intros p v Hv%list_elem_of_lookup_2. destruct Hao as (Hp & _). rewrite Hp, elem_of_seq in Hv. lia. }
  rewrite (mapM_ret _ (λ v, topo_pos ao <$> adj r v)).
  2:{ intros v [p Hp]%list_elem_of_lookup. apply Hin in Hp. destruct (Hwf v Hp) as (kept & Hk & Hlt & _).
      unfold adj. rewrite Hk. simpl. apply mapM_ret. intros w Hw. unfold vget.
      by rewrite ao_pos by by apply Hlt. }
  simpl. apply vg_from_lists_spec; [by rewrite length_fmap, ao_order_length|].
  intros vg [Hlen Hes]. rewrite length_fmap, ao_order_length in Hlen.
  assert (Hadj : ∀ p v, topo_order ao !! p = Some v → edges vg p = Some (topo_pos ao <$> adj r v)).
  { intros p v Hp. by rewrite Hes, list_lookup_fmap, Hp. }
  assert (Hat : ∀ p, p < m → ∃ v, topo_order ao !! p = Some v).
  { intros p Hp. apply lookup_lt_is_Some. by rewrite ao_order_length. }
  apply HP; [done| | |].
  - split; [by change (num_nodes vg) with (length (vg_nodes vg)); rewrite Hlen|].
    intros p Hp. change (num_nodes vg) with (length (vg_nodes vg)) in *. rewrite Hlen in *.
    destruct (Hat p Hp) as [v Hv]. unfold adj. rewrite (Hadj _ _ Hv). split; [done|].
    apply Forall_forall. intros q (w & -> & Hw)%list_elem_of_fmap.
    destruct (Hwf v (Hin _ _ Hv)) as (kept & Hk & Hlt & _). unfold adj in Hw. rewrite Hk in Hw.
    destruct Hao as (_ & _ & Hinv). rewrite <-ao_order_length. apply (lookup_lt_Some _ _ w), Hinv, ao_pos, Hlt, Hw.
  - intros p v Hv. unfold adj at 1. by rewrite (Hadj _ _ Hv).
  - intros p Hp. destruct (Hat p Hp) as [v Hv]. unfold adj at 1. rewrite (Hadj _ _ Hv). simpl.
    destruct (Hwf v (Hin _ _ Hv)) as (kept & Hk & _ & Hs). unfold adj. rewrite Hk. simpl.
    clear -Hs. induction Hs as [|w kept _ IH Hw]; simpl; constructor; [done|].
    apply Forall_fmap. by eapply Forall_impl.
Qed.

End renumber.

Lemma transpose_spec {E} (g : VecGraph) (P : VecGraph → Prop) (Q : E → Prop) :
  graph_wf g → (∀ p, p < num_nodes g → NoDup (adj g p)) →
  (∀ b, num_nodes b = num_nodes g → (∀ q, q < num_nodes g →
     edges b q = Some (filter (λ p, q ∈ adj g p) (seq 0 (num_nodes g)))) → P b) →
  wp (transpose g) P Q.
Proof.
  intros Hg Hnd HP. unfold transpose. rewrite iter_nodes_ret by apply Hg. apply wp_bind, wp_ret.
  set (n := num_nodes g).
  apply wp_bind, (wp_for_each (λ pre be, length be = n ∧
    ∀ q, q < n → be !! q = Some (filter (λ p, q ∈ adj g p) pre))).
  - rewrite length_replicate. split; [done|]. intros q Hq. by rewrite lookup_replicate_2.
  - intros pre p post be [-> Hp]%seq_split [Hlen Hbe]. apply wp_bind, (wp_expect _ (adj g p)); [by apply edges_adj|].
    apply (wp_for_each (λ pre' be, length be = n ∧ ∀ q, q < n →
      be !! q = Some (filter (λ p, q ∈ adj g p) (seq 0 p) ++ if decide (q ∈ pre') then [p] else []))).
    + split; [done|]. intros q Hq. rewrite Hbe, decide_False by (done || apply not_elem_of_nil).
      by rewrite app_nil_r.
    + intros pre' to post' be1 Hadj [Hlen1 Hbe1].
      assert (Hto : to < n).
      { destruct (proj2 Hg p Hp) as [_ Hall]. rewrite Forall_forall in Hall. apply Hall.
        rewrite Hadj. set_solver. }
      assert (Hnin : to ∉ pre').
      { specialize (Hnd p Hp). rewrite Hadj in Hnd. apply NoDup_app in Hnd as (_ & Hd & _).
        intros Hin. apply (Hd to Hin). by left. }
      unfold vget. rewrite (Hbe1 to Hto), decide_False by done. simpl. apply wp_vset; [lia|].
      rewrite length_insert. split; [done|]. intros q Hq. destruct (decide (to = q)) as [<-|Hne].
      * rewrite list_lookup_insert_eq by lia. rewrite decide_True by set_solver.
        unfold vpush. by rewrite app_nil_r.
      * rewrite list_lookup_insert_ne by done. rewrite Hbe1 by done. do 2 f_equal.
        apply decide_ext. set_solver.
    + intros be1 [Hlen1 Hbe1]. split; [done|]. intros q Hq. rewrite Hbe1 by done.
      by rewrite filter_app.
  - intros be [Hlen Hbe]. apply vg_from_lists_spec; [rewrite Hlen; apply Hg|].
    intros b [Hlb Hb]. apply HP; [exact (eq_trans Hlb Hlen)|]. intros q Hq. by rewrite Hb, Hbe.
Qed.

(** ** The final graphs *)

Lemma lookup_seq_id {A} (l : list A) d : (λ i, default d (l !! i)) <$> seq 0 (length l) = l.
Proof.
  apply list_eq. intros i. rewrite list_lookup_fmap.
  destruct (decide (i < length l)) as [[x Hx]%lookup_lt_is_Some|Hge].
  - rewrite lookup_seq_lt by (by eapply lookup_lt_Some). simpl. by rewrite Hx.
  - rewrite lookup_seq_ge, lookup_ge_None_2 by lia. done.
Qed.

Section result.
  Context (info : TaskInfo) (Hwf : info_wf info).
  Abbreviation ts := (ti_tasks info).
  Abbreviation m := (length (atom_ids ts)).
  Context (ag : VecGraph) (Hag : num_nodes ag = m) (Hagwf : graph_wf ag).
  Context (Hagedge : ∀ i j, gedge ag i j ↔ id_rel ts (boundary_edge info) i j).
  Context (ao : TopologicalOrder) (Hao : topo_weak ag ao).
  Context (r : BasicGraph) (Hr : reduces_all ag ao r).
  Context (after : VecGraph) (Hnodes : num_nodes after = m) (Hafterwf : graph_wf after).
  Context (Hadj : ∀ p v, topo_order ao !! p = Some v → adj after p = topo_pos ao <$> adj r v).

(** The atom at a position. *)
Definition at_pos (p : nat) : nat := default 0 (topo_order ao !! p).

Lemma at_pos_lookup p : p < m → topo_order ao !! p = Some (at_pos p) ∧ at_pos p < m.
Proof.
  intros Hp. destruct Hao as [(Hperm & _) _].
  assert (is_Some (topo_order ao !! p)) as [v Hv]
    by (apply lookup_lt_is_Some; rewrite Hperm, length_seq; lia).
  unfold at_pos. rewrite Hv. split; [done|]. apply list_elem_of_lookup_2 in Hv.
  rewrite Hperm, elem_of_seq in Hv. simpl. lia.
Qed.

Lemma topo_pos_lt v : v < m → topo_pos ao v < m ∧ at_pos (topo_pos ao v) = v.
Proof.
  intros Hv. rewrite <-Hag in Hv. pose proof (topo_pos_order _ _ Hao v Hv) as Hp.
  unfold at_pos. rewrite Hp. split; [|done]. apply lookup_lt_Some in Hp.
  destruct Hao as [(Hperm & _) _]. rewrite Hperm, length_seq in Hp. lia.
Qed.

Lemma pos_at p : p < m → topo_pos ao (at_pos p) = p.
Proof.
  intros Hp. destruct (at_pos_lookup p Hp) as [Hl _]. destruct Hao as [(_ & _ & Hinv) _].
  unfold topo_pos. by rewrite (proj1 (Hinv _ _) Hl).
Qed.

Lemma at_pos_inj p q : p < m → q < m → at_pos p = at_pos q → p = q.
Proof. intros Hp Hq Heq. by rewrite <-(pos_at p), <-(pos_at q), Heq by done. Qed.

Lemma after_edge p q : gedge after p q ↔ p < m ∧ q < m ∧ gedge r (at_pos p) (at_pos q).
Proof.
  destruct Hr as [Hrn _]. split.
  - intros Hpq. destruct (gedge_lt _ _ _ Hafterwf Hpq) as [Hp Hq]. rewrite Hnodes in Hp, Hq.
    split_and!; [done..|]. destruct Hpq as [_ Hin]. destruct (at_pos_lookup p Hp) as [Hl Hlt].
    rewrite (Hadj _ _ Hl) in Hin. apply list_elem_of_fmap in Hin as (w & -> & Hw).
    assert (Hrw : gedge r (at_pos p) w) by (split; [by rewrite Hrn, Hag|done]).
    assert (Hwm : w < m).
    { apply (reduces_gedge ag ao) in Hrw; [|done]. apply (gedge_lt _ _ _ Hagwf) in Hrw. lia. }
    by rewrite (proj2 (topo_pos_lt w Hwm)).
  - intros (Hp & Hq & _ & Hin). split; [by rewrite Hnodes|].
    destruct (at_pos_lookup p Hp) as [Hl Hlt]. rewrite (Hadj _ _ Hl).
    apply list_elem_of_fmap. exists (at_pos q). split; [by rewrite pos_at|done].
Qed.

Lemma after_tc p q : p < m → q < m → tc (gedge after) p q ↔ tc (gedge ag) (at_pos p) (at_pos q).
Proof.
  intros Hp Hq. rewrite <-(reduces_tc ag ao Hagwf Hao r) by done. split; intros Ht.
  - eapply tc_congruence; [|done]. by intros x y (_ & _ & ?)%after_edge.
  - apply (tc_congruence (topo_pos ao) (gedge after)) in Ht; [by rewrite !pos_at in Ht|].
    intros x y Hxy. pose proof (reduces_gedge _ _ _ _ _ Hr Hxy) as [Hx Hy]%(gedge_lt _ _ _ Hagwf).
    rewrite Hag in Hx, Hy. destruct (topo_pos_lt _ Hx) as [? Ex], (topo_pos_lt _ Hy) as [? Ey].
    apply after_edge. by rewrite Ex, Ey.
Qed.

Lemma boundary_edge_atoms a b : boundary_edge info a b → atom_task ts a ∧ atom_task ts b.
Proof. by intros (u & v & [_ ?]%last_in_task & [_ ?]%first_in_task & _). Qed.

Lemma ag_tc i j a b : atom_ids ts !! i = Some a → atom_ids ts !! j = Some b →
  tc (gedge ag) i j ↔ tc (boundary_edge info) a b.
Proof.
  intros Hi Hj. split; intros Ht.
  - apply (tc_congruence (λ i, default 0 (atom_ids ts !! i)) (boundary_edge info)) in Ht.
    + by rewrite Hi, Hj in Ht.
    + intros x y (a' & b' & Ha & Hb & ?)%Hagedge. by rewrite Ha, Hb.
  - revert i Hi. induction Ht as [a b Hab|a c b Hac _ IH]; intros i Hi.
    + apply tc_once, Hagedge. by exists a, b.
    + pose proof Hac as [_ [k Hk]%atom_ids_elem%list_elem_of_lookup]%boundary_edge_atoms.
      eapply tc_l; [|by apply (IH Hj k)]. apply Hagedge. by exists a, c.
Qed.

(** The atom tasks in execution order. *)
Definition exec_order : list nat := (λ i, default 0 (atom_ids ts !! i)) <$> topo_order ao.

Lemma exec_order_perm : exec_order ≡ₚ atom_ids ts.
Proof.
  unfold exec_order. destruct Hao as [(Hperm & _) _]. rewrite Hperm, Hag. by rewrite lookup_seq_id.
Qed.

Lemma exec_order_lookup p a : exec_order !! p = Some a → p < m ∧ atom_ids ts !! at_pos p = Some a.
Proof.
  unfold exec_order. rewrite list_lookup_fmap_Some. intros (i & -> & Hi).
  assert (Hp : p < m).
  { apply lookup_lt_Some in Hi. destruct Hao as [(Hperm & _) _]. rewrite Hperm, length_seq in Hi. lia. }
  destruct (at_pos_lookup p Hp) as [Hl Hlt]. simplify_eq. split; [done|].
  by apply lookup_lt_is_Some in Hlt as [a ->].
Qed.

Lemma result_spec atoms before :
  Forall2 (λ i at', ∃ a, atom_ids ts !! i = Some a ∧ ts !! a = Some (TAtom at')) (topo_order ao) atoms →
  (∀ p, p < m → StronglySorted lt (adj after p)) →
  num_nodes before = m →
  (∀ q, q < m → edges before q = Some (filter (λ p, q ∈ adj after p) (seq 0 m))) →
  compiled info exec_order {| cs_atoms := atoms; cs_file_count := ti_file_count info;
                              cs_after_graph := after; cs_before_graph := before |}.
Proof.
  intros Hatoms Hsorted Hbn Hbefore.
  assert (Hlen : length exec_order = m) by (by rewrite exec_order_perm).
  split; simpl cs_atoms; simpl cs_file_count; simpl cs_after_graph; simpl cs_before_graph;
    rewrite ?Hlen; try done.
  - apply exec_order_perm.
  - unfold exec_order. apply Forall2_fmap_l. eapply Forall2_impl; [done|].
    intros i at' (a & Hi & Ha). simpl. by rewrite Hi.
  - intros p q a b [Hp Ha]%exec_order_lookup [Hq Hb]%exec_order_lookup.
    by rewrite after_tc, (ag_tc _ _ a b).
  - intros p q (Hp & Hq & Hpq)%after_edge. apply (reduces_gedge ag ao) in Hpq; [|done].
    destruct (decide (p = q)) as [->|Hne]; [done|].
    apply (topo_pos_edge ag ao Hagwf Hao) in Hpq; [|by intros ?%at_pos_inj].
    rewrite !pos_at in Hpq by done. lia.
  - intros p a [Hp Ha]%exec_order_lookup. rewrite after_edge.
    trans (gedge ag (at_pos p) (at_pos p)).
    + split; [by intros (_ & _ & ?%(reduces_gedge ag ao))|]. intros Hself. split_and!; [done..|].
      assert (Hlt : at_pos p < num_nodes ag) by (by apply (gedge_lt _ _ _ Hagwf Hself)).
      destruct (proj2 Hr _ Hlt) as (kept & Hk & Hred).
      eapply (reduces_kept ag ao); [done..|].
      destruct (red_cover _ _ _ _ Hred _ Hself) as [?|(x & Hx & Hne & Hp')]; [done|exfalso].
      apply (red_sub _ _ _ _ Hred) in Hx.
      apply (topo_pos_edge ag ao Hagwf Hao) in Hx; [|done].
      apply (topo_pos_tc ag ao Hagwf Hao) in Hp'; [|done]. lia.
    + rewrite Hagedge. split; [intros (a' & b' & ? & ? & ?); by simplify_eq|by exists a, a].
  - intros p q Hpq Hne Hp'. apply after_edge in Hpq as (Hp & Hq & Hpq).
    apply (reduces_minimal _ _ _ _ _ Hr Hpq); [by intros ?%at_pos_inj|].
    eapply tc_congruence; [|done]. intros x y [(Hx & Hy & Hxy)%after_edge Hdiff]. split; [done|].
    intros [= Ex Ey]. apply at_pos_inj in Ex, Ey; [|done..]. by subst.
Qed.

End result.

(** ** The whole of [compile] *)

Section whole.
  Context `{HashOrder} (info : TaskInfo).
  Abbreviation ts := (ti_tasks info).

Lemma order_edge_lt u v : info_wf info → order_edge info u v → u < length ts ∧ v < length ts.
Proof.
  intros Hwf [Huv|[(x & y & [_ Hu]%last_in_task & [_ Hv]%first_in_task & _) _]].
  - by apply task_edge_lt in Huv.
  - split; by apply atom_task_lt.
Qed.

(** The atoms in the order of their tasks respect the edges between them, those
    from an atom to itself apart. *)
Lemma atom_order_weak (ag : VecGraph) (ao t : TopologicalOrder) :
  num_nodes ag = length (atom_ids ts) →
  (∀ i j, gedge ag i j ↔ id_rel ts (boundary_edge info) i j) →
  (∀ u v, order_edge info u v → topo_forward t u v) →
  topo_perm (length (atom_ids ts)) ao →
  (∀ a b i j, topo_forward t a b → atom_ids ts !! i = Some a → atom_ids ts !! j = Some b → topo_forward ao i j) →
  topo_weak ag ao.
Proof.
  intros Hagn Hag Htf Haoperm Haof. split; [by rewrite Hagn|].
  intros i j (a & b & Hi & Hj & Hab)%Hag.
  destruct (decide (a = b)) as [<-|Hne]; [left; by eapply atom_ids_inj|right].
  apply (Haof a b); [|done..]. apply Htf. by right.
Qed.

Lemma sorted_nodup (l : list nat) : StronglySorted lt l → NoDup l.
Proof.
  induction 1 as [|x l _ IH Hall]; constructor; [|done].
  intros Hx. rewrite Forall_forall in Hall. by apply Hall, Nat.lt_irrefl in Hx.
Qed.

Lemma compile_spec (P : CompiledSetup → Prop) (Q : GraphCycle → Prop) :
  info_wf info →
  (∀ order cs, compiled info order cs → (∀ t, nested (ti_tasks info) t) →
     (∀ u, ¬ tc (order_edge info) u u) → P cs) →
  (∀ c, closed_path (child (ti_tasks info)) (gc_nodes c) ∨ closed_path (order_edge info) (gc_nodes c) → Q c) →
  wp (compile info) P Q.
Proof.
  intros Hwf HP HQ. pose proof Hwf as (Hn & _).
  assert (Hroom : ∀ k, k <= length ts → idx_room k).
  { intros k Hk i Hi. unfold idx_fits, idx_limit. simpl. lia. }
  pose proof (atom_ids_length ts) as Hidl. unfold compile.
  apply wp_bind, pack_atoms_spec; [done|]. intros atoms atoms_map Hpacked.
  apply wp_bind, (compute_boundaries_spec info Hwf atoms atoms_map Hpacked).
  2:{ intros c Hc. apply HQ. by left. }
  intros bb (Hlb & Hbok & Hnested & Hle & Hsound).
  apply wp_bind, build_task_edges_spec; [done|]. intros tes Hlt Htes.
  apply wp_bind, (contract_empty_spec info Hwf _ _ Hlb Hbok Hnested Hlt Htes); [done..|].
  intros aes Hla Haes.
  rewrite atom_tasks_of_ids by done.
  apply wp_bind, (add_atom_edges_spec info aes tes); [done..|]. intros oes Hlo Hoes.
  apply wp_bind, pack_sets_spec; [rewrite Hlo; by apply Hroom| |].
  { intros i j Hij%Hoes%order_edge_lt; [|done]. rewrite Hlo. apply Hij. }
  intros tg Htgn Htgwf Htg. rewrite Hlo in Htgn.
  assert (Htg' : ∀ u v, gedge tg u v ↔ order_edge info u v) by (intros; by rewrite Htg, Hoes).
  apply wp_bind, topological_order_spec; [done| |].
  2:{ intros c (v & p & Hc & Hnd & Hw). apply HQ. right. exists v, p. split_and!; [done..|].
      intros i x y Hx Hy. by eapply Htg', Hw. }
  intros t Htperm Htf. rewrite Htgn in Htperm.
  apply wp_bind, pack_sets_spec; [rewrite Hla; by apply Hroom| |].
  { intros i j (a & b & _ & Hj & _)%Haes. rewrite Hla. by eapply lookup_lt_Some. }
  intros ag Hagn Hagwf Hag. rewrite Hla in Hagn.
  assert (Hag' : ∀ i j, gedge ag i j ↔ id_rel ts (boundary_edge info) i j) by (intros; by rewrite Hag, Haes).
  apply wp_bind, order_atoms_spec; [done..|]. intros ao Haoperm Haof.
  assert (Hao : topo_weak ag ao).
  { apply (atom_order_weak ag ao t); [done..| |done|done]. intros u v Huv. by apply Htf, Htg'. }
  apply wp_bind, (transitive_solved_reduction_spec ag ao Hagwf Hao). intros r Hrn Hrall.
  assert (Hr : reduces_all ag ao r) by done.
  apply wp_bind, (wp_mapM (λ i at', ∃ a, atom_ids ts !! i = Some a ∧ ts !! a = Some (TAtom at'))).
  { intros i Hi. destruct Haoperm as (Hperm & _). rewrite Hperm, elem_of_seq in Hi.
    destruct (lookup_lt_is_Some_2 (atom_ids ts) i) as [a Ha]; [lia|].
    destruct Hpacked as (_ & _ & Hp). destruct (Hp _ _ Ha) as (_ & at' & Hat & Hai).
    eapply wp_expect; [done|]. by exists a. }
  intros ordered Hordered.
  apply wp_bind, (remap_graph_spec ao (length (atom_ids ts))); [done|congruence| |by apply Hroom|].
  { intros v Hv. rewrite <-Hagn in Hv. destruct (Hrall v Hv) as (kept & Hk & Hred).
    exists kept. split_and!; [done| |apply (red_sorted _ _ _ _ Hred)].
    intros w Hw%(red_sub _ _ _ _ Hred). apply (gedge_lt _ _ _ Hagwf) in Hw. lia. }
  intros after Hafn Hafwf Hadj Hsorted.
  apply wp_bind, transpose_spec; [done| |].
  { intros p Hp. rewrite Hafn in Hp. by apply sorted_nodup, Hsorted. }
  intros before Hbn Hbefore. rewrite Hafn in Hbn, Hbefore. apply wp_ret.
  apply (HP (exec_order info ao)); [|done|].
  - by eapply (result_spec info ag Hagn Hagwf Hag' ao Hao r Hr after).
  - intros u Hu. eapply topo_forward_irrefl, (topo_forward_tc (order_edge info)); [|done].
    intros x y Hxy. by apply Htf, Htg'.
Qed.

Lemma compile_ret cs :
  info_wf info → compile info = Ret cs → ∃ order, compiled info order cs ∧ ∀ t, nested ts t.
Proof.
  intros Hwf Heq.
  refine (wp_ret_inv _ cs (λ cs, ∃ order, compiled info order cs ∧ ∀ t, nested ts t) (λ _, True) _ Heq).
  apply compile_spec; [done| |done]. intros order cs' ? ? _. by exists order.
Qed.

End whole.

(** A closed path refutes well-founded containment and acyclic ordering. *)
Lemma nested_no_cycle ts t : (∀ t, nested ts t) → ¬ tc (child ts) t t.
Proof.
  intros Hn. induction (Hn t) as [t _ IH]. intros Ht.
  assert (∃ c, child ts t c ∧ tc (child ts) c c) as (c & Hc & Hcc); [|by eapply IH].
  inversion Ht as [? ? Htt|? c ? Htc Hct]; subst; [by exists t|].
  exists c. split; [done|]. by eapply tc_r.
Qed.

(** ** Properties *)

Section properties.
  Context `{HashOrder} (info : TaskInfo).

(** C3: a compiled test lists every atom of the test exactly once, and one atom
    is ordered before another by the compiled graph exactly when the test
    requires it: directly, through groups, or through tasks without atoms.
    Every edge leads to the same atom or to a later one. *)
Theorem compile_order cs :
  info_wf info → compile info = Ret cs →
  ∃ order, (∀ a, a ∈ order ↔ atom_task (ti_tasks info) a) ∧ NoDup order ∧
    Forall2 (λ a at', ti_tasks info !! a = Some (TAtom at')) order (cs_atoms cs) ∧
    num_nodes (cs_after_graph cs) = length order ∧
    (∀ p q a b, order !! p = Some a → order !! q = Some b →
       tc (gedge (cs_after_graph cs)) p q ↔ tc (before info) a b) ∧
    (∀ p q, gedge (cs_after_graph cs) p q → p <= q).
Proof.
  intros Hwf Heq. destruct (compile_ret _ _ Hwf Heq) as (order & Hco & Hn). exists order.
  pose proof (co_perm _ _ _ Hco) as Hperm. split_and!; [|..|by apply Hco|by apply Hco| |by apply Hco].
  - intros a. by rewrite Hperm, atom_ids_elem.
  - rewrite Hperm. apply atom_ids_nodup.
  - intros p q a b Ha Hb. rewrite (co_order _ _ _ Hco p q a b) by done. by apply boundary_edge_tc.
Qed.

(** On a test whose task references are in range, [compile] never panics
    and returns a setup, or a simple closed path either of task containment or
    of the ordering between tasks. *)
Lemma compile_total :
  info_wf info →
  (∃ cs, compile info = Ret cs) ∨
  (∃ c, compile info = Throw c ∧
     (closed_path (child (ti_tasks info)) (gc_nodes c) ∨ closed_path (order_edge info) (gc_nodes c))).
Proof.
  intros Hwf.
  assert (Hwp : wp (compile info) (λ _, True) (λ c, closed_path (child (ti_tasks info)) (gc_nodes c) ∨
    closed_path (order_edge info) (gc_nodes c))) by by apply compile_spec.
  apply wp_inv in Hwp. naive_solver.
Qed.

(** [compile] succeeds exactly when no task contains itself and the
    ordering between tasks has no cycle. *)
Lemma compile_succeeds_iff :
  info_wf info →
  (∃ cs, compile info = Ret cs) ↔
  (∀ t, ¬ tc (child (ti_tasks info)) t t) ∧ (∀ t, ¬ tc (order_edge info) t t).
Proof.
  intros Hwf.
  assert (Hwp : wp (compile info)
    (λ _, (∀ t, nested (ti_tasks info) t) ∧ ∀ t, ¬ tc (order_edge info) t t)
    (λ c, closed_path (child (ti_tasks info)) (gc_nodes c) ∨ closed_path (order_edge info) (gc_nodes c)))
    by by apply compile_spec.
  apply wp_inv in Hwp as [(cs & -> & Hn & Ho)|(c & -> & Hc)].
  - split; [|by eauto]. intros _. split; [|done]. intros t. by apply nested_no_cycle.
  - split; [by intros [? ?]|]. intros [Hnc Hno].
    destruct Hc as [Hc|Hc]; apply closed_path_tc in Hc as [v Hv]; [by apply Hnc in Hv|by apply Hno in Hv].
Qed.

(** C4: on a test whose task references are in range, [compile] never panics.
    It returns a setup exactly when no task contains itself and the ordering
    between tasks has no cycle, and otherwise reports a simple closed path of
    the containment or of the ordering. *)
Theorem compile_result :
  info_wf info →
  ((∃ cs, compile info = Ret cs) ∧
     (∀ t, ¬ tc (child (ti_tasks info)) t t) ∧ (∀ t, ¬ tc (order_edge info) t t)) ∨
  (∃ c, compile info = Throw c ∧
     (closed_path (child (ti_tasks info)) (gc_nodes c) ∨ closed_path (order_edge info) (gc_nodes c))).
Proof.
  intros Hwf. destruct (compile_total Hwf) as [Hcs|Hc]; [left|by right].
  split; [done|]. by apply compile_succeeds_iff.
Qed.

(** C29: the compiled graph has no redundant edge: without an edge between two
    atoms, the second is no longer ordered after the first. *)
Theorem compile_reduced cs p q :
  info_wf info → compile info = Ret cs → gedge (cs_after_graph cs) p q → p ≠ q →
  ¬ tc (gedge_without (cs_after_graph cs) p q) p q.
Proof.
  intros Hwf Heq. destruct (compile_ret _ _ Hwf Heq) as (order & Hco & _). apply Hco.
Qed.

(** [before_graph] is the transpose of [after_graph]: the predecessors of
    an atom are listed once each, in increasing order. *)
Theorem compile_before_graph cs :
  info_wf info → compile info = Ret cs →
  num_nodes (cs_before_graph cs) = length (cs_atoms cs) ∧
  num_nodes (cs_after_graph cs) = length (cs_atoms cs) ∧
  ∀ q, q < length (cs_atoms cs) →
    edges (cs_before_graph cs) q =
      Some (filter (λ p, q ∈ adj (cs_after_graph cs) p) (seq 0 (length (cs_atoms cs)))).
Proof.
  intros Hwf Heq. destruct (compile_ret _ _ Hwf Heq) as (order & Hco & _).
  rewrite <-(Forall2_length _ _ _ (co_atoms _ _ _ Hco)). split_and!; apply Hco.
Qed.

(** A test that orders a group before one of its own atoms is accepted, and
    compiled to an atom that waits for itself: the edges between an atom and
    itself are left out of the graph whose cycles are reported, and kept in
    the graph that is returned. *)
Theorem compile_keeps_self_dependency cs :
  info_wf info → compile info = Ret cs →
  ∃ order, order ≡ₚ atom_ids (ti_tasks info) ∧
    ∀ p a, order !! p = Some a →
      gedge (cs_after_graph cs) p p ↔ boundary_edge info a a.
Proof.
  intros Hwf Heq. destruct (compile_ret _ _ Hwf Heq) as (order & Hco & _). exists order. split; apply Hco.
Qed.

End properties.

(** ** Samples *)

(** [tests::dependencies_use_group_boundaries], compiled. *)
Definition sample_compiled : CompiledSetup := {|
  cs_atoms := (λ name, {| atom_data := DebugName name; atom_error := None |}) <$> ["b"; "a"; "c"; "d"];
  cs_file_count := 0;
  cs_after_graph := {| vg_nodes := [(0, 1); (1, 2); (2, 3); (3, 3)]; vg_edges := [2; 2; 3] |};
  cs_before_graph := {| vg_nodes := [(0, 0); (0, 0); (0, 2); (2, 3)]; vg_edges := [0; 1; 2] |};
|}.

(** [tests::cycle_through_empty_task_is_not_erased]. *)
Definition sample_cycle : TaskInfo := {|
  ti_tasks := [debug_atom "a"; TUnordered []];
  ti_happens_before := {[0 := [1]; 1 := [0]]};
  ti_file_count := 0;
|}.

(** An atom before the group that contains it. *)
Definition sample_self : TaskInfo := {|
  ti_tasks := [debug_atom "a"; TUnordered [0]];
  ti_happens_before := {[0 := [1]]};
  ti_file_count := 0;
|}.

Definition sample_self_compiled : CompiledSetup := {|
  cs_atoms := [{| atom_data := DebugName "a"; atom_error := None |}];
  cs_file_count := 0;
  cs_after_graph := {| vg_nodes := [(0, 1)]; vg_edges := [0] |};
  cs_before_graph := {| vg_nodes := [(0, 1)]; vg_edges := [0] |};
|}.

Lemma compile_order_witness :
  compile (H:=hash_elements) sample_groups = Ret sample_compiled ∧
  ∃ order, (∀ a, a ∈ order ↔ atom_task (ti_tasks sample_groups) a) ∧ length order = 4 ∧
    ∀ p q, gedge (cs_after_graph sample_compiled) p q → p <= q.
Proof.
  split; [vm_compute; reflexivity|].
  destruct (compile_order (H:=hash_elements) sample_groups sample_compiled)
    as (order & Hin & _ & _ & Hlen & _ & Hfwd).
  - apply info_wfb_wf. vm_compute. reflexivity.
  - vm_compute. reflexivity.
  - exists order. split; [exact Hin|]. split; [exact (eq_sym Hlen)|exact Hfwd].
Defined.

Lemma compile_result_witness :
  ∃ c, compile (H:=hash_elements) sample_cycle = Throw c ∧ gc_nodes c = [0; 1; 0] ∧
    (closed_path (child (ti_tasks sample_cycle)) [0; 1; 0] ∨ closed_path (order_edge sample_cycle) [0; 1; 0]).
Proof.
  assert (Hrun : compile (H:=hash_elements) sample_cycle = Throw {| gc_nodes := [0; 1; 0] |})
    by (vm_compute; reflexivity).
  exists {| gc_nodes := [0; 1; 0] |}. split; [exact Hrun|]. split; [reflexivity|].
  destruct (compile_result (H:=hash_elements) sample_cycle) as [[[cs Hcs] _]|(c & Hc & Hp)].
  - apply info_wfb_wf. vm_compute. reflexivity.
  - rewrite Hrun in Hcs. discriminate.
  - rewrite Hrun in Hc. injection Hc as <-. exact Hp.
Defined.

Lemma compile_reduced_witness :
  gedge (cs_after_graph sample_compiled) 0 2 ∧
  ¬ tc (gedge_without (cs_after_graph sample_compiled) 0 2) 0 2.
Proof.
  assert (Hedge : gedge (cs_after_graph sample_compiled) 0 2).
  { split; [vm_compute; lia|]. unfold adj. vm_compute. left. }
  split; [exact Hedge|].
  apply (compile_reduced (H:=hash_elements) sample_groups sample_compiled).
  - apply info_wfb_wf. vm_compute. reflexivity.
  - vm_compute. reflexivity.
  - exact Hedge.
  - discriminate.
Defined.

Lemma compile_before_graph_witness :
  edges (cs_before_graph sample_compiled) 2 =
    Some (filter (λ p, 2 ∈ adj (cs_after_graph sample_compiled) p) (seq 0 4)) ∧
  edges (cs_before_graph sample_compiled) 2 = Some [0; 1].
Proof.
  split; [|vm_compute; reflexivity].
  refine (proj2 (proj2 (compile_before_graph (H:=hash_elements) sample_groups sample_compiled _ _)) 2 _).
  - apply info_wfb_wf. vm_compute. reflexivity.
  - vm_compute. reflexivity.
  - simpl. lia.
Defined.

Lemma compile_keeps_self_dependency_witness :
  compile (H:=hash_elements) sample_self = Ret sample_self_compiled ∧
  gedge (cs_after_graph sample_self_compiled) 0 0.
Proof.
  assert (Hrun : compile (H:=hash_elements) sample_self = Ret sample_self_compiled)
    by (vm_compute; reflexivity).
  split; [exact Hrun|].
  destruct (compile_keeps_self_dependency (H:=hash_elements) sample_self sample_self_compiled)
    as (order & Hperm & Hself); [apply info_wfb_wf; vm_compute; reflexivity|exact Hrun|].
  change (atom_ids (ti_tasks sample_self)) with [0] in Hperm.
  apply Permutation_singleton_r in Hperm as ->. apply (Hself 0 0 eq_refl).
  exists 0, 1. split; [apply last_self; by eexists|]. split.
  - apply (first_unordered _ 1 [0] 0 0); [reflexivity|left|apply first_self; by eexists].
  - apply leads_once, (task_edge_explicit _ _ _ [1]); [reflexivity|left].
Defined.
