(* ===== verification/Determinism.v ===== *)
(** * The compiler does not depend on hash iteration

    [TaskInfo::compile] collects edges in hash sets and hash maps, whose
    iteration order is unspecified and may change between runs.  Its result
    does not: each phase's sets are determined by the test, and they are sorted
    before the graph algorithms see them. *)

From S2P Require Import Prelude Index Graph Topo Reduction Model Compiler TaskOrder CompilerProofs CompilerCorrect.

(** ** Sets and their packing *)

Lemma set_edges_eq (a b : list (gset nat)) :
  length a = length b → (∀ i j, set_edge a i j ↔ set_edge b i j) → a = b.
Proof.
  intros Hlen Hab. apply list_eq_same_length with (n := length a); [done|done|].
  intros i x y _ Hx Hy. apply leibniz_equiv. intros j. specialize (Hab i j). unfold set_edge in Hab.
  rewrite Hx, Hy in Hab. naive_solver.
Qed.

Lemma sort_nat_perm l l' : l ≡ₚ l' → sort_nat l = sort_nat l'.
Proof.
  intros Hl. unfold sort_nat. apply (Sorted_unique le); [apply Sorted_merge_sort; intros ??; lia..|].
  by rewrite !merge_sort_Permutation.
Qed.

Lemma pack_sets_order (h1 h2 : HashOrder) {E} site sets :
  pack_sets (H:=h1) (E:=E) site sets = pack_sets (H:=h2) site sets.
Proof.
  unfold pack_sets. f_equal. apply imap_ext. intros i s _. apply sort_nat_perm. by rewrite !hash_iter_perm.
Qed.

(** Two total computations of sets of edges that are determined. *)
Lemma same_sets {E} (m1 m2 : exec E (list (gset nat))) n (R : nat → nat → Prop) :
  (∀ P : list (gset nat) → Prop, (∀ es, length es = n → (∀ i j, set_edge es i j ↔ R i j) → P es) →
     wp m1 P (λ _, False) ∧ wp m2 P (λ _, False)) →
  m1 = m2.
Proof.
  intros Hm.
  destruct (Hm (λ es, length es = n ∧ ∀ i j, set_edge es i j ↔ R i j)) as [H1 H2]; [by intros|].
  apply wp_total in H1 as (es1 & -> & Hl1 & H1), H2 as (es2 & -> & Hl2 & H2). f_equal.
  apply set_edges_eq; [lia|]. intros i j. by rewrite H1, H2.
Qed.

Section orders.
  Context (h1 h2 : HashOrder) (info : TaskInfo) (Hwf : info_wf info).

Lemma build_task_edges_order {E} : build_task_edges (H:=h1) (E:=E) info = build_task_edges (H:=h2) info.
Proof.
  apply (same_sets _ _ (length (ti_tasks info)) (task_edge info)). intros P HP.
  split; by apply build_task_edges_spec.
Qed.

End orders.

(** ** Properties *)

(** C5: the iteration order of the hash sets and maps never shows: two
    compilations of a test agree on the setup, down to the order of the atoms
    and of the edges, and on the cycle they report. *)
Theorem compile_deterministic (h1 h2 : HashOrder) info :
  info_wf info → compile (H:=h1) info = compile (H:=h2) info.
Proof.
  intros Hwf. pose proof Hwf as (Hn & _). unfold compile.
  assert (Hpack : wp (E:=GraphCycle) (pack_atoms (ti_tasks info))
    (λ '(atoms, atoms_map), packed (ti_tasks info) atoms atoms_map) (λ _, False)) by by apply pack_atoms_spec.
  apply wp_total in Hpack as ([atoms atoms_map] & -> & Hpacked). simpl.
  destruct (compute_boundaries (ti_tasks info) atoms_map (length atoms)) as [bb| | |] eqn:Hbb; simpl; [|done..].
  apply (wp_ret_inv _ _ (boundaries_ok info) (λ _, True)) in Hbb as (Hlb & Hbok & Hnested & Hle & Hsound);
    [|by apply compute_boundaries_spec].
  rewrite (build_task_edges_order h1 h2) by done.
  assert (Hedges : wp (E:=GraphCycle) (build_task_edges (H:=h2) info)
    (λ es, length es = length (ti_tasks info) ∧ ∀ u v, set_edge es u v ↔ task_edge info u v) (λ _, False))
    by by apply build_task_edges_spec.
  apply wp_total in Hedges as (tes & -> & Hlt & Htes). simpl.
  rewrite (same_sets (contract_empty (H:=h1) _ _ _) (contract_empty (H:=h2) (bb_boundaries bb) tes (bb_atom_edges bb))
    (length (atom_ids (ti_tasks info))) (id_rel (ti_tasks info) (boundary_edge info))).
  2: { intros P HP. split; by apply (contract_empty_spec info Hwf _ _ Hlb Hbok Hnested Hlt Htes). }
  assert (Hatoms : wp (E:=GraphCycle) (contract_empty (H:=h2) (bb_boundaries bb) tes (bb_atom_edges bb))
    (λ es, length es = length (atom_ids (ti_tasks info)) ∧
      ∀ i j, set_edge es i j ↔ id_rel (ti_tasks info) (boundary_edge info) i j) (λ _, False))
    by by apply (contract_empty_spec info Hwf _ _ Hlb Hbok Hnested Hlt Htes).
  apply wp_total in Hatoms as (aes & -> & Hla & Haes). simpl. rewrite atom_tasks_of_ids by done.
  rewrite (same_sets (add_atom_edges (H:=h1) _ _ _) (add_atom_edges (H:=h2) (atom_ids (ti_tasks info)) aes tes)
    (length (ti_tasks info)) (order_edge info)).
  2: { intros P HP. split; by apply (add_atom_edges_spec info aes tes). }
  rewrite (pack_sets_order h1 h2 5).
  destruct (add_atom_edges (H:=h2) _ aes tes) as [oes| | |]; simpl; [|done..]. by rewrite (pack_sets_order h1 h2 4).
Qed.

(** The sets iterated backwards. *)
Definition hash_reversed : HashOrder := {|
  hash_iter _ s := reverse (elements s);
  hash_iter_perm _ s := reverse_Permutation _;
|}.

Lemma compile_deterministic_witness :
  compile (H:=hash_reversed) sample_groups = Ret sample_compiled.
Proof.
  rewrite (compile_deterministic hash_reversed hash_elements sample_groups).
  - vm_compute. reflexivity.
  - apply info_wfb_wf. vm_compute. reflexivity.
Defined.
