(* ===== verification/Request.v ===== *)
(** * Requests ([src/src/runner/request.rs])

    [AtomReq] is the part of an atom that a child process chooses: it is the
    key under which the scheduler of [Scheduler] files ready atoms. *)

From S2P Require Import Prelude Index Graph Model.

Inductive AtomReq :=
| ROpen (path : Text)
| RTcpSocket (family : IpFamily)
| RBind (socket : MockFd) (address : SocketAddr)
| RListen (socket : MockFd) (backlog : Z)
| RConnect (socket : MockFd) (address : SocketAddr)
| RAccept (socket : MockFd)
| RShutdown (socket : MockFd) (how : ShutdownHow)
| RRead (file : MockFd) (size : N)
| RWrite (file : MockFd) (text : Text)
| RClose (file : MockFd).

(** [AtomReq::new]. *)
Definition atom_req_new (atom : AtomData) : option AtomReq :=
  match atom with
  | Open _ path => Some (ROpen path)
  | TcpSocket family => Some (RTcpSocket family)
  | Bind socket address => Some (RBind socket address)
  | Listen socket backlog => Some (RListen socket backlog)
  | Connect socket address => Some (RConnect socket address)
  | Accept socket => Some (RAccept socket)
  | Shutdown socket how => Some (RShutdown socket how)
  | Read open _ size => Some (RRead open size)
  | Write open text _ => Some (RWrite open text)
  | Close open => Some (RClose open)
  | DebugName _ => None
  end.

(** ** Keys of hash maps: [Eq] and [Hash] *)

#[export] Instance MockFd_dec : EqDecision MockFd.
Proof. solve_decision. Defined.
#[export] Instance IpFamily_dec : EqDecision IpFamily.
Proof. solve_decision. Defined.
#[export] Instance ShutdownHow_dec : EqDecision ShutdownHow.
Proof. solve_decision. Defined.
#[export] Instance SocketAddr_dec : EqDecision SocketAddr.
Proof. solve_decision. Defined.
#[export] Instance AtomReq_dec : EqDecision AtomReq.
Proof. solve_decision. Defined.

Abbreviation leaf := (string + N + Z)%type.

Definition address_tree (a : SocketAddr) : gen_tree leaf :=
  let n x := GenLeaf (inl (inr x)) in
  match a with
  | SockV4 ip port => GenNode 4 [n ip; n port]
  | SockV6 ip port flow scope => GenNode 6 [n ip; n port; n flow; n scope]
  end.

Definition tree_address (t : gen_tree leaf) : option SocketAddr :=
  match t with
  | GenNode 4 [GenLeaf (inl (inr ip)); GenLeaf (inl (inr port))] => Some (SockV4 ip port)
  | GenNode 6 [GenLeaf (inl (inr ip)); GenLeaf (inl (inr port));
               GenLeaf (inl (inr flow)); GenLeaf (inl (inr scope))] => Some (SockV6 ip port flow scope)
  | _ => None
  end.

Definition req_tree (r : AtomReq) : gen_tree leaf :=
  let s x := GenLeaf (inl (inl x)) in
  let n x := GenLeaf (inl (inr x)) in
  let z x := GenLeaf (inr x) in
  match r with
  | ROpen path => GenNode 0 [s path]
  | RTcpSocket V4 => GenNode 1 [n 4%N]
  | RTcpSocket V6 => GenNode 1 [n 6%N]
  | RBind fd a => GenNode 2 [n (mock_id fd); address_tree a]
  | RListen fd b => GenNode 3 [n (mock_id fd); z b]
  | RConnect fd a => GenNode 4 [n (mock_id fd); address_tree a]
  | RAccept fd => GenNode 5 [n (mock_id fd)]
  | RShutdown fd ShutRead => GenNode 6 [n (mock_id fd); n 0%N]
  | RShutdown fd ShutWrite => GenNode 6 [n (mock_id fd); n 1%N]
  | RShutdown fd ShutBoth => GenNode 6 [n (mock_id fd); n 2%N]
  | RRead fd size => GenNode 7 [n (mock_id fd); n size]
  | RWrite fd text => GenNode 8 [n (mock_id fd); s text]
  | RClose fd => GenNode 9 [n (mock_id fd)]
  end.

Definition tree_req (t : gen_tree leaf) : option AtomReq :=
  match t with
  | GenNode 0 [GenLeaf (inl (inl path))] => Some (ROpen path)
  | GenNode 1 [GenLeaf (inl (inr 4%N))] => Some (RTcpSocket V4)
  | GenNode 1 [GenLeaf (inl (inr 6%N))] => Some (RTcpSocket V6)
  | GenNode 2 [GenLeaf (inl (inr fd)); a] => RBind (Build_MockFd fd) <$> tree_address a
  | GenNode 3 [GenLeaf (inl (inr fd)); GenLeaf (inr b)] => Some (RListen (Build_MockFd fd) b)
  | GenNode 4 [GenLeaf (inl (inr fd)); a] => RConnect (Build_MockFd fd) <$> tree_address a
  | GenNode 5 [GenLeaf (inl (inr fd))] => Some (RAccept (Build_MockFd fd))
  | GenNode 6 [GenLeaf (inl (inr fd)); GenLeaf (inl (inr 0%N))] => Some (RShutdown (Build_MockFd fd) ShutRead)
  | GenNode 6 [GenLeaf (inl (inr fd)); GenLeaf (inl (inr 1%N))] => Some (RShutdown (Build_MockFd fd) ShutWrite)
  | GenNode 6 [GenLeaf (inl (inr fd)); GenLeaf (inl (inr 2%N))] => Some (RShutdown (Build_MockFd fd) ShutBoth)
  | GenNode 7 [GenLeaf (inl (inr fd)); GenLeaf (inl (inr size))] => Some (RRead (Build_MockFd fd) size)
  | GenNode 8 [GenLeaf (inl (inr fd)); GenLeaf (inl (inl text))] => Some (RWrite (Build_MockFd fd) text)
  | GenNode 9 [GenLeaf (inl (inr fd))] => Some (RClose (Build_MockFd fd))
  | _ => None
  end.

#[export] Instance AtomReq_countable : Countable AtomReq.
Proof.
  refine (inj_countable req_tree tree_req _).
  intros [|[]| [?] []|[]|[?] []|[]|[] []|[]|[]|[]]; reflexivity.
Defined.

(** ** Properties *)

(** An atom without what its request leaves out: the descriptor an [Open]
    yields, the text a [Read] expects, the size a [Write] reports. *)
Definition request_part (atom : AtomData) : AtomData :=
  match atom with
  | Open _ path => Open {| mock_id := 0 |} path
  | Read file _ size => Read file "" size
  | Write file text _ => Write file text 0
  | DebugName _ => DebugName ""
  | _ => atom
  end.

(** Two atoms make the same request exactly when they agree on everything
    but the descriptor an [Open] yields, the text a [Read] expects and the
    size a [Write] reports; only [DebugName] atoms make none. *)
Theorem atom_req_new_eq a b :
  (atom_req_new a = atom_req_new b ↔ request_part a = request_part b) ∧
  (atom_req_new a = None ↔ ∃ name, a = DebugName name).
Proof.
  split; [|destruct a; naive_solver].
  destruct a, b; simpl; split; intros Heq; try discriminate Heq; try congruence.
Qed.
