(* ===== verification/CompilerTests.v ===== *)
(** * The unit tests of the compiler and of the data model (the [tests]
    modules of [src/src/compiler.rs], model.rs and runner/request.rs)

    The tests of the crate, run on the model.  A test that passes for one
    iteration order of the hash sets passes for all of them, because the
    compiler does not depend on it. *)

From S2P Require Import Prelude Index Graph Topo Reduction Model Compiler TaskOrder CompilerProofs CompilerCorrect Request Determinism GraphTests.

(** ** Helpers *)

Abbreviation atom := debug_atom.

(** The test that [position] applies to each atom. *)
Definition named (from_name : Text) (a : Atom) : Prop := atom_data a = DebugName from_name.
#[local] Instance named_dec from_name a : Decision (named from_name a).
Proof. unfold named. destruct (atom_data a); try (right; congruence). destruct (decide (name = from_name)); [left|right]; congruence. Defined.

Definition name_of (a : Atom) : exec () Text :=
  match atom_data a with DebugName name => Ret name | _ => Panic end.

(** The names of the successors of a named atom, sorted. *)
Definition edges_of (work : CompiledSetup) (from_name : Text) : exec () (list Text) :=
  '(from, _) ← expect (list_find (named from_name) (cs_atoms work));
  tos ← expect (edges (cs_after_graph work) (as_u32 from));
  names ← mapM (λ to, a ← vget (cs_atoms work) to; name_of a) tos;
  Ret (merge_sort String.le names).

(** [let work = info.compile().unwrap();] and assertions on [edges]. *)
Definition edges_test `{HashOrder} (info : TaskInfo) (expected : list (Text * list Text)) : test :=
  work ← unwrap (compile info);
  for_each expected (λ '(from_name, names) _,
    actual ← edges_of work from_name;
    assert_eq actual names) ().

Definition task_info (tasks : list Task) (happens_before : gmap nat (list nat)) : TaskInfo :=
  {| ti_tasks := tasks; ti_happens_before := happens_before; ti_file_count := 0 |}.

(** ** [compiler.rs] *)

Section tests.
  Context `{HashOrder}.

Definition ordered_tasks_are_flattened_to_atom_edges : test :=
  work ← unwrap (compile (task_info [atom "a"; atom "b"; atom "c"; TOrdered [0; 1; 2]] ∅));
  _ ← assert_eq (length (cs_atoms work)) 3;
  a ← edges_of work "a";
  _ ← assert_eq a ["b"];
  b ← edges_of work "b";
  _ ← assert_eq b ["c"];
  c ← edges_of work "c";
  assert_eq c [].

Definition dependencies_use_group_boundaries : test :=
  edges_test (task_info [atom "a"; atom "b"; atom "c"; atom "d"; TUnordered [0; 1]; TOrdered [2; 3]]
      {[4 := [5]]})
    [("a", ["c"]); ("b", ["c"]); ("c", ["d"])].

Definition nested_ordering_connects_only_terminal_and_initial_atoms : test :=
  edges_test (task_info [atom "a"; atom "b"; atom "c"; atom "d"; TOrdered [0; 1]; TUnordered [2; 3];
      TOrdered [4; 5]] ∅)
    [("a", ["b"]); ("b", ["c"; "d"]); ("c", []); ("d", [])].

Definition empty_groups_do_not_break_ordering : test :=
  edges_test (task_info [atom "a"; atom "b"; TUnordered []; TOrdered [0; 2; 1]] ∅) [("a", ["b"])].

Definition compile_remaps_edges_with_topologically_ordered_atoms : test :=
  compiled ← unwrap (compile (task_info [atom "a"; atom "b"] {[1 := [0]]}));
  first ← vget (cs_atoms compiled) 0;
  _ ← check (bool_decide (named "b" first));
  second ← vget (cs_atoms compiled) 1;
  _ ← check (bool_decide (named "a" second));
  after0 ← expect (edges (cs_after_graph compiled) 0);
  _ ← assert_eq after0 [1];
  after1 ← expect (edges (cs_after_graph compiled) 1);
  _ ← assert_eq after1 [];
  before0 ← expect (edges (cs_before_graph compiled) 0);
  _ ← assert_eq before0 [];
  before1 ← expect (edges (cs_before_graph compiled) 1);
  assert_eq before1 [0].

Definition explicit_dependencies_pass_through_empty_task : test :=
  edges_test (task_info [atom "a"; atom "b"; TUnordered []] {[0 := [2]; 2 := [1]]})
    [("a", ["b"]); ("b", [])].

Definition explicit_dependencies_pass_through_chain_of_empty_tasks : test :=
  edges_test (task_info [atom "a"; atom "b"; TUnordered []; TOrdered []; TUnordered [2; 3]]
      {[0 := [2]; 2 := [3]; 3 := [4]; 4 := [1]]})
    [("a", ["b"])].

Definition dependency_into_empty_ordered_child_reaches_later_atom : test :=
  edges_test (task_info [atom "a"; atom "b"; TUnordered []; atom "d"; TOrdered [0; 2; 1]] {[3 := [2]]})
    [("a", ["b"]); ("d", ["b"])].

Definition dependency_out_of_empty_ordered_child_inherits_previous_atom : test :=
  edges_test (task_info [atom "a"; atom "b"; TUnordered []; atom "d"; TOrdered [0; 2; 1]] {[2 := [3]]})
    [("a", ["b"; "d"]); ("b", []); ("d", [])].

Definition empty_task_between_unordered_groups_preserves_cartesian_ordering : test :=
  edges_test (task_info [atom "a"; atom "b"; atom "c"; atom "d"; TUnordered [0; 1]; TOrdered [];
      TUnordered [2; 3]] {[4 := [5]; 5 := [6]]})
    [("a", ["c"; "d"]); ("b", ["c"; "d"]); ("c", []); ("d", [])].

Definition nested_all_empty_group_passes_external_ordering_through : test :=
  edges_test (task_info [atom "a"; atom "b"; TUnordered []; TOrdered []; TOrdered [2; 3]; TUnordered [4]]
      {[0 := [5]; 5 := [1]]})
    [("a", ["b"])].

Definition empty_prefix_and_suffix_do_not_change_group_boundary : test :=
  edges_test (task_info [atom "a"; atom "b"; TUnordered []; TOrdered []; TOrdered [2; 0; 1; 3];
      atom "d"; atom "e"] {[5 := [4]; 4 := [6]]})
    [("a", ["b"]); ("b", ["e"]); ("d", ["a"]); ("e", [])].

Definition multiple_predecessors_merge_through_empty_task : test :=
  edges_test (task_info [atom "a"; atom "b"; atom "c"; TUnordered []] {[0 := [3]; 1 := [3]; 3 := [2]]})
    [("a", ["c"]); ("b", ["c"])].

Definition multiple_successors_fan_out_through_empty_task : test :=
  edges_test (task_info [atom "a"; atom "b"; atom "c"; TOrdered []] {[0 := [3]; 3 := [1; 2]]})
    [("a", ["b"; "c"])].

Definition cycle_through_empty_task_is_not_erased : test :=
  cycle ← unwrap_err (compile (task_info [atom "a"; TUnordered []] {[0 := [1]; 1 := [0]]}));
  assert_eq (gc_nodes cycle) [0; 1; 0].

Definition compiler_tests : list test := [
  ordered_tasks_are_flattened_to_atom_edges; dependencies_use_group_boundaries;
  nested_ordering_connects_only_terminal_and_initial_atoms; empty_groups_do_not_break_ordering;
  compile_remaps_edges_with_topologically_ordered_atoms; explicit_dependencies_pass_through_empty_task;
  explicit_dependencies_pass_through_chain_of_empty_tasks;
  dependency_into_empty_ordered_child_reaches_later_atom;
  dependency_out_of_empty_ordered_child_inherits_previous_atom;
  empty_task_between_unordered_groups_preserves_cartesian_ordering;
  nested_all_empty_group_passes_external_ordering_through;
  empty_prefix_and_suffix_do_not_change_group_boundary; multiple_predecessors_merge_through_empty_task;
  multiple_successors_fan_out_through_empty_task; cycle_through_empty_task_is_not_erased].

End tests.

(** ** [model.rs] and [request.rs] *)

#[local] Instance option_req_dec : EqDecision (option AtomReq) := _.

Definition file (id : N) : MockFd := {| mock_id := id |}.

Definition new_file_allocates_dense_mock_fds : test :=
  '(a, info) ← new_file task_info_default;
  _ ← assert_eq a (file 0);
  '(b, info) ← new_file info;
  _ ← assert_eq b (file 1);
  assert_eq (ti_file_count info) 2%N.

Definition open_request_uses_path_while_atom_keeps_file : test :=
  assert_eq (atom_req_new (Open (file 4) "/tmp/example")) (Some (ROpen "/tmp/example")).

Definition converts_tcp_atoms_to_requests : test :=
  let address := SockV4 2130706433 8080 in
  _ ← assert_eq (atom_req_new (TcpSocket V4)) (Some (RTcpSocket V4));
  _ ← assert_eq (atom_req_new (Bind (file 3) address)) (Some (RBind (file 3) address));
  _ ← assert_eq (atom_req_new (Listen (file 3) 128)) (Some (RListen (file 3) 128));
  _ ← assert_eq (atom_req_new (Connect (file 3) address)) (Some (RConnect (file 3) address));
  _ ← assert_eq (atom_req_new (Accept (file 3))) (Some (RAccept (file 3)));
  assert_eq (atom_req_new (Shutdown (file 3) ShutWrite)) (Some (RShutdown (file 3) ShutWrite)).

Definition accepted_socket_can_be_used_as_a_descriptor_resource : test :=
  assert_eq (atom_req_new (Read (file 7) "ping" 4)) (Some (RRead (file 7) 4)).

Definition model_tests : list test := [
  new_file_allocates_dense_mock_fds; open_request_uses_path_while_atom_keeps_file;
  converts_tcp_atoms_to_requests; accepted_socket_can_be_used_as_a_descriptor_resource].

Lemma model_tests_pass : Forall (λ t, t = Ret ()) model_tests.
Proof. unfold model_tests. run_tests. Qed.

(** The unit tests of the compiler pass on the model, in whatever order the
    hash sets and maps are iterated. *)
Theorem compiler_tests_pass (h : HashOrder) : Forall (λ t, t = Ret ()) (compiler_tests (H:=h)).
Proof.
  unfold compiler_tests. repeat apply Forall_cons_2; [..|apply Forall_nil_2];
    (lazymatch goal with |- ?t _ = _ => unfold t end; unfold edges_test);
    rewrite (compile_deterministic h hash_elements) by (apply info_wfb_wf; vm_compute; reflexivity);
    vm_compute; reflexivity.
Qed.
