(* ===== verification/Scheduler.v ===== *)
(** * The scheduler ([src/src/runner/supervisor.rs], [new] to [iter_undone] and
    [get_task])

    The part of [Supervisor] that decides which atoms may execute: the number
    of unfinished predecessors of every atom, and the ready atoms filed by
    their request. *)

From S2P Require Import Prelude Index Graph Model Compiler Request.

(** ** State and operations *)

(** The fields [ready_atoms], [wait_counts] and [info] of [Supervisor]. *)
Record Scheduler := {
  ready_atoms : gmap AtomReq (list nat);
  wait_counts : list N;
  sc_info : CompiledSetup;
}.

(** [ready_atoms.entry(req).or_default().push(x)], where [todo!] stands for
    the requests of logs. *)
Definition push_ready {E} (info : CompiledSetup) (x : nat) (ready : gmap AtomReq (list nat))
    : exec E (gmap AtomReq (list nat)) :=
  atom ← vget (cs_atoms info) x;
  match atom_req_new (atom_data atom) with
  | None => Panic
  | Some req => Ret (<[req := vpush (default [] (ready !! req)) x]> ready)
  end.

Definition sched_new {E} (info : CompiledSetup) : exec E Scheduler :=
  '(ready, counts) ←
    for_each (seq 0 (length (cs_atoms info))) (λ id '(ready, counts),
      es ← expect (full_edges (cs_before_graph info) (as_u32 id));
      '(_, counts) ← index_push counts (N.of_nat (as_u32 (length es)));
      if decide (length es ≠ 0) then Ret (ready, counts)
      else
        ready ← push_ready info (as_u32 id) ready;
        Ret (ready, counts)) (∅, []);
  Ret {| ready_atoms := ready; wait_counts := counts; sc_info := info |}.

Definition mark_done {E} (id : nat) (s : Scheduler) : exec E Scheduler :=
  es ← expect (edges (cs_after_graph (sc_info s)) id);
  '(ready, counts) ←
    for_each es (λ x '(ready, counts),
      c ← vget counts x;
      _ ← check (bool_decide (0 < c)%N);
      counts ← vset counts x (c - 1)%N;
      if decide (c - 1 = 0)%N then
        ready ← push_ready (sc_info s) x ready;
        Ret (ready, counts)
      else Ret (ready, counts)) (ready_atoms s, wait_counts s);
  counts ← vset counts id u32_MAX;
  Ret {| ready_atoms := ready; wait_counts := counts; sc_info := sc_info s |}.

Definition iter_undone (s : Scheduler) : list nat :=
  omap (λ '(i, c), if decide (c ≠ u32_MAX) then Some (as_u32 i) else None)
    (imap pair (wait_counts s)).

(** [get_task]: an atom ready under the request, and how many there were. *)
Definition get_task (r : AtomReq) (s : Scheduler) : option (nat * nat) * Scheduler :=
  match ready_atoms s !! r with
  | None => (None, s)
  | Some l =>
      match vpop l with
      | None => (None, s)
      | Some (id, l') =>
          (Some (id, length l),
           {| ready_atoms := <[r := l']> (ready_atoms s);
              wait_counts := wait_counts s; sc_info := sc_info s |})
      end
  end.

(** ** The runs of a scheduler *)

(** A scheduler with the atoms handed out and not yet marked done.  Any
    interleaving of requests and completions is a run. *)
Inductive sched_step : (Scheduler * gset nat) → (Scheduler * gset nat) → Prop :=
| step_take r id total s s' R :
    get_task r s = (Some (id, total), s') → sched_step (s, R) (s', {[id]} ∪ R)
| step_finish id s s' R :
    id ∈ R → mark_done (E:=()) id s = Ret s' → sched_step (s, R) (s', R ∖ {[id]}).

Definition sched_reach (info : CompiledSetup) (st : Scheduler * gset nat) : Prop :=
  ∃ s0, sched_new (E:=()) info = Ret s0 ∧ rtc sched_step (s0, ∅) st.

(** ** Specification *)

Section spec.
  Context (info : CompiledSetup).

Definition atom_count : nat := length (cs_atoms info).

(** The request of an atom. *)
Definition req_of (x : nat) : option AtomReq :=
  at' ← cs_atoms info !! x; atom_req_new (atom_data at').

(** The predecessors of an atom. *)
Definition preds (x : nat) : list nat :=
  filter (λ p, x ∈ adj (cs_after_graph info) p) (seq 0 atom_count).

(** How many atoms of [l] are not done. *)
Definition undone (D : gset nat) (l : list nat) : nat := length (filter (λ p, p ∉ D) l).

(** What the scheduler relies on; [compile] provides it. *)
Record setup_wf : Prop := {
  sw_count : (N.of_nat atom_count < u32_MAX)%N;
  sw_after_nodes : num_nodes (cs_after_graph info) = atom_count;
  sw_after : graph_wf (cs_after_graph info);
  sw_nodup : ∀ p, p < atom_count → NoDup (adj (cs_after_graph info) p);
  sw_before : ∀ q, q < atom_count → edges (cs_before_graph info) q = Some (preds q);
}.

(** Every atom makes a request ([DebugName] does not). *)
Definition runnable : Prop := ∀ x, x < atom_count → is_Some (req_of x).

(** An atom that makes no request would be ready once the atoms of [D] are
    done, [id] being one before it; at the start, one before which there is
    nothing. *)
Definition log_ready (D : gset nat) (id : nat) : Prop :=
  ∃ x, id ∈ preds x ∧ (∀ p, p ∈ preds x → p ∈ D) ∧ req_of x = None.
Definition log_first : Prop := ∃ x, x < atom_count ∧ preds x = [] ∧ req_of x = None.

(** The state of the scheduler when the atoms of [D] are done and those of [R]
    are running. *)
Record sched_inv (D R : gset nat) (s : Scheduler) : Prop := {
  si_info : sc_info s = info;
  si_done_lt : ∀ x, x ∈ D → x < atom_count;
  si_done : ∀ x, x ∈ D → ∀ p, p ∈ preds x → p ∈ D;
  si_self : ∀ x, x ∈ D → x ∉ preds x;
  si_run_lt : ∀ x, x ∈ R → x < atom_count ∧ x ∉ D;
  si_run : ∀ x, x ∈ R → ∀ p, p ∈ preds x → p ∈ D;
  si_len : length (wait_counts s) = atom_count;
  si_wait : ∀ x, x < atom_count → wait_counts s !! x =
    Some (if decide (x ∈ D) then u32_MAX else N.of_nat (undone D (preds x)));
  si_req : ∀ x, x < atom_count → (∀ p, p ∈ preds x → p ∈ D) → is_Some (req_of x);
  si_nodup : ∀ r, NoDup (default [] (ready_atoms s !! r));
  si_ready : ∀ r x, x ∈ default [] (ready_atoms s !! r) ↔
    x < atom_count ∧ req_of x = Some r ∧ (x ∉ D) ∧ (x ∉ R) ∧ (∀ p, p ∈ preds x → p ∈ D);
}.

End spec.

(** A test for [setup_wf]. *)
Definition setup_wfb (info : CompiledSetup) : bool :=
  (N.of_nat (atom_count info) <? u32_MAX)%N &&
  (num_nodes (cs_after_graph info) =? atom_count info) &&
  graph_wfb (cs_after_graph info) &&
  forallb (λ p, bool_decide (NoDup (adj (cs_after_graph info) p))) (seq 0 (atom_count info)) &&
  forallb (λ q, bool_decide (edges (cs_before_graph info) q = Some (preds info q))) (seq 0 (atom_count info)).

(** ** Lemmas *)

Lemma setup_wfb_wf info : setup_wfb info = true → setup_wf info.
Proof.
  unfold setup_wfb. rewrite !andb_true_iff, N.ltb_lt, Nat.eqb_eq, !forallb_forall.
  intros [[[[? ?] ?%graph_wfb_wf] Hnd] Hb]. split; try done.
  - intros p Hp. specialize (Hnd p). rewrite bool_decide_eq_true in Hnd. apply Hnd, in_seq. lia.
  - intros q Hq. specialize (Hb q). rewrite bool_decide_eq_true in Hb. apply Hb, in_seq. lia.
Qed.

Section scheduler.
  Context (info : CompiledSetup) (Hwf : setup_wf info).

Lemma elem_of_preds x p : x < atom_count info → p ∈ preds info x ↔ gedge (cs_after_graph info) p x.
Proof.
  intros Hx. unfold preds, gedge. rewrite list_elem_of_filter, elem_of_seq, (sw_after_nodes _ Hwf).
  naive_solver lia.
Qed.

Lemma preds_lt x p : p ∈ preds info x → p < atom_count info ∧ x < atom_count info.
Proof.
  unfold preds. rewrite list_elem_of_filter, elem_of_seq. intros [Hx Hp]. split; [lia|].
  rewrite <-(sw_after_nodes _ Hwf). apply (gedge_lt _ p); [apply Hwf|].
  split; [rewrite (sw_after_nodes _ Hwf); lia|done].
Qed.

Lemma preds_nodup x : NoDup (preds info x).
Proof. apply NoDup_filter, NoDup_seq. Qed.

Lemma preds_length x : length (preds info x) <= atom_count info.
Proof.
  unfold preds. etrans; [apply length_filter|]. by rewrite length_seq.
Qed.

Lemma undone_zero D l : undone D l = 0 ↔ ∀ p, p ∈ l → p ∈ D.
Proof.
  unfold undone. split.
  - intros Hz%nil_length_inv p Hp. destruct (decide (p ∈ D)) as [|Hn]; [done|].
    assert (Hin : p ∈ filter (λ p, p ∉ D) l) by (by apply list_elem_of_filter).
    rewrite Hz in Hin. by apply elem_of_nil in Hin.
  - intros Hall. destruct (filter (λ p, p ∉ D) l) as [|p k] eqn:Hf; [done|exfalso].
    assert (Hin : p ∈ filter (λ p, p ∉ D) l) by (rewrite Hf; left).
    apply list_elem_of_filter in Hin as [Hn Hp]. by apply Hn, Hall.
Qed.

Lemma undone_skip D id l : id ∉ l → undone ({[id]} ∪ D) l = undone D l.
Proof.
  unfold undone. induction l as [|y l IH]; [done|]. intros [Hne Hnin]%not_elem_of_cons.
  specialize (IH Hnin). rewrite !filter_cons.
  destruct (decide (y ∉ D)), (decide (y ∉ {[id]} ∪ D)); simpl; [by f_equal|set_solver..|done].
Qed.

Lemma undone_add D id l : NoDup l → id ∈ l → id ∉ D → undone D l = S (undone ({[id]} ∪ D) l).
Proof.
  intros Hnd Hin HD. induction Hnd as [|y l Hy Hnd IH]; [by apply elem_of_nil in Hin|].
  unfold undone in *. rewrite !filter_cons. apply elem_of_cons in Hin as [->|Hin].
  - rewrite decide_True, decide_False by set_solver. simpl. f_equal.
    symmetry. by apply (undone_skip D y l).
  - specialize (IH Hin). destruct (decide (y ∉ D)), (decide (y ∉ {[id]} ∪ D)); simpl;
      [by f_equal|set_solver..|done].
Qed.

Lemma undone_all l : undone ∅ l = length l.
Proof. unfold undone. induction l as [|y l IH]; [done|]. rewrite filter_cons, decide_True by set_solver. simpl. by f_equal. Qed.

Lemma undone_le D l : undone D l <= length l.
Proof. apply length_filter. Qed.

(** *** Filing ready atoms *)

Lemma push_ready_spec {E} x ready (P : gmap AtomReq (list nat) → Prop) (may : Prop) :
  x < atom_count info → (req_of info x = None → may) →
  (∀ req ready', req_of info x = Some req → (∀ r, default [] (ready' !! r) =
     if decide (r = req) then default [] (ready !! r) ++ [x] else default [] (ready !! r)) → P ready') →
  wpp may (push_ready (E:=E) info x ready) P.
Proof.
  unfold req_of, push_ready, vget. intros [at' Hat]%lookup_lt_is_Some Hmay HP. rewrite Hat in *. simpl in *.
  destruct (atom_req_new (atom_data at')) as [req|]; [|by apply Hmay]. apply (HP req); [done|].
  intros r. case_decide as Heq; [subst; by rewrite lookup_insert_eq|by rewrite lookup_insert_ne].
Qed.

(** A bucket that receives [x]. *)
Lemma bucket_push req x (old new : AtomReq → list nat) :
  (∀ r, new r = if decide (r = req) then old r ++ [x] else old r) →
  (∀ r, x ∉ old r) → (∀ r, NoDup (old r)) →
  (∀ r, NoDup (new r)) ∧ ∀ r y, y ∈ new r ↔ y ∈ old r ∨ (r = req ∧ y = x).
Proof.
  intros Hnew Hx Hnd. split.
  - intros r. rewrite Hnew. case_decide; [|done]. apply NoDup_app.
    split_and!; [done| |apply NoDup_singleton]. intros y Hy ->%list_elem_of_singleton. by eapply Hx.
  - intros r y. rewrite Hnew. case_decide; [|naive_solver].
    rewrite elem_of_app, list_elem_of_singleton. naive_solver.
Qed.

Lemma sched_new_spec {E} :
  wpp (log_first info) (sched_new (E:=E) info) (λ s, sched_inv info ∅ ∅ s).
Proof.
  pose proof (sw_count _ Hwf) as Hcount. unfold sched_new. apply wpp_bind.
  apply (wpp_for_each (λ pre '(ready, counts),
    counts = (λ x, N.of_nat (length (preds info x))) <$> pre ∧
    (∀ x, x ∈ pre → preds info x = [] → is_Some (req_of info x)) ∧
    (∀ r, NoDup (default [] (ready !! r))) ∧
    (∀ r x, x ∈ default [] (ready !! r) ↔ x ∈ pre ∧ req_of info x = Some r ∧ preds info x = []))).
  - split_and!; [done|by intros x ?%elem_of_nil|intros r; rewrite lookup_empty; constructor|].
    intros r x. rewrite lookup_empty. simpl. rewrite !elem_of_nil. naive_solver.
  - intros pre id post [ready counts] [-> Hid]%seq_split (-> & Hsome & Hnd & Hin).
    fold (atom_count info) in Hid. rewrite (as_u32_small id) by lia.
    pose proof (preds_length id) as Hle.
    apply wpp_bind, wpp_wp, (wp_expect _ (preds info id)); [by apply (sw_before _ Hwf)|].
    apply wpp_bind, wpp_wp. unfold index_push, next_index.
    apply wp_bind, wp_idx_new; [|apply wp_ret].
    { unfold idx_fits. simpl. rewrite length_fmap, length_seq. lia. }
    rewrite as_u32_small by lia. case_decide as Hlen.
    + split_and!; [unfold vpush; by rewrite fmap_app| |done|].
      * intros x [?| ->%list_elem_of_singleton]%elem_of_app Hnil; [by apply Hsome|]. by rewrite Hnil in Hlen.
      * intros r x. rewrite Hin, elem_of_app, list_elem_of_singleton. split; [naive_solver|].
        intros ([?| ->] & ? & Hnil); [done|]. by rewrite Hnil in Hlen.
    + assert (Hnil : preds info id = []) by (apply nil_length_inv; lia).
      apply wpp_bind, push_ready_spec; [done|by exists id|]. intros req ready' Hreq Hready'.
      destruct (bucket_push req id (λ r, default [] (ready !! r))
        (λ r, default [] (ready' !! r)) Hready') as [Hnd' Hin']; [|done|].
      { intros r [Hseq _]%Hin. apply elem_of_seq in Hseq. lia. }
      split_and!; [unfold vpush; by rewrite fmap_app| |done|].
      * intros x [?| ->%list_elem_of_singleton]%elem_of_app ?; [by apply Hsome|by exists req].
      * intros r x. rewrite Hin', Hin, elem_of_app, list_elem_of_singleton. naive_solver.
  - intros [ready counts] (-> & Hsome & Hnd & Hin).
    assert (Hnil : ∀ x, (∀ p, p ∈ preds info x → p ∈ (∅ : gset nat)) ↔ preds info x = []).
    { intros x. destruct (preds info x) as [|y l]; [by split; [|intros _ p ?%elem_of_nil]|].
      split; [|done]. intros Hall. exfalso. apply (not_elem_of_empty (C:=gset nat) y), Hall. left. }
    split; simpl; try done; try by intros x ?%not_elem_of_empty.
    + by rewrite length_fmap, length_seq.
    + intros x Hx. rewrite list_lookup_fmap, lookup_seq_lt by done. simpl.
      by rewrite undone_all.
    + intros x Hx ?%Hnil. apply Hsome; [apply elem_of_seq; unfold atom_count in Hx; lia|done].
    + intros r x. rewrite Hin, elem_of_seq, Hnil. fold (atom_count info).
      pose proof (not_elem_of_empty (C:=gset nat) x). naive_solver lia.
Qed.

(** *** Completion of an atom *)

(** The loop of [mark_done id] after the successors in [pre]. *)
Definition mark_inv (D : gset nat) (s : Scheduler) (id : nat) (pre : list nat)
    (st : gmap AtomReq (list nat) * list N) : Prop :=
  length st.2 = atom_count info ∧
  (∀ x, x < atom_count info → st.2 !! x =
     Some (if decide (x ∈ D) then u32_MAX
           else N.of_nat (undone D (preds info x) - if decide (x ∈ pre) then 1 else 0))) ∧
  (∀ x, x ∈ pre → undone ({[id]} ∪ D) (preds info x) = 0 → is_Some (req_of info x)) ∧
  (∀ r, NoDup (default [] (st.1 !! r))) ∧
  (∀ r x, x ∈ default [] (st.1 !! r) ↔ x ∈ default [] (ready_atoms s !! r) ∨
     (x ∈ pre ∧ req_of info x = Some r ∧ undone ({[id]} ∪ D) (preds info x) = 0)).

Lemma mark_inv_length D s id pre st : mark_inv D s id pre st → length st.2 = atom_count info.
Proof. by intros (? & _). Qed.

(** A successor of a running atom is neither done nor running nor ready. *)
Lemma successor_waits D R s id x :
  sched_inv info D R s → id ∈ R → id ∈ preds info x →
  x < atom_count info ∧ x ≠ id ∧ (x ∉ D) ∧ (x ∉ R) ∧
  (∀ r, x ∉ default [] (ready_atoms s !! r)) ∧
  undone D (preds info x) = S (undone ({[id]} ∪ D) (preds info x)).
Proof.
  intros Hinv Hid Hx. destruct (si_run_lt _ _ _ _ Hinv id Hid) as [_ HD].
  assert (HxR : x ∉ R) by (intros HxR; by apply HD, (si_run _ _ _ _ Hinv x HxR)).
  split_and!; [by eapply preds_lt|by intros ->| |done| |].
  - intros HxD. by apply HD, (si_done _ _ _ _ Hinv x HxD).
  - intros r (_ & _ & _ & _ & Hp)%(si_ready _ _ _ _ Hinv). by apply HD, Hp.
  - apply undone_add; [apply preds_nodup|done|done].
Qed.

Lemma successors_preds id x : id < atom_count info →
  x ∈ adj (cs_after_graph info) id ↔ id ∈ preds info x.
Proof.
  intros Hlt. split; intros Hx.
  - assert (Hedge : gedge (cs_after_graph info) id x) by (split; [by rewrite (sw_after_nodes _ Hwf)|done]).
    apply elem_of_preds; [|done]. rewrite <-(sw_after_nodes _ Hwf).
    by apply (gedge_lt _ _ _ (sw_after _ Hwf) Hedge).
  - by apply elem_of_preds in Hx as [_ ?]; [|by eapply preds_lt].
Qed.

(** A turn of the loop counts the successor down, and queues it at zero. *)
Lemma mark_turn_counts D s id pre x ready counts :
  mark_inv D s id pre (ready, counts) → x < atom_count info → (x ∉ D) → (x ∉ pre) →
  undone D (preds info x) = S (undone ({[id]} ∪ D) (preds info x)) →
  counts !! x = Some (N.of_nat (S (undone ({[id]} ∪ D) (preds info x)))) ∧
  ∀ c y, c = N.of_nat (undone ({[id]} ∪ D) (preds info x)) → y < atom_count info →
    <[x:=c]> counts !! y =
    Some (if decide (y ∈ D) then u32_MAX else
          N.of_nat (undone D (preds info y) - if decide (y ∈ pre ++ [x]) then 1 else 0)).
Proof.
  intros (Hlen & Hcnt & _) Hx HxD Hpre Hund. simpl in *. split.
  - rewrite Hcnt, !decide_False by done. by rewrite Hund, Nat.sub_0_r.
  - intros c y -> Hy. destruct (decide (x = y)) as [<-|Hxy].
    + rewrite list_lookup_insert_eq, decide_False, decide_True by (done || lia || set_solver).
      rewrite Hund. do 2 f_equal. lia.
    + rewrite list_lookup_insert_ne by done. rewrite Hcnt by done. do 2 f_equal.
      case_decide; [done|]. do 2 f_equal. apply decide_ext. set_solver.
Qed.

Lemma mark_turn_queued D s id pre x ready ready' counts counts' req :
  mark_inv D s id pre (ready, counts) → (x ∉ pre) → (∀ r, x ∉ default [] (ready_atoms s !! r)) →
  req_of info x = Some req → undone ({[id]} ∪ D) (preds info x) = 0 →
  (∀ r, default [] (ready' !! r) =
    if decide (r = req) then default [] (ready !! r) ++ [x] else default [] (ready !! r)) →
  length counts' = length counts →
  (∀ y, y < atom_count info → counts' !! y =
     Some (if decide (y ∈ D) then u32_MAX else
           N.of_nat (undone D (preds info y) - if decide (y ∈ pre ++ [x]) then 1 else 0))) →
  mark_inv D s id (pre ++ [x]) (ready', counts').
Proof.
  intros (Hlen & _ & Hsome & Hnd & Hin) Hpre Hold Hreq Hzero Hready' Hlen' Hcnt'. simpl in *.
  destruct (bucket_push req x (λ r, default [] (ready !! r))
    (λ r, default [] (ready' !! r)) Hready') as [Hnd' Hin']; [|done|].
  { intros r [Hx|[Hp _]]%Hin; [by eapply Hold|done]. }
  split_and!; simpl; [congruence|done| |done|].
  { intros y [?| ->%list_elem_of_singleton]%elem_of_app ?; [by apply Hsome|by exists req]. }
  intros r y. rewrite Hin', Hin, elem_of_app, list_elem_of_singleton. split; [|naive_solver].
  intros [[?|(? & ? & ?)]|[-> ->]]; [by left|by right; auto|right]. split_and!; [by right|done|done].
Qed.

Lemma mark_turn_waiting D s id pre x ready counts counts' :
  mark_inv D s id pre (ready, counts) → undone ({[id]} ∪ D) (preds info x) ≠ 0 →
  length counts' = length counts →
  (∀ y, y < atom_count info → counts' !! y =
     Some (if decide (y ∈ D) then u32_MAX else
           N.of_nat (undone D (preds info y) - if decide (y ∈ pre ++ [x]) then 1 else 0))) →
  mark_inv D s id (pre ++ [x]) (ready, counts').
Proof.
  intros (Hlen & _ & Hsome & Hnd & Hin) Hzero Hlen' Hcnt'. split_and!; simpl in *; [congruence|done| |done|].
  { intros y [?| ->%list_elem_of_singleton]%elem_of_app ?; [by apply Hsome|done]. }
  intros r y. rewrite Hin, elem_of_app, list_elem_of_singleton. split; [naive_solver|].
  intros [?|([?| ->] & ? & ?)]; [by left|by right|done].
Qed.

(** After the loop, the atom is done. *)
Lemma mark_finished D R s id ready counts :
  sched_inv info D R s → id ∈ R →
  mark_inv D s id (adj (cs_after_graph info) id) (ready, counts) →
  sched_inv info ({[id]} ∪ D) (R ∖ {[id]})
    {| ready_atoms := ready; wait_counts := <[id:=u32_MAX]> counts; sc_info := info |}.
Proof.
  intros Hinv Hid (Hlen & Hcnt & Hsome & Hnd & Hin). simpl in *.
  destruct (si_run_lt _ _ _ _ Hinv id Hid) as [Hlt HD].
  pose proof (λ x, successors_preds id x Hlt) as Hsucc.
  assert (HD' : ∀ x, x ∈ {[id]} ∪ D ↔ x = id ∨ x ∈ D) by (intros x; by rewrite elem_of_union, elem_of_singleton).
  assert (HR' : ∀ x, x ∈ R ∖ {[id]} ↔ x ∈ R ∧ x ≠ id)
    by (intros x; by rewrite elem_of_difference, not_elem_of_singleton).
  split; simpl; [done|..| |done|].
  - intros x [->|Hx]%HD'; [done|by apply (si_done_lt _ _ _ _ Hinv)].
  - intros x [->|Hx]%HD' p Hp; apply HD'; right;
      [by apply (si_run _ _ _ _ Hinv id)|by apply (si_done _ _ _ _ Hinv x)].
  - intros x [->|Hx]%HD' Hp; [by apply HD, (si_run _ _ _ _ Hinv id)|by apply (si_self _ _ _ _ Hinv x)].
  - intros x [Hx Hne]%HR'. destruct (si_run_lt _ _ _ _ Hinv x Hx). rewrite HD'. naive_solver.
  - intros x [Hx _]%HR' p Hp. apply HD'. right. by apply (si_run _ _ _ _ Hinv x).
  - by rewrite length_insert.
  - intros x Hx. destruct (decide (id = x)) as [<-|Hne].
    { rewrite list_lookup_insert_eq by lia. by rewrite decide_True by (apply HD'; by left). }
    rewrite list_lookup_insert_ne by done. rewrite Hcnt by done. f_equal.
    destruct (decide (x ∈ D)) as [HxD|HxD]; [by rewrite decide_True by (apply HD'; by right)|].
    rewrite (decide_False (P:=x ∈ {[id]} ∪ D)) by (rewrite HD'; naive_solver). f_equal. case_decide as Hadj.
    + apply Hsucc in Hadj. rewrite (undone_add D id) by (done || apply preds_nodup). lia.
    + rewrite undone_skip; [lia|]. by rewrite <-Hsucc.
  - intros x Hx Hall. destruct (decide (id ∈ preds info x)) as [Hi%Hsucc|Hi].
    + apply Hsome; [done|]. by apply undone_zero.
    + apply (si_req _ _ _ _ Hinv); [done|]. intros p Hp. by destruct (proj1 (HD' p) (Hall p Hp)) as [->|].
  - intros r x. rewrite Hin, HD', HR'. split.
    + intros [(? & ? & HxD & HxR & Hp)%(si_ready _ _ _ _ Hinv)|(Hx & Hreq & Hz)].
      * split_and!; [done..|naive_solver|naive_solver|]. intros p ?. apply HD'. auto.
      * apply Hsucc in Hx. destruct (successor_waits _ _ _ _ _ Hinv Hid Hx) as (? & ? & ? & ? & _).
        split_and!; [done..|naive_solver|naive_solver|by apply undone_zero].
    + intros (Hx & Hreq & HxD & HxR & Hp). destruct (decide (id ∈ preds info x)) as [Hi|Hi].
      * right. split_and!; [by apply Hsucc|done|by apply undone_zero].
      * left. apply (si_ready _ _ _ _ Hinv). split_and!; [done..|naive_solver|naive_solver|].
        intros p Hpp. destruct (proj1 (HD' p) (Hp p Hpp)) as [->|]; done.
Qed.

Lemma mark_done_spec {E} D R s id :
  sched_inv info D R s → id ∈ R →
  wpp (log_ready info ({[id]} ∪ D) id) (mark_done (E:=E) id s) (sched_inv info ({[id]} ∪ D) (R ∖ {[id]})).
Proof.
  intros Hinv Hid. destruct (si_run_lt _ _ _ _ Hinv id Hid) as [Hlt HD].
  unfold mark_done. rewrite (si_info _ _ _ _ Hinv).
  apply wpp_bind, wpp_wp, (wp_expect _ (adj (cs_after_graph info) id)).
  { apply edges_adj; [apply Hwf|by rewrite (sw_after_nodes _ Hwf)]. }
  apply wpp_bind, (wpp_for_each (mark_inv D s id)).
  - split_and!; simpl; [apply Hinv| |by intros x ?%elem_of_nil|apply Hinv|].
    + intros x Hx. rewrite (si_wait _ _ _ _ Hinv x Hx). do 2 f_equal. case_decide; [done|].
      simpl. by rewrite Nat.sub_0_r.
    + intros r x. split; [by left|]. by intros [?|[[]%not_elem_of_nil _]].
  - intros pre x post [ready counts] Heq Hmark.
    assert (Hx : id ∈ preds info x) by (apply successors_preds; [done|]; rewrite Heq; set_solver).
    destruct (successor_waits _ _ _ _ _ Hinv Hid Hx) as (Hxlt & Hne & HxD & HxR & Hxr & Hund).
    assert (Hxpre : x ∉ pre).
    { pose proof (sw_nodup _ Hwf id Hlt) as Hnda. rewrite Heq in Hnda.
      apply NoDup_app in Hnda as (_ & Hd & _). intros Hp. apply (Hd x Hp). by left. }
    destruct (mark_turn_counts _ _ _ _ _ _ _ Hmark Hxlt HxD Hxpre Hund) as [Hc Hcnt'].
    apply wpp_bind, wpp_wp, (wp_expect _ _ _ _ Hc). apply wpp_bind, wpp_wp, wp_check; [apply bool_decide_eq_true; lia|].
    apply wpp_bind, wpp_wp, wp_vset; [by rewrite <-(mark_inv_length _ _ _ _ _ Hmark) in *|].
    specialize (λ y, Hcnt' (N.of_nat (S (undone ({[id]} ∪ D) (preds info x))) - 1)%N y ltac:(lia)).
    case_decide as Hzero.
    + assert (Hz : undone ({[id]} ∪ D) (preds info x) = 0) by lia.
      apply wpp_bind, push_ready_spec; [done|exists x; by rewrite <-undone_zero|]. intros req ready' Hreq Hready'.
      eapply mark_turn_queued; [done..|by rewrite length_insert|done].
    + eapply mark_turn_waiting; [done|lia|by rewrite length_insert|done].
  - intros [ready counts] Hmark. apply wpp_bind, wpp_wp, wp_vset; [by rewrite <-(mark_inv_length _ _ _ _ _ Hmark) in *|].
    by eapply mark_finished.
Qed.

(** Completing an atom returns exactly when it makes no log ready. *)
Lemma mark_done_cases D R s id :
  sched_inv info D R s → id ∈ R →
  (∃ s', mark_done (E:=()) id s = Ret s' ∧ sched_inv info ({[id]} ∪ D) (R ∖ {[id]}) s' ∧
     ¬ log_ready info ({[id]} ∪ D) id) ∨
  mark_done (E:=()) id s = Panic ∧ log_ready info ({[id]} ∪ D) id.
Proof.
  intros Hinv Hid. pose proof (mark_done_spec (E:=()) D R s id Hinv Hid) as Hspec.
  destruct (mark_done id s) as [s'| | |]; try done; [left|by right]. exists s'. split_and!; [done..|].
  intros (x & Hx & Hall & Hnone). destruct (si_req _ _ _ _ Hspec x) as [req Hreq]; [by eapply preds_lt|done|congruence].
Qed.

Lemma get_task_spec D R s r id total s' :
  sched_inv info D R s → get_task r s = (Some (id, total), s') →
  sched_inv info D ({[id]} ∪ R) s' ∧ id < atom_count info ∧ req_of info id = Some r ∧
  (id ∉ D) ∧ (id ∉ R) ∧ (∀ p, p ∈ preds info id → p ∈ D) ∧
  total = length (default [] (ready_atoms s !! r)).
Proof.
  intros Hinv. unfold get_task. destruct (ready_atoms s !! r) as [l|] eqn:Hl; [|done].
  destruct (list_snoc_inv l) as [->|(l' & x & ->)]; [done|]. rewrite vpop_app. intros [= -> <- <-].
  pose proof (si_nodup _ _ _ _ Hinv r) as Hnd. rewrite Hl in Hnd. simpl in Hnd.
  assert (Hid : id ∈ default [] (ready_atoms s !! r)) by (rewrite Hl; set_solver).
  pose proof (proj1 (si_ready _ _ _ _ Hinv r id) Hid) as (Hlt & Hreq & HD & HR & Hp).
  apply NoDup_app in Hnd as (Hnd & Hdis & _).
  split_and!; try done. destruct Hinv as [Hi Hdl Hd Hself Hrl Hr Hlen Hw Hq Hn Hin]. split; simpl; try done.
  - intros x [->%elem_of_singleton|Hx]%elem_of_union; [done|by apply Hrl].
  - intros x [->%elem_of_singleton|Hx]%elem_of_union; [done|by apply Hr].
  - intros r'. destruct (decide (r = r')) as [<-|Hne]; [by rewrite lookup_insert_eq|].
    by rewrite lookup_insert_ne.
  - intros r' x. destruct (decide (r = r')) as [<-|Hne].
    + rewrite lookup_insert_eq. simpl. specialize (Hin r x). rewrite Hl in Hin. simpl in Hin.
      assert (x ∈ l' ↔ x ∈ l' ++ [id] ∧ x ≠ id) as ->; [|rewrite Hin; set_solver].
      rewrite elem_of_app, list_elem_of_singleton. split; [|naive_solver].
      intros Hx. split; [by left|]. intros ->. apply (Hdis id Hx). by left.
    + rewrite lookup_insert_ne by done. rewrite Hin. split; [|set_solver].
      intros (? & Hrq & ? & ? & ?). split_and!; [done..| |done].
      intros [->%elem_of_singleton|?]%elem_of_union; [congruence|done].
Qed.

(** *** Runs *)

Lemma sched_step_inv D R s R' s' :
  sched_inv info D R s → sched_step (s, R) (s', R') →
  ∃ D', sched_inv info D' R' s' ∧ 2 * size D' + size R' = S (2 * size D + size R).
Proof.
  intros Hinv Hstep. inversion Hstep as [r id total ? ? ? Hget|id ? ? ? Hid Hdone]; subst.
  - destruct (get_task_spec _ _ _ _ _ _ _ Hinv Hget) as (Hinv' & _ & _ & _ & HR & _).
    exists D. split; [done|]. rewrite size_union, size_singleton by set_solver. lia.
  - exists ({[id]} ∪ D). destruct (si_run_lt _ _ _ _ Hinv id Hid) as [_ HD].
    pose proof (mark_done_spec (E:=()) D R s id Hinv Hid) as Hspec. rewrite Hdone in Hspec.
    split; [done|]. rewrite size_union, size_singleton by set_solver.
    rewrite size_difference, size_singleton by set_solver.
    assert (size R ≠ 0) by (intros Hz%size_empty_inv; set_solver). lia.
Qed.

Lemma sched_new_inv s0 : sched_new (E:=()) info = Ret s0 → sched_inv info ∅ ∅ s0.
Proof. intros Heq. pose proof (sched_new_spec (E:=())) as Hspec. by rewrite Heq in Hspec. Qed.

Lemma sched_nsteps_inv k s0 R s :
  sched_new (E:=()) info = Ret s0 → nsteps sched_step k (s0, ∅) (s, R) →
  ∃ D, sched_inv info D R s ∧ k = 2 * size D + size R.
Proof.
  intros Hnew%sched_new_inv Hsteps.
  cut (∀ st st', nsteps sched_step k st st' → ∀ D, sched_inv info D st.2 st.1 →
    ∃ D', sched_inv info D' st'.2 st'.1 ∧ k + (2 * size D + size st.2) = 2 * size D' + size st'.2).
  { intros Hcut. destruct (Hcut _ _ Hsteps ∅ Hnew) as (D & ? & Hk). exists D. split; [done|].
    cbn [fst snd] in Hk. rewrite !(size_empty (C:=gset nat)) in Hk. lia. }
  clear -Hwf. induction k as [|k IH]; intros st st' Hsteps D Hinv; inversion Hsteps as [|? ? y ? Hst Hrest]; subst.
  - by exists D.
  - destruct st as [s R], y as [s1 R1]. destruct (sched_step_inv _ _ _ _ _ Hinv Hst) as (D1 & Hinv1 & Hsz).
    destruct (IH _ _ Hrest D1 Hinv1) as (D2 & ? & ?). exists D2. split; [done|]. simpl in *. lia.
Qed.

Lemma sched_reach_inv R s : sched_reach info (s, R) → ∃ D, sched_inv info D R s.
Proof.
  intros (s0 & Hnew & Hrtc). apply rtc_nsteps in Hrtc as [k Hk].
  destruct (sched_nsteps_inv _ _ _ _ Hnew Hk) as (D & ? & _). by exists D.
Qed.

Lemma iter_undone_spec D R s x :
  sched_inv info D R s → x ∈ iter_undone s ↔ x < atom_count info ∧ x ∉ D.
Proof.
  intros Hinv. pose proof (sw_count _ Hwf) as Hcount. unfold iter_undone. rewrite list_elem_of_omap. split.
  - intros ([i c] & (j & y & [= -> ->] & Hj)%elem_of_lookup_imap & Hx).
    assert (Hlt : j < atom_count info) by (rewrite <-(si_len _ _ _ _ Hinv); by eapply lookup_lt_Some).
    case_decide as Hc; [|done]. rewrite as_u32_small in Hx by lia. simplify_eq.
    rewrite (si_wait _ _ _ _ Hinv) in Hj by done. split; [done|]. intros HD.
    rewrite decide_True in Hj by done. by simplify_eq.
  - intros [Hx HD]. pose proof (si_wait _ _ _ _ Hinv x Hx) as Hw. rewrite decide_False in Hw by done.
    eexists (x, _). split; [by apply (elem_of_lookup_imap_2 pair)|].
    pose proof (undone_le D (preds info x)). pose proof (preds_length x).
    rewrite decide_True, as_u32_small by lia. done.
Qed.

(** The same of what an observer sees. *)
Lemma log_ready_undone D R s id :
  sched_inv info D R s → id ∈ R →
  (∃ x, gedge (cs_after_graph info) id x ∧ req_of info x = None ∧
    ∀ p, gedge (cs_after_graph info) p x → p ≠ id → p ∉ iter_undone s) ↔ log_ready info ({[id]} ∪ D) id.
Proof.
  intros Hinv Hid.
  assert (Hundone : ∀ x p, p ∈ preds info x → (p ≠ id → p ∉ iter_undone s) ↔ p ∈ {[id]} ∪ D).
  { intros x p [Hp _]%preds_lt. rewrite (iter_undone_spec D R) by done. rewrite elem_of_union, elem_of_singleton.
    destruct (decide (p = id)), (decide (p ∈ D)); naive_solver. }
  split; intros (x & Hx & H1 & H2).
  - assert (Hlt : x < atom_count info)
      by (rewrite <-(sw_after_nodes _ Hwf); by apply (gedge_lt _ _ _ (sw_after _ Hwf) Hx)).
    exists x. split; [by apply elem_of_preds|]. split; [|done]. intros p Hp. apply (Hundone x p Hp).
    by apply H2, elem_of_preds.
  - destruct (preds_lt _ _ Hx) as [_ Hlt]. exists x. split; [by apply elem_of_preds|]. split; [done|].
    intros p Hp%elem_of_preds; [|done]. by apply (Hundone x p Hp), H1.
Qed.

(** Everything before a task whose predecessors are done is done. *)
Lemma preds_done D R s x p :
  sched_inv info D R s → (∀ q, q ∈ preds info x → q ∈ D) → tc (gedge (cs_after_graph info)) p x → p ∈ D.
Proof.
  intros Hinv Hx Hp.
  assert (Hcl : ∀ y z, gedge (cs_after_graph info) y z → z ∈ D → y ∈ D).
  { intros y z Hyz Hz. apply (si_done _ _ _ _ Hinv z Hz). apply elem_of_preds; [|done].
    by apply (si_done_lt _ _ _ _ Hinv). }
  assert (Hgx : ∀ y, gedge (cs_after_graph info) y x → y ∈ D).
  { intros y Hy. apply Hx, elem_of_preds; [|done]. rewrite <-(sw_after_nodes _ Hwf).
    by apply (gedge_lt _ _ _ (sw_after _ Hwf) Hy). }
  induction Hp as [y x Hy|y z x Hyz _ IH]; [by apply Hgx|]. eapply Hcl; [done|]. by apply IH.
Qed.

(** The least undone atom has all its predecessors done. *)
Lemma least_undone D R s :
  sched_inv info D R s → (∀ p q, gedge (cs_after_graph info) p q → p < q) →
  ∀ x, x < atom_count info → x ∉ D →
  ∃ y, y < atom_count info ∧ (y ∉ D) ∧ ∀ p, p ∈ preds info y → p ∈ D.
Proof.
  intros Hinv Hfwd x. induction (lt_wf x) as [x _ IH]. intros Hx HxD.
  destruct (decide (Forall (λ p, p ∈ D) (preds info x))) as [Hall|Hex].
  - exists x. split_and!; [done..|]. by apply Forall_forall.
  - apply not_Forall_Exists, Exists_exists in Hex as (p & Hp & HpD); [|apply _].
    destruct (preds_lt _ _ Hp) as [Hpl _]. apply (IH p); [|done..].
    apply Hfwd. by apply elem_of_preds in Hp.
Qed.

(** What holds of a run that cannot continue: all atoms are done, or one that
    runs cannot be completed, because a log would be ready after it. *)
Definition run_over (s : Scheduler) (R : gset nat) : Prop :=
  iter_undone s = [] ∧ R = ∅ ∨
  ∃ id x, id ∈ R ∧ gedge (cs_after_graph info) id x ∧ req_of info x = None ∧ mark_done (E:=()) id s = Panic.

(** A run takes at most two steps per atom. *)
Lemma sched_run_spec s0 k s R :
  (∀ p q, gedge (cs_after_graph info) p q → p < q) →
  sched_new (E:=()) info = Ret s0 → nsteps sched_step k (s0, ∅) (s, R) →
  k <= 2 * atom_count info ∧ ((∀ st, ¬ sched_step (s, R) st) → run_over s R).
Proof.
  intros Hfwd Hnew Hsteps.
  destruct (sched_nsteps_inv _ _ _ _ Hnew Hsteps) as (D & Hinv & ->).
  assert (Hsize : size D + size R <= atom_count info).
  { assert (Hdis : D ## R) by (intros x HD HR; by destruct (si_run_lt _ _ _ _ Hinv x HR)).
    rewrite <-size_union by done.
    assert (Hsub : D ∪ R ⊆ list_to_set (seq 0 (atom_count info))).
    { intros x [Hx|Hx]%elem_of_union; apply elem_of_list_to_set, elem_of_seq.
      - apply (si_done_lt _ _ _ _ Hinv) in Hx. lia.
      - apply (si_run_lt _ _ _ _ Hinv) in Hx. lia. }
    apply subseteq_size in Hsub. rewrite size_list_to_set, length_seq in Hsub by apply NoDup_seq. done. }
  split; [lia|]. intros Hstuck.
  destruct (set_choose_or_empty R) as [[id Hid]|HR%leibniz_equiv].
  { right. destruct (mark_done_cases D R s id Hinv Hid) as [(s' & Heq & _)|[Hpanic (x & Hx & _ & Hreq)]].
    - by destruct (Hstuck (s', R ∖ {[id]}) (step_finish id s s' R Hid Heq)).
    - exists id, x. split_and!; [done| |done|done]. by apply elem_of_preds; [by eapply preds_lt|]. }
  left. split; [|done]. destruct (iter_undone s) as [|x l] eqn:Hund; [done|exfalso].
  assert (Hx : x ∈ iter_undone s) by (rewrite Hund; left).
  apply (iter_undone_spec D R) in Hx as [Hx HxD]; [|done].
  destruct (least_undone D R s Hinv Hfwd x Hx HxD) as (y & Hy & HyD & Hpy).
  destruct (si_req _ _ _ _ Hinv y Hy Hpy) as [r Hr].
  assert (Hready : y ∈ default [] (ready_atoms s !! r)).
  { apply (si_ready _ _ _ _ Hinv). split_and!; [done..| |done]. subst R. apply not_elem_of_empty. }
  destruct (ready_atoms s !! r) as [b|] eqn:Hb; simpl in Hready; [|by apply elem_of_nil in Hready].
  destruct (list_snoc_inv b) as [->|(b' & z & ->)]; [by apply elem_of_nil in Hready|].
  eapply Hstuck, (step_take r z (length (b' ++ [z]))).
  unfold get_task. rewrite Hb, vpop_app. reflexivity.
Qed.

End scheduler.

(** ** Properties *)

Section properties.
  Context (info : CompiledSetup).

(** C10: an atom is handed out under its own request, at a time when it is
    neither done nor running and everything the graph puts before it has been
    marked done; the count returned is the number of atoms that were ready for
    the request. *)
Theorem get_task_safe s R r id total s' :
  setup_wf info → sched_reach info (s, R) →
  get_task r s = (Some (id, total), s') →
  req_of info id = Some r ∧ id ∈ iter_undone s ∧ (id ∉ R) ∧
  (∀ p, tc (gedge (cs_after_graph info)) p id → p < atom_count info ∧ p ∉ iter_undone s) ∧
  total = length (default [] (ready_atoms s !! r)).
Proof.
  intros Hwf [D Hinv]%sched_reach_inv Hget; [|done..].
  destruct (get_task_spec info Hwf _ _ _ _ _ _ _ Hinv Hget) as (_ & Hlt & Hreq & HD & HR & Hp & Ht).
  split_and!; [done|by apply (iter_undone_spec info Hwf D R)|done| |done].
  intros p Htc. assert (HpD : p ∈ D) by (by eapply preds_done). split.
  - by apply (si_done_lt _ _ _ _ Hinv).
  - rewrite (iter_undone_spec info Hwf D R) by done. naive_solver.
Qed.

(** C26: completing a running atom completes exactly that atom: no wait count
    underflows and no index is out of range.  It panics exactly when an atom
    that makes no request, a [DebugName], would be ready after it, which is the
    [todo!] of the code. *)
Theorem mark_done_total s R id :
  setup_wf info → sched_reach info (s, R) → id ∈ R →
  let log_after := ∃ x, gedge (cs_after_graph info) id x ∧ req_of info x = None ∧
    ∀ p, gedge (cs_after_graph info) p x → p ≠ id → p ∉ iter_undone s in
  (∃ s', mark_done (E:=()) id s = Ret s' ∧ ¬ log_after ∧
    ∀ x, x ∈ iter_undone s' ↔ x ∈ iter_undone s ∧ x ≠ id) ∨
  mark_done (E:=()) id s = Panic ∧ log_after.
Proof.
  intros Hwf [D Hinv]%sched_reach_inv Hid log_after; [|done..].
  assert (Hlog : log_after ↔ log_ready info ({[id]} ∪ D) id) by by apply (log_ready_undone info Hwf D R).
  clearbody log_after. destruct (mark_done_cases info Hwf D R s id Hinv Hid) as [(s' & Heq & Hinv' & Hno)|[? ?]];
    [left|right; by rewrite Hlog].
  exists s'. split; [done|]. split; [by rewrite Hlog|]. intros x.
  rewrite (iter_undone_spec _ Hwf _ _ _ x Hinv'), (iter_undone_spec _ Hwf _ _ _ x Hinv).
  rewrite elem_of_union, elem_of_singleton. naive_solver.
Qed.

(** [sched_new] returns, unless an atom without predecessors makes no request;
    the others without predecessors are ready, and nothing is done. *)
Theorem sched_new_ready :
  setup_wf info →
  (∃ s, sched_new (E:=()) info = Ret s ∧ ¬ log_first info ∧
    (∀ x, x ∈ iter_undone s ↔ x < atom_count info) ∧
    (∀ r x, x ∈ default [] (ready_atoms s !! r) ↔
       x < atom_count info ∧ req_of info x = Some r ∧ preds info x = [])) ∨
  sched_new (E:=()) info = Panic ∧ log_first info.
Proof.
  intros Hwf. pose proof (sched_new_spec info Hwf (E:=())) as Hinv.
  destruct (sched_new info) as [s| | |]; try done; [left|by right]. exists s. split; [done|]. split_and!.
  - intros (x & Hx & Hp & Hnone). destruct (si_req _ _ _ _ Hinv x Hx) as [r Hr]; [|congruence].
    intros p. rewrite Hp. by intros ?%elem_of_nil.
  - intros x. rewrite (iter_undone_spec _ Hwf _ _ _ x Hinv). set_solver.
  - intros r x. rewrite (si_ready _ _ _ _ Hinv). split.
    + intros (? & ? & _ & _ & Hp). split_and!; [done..|].
      destruct (preds info x) as [|y l]; [done|]. specialize (Hp y). set_solver.
    + intros (? & ? & ->). set_solver.
Qed.

(** No deadlock and no livelock, when every edge leads to a later atom: a
    run has at most two steps per atom, and one that cannot continue has
    marked every atom done, unless a log is next. *)
Theorem sched_run_completes s0 k s R :
  setup_wf info → (∀ p q, gedge (cs_after_graph info) p q → p < q) →
  sched_new (E:=()) info = Ret s0 → nsteps sched_step k (s0, ∅) (s, R) →
  k <= 2 * atom_count info ∧ ((∀ st, ¬ sched_step (s, R) st) → run_over info s R).
Proof. intros Hwf. by apply sched_run_spec. Qed.

(** An atom with an edge to itself is never handed out and never becomes
    done: a test in which one atom waits for itself cannot finish. *)
Theorem self_dependency_stuck s R x :
  setup_wf info → gedge (cs_after_graph info) x x → sched_reach info (s, R) →
  x ∈ iter_undone s ∧ ∀ r total s', get_task r s ≠ (Some (x, total), s').
Proof.
  intros Hwf Hself [D Hinv]%sched_reach_inv; [|done..].
  assert (Hx : x < atom_count info) by (rewrite <-(sw_after_nodes _ Hwf); apply Hself).
  assert (Hp : x ∈ preds info x) by (by apply elem_of_preds).
  assert (HxD : x ∉ D) by (intros HxD; by apply (si_self _ _ _ _ Hinv x)).
  split; [by apply (iter_undone_spec info Hwf D R)|].
  intros r total s' Hget. destruct (get_task_spec info Hwf _ _ _ _ _ _ _ Hinv Hget) as (_ & _ & _ & _ & _ & Hall & _).
  by apply HxD, Hall.
Qed.

End properties.

(** ** Samples *)

(** Open, then read, then close. *)
Definition sample_setup : CompiledSetup := {|
  cs_atoms := (λ d, {| atom_data := d; atom_error := None |}) <$>
    [Open {| mock_id := 0 |} "/tmp/x"; Read {| mock_id := 0 |} "hi" 2; Close {| mock_id := 0 |}];
  cs_file_count := 1;
  cs_after_graph := {| vg_nodes := [(0, 1); (1, 2); (2, 2)]; vg_edges := [1; 2] |};
  cs_before_graph := {| vg_nodes := [(0, 0); (0, 1); (1, 2)]; vg_edges := [0; 1] |};
|}.

(** The same with the second atom waiting for itself. *)
Definition sample_stuck : CompiledSetup := {|
  cs_atoms := cs_atoms sample_setup;
  cs_file_count := 1;
  cs_after_graph := {| vg_nodes := [(0, 1); (1, 3); (3, 3)]; vg_edges := [1; 1; 2] |};
  cs_before_graph := {| vg_nodes := [(0, 0); (0, 2); (2, 3)]; vg_edges := [0; 1; 1] |};
|}.

Definition run_or (m : exec () Scheduler) : Scheduler :=
  match m with Ret s => s | _ => {| ready_atoms := ∅; wait_counts := []; sc_info := sample_setup |} end.

(** Started; the open handed out; the open done. *)
Definition sample_s0 : Scheduler := run_or (sched_new sample_setup).
Definition sample_s1 : Scheduler := (get_task (ROpen "/tmp/x") sample_s0).2.
Definition sample_s2 : Scheduler := run_or (mark_done 0 sample_s1).

(** Read and closed as well. *)
Definition sample_s4 : Scheduler := run_or (mark_done 1 (get_task (RRead {| mock_id := 0 |} 2) sample_s2).2).
Definition sample_s6 : Scheduler := run_or (mark_done 2 (get_task (RClose {| mock_id := 0 |}) sample_s4).2).

Lemma sample_runnable : runnable sample_setup ∧ runnable sample_stuck.
Proof. split; intros [|[|[|x]]] Hx; try (eexists; reflexivity); unfold atom_count in Hx; simpl in Hx; lia. Qed.

Lemma sample_reach1 : sched_reach sample_setup (sample_s1, {[0]} ∪ ∅).
Proof.
  exists sample_s0. split; [reflexivity|]. apply rtc_once, (step_take (ROpen "/tmp/x") 0 1). reflexivity.
Qed.

Lemma sample_reach2 : sched_reach sample_setup (sample_s2, ({[0]} ∪ ∅) ∖ {[0]}).
Proof.
  destruct sample_reach1 as (s0 & Hs0 & Hr). exists s0. split; [done|].
  eapply rtc_r; [exact Hr|]. apply step_finish; [set_solver|reflexivity].
Qed.

Lemma get_task_safe_witness :
  req_of sample_setup 1 = Some (RRead {| mock_id := 0 |} 2) ∧
  ∀ p, tc (gedge (cs_after_graph sample_setup)) p 1 → p < 3 ∧ p ∉ iter_undone sample_s2.
Proof.
  destruct (get_task_safe sample_setup sample_s2 (({[0]} ∪ ∅) ∖ {[0]}) (RRead {| mock_id := 0 |} 2) 1 1
    (get_task (RRead {| mock_id := 0 |} 2) sample_s2).2) as (Hreq & _ & _ & Hp & _).
  - apply setup_wfb_wf. vm_compute. reflexivity.
  - apply sample_reach2.
  - vm_compute. reflexivity.
  - split; [exact Hreq|exact Hp].
Defined.

(** The open is followed by a read, or by a log. *)
Definition sample_log_setup : CompiledSetup := {|
  cs_atoms := (λ d, {| atom_data := d; atom_error := None |}) <$> [Open {| mock_id := 0 |} "/tmp/x"; DebugName "opened"];
  cs_file_count := 1;
  cs_after_graph := {| vg_nodes := [(0, 1); (1, 1)]; vg_edges := [1] |};
  cs_before_graph := {| vg_nodes := [(0, 0); (0, 1)]; vg_edges := [0] |};
|}.
Definition sample_log_s1 : Scheduler := (get_task (ROpen "/tmp/x") (run_or (sched_new sample_log_setup))).2.

Lemma sample_log_reach : sched_reach sample_log_setup (sample_log_s1, {[0]} ∪ ∅).
Proof.
  exists (run_or (sched_new sample_log_setup)). split; [reflexivity|].
  apply rtc_once, (step_take (ROpen "/tmp/x") 0 1). reflexivity.
Qed.

Lemma mark_done_total_witness :
  (∃ s', mark_done (E:=()) 0 sample_s1 = Ret s' ∧
    ∀ x, x ∈ iter_undone s' ↔ x ∈ iter_undone sample_s1 ∧ x ≠ 0) ∧
  mark_done (E:=()) 0 sample_log_s1 = Panic ∧
  ∃ x, gedge (cs_after_graph sample_log_setup) 0 x ∧ req_of sample_log_setup x = None.
Proof.
  assert (H0 : 0 ∈ ({[0]} ∪ ∅ : gset nat)) by set_solver. split.
  - destruct (mark_done_total sample_setup sample_s1 ({[0]} ∪ ∅) 0
      ltac:(apply setup_wfb_wf; vm_compute; reflexivity) sample_reach1 H0) as [(s' & Heq & _ & Hs')|[Heq _]].
    + exists s'. split; [exact Heq|exact Hs'].
    + vm_compute in Heq. discriminate.
  - destruct (mark_done_total sample_log_setup sample_log_s1 ({[0]} ∪ ∅) 0
      ltac:(apply setup_wfb_wf; vm_compute; reflexivity) sample_log_reach H0) as [(s' & Heq & _)|[Heq (x & Hx & Hreq & _)]].
    + vm_compute in Heq. discriminate.
    + split; [exact Heq|]. exists x. split; [exact Hx|exact Hreq].
Defined.

Lemma sched_new_ready_witness :
  ∃ s, sched_new (E:=()) sample_setup = Ret s ∧ 0 ∈ default [] (ready_atoms s !! ROpen "/tmp/x").
Proof.
  destruct (sched_new_ready sample_setup) as [(s & Heq & _ & _ & Hready)|[Heq _]].
  - apply setup_wfb_wf. vm_compute. reflexivity.
  - exists s. split; [exact Heq|]. apply Hready. split; [unfold atom_count; simpl; lia|].
    split; vm_compute; reflexivity.
  - vm_compute in Heq. discriminate.
Defined.

(** An atom handed out and done. *)
Lemma sample_round r id total s s1 s2 :
  get_task r s = (Some (id, total), s1) → mark_done (E:=()) id s1 = Ret s2 →
  nsteps sched_step 2 (s, ∅) (s2, ∅).
Proof.
  intros Hget Hdone. eapply nsteps_l; [by apply (step_take r id total)|]. apply nsteps_once.
  replace (s2, ∅ : gset nat) with (s2, ({[id]} ∪ ∅ : gset nat) ∖ {[id]}) by (f_equal; set_solver).
  apply step_finish; [set_solver|done].
Qed.

Lemma sample_run : nsteps sched_step 6 (sample_s0, ∅) (sample_s6, ∅).
Proof.
  apply (nsteps_trans 2 4 _ (sample_s2, ∅)); [by eapply (sample_round (ROpen "/tmp/x") 0 1)|].
  apply (nsteps_trans 2 2 _ (sample_s4, ∅)); [by eapply (sample_round (RRead {| mock_id := 0 |} 2) 1 1)|].
  by eapply (sample_round (RClose {| mock_id := 0 |}) 2 1).
Qed.

Lemma idle_final s st : map_Forall (λ _ l, l = []) (ready_atoms s) → ¬ sched_step (s, ∅) st.
Proof.
  intros Hidle Hstep. inversion Hstep as [r id total s1 s' R Hget Heq|id s1 s' R Hin Heq]; subst; [|set_solver].
  unfold get_task in Hget. destruct (ready_atoms s !! r) as [l|] eqn:Hr; [|done].
  rewrite (Hidle r l Hr) in Hget. discriminate.
Qed.

Lemma sample_final st : ¬ sched_step (sample_s6, ∅) st.
Proof.
  apply idle_final.
  assert (bool_decide (map_Forall (λ _ l, l = []) (ready_atoms sample_s6)) = true) as Hall by (vm_compute; reflexivity).
  by apply bool_decide_eq_true_1 in Hall.
Qed.

Lemma sched_run_completes_witness :
  6 <= 2 * atom_count sample_setup ∧ run_over sample_setup sample_s6 ∅.
Proof.
  destruct (sched_run_completes sample_setup sample_s0 6 sample_s6 ∅) as [Hk Hend].
  - apply setup_wfb_wf. vm_compute. reflexivity.
  - intros p q [Hp Hq]. unfold adj in Hq. destruct p as [|[|[|p]]]; simpl in Hp; [| | |lia];
      vm_compute in Hq; [apply list_elem_of_singleton in Hq; lia..|by apply elem_of_nil in Hq].
  - reflexivity.
  - exact sample_run.
  - split; [exact Hk|apply Hend; exact sample_final].
Defined.

Lemma self_dependency_stuck_witness :
  1 ∈ iter_undone (run_or (sched_new sample_stuck)).
Proof.
  refine (proj1 (self_dependency_stuck sample_stuck (run_or (sched_new sample_stuck)) ∅ 1 _ _ _)).
  - apply setup_wfb_wf. vm_compute. reflexivity.
  - split; [simpl; lia|]. unfold adj. vm_compute. left.
  - exists (run_or (sched_new sample_stuck)). split; [reflexivity|apply rtc_refl].
Defined.
