(* ===== verification/TestRuns.v ===== *)
(** * Runs of compiled tests

    What [compile] promises to the scheduler, and what follows for a test as it
    was written: the scheduler of [Scheduler] hands out the atoms of a compiled
    test in the order of [TaskOrder]. *)

From S2P Require Import Prelude Index Graph Topo Reduction Model Compiler TaskOrder CompilerProofs CompilerCorrect Request Scheduler.

(** ** The interface between [compile] and the scheduler *)

(** A compiled test whose task count leaves room for the [u32::MAX] mark. *)
Definition compiles_to `{HashOrder} (info : TaskInfo) (cs : CompiledSetup) : Prop :=
  info_wf info ∧ (N.of_nat (length (ti_tasks info)) < u32_MAX)%N ∧ compile info = Ret cs.

Section runs.
  Context `{HashOrder} (info : TaskInfo) (cs : CompiledSetup) (Hcs : compiles_to info cs).

Lemma compiled_setup_wf order : compiled info order cs → setup_wf cs.
Proof.
  intros Hco. destruct Hcs as (Hwf & Hn & _).
  pose proof (co_atoms _ _ _ Hco) as Hatoms. apply Forall2_length in Hatoms.
  assert (Hlen : atom_count cs = length order) by done. split.
  - rewrite Hlen. pose proof (atom_ids_length (ti_tasks info)).
    rewrite (co_perm _ _ _ Hco) in Hlen. rewrite (co_perm _ _ _ Hco). lia.
  - rewrite Hlen. apply Hco.
  - apply Hco.
  - intros p Hp. rewrite Hlen in Hp. pose proof (co_sorted _ _ _ Hco p Hp) as Hs.
    induction Hs as [|x l _ IH Hall]; constructor; [|done]. intros Hx.
    rewrite Forall_forall in Hall. by apply Hall, Nat.lt_irrefl in Hx.
  - intros q Hq. unfold preds. rewrite Hlen in *. by apply Hco.
Qed.

Lemma compiled_order : ∃ order, compiled info order cs ∧ setup_wf cs ∧ ∀ t, nested (ti_tasks info) t.
Proof.
  destruct Hcs as (Hwf & _ & Heq). destruct (compile_ret info cs Hwf Heq) as (order & Hco & Hn).
  exists order. split_and!; [done|by eapply compiled_setup_wf|done].
Qed.

(** The required order has no cycle when the compiled edges lead forward. *)
Lemma compiled_acyclic :
  (∀ p q, gedge (cs_after_graph cs) p q → p < q) → ∀ a, ¬ tc (before info) a a.
Proof.
  intros Hfwd a Ha. destruct compiled_order as (order & Hco & Hwf & Hn).
  assert (a ∈ order) as [p Hp]%list_elem_of_lookup.
  { rewrite (co_perm _ _ _ Hco). apply atom_ids_elem.
    inversion Ha as [? ? Hb|? ? ? Hb]; subst; by destruct Hb as (u & v & [_ ?] & _). }
  apply boundary_edge_tc in Ha; [|done]. apply (co_order _ _ _ Hco p p) in Ha; [|done..].
  cut (∀ x y, tc (gedge (cs_after_graph cs)) x y → x < y); [intros Hlt; by apply Hlt, Nat.lt_irrefl in Ha|].
  intros x y Hxy. induction Hxy as [x y ?|x y z Hxy _ IH]; [by apply Hfwd|]. apply Hfwd in Hxy. lia.
Qed.

End runs.

(** The compiled edges lead forward when the required order has no cycle. *)
Lemma compiled_forward `{HashOrder} info cs order :
  compiled info order cs → (∀ a, ¬ tc (before info) a a) → ∀ p q, gedge (cs_after_graph cs) p q → p < q.
Proof.
  intros Hco Hac p q Hpq. destruct (decide (p = q)) as [<-|Hne].
  - pose proof Hpq as [Hp _]. rewrite (co_after_nodes _ _ _ Hco) in Hp.
    apply lookup_lt_is_Some in Hp as [a Ha]. exfalso. apply (Hac a).
    by apply tc_once, boundary_edge_before, (co_self _ _ _ Hco p).
  - apply (co_forward _ _ _ Hco) in Hpq. lia.
Qed.

(** ** Properties *)

Section properties.
  Context `{HashOrder} (info : TaskInfo) (cs : CompiledSetup).

(** C1: however the requests and completions of a run interleave, when an atom
    of a test is handed out every atom that the test orders before it has been
    marked done. *)
Theorem test_order_respected :
  compiles_to info cs →
  ∃ order, order ≡ₚ atom_ids (ti_tasks info) ∧
    ∀ s R r id total s', sched_reach cs (s, R) → get_task r s = (Some (id, total), s') →
      ∃ a, order !! id = Some a ∧
        ∀ q b, order !! q = Some b → tc (before info) b a → q ∉ iter_undone s.
Proof.
  intros Hcs. destruct (compiled_order info cs Hcs) as (order & Hco & Hwf & Hn).
  exists order. split; [apply Hco|]. intros s R r id total s' Hreach Hget.
  destruct (sched_reach_inv cs Hwf _ _ Hreach) as (D & Hinv).
  destruct (get_task_spec cs Hwf _ _ _ _ _ _ _ Hinv Hget) as (_ & Hlt & _ & _ & _ & Hp & _).
  assert (Hlen : atom_count cs = length order)
    by (unfold atom_count; symmetry; by eapply Forall2_length, co_atoms).
  rewrite Hlen in Hlt. apply lookup_lt_is_Some in Hlt as [a Ha]. exists a. split; [done|].
  intros q b Hq Hba. apply boundary_edge_tc in Hba; [|done].
  apply (co_order _ _ _ Hco q id b a) in Hba; [|done..].
  assert (q ∈ D) by (by eapply preds_done).
  rewrite (iter_undone_spec cs Hwf D R) by done. naive_solver.
Qed.

(** C2: when the order a test requires has no cycle between its atoms, every run
    that has started ends within two steps per atom, and a run that cannot
    continue has executed every atom, or stands at the [todo!] for logs: an
    atom that runs cannot be completed, because a [DebugName] would be ready
    after it.  A test without [DebugName]s is executed completely. *)
Theorem test_completes s0 k s R :
  compiles_to info cs → (∀ a, ¬ tc (before info) a a) →
  sched_new (E:=()) cs = Ret s0 → nsteps sched_step k (s0, ∅) (s, R) →
  k <= 2 * length (cs_atoms cs) ∧
  ((∀ st, ¬ sched_step (s, R) st) →
     (runnable cs → iter_undone s = []) ∧
     (iter_undone s = [] ∨ ∃ id x, id ∈ R ∧ gedge (cs_after_graph cs) id x ∧ req_of cs x = None ∧
        mark_done (E:=()) id s = Panic)).
Proof.
  intros Hcs Hac Hnew Hsteps. destruct (compiled_order info cs Hcs) as (order & Hco & Hwf & Hn).
  destruct (sched_run_spec cs Hwf s0 k s R (compiled_forward info cs order Hco Hac) Hnew Hsteps) as [Hk Hend].
  split; [done|]. intros Hstuck. destruct (Hend Hstuck) as [[Hnil _]|(id & x & Hid & Hx & Hreq & Hpanic)].
  - by split; [|left].
  - split; [|right; by exists id, x]. intros Hrun. destruct (Hrun x) as [r Hr]; [|congruence].
    rewrite <-(sw_after_nodes _ Hwf). by apply (gedge_lt _ _ _ (sw_after _ Hwf) Hx).
Qed.


End properties.

(** ** Samples *)

(** The test whose setup is [sample_setup]: open, then read, then close. *)
Definition sample_test : TaskInfo := {|
  ti_tasks := [TAtom {| atom_data := Open {| mock_id := 0 |} "/tmp/x"; atom_error := None |};
               TAtom {| atom_data := Read {| mock_id := 0 |} "hi" 2; atom_error := None |};
               TAtom {| atom_data := Close {| mock_id := 0 |}; atom_error := None |};
               TOrdered [0; 1; 2]];
  ti_happens_before := ∅;
  ti_file_count := 1;
|}.



Lemma sample_test_compiles : compiles_to (H:=hash_elements) sample_test sample_setup.
Proof. split_and!; [apply info_wfb_wf; vm_compute; reflexivity|vm_compute; reflexivity..]. Qed.

Lemma sample_setup_forward p q : gedge (cs_after_graph sample_setup) p q → p < q.
Proof.
  intros [Hp Hq]. unfold adj in Hq. destruct p as [|[|[|p]]]; simpl in Hp; [| | |lia];
    vm_compute in Hq; [apply list_elem_of_singleton in Hq; lia..|by apply elem_of_nil in Hq].
Qed.

Lemma test_order_respected_witness :
  ∃ order a, order ≡ₚ [0; 1; 2] ∧ order !! 1 = Some a ∧
    ∀ q b, order !! q = Some b → tc (before sample_test) b a → q ∉ iter_undone sample_s2.
Proof.
  destruct (test_order_respected (H:=hash_elements) sample_test sample_setup) as (order & Hperm & Hrun).
  - exact sample_test_compiles.
  - destruct (Hrun sample_s2 (({[0]} ∪ ∅) ∖ {[0]}) (RRead {| mock_id := 0 |} 2) 1 1
      (get_task (RRead {| mock_id := 0 |} 2) sample_s2).2) as (a & Ha & Hall).
    + exact sample_reach2.
    + vm_compute. reflexivity.
    + exists order, a. split; [exact Hperm|]. split; [exact Ha|exact Hall].
Defined.

Lemma test_completes_witness :
  6 <= 2 * length (cs_atoms sample_setup) ∧ iter_undone sample_s6 = [].
Proof.
  destruct (test_completes (H:=hash_elements) sample_test sample_setup sample_s0 6 sample_s6 ∅) as [Hk Hend].
  - exact sample_test_compiles.
  - exact (compiled_acyclic (H:=hash_elements) _ _ sample_test_compiles sample_setup_forward).
  - reflexivity.
  - exact sample_run.
  - split; [exact Hk|]. apply Hend; [exact sample_final|exact (proj1 sample_runnable)].
Defined.

