(* ===== verification/Effects.v ===== *)
(** * Computations that call the kernel

    [eff K E A] is code that runs against an external state [K] (the kernel,
    another process) and returns what [exec] describes.  An error or a panic
    keeps the changes made before it. *)

From S2P Require Import Prelude.

(** ** Integers and errors of the C interface *)

Definition i32_MIN : Z := -2147483648.
Definition i32_MAX : Z := 2147483647.
Definition i64_MIN : Z := -9223372036854775808.

(** [x as i64] and [x as i32] for a [u64] and an [i64]; [x as u64] back. *)
Definition as_i64 (x : N) : Z :=
  let z := Z.of_N (x mod 18446744073709551616) in
  if decide (z < 9223372036854775808)%Z then z else (z - 18446744073709551616)%Z.
Definition as_i32 (x : Z) : Z :=
  let z := (x mod 4294967296)%Z in
  if decide (z < 2147483648)%Z then z else (z - 4294967296)%Z.
Definition as_u64 (x : Z) : N := Z.to_N (x mod 18446744073709551616)%Z.

Definition EINTR : Z := 4.
Definition EIO : Z := 5.
Definition ECHILD : Z := 10.
Definition EFAULT : Z := 14.
Definition EINVAL : Z := 22.
Definition EMFILE : Z := 24.
Definition ENAMETOOLONG : Z := 36.
Definition ENOTSUP : Z := 95.

(** [io::Error]: a raw OS error, or one that the program makes itself. *)
Inductive ErrorKind := KUnexpectedEof | KInvalidData | KOther.
Inductive IoError := OsError (errno : Z) | CustomError (kind : ErrorKind).

(** ** The monad *)

Definition eff (K E A : Type) : Type := K → exec E A * K.

#[export] Instance eff_ret {K E} : MRet (eff K E) := λ A a k, (Ret a, k).
#[export] Instance eff_bind {K E} : MBind (eff K E) := λ A B f m k,
  match m k with
  | (Ret a, k') => f a k'
  | (Throw e, k') => (Throw e, k')
  | (Panic, k') => (Panic, k')
  | (NoFuel, k') => (NoFuel, k')
  end.

Section eff.
  Context {K E A : Type}.

Definition eff_throw (e : E) : eff K E A := λ k, (Throw e, k).
Definition eff_panic : eff K E A := λ k, (Panic, k).
(** Code without kernel calls. *)
Definition eff_lift (m : exec E A) : eff K E A := λ k, (m, k).
(** [Result::map_err]. *)
Definition eff_map_err {E'} (f : E → E') (m : eff K E A) : eff K E' A := λ k,
  match m k with
  | (Ret a, k') => (Ret a, k')
  | (Throw e, k') => (Throw (f e), k')
  | (Panic, k') => (Panic, k')
  | (NoFuel, k') => (NoFuel, k')
  end.
(** A [Result] that the caller inspects. *)
Definition eff_try {E'} (m : eff K E A) : eff K E' (E + A) := λ k,
  match m k with
  | (Ret a, k') => (Ret (inr a), k')
  | (Throw e, k') => (Ret (inl e), k')
  | (Panic, k') => (Panic, k')
  | (NoFuel, k') => (NoFuel, k')
  end.
(** Code on a component of a larger state, such as a field of [self]. *)
Definition eff_zoom {S} (get : S → K) (set : K → S → S) (m : eff K E A) : eff S E A := λ s,
  let '(r, k) := m (get s) in (r, set k s).

End eff.

(** Total correctness on states: [ewp m k P Q]. *)
Definition ewp {K E A} (m : eff K E A) (k : K) (P : A → K → Prop) (Q : E → K → Prop) : Prop :=
  let '(r, k') := m k in wp r (λ a, P a k') (λ e, Q e k').

#[global] Arguments ewp : simpl never.

Section ewp_rules.
  Context {K E : Type}.

Lemma ewp_ret {A} (a : A) (k : K) P (Q : E → K → Prop) : P a k → ewp (mret a) k P Q.
Proof. intros Hk. exact Hk. Qed.

Lemma ewp_throw {A} (e : E) (k : K) (P : A → K → Prop) Q : Q e k → ewp (eff_throw e) k P Q.
Proof. intros Hk. exact Hk. Qed.

Lemma ewp_bind {A B} (m : eff K E A) (f : A → eff K E B) k P Q :
  ewp m k (λ a k', ewp (f a) k' P Q) Q → ewp (m ≫= f) k P Q.
Proof. unfold ewp, mbind, eff_bind. destruct (m k) as [[] k']; auto. Qed.

Lemma ewp_mono {A} (m : eff K E A) k P P' Q Q' :
  ewp m k P Q → (∀ a k', P a k' → P' a k') → (∀ e k', Q e k' → Q' e k') → ewp m k P' Q'.
Proof. unfold ewp. destruct (m k) as [r k']. intros H HP HQ. eapply wp_mono; [exact H|intros a; apply HP|intros e; apply HQ]. Qed.

Lemma ewp_lift {A} (m : exec E A) (k : K) P Q :
  wp m (λ a, P a k) (λ e, Q e k) → ewp (eff_lift m) k P Q.
Proof. intros Hk. exact Hk. Qed.

Lemma ewp_map_err {A E'} (f : E → E') (m : eff K E A) k P Q :
  ewp m k P (λ e, Q (f e)) → ewp (eff_map_err f m) k P Q.
Proof. unfold ewp, eff_map_err. destruct (m k) as [[] k']; auto. Qed.

Lemma ewp_zoom {A S} (get : S → K) (set : K → S → S) (m : eff K E A) s P Q :
  ewp m (get s) (λ a k, P a (set k s)) (λ e k, Q e (set k s)) → ewp (eff_zoom get set m) s P Q.
Proof. unfold ewp, eff_zoom. destruct (m (get s)) as [r k]. auto. Qed.

End ewp_rules.

(** ** Outcomes

    [eff_post m k Φ]: [Φ] holds of the outcome and the state it leaves,
    whatever the outcome is. *)

Definition eff_post {K E A} (m : eff K E A) (k : K) (Φ : exec E A → K → Prop) : Prop :=
  let '(r, k') := m k in Φ r k'.

#[global] Arguments eff_post : simpl never.

(** What a bind makes of the first outcome. *)
Definition bind_post {K E A B} (f : A → eff K E B) (Φ : exec E B → K → Prop) (r : exec E A) (k : K) : Prop :=
  match r with
  | Ret a => eff_post (f a) k Φ
  | Throw e => Φ (Throw e) k
  | Panic => Φ Panic k
  | NoFuel => Φ NoFuel k
  end.

Section post_rules.
  Context {K E : Type}.

Lemma post_ret {A} (a : A) (k : K) (Φ : exec E A → K → Prop) : Φ (Ret a) k → eff_post (mret a) k Φ.
Proof. intros Hk. exact Hk. Qed.

Lemma post_throw {A} (e : E) (k : K) (Φ : exec E A → K → Prop) : Φ (Throw e) k → eff_post (eff_throw e) k Φ.
Proof. intros Hk. exact Hk. Qed.

Lemma post_lift {A} (m : exec E A) (k : K) Φ : Φ m k → eff_post (eff_lift m) k Φ.
Proof. intros Hk. exact Hk. Qed.

Lemma post_bind {A B} (m : eff K E A) (f : A → eff K E B) k Φ :
  eff_post m k (bind_post f Φ) → eff_post (m ≫= f) k Φ.
Proof. unfold eff_post, mbind, eff_bind. destruct (m k) as [[] k']; auto. Qed.

Lemma post_mono {A} (m : eff K E A) k (Φ Ψ : exec E A → K → Prop) :
  eff_post m k Φ → (∀ r k', Φ r k' → Ψ r k') → eff_post m k Ψ.
Proof. unfold eff_post. destruct (m k). auto. Qed.

End post_rules.

(** ** What code keeps *)

(** The state stays in [I], whatever the outcome. *)
Definition steady {S E A} (I : S → Prop) (m : eff S E A) : Prop := ∀ s, I s → I (m s).2.

Create HintDb steady.

Section steady.
  Context {S E : Type} (I : S → Prop).

Lemma steady_ret {A} (a : A) : steady (E:=E) I (mret a).
Proof. by intros s Hs. Qed.

Lemma steady_throw {A} (e : E) : steady I (eff_throw (A:=A) e).
Proof. by intros s Hs. Qed.

Lemma steady_lift {A} (m : exec E A) : steady I (eff_lift m).
Proof. by intros s Hs. Qed.

Lemma steady_bind {A B} (m : eff S E A) (f : A → eff S E B) :
  steady I m → (∀ a, steady I (f a)) → steady I (m ≫= f).
Proof.
  intros Hm Hf s Hs. specialize (Hm s Hs). unfold mbind, eff_bind.
  destruct (m s) as [[a|e| |] s']; [by apply Hf|done..].
Qed.

Lemma steady_try {E' A} (m : eff S E A) : steady I m → steady I (eff_try (E':=E') m).
Proof. intros Hm s Hs. specialize (Hm s Hs). unfold eff_try. by destruct (m s) as [[] s']. Qed.

Lemma steady_map_err {E' A} (f : E → E') (m : eff S E A) : steady I m → steady I (eff_map_err f m).
Proof. intros Hm s Hs. specialize (Hm s Hs). unfold eff_map_err. by destruct (m s) as [[] s']. Qed.

Lemma steady_post {A} (m : eff S E A) s (Φ : exec E A → S → Prop) :
  steady I m → I s → (∀ r s', I s' → Φ r s') → eff_post m s Φ.
Proof. intros Hm Hs HΦ. specialize (Hm s Hs). unfold eff_post. destruct (m s) as [r s']. by apply HΦ. Qed.

Lemma steady_zoom {T A} (get : S → T) (set : T → S → S) (m : eff T E A) (J : T → Prop) :
  (∀ s, I s → J (get s)) → (∀ s t, I s → J t → I (set t s)) → steady J m → steady I (eff_zoom get set m).
Proof.
  intros Hget Hset Hm s Hs. specialize (Hm _ (Hget s Hs)). unfold eff_zoom.
  destruct (m (get s)) as [r t]. by apply Hset.
Qed.

End steady.

#[export] Hint Resolve steady_ret steady_throw steady_lift steady_bind steady_try steady_map_err : steady.
