(* ===== verification/Policy.v ===== *)
(** * The seccomp policies ([src/build.rs])

    The build script compiles four policies into BPF filters with libseccomp:
    the groups of system calls, the registration that rejects overlapping
    groups, and the rules added for each group.  libseccomp is the parameter
    [Libseccomp], with what its documentation says as [LibseccompLaws]. *)

From S2P Require Import Prelude.

(** ** libseccomp *)

Inductive ScmpAction := Allow | Notify | Trace (data : N).

(** [scmp_cmp!($argN < datum)] and [scmp_cmp!($argN & mask == datum)]. *)
Inductive ScmpCmp :=
| CmpLess (arg : nat) (datum : N)
| CmpMaskedEq (arg : nat) (mask datum : N).

#[export] Instance ScmpAction_dec : EqDecision ScmpAction.
Proof. solve_decision. Defined.

(** A comparison on the six [u64] arguments of a system call. *)
Definition cmp_holds (args : list N) (c : ScmpCmp) : bool :=
  match c with
  | CmpLess arg datum => (default 0%N (args !! arg) <? datum)%N
  | CmpMaskedEq arg mask datum => (N.land (default 0%N (args !! arg)) mask =? datum)%N
  end.

Class Libseccomp := {
  ScmpContext : Type;
  (** An exported program, as the kernel runs it. *)
  Bpf : Type;
  ctx_new : ScmpAction → option ScmpContext;
  ctx_set_optimize : ScmpContext → N → option ScmpContext;
  ctx_add_rule_exact : ScmpContext → ScmpAction → N → list ScmpCmp → option ScmpContext;
  ctx_export_bpf : ScmpContext → option Bpf;
  bpf_byte_len : Bpf → N;
  bpf_run : Bpf → N → list N → ScmpAction;
  syscall_from_name : string → option N;
}.

(** The documented behaviour of what the script uses: a context is a default
    action and rules; an exported program runs the rule of a system call when
    its comparisons hold, and the default action otherwise. *)
Class LibseccompLaws `{Libseccomp} := {
  ctx_default : ScmpContext → ScmpAction;
  ctx_rules : ScmpContext → list (N * ScmpAction * list ScmpCmp);
  law_new a : ∃ c, ctx_new a = Some c ∧ ctx_default c = a ∧ ctx_rules c = [];
  law_optimize c : ∃ c', ctx_set_optimize c 2 = Some c' ∧
    ctx_default c' = ctx_default c ∧ ctx_rules c' = ctx_rules c;
  law_add c a nr cs : a ≠ ctx_default c → nr ∉ (ctx_rules c).*1.*1 →
    ∃ c', ctx_add_rule_exact c a nr cs = Some c' ∧ ctx_default c' = ctx_default c ∧
          ctx_rules c' = ctx_rules c ++ [(nr, a, cs)];
  law_export c : NoDup (ctx_rules c).*1.*1 → ∃ b, ctx_export_bpf c = Some b ∧
    (bpf_byte_len b ≠ 0 ∧ bpf_byte_len b `mod` 8 = 0)%N ∧
    (∀ nr a cs args, (nr, a, cs) ∈ ctx_rules c →
       bpf_run b nr args = if forallb (cmp_holds args) cs then a else ctx_default c) ∧
    (∀ nr args, nr ∉ (ctx_rules c).*1.*1 → bpf_run b nr args = ctx_default c);
  law_name s t nr : syscall_from_name s = Some nr → syscall_from_name t = Some nr → s = t;
}.

(** ** Policies *)

Definition MOCK_FD_BASE : N := 1048576.
Definition MAP_ANONYMOUS : N := 32.

Inductive FdPolicy := ReservedRange | AlwaysNotify.
Inductive ScopePolicy := FileBehaviorOnly | Strict.

Record Policy := { file_name : string; fd_policy : FdPolicy; scope : ScopePolicy }.

Definition POLICIES : list Policy := [
  {| file_name := "x86_64_range_file_only.bpf"; fd_policy := ReservedRange; scope := FileBehaviorOnly |};
  {| file_name := "x86_64_range_strict.bpf"; fd_policy := ReservedRange; scope := Strict |};
  {| file_name := "x86_64_mapped_file_only.bpf"; fd_policy := AlwaysNotify; scope := FileBehaviorOnly |};
  {| file_name := "x86_64_mapped_strict.bpf"; fd_policy := AlwaysNotify; scope := Strict |}].

(** ** Groups of system calls *)

Definition PROCESS_EXIT : list string := ["exit"; "exit_group"].

Definition PROCESS_EXECUTION : list string := ["execve"].

Definition LOCAL_SIGNAL_STATE : list string := ["rt_sigaction"; "rt_sigprocmask"; "rt_sigreturn";
  "sigaltstack"; "restart_syscall"].

Definition LOCAL_MEMORY : list string := ["brk"; "munmap"; "mprotect"; "mremap"; "madvise"].

Definition THREAD_RUNTIME : list string := ["arch_prctl"; "set_tid_address"; "set_robust_list";
  "get_robust_list"; "rseq"; "futex"; "futex_waitv"; "sched_yield"].

Definition NONDETERMINISTIC_ENVIRONMENT : list string := ["clock_gettime"; "clock_getres";
  "gettimeofday"; "time"; "times"; "nanosleep"; "clock_nanosleep"; "getrandom"; "uname";
  "sysinfo"; "getrlimit"; "getrusage"].

Definition PROCESS_INFORMATION : list string := ["getpid"; "getppid"; "gettid"; "getuid";
  "geteuid"; "getgid"; "getegid"; "getresuid"; "getresgid"; "getgroups"; "getpgrp"; "getpgid";
  "getsid"].

Definition PROCESS_CHANGE : list string := ["kill"; "tkill"; "tgkill"; "rt_sigqueueinfo";
  "rt_tgsigqueueinfo"; "pidfd_send_signal"; "setpgid"; "setsid"; "setpriority";
  "sched_setaffinity"; "sched_setscheduler"; "sched_setparam"; "sched_setattr"].

Definition PROCESS_CONFIGURATION : list string := ["prctl"; "personality"].

Definition FILESYSTEM_PATH_OPERATIONS : list string := ["open"; "openat"; "openat2"; "creat";
  "unlink"; "unlinkat"; "rename"; "renameat"; "renameat2"; "mkdir"; "mkdirat"; "rmdir"; "chdir";
  "fchdir"; "getcwd"; "link"; "linkat"; "symlink"; "symlinkat"; "readlink"; "readlinkat"; "stat";
  "lstat"; "newfstatat"; "statx"; "access"; "faccessat"; "faccessat2"; "chmod"; "fchmodat";
  "chown"; "lchown"; "fchownat"; "truncate"; "utime"; "utimes"; "utimensat"].

Definition FD_TOPOLOGY : list string := ["dup"; "dup2"; "dup3"; "fcntl"; "pipe"; "pipe2";
  "close_range"; "eventfd"; "eventfd2"; "signalfd"; "signalfd4"; "timerfd_create";
  "inotify_init"; "inotify_init1"; "memfd_create"; "userfaultfd"; "pidfd_open"; "pidfd_getfd"].

Definition NETWORK_TOPOLOGY : list string := ["socket"; "socketpair"; "accept"; "accept4";
  "connect"; "bind"; "listen"].

Definition PROCESS_TOPOLOGY : list string := ["fork"; "vfork"; "clone"; "clone3"].

Definition SUPERVISED_EXECUTION : list string := ["execveat"].

Definition GENERAL_CASE_OPERATIONS : list string := ["ioctl"; "prlimit64"].

Definition POLL_AND_READINESS : list string := ["poll"; "ppoll"; "select"; "pselect6";
  "epoll_create"; "epoll_create1"; "epoll_ctl"; "epoll_wait"; "epoll_pwait"; "epoll_pwait2"].

Definition SPECIAL_FD_OPERATIONS : list string := ["sendfile"; "splice"; "tee"; "vmsplice";
  "copy_file_range"; "inotify_add_watch"; "inotify_rm_watch"; "timerfd_settime";
  "timerfd_gettime"; "fstat"; "fstatfs"; "getdents"; "getdents64"].

Definition UNSUPPORTED_ASYNC_IO : list string := ["io_uring_setup"; "io_uring_enter";
  "io_uring_register"; "io_setup"; "io_destroy"; "io_submit"; "io_cancel"; "io_getevents";
  "io_pgetevents"].

Definition FD_FILE_OPERATIONS : list string := ["read"; "write"; "readv"; "writev"; "pread64";
  "pwrite64"; "preadv"; "pwritev"; "preadv2"; "pwritev2"; "lseek"; "fsync"; "fdatasync";
  "ftruncate"; "close"].

Definition FD_SOCKET_OPERATIONS : list string := ["sendto"; "recvfrom"; "sendmsg"; "recvmsg";
  "sendmmsg"; "recvmmsg"; "shutdown"; "getsockname"; "getpeername"; "getsockopt"; "setsockopt"].

(** ** The build script *)

Inductive BuildError :=
| Unsupported (message : string)
| Seccomp
| Overlap (name : string)
| Io (path : string)
| InvalidStream (path : string).

Section build.
  Context `{Libseccomp}.

Abbreviation Build := (exec BuildError).

(** A libseccomp call whose error [?] propagates. *)
Definition scmp {A} (r : option A) : Build A :=
  match r with Some a => Ret a | None => Throw Seccomp end.

Definition register (explicit : gset string) (name : string) : Build (gset string) :=
  if decide (name ∈ explicit) then Throw (Overlap name) else Ret ({[name]} ∪ explicit).

Definition register_group (explicit : gset string) (names : list string) : Build (gset string) :=
  for_each names (λ name explicit, register explicit name) explicit.

Definition register_notify_groups (explicit : gset string) (groups : list (list string)) : Build (gset string) :=
  for_each groups (λ group explicit, register_group explicit group) explicit.

Definition resolve_required (name : string) : Build N := scmp (syscall_from_name name).
Definition resolve_optional (name : string) : option N := syscall_from_name name.

Abbreviation St := (ScmpContext * gset string)%type.

Definition add_group (action : ScmpAction) (names : list string) (st : St) : Build St :=
  let '(context, explicit) := st in
  explicit ← register_group explicit names;
  context ← for_each names (λ name context,
    match resolve_optional name with
    | None => Ret context
    | Some syscall => scmp (ctx_add_rule_exact context action syscall [])
    end) context;
  Ret (context, explicit).

Definition add_mmap_rules (st : St) : Build St :=
  let '(context, explicit) := st in
  explicit ← register explicit "mmap";
  mmap ← resolve_required "mmap";
  context ← scmp (ctx_add_rule_exact context Allow mmap [CmpMaskedEq 3 MAP_ANONYMOUS MAP_ANONYMOUS]);
  Ret (context, explicit).

Definition add_fd_arg0_rules (policy : FdPolicy) (operations : list string) (st : St) : Build St :=
  let '(context, explicit) := st in
  match policy with
  | AlwaysNotify =>
      explicit ← register_group explicit operations;
      Ret (context, explicit)
  | ReservedRange =>
      for_each operations (λ name '(context, explicit),
        explicit ← register explicit name;
        match resolve_optional name with
        | None => Ret (context, explicit)
        | Some syscall =>
            context ← scmp (ctx_add_rule_exact context Allow syscall [CmpLess 0 MOCK_FD_BASE]);
            Ret (context, explicit)
        end) (context, explicit)
  end.

(** [create path] says whether [File::create], the write and [metadata]
    succeed on [path]. *)
Definition export_filter (create : string → bool) (path : string) (policy : Policy) : Build Bpf :=
  context ← scmp (ctx_new Notify);
  context ← scmp (ctx_set_optimize context 2);
  st ← add_group Allow PROCESS_EXIT (context, ∅);
  st ← add_group Allow PROCESS_EXECUTION st;
  st ← add_group Allow LOCAL_SIGNAL_STATE st;
  st ← add_group Allow LOCAL_MEMORY st;
  st ← add_group Allow THREAD_RUNTIME st;
  st ← add_group Allow NONDETERMINISTIC_ENVIRONMENT st;
  st ←
    match scope policy with
    | FileBehaviorOnly =>
        st ← add_group Allow PROCESS_INFORMATION st;
        st ← add_group Allow PROCESS_CHANGE st;
        add_group Allow PROCESS_CONFIGURATION st
    | Strict => Ret st
    end;
  st ← add_mmap_rules st;
  st ← add_fd_arg0_rules (fd_policy policy) FD_FILE_OPERATIONS st;
  st ← add_group (Trace 0) PROCESS_TOPOLOGY st;
  '(context, explicit) ← add_fd_arg0_rules (fd_policy policy) FD_SOCKET_OPERATIONS st;
  _ ← register_notify_groups explicit
    [FILESYSTEM_PATH_OPERATIONS; FD_TOPOLOGY; NETWORK_TOPOLOGY; SUPERVISED_EXECUTION;
     GENERAL_CASE_OPERATIONS; POLL_AND_READINESS; SPECIAL_FD_OPERATIONS; UNSUPPORTED_ASYNC_IO];
  if create path then
    bpf ← scmp (ctx_export_bpf context);
    if decide (bpf_byte_len bpf = 0 ∨ bpf_byte_len bpf `mod` 8 ≠ 0)%N then Throw (InvalidStream path)
    else Ret bpf
  else Throw (Io path).

(** Cargo's environment variables, and the files the script can write. *)
Record BuildEnv := {
  target_os : option string;
  target_arch : option string;
  out_dir : option string;
  creates : string → bool;
}.

(** The filters by path, and the value written to [seccomp_filter_config.rs]. *)
Definition main (env : BuildEnv) : Build (list (string * Bpf) * N) :=
  if decide (target_os env ≠ Some "linux") then
    Throw (Unsupported "seccomp filters require a Linux target")
  else if decide (target_arch env ≠ Some "x86_64") then
    Throw (Unsupported "seccomp filters currently support only the x86-64 syscall ABI")
  else
    match out_dir env with
    | None => Throw (Unsupported "Cargo did not provide OUT_DIR")
    | Some dir =>
        files ← mapM (λ policy,
          let path := dir +:+ "/" +:+ file_name policy in
          bpf ← export_filter (creates env) path policy;
          Ret (path, bpf)) POLICIES;
        let config := dir +:+ "/seccomp_filter_config.rs" in
        if creates env config then Ret (files, MOCK_FD_BASE) else Throw (Io config)
    end.

End build.

(** ** Specification *)

#[export] Instance ScmpCmp_dec : EqDecision ScmpCmp.
Proof. solve_decision. Defined.

Definition rule := (ScmpAction * list ScmpCmp)%type.

(** System calls allowed in every policy, and those that only a file-only
    policy allows. *)
Definition always_allowed : list string :=
  PROCESS_EXIT ++ PROCESS_EXECUTION ++ LOCAL_SIGNAL_STATE ++ LOCAL_MEMORY ++ THREAD_RUNTIME ++
  NONDETERMINISTIC_ENVIRONMENT.
Definition file_only_allowed : list string :=
  PROCESS_INFORMATION ++ PROCESS_CHANGE ++ PROCESS_CONFIGURATION.
Definition fd_operations : list string := FD_FILE_OPERATIONS ++ FD_SOCKET_OPERATIONS.

(** What a policy is meant to do with a system call: the action and when it
    applies; [None] is the fallback to the supervisor. *)
Definition policy_rule (p : Policy) (name : string) : option rule :=
  if decide (name ∈ always_allowed) then Some (Allow, [])
  else if decide (name ∈ file_only_allowed) then
    match scope p with FileBehaviorOnly => Some (Allow, []) | Strict => None end
  else if decide (name = "mmap") then Some (Allow, [CmpMaskedEq 3 MAP_ANONYMOUS MAP_ANONYMOUS])
  else if decide (name ∈ fd_operations) then
    match fd_policy p with ReservedRange => Some (Allow, [CmpLess 0 MOCK_FD_BASE]) | AlwaysNotify => None end
  else if decide (name ∈ PROCESS_TOPOLOGY) then Some (Trace 0, [])
  else None.

Definition rule_action (r : option rule) (args : list N) : ScmpAction :=
  match r with
  | Some (a, cs) => if forallb (cmp_holds args) cs then a else Notify
  | None => Notify
  end.

Definition policy_decision (p : Policy) (name : string) (args : list N) : ScmpAction :=
  rule_action (policy_rule p name) args.

(** [p] supervises at least what [q] supervises. *)
Definition stricter (p q : Policy) : Prop :=
  (fd_policy p = AlwaysNotify ∨ fd_policy q = ReservedRange) ∧
  (scope p = Strict ∨ scope q = FileBehaviorOnly).

(** The system calls a policy registers, in order, with their rules. *)
Definition entry := (string * option rule)%type.

Definition group_entries (r : option rule) (names : list string) : list entry := (λ n, (n, r)) <$> names.

Definition fd_rule (f : FdPolicy) : option rule :=
  match f with ReservedRange => Some (Allow, [CmpLess 0 MOCK_FD_BASE]) | AlwaysNotify => None end.

Definition rule_entries (p : Policy) : list entry :=
  group_entries (Some (Allow, [])) always_allowed ++
  match scope p with FileBehaviorOnly => group_entries (Some (Allow, [])) file_only_allowed | Strict => [] end ++
  group_entries (Some (Allow, [CmpMaskedEq 3 MAP_ANONYMOUS MAP_ANONYMOUS])) ["mmap"] ++
  group_entries (fd_rule (fd_policy p)) FD_FILE_OPERATIONS ++
  group_entries (Some (Trace 0, [])) PROCESS_TOPOLOGY ++
  group_entries (fd_rule (fd_policy p)) FD_SOCKET_OPERATIONS.

Definition notify_groups : list (list string) :=
  [FILESYSTEM_PATH_OPERATIONS; FD_TOPOLOGY; NETWORK_TOPOLOGY; SUPERVISED_EXECUTION;
   GENERAL_CASE_OPERATIONS; POLL_AND_READINESS; SPECIAL_FD_OPERATIONS; UNSUPPORTED_ASYNC_IO].

#[global] Arguments rule_entries : simpl never.
#[global] Arguments policy_rule : simpl never.

(** ** Lemmas *)

Lemma policy_names_nodup p : NoDup ((rule_entries p).*1 ++ mjoin notify_groups).
Proof.
  apply (bool_decide_unpack _). destruct p as [? [] []]; vm_compute; exact I.
Qed.

Lemma entries_rule p n r : (n, r) ∈ rule_entries p → policy_rule p n = r.
Proof.
  assert (Hall : forallb (λ '(n, r), bool_decide (policy_rule p n = r)) (rule_entries p) = true)
    by (destruct p as [? [] []]; vm_compute; reflexivity).
  intros Hin%list_elem_of_In. rewrite forallb_forall in Hall.
  by apply (Hall (n, r)), bool_decide_eq_true in Hin.
Qed.

Lemma rule_listed p n r : policy_rule p n = Some r → n ∈ (rule_entries p).*1.
Proof.
  assert (Hsub : ∀ l, forallb (λ n, bool_decide (n ∈ (rule_entries p).*1)) l = true →
    n ∈ l → n ∈ (rule_entries p).*1).
  { intros l Hl Hn%list_elem_of_In. rewrite forallb_forall in Hl. by apply Hl, bool_decide_eq_true in Hn. }
  unfold policy_rule. intros Hr. repeat case_decide.
  - apply (Hsub always_allowed); [|done]. destruct p as [? [] []]; vm_compute; reflexivity.
  - destruct p as [? f []]; simpl in Hr; [|done].
    apply (Hsub file_only_allowed); [|done]. destruct f; vm_compute; reflexivity.
  - apply (Hsub ["mmap"]); [|set_solver]. destruct p as [? [] []]; vm_compute; reflexivity.
  - destruct p as [? [] s]; simpl in Hr; [|done].
    apply (Hsub fd_operations); [|done]. destruct s; vm_compute; reflexivity.
  - apply (Hsub PROCESS_TOPOLOGY); [|done]. destruct p as [? [] []]; vm_compute; reflexivity.
  - done.
Qed.

Lemma register_group_spec explicit names seen (P : gset string → Prop) (Q : BuildError → Prop) :
  (∀ n, n ∈ explicit ↔ n ∈ seen) → NoDup (seen ++ names) →
  (∀ explicit', (∀ n, n ∈ explicit' ↔ n ∈ seen ++ names) → P explicit') →
  wp (register_group explicit names) P Q.
Proof.
  intros Hexp Hnd HP. unfold register_group.
  apply (wp_for_each (λ pre explicit', ∀ n, n ∈ explicit' ↔ n ∈ seen ++ pre)).
  - intros n. by rewrite app_nil_r.
  - intros pre name post explicit' -> Hexp'. unfold register.
    apply NoDup_app in Hnd as (_ & Hdis & Hnd). apply NoDup_app in Hnd as (_ & Hdis' & _).
    rewrite decide_False.
    + apply wp_ret. intros n. rewrite elem_of_union, elem_of_singleton, Hexp', !elem_of_app,
        list_elem_of_singleton. naive_solver.
    + intros [Hin|Hin]%Hexp'%elem_of_app; [apply (Hdis _ Hin)|apply (Hdis' _ Hin)]; set_solver.
  - exact HP.
Qed.

Section libseccomp.
  Context `{Libseccomp} `{!LibseccompLaws}.

(** The libseccomp rules of a list of entries. *)
Definition rules_of (es : list entry) : list (N * ScmpAction * list ScmpCmp) :=
  omap (λ '(n, r), '(a, cs) ← r; nr ← syscall_from_name n; Some (nr, a, cs)) es.

(** The state of the script after the entries [es]. *)
Definition st_ok (es : list entry) (st : ScmpContext * gset string) : Prop :=
  ctx_default st.1 = Notify ∧ ctx_rules st.1 = rules_of es ∧ ∀ n, n ∈ st.2 ↔ n ∈ es.*1.

Lemma elem_of_rules es nr a cs :
  (nr, a, cs) ∈ rules_of es ↔ ∃ n, (n, Some (a, cs)) ∈ es ∧ syscall_from_name n = Some nr.
Proof.
  unfold rules_of. rewrite list_elem_of_omap. split.
  - intros ([n [[a' cs']|]] & Hin & Hr); simpl in Hr; [|done].
    destruct (syscall_from_name n) eqn:Hn; simplify_eq/=. by exists n.
  - intros (n & Hin & Hn). exists (n, Some (a, cs)). split; [done|]. simpl. by rewrite Hn.
Qed.

Lemma rules_numbers es nr : nr ∈ (rules_of es).*1.*1 ↔
  ∃ n r, (n, Some r) ∈ es ∧ syscall_from_name n = Some nr.
Proof.
  rewrite !list_elem_of_fmap. setoid_rewrite list_elem_of_fmap. split.
  - intros ([? a] & -> & [[nr' a'] cs] & [= -> ->] & (n & ? & ?)%elem_of_rules). by exists n, (a', cs).
  - intros (n & [a cs] & Hin & Hn). exists (nr, a). split; [done|]. exists (nr, a, cs).
    split; [done|]. apply elem_of_rules. by exists n.
Qed.

Lemma rules_number_new es name nr :
  name ∉ es.*1 → syscall_from_name name = Some nr → nr ∉ (rules_of es).*1.*1.
Proof.
  intros Hname Hnr (n & r & Hin & Hn)%rules_numbers. apply Hname.
  rewrite (law_name _ _ _ Hnr Hn). by apply (list_elem_of_fmap_2 fst) in Hin.
Qed.

Lemma rules_of_app es es' : rules_of (es ++ es') = rules_of es ++ rules_of es'.
Proof. apply omap_app. Qed.

Lemma rules_nodup es : NoDup es.*1 → NoDup (rules_of es).*1.*1.
Proof.
  induction es as [|[n r] es IH] using rev_ind; [constructor|].
  rewrite fmap_app. intros (Hnd & Hdis & _)%NoDup_app.
  rewrite rules_of_app, !fmap_app. apply NoDup_app. split_and!; [by apply IH| |].
  - intros nr Hin. unfold rules_of. simpl. destruct r as [[a cs]|]; simpl; [|by intros ?%elem_of_nil].
    destruct (syscall_from_name n) as [nr'|] eqn:Hn; simpl; [|by intros ?%elem_of_nil].
    intros ->%list_elem_of_singleton. eapply rules_number_new; [|exact Hn|exact Hin].
    intros Hn'. apply (Hdis n Hn'). simpl. left.
  - unfold rules_of. simpl. destruct r as [[a cs]|]; simpl; [|constructor].
    destruct (syscall_from_name n); simpl; [apply NoDup_singleton|constructor].
Qed.

(** Adding the rule of a new name. *)
Lemma add_rule_spec es c name nr a cs (P : ScmpContext → Prop) (Q : BuildError → Prop) :
  ctx_default c = Notify → ctx_rules c = rules_of es → name ∉ es.*1 → a ≠ Notify →
  syscall_from_name name = Some nr →
  (∀ c', ctx_default c' = Notify → ctx_rules c' = rules_of (es ++ [(name, Some (a, cs))]) → P c') →
  wp (scmp (ctx_add_rule_exact c a nr cs)) P Q.
Proof.
  intros Hd Hr Hname Ha Hnr HP.
  destruct (law_add c a nr cs) as (c' & Hc' & Hd' & Hr').
  - congruence.
  - rewrite Hr. by eapply rules_number_new.
  - unfold scmp. rewrite Hc'. apply wp_ret, HP; [congruence|].
    rewrite Hr', Hr, rules_of_app. unfold rules_of at 3. simpl. by rewrite Hnr.
Qed.

(** A name without number adds no rule. *)
Lemma rules_of_unknown es name r :
  syscall_from_name name = None → rules_of (es ++ [(name, r)]) = rules_of es.
Proof.
  intros Hn. rewrite rules_of_app. unfold rules_of at 2. simpl. rewrite Hn.
  destruct r as [[? ?]|]; simpl; by rewrite app_nil_r.
Qed.

Lemma group_entries_snoc r pre name :
  group_entries r (pre ++ [name]) = group_entries r pre ++ [(name, r)].
Proof. unfold group_entries. by rewrite fmap_app. Qed.

Lemma group_entries_names r names : (group_entries r names).*1 = names.
Proof. unfold group_entries. rewrite <-list_fmap_compose. apply list_fmap_id. Qed.

Lemma nodup_fresh {A} (seen pre post : list A) x : NoDup (seen ++ pre ++ x :: post) → x ∉ seen ++ pre.
Proof.
  rewrite app_assoc. intros (_ & Hdis & _)%NoDup_app Hin. apply (Hdis x Hin). left.
Qed.

Lemma add_group_spec a names es st (P : ScmpContext * gset string → Prop) (Q : BuildError → Prop) :
  st_ok es st → a ≠ Notify → NoDup (es.*1 ++ names) →
  (∀ st', st_ok (es ++ group_entries (Some (a, [])) names) st' → P st') →
  wp (add_group a names st) P Q.
Proof.
  intros (Hd & Hr & Hexp) Ha Hnd HP. destruct st as [c explicit]. simpl in *.
  apply wp_bind, (register_group_spec _ _ es.*1); [done..|]. intros explicit' Hexp'.
  apply wp_bind, (wp_for_each (λ pre c', ctx_default c' = Notify ∧
    ctx_rules c' = rules_of (es ++ group_entries (Some (a, [])) pre))).
  - simpl. by rewrite app_nil_r.
  - intros pre name post c' -> [Hd' Hr']. rewrite group_entries_snoc, app_assoc.
    unfold resolve_optional. destruct (syscall_from_name name) as [nr|] eqn:Hn.
    + eapply add_rule_spec; [done..| |done|done|done].
      rewrite fmap_app, group_entries_names. by eapply nodup_fresh.
    + apply wp_ret. by rewrite rules_of_unknown.
  - intros c' [Hd' Hr']. apply wp_ret, HP. split_and!; [done..|].
    intros n. by rewrite Hexp', fmap_app, group_entries_names.
Qed.

Lemma add_mmap_rules_spec es st (P : ScmpContext * gset string → Prop) (Q : BuildError → Prop) :
  st_ok es st → "mmap" ∉ es.*1 → is_Some (syscall_from_name "mmap") →
  (∀ st', st_ok (es ++ group_entries (Some (Allow, [CmpMaskedEq 3 MAP_ANONYMOUS MAP_ANONYMOUS])) ["mmap"]) st' → P st') →
  wp (add_mmap_rules st) P Q.
Proof.
  intros (Hd & Hr & Hexp) Hnew [nr Hnr] HP. destruct st as [c explicit]. simpl in *.
  unfold register. rewrite decide_False by (by rewrite Hexp). simpl.
  unfold resolve_required. rewrite Hnr. simpl.
  apply wp_bind. eapply add_rule_spec; [done..|]. intros c' Hd' Hr'. apply wp_ret, HP.
  split_and!; [done..|]. intros n. rewrite fmap_app. simpl.
  rewrite elem_of_union, elem_of_singleton, Hexp, elem_of_app, list_elem_of_singleton. naive_solver.
Qed.

Lemma add_fd_arg0_rules_spec f names es st (P : ScmpContext * gset string → Prop) (Q : BuildError → Prop) :
  st_ok es st → NoDup (es.*1 ++ names) →
  (∀ st', st_ok (es ++ group_entries (fd_rule f) names) st' → P st') →
  wp (add_fd_arg0_rules f names st) P Q.
Proof.
  intros (Hd & Hr & Hexp) Hnd HP. destruct st as [c explicit]. simpl in *. destruct f; simpl in *.
  - apply (wp_for_each (λ pre, st_ok (es ++ group_entries (fd_rule ReservedRange) pre))); [| |exact HP].
    + simpl. rewrite app_nil_r. by split_and!.
    + intros pre name post [c' explicit'] -> (Hd' & Hr' & Hexp'). simpl in *.
      assert (Hfresh : name ∉ (es ++ group_entries (fd_rule ReservedRange) pre).*1).
      { rewrite fmap_app, group_entries_names. by eapply nodup_fresh. }
      unfold register. rewrite decide_False by (by rewrite Hexp'). simpl.
      assert (Hexp2 : ∀ n, n ∈ {[name]} ∪ explicit' ↔
        n ∈ (es ++ group_entries (fd_rule ReservedRange) (pre ++ [name])).*1).
      { intros n. rewrite group_entries_snoc, app_assoc, fmap_app, elem_of_app, elem_of_union,
          elem_of_singleton, Hexp'. simpl. rewrite list_elem_of_singleton. naive_solver. }
      unfold resolve_optional. destruct (syscall_from_name name) as [nr|] eqn:Hn.
      * apply wp_bind. eapply add_rule_spec; [done..|]. intros c2 Hd2 Hr2. apply wp_ret.
        split_and!; [done| |done]. by rewrite group_entries_snoc, app_assoc.
      * apply wp_ret. split_and!; [done| |done].
        rewrite group_entries_snoc, app_assoc. simpl. by rewrite rules_of_unknown.
  - apply wp_bind, (register_group_spec _ _ es.*1); [done..|]. intros explicit' Hexp'.
    apply wp_ret, HP. split_and!; [done| |].
    + simpl. rewrite Hr, rules_of_app. rewrite <-(app_nil_r (rules_of es)) at 1. f_equal.
      clear. induction names as [|n names IH]; [done|]. unfold rules_of in *. simpl. done.
    + intros n. simpl. by rewrite Hexp', fmap_app, group_entries_names.
Qed.

Lemma register_notify_groups_spec explicit groups seen (P : gset string → Prop) (Q : BuildError → Prop) :
  (∀ n, n ∈ explicit ↔ n ∈ seen) → NoDup (seen ++ mjoin groups) → (∀ e, P e) →
  wp (register_notify_groups explicit groups) P Q.
Proof.
  intros Hexp Hnd HP. unfold register_notify_groups.
  apply (wp_for_each (λ pre e, ∀ n, n ∈ e ↔ n ∈ seen ++ mjoin pre)); [| |by auto].
  - intros n. simpl. by rewrite app_nil_r.
  - intros pre g post e -> He. rewrite join_app in Hnd. simpl in Hnd.
    apply (register_group_spec _ _ (seen ++ mjoin pre)); [done| |].
    + rewrite !app_assoc in Hnd. by apply NoDup_app in Hnd as (? & _).
    + intros e' He' n. rewrite He', join_app. simpl. by rewrite app_nil_r, app_assoc.
Qed.

(** What the exported program of policy [p] does. *)
Definition bpf_decides (p : Policy) (b : Bpf) : Prop :=
  (∀ name nr args, syscall_from_name name = Some nr → bpf_run b nr args = policy_decision p name args) ∧
  (∀ nr args, (∀ name, syscall_from_name name ≠ Some nr) → bpf_run b nr args = Notify).

Lemma entries_decide p c b :
  st_ok (rule_entries p) c →
  (∀ nr a cs args, (nr, a, cs) ∈ ctx_rules c.1 →
     bpf_run b nr args = if forallb (cmp_holds args) cs then a else ctx_default c.1) →
  (∀ nr args, nr ∉ (ctx_rules c.1).*1.*1 → bpf_run b nr args = ctx_default c.1) →
  bpf_decides p b.
Proof.
  intros (Hd & Hr & _) Hrule Hdef. rewrite Hr, Hd in *. split.
  - intros name nr args Hn. unfold policy_decision, rule_action.
    destruct (policy_rule p name) as [[a cs]|] eqn:Hp.
    + pose proof (rule_listed _ _ _ Hp) as ([n r] & Heq & Hin)%list_elem_of_fmap. cbn [fst] in Heq. subst name.
      rewrite (entries_rule _ _ _ Hin) in Hp. subst r. apply (Hrule _ a cs). apply elem_of_rules. by exists n.
    + apply Hdef. intros (n & r & Hin & Hn')%rules_numbers.
      rewrite (law_name _ _ _ Hn Hn') in Hp. by rewrite (entries_rule _ _ _ Hin) in Hp.
  - intros nr args Hno. apply Hdef. intros (n & r & _ & Hn)%rules_numbers. by apply (Hno n).
Qed.

(** One step of [export_filter], with the entries of the state concrete. *)
Ltac names_fresh := apply (bool_decide_unpack _); vm_compute; exact I.
Ltac export_step :=
  apply wp_bind; match goal with H : st_ok _ ?st |- wp (_ ?st) _ _ =>
    first [eapply (add_group_spec _ _ _ _ _ _ H); [discriminate|names_fresh|]
          |eapply (add_fd_arg0_rules_spec _ _ _ _ _ _ H); [names_fresh|]
          |eapply (add_mmap_rules_spec _ _ _ _ H); [names_fresh|eassumption|]];
    clear H st; intros st H
  end.

Lemma export_filter_spec create path p (P : Bpf → Prop) (Q : BuildError → Prop) :
  create path = true → is_Some (syscall_from_name "mmap") →
  (∀ b, bpf_decides p b → P b) → wp (export_filter create path p) P Q.
Proof.
  intros Hcreate Hmmap HP. unfold export_filter.
  destruct (law_new Notify) as (c0 & Hc0 & Hd0 & Hr0). unfold scmp at 1. rewrite Hc0.
  apply wp_bind, wp_ret.
  destruct (law_optimize c0) as (c1 & Hc1 & Hd1 & Hr1). unfold scmp at 1. rewrite Hc1.
  apply wp_bind, wp_ret.
  assert (Hst : st_ok [] (c1, ∅)).
  { split_and!; simpl; [congruence|congruence|]. intros n. by rewrite elem_of_nil, elem_of_empty. }
  generalize dependent (c1, ∅ : gset string). intros st Hst. clear c0 c1 Hc0 Hd0 Hr0 Hc1 Hd1 Hr1.
  assert (Hfin : ∀ es st, es = rule_entries p → st_ok es st →
    wp (let '(context, explicit) := st in
        _ ← register_notify_groups explicit notify_groups;
        if create path then
          bpf ← scmp (ctx_export_bpf context);
          if decide (bpf_byte_len bpf = 0 ∨ bpf_byte_len bpf `mod` 8 ≠ 0)%N then Throw (InvalidStream path)
          else Ret bpf
        else Throw (Io path)) P Q).
  { intros es [c e] -> Hok. pose proof Hok as (Hd & Hr & He). cbn [fst snd] in Hd, Hr, He.
    apply wp_bind, (register_notify_groups_spec _ _ (rule_entries p).*1); [done|apply policy_names_nodup|].
    intros _. rewrite Hcreate. destruct (law_export c) as (b & Hb & [Hlen Hmod] & Hrule & Hdef).
    { rewrite Hr. apply rules_nodup. pose proof (policy_names_nodup p) as Hnd.
      by apply NoDup_app in Hnd as (? & _). }
    unfold scmp. rewrite Hb. apply wp_bind, wp_ret. rewrite decide_False by (intros [Hz|Hne]; [exact (Hlen Hz)|exact (Hne Hmod)]).
    apply wp_ret, HP. by apply (entries_decide p (c, e)). }
  destruct p as [name f s]. destruct f, s; cbn [scope fd_policy];
    do 6 export_step; (try (apply wp_bind; do 2 export_step; match goal with H : st_ok _ ?st |- wp (_ ?st) _ _ =>
      eapply (add_group_spec _ _ _ _ _ _ H); [discriminate|names_fresh|]; clear H st; intros st H end));
    (try (apply wp_bind, wp_ret)); do 4 export_step; (eapply Hfin; [|eassumption]); vm_compute; reflexivity.
Qed.

End libseccomp.

Lemma stricter_decision p q name args :
  stricter p q → policy_decision p name args = Allow → policy_decision q name args = Allow.
Proof.
  destruct p as [? fp sp], q as [? fq sq]. unfold stricter, policy_decision, policy_rule. cbn [fd_policy scope].
  intros [Hf Hs]. repeat case_decide; try done.
  - destruct sp, sq; try done. naive_solver.
  - destruct fp, fq; try done. naive_solver.
Qed.

(** ** Properties *)

Section properties.
  Context `{Libseccomp} `{!LibseccompLaws}.

(** C17: with libseccomp as documented, every policy is exported, and the
    program does with each system call what the policy says: no group overlaps
    another, unknown system calls notify, and nothing is refused by the
    filter itself. *)
Theorem export_filter_decides create path p :
  create path = true → is_Some (syscall_from_name "mmap") →
  ∃ b, export_filter create path p = Ret b ∧
    (∀ name nr args, syscall_from_name name = Some nr →
       bpf_run b nr args = policy_decision p name args) ∧
    (∀ nr args, (∀ name, syscall_from_name name ≠ Some nr) → bpf_run b nr args = Notify).
Proof.
  intros Hcreate Hmmap.
  assert (Hwp : wp (export_filter create path p) (bpf_decides p) (λ _, False)) by by apply export_filter_spec.
  apply wp_total in Hwp as (b & Heq & Hb). by exists b.
Qed.

(** A stricter policy lets less through: whatever its filter allows is
    allowed by the filter of the laxer policy. *)
Theorem stricter_allows_less create pathp pathq p q bp bq name nr args :
  create pathp = true → create pathq = true → is_Some (syscall_from_name "mmap") → stricter p q →
  export_filter create pathp p = Ret bp → export_filter create pathq q = Ret bq →
  syscall_from_name name = Some nr → bpf_run bp nr args = Allow → bpf_run bq nr args = Allow.
Proof.
  intros Hp Hq Hm Hle Hbp Hbq Hn.
  assert (Hdp : bpf_decides p bp).
  { refine (wp_ret_inv _ bp (bpf_decides p) (λ _, False) _ Hbp). by apply export_filter_spec. }
  assert (Hdq : bpf_decides q bq).
  { refine (wp_ret_inv _ bq (bpf_decides q) (λ _, False) _ Hbq). by apply export_filter_spec. }
  rewrite (proj1 Hdp name), (proj1 Hdq name) by done. by apply stricter_decision.
Qed.

(** The script fails on overlapping groups and on nothing else there: a
    group is registered exactly when it lists no name twice and no name that
    was registered before. *)
Theorem register_group_rejects_overlap explicit names :
  (∃ explicit', register_group explicit names = Ret explicit' ∧
     ∀ n, n ∈ explicit' ↔ n ∈ explicit ∨ n ∈ names) ↔
  NoDup names ∧ ∀ n, n ∈ names → n ∉ explicit.
Proof.
  unfold register_group. revert explicit. induction names as [|name names IH]; intros explicit; simpl.
  - split; [intros _; split; [constructor|by intros n ?%elem_of_nil]|].
    intros _. exists explicit. split; [done|]. set_solver.
  - replace (register explicit name) with (if decide (name ∈ explicit) then Throw (Overlap name)
      else Ret ({[name]} ∪ explicit) : exec BuildError (gset string)) by done.
    destruct (decide (name ∈ explicit)) as [Hin|Hin]; simpl.
    + split; [by intros (? & ? & _)|]. intros [_ Hall]. exfalso. apply (Hall name); [left|done].
    + specialize (IH ({[name]} ∪ explicit)). split.
      * intros (e' & Heq & He'). destruct (proj1 IH) as [Hnd Hall].
        -- exists e'. split; [done|]. intros n. rewrite He'. set_solver.
        -- split; [constructor; [|done]|]; [intros Hn; apply (Hall name Hn); set_solver|].
           intros n [->|Hn]%elem_of_cons; [done|]. specialize (Hall n Hn). set_solver.
      * intros [[Hnin Hnd]%NoDup_cons Hall]. destruct (proj2 IH) as (e' & Heq & He').
        -- split; [done|]. intros n Hn. specialize (Hall n). set_solver.
        -- exists e'. split; [done|]. intros n. rewrite He'. set_solver.
Qed.

(** For an x86-64 Linux target and a writable output directory the script
    succeeds: it writes the four filters under their names and the value of
    [MOCK_FD_BASE] that their rules use. *)
Lemma main_files env dir :
  is_Some (syscall_from_name "mmap") → (∀ path, creates env path = true) →
  target_os env = Some "linux" → target_arch env = Some "x86_64" → out_dir env = Some dir →
  ∃ files, main env = Ret (files, MOCK_FD_BASE) ∧
    Forall2 (λ p f, f.1 = dir +:+ "/" +:+ file_name p ∧ bpf_decides p f.2 ∧
      ∃ create path, export_filter create path p = Ret f.2) POLICIES files.
Proof.
  intros Hmmap Hcreate Hos Harch Hdir. unfold main. rewrite Hos, Harch, Hdir.
  rewrite !decide_False by (intros Hn; by apply Hn). rewrite Hcreate.
  assert (Hwp : wp (mapM (λ policy, bpf ← export_filter (creates env) (dir +:+ "/" +:+ file_name policy) policy;
      Ret (dir +:+ "/" +:+ file_name policy, bpf)) POLICIES)
    (Forall2 (λ p f, f.1 = dir +:+ "/" +:+ file_name p ∧ bpf_decides p f.2 ∧
      ∃ create path, export_filter create path p = Ret f.2) POLICIES) (λ _, False)).
  { eapply wp_mapM; [|by auto]. intros p _. cbv beta.
    assert (Hexp : wp (export_filter (creates env) (dir +:+ "/" +:+ file_name p) p) (bpf_decides p) (λ _, False))
      by by apply export_filter_spec.
    apply wp_total in Hexp as (b & Hb & Hdec). rewrite Hb. apply wp_ret. simpl. split_and!; [done|done|by do 2 eexists]. }
  apply wp_total in Hwp as (files & Heq & Hall). exists files. cbv zeta. rewrite Heq. by split.
Qed.

(** For any other target it fails. *)
Lemma main_unsupported env :
  target_os env ≠ Some "linux" ∨ target_arch env ≠ Some "x86_64" ∨ out_dir env = None →
  ∃ message, main env = Throw (Unsupported message).
Proof.
  intros Hbad. unfold main. case_decide as Hos; [by eexists|]. case_decide as Harch; [by eexists|].
  destruct (out_dir env); [|by eexists]. exfalso. destruct Hbad as [?|[?|?]]; done.
Qed.

End properties.

(** ** A libseccomp for the examples *)

Definition known_names : list string := PROCESS_EXIT ++ ["mmap"; "read"; "write"; "close"; "openat"; "fork"; "getpid"].

Definition name_number (names : list string) (s : string) : option N :=
  N.of_nat ∘ fst <$> list_find (λ t, t = s) names.

Lemma name_number_inj names s t nr :
  name_number names s = Some nr → name_number names t = Some nr → s = t.
Proof.
  unfold name_number. intros ([i s'] & Hs & Hi)%fmap_Some ([j t'] & Ht & Hj)%fmap_Some. simpl in *.
  apply list_find_Some in Hs as (Hs & -> & _), Ht as (Ht & -> & _).
  assert (i = j) as -> by lia. congruence.
Qed.

(** Contexts and programs are lists of rules; [byte_len] is the length of an
    exported program. *)
Abbreviation rule_list := (ScmpAction * list (N * ScmpAction * list ScmpCmp))%type.

Definition list_seccomp (byte_len : rule_list → N) : Libseccomp := {|
  ScmpContext := rule_list;
  Bpf := rule_list;
  ctx_new a := Some (a, []);
  ctx_set_optimize c _ := Some c;
  ctx_add_rule_exact c a nr cs :=
    if decide (a = c.1 ∨ nr ∈ c.2.*1.*1) then None else Some (c.1, c.2 ++ [(nr, a, cs)]);
  ctx_export_bpf c := Some c;
  bpf_byte_len := byte_len;
  bpf_run b nr args :=
    match list_find (λ r, r.1.1 = nr) b.2 with
    | Some (_, (_, a, cs)) => if forallb (cmp_holds args) cs then a else b.1
    | None => b.1
    end;
  syscall_from_name := name_number known_names;
|}.

Definition list_seccomp_laws byte_len :
  (∀ b, byte_len b ≠ 0 ∧ byte_len b `mod` 8 = 0)%N → LibseccompLaws (H:=list_seccomp byte_len).
Proof.
  intros Hlen. refine (@Build_LibseccompLaws (list_seccomp byte_len) (λ c : rule_list, c.1) (λ c : rule_list, c.2) _ _ _ _ _).
  - intros a. by eexists.
  - intros c. by eexists.
  - intros [d rs] a nr cs Ha Hnr. exists (d, rs ++ [(nr, a, cs)]). split; [|done]. simpl in *.
    rewrite decide_False; [done|]. intros [?|?]; done.
  - intros [d rs] Hnd. eexists. split; [reflexivity|]. simpl in *. split_and!.
    + apply Hlen.
    + apply Hlen.
    + intros nr a cs args Hin. destruct (list_find (λ r, r.1.1 = nr) rs) as [[i [[nr' a'] cs']]|] eqn:Hf.
      * apply list_find_Some in Hf as (Hi & Heq & _). simpl in Heq. subst nr'.
        apply list_elem_of_lookup in Hin as [j Hj].
        assert (i = j) as ->; [|by simplify_eq].
        eapply (NoDup_lookup rs.*1.*1); [done| |]; rewrite !list_lookup_fmap, ?Hi, ?Hj; done.
      * apply list_find_None in Hf. rewrite Forall_forall in Hf. by destruct (Hf _ Hin).
    + intros nr args Hnr. destruct (list_find (λ r, r.1.1 = nr) rs) as [[i [[nr' a'] cs']]|] eqn:Hf; [|done].
      apply list_find_Some in Hf as (Hi & Heq & _). simpl in Heq. subst nr'. exfalso. apply Hnr.
      apply list_elem_of_lookup. exists i. by rewrite !list_lookup_fmap, Hi.
  - exact (name_number_inj known_names).
Defined.

#[local] Instance sample_seccomp : Libseccomp := list_seccomp (λ b, 8 * N.of_nat (S (length b.2)))%N.

#[local] Instance sample_seccomp_laws : LibseccompLaws.
Proof.
  apply list_seccomp_laws. intros b. split; [lia|]. apply N.Lcm0.mod_divide.
  by exists (N.of_nat (S (length b.2))); rewrite N.mul_comm.
Defined.

Definition sample_policy : Policy :=
  {| file_name := "x86_64_range_strict.bpf"; fd_policy := ReservedRange; scope := Strict |}.
Definition sample_lax : Policy :=
  {| file_name := "x86_64_range_file_only.bpf"; fd_policy := ReservedRange; scope := FileBehaviorOnly |}.

Lemma sample_exports p : ∃ b, export_filter (λ _, true) "x" p = Ret b.
Proof.
  assert (Hwp : wp (export_filter (λ _, true) "x" p) (bpf_decides p) (λ _, False))
    by (apply export_filter_spec; [done|by eexists|done]).
  apply wp_total in Hwp as (b & Heq & _). by exists b.
Qed.

(** [read(3, ..)] is allowed, [read(MOCK_FD_BASE, ..)] is not. *)
Lemma export_filter_decides_witness :
  ∃ b, export_filter (λ _, true) "x" sample_policy = Ret b ∧
    bpf_run b 3 [3%N] = Allow ∧ bpf_run b 3 [MOCK_FD_BASE] = Notify ∧ bpf_run b 8 [] = Notify.
Proof.
  destruct (export_filter_decides (λ _, true) "x" sample_policy) as (b & Heq & Hb & _).
  - reflexivity.
  - eexists. reflexivity.
  - exists b. split; [exact Heq|].
    rewrite (Hb "read" 3%N), (Hb "read" 3%N), (Hb "getpid" 8%N) by reflexivity.
    split_and!; vm_compute; reflexivity.
Defined.

Lemma stricter_allows_less_witness :
  ∃ bp bq, export_filter (λ _, true) "x" sample_policy = Ret bp ∧
    export_filter (λ _, true) "x" sample_lax = Ret bq ∧
    (bpf_run bp 3 [3%N] = Allow → bpf_run bq 3 [3%N] = Allow).
Proof.
  destruct (sample_exports sample_policy) as [bp Hp]. destruct (sample_exports sample_lax) as [bq Hq].
  exists bp, bq. split; [exact Hp|]. split; [exact Hq|].
  apply (stricter_allows_less (λ _, true) "x" "x" sample_policy sample_lax bp bq "read" 3%N [3%N]).
  - reflexivity.
  - reflexivity.
  - eexists. reflexivity.
  - split; right; reflexivity.
  - exact Hp.
  - exact Hq.
  - reflexivity.
Defined.
