(* ===== verification/Tracker.v ===== *)
(** * Seccomp notifications ([src/src/runner/tracker.rs], [errno.rs])

    The requests that [Tracker] sends to the kernel through [ioctl], with the
    encodings of its responses.  The kernel is a parameter. *)

From S2P Require Import Prelude Effects.

(** ** Machine integers of the C interface *)

(** [x as u32] for an [i32]. *)
Definition as_u32_of_i32 (x : Z) : Z := (x `mod` 4294967296)%Z.

(** [-x] on [i32] with overflow checks. *)
Definition neg_i32 {E} (x : Z) : exec E Z := if decide (x = i32_MIN) then Panic else Ret (- x)%Z.

Definition O_CLOEXEC : Z := 524288.
Definition SECCOMP_USER_NOTIF_FLAG_CONTINUE : Z := 1.
Definition SECCOMP_ADDFD_FLAG_SETFD : Z := 1.
Definition SECCOMP_ADDFD_FLAG_SEND : Z := 2.

(** [errno::normalize]. *)
Definition normalize {E} (error : Z) : exec E Z :=
  if decide (error > 0)%Z then Ret error
  else if decide (error < 0)%Z then neg_i32 error
  else Ret EIO.

(** [errno::from_io]: an error without a raw OS error counts as [EIO]. *)
Definition from_io (error : IoError) : Z :=
  match error with OsError e => e | CustomError _ => EIO end.

(** ** The structures of the seccomp interface *)

Record seccomp_notif := { notif_id : N; notif_pid : Z; notif_nr : Z; notif_args : list N }.

Record seccomp_notif_resp := { resp_id : N; resp_val : Z; resp_error : Z; resp_flags : Z }.

Record seccomp_notif_addfd := {
  addfd_id : N; addfd_flags : Z; addfd_srcfd : Z; addfd_newfd : Z; addfd_newfd_flags : Z;
}.

(** ** The kernel: [ioctl] on the listener *)

(** Each call returns [rc], and [errno] where [rc] is negative. *)
Class Listener (K : Type) := {
  ioctl_recv : K → (Z * Z * seccomp_notif) * K;
  ioctl_send : seccomp_notif_resp → K → (Z * Z) * K;
  ioctl_addfd : seccomp_notif_addfd → K → (Z * Z) * K;
  ioctl_id_valid : N → K → (Z * Z) * K;
}.

Section tracker.
  Context {K : Type} `{Listener K}.

(** [if rc < 0 { Err(errno::get()) } else { Ok(rc) }]. *)
Definition rc_result (call : K → (Z * Z) * K) : eff K Z Z := λ k,
  let '((rc, errno), k) := call k in
  (if decide (rc < 0)%Z then Throw errno else Ret rc, k).

(** Retries on [EINTR]; the fuel bounds the retries. *)
Fixpoint recv (fuel : nat) : eff K Z seccomp_notif := λ k,
  match fuel with
  | 0 => (NoFuel, k)
  | S fuel =>
      let '((rc, error, req), k) := ioctl_recv k in
      if decide (rc = 0)%Z then (Ret req, k)
      else if decide (error = EINTR) then recv fuel k
      else (Throw error, k)
  end.

Definition send_response (resp : seccomp_notif_resp) : eff K Z () :=
  _ ← rc_result (ioctl_send resp); mret ().

Definition respond (req : seccomp_notif) (value : Z) : eff K Z () :=
  send_response {| resp_id := notif_id req; resp_val := value; resp_error := 0; resp_flags := 0 |}.

Definition respond_errno (req : seccomp_notif) (error : Z) : eff K Z () :=
  error ← eff_lift (normalize error);
  error ← eff_lift (neg_i32 error);
  send_response {| resp_id := notif_id req; resp_val := 0; resp_error := error; resp_flags := 0 |}.

Definition continue_syscall (req : seccomp_notif) : eff K Z () :=
  send_response {| resp_id := notif_id req; resp_val := 0; resp_error := 0;
                   resp_flags := SECCOMP_USER_NOTIF_FLAG_CONTINUE |}.

Definition add_fd (req : seccomp_notif) (src : Z) (cloexec : bool) : eff K Z Z :=
  rc_result (ioctl_addfd
    {| addfd_id := notif_id req; addfd_flags := 0; addfd_srcfd := as_u32_of_i32 src; addfd_newfd := 0;
       addfd_newfd_flags := if cloexec then O_CLOEXEC else 0 |}).

Definition add_fd_and_respond (req : seccomp_notif) (src : Z) (cloexec : bool) : eff K Z Z :=
  rc_result (ioctl_addfd
    {| addfd_id := notif_id req; addfd_flags := SECCOMP_ADDFD_FLAG_SEND;
       addfd_srcfd := as_u32_of_i32 src; addfd_newfd := 0;
       addfd_newfd_flags := if cloexec then O_CLOEXEC else 0 |}).

Definition add_fd_at (req : seccomp_notif) (src target_fd : Z) (cloexec : bool) : eff K Z Z :=
  _ ← eff_lift (check (bool_decide (0 <= target_fd)%Z));
  rc_result (ioctl_addfd
    {| addfd_id := notif_id req; addfd_flags := SECCOMP_ADDFD_FLAG_SETFD;
       addfd_srcfd := as_u32_of_i32 src; addfd_newfd := as_u32_of_i32 target_fd;
       addfd_newfd_flags := if cloexec then O_CLOEXEC else 0 |}).

Definition id_valid (req : seccomp_notif) : eff K Z () :=
  _ ← rc_result (ioctl_id_valid (notif_id req)); mret ().

End tracker.

(** ** Specification *)

(** The kernel answers [n] receives with [EINTR] before it reaches [k']. *)
Inductive interrupted {K} `{Listener K} : nat → K → K → Prop :=
| interrupted_now k : interrupted 0 k k
| interrupted_again n k rc req k1 k' :
    ioctl_recv k = ((rc, EINTR, req), k1) → rc ≠ 0%Z → interrupted n k1 k' → interrupted (S n) k k'.

(** ** Lemmas *)

Lemma neg_i32_ret {E} x : (i32_MIN < x)%Z → neg_i32 (E:=E) x = Ret (- x)%Z.
Proof. intros Hx. unfold neg_i32. rewrite decide_False; [done|]. lia. Qed.

Lemma normalize_ret {E} e : (i32_MIN < e <= i32_MAX)%Z →
  normalize (E:=E) e = Ret (if decide (e = 0%Z) then EIO else Z.abs e).
Proof.
  intros He. unfold normalize. repeat case_decide; try lia; [f_equal; lia| |done].
  rewrite neg_i32_ret by lia. f_equal. lia.
Qed.

(** ** Properties *)

Section properties.
  Context {K : Type} `{Listener K}.

(** Interruptions of the supervisor are invisible: after any number of
    them, [recv] returns the request or the error that the kernel reports
    next. *)
Theorem recv_retries_interruptions n fuel k k1 rc error req k' :
  interrupted n k k1 → ioctl_recv k1 = ((rc, error, req), k') →
  (rc = 0 ∨ error ≠ EINTR)%Z → n < fuel →
  recv fuel k = (if decide (rc = 0%Z) then Ret req else Throw error, k').
Proof.
  intros Hint Hlast Hok. revert fuel.
  induction Hint as [k|n k rc1 req1 k2 k1 Hcall Hrc _ IH]; intros [|fuel] Hfuel; try lia; simpl.
  - rewrite Hlast. case_decide; [done|]. rewrite decide_False; naive_solver.
  - rewrite Hcall, decide_False, decide_True by done. apply IH; [done|lia].
Qed.

(** C40: an answer with an error always makes the system call fail: whatever
    error number is given, sign included, the response carries its magnitude
    as a negative error ([EIO] for zero), no value and no flag; the one
    exception is the number whose negation overflows, which panics. *)
Theorem respond_errno_fails req e k :
  (i32_MIN <= e <= i32_MAX)%Z →
  if decide (e = i32_MIN) then (respond_errno (K:=K) req e k).1 = Panic
  else ∃ error, (i32_MIN < error < 0)%Z ∧ Z.abs error = (if decide (e = 0%Z) then EIO else Z.abs e) ∧
    respond_errno req e k = send_response
      {| resp_id := notif_id req; resp_val := 0; resp_error := error; resp_flags := 0 |} k.
Proof.
  intros He. unfold respond_errno. case_decide as Hmin.
  - subst e. reflexivity.
  - rewrite normalize_ret by lia.
    set (a := if decide (e = 0%Z) then EIO else Z.abs e).
    assert (Ha : (0 < a <= i32_MAX)%Z) by (unfold a, EIO, i32_MAX, i32_MIN in *; case_decide; lia).
    exists (- a)%Z. split; [unfold i32_MIN, i32_MAX in *; lia|]. split; [lia|].
    unfold mbind, eff_bind, eff_lift. rewrite neg_i32_ret; [done|]. unfold i32_MIN. lia.
Qed.

(** A descriptor is installed at an exact position only by [add_fd_at],
    which passes the target unchanged; both forms leave the notification
    unanswered, and [add_fd_and_respond] answers it atomically. *)
Theorem add_fd_requests req src target cloexec k :
  (0 <= src <= i32_MAX)%Z → (0 <= target <= i32_MAX)%Z →
  let newfd_flags := if cloexec : bool then O_CLOEXEC else 0%Z in
  add_fd req src cloexec k = rc_result (ioctl_addfd (Build_seccomp_notif_addfd (notif_id req) 0 src 0 newfd_flags)) k ∧
  add_fd_at req src target cloexec k =
    rc_result (ioctl_addfd (Build_seccomp_notif_addfd (notif_id req) SECCOMP_ADDFD_FLAG_SETFD src target newfd_flags)) k ∧
  add_fd_and_respond req src cloexec k =
    rc_result (ioctl_addfd (Build_seccomp_notif_addfd (notif_id req) SECCOMP_ADDFD_FLAG_SEND src 0 newfd_flags)) k.
Proof.
  intros Hs Ht newfd_flags.
  assert (Hid : ∀ x, (0 <= x <= i32_MAX)%Z → as_u32_of_i32 x = x)
    by (intros x Hx; unfold as_u32_of_i32, i32_MAX in *; rewrite Z.mod_small; lia).
  unfold add_fd, add_fd_at, add_fd_and_respond. rewrite !Hid by done. split_and!; [done| |done].
  by rewrite bool_decide_eq_true_2 by lia.
Qed.

End properties.

(** ** A kernel for the examples *)

(** [sk_next] is the lowest free descriptor of the child. *)
Record SampleKernel := {
  sk_eintr : nat;
  sk_next : Z;
  sk_fds : list Z;
  sk_sent : list seccomp_notif_resp;
}.

Definition sample_req : seccomp_notif :=
  {| notif_id := 7; notif_pid := 100; notif_nr := 257; notif_args := [] |}.

#[export] Instance sample_listener : Listener SampleKernel := {|
  ioctl_recv k :=
    match sk_eintr k with
    | 0 => ((0%Z, 0%Z, sample_req), k)
    | S n => ((-1, EINTR, sample_req)%Z,
              {| sk_eintr := n; sk_next := sk_next k; sk_fds := sk_fds k; sk_sent := sk_sent k |})
    end;
  ioctl_send r k :=
    ((0, 0)%Z, {| sk_eintr := sk_eintr k; sk_next := sk_next k; sk_fds := sk_fds k; sk_sent := r :: sk_sent k |});
  ioctl_addfd a k :=
    if decide (addfd_flags a = SECCOMP_ADDFD_FLAG_SETFD) then
      ((addfd_newfd a, 0%Z), {| sk_eintr := sk_eintr k; sk_next := sk_next k;
                                sk_fds := addfd_newfd a :: sk_fds k; sk_sent := sk_sent k |})
    else
      ((sk_next k, 0%Z), {| sk_eintr := sk_eintr k; sk_next := sk_next k + 1;
                            sk_fds := sk_next k :: sk_fds k; sk_sent := sk_sent k |});
  ioctl_id_valid _ k := ((0, 0)%Z, k);
|}.

Definition sample_kernel : SampleKernel := {| sk_eintr := 2; sk_next := 3; sk_fds := []; sk_sent := [] |}.

Lemma recv_retries_interruptions_witness :
  recv 3 sample_kernel =
    (Ret sample_req, {| sk_eintr := 0; sk_next := 3; sk_fds := []; sk_sent := [] |}).
Proof.
  refine (recv_retries_interruptions 2 3 sample_kernel
    {| sk_eintr := 0; sk_next := 3; sk_fds := []; sk_sent := [] |} 0%Z 0%Z sample_req _ _ eq_refl _ _).
  - eapply interrupted_again; [reflexivity|discriminate|].
    eapply interrupted_again; [reflexivity|discriminate|apply interrupted_now].
  - left. reflexivity.
  - lia.
Defined.

Lemma respond_errno_fails_witness :
  ∃ error, (i32_MIN < error < 0)%Z ∧ Z.abs error = 2%Z ∧
    respond_errno sample_req (-2) sample_kernel = send_response
      {| resp_id := 7; resp_val := 0; resp_error := error; resp_flags := 0 |} sample_kernel.
Proof.
  exact (respond_errno_fails sample_req (-2) sample_kernel ltac:(unfold i32_MIN, i32_MAX; lia)).
Defined.

Lemma add_fd_requests_witness :
  (add_fd_at sample_req 5 1048580 false sample_kernel).1 = Ret 1048580%Z.
Proof.
  rewrite (proj1 (proj2 (add_fd_requests sample_req 5 1048580 false sample_kernel
    ltac:(unfold i32_MAX; lia) ltac:(unfold i32_MAX; lia)))).
  reflexivity.
Defined.
