(* ===== verification/Fd.v ===== *)
(** * The file table of a child ([src/src/runner/fd.rs])

    The [ProcFileSpace] trait and its two implementations: descriptors
    classified by range, and by a map.  The state of an operation is the file
    space ([&mut self]) with the kernel. *)

From S2P Require Import Prelude Effects Index Graph Model Tracker Policy.

(** [lib.rs]: the runtime's own copy of the constant of the build script. *)
Definition MOCK_FD_BASE : N := N.shiftl 1 20.

Inductive ChildFile := Real | Mock (mock : MockFd).

Inductive CantAllocate := cant_allocate.

(** ** The trait *)

(** The [Throw] value is the raw OS error of the [io::Error]. *)
Class ProcFileSpace (PF : Type) := {
  lookup_fd : PF → Z → option ChildFile;
  respond_real {K} `{Listener K} : Z → seccomp_notif → eff (PF * K) Z ();
  respond_mock {K} `{Listener K} : MockFd → Z → seccomp_notif → eff (PF * K) Z ();
  remove_file : PF → Z → option ChildFile * PF;
}.

(** A call of the tracker, and an update of [self]. *)
Definition on_kernel {PF K A} (m : eff K Z A) : eff (PF * K) Z A :=
  eff_zoom snd (λ k s, (s.1, k)) m.
Definition update_self {PF K} (f : PF → PF) : eff (PF * K) Z () := λ s, (Ret (), (f s.1, s.2)).

(** [x as u64] for an [i32]. *)
Definition as_u64_of_i32 (x : Z) : N := Z.to_N (x `mod` 18446744073709551616)%Z.

(** ** [RangeFileSpace] *)

Inductive RangeFileSpace := range_file_space.

(** [checked_add] on [u64], then [RawFd::try_from]. *)
Definition mock_fd (mock : MockFd) : exec CantAllocate Z :=
  let fd := (MOCK_FD_BASE + mock_id mock)%N in
  if decide (fd <= u64_MAX)%N then
    if decide (Z.of_N fd <= i32_MAX)%Z then Ret (Z.of_N fd) else Throw cant_allocate
  else Throw cant_allocate.

Definition decode_mock (fd : Z) : option MockFd :=
  if decide (fd < 0)%Z then None
  else
    let fd := as_u64_of_i32 fd in
    if decide (fd < MOCK_FD_BASE)%N then None
    else
      let mock := (fd - MOCK_FD_BASE)%N in
      if decide (mock <= u32_MAX)%N then Some {| mock_id := mock |} else None.

Definition range_lookup_fd (fd : Z) : option ChildFile :=
  if decide (fd < 0)%Z then None
  else
    match decode_mock fd with
    | Some mock => Some (Mock mock)
    | None => Some Real
    end.

Definition range_respond_real {K} `{Listener K} (backing : Z) (req : seccomp_notif)
    : eff (RangeFileSpace * K) Z () :=
  fd ← on_kernel (add_fd req backing false);
  if decide (MOCK_FD_BASE <= as_u64_of_i32 fd)%N then on_kernel (respond_errno req EMFILE)
  else on_kernel (respond req fd).

Definition range_respond_mock {K} `{Listener K} (mock : MockFd) (backing : Z) (req : seccomp_notif)
    : eff (RangeFileSpace * K) Z () :=
  target_fd ← eff_map_err (λ _, EMFILE) (eff_lift (mock_fd mock));
  _ ← on_kernel (add_fd_at req backing target_fd false);
  on_kernel (respond req target_fd).

#[export] Instance RangeFileSpace_files : ProcFileSpace RangeFileSpace := {|
  lookup_fd _ := range_lookup_fd;
  respond_real _ _ := range_respond_real;
  respond_mock _ _ := range_respond_mock;
  remove_file s fd := (range_lookup_fd fd, s);
|}.

(** ** [MappedFileSpace] *)

Record MappedFileSpace := { files : gmap Z ChildFile }.

Definition mapped_new : MappedFileSpace := {| files := ∅ |}.

(** [Arc::make_mut(&mut self.files).insert(fd, file)]: the map is copied when
    it is shared, so a clone keeps what it had. *)
Definition mapped_insert (fd : Z) (file : ChildFile) (s : MappedFileSpace) : MappedFileSpace :=
  {| files := <[fd := file]> (files s) |}.

Definition mapped_respond_real {K} `{Listener K} (backing : Z) (req : seccomp_notif)
    : eff (MappedFileSpace * K) Z () :=
  fd ← on_kernel (add_fd req backing false);
  _ ← update_self (mapped_insert fd Real);
  on_kernel (respond req fd).

Definition mapped_respond_mock {K} `{Listener K} (mock : MockFd) (backing : Z) (req : seccomp_notif)
    : eff (MappedFileSpace * K) Z () :=
  fd ← on_kernel (add_fd req backing false);
  _ ← update_self (mapped_insert fd (Mock mock));
  on_kernel (respond req fd).

Definition mapped_remove_file (s : MappedFileSpace) (fd : Z) : option ChildFile * MappedFileSpace :=
  (files s !! fd, {| files := delete fd (files s) |}).

#[export] Instance MappedFileSpace_files : ProcFileSpace MappedFileSpace := {|
  lookup_fd s fd := files s !! fd;
  respond_real _ _ := mapped_respond_real;
  respond_mock _ _ := mapped_respond_mock;
  remove_file := mapped_remove_file;
|}.

(** ** Specification *)

(** The descriptor that the kernel takes from a 64-bit argument. *)
Definition kernel_fd (arg : N) : Z :=
  let low := (Z.of_N arg `mod` 4294967296)%Z in
  if decide (low <= i32_MAX)%Z then low else (low - 4294967296)%Z.

(** An open that records [file]: when the kernel has installed a descriptor, the
    child is told that one, it is looked up as [file], and no other descriptor
    changes, whatever becomes of the answer; removing it undoes that.  An
    installation that fails changes nothing. *)
Definition records {PF K} `{ProcFileSpace PF} `{Listener K} (file : ChildFile)
    (open : Z → seccomp_notif → eff (PF * K) Z ()) (backing : Z) (req : seccomp_notif) (s : PF) (k : K) : Prop :=
  match add_fd req backing false k with
  | (Ret fd, k1) =>
      ∃ s', open backing req (s, k) = ((respond req fd k1).1, (s', (respond req fd k1).2)) ∧
        lookup_fd s' fd = Some file ∧ (∀ fd', fd' ≠ fd → lookup_fd s' fd' = lookup_fd s fd') ∧
        (remove_file s' fd).1 = Some file ∧ lookup_fd (remove_file s' fd).2 fd = None ∧
        ∀ fd', fd' ≠ fd → lookup_fd (remove_file s' fd).2 fd' = lookup_fd s fd'
  | (Throw e, k1) => open backing req (s, k) = (Throw e, (s, k1))
  | _ => False
  end.

(** ** Lemmas *)

Lemma as_u64_of_i32_nonneg fd : (0 <= fd <= i32_MAX)%Z → as_u64_of_i32 fd = Z.to_N fd.
Proof. intros Hfd. unfold as_u64_of_i32, i32_MAX in *. rewrite Z.mod_small; lia. Qed.

Lemma base_value : MOCK_FD_BASE = 1048576%N.
Proof. done. Qed.

Lemma decode_mock_spec fd : (fd <= i32_MAX)%Z →
  decode_mock fd = if decide (Z.of_N MOCK_FD_BASE <= fd)%Z
    then Some {| mock_id := Z.to_N (fd - Z.of_N MOCK_FD_BASE) |} else None.
Proof.
  intros Hfd. unfold decode_mock. rewrite base_value. unfold u32_MAX.
  destruct (decide (fd < 0)%Z) as [Hneg|Hneg]; [by rewrite decide_False by lia|].
  rewrite as_u64_of_i32_nonneg by lia. unfold i32_MAX in *.
  destruct (decide (Z.of_N 1048576 <= fd)%Z) as [Hb|Hb].
  - rewrite decide_False, decide_True by lia. do 2 f_equal. lia.
  - by rewrite decide_True by lia.
Qed.

Lemma on_kernel_run {PF K A} (m : eff K Z A) (s : PF) k :
  on_kernel m (s, k) = ((m k).1, (s, (m k).2)).
Proof. unfold on_kernel, eff_zoom. simpl. by destruct (m k). Qed.

(** The installation of a descriptor succeeds or fails; it never panics. *)
Lemma add_fd_answers {K} `{Listener K} req backing cloexec (k : K) :
  match (add_fd req backing cloexec k).1 with Ret _ | Throw _ => True | _ => False end.
Proof. unfold add_fd, rc_result. destruct (ioctl_addfd _ k) as [[rc errno] k2]. by case_decide. Qed.

Lemma mapped_records {K} `{Listener K} file (open : Z → seccomp_notif → eff (MappedFileSpace * K) Z ())
    backing req s (k : K) :
  open backing req (s, k) =
    (fd ← on_kernel (add_fd req backing false);
     _ ← update_self (mapped_insert fd file);
     on_kernel (respond req fd)) (s, k) →
  records file open backing req s k.
Proof.
  intros Heq. unfold records. rewrite Heq. unfold mbind, eff_bind. rewrite on_kernel_run. pose proof (add_fd_answers req backing false k) as Hadd.
  destruct (add_fd req backing false k) as [[fd|e| |] k1]; simpl in *; [|done..].
  exists (mapped_insert fd file s). rewrite on_kernel_run. split; [done|]. simpl.
  rewrite lookup_insert_eq, lookup_delete_eq. split_and!; [done| |done|done|].
  - intros fd' Hne. by rewrite lookup_insert_ne.
  - intros fd' Hne. by rewrite lookup_delete_ne, lookup_insert_ne.
Qed.

(** ** Properties *)

(** C37: the range space names mock descriptors without loss: a descriptor is
    looked up as mock [m] exactly when it is the one [mock_fd m] allocates, so
    distinct mocks have distinct descriptors and none is taken for another. *)
Theorem mock_fd_roundtrip m fd :
  mock_fd m = Ret fd ↔ (fd <= i32_MAX)%Z ∧ range_lookup_fd fd = Some (Mock m).
Proof.
  unfold mock_fd, range_lookup_fd. rewrite base_value. unfold u64_MAX. split.
  - case_decide; [|done]. case_decide as Hle; [|done]. intros [= <-]. split; [done|].
    rewrite decide_False by lia. rewrite decode_mock_spec by done.
    rewrite base_value, decide_True by lia. destruct m as [m]. simpl. do 2 f_equal. f_equal. lia.
  - intros [Hfd Hl]. case_decide; [done|]. rewrite decode_mock_spec, base_value in Hl by done.
    case_decide; [|done]. injection Hl as <-. simpl. unfold i32_MAX in *.
    rewrite decide_True by lia. rewrite decide_True by lia. f_equal. lia.
Qed.

(** Every descriptor is classified: negative ones are none, those below
    the reserved range are real, and the others are mocks, each its own. *)
Theorem range_lookup_classifies fd :
  (fd <= i32_MAX)%Z →
  (range_lookup_fd fd = None ↔ (fd < 0)%Z) ∧
  (range_lookup_fd fd = Some Real ↔ (0 <= fd < Z.of_N MOCK_FD_BASE)%Z) ∧
  (∀ m, range_lookup_fd fd = Some (Mock m) ↔ fd = Z.of_N (MOCK_FD_BASE + mock_id m)).
Proof.
  intros Hfd. unfold range_lookup_fd. rewrite decode_mock_spec, base_value by done.
  case_decide as Hneg; [split_and!; [naive_solver lia..|]; intros m; split; [done|lia]|].
  case_decide as Hb; split_and!; try (split; [done|lia]); try (split; [lia|done]).
  - intros [m]. simpl. split; [intros [= <-]; lia|intros ->; do 2 f_equal; f_equal; lia].
Qed.

(** C36: what a child is told about a real descriptor: the descriptor the kernel
    installed, when it is below the reserved range, and then it is looked up
    as real; otherwise the error [EMFILE], although the descriptor stays
    installed. *)
Theorem range_respond_real_answers {K} `{Listener K} backing req fd (s : RangeFileSpace) (k k1 : K) :
  add_fd req backing false k = (Ret fd, k1) → (0 <= fd <= i32_MAX)%Z →
  let answer := if decide (fd < Z.of_N MOCK_FD_BASE)%Z then respond req fd
    else send_response {| resp_id := notif_id req; resp_val := 0; resp_error := -24; resp_flags := 0 |} in
  respond_real backing req (s, k) = ((answer k1).1, (s, (answer k1).2)) ∧
  ((fd < Z.of_N MOCK_FD_BASE)%Z → lookup_fd s fd = Some Real).
Proof.
  intros Hadd Hfd answer. split.
  - simpl. unfold range_respond_real, mbind, eff_bind. rewrite on_kernel_run, Hadd. simpl.
    rewrite as_u64_of_i32_nonneg by done. rewrite base_value.
    unfold answer. rewrite base_value. destruct (decide (fd < Z.of_N 1048576)%Z) as [Hlt|Hge].
    + rewrite decide_False by lia. by rewrite on_kernel_run.
    + rewrite decide_True by lia. by rewrite on_kernel_run.
  - intros Hlt. simpl. unfold range_lookup_fd. rewrite decide_False by lia.
    rewrite decode_mock_spec, decide_False by lia. done.
Qed.

(** C35: the map space records what was installed: a real open answered by
    [respond_real] as real, and a mock open answered by [respond_mock] as that
    mock; both answer with the descriptor of the kernel, leave the others as
    they were, and change nothing when the installation fails. *)
Theorem mapped_respond_tracks {K} `{Listener K} mock backing req (s : MappedFileSpace) (k : K) :
  records Real respond_real backing req s k ∧
  records (Mock mock) (respond_mock mock) backing req s k.
Proof. split; by apply mapped_records. Qed.

(** C30: the filter and the file table agree: an operation on a descriptor that
    a reserved-range filter lets through, whatever the upper half of its
    argument, is one on a descriptor the supervisor counts as real; and an
    operation on a mock descriptor always notifies, under every policy. *)
Theorem filter_agrees_with_lookup p name arg rest m fd :
  name ∈ fd_operations → (arg <= u64_MAX)%N →
  (policy_decision p name (arg :: rest) = Allow → range_lookup_fd (kernel_fd arg) = Some Real) ∧
  (mock_fd m = Ret fd → policy_decision p name (Z.to_N fd :: rest) = Notify).
Proof.
  intros Hop Harg.
  assert (Hrule : policy_rule p name = fd_rule (fd_policy p)).
  { assert (Hall : forallb (λ n, bool_decide (policy_rule p n = fd_rule (fd_policy p))) fd_operations = true)
      by (destruct p as [? [] []]; vm_compute; reflexivity).
    rewrite forallb_forall in Hall. by apply list_elem_of_In, Hall, bool_decide_eq_true in Hop. }
  unfold policy_decision. rewrite Hrule. destruct (fd_policy p); simpl; [|by split].
  unfold Policy.MOCK_FD_BASE. split.
  - destruct (arg <? 1048576)%N eqn:Hlt; simpl; [|done]. intros _. apply N.ltb_lt in Hlt.
    unfold kernel_fd. rewrite Z.mod_small by lia. unfold i32_MAX. rewrite decide_True by lia.
    unfold range_lookup_fd. rewrite decide_False by lia.
    rewrite decode_mock_spec, base_value, decide_False by (unfold i32_MAX; lia). done.
  - unfold mock_fd. rewrite base_value. repeat case_decide; try done. intros [= <-].
    destruct (_ <? 1048576)%N eqn:Hlt; [|done]. apply N.ltb_lt in Hlt. lia.
Qed.

(** ** Samples *)

Lemma range_lookup_classifies_witness :
  range_lookup_fd 1048579 = Some (Mock {| mock_id := 3 |}) ∧ range_lookup_fd 1048575 = Some Real.
Proof.
  split.
  - apply (range_lookup_classifies 1048579 ltac:(unfold i32_MAX; lia)). reflexivity.
  - apply (range_lookup_classifies 1048575 ltac:(unfold i32_MAX; lia)). rewrite base_value. lia.
Defined.

(** A child whose lowest free descriptor is the first reserved one: the answer
    is an error and the descriptor stays open. *)
Lemma range_respond_real_answers_witness :
  (respond_real 5 sample_req (range_file_space, {| sk_eintr := 0; sk_next := 1048576; sk_fds := []; sk_sent := [] |})).2.2 =
    {| sk_eintr := 0; sk_next := 1048577; sk_fds := [1048576%Z];
       sk_sent := [{| resp_id := 7; resp_val := 0; resp_error := -24; resp_flags := 0 |}] |}.
Proof.
  rewrite (proj1 (range_respond_real_answers (H:=sample_listener) 5 sample_req 1048576 range_file_space
    {| sk_eintr := 0; sk_next := 1048576; sk_fds := []; sk_sent := [] |}
    {| sk_eintr := 0; sk_next := 1048577; sk_fds := [1048576%Z]; sk_sent := [] |}
    ltac:(vm_compute; reflexivity) ltac:(unfold i32_MAX; lia))).
  vm_compute. reflexivity.
Defined.

Lemma filter_agrees_with_lookup_witness :
  range_lookup_fd (kernel_fd 3) = Some Real ∧
  policy_decision sample_policy "read" [1048579%N] = Notify.
Proof.
  destruct (filter_agrees_with_lookup sample_policy "read" 3 [] {| mock_id := 3 |} 1048579) as [Hallow Hmock].
  - apply list_elem_of_In. vm_compute. left. reflexivity.
  - unfold u64_MAX. lia.
  - split; [apply Hallow; vm_compute; reflexivity|apply Hmock; reflexivity].
Defined.
