(* ===== verification/Buffer.v ===== *)
(** * The copy buffer ([src/src/buffer.rs])

    [PageBuffer] and the functions that copy the memory of another process
    into it.  Memory cells are [None] until they are written, so that reading
    one too early, or leaving the allocation, is visible: both are [Panic] here,
    where the code would have undefined behaviour. *)

From S2P Require Import Prelude Effects.

Abbreviation byte := Byte.byte.
Abbreviation nul := Byte.x00.

#[export] Instance byte_dec : EqDecision byte := Byte.byte_eq_dec.

(** [PATH_MAX], which is also the size of a page. *)
Definition MAX_PATH : nat := N.to_nat 4096.

Inductive PathTooLong := path_too_long.

(** [Io] carries the raw OS error; [UnexpectedEof] is the error built by hand. *)
Inductive ProcessCopyError := Errno (errno : Z) | Io (errno : Z) | UnexpectedEof.

#[export] Instance ProcessCopyError_dec : EqDecision ProcessCopyError.
Proof. solve_decision. Defined.

(** ** [PageBuffer] *)

(** The cells of the pages, in order, and [len]. *)
Record PageBuffer := { cells : list (option byte); buf_len : nat }.

Definition allocate_pages (count : nat) : list (option byte) := replicate (count * MAX_PATH) None.

Definition buf_new : PageBuffer := {| cells := allocate_pages 1; buf_len := 0 |}.

Definition capacity (b : PageBuffer) : nat := length (cells b).

(** [Deref]: the first [len] cells, which must have been written. *)
Definition buf_deref {E} (b : PageBuffer) : exec E (list byte) :=
  if decide (buf_len b <= capacity b) then expect (mapM id (take (buf_len b) (cells b))) else Panic.

Definition buf_truncate (len : nat) (b : PageBuffer) : PageBuffer :=
  if decide (buf_len b <= len) then b
  else {| cells := take len (cells b) ++ replicate (capacity b - len) None; buf_len := len |}.

Definition buf_clear (b : PageBuffer) : PageBuffer := buf_truncate 0 b.

(** [copy_nonoverlapping] into the allocation at an offset. *)
Definition write_cells {E} (cs : list (option byte)) (offset : nat) (bytes : list byte) : exec E (list (option byte)) :=
  if decide (offset + length bytes <= length cs)
  then Ret (take offset cs ++ (Some <$> bytes) ++ drop (offset + length bytes) cs) else Panic.

Definition ensure_capacity (n : nat) (b : PageBuffer) : PageBuffer :=
  if decide (n <= capacity b) then b
  else
    let page_count := (n + MAX_PATH - 1) `div` MAX_PATH in
    {| cells := take (buf_len b) (cells b) ++ drop (buf_len b) (allocate_pages page_count);
       buf_len := buf_len b |}.

Definition set_path (path : list byte) (b : PageBuffer) : exec PathTooLong PageBuffer :=
  if decide (MAX_PATH < length path) then Throw path_too_long
  else
    let b := buf_clear b in
    cs ← write_cells (cells b) 0 path;
    Ret {| cells := cs; buf_len := length path |}.

Definition set_bytes {E} (bytes : list byte) (b : PageBuffer) : exec E PageBuffer :=
  let b := ensure_capacity (length bytes) (buf_clear b) in
  cs ← write_cells (cells b) 0 bytes;
  Ret {| cells := cs; buf_len := length bytes |}.

Definition truncate_at_nul {E} (b : PageBuffer) : exec E PageBuffer :=
  bytes ← buf_deref b;
  match list_find (λ c, c = nul) bytes with
  | Some (i, _) => Ret (buf_truncate i b)
  | None => Ret b
  end.

(** ** Memory of another process *)

(** [process_vm_readv] with one local and one remote range: the number of
    bytes read or -1, [errno], and the bytes written to the local range. *)
Class ProcessMemory (K : Type) := {
  process_vm_readv : Z → N → nat → K → (Z * Z * list byte) * K;
}.

Section process.
  Context {K : Type} `{ProcessMemory K}.
  Context (pid : Z) (address : N).

Abbreviation Copy := (eff K ProcessCopyError).

(** [usize::try_from(address)], then [checked_add(offset)]. *)
Definition remote_address (offset : nat) : option N :=
  if decide (address + N.of_nat offset <= usize_MAX)%N then Some (address + N.of_nat offset)%N else None.

Definition read_process_memory_once (offset len : nat) : Copy (list byte) :=
  match remote_address offset with
  | None => eff_throw (Errno EFAULT)
  | Some remote =>
      if decide (usize_MAX < remote + N.of_nat len)%N then eff_throw (Errno EFAULT)
      else λ k,
        let '((read, errno, bytes), k) := process_vm_readv pid remote len k in
        (if decide (read < 0)%Z then
           if decide (errno = EFAULT) then Throw (Errno EFAULT) else Throw (Io errno)
         else if decide (read = 0%Z ∧ len ≠ 0) then Throw UnexpectedEof
         else Ret bytes, k)
  end.

Abbreviation Self := (eff (PageBuffer * K) ProcessCopyError).

Definition write_self (offset : nat) (bytes : list byte) : Self () := λ s,
  match write_cells (E:=ProcessCopyError) (cells s.1) offset bytes with
  | Ret cs => (Ret (), ({| cells := cs; buf_len := buf_len s.1 |}, s.2))
  | _ => (Panic, s)
  end.

(** A read whose destination is the buffer at [offset]: what the kernel wrote
    stays there when a later read fails. *)
Definition read_into (offset len : nat) : Self (list byte) :=
  read ← eff_zoom snd (λ k s, (s.1, k)) (read_process_memory_once offset len);
  _ ← write_self offset read;
  mret read.

(** The loop that reads [len] bytes, of which [copied] are there. *)
Fixpoint read_process_memory (fuel len copied : nat) : Self nat :=
  match fuel with
  | 0 => eff_lift NoFuel
  | S fuel =>
      if decide (copied < len) then
        read ← read_into copied (len - copied);
        read_process_memory fuel len (copied + length read)
      else mret copied
  end.

(** The loop that looks for the end of a C string, a page at a time. *)
Fixpoint read_process_c_path (fuel copied : nat) : Self nat :=
  match fuel with
  | 0 => eff_lift NoFuel
  | S fuel =>
      if decide (copied < MAX_PATH) then
        match remote_address copied with
        | None => eff_throw (Errno EFAULT)
        | Some remote =>
            let page_remaining := MAX_PATH - N.to_nat (remote `mod` N.of_nat MAX_PATH) in
            let len := page_remaining `min` (MAX_PATH - copied) in
            read ← read_into copied len;
            match list_find (λ c, c = nul) read with
            | Some (i, _) => mret (copied + i)
            | None => read_process_c_path fuel (copied + length read)
            end
        end
      else eff_throw (Errno ENAMETOOLONG)
  end.

Definition update_buffer (f : PageBuffer → PageBuffer) : Self () := λ s, (Ret (), (f s.1, s.2)).
Definition set_len (n : nat) : Self () :=
  update_buffer (λ b, {| cells := cells b; buf_len := n |}).
Definition deref_self : Self (list byte) := λ s, (buf_deref s.1, s).

(** The closure of the copies: the length it returns, and the [result] it sets;
    the length is 0 after an error. *)
Definition copy_process_memory (len : nat) : Self (nat * exec ProcessCopyError ()) := λ s,
  match read_process_memory (S len) len 0 s with
  | (Ret read, s) => (Ret (read, Ret ()), s)
  | (Throw error, s) => (Ret (0, Throw error), s)
  | (Panic, s) => (Panic, s)
  | (NoFuel, s) => (NoFuel, s)
  end.

(** [write] returns the length, and in [A] what it assigned to its captured
    variables. *)
Definition write_path_with {A} (write : Self (nat * A)) : Self A :=
  _ ← update_buffer buf_clear;
  '(len, a) ← write;
  _ ← set_len len;
  mret a.

Definition write_bytes_with {A} (capacity : nat) (write : Self (nat * A)) : Self A :=
  _ ← update_buffer buf_clear;
  _ ← update_buffer (ensure_capacity capacity);
  '(len, a) ← write;
  _ ← set_len len;
  mret a.

Definition copy_from_process_bytes (len : nat) : Self (list byte) :=
  result ← write_bytes_with len (copy_process_memory len);
  _ ← eff_lift result;
  deref_self.

Definition copy_from_process_path_with_len (len : nat) : Self (list byte) :=
  if decide (MAX_PATH < len) then eff_throw (Errno ENAMETOOLONG)
  else
    result ← write_path_with (copy_process_memory len);
    _ ← eff_lift result;
    deref_self.

Definition copy_from_process_c_path : Self (list byte) :=
  _ ← update_buffer buf_clear;
  n ← read_process_c_path (S MAX_PATH) 0;
  _ ← set_len n;
  deref_self.

End process.

(** ** Specification *)

(** The buffer stands for the bytes it holds: the abstract state of
    [PageBuffer] is a list of bytes. *)
Definition cells_hold (bytes : list byte) (cs : list (option byte)) : Prop :=
  ∃ rest, cs = (Some <$> bytes) ++ rest.

Definition buf_holds (bytes : list byte) (b : PageBuffer) : Prop :=
  (∃ n, 0 < n ∧ capacity b = n * MAX_PATH) ∧ buf_len b = length bytes ∧ cells_hold bytes (cells b).

(** The bytes before the first NUL. *)
Fixpoint before_nul (bytes : list byte) : list byte :=
  match bytes with
  | [] => []
  | c :: bytes => if decide (c = nul) then [] else c :: before_nul bytes
  end.

(** The memory of a process, [None] where it is not mapped. *)
Definition memory := N → option byte.

(** [bytes] is what [mem] holds from [address] on. *)
Definition mem_matches (mem : memory) (address : N) (bytes : list byte) : Prop :=
  ∀ i c, bytes !! i = Some c → mem (address + N.of_nat i)%N = Some c.

(** Some byte of a range is not mapped. *)
Definition unmapped_in (mem : memory) (address : N) (len : nat) : Prop :=
  ∃ i, i < len ∧ mem (address + N.of_nat i)%N = None.

(** [process_vm_readv] on a live process that the supervisor may read: it
    yields a prefix of the range, and fails or reads nothing only when part of
    the range is not mapped. *)
Definition vm_law {K} `{ProcessMemory K} (mem : memory) (pid : Z) : Prop :=
  ∀ remote len k, let '((read, errno, bytes), _) := process_vm_readv pid remote len k in
    (read = Z.of_nat (length bytes) ∧ length bytes <= len ∧ mem_matches mem remote bytes ∧
     (len ≠ 0 → bytes = [] → unmapped_in mem remote len)) ∨
    ((read < 0)%Z ∧ unmapped_in mem remote len).

(** Memory is mapped by pages. *)
Definition paged (mem : memory) : Prop :=
  ∀ a b, (a `div` N.of_nat MAX_PATH = b `div` N.of_nat MAX_PATH)%N → mem a = None → mem b = None.

(** ** Lemmas *)

Lemma max_path_pos : 0 < MAX_PATH.
Proof. unfold MAX_PATH. lia. Qed.

Opaque MAX_PATH.

Lemma mapM_id_some (bytes : list byte) : mapM (M:=option) id (Some <$> bytes) = Some bytes.
Proof. apply mapM_Some_2, Forall2_fmap_l, Forall_Forall2_diag, Forall_true. done. Qed.

Lemma take_some_app (bytes : list byte) (rest : list (option byte)) :
  take (length bytes) ((Some <$> bytes) ++ rest) = Some <$> bytes.
Proof. rewrite <-(length_fmap Some bytes). apply take_app_length. Qed.

Lemma cells_hold_length bytes cs : cells_hold bytes cs → length bytes <= length cs.
Proof. intros [rest ->]. rewrite length_app, length_fmap. lia. Qed.

Lemma cells_hold_take bytes n cs : cells_hold bytes cs → cells_hold (take n bytes) cs.
Proof.
  intros [rest ->]. exists ((Some <$> drop n bytes) ++ rest).
  by rewrite app_assoc, <-fmap_app, take_drop.
Qed.

Lemma write_cells_spec {E} pre bytes cs :
  cells_hold pre cs → length pre + length bytes <= length cs →
  ∃ cs', write_cells (E:=E) cs (length pre) bytes = Ret cs' ∧
    cells_hold (pre ++ bytes) cs' ∧ length cs' = length cs.
Proof.
  intros [rest ->] Hlen. unfold write_cells. rewrite decide_True by done.
  eexists. split; [done|]. rewrite take_some_app. split.
  - eexists. by rewrite fmap_app, <-app_assoc.
  - rewrite !length_app, !length_fmap, length_drop, !length_app, length_fmap in *. lia.
Qed.

Section holds.
  Context (bytes : list byte) (b : PageBuffer) (Hb : buf_holds bytes b).

Lemma holds_fits : length bytes <= capacity b.
Proof. destruct Hb as (_ & _ & Hc). by apply cells_hold_length in Hc. Qed.

Lemma buf_deref_spec {E} : buf_deref (E:=E) b = Ret bytes.
Proof.
  pose proof holds_fits. destruct Hb as (_ & Hl & [rest Hc]). unfold buf_deref.
  rewrite decide_True by lia. by rewrite Hc, Hl, take_some_app, mapM_id_some.
Qed.

Lemma buf_truncate_spec n : buf_holds (take n bytes) (buf_truncate n b).
Proof.
  pose proof holds_fits as Hfit. destruct Hb as (Hcap & Hl & Hc). unfold buf_truncate. case_decide as Hn.
  - rewrite take_ge by lia. by split_and!.
  - destruct Hcap as (k & Hk & Hcap). unfold capacity in *. split_and!; simpl.
    + exists k. split; [done|]. unfold capacity. simpl. rewrite length_app, length_take, length_replicate. lia.
    + rewrite length_take. lia.
    + apply (cells_hold_take _ n) in Hc as [rest Hc]. exists (replicate (length (cells b) - n) None).
      f_equal. rewrite Hc. assert (length (take n bytes) = n) as Hlt by (rewrite length_take; lia).
      rewrite <-Hlt at 1. apply take_some_app.
Qed.

Lemma buf_clear_spec : buf_holds [] (buf_clear b).
Proof. apply (buf_truncate_spec 0). Qed.

Lemma ensure_capacity_spec n : buf_holds bytes (ensure_capacity n b) ∧ n <= capacity (ensure_capacity n b).
Proof.
  pose proof holds_fits as Hfit. pose proof max_path_pos as Hpos.
  destruct Hb as (Hcap & Hl & [rest Hc]). unfold ensure_capacity. case_decide as Hn.
  { split; [|done]. split_and!; [done..|by exists rest]. }
  set (count := (n + MAX_PATH - 1) `div` MAX_PATH).
  assert (Hcount : n <= count * MAX_PATH).
  { pose proof (Nat.div_mod_eq (n + MAX_PATH - 1) MAX_PATH) as Hdm. fold count in Hdm.
    pose proof (Nat.mod_upper_bound (n + MAX_PATH - 1) MAX_PATH ltac:(lia)). lia. }
  assert (Hlen : length (take (buf_len b) (cells b) ++ drop (buf_len b) (allocate_pages count)) = count * MAX_PATH).
  { unfold allocate_pages. rewrite length_app, length_take, length_drop, length_replicate.
    unfold capacity in *. lia. }
  split; [split_and!|]; unfold capacity; simpl.
  - exists count. split; [|done]. destruct count; lia.
  - done.
  - eexists. f_equal. rewrite Hc, Hl. apply take_some_app.
  - lia.
Qed.

End holds.

Lemma buf_new_holds : buf_holds [] buf_new.
Proof.
  split_and!; [|done|by eexists]. exists 1. split; [lia|].
  unfold capacity. simpl. unfold allocate_pages. by rewrite length_replicate.
Qed.

Lemma buf_write_spec {E} old bytes b :
  buf_holds old b → length bytes <= capacity b →
  ∃ cs, write_cells (E:=E) (cells b) 0 bytes = Ret cs ∧ buf_holds bytes {| cells := cs; buf_len := length bytes |}.
Proof.
  intros (Hcap & _ & Hc) Hle. destruct (write_cells_spec (E:=E) [] bytes (cells b)) as (cs & Hw & Hh & Hl).
  - by eexists.
  - done.
  - exists cs. split; [done|]. split_and!; [|done|done]. unfold capacity in *. simpl. by rewrite Hl.
Qed.

Lemma before_nul_find bytes :
  before_nul bytes = match list_find (λ c, c = nul) bytes with Some (i, _) => take i bytes | None => bytes end.
Proof.
  induction bytes as [|c bytes IH]; [done|]. simpl. case_decide; [done|]. rewrite IH.
  by destruct (list_find _ bytes) as [[i x]|].
Qed.

(** *** Copies from a process *)

Section copies.
  Context {K : Type} `{ProcessMemory K} (mem : memory) (pid : Z) (address : N).
  Context (Hlaw : vm_law mem pid).

(** The range of [len] bytes from [address + offset] leaves the address space
    or is not wholly mapped. *)
Definition bad_range (offset len : nat) : Prop :=
  (usize_MAX < address + N.of_nat (offset + len))%N ∨ unmapped_in mem (address + N.of_nat offset) len.

Lemma read_once_spec offset len (k : K) (P : list byte → K → Prop) (Q : ProcessCopyError → K → Prop) :
  0 < len →
  (∀ bytes k', (address + N.of_nat (offset + len) <= usize_MAX)%N → length bytes <= len → 0 < length bytes →
     mem_matches mem (address + N.of_nat offset) bytes → P bytes k') →
  (∀ e k', e ≠ Errno ENAMETOOLONG → bad_range offset len → Q e k') →
  ewp (read_process_memory_once pid address offset len) k P Q.
Proof.
  intros Hlen HP HQ. unfold read_process_memory_once, remote_address.
  case_decide as Hoff; [|apply ewp_throw, HQ; [done|left; lia]].
  case_decide as Hend; [apply ewp_throw, HQ; [done|left; lia]|].
  unfold ewp. pose proof (Hlaw (address + N.of_nat offset)%N len k) as Hcall.
  destruct (process_vm_readv pid _ len k) as [[[read errno] bytes] k'].
  destruct Hcall as [(Hread & Hle & Hm & Hnil)|[Hneg Hun]].
  - rewrite decide_False by lia. case_decide as Hz.
    + apply wp_throw, HQ; [done|right]. apply Hnil; [lia|]. apply nil_length_inv. lia.
    + apply wp_ret, HP; [lia|done| |done]. destruct bytes; [|simpl; lia]. exfalso. apply Hz. simpl in *. lia.
  - rewrite decide_True by done. case_decide; apply wp_throw, HQ; try done; by right.
Qed.

(** [pre] has been copied into the buffer. *)
Definition copied_ok (pre : list byte) (cap : nat) (b : PageBuffer) : Prop :=
  capacity b = cap ∧ cells_hold pre (cells b) ∧ mem_matches mem address pre.

Lemma mem_matches_app a pre bytes :
  mem_matches mem a pre → mem_matches mem (a + N.of_nat (length pre)) bytes → mem_matches mem a (pre ++ bytes).
Proof.
  intros Hpre Hb i c [Hi|[Hge Hi]]%lookup_app_Some; [by apply Hpre|].
  apply Hb in Hi. rewrite <-Hi. f_equal. lia.
Qed.

Lemma mem_matches_prefix bytes bytes' a :
  bytes `prefix_of` bytes' → mem_matches mem a bytes' → mem_matches mem a bytes.
Proof. intros Hp Hm i c Hi. by eapply Hm, prefix_lookup_Some. Qed.

Lemma read_into_spec pre cap len (b : PageBuffer) (k : K) P Q :
  copied_ok pre cap b → 0 < len → length pre + len <= cap →
  (∀ bytes b' k', (address + N.of_nat (length pre + len) <= usize_MAX)%N →
     length bytes <= len → 0 < length bytes → buf_len b' = buf_len b →
     copied_ok (pre ++ bytes) cap b' → P bytes (b', k')) →
  (∀ e k', e ≠ Errno ENAMETOOLONG → bad_range (length pre) len → Q e (b, k')) →
  ewp (read_into pid address (length pre) len) (b, k) P Q.
Proof.
  intros (Hcap & Hcells & Hm) Hlen Hfit HP HQ. unfold read_into.
  apply ewp_bind, ewp_zoom, read_once_spec; [done| |intros e k'; apply HQ].
  intros bytes k' Hspace Hle Hpos Hbm. simpl. apply ewp_bind. unfold ewp, write_self. simpl.
  destruct (write_cells_spec (E:=ProcessCopyError) pre bytes (cells b)) as (cs & Hw & Hh & Hl);
    [done|unfold capacity in *; lia|].
  rewrite Hw. apply wp_ret, HP; [done..|]. split_and!; [unfold capacity in *; simpl; lia|done|].
  by apply mem_matches_app.
Qed.

(** [len] bytes from [address] are in the address space, if there are any. *)
Definition in_space (len : nat) : Prop := len = 0 ∨ (address + N.of_nat len <= usize_MAX)%N.

Lemma read_process_memory_spec fuel len pre cap (b : PageBuffer) (k : K) P Q :
  copied_ok pre cap b → length pre <= len → len <= cap → len - length pre < fuel →
  in_space len ∨ pre = [] →
  (∀ bytes b' k', length bytes = len → in_space len → copied_ok bytes cap b' → P len (b', k')) →
  (∀ e b' k', e ≠ Errno ENAMETOOLONG → capacity b' = cap → bad_range 0 len → Q e (b', k')) →
  ewp (read_process_memory pid address fuel len (length pre)) (b, k) P Q.
Proof.
  intros Hok Hpre Hcap Hfuel Hsp HP HQ. revert pre b k Hok Hpre Hfuel Hsp.
  induction fuel as [|fuel IH]; intros pre b k Hok Hpre Hfuel Hsp; [lia|]. simpl.
  case_decide as Hlt; [|apply ewp_ret].
  - apply ewp_bind. eapply read_into_spec; [done|lia|lia| |].
    + intros bytes b' k' Hspace Hle Hpos _ Hok'. rewrite <-length_app.
      apply IH; [done|rewrite length_app; lia..|]. left. right. lia.
    + intros e k' He [Hover|(i & Hi & Hun)]; apply HQ; try done; try apply Hok; [left; lia|right].
      exists (length pre + i). split; [lia|]. rewrite <-Hun. f_equal. lia.
  - assert (length pre = len) as <- by lia. apply (HP pre); [done| |done].
    destruct Hsp as [Hsp | ->]; [done|by left].
Qed.

(** The outcome of a copy of [len] bytes into a cleared buffer. *)
Definition copy_outcome (len : nat) (r : exec ProcessCopyError (list byte)) (b : PageBuffer) : Prop :=
  (∃ bytes, r = Ret bytes ∧ length bytes = len ∧ in_space len ∧ mem_matches mem address bytes ∧ buf_holds bytes b) ∨
  (∃ e, r = Throw e ∧ bad_range 0 len ∧ buf_holds [] b).

Lemma write_copy_spec len (b : PageBuffer) (k : K) :
  buf_holds [] b → len <= capacity b →
  let '(r, (b', k')) :=
    (result ← ('(n, a) ← copy_process_memory pid address len; _ ← set_len n; mret a);
     _ ← eff_lift result; deref_self) (b, k) in
  copy_outcome len r b'.
Proof.
  intros (Hcap & Hl & Hcells) Hfit.
  assert (Hrun : ewp (read_process_memory pid address (S len) len 0) (b, k)
    (λ n s, ∃ bytes, n = len ∧ length bytes = len ∧ in_space len ∧ copied_ok bytes (capacity b) s.1)
    (λ e s, capacity s.1 = capacity b ∧ bad_range 0 len)).
  { apply (read_process_memory_spec (S len) len [] (capacity b)); simpl; try lia.
    - split_and!; [done|done|]. intros i c Hic. by rewrite lookup_nil in Hic.
    - by right.
    - intros bytes b' k' ? ? ?. by exists bytes.
    - by intros e b' k' _ ? ?. }
  unfold mbind, eff_bind, copy_process_memory. unfold ewp in Hrun.
  destruct (read_process_memory pid address (S len) len 0 (b, k)) as [[n|e| |] [b' k']]; [| |done..].
  - destruct Hrun as (bytes & -> & Hlen & Hsp & Hc & Hh & Hm). simpl in *.
    assert (Hholds : buf_holds bytes {| cells := cells b'; buf_len := length bytes |}).
    { split_and!; [|done|done]. destruct Hcap as (n & Hn & Hcap). exists n. split; [done|].
      unfold capacity in *. simpl. congruence. }
    unfold deref_self. simpl. rewrite <-Hlen. rewrite (buf_deref_spec bytes) by done.
    left. exists bytes. split_and!; [done|done|by rewrite Hlen|done|done].
  - destruct Hrun as [Hc Hbad]. simpl in *. right. exists e. split_and!; [done|done|].
    split_and!; simpl; [|done|by eexists]. destruct Hcap as (n & Hn & Hcap). exists n. split; [done|].
    unfold capacity in *. simpl. congruence.
Qed.

Lemma copy_bytes_spec old len (b : PageBuffer) (k : K) :
  buf_holds old b →
  let '(r, (b', _)) := copy_from_process_bytes pid address len (b, k) in copy_outcome len r b'.
Proof.
  intros Hb. pose proof (buf_clear_spec _ _ Hb) as Hclear.
  destruct (ensure_capacity_spec _ _ Hclear len) as [Hens Hcap].
  by apply (write_copy_spec len (ensure_capacity len (buf_clear b)) k).
Qed.

(** A C string of the process: no NUL before its end. *)
Definition c_string (s : list byte) : Prop := (nul ∉ s) ∧ mem_matches mem address s.

(** Why a C string could not be read on after [s]. *)
Definition stopped_after (s : list byte) (e : ProcessCopyError) : Prop :=
  c_string s ∧
  if decide (e = Errno ENAMETOOLONG) then length s = MAX_PATH
  else length s < MAX_PATH ∧
    ((usize_MAX < address + N.of_nat MAX_PATH)%N ∨
     ∃ a, mem a = None ∧
       (a `div` N.of_nat MAX_PATH = (address + N.of_nat (length s)) `div` N.of_nat MAX_PATH)%N).

Lemma find_nul_none bytes : list_find (λ c, c = nul) bytes = None → nul ∉ bytes.
Proof. intros Hn%list_find_None Hin. rewrite Forall_forall in Hn. by apply (Hn nul). Qed.

Lemma find_nul_some bytes i c : list_find (λ c, c = nul) bytes = Some (i, c) →
  (nul ∉ take i bytes) ∧ bytes !! i = Some nul.
Proof.
  intros (Hi & -> & Hall)%list_find_Some. split; [|done].
  intros (j & Hj)%list_elem_of_lookup. apply lookup_take_Some in Hj as [Hj Hlt]. by eapply Hall.
Qed.

Lemma same_page (a : N) i : i < MAX_PATH - N.to_nat (a `mod` N.of_nat MAX_PATH) →
  ((a + N.of_nat i) `div` N.of_nat MAX_PATH = a `div` N.of_nat MAX_PATH)%N.
Proof.
  pose proof max_path_pos as Hpos. intros Hi.
  pose proof (N.mod_lt a (N.of_nat MAX_PATH) ltac:(lia)) as Hm.
  rewrite (N.div_mod' a (N.of_nat MAX_PATH)) at 1. symmetry.
  apply (N.div_unique _ _ _ (a `mod` N.of_nat MAX_PATH + N.of_nat i)); lia.
Qed.

Lemma read_c_path_spec fuel pre cap (b : PageBuffer) (k : K) P Q :
  copied_ok pre cap b → nul ∉ pre → length pre <= MAX_PATH → MAX_PATH <= cap →
  MAX_PATH - length pre < fuel →
  (∀ s b' k', nul ∉ s → length s < MAX_PATH → mem_matches mem address (s ++ [nul]) →
     cells_hold s (cells b') → capacity b' = cap → P (length s) (b', k')) →
  (∀ s e b' k', stopped_after s e → capacity b' = cap → buf_len b' = buf_len b → Q e (b', k')) →
  ewp (read_process_c_path pid address fuel (length pre)) (b, k) P Q.
Proof.
  pose proof max_path_pos as Hpos. intros Hok Hnul Hpre Hcap Hfuel HP HQ.
  remember (buf_len b) as l0 eqn:Hl0. symmetry in Hl0. revert pre b k Hl0 Hok Hnul Hpre Hfuel.
  induction fuel as [|fuel IH]; intros pre b k Hl0 Hok Hnul Hpre Hfuel; [lia|]. simpl.
  assert (Hstr : c_string pre) by (split; [done|apply Hok]).
  case_decide as Hlt.
  2:{ apply ewp_throw, (HQ pre); [|apply Hok|done]. split; [done|]. rewrite decide_True by done. lia. }
  unfold remote_address. case_decide as Hadd.
  2:{ apply ewp_throw, (HQ pre); [|apply Hok|done]. split; [done|]. rewrite decide_False by done. split; [done|]. left. lia. }
  set (a := (address + N.of_nat (length pre))%N) in *.
  pose proof (N.mod_lt a (N.of_nat MAX_PATH) ltac:(lia)) as Hmod.
  set (len := (MAX_PATH - N.to_nat (a `mod` N.of_nat MAX_PATH)) `min` (MAX_PATH - length pre)).
  apply ewp_bind. eapply read_into_spec; [done|unfold len; lia|unfold len; lia| |].
  - intros bytes b' k' _ Hle Hbpos Hl (Hc' & Hh' & Hm'). destruct (list_find _ bytes) as [[i c]|] eqn:Hf.
    + apply find_nul_some in Hf as [Hni Hi]. pose proof (lookup_lt_Some _ _ _ Hi) as Hilt.
      apply ewp_ret. assert (Hlen : length (pre ++ take i bytes) = length pre + i)
        by (rewrite length_app, length_take; lia).
      rewrite <-Hlen. apply HP; [| | | |done].
      * rewrite not_elem_of_app. done.
      * rewrite Hlen. unfold len in Hle. lia.
      * apply (mem_matches_prefix _ (pre ++ bytes)); [|done]. rewrite <-app_assoc. apply prefix_app.
        exists (drop (S i) bytes). rewrite <-app_assoc. symmetry. by apply take_drop_middle.
      * rewrite <-(take_drop i bytes) in Hh'. rewrite app_assoc in Hh'.
        apply (cells_hold_take _ (length (pre ++ take i bytes))) in Hh'. by rewrite take_app_length in Hh'.
    + apply find_nul_none in Hf. rewrite <-length_app. apply IH.
      * by rewrite Hl.
      * done.
      * by rewrite not_elem_of_app.
      * rewrite length_app. unfold len in Hle. lia.
      * rewrite length_app. lia.
  - intros e k' He Hbad. apply (HQ pre); [|apply Hok|done]. split; [done|]. rewrite decide_False by done.
    split; [done|]. destruct Hbad as [Hover|(i & Hi & Hun)]; [left; unfold len in Hover; lia|right].
    exists (a + N.of_nat i)%N. split; [done|]. apply same_page. eapply Nat.lt_le_trans; [exact Hi|apply Nat.le_min_l].
Qed.

Lemma copy_c_path_spec old (b : PageBuffer) (k : K) :
  buf_holds old b →
  let '(r, (b', k')) := copy_from_process_c_path pid address (b, k) in
  (∃ s, r = Ret s ∧ (nul ∉ s) ∧ length s < MAX_PATH ∧ mem_matches mem address (s ++ [nul]) ∧ buf_holds s b') ∨
  (∃ s e, r = Throw e ∧ stopped_after s e ∧ buf_holds [] b').
Proof.
  intros Hb. pose proof (buf_clear_spec _ _ Hb) as (Hcap & Hl & Hcells).
  assert (Hrun : ewp (read_process_c_path pid address (S MAX_PATH) 0) (buf_clear b, k)
    (λ n s, ∃ str, n = length str ∧ (nul ∉ str) ∧ length str < MAX_PATH ∧
       mem_matches mem address (str ++ [nul]) ∧ cells_hold str (cells s.1) ∧ capacity s.1 = capacity (buf_clear b))
    (λ e s, ∃ str, stopped_after str e ∧ capacity s.1 = capacity (buf_clear b) ∧ buf_len s.1 = 0)).
  { apply (read_c_path_spec (S MAX_PATH) [] (capacity (buf_clear b))); simpl; try lia.
    - split_and!; [done|done|]. intros i c Hic. by rewrite lookup_nil in Hic.
    - apply not_elem_of_nil.
    - destruct Hcap as (n & Hn & ->). nia.
    - intros s b' k' ? ? ? ? ?. by exists s.
    - intros s e b' k' ? ? ?. exists s. split_and!; [done..|]. simpl in Hl. congruence. }
  unfold copy_from_process_c_path. generalize dependent (S MAX_PATH). intros fuel Hrun.
  unfold mbind, eff_bind, update_buffer, ewp in *. simpl.
  destruct (read_process_c_path pid address fuel 0 (buf_clear b, k)) as [[n|e| |] [b' k']]; [| |done..].
  - destruct Hrun as (s & -> & Hnul & Hlt & Hm & Hh & Hc). simpl in *.
    assert (Hholds : buf_holds s {| cells := cells b'; buf_len := length s |}).
    { split_and!; [|done|done]. destruct Hcap as (n & Hn & Hcap). exists n. split; [done|].
      unfold capacity in *. simpl. congruence. }
    unfold set_len, update_buffer, deref_self. simpl. rewrite (buf_deref_spec s) by done. left. by exists s.
  - destruct Hrun as (s & Hst & Hc & Hl0). simpl in *. right. exists s, e. split_and!; [done|done|].
    split_and!; [|done|by eexists]. destruct Hcap as (n & Hn & Hcap). exists n. split; [done|]. congruence.
Qed.

(** A C string is no longer than one that ends. *)
Lemma c_string_le s s' : c_string s → (nul ∉ s') → mem_matches mem address (s' ++ [nul]) → length s <= length s'.
Proof.
  intros [Hs Hm] _ Hm'. destruct (decide (length s <= length s')) as [|Hgt]; [done|].
  destruct (lookup_lt_is_Some_2 s (length s')) as [c Hc]; [lia|].
  assert ((s' ++ [nul]) !! length s' = Some nul) as Hn by (by apply list_lookup_middle).
  apply Hm' in Hn. pose proof (Hm _ _ Hc) as Hc'. rewrite Hn in Hc'. simplify_eq.
  by apply list_elem_of_lookup_2 in Hc.
Qed.

End copies.

(** A process with memory [mem], whose kernel copies at most [chunk] bytes a
    call. *)
Fixpoint mapped_bytes (mem : memory) (a : N) (len : nat) : list byte :=
  match len with
  | 0 => []
  | S len => match mem a with Some c => c :: mapped_bytes mem (N.succ a) len | None => [] end
  end.

Definition process_reader (mem : memory) (chunk : nat) : ProcessMemory () := {|
  process_vm_readv _ remote len k :=
    let bytes := mapped_bytes mem remote (len `min` chunk) in
    if decide (bytes = [] ∧ len ≠ 0) then (((-1)%Z, EFAULT, []), k) else ((Z.of_nat (length bytes), 0%Z, bytes), k);
|}.

Lemma mapped_bytes_spec mem a len :
  length (mapped_bytes mem a len) <= len ∧ mem_matches mem a (mapped_bytes mem a len) ∧
  (len ≠ 0 → mapped_bytes mem a len = [] → mem a = None).
Proof.
  revert a. induction len as [|len IH]; intros a; simpl.
  { split_and!; [lia|intros i c Hi; by rewrite lookup_nil in Hi|done]. }
  destruct (mem a) as [c|] eqn:Ha; [|split_and!; [simpl; lia|intros i c Hi; by rewrite lookup_nil in Hi|done]].
  destruct (IH (N.succ a)) as (Hl & Hm & _). split_and!; [simpl; lia| |done].
  intros [|i] x Hi; simpl in Hi; [simplify_eq; by rewrite N.add_0_r|].
  apply Hm in Hi. rewrite <-Hi. f_equal. lia.
Qed.

Lemma process_reader_law mem chunk pid : 0 < chunk → vm_law (H:=process_reader mem chunk) mem pid.
Proof.
  intros Hchunk remote len k. unfold process_vm_readv, process_reader.
  destruct (mapped_bytes_spec mem remote (len `min` chunk)) as (Hl & Hm & Hnil).
  assert (Hun : mapped_bytes mem remote (len `min` chunk) = [] → len ≠ 0 → unmapped_in mem remote len).
  { intros Hb Hlen. exists 0. split; [lia|]. rewrite N.add_0_r. apply Hnil; [lia|done]. }
  case_decide as Hd; [right; destruct Hd; split; [lia|auto]|left]. split_and!; [done|lia|done|].
  auto.
Qed.

(** *** What copying keeps *)

Section copies.
  Context {K : Type} `{ProcessMemory K} (p : Z) (I : K → Prop).
  Context (HI : ∀ remote len k, I k → I (process_vm_readv p remote len k).2).
  Abbreviation J := (λ s : PageBuffer * K, I s.2).

Lemma read_once_steady address offset len : steady I (read_process_memory_once p address offset len).
Proof.
  unfold read_process_memory_once. destruct (remote_address address offset); [|auto with steady].
  case_decide; [auto with steady|]. intros k Hk. specialize (HI n len k Hk).
  by destruct (process_vm_readv p n len k) as [[[? ?] ?] k'].
Qed.

Lemma read_into_steady address offset len : steady J (read_into p address offset len).
Proof.
  apply steady_bind.
  - apply (steady_zoom _ _ _ _ I); [done|done|apply read_once_steady].
  - intros read. apply steady_bind; [|auto with steady]. intros s Hs. unfold write_self. by case_match.
Qed.

Lemma read_memory_steady address fuel len copied : steady J (read_process_memory p address fuel len copied).
Proof.
  revert copied. induction fuel as [|fuel IH]; intros copied; cbn [read_process_memory]; [auto with steady|].
  case_decide; auto using read_into_steady with steady.
Qed.

Lemma copy_bytes_steady address len : steady J (copy_from_process_bytes p address len).
Proof.
  assert (Hupdate : ∀ f, steady J (update_buffer (K:=K) f)) by (intros f s Hs; exact Hs).
  assert (Hcopy : steady J (copy_process_memory p address len)).
  { intros s Hs. pose proof (read_memory_steady address (S len) len 0 s Hs) as Hread.
    unfold copy_process_memory. by destruct (read_process_memory _ _ _ _ _ s) as [[] s']. }
  assert (Hderef : steady J (deref_self (K:=K))) by (intros s Hs; exact Hs).
  unfold copy_from_process_bytes, write_bytes_with, set_len.
  apply steady_bind; [|auto with steady]. do 2 (apply steady_bind; [done|]; intros _).
  apply steady_bind; [done|]. intros [n a]. auto with steady.
Qed.

End copies.

(** ** Properties *)

(** C28: [PageBuffer] implements a list of bytes: it starts empty with one page;
    reading it, cutting it, cutting it at a NUL and replacing its contents do
    what they say without reading an unwritten cell or leaving the allocation;
    general contents grow it, paths of more than [PATH_MAX] bytes are refused
    without touching it. *)
Theorem page_buffer_refines :
  buf_holds [] buf_new ∧
  ∀ bytes b, buf_holds bytes b →
    buf_deref (E:=()) b = Ret bytes ∧
    (∀ n, buf_holds (take n bytes) (buf_truncate n b)) ∧
    (∀ path, if decide (length path <= MAX_PATH)
             then ∃ b', set_path path b = Ret b' ∧ buf_holds path b'
             else set_path path b = Throw path_too_long) ∧
    (∀ bytes', ∃ b', set_bytes (E:=()) bytes' b = Ret b' ∧ buf_holds bytes' b') ∧
    ∃ b', truncate_at_nul (E:=()) b = Ret b' ∧ buf_holds (before_nul bytes) b'.
Proof.
  split; [apply buf_new_holds|]. intros bytes b Hb. pose proof (buf_clear_spec _ _ Hb) as Hclear.
  split_and!.
  - by apply buf_deref_spec.
  - by apply buf_truncate_spec.
  - intros path. unfold set_path. case_decide as Hle; [|by rewrite decide_True by lia].
    rewrite decide_False by lia.
    assert (Hfit : length path <= capacity (buf_clear b)).
    { destruct Hclear as ((n & Hn & ->) & _). nia. }
    destruct (buf_write_spec (E:=PathTooLong) _ path _ Hclear Hfit) as (cs & Hw & Hh).
    rewrite Hw. by eexists.
  - intros bytes'. unfold set_bytes.
    destruct (ensure_capacity_spec _ _ Hclear (length bytes')) as [Hens Hcap].
    destruct (buf_write_spec (E:=()) _ bytes' _ Hens Hcap) as (cs & Hw & Hh).
    rewrite Hw. by eexists.
  - unfold truncate_at_nul. rewrite (buf_deref_spec bytes) by done. simpl. rewrite before_nul_find.
    destruct (list_find _ bytes) as [[i x]|]; eexists; (split; [done|]); [by apply buf_truncate_spec|done].
Qed.

(** C27: [copy_from_process_bytes] and [copy_from_process_path_with_len] return
    exactly the [len] bytes at the address, however few the kernel copies per
    call, and the buffer holds them; they fail only if the range leaves the
    address space or is not wholly mapped, with an empty buffer.  Explicit
    paths of more than [PATH_MAX] bytes are refused with no effect. *)
Theorem copy_bytes_exact {K} `{ProcessMemory K} (mem : memory) pid address len old b (k : K) :
  vm_law mem pid → buf_holds old b →
  (let '(r, (b', _)) := copy_from_process_bytes pid address len (b, k) in copy_outcome mem address len r b') ∧
  (if decide (MAX_PATH < len)
   then copy_from_process_path_with_len pid address len (b, k) = (Throw (Errno ENAMETOOLONG), (b, k))
   else let '(r, (b', _)) := copy_from_process_path_with_len pid address len (b, k) in
        copy_outcome mem address len r b').
Proof.
  intros Hlaw Hb. pose proof (buf_clear_spec _ _ Hb) as Hclear. split.
  - by eapply copy_bytes_spec.
  - unfold copy_from_process_path_with_len. case_decide; [done|].
    apply (write_copy_spec mem pid address Hlaw len (buf_clear b) k); [done|].
    destruct Hclear as ((n & Hn & ->) & _). nia.
Qed.

(** C19: [copy_from_process_c_path], on memory mapped by pages, finds exactly
    the C string at the address: it returns the bytes before the first NUL when
    that is among the first [PATH_MAX] bytes, even when the next page is not
    mapped; it fails only if there is no such string, with [ENAMETOOLONG]
    exactly when [PATH_MAX] mapped bytes hold no NUL, and then the buffer is
    empty. *)
Theorem copy_c_path_exact {K} `{ProcessMemory K} (mem : memory) pid address old b (k : K) :
  vm_law mem pid → paged mem → (address + N.of_nat MAX_PATH <= usize_MAX)%N → buf_holds old b →
  let '(r, (b', _)) := copy_from_process_c_path pid address (b, k) in
  match r with
  | Ret s => (nul ∉ s) ∧ length s < MAX_PATH ∧ mem_matches mem address (s ++ [nul]) ∧ buf_holds s b'
  | Throw e =>
      (∀ s, (nul ∉ s) → length s < MAX_PATH → ¬ mem_matches mem address (s ++ [nul])) ∧
      (e = Errno ENAMETOOLONG ↔ ∃ s, length s = MAX_PATH ∧ c_string mem address s) ∧ buf_holds [] b'
  | _ => False
  end.
Proof.
  intros Hlaw Hpaged Haddr Hb. pose proof (copy_c_path_spec mem pid address Hlaw old b k Hb) as Hspec.
  destruct (copy_from_process_c_path pid address (b, k)) as [r [b' k']].
  destruct Hspec as [(s & -> & ?)|(s & e & -> & [Hs Hstop] & Hb')]; [done|].
  case_decide as He.
  - split_and!; [|split; [by exists s|done]|done]. intros s' Hn' Hl' Hm'.
    pose proof (c_string_le _ _ _ _ Hs Hn' Hm'). lia.
  - destruct Hstop as [Hl [Hover|(a & Ha & Hpage)]]; [lia|].
    apply (Hpaged _ _ Hpage) in Ha. split_and!; [| |done].
    + intros s' Hn' Hl' Hm'. pose proof (c_string_le _ _ _ _ Hs Hn' Hm') as Hle.
      destruct (lookup_lt_is_Some_2 (s' ++ [nul]) (length s)) as [c Hc]; [rewrite length_app; simpl; lia|].
      apply Hm' in Hc. congruence.
    + split; [done|]. intros (s' & Hl' & [_ Hm']).
      destruct (lookup_lt_is_Some_2 s' (length s)) as [c Hc]; [lia|]. apply Hm' in Hc. congruence.
Qed.

(** One mapped page, with a path that ends at its last byte. *)
Definition sample_memory : memory := λ a,
  if decide (a `div` N.of_nat MAX_PATH = 1)%N then
    Some (if decide (a = 8191)%N then nul else Byte.x61)
  else None.

Lemma copy_bytes_exact_witness :
  vm_law (H:=process_reader sample_memory 3) sample_memory 7 ∧ buf_holds [] buf_new ∧
  let '(r, (b', _)) := copy_from_process_bytes (H:=process_reader sample_memory 3) 7 8180 12 (buf_new, ()) in
  copy_outcome sample_memory 8180 12 r b'.
Proof.
  pose proof (process_reader_law sample_memory 3 7 ltac:(lia)) as Hlaw.
  split_and!; [done|apply buf_new_holds|].
  apply (copy_bytes_exact (H:=process_reader sample_memory 3) sample_memory 7 8180 12 [] buf_new ());
    [done|apply buf_new_holds].
Defined.

Lemma sample_memory_paged : paged sample_memory.
Proof. intros a b Hab. unfold sample_memory. rewrite Hab. case_decide; done. Qed.

Lemma copy_c_path_exact_witness :
  let '(r, (b', _)) := copy_from_process_c_path (H:=process_reader sample_memory 3) 7 8180 (buf_new, ()) in
  match r with
  | Ret s => (nul ∉ s) ∧ length s < MAX_PATH ∧ mem_matches sample_memory 8180 (s ++ [nul]) ∧ buf_holds s b'
  | Throw e =>
      (∀ s, (nul ∉ s) → length s < MAX_PATH → ¬ mem_matches sample_memory 8180 (s ++ [nul])) ∧
      (e = Errno ENAMETOOLONG ↔ ∃ s, length s = MAX_PATH ∧ c_string sample_memory 8180 s) ∧ buf_holds [] b'
  | _ => False
  end.
Proof.
  apply (copy_c_path_exact (H:=process_reader sample_memory 3) sample_memory 7 8180 [] buf_new ()).
  - apply process_reader_law. lia.
  - apply sample_memory_paged.
  - vm_compute. discriminate.
  - apply buf_new_holds.
Defined.
