(* ===== verification/Ptrace.v ===== *)
(** * Process creation under ptrace ([src/src/runner/ptrace.rs], [error.rs])

    The ptrace and wait requests that follow a tracee through a
    process-creation system call.  The kernel is a parameter; a wait that never
    returns is a [NoFuel] that no amount of fuel avoids. *)

From S2P Require Import Prelude Effects.

(** ** Wait statuses *)

Definition SIGTRAP : Z := 5.
Definition PTRACE_EVENT_FORK : Z := 1.
Definition PTRACE_EVENT_VFORK : Z := 2.
Definition PTRACE_EVENT_CLONE : Z := 3.
Definition PTRACE_EVENT_SECCOMP : Z := 7.
Definition WNOHANG : Z := 1.
Definition WEXITED : Z := 4.
Definition WALL : Z := 1073741824.

Definition WIFSTOPPED (status : Z) : bool := bool_decide (Z.land status 255 = 127%Z).
Definition WSTOPSIG (status : Z) : Z := Z.land (Z.shiftr status 8) 255.

(** [status >> 16]. *)
Definition stop_event (status : Z) : Z := Z.shiftr status 16.

(** ** Registers, requests, replies *)

(** The registers that the code reads or writes, and the others. *)
Record user_regs := {
  orig_rax : N; rax : N; rdi : N; rsi : N; rdx : N; r10 : N; r8 : N; r9 : N;
  other_regs : list N;
}.

Definition set_orig_rax (x : N) (r : user_regs) : user_regs :=
  {| orig_rax := x; rax := rax r; rdi := rdi r; rsi := rsi r; rdx := rdx r; r10 := r10 r;
     r8 := r8 r; r9 := r9 r; other_regs := other_regs r |}.
Definition set_rax (x : N) (r : user_regs) : user_regs :=
  {| orig_rax := orig_rax r; rax := x; rdi := rdi r; rsi := rsi r; rdx := rdx r; r10 := r10 r;
     r8 := r8 r; r9 := r9 r; other_regs := other_regs r |}.

Inductive ptrace_request :=
| PTRACE_SEIZE (options : Z)
| PTRACE_CONT (signal : Z)
| PTRACE_SYSCALL (signal : Z)
| PTRACE_GETREGS
| PTRACE_SETREGS (regs : user_regs)
| PTRACE_GETEVENTMSG.

(** The result, [errno], and what the kernel wrote for the two reading
    requests. *)
Record ptrace_reply := { pt_result : Z; pt_errno : Z; pt_regs : user_regs; pt_msg : N }.

(** The result, [errno] and the status; for [waitid], the status is [si_pid]. *)
Record wait_reply := { wt_result : Z; wt_errno : Z; wt_status : Z }.

(** [sys_waitpid] is [None] when the call blocks forever. *)
Class Ptrace (K : Type) := {
  sys_ptrace : ptrace_request → Z → K → ptrace_reply * K;
  sys_waitpid : Z → Z → K → option (wait_reply * K);
  sys_waitid : Z → K → wait_reply * K;
}.

(** ** Errors ([error.rs]) *)

Inductive RunnerFault :=
| ProcessAlreadyTracked (pid : Z)
| ProcessNotTracked (pid : Z)
| UnexpectedSyscall (syscall : Z)
| UnexpectedWaitStatus (pid status : Z)
| ChildPidOutOfRange (pid : N)
| ForkResultMismatch (result : Z) (event_child : option Z).

Inductive RunnerError := Fault (fault : RunnerFault) | RunnerIo (error : IoError).

(** ** The stops and results *)

Record ProcessCreationStop := { pcs_parent : Z; pcs_syscall : Z; pcs_args : list N }.

Record ForkStop := { fs_parent : Z; fs_child : Z }.

Inductive ProcessCreationResult := Created (stop : ForkStop) | Failed (error : Z).

(** [TRACESECCOMP | TRACESYSGOOD | TRACEFORK | TRACEVFORK | TRACECLONE | EXITKILL]. *)
Definition TRACE_OPTIONS : Z :=
  Z.lor 128 (Z.lor 1 (Z.lor 2 (Z.lor 4 (Z.lor 8 1048576)))).

(** ** Operations *)

Section ptrace.
  Context {K : Type} `{Ptrace K}.

Abbreviation Io := (eff K Z).
Abbreviation Run := (eff K RunnerError).

(** [?] on an [io::Result]. *)
Definition io {A} (m : Io A) : Run A := eff_map_err (λ e, RunnerIo (OsError e)) m.

Definition ptrace (request : ptrace_request) (pid : Z) : Io ptrace_reply := λ k,
  let '(r, k) := sys_ptrace request pid k in
  (if decide (pt_result r < 0)%Z then Throw (pt_errno r) else Ret r, k).

Definition seize (pid : Z) : Io () := _ ← ptrace (PTRACE_SEIZE TRACE_OPTIONS) pid; mret ().
Definition resume (pid signal : Z) : Io () := _ ← ptrace (PTRACE_CONT signal) pid; mret ().
Definition syscall (pid signal : Z) : Io () := _ ← ptrace (PTRACE_SYSCALL signal) pid; mret ().
Definition get_regs (pid : Z) : Io user_regs := r ← ptrace PTRACE_GETREGS pid; mret (pt_regs r).
Definition set_regs (pid : Z) (regs : user_regs) : Io () := _ ← ptrace (PTRACE_SETREGS regs) pid; mret ().

Definition event_child (parent : Z) : Run Z :=
  r ← io (ptrace PTRACE_GETEVENTMSG parent);
  if decide (Z.of_N (pt_msg r) <= i32_MAX)%Z then mret (Z.of_N (pt_msg r))
  else eff_throw (Fault (ChildPidOutOfRange (pt_msg r))).

Definition is_fork_event (event : Z) : bool :=
  bool_decide (event = PTRACE_EVENT_FORK ∨ event = PTRACE_EVENT_VFORK ∨ event = PTRACE_EVENT_CLONE).

(** [event == 0 && WSTOPSIG(status) == SIGTRAP | 0x80]. *)
Definition is_syscall_stop (status : Z) : bool :=
  bool_decide (stop_event status = 0%Z ∧ WSTOPSIG status = Z.lor SIGTRAP 128).

Definition signal_to_deliver (status : Z) : Z :=
  if decide (stop_event status = 0%Z) then WSTOPSIG status else 0%Z.

Definition ensure_stopped (pid status : Z) : Run () :=
  if WIFSTOPPED status then mret () else eff_throw (Fault (UnexpectedWaitStatus pid status)).

(** The fuel bounds the retries on [EINTR]. *)
Fixpoint waitpid (fuel : nat) (pid options : Z) : Io Z := λ k,
  match fuel with
  | 0 => (NoFuel, k)
  | S fuel =>
      match sys_waitpid pid (Z.lor options WALL) k with
      | None => (NoFuel, k)
      | Some (r, k) =>
          if decide (wt_result r = pid) then (Ret (wt_status r), k)
          else if decide (wt_result r < 0 ∧ wt_errno r = EINTR)%Z then waitpid fuel pid options k
          else (Throw (wt_errno r), k)
      end
  end.

Fixpoint try_waitpid (fuel : nat) (pid : Z) : Io (option Z) := λ k,
  match fuel with
  | 0 => (NoFuel, k)
  | S fuel =>
      match sys_waitpid pid (Z.lor WNOHANG WALL) k with
      | None => (NoFuel, k)
      | Some (r, k) =>
          if decide (wt_result r = pid) then (Ret (Some (wt_status r)), k)
          else if decide (wt_result r = 0)%Z then (Ret None, k)
          else if decide (wt_errno r = EINTR) then try_waitpid fuel pid k
          else (Throw (wt_errno r), k)
      end
  end.

Definition process_creation_stop (parent status : Z) : Run (option ProcessCreationStop) :=
  _ ← ensure_stopped parent status;
  if decide (stop_event status = PTRACE_EVENT_SECCOMP) then
    regs ← io (get_regs parent);
    mret (Some {| pcs_parent := parent; pcs_syscall := as_i64 (orig_rax regs);
                  pcs_args := [rdi regs; rsi regs; rdx regs; r10 regs; r8 regs; r9 regs] |})
  else
    _ ← io (resume parent (signal_to_deliver status));
    mret None.

Fixpoint wait_for_process_creation (fuel : nat) (parent : Z) : Run ProcessCreationStop :=
  match fuel with
  | 0 => eff_lift NoFuel
  | S fuel' =>
      status ← io (waitpid fuel parent 0);
      stop ← process_creation_stop parent status;
      match stop with
      | Some stop => mret stop
      | None => wait_for_process_creation fuel' parent
      end
  end.

Fixpoint try_wait_for_process_creation (fuel : nat) (parent : Z) : Run (option ProcessCreationStop) :=
  match fuel with
  | 0 => eff_lift NoFuel
  | S fuel' =>
      status ← io (try_waitpid fuel parent);
      match status with
      | None => mret None
      | Some status =>
          stop ← process_creation_stop parent status;
          match stop with
          | Some stop => mret (Some stop)
          | None => try_wait_for_process_creation fuel' parent
          end
      end
  end.

(** The end of [continue_to_fork]: the system call has returned. *)
Definition fork_result (parent : Z) (attached_child : option Z) : Run ProcessCreationResult :=
  regs ← io (get_regs parent);
  let result := as_i64 (rax regs) in
  let mismatch := eff_throw (Fault (ForkResultMismatch result attached_child)) in
  if decide (result < 0)%Z then
    match attached_child with
    | Some _ => mismatch
    | None =>
        _ ← io (resume parent 0);
        if decide (result = i64_MIN) then eff_panic else mret (Failed (as_i32 (- result)))
    end
  else
    let child := if decide (0 < result <= i32_MAX)%Z then Some result else None in
    if decide (child ≠ attached_child) then mismatch
    else match child with
         | Some child => mret (Created {| fs_parent := parent; fs_child := child |})
         | None => eff_panic
         end.

(** The loop of [continue_to_fork]. *)
Fixpoint fork_loop (fuel : nat) (parent : Z) (attached_child : option Z) : Run ProcessCreationResult :=
  match fuel with
  | 0 => eff_lift NoFuel
  | S fuel' =>
      status ← io (waitpid fuel parent 0);
      _ ← ensure_stopped parent status;
      if is_fork_event (stop_event status) then
        child ← event_child parent;
        child_status ← io (waitpid fuel child 0);
        _ ← ensure_stopped child child_status;
        _ ← io (syscall parent 0);
        fork_loop fuel' parent (Some child)
      else if is_syscall_stop status then fork_result parent attached_child
      else
        _ ← io (syscall parent (signal_to_deliver status));
        fork_loop fuel' parent attached_child
  end.

(** The borrow of the file space has no run-time effect. *)
Definition continue_to_fork (fuel : nat) (stop : ProcessCreationStop) : Run ProcessCreationResult :=
  _ ← io (syscall (pcs_parent stop) 0);
  fork_loop fuel (pcs_parent stop) None.

(** The loop of [reject_process_creation]. *)
Fixpoint reject_loop (fuel : nat) (parent error : Z) : Run () :=
  match fuel with
  | 0 => eff_lift NoFuel
  | S fuel' =>
      status ← io (waitpid fuel parent 0);
      _ ← ensure_stopped parent status;
      if is_syscall_stop status then
        regs ← io (get_regs parent);
        _ ← io (set_regs parent (set_rax (as_u64 (- error)) regs));
        io (resume parent 0)
      else
        _ ← io (syscall parent (signal_to_deliver status));
        reject_loop fuel' parent error
  end.

Definition reject_process_creation (fuel : nat) (stop : ProcessCreationStop) (error : Z) : Run () :=
  regs ← io (get_regs (pcs_parent stop));
  _ ← io (set_regs (pcs_parent stop) (set_orig_rax (as_u64 (-1)) regs));
  _ ← io (syscall (pcs_parent stop) 0);
  reject_loop fuel (pcs_parent stop) error.

(** Both are resumed; [child.and(parent)]. *)
Definition resume_fork (stop : ForkStop) : Io () :=
  child ← eff_try (resume (fs_child stop) 0);
  parent ← eff_try (resume (fs_parent stop) 0);
  match child, parent with
  | inl e, _ => eff_throw e
  | inr _, inl e => eff_throw e
  | inr _, inr _ => mret ()
  end.

(** The fuel bounds the retries on [EINTR]. *)
Fixpoint reap_exited (fuel : nat) : Io (option Z) := λ k,
  match fuel with
  | 0 => (NoFuel, k)
  | S fuel =>
      let '(r, k) := sys_waitid (Z.lor WEXITED WNOHANG) k in
      if decide (wt_result r = 0)%Z then
        (Ret (if decide (0 < wt_status r)%Z then Some (wt_status r) else None), k)
      else if decide (wt_errno r = EINTR) then reap_exited fuel k
      else if decide (wt_errno r = ECHILD) then (Ret None, k)
      else (Throw (wt_errno r), k)
  end.

End ptrace.

(** ** Specification: what the kernel sees

    A kernel together with the list of the calls it has answered, oldest
    first.  Running an operation on it shows which calls it makes. *)

Inductive call :=
| Traced (request : ptrace_request) (pid : Z) (r : ptrace_reply)
| Waited (pid : Z) (options : Z) (r : wait_reply)
| Reaped (options : Z) (r : wait_reply).

#[export] Instance logged {K} `{Ptrace K} : Ptrace (K * list call) := {|
  sys_ptrace request pid s :=
    let '(r, k) := sys_ptrace request pid s.1 in (r, (k, s.2 ++ [Traced request pid r]));
  sys_waitpid pid options s :=
    match sys_waitpid pid options s.1 with
    | Some (r, k) => Some (r, (k, s.2 ++ [Waited pid options r]))
    | None => None
    end;
  sys_waitid options s :=
    let '(r, k) := sys_waitid options s.1 in (r, (k, s.2 ++ [Reaped options r]));
|}.

(** Every call and the next one are related. *)
Definition adjacent {A} (R : A → A → Prop) (l : list A) : Prop :=
  ∀ i c d, l !! i = Some c → l !! S i = Some d → R c d.

(** [pid] stopped to receive a signal. *)
Definition signal_stop (pid : Z) (r : wait_reply) : Prop :=
  wt_result r = pid ∧ WIFSTOPPED (wt_status r) ∧ stop_event (wt_status r) = 0%Z ∧
  ¬ is_syscall_stop (wt_status r).

(** A signal that stops the process is passed on by the next call, and no
    other signal is delivered. *)
Definition passes_signals (pid : Z) (c d : call) : Prop :=
  (∀ o r, c = Waited pid o r → signal_stop pid r →
     ∃ r', d = Traced (PTRACE_SYSCALL (WSTOPSIG (wt_status r))) pid r') ∧
  (∀ s r', d = Traced (PTRACE_SYSCALL s) pid r' → s ≠ 0%Z →
     ∃ o r, c = Waited pid o r ∧ signal_stop pid r ∧ s = WSTOPSIG (wt_status r)).

(** The log of a process whose system call is followed: signals pass, and no
    other process is touched. *)
Definition follows (pid : Z) (l : list call) : Prop :=
  adjacent (passes_signals pid) l ∧ ∀ request p r, Traced request p r ∈ l → p = pid.

(** A fork event was reported, with [child], which has stopped; or none was. *)
Definition fork_seen (parent : Z) (attached : option Z) (l : list call) : Prop :=
  match attached with
  | None => ∀ r, Traced PTRACE_GETEVENTMSG parent r ∉ l
  | Some child =>
      (∃ r, Traced PTRACE_GETEVENTMSG parent r ∈ l ∧ Z.of_N (pt_msg r) = child) ∧
      ∃ o r, Waited child o r ∈ l ∧ wt_result r = child ∧ WIFSTOPPED (wt_status r)
  end.

(** The kernel made [child] for [parent]: it reported a fork event with it, it was
    seen to stop, and it is what the system call of [parent] returned. *)
Definition kernel_made (parent child : Z) (l : list call) : Prop :=
  (0 < child)%Z ∧ fork_seen parent (Some child) l ∧
  ∃ g, Traced PTRACE_GETREGS parent g ∈ l ∧ as_i64 (rax (pt_regs g)) = child.

(** [pid] runs on. *)
Definition resumes (pid : Z) (c : call) : Prop :=
  match c with
  | Traced (PTRACE_SYSCALL _) p _ | Traced (PTRACE_CONT _) p _ => p = pid
  | _ => False
  end.

(** The number of the system call that [pid] is in was replaced by -1; it was
    replaced before [pid] ran on. *)
Definition call_skipped (pid : Z) (l : list call) : Prop :=
  ∃ regs r, Traced (PTRACE_SETREGS (set_orig_rax (as_u64 (-1)) regs)) pid r ∈ l ∧ (0 <= pt_result r)%Z.
Definition skips_first (pid : Z) (l : list call) : Prop :=
  ∀ i c, l !! i = Some c → resumes pid c → call_skipped pid (take i l).

(** The log of a rejection: the call is skipped, and when it has returned, the
    process reads [-error] as its result and runs on. *)
Definition rejected (parent error : Z) (l : list call) : Prop :=
  ∃ g0 c0 s0 mid g c c' regs,
    l = [Traced PTRACE_GETREGS parent g0;
         Traced (PTRACE_SETREGS (set_orig_rax (as_u64 (-1)) (pt_regs g0))) parent c0;
         Traced (PTRACE_SYSCALL 0) parent s0] ++ mid ++
        [Traced PTRACE_GETREGS parent g;
         Traced (PTRACE_SETREGS regs) parent c;
         Traced (PTRACE_CONT 0) parent c'] ∧
    regs = set_rax (as_u64 (- error)) (pt_regs g) ∧ as_i64 (rax regs) = (- error)%Z ∧
    ∀ regs' r', Traced (PTRACE_SETREGS regs') parent r' ∉ mid.

(** A child that has ended, as [waitid] reported it. *)
Definition kernel_reaped (pid : Z) (l : list call) : Prop :=
  (0 < pid)%Z ∧ ∃ o r, last l = Some (Reaped o r) ∧ wt_result r = 0%Z ∧ wt_status r = pid.

(** ** Lemmas *)

Lemma as_i64_u64 x : (i32_MIN <= x <= i32_MAX)%Z → as_i64 (as_u64 (- x)) = (- x)%Z.
Proof.
  intros Hx. unfold as_i64, as_u64, i32_MIN, i32_MAX in *.
  rewrite N2Z.inj_mod, Z2N.id by (apply Z.mod_pos_bound; lia).
  change (Z.of_N 18446744073709551616) with 18446744073709551616%Z. rewrite Z.mod_mod by lia.
  destruct (decide (- x < 0)%Z).
  - rewrite <-(Z_mod_plus_full (- x) 1), Z.mod_small by lia. rewrite decide_False by lia. lia.
  - rewrite Z.mod_small by lia. rewrite decide_True by lia. done.
Qed.

Lemma adjacent_snoc {A} (R : A → A → Prop) l d :
  adjacent R l → (∀ c, last l = Some c → R c d) → adjacent R (l ++ [d]).
Proof.
  intros Hl Hd i c e Hc He. apply lookup_lt_Some in He as Hlt. rewrite length_app in Hlt. simpl in Hlt.
  rewrite lookup_app_l in Hc by lia. destruct (decide (S i = length l)) as [Hi|Hi].
  - rewrite lookup_app_r, Hi, Nat.sub_diag in He by lia. simplify_eq/=.
    apply Hd. rewrite last_lookup. by rewrite <-Hi.
  - rewrite lookup_app_l in He by lia. by eapply Hl.
Qed.

(** The last call, if any, is not a signal that waits to be passed on. *)
Definition settled (pid : Z) (l : list call) : Prop :=
  ∀ o r, last l = Some (Waited pid o r) → ¬ signal_stop pid r.

Section follows.
  Context (pid : Z).

Lemma follows_nil : follows pid [].
Proof. split; [by intros [|?] c d|set_solver]. Qed.

Lemma follows_call l d :
  follows pid l → settled pid l →
  (∀ s r, d = Traced (PTRACE_SYSCALL s) pid r → s = 0%Z) →
  (∀ request p r, d = Traced request p r → p = pid) → follows pid (l ++ [d]).
Proof.
  intros [Hadj Hown] Hset Hsig Hd. split.
  - apply adjacent_snoc; [done|]. intros c Hc. split.
    + intros o r -> Hr. by destruct (Hset o r Hc).
    + intros s r' -> Hs. by rewrite (Hsig s r') in Hs.
  - intros request p r [Hin|Hin%list_elem_of_singleton]%elem_of_app; [by eapply Hown|by eapply Hd].
Qed.

Lemma follows_wait l p o r : follows pid l → settled pid l → follows pid (l ++ [Waited p o r]).
Proof. intros Hl Hset. apply follows_call; [done|done|by intros|by intros]. Qed.

Lemma follows_pass l o r r' :
  follows pid (l ++ [Waited pid o r]) → signal_stop pid r →
  follows pid ((l ++ [Waited pid o r]) ++ [Traced (PTRACE_SYSCALL (WSTOPSIG (wt_status r))) pid r']).
Proof.
  intros [Hadj Hown] Hr. split.
  - apply adjacent_snoc; [done|]. intros c. rewrite last_snoc. intros [= <-]. split.
    + intros ? ? [= <- <-] _. by eexists.
    + intros s ? [= <- <-] _. by exists o, r.
  - intros request p q [Hin|Hin%list_elem_of_singleton]%elem_of_app; [by eapply Hown|by simplify_eq].
Qed.

Lemma settled_traced l request p r : settled pid (l ++ [Traced request p r]).
Proof. intros ? ?. by rewrite last_snoc. Qed.

Lemma settled_wait l p o r : ¬ (p = pid ∧ signal_stop pid r) → settled pid (l ++ [Waited p o r]).
Proof. intros Hn o' r'. rewrite last_snoc. intros [= -> -> ->] Hs. by apply Hn. Qed.

End follows.

Lemma fork_seen_app parent attached l l' :
  fork_seen parent attached l → (∀ r, Traced PTRACE_GETEVENTMSG parent r ∉ l') →
  fork_seen parent attached (l ++ l').
Proof. destruct attached as [child|]; simpl; set_solver. Qed.

(** ** Rules for the calls on a logged kernel *)

Section rules.
  Context {K : Type} `{Ptrace K}.
  Context {B : Type}.
  Implicit Types Φ : exec RunnerError B → K * list call → Prop.

Lemma post_request_ok {A} request pid (f : ptrace_reply → A) (cont : A → eff (K * list call) RunnerError B) s Φ :
  (∀ r k', sys_ptrace request pid s.1 = (r, k') → (0 <= pt_result r)%Z →
     eff_post (cont (f r)) (k', s.2 ++ [Traced request pid r]) Φ) →
  (∀ r e k', Φ (Throw e) (k', s.2 ++ [Traced request pid r])) →
  eff_post (io (r ← ptrace request pid; mret (f r)) ≫= cont) s Φ.
Proof.
  intros Hret Herr. apply post_bind. unfold eff_post, io, eff_map_err, mbind, eff_bind, ptrace. simpl.
  destruct (sys_ptrace request pid s.1) as [r k'] eqn:Hcall. simpl.
  case_decide; simpl; [apply Herr|apply Hret; [done|lia]].
Qed.

Lemma post_request {A} request pid (f : ptrace_reply → A) (cont : A → eff (K * list call) RunnerError B) s Φ :
  (∀ r k', sys_ptrace request pid s.1 = (r, k') →
     eff_post (cont (f r)) (k', s.2 ++ [Traced request pid r]) Φ) →
  (∀ r e k', Φ (Throw e) (k', s.2 ++ [Traced request pid r])) →
  eff_post (io (r ← ptrace request pid; mret (f r)) ≫= cont) s Φ.
Proof. intros Hret. apply post_request_ok. intros r k' Hcall _. by apply Hret. Qed.

Lemma post_event parent (cont : Z → eff (K * list call) RunnerError B) s Φ :
  (∀ r k', sys_ptrace PTRACE_GETEVENTMSG parent s.1 = (r, k') →
     eff_post (cont (Z.of_N (pt_msg r))) (k', s.2 ++ [Traced PTRACE_GETEVENTMSG parent r]) Φ) →
  (∀ r e k', Φ (Throw e) (k', s.2 ++ [Traced PTRACE_GETEVENTMSG parent r])) →
  eff_post (event_child parent ≫= cont) s Φ.
Proof.
  intros Hret Herr. apply post_bind. unfold eff_post, event_child, io, eff_map_err, mbind, eff_bind, ptrace. simpl.
  destruct (sys_ptrace PTRACE_GETEVENTMSG parent s.1) as [r k'] eqn:Hcall. simpl.
  case_decide; simpl; [apply Herr|]. case_decide; simpl; [by apply Hret|apply Herr].
Qed.

(** The waits that were interrupted or failed. *)
Definition no_result (pid : Z) (l : list call) : Prop :=
  Forall (λ c, ∃ o r, c = Waited pid o r ∧ wt_result r ≠ pid) l.

Lemma waitpid_log fuel pid options s :
  eff_post (waitpid fuel pid options) s (λ r s', ∃ l, no_result pid l ∧
    match r with
    | Ret status => ∃ o w, s'.2 = (s.2 ++ l) ++ [Waited pid o w] ∧ wt_result w = pid ∧ wt_status w = status
    | Panic => False
    | _ => s'.2 = s.2 ++ l
    end).
Proof.
  revert s. induction fuel as [|fuel IH]; intros s; unfold eff_post; simpl.
  { exists []. split; [constructor|by rewrite app_nil_r]. }
  destruct (sys_waitpid pid (Z.lor options WALL) s.1) as [[r k]|] eqn:Hcall; simpl.
  2:{ exists []. split; [constructor|by rewrite app_nil_r]. }
  case_decide as Hres; simpl.
  { exists []. split; [constructor|]. exists (Z.lor options WALL), r. by rewrite app_nil_r. }
  assert (Hone : no_result pid [Waited pid (Z.lor options WALL) r]).
  { repeat constructor. by eexists _, _. }
  case_decide; simpl; [|by eexists].
  specialize (IH (k, s.2 ++ [Waited pid (Z.lor options WALL) r])). unfold eff_post in IH.
  destruct (waitpid fuel pid options _) as [res s']. destruct IH as (l & Hl & Hr).
  exists (Waited pid (Z.lor options WALL) r :: l). split; [by constructor; [inversion Hone|]|].
  simpl in Hr. by rewrite <-app_assoc in Hr.
Qed.

Lemma post_wait fuel pid options (cont : Z → eff (K * list call) RunnerError B) s Φ :
  (∀ l o w k', no_result pid l → wt_result w = pid →
     eff_post (cont (wt_status w)) (k', (s.2 ++ l) ++ [Waited pid o w]) Φ) →
  (∀ r l k', no_result pid l → match r with Throw _ | NoFuel => True | _ => False end → Φ r (k', s.2 ++ l)) →
  eff_post (io (waitpid fuel pid options) ≫= cont) s Φ.
Proof.
  intros Hret Herr. apply post_bind. pose proof (waitpid_log fuel pid options s) as Hlog.
  unfold eff_post, io, eff_map_err in *. destruct (waitpid fuel pid options s) as [r [k' l']].
  destruct Hlog as (l & Hl & Hr). simpl in Hr. destruct r as [status|e| |]; simpl; [| |done|].
  - destruct Hr as (o & w & -> & Hw & <-). by apply Hret.
  - subst l'. by apply Herr.
  - subst l'. by apply Herr.
Qed.

Lemma post_stopped pid status (cont : () → eff (K * list call) RunnerError B) s Φ :
  (WIFSTOPPED status → eff_post (cont ()) s Φ) → (∀ e, Φ (Throw e) s) →
  eff_post (ensure_stopped pid status ≫= cont) s Φ.
Proof.
  intros Hst Herr. unfold ensure_stopped. apply post_bind.
  destruct (WIFSTOPPED status) eqn:Hs; [by apply Hst|apply Herr].
Qed.

End rules.

Lemma follows_retries parent pid l l' :
  follows parent l → settled parent l → no_result pid l' →
  follows parent (l ++ l') ∧ settled parent (l ++ l').
Proof.
  intros Hl Hset Hno. revert l Hl Hset. induction Hno as [|c l' (o & r & -> & Hr) _ IH]; intros l Hl Hset.
  - by rewrite app_nil_r.
  - change (Waited pid o r :: l') with ([Waited pid o r] ++ l'). rewrite app_assoc. apply IH.
    + by apply follows_wait.
    + apply settled_wait. intros [-> [Hres _]]. done.
Qed.

Lemma no_result_event pid l parent r : no_result pid l → Traced PTRACE_GETEVENTMSG parent r ∉ l.
Proof. intros Hno Hin. unfold no_result in Hno. rewrite Forall_forall in Hno. by destruct (Hno _ Hin) as (? & ? & ? & _). Qed.

(** What is known of a log when [continue_to_fork] returns. *)
Definition fork_post (parent : Z) (r : exec RunnerError ProcessCreationResult) (l : list call) : Prop :=
  follows parent l ∧
  match r with
  | Ret (Created stop) =>
      fs_parent stop = parent ∧ (0 < fs_child stop)%Z ∧ fork_seen parent (Some (fs_child stop)) l ∧
      ∃ g, last l = Some (Traced PTRACE_GETREGS parent g) ∧ as_i64 (rax (pt_regs g)) = fs_child stop
  | Ret (Failed error) =>
      fork_seen parent None l ∧
      ∃ l0 g c, l = l0 ++ [Traced PTRACE_GETREGS parent g; Traced (PTRACE_CONT 0) parent c] ∧
        (as_i64 (rax (pt_regs g)) < 0)%Z ∧ error = as_i32 (- as_i64 (rax (pt_regs g)))
  | Panic =>
      fork_seen parent None l ∧
      ∃ g, Traced PTRACE_GETREGS parent g ∈ l ∧
        ¬ (0 < as_i64 (rax (pt_regs g)) <= i32_MAX)%Z ∧ ¬ (i64_MIN < as_i64 (rax (pt_regs g)) < 0)%Z
  | _ => True
  end.

#[global] Arguments waitpid : simpl never.

(** A run that ends early: only the log matters. *)
Ltac ends_early H := intros; split; [apply H|done].

Section fork.
  Context {K : Type} `{Ptrace K} (parent : Z).
  Context (Hown : ∀ k, Z.of_N (pt_msg (sys_ptrace PTRACE_GETEVENTMSG parent k).1) ≠ parent).

Lemma fork_result_spec attached (k : K) l :
  follows parent l → settled parent l → fork_seen parent attached l →
  eff_post (fork_result parent attached) (k, l) (λ r s, fork_post parent r s.2).
Proof.
  intros Hl Hset Hseen. unfold fork_result, get_regs.
  assert (Hregs : ∀ r, follows parent (l ++ [Traced PTRACE_GETREGS parent r]))
    by (intros r; apply follows_call; [done|done|by intros|by intros; simplify_eq]).
  assert (Hseen' : ∀ r, fork_seen parent attached (l ++ [Traced PTRACE_GETREGS parent r]))
    by (intros r; apply fork_seen_app; [done|set_solver]).
  apply post_request; [|ends_early Hregs]. intros r k' _. simpl. case_decide as Hneg.
  - destruct attached as [c|]; [apply post_throw; ends_early Hregs|]. unfold resume.
    assert (Hcont : ∀ c, follows parent ((l ++ [Traced PTRACE_GETREGS parent r]) ++ [Traced (PTRACE_CONT 0) parent c])).
    { intros c. apply follows_call; [done|apply settled_traced|by intros|by intros; simplify_eq]. }
    assert (Hnone : ∀ c, fork_seen parent None ((l ++ [Traced PTRACE_GETREGS parent r]) ++ [Traced (PTRACE_CONT 0) parent c])).
    { intros c. apply (fork_seen_app parent None); [done|set_solver]. }
    apply post_request; [|ends_early Hcont]. intros c k'' _. simpl. case_decide as Hmin.
    + split; [apply Hcont|]. split; [apply Hnone|]. exists r. split; [set_solver|]. unfold i64_MIN, i32_MAX in *. lia.
    + apply post_ret. split; [apply Hcont|]. split; [apply Hnone|]. exists l, r, c. by rewrite <-app_assoc.
  - case_decide as Hchild; [apply post_throw; ends_early Hregs|]. subst attached.
    case_decide as Hpos.
    + apply post_ret. split; [apply Hregs|]. split_and!; [done|simpl; lia|apply Hseen'|]. exists r. simpl. by rewrite last_snoc.
    + split; [apply Hregs|]. split; [apply Hseen'|]. exists r. split; [set_solver|]. unfold i64_MIN. lia.
Qed.

Lemma fork_loop_spec fuel attached (k : K) l :
  follows parent l → settled parent l → fork_seen parent attached l →
  eff_post (fork_loop fuel parent attached) (k, l) (λ r s, fork_post parent r s.2).
Proof.
  revert attached k l. induction fuel as [|fuel IH]; intros attached k l Hl Hset Hseen; [by apply post_lift; split|].
  cbn [fork_loop]. apply post_wait; cbn [fst snd].
  2:{ intros r l' k' Hno Hr. split; [by eapply follows_retries|]. by destruct r. }
  intros l1 o w k1 Hno Hw. destruct (follows_retries parent parent l l1) as [Hl1 Hset1]; [done..|].
  assert (Hlw : follows parent ((l ++ l1) ++ [Waited parent o w])) by (by apply follows_wait).
  assert (Hsw : fork_seen parent attached ((l ++ l1) ++ [Waited parent o w])).
  { apply fork_seen_app; [|set_solver]. apply fork_seen_app; [done|]. intros r. by eapply no_result_event. }
  apply post_stopped; [|ends_early Hlw]. intros Hstop.
  destruct (is_fork_event (stop_event (wt_status w))) eqn:Hfork.
  - assert (Hset2 : settled parent ((l ++ l1) ++ [Waited parent o w])).
    { apply settled_wait. intros (_ & _ & _ & Hev & _). unfold is_fork_event in Hfork.
      apply bool_decide_eq_true in Hfork. rewrite Hev in Hfork. by destruct Hfork as [|[|]]. }
    assert (Hlm : ∀ r, follows parent (((l ++ l1) ++ [Waited parent o w]) ++ [Traced PTRACE_GETEVENTMSG parent r]))
      by (intros r; apply follows_call; [done|done|by intros|by intros; simplify_eq]).
    apply post_event; cbn [fst snd]; [|ends_early Hlm]. intros m k2 Hm.
    assert (Hne : Z.of_N (pt_msg m) ≠ parent) by (specialize (Hown k1); by rewrite Hm in Hown).
    set (lm := ((l ++ l1) ++ [Waited parent o w]) ++ [Traced PTRACE_GETEVENTMSG parent m]) in *.
    apply post_wait; cbn [fst snd].
    2:{ intros r l' k' Hno' Hr. split; [|by destruct r].
        by apply (follows_retries parent (Z.of_N (pt_msg m)) lm l' (Hlm m) (settled_traced _ _ _ _ _)). }
    intros l2 o2 w2 k3 Hno2 Hw2.
    destruct (follows_retries parent (Z.of_N (pt_msg m)) lm l2 (Hlm m) (settled_traced _ _ _ _ _) Hno2) as [Hl2 Hset3].
    assert (Hlw2 : follows parent ((lm ++ l2) ++ [Waited (Z.of_N (pt_msg m)) o2 w2])) by (by apply follows_wait).
    apply post_stopped; [|ends_early Hlw2]. intros Hstop2. unfold syscall.
    assert (Hls : ∀ r, follows parent (((lm ++ l2) ++ [Waited (Z.of_N (pt_msg m)) o2 w2]) ++ [Traced (PTRACE_SYSCALL 0) parent r])).
    { intros r. apply follows_call; [done|apply settled_wait; by intros []|by intros; simplify_eq|by intros; simplify_eq]. }
    apply post_request; cbn [fst snd]; [|ends_early Hls]. intros r k4 _. apply IH; [done|apply settled_traced|].
    simpl. split; [exists m; split; [unfold lm; set_solver|done]|].
    exists o2, w2. split_and!; [set_solver|done..].
  - destruct (is_syscall_stop (wt_status w)) eqn:Hsys.
    + apply fork_result_spec; [done| |done]. apply settled_wait. intros (_ & _ & _ & _ & Hn). by rewrite Hsys in Hn.
    + assert (Hsig : ∀ r, follows parent (((l ++ l1) ++ [Waited parent o w]) ++
          [Traced (PTRACE_SYSCALL (signal_to_deliver (wt_status w))) parent r])).
      { intros r. unfold signal_to_deliver. case_decide as Hev.
        - apply follows_pass; [done|]. split_and!; [done..|]. rewrite Hsys. intros [].
        - apply follows_call; [done|apply settled_wait; by intros (_ & _ & _ & ? & _)|by intros; simplify_eq..]. }
      unfold syscall. apply post_request; cbn [fst snd]; [|ends_early Hsig]. intros r k2 _.
      apply IH; [done|apply settled_traced|]. apply fork_seen_app; [done|set_solver].
Qed.

End fork.

(** *** Rejection *)

Definition reject_post (parent error : Z) (r : exec RunnerError ()) (l : list call) : Prop :=
  follows parent l ∧ r ≠ Panic ∧
  (r = Ret () → ∃ mid g c c', l = mid ++
     [Traced PTRACE_GETREGS parent g;
      Traced (PTRACE_SETREGS (set_rax (as_u64 (- error)) (pt_regs g))) parent c;
      Traced (PTRACE_CONT 0) parent c'] ∧
     ∀ regs r', Traced (PTRACE_SETREGS regs) parent r' ∉ mid).

(** A rejection that ends early. *)
Ltac rejects_early H := intros; split; [apply H|done].

Section reject.
  Context {K : Type} `{Ptrace K} (parent error : Z).

Lemma reject_loop_spec fuel (k : K) l0 l :
  follows parent (l0 ++ l) → settled parent (l0 ++ l) → (∀ regs r, Traced (PTRACE_SETREGS regs) parent r ∉ l) →
  eff_post (reject_loop fuel parent error) (k, l0 ++ l) (λ r s, follows parent s.2 ∧ r ≠ Panic ∧
    (r = Ret () → ∃ mid g c c', s.2 = l0 ++ mid ++
       [Traced PTRACE_GETREGS parent g;
        Traced (PTRACE_SETREGS (set_rax (as_u64 (- error)) (pt_regs g))) parent c;
        Traced (PTRACE_CONT 0) parent c'] ∧
       ∀ regs r', Traced (PTRACE_SETREGS regs) parent r' ∉ mid)).
Proof.
  revert k l. induction fuel as [|fuel IH]; intros k l Hl Hset Hmid; [by apply post_lift|].
  cbn [reject_loop]. apply post_wait; cbn [fst snd].
  2:{ intros r l' k' Hno Hr. split_and!; [by eapply follows_retries|by destruct r..]. }
  intros l1 o w k1 Hno Hw. destruct (follows_retries parent parent (l0 ++ l) l1) as [Hl1 Hset1]; [done..|].
  assert (Heq : ((l0 ++ l) ++ l1) ++ [Waited parent o w] = l0 ++ l ++ l1 ++ [Waited parent o w])
    by (by rewrite <-!app_assoc).
  rewrite Heq. rewrite <-!app_assoc in Hl1, Hset1.
  assert (Hlw : follows parent (l0 ++ l ++ l1 ++ [Waited parent o w])).
  { rewrite !app_assoc in *. by apply follows_wait. }
  assert (Hmid' : ∀ regs r, Traced (PTRACE_SETREGS regs) parent r ∉ l ++ l1 ++ [Waited parent o w]).
  { intros regs r. rewrite !not_elem_of_app. split_and!; [done| |set_solver].
    intros Hin. unfold no_result in Hno. rewrite Forall_forall in Hno. by destruct (Hno _ Hin) as (? & ? & ? & _). }
  clear Heq. set (l2 := l ++ l1 ++ [Waited parent o w]) in *.
  assert (Hlast : last (l0 ++ l2) = Some (Waited parent o w)) by (unfold l2; by rewrite !app_assoc, last_snoc).
  apply post_stopped; [|rejects_early Hlw]. intros Hstop. destruct (is_syscall_stop (wt_status w)) eqn:Hsys.
  - assert (Hset2 : settled parent (l0 ++ l2)).
    { intros o' r'. rewrite Hlast. intros [= <- <-] (_ & _ & _ & Hn). by rewrite Hsys in Hn. }
    unfold get_regs, set_regs, resume.
    assert (Hg : ∀ r, follows parent ((l0 ++ l2) ++ [Traced PTRACE_GETREGS parent r]))
      by (intros r; apply follows_call; [done|done|by intros|by intros; simplify_eq]).
    apply post_request; cbn [fst snd]; [|rejects_early Hg]. intros g k2 _.
    set (lg := (l0 ++ l2) ++ [Traced PTRACE_GETREGS parent g]) in *.
    set (regs := set_rax (as_u64 (- error)) (pt_regs g)) in *.
    assert (Hs : ∀ r, follows parent (lg ++ [Traced (PTRACE_SETREGS regs) parent r]))
      by (intros r; apply follows_call; [apply Hg|apply settled_traced|by intros|by intros; simplify_eq]).
    apply post_request; cbn [fst snd]; [|rejects_early Hs]. intros c k3 _.
    assert (Hc : ∀ r, follows parent ((lg ++ [Traced (PTRACE_SETREGS regs) parent c]) ++ [Traced (PTRACE_CONT 0) parent r]))
      by (intros r; apply follows_call; [apply Hs|apply settled_traced|by intros|by intros; simplify_eq]).
    unfold io, eff_map_err, eff_post, mbind, eff_bind, ptrace. simpl.
    destruct (sys_ptrace (PTRACE_CONT 0) parent k3) as [c' k4]. simpl.
    case_decide; simpl; (split; [apply Hc|split; [done|]]); [done|]. intros _.
    exists l2, g, c, c'. split; [|done]. unfold lg. by rewrite <-!app_assoc.
  - assert (Hsig : ∀ r, follows parent ((l0 ++ l2) ++ [Traced (PTRACE_SYSCALL (signal_to_deliver (wt_status w))) parent r])).
    { intros r. unfold l2, signal_to_deliver in *. rewrite !app_assoc in *. case_decide as Hev.
      - apply follows_pass; [done|]. split_and!; [done..|]. rewrite Hsys. intros [].
      - apply follows_call; [done|apply settled_wait; by intros (_ & _ & _ & ? & _)|by intros; simplify_eq..]. }
    unfold syscall. apply post_request; cbn [fst snd]; [|rejects_early Hsig]. intros r k2 _.
    rewrite <-app_assoc. apply IH.
    + by rewrite app_assoc.
    + rewrite app_assoc. apply settled_traced.
    + intros regs r'. rewrite not_elem_of_app. split; [done|set_solver].
Qed.

End reject.

Lemma reject_spec {K} `{Ptrace K} fuel stop error (k : K) :
  let parent := pcs_parent stop in
  (i32_MIN <= error <= i32_MAX)%Z →
  eff_post (reject_process_creation fuel stop error) (k, []) (λ r s,
    follows parent s.2 ∧ r ≠ Panic ∧ (r = Ret () → rejected parent error s.2)).
Proof.
  intros parent Herror.
  unfold reject_process_creation, get_regs, set_regs, syscall. fold parent.
  assert (Hg : ∀ r, follows parent ([] ++ [Traced PTRACE_GETREGS parent r])).
  { intros r. apply follows_call; [apply follows_nil|by intros o q|by intros|by intros; simplify_eq]. }
  apply post_request; cbn [fst snd]; [|rejects_early Hg]. intros g0 k1 _.
  set (regs0 := set_orig_rax (as_u64 (-1)) (pt_regs g0)).
  assert (Hs : ∀ r, follows parent ([Traced PTRACE_GETREGS parent g0] ++ [Traced (PTRACE_SETREGS regs0) parent r]))
    by (intros r; apply follows_call; [apply Hg|apply (settled_traced _ [])|by intros|by intros; simplify_eq]).
  apply post_request; cbn [fst snd]; [|rejects_early Hs]. intros c0 k2 _.
  set (l2 := [Traced PTRACE_GETREGS parent g0; Traced (PTRACE_SETREGS regs0) parent c0]).
  assert (Hc : ∀ r, follows parent (l2 ++ [Traced (PTRACE_SYSCALL 0) parent r])).
  { intros r. apply follows_call; [apply Hs|apply (settled_traced _ [_])|by intros; simplify_eq..]. }
  apply post_request; cbn [fst snd]; [|rejects_early Hc]. intros s0 k3 _.
  eapply post_mono.
  - apply (reject_loop_spec parent error fuel k3 (l2 ++ [Traced (PTRACE_SYSCALL 0) parent s0]) []).
    + rewrite app_nil_r. apply Hc.
    + rewrite app_nil_r. apply settled_traced.
    + set_solver.
  - intros r s (Hl & Hr & Hret). split_and!; [done|done|]. intros Heq.
    destruct (Hret Heq) as (mid & g & c & c' & -> & Hmid).
    exists g0, c0, s0, mid, g, c, c', (set_rax (as_u64 (- error)) (pt_regs g)).
    split_and!; [done|done|by apply as_i64_u64|done].
Qed.

(** *** What the log keeps *)

Section log_keeps.
  Context {K : Type} `{Ptrace K} (P : list call → Prop) (HP : ∀ l c, P l → P (l ++ [c])).
  Abbreviation kept := (λ s : K * list call, P s.2).

Lemma ptrace_keeps request pid : steady kept (ptrace request pid).
Proof.
  intros s Hs. unfold ptrace. simpl. destruct (sys_ptrace request pid s.1) as [r k']. by apply HP.
Qed.

Lemma request_keeps {A} request pid (f : ptrace_reply → A) : steady kept (r ← ptrace request pid; mret (f r)).
Proof. apply steady_bind; [apply ptrace_keeps|auto with steady]. Qed.

Lemma waitpid_keeps fuel pid options : steady kept (waitpid fuel pid options).
Proof.
  intros s Hs. pose proof (waitpid_log fuel pid options s) as Hlog.
  assert (Hkeep : ∀ l, P (s.2 ++ l)).
  { intros l. induction l as [|c l IH] using rev_ind; [by rewrite app_nil_r|]. rewrite app_assoc. by apply HP. }
  unfold eff_post in Hlog. destruct (waitpid fuel pid options s) as [[status|e| |] s']; simpl in *.
  - destruct Hlog as (l & _ & o & w & -> & _). rewrite <-app_assoc. apply Hkeep.
  - destruct Hlog as (l & _ & ->). apply Hkeep.
  - by destruct Hlog as (l & _ & []).
  - destruct Hlog as (l & _ & ->). apply Hkeep.
Qed.

Lemma stopped_keeps pid status : steady kept (ensure_stopped pid status).
Proof. unfold ensure_stopped. destruct (WIFSTOPPED status); auto with steady. Qed.

Hint Resolve ptrace_keeps request_keeps waitpid_keeps stopped_keeps : steady.

Lemma resume_fork_keeps stop : steady kept (resume_fork stop).
Proof.
  unfold resume_fork, resume. apply steady_bind; [auto with steady|]. intros child.
  apply steady_bind; [auto with steady|]. intros parent. destruct child, parent; auto with steady.
Qed.

Lemma reject_loop_keeps fuel parent error : steady kept (reject_loop fuel parent error).
Proof.
  induction fuel as [|fuel IH]; cbn [reject_loop]; [auto with steady|].
  unfold get_regs, set_regs, resume, syscall, io.
  apply steady_bind; [auto with steady|]. intros status. apply steady_bind; [auto with steady|]. intros _.
  destruct (is_syscall_stop status); auto with steady.
Qed.

End log_keeps.

(** *** Rejected calls do not run *)

Lemma call_skipped_app pid l l' : call_skipped pid l → call_skipped pid (l ++ l').
Proof. intros (regs & r & Hin & Hr). exists regs, r. rewrite elem_of_app. by split; [left|]. Qed.

Lemma skips_first_snoc pid l c :
  skips_first pid l → (resumes pid c → call_skipped pid l) → skips_first pid (l ++ [c]).
Proof.
  intros Hl Hc i d [Hd|[Hi Hd]]%lookup_app_Some Hres.
  - rewrite take_app_le by (apply lookup_lt_Some in Hd; lia). by eapply Hl.
  - apply list_lookup_singleton_Some in Hd as [Hi0 <-]. replace i with (length l) by lia.
    rewrite take_app_length. by apply Hc.
Qed.

Lemma reject_skips {K} `{Ptrace K} fuel stop error (k : K) :
  eff_post (reject_process_creation fuel stop error) (k, []) (λ _ s, skips_first (pcs_parent stop) s.2).
Proof.
  set (parent := pcs_parent stop). unfold reject_process_creation, get_regs, set_regs, syscall. fold parent.
  assert (Hnil : skips_first parent []) by (intros i c Hc; by rewrite lookup_nil in Hc).
  assert (Hg : ∀ r, skips_first parent ([] ++ [Traced PTRACE_GETREGS parent r]))
    by (intros r; by apply skips_first_snoc).
  apply post_request; cbn [fst snd]; [intros g0 k1 _|intros; apply Hg].
  assert (Hs : ∀ regs r, skips_first parent (([] ++ [Traced PTRACE_GETREGS parent g0]) ++ [Traced (PTRACE_SETREGS regs) parent r]))
    by (intros regs r; by apply skips_first_snoc).
  apply post_request_ok; cbn [fst snd]; [intros c0 k2 _ Hok|intros; apply Hs].
  set (l2 := ([] ++ [Traced PTRACE_GETREGS parent g0]) ++ _) in *.
  assert (Hl2 : call_skipped parent l2 ∧ skips_first parent l2).
  { split; [|apply Hs]. exists (pt_regs g0), c0. split; [unfold l2; set_solver|done]. }
  assert (Hkeep : ∀ l c, call_skipped parent l ∧ skips_first parent l → call_skipped parent (l ++ [c]) ∧ skips_first parent (l ++ [c]))
    by (intros l c [Hskip Hl]; split; [by apply call_skipped_app|by apply skips_first_snoc]).
  apply (steady_post (λ s, call_skipped parent s.2 ∧ skips_first parent s.2)); [|exact Hl2|by intros r s' [_ Hs']].
  apply steady_bind; [|intros _; by apply (reject_loop_keeps (λ l, call_skipped parent l ∧ skips_first parent l))].
  apply steady_map_err. by apply (request_keeps (λ l, call_skipped parent l ∧ skips_first parent l)).
Qed.

(** *** Created children *)

Section made.
  Context {K : Type} `{Ptrace K} (parent : Z).
  Abbreviation made_only := (λ (r : exec RunnerError ProcessCreationResult) (s : K * list call),
    ∀ stop, r = Ret (Created stop) → fs_parent stop = parent ∧ kernel_made parent (fs_child stop) s.2).

(** An attached child was seen. *)
Definition attached_seen (attached : option Z) (l : list call) : Prop :=
  ∀ child, attached = Some child → fork_seen parent attached l.

Lemma attached_seen_app attached l l' : attached_seen attached l → attached_seen attached (l ++ l').
Proof. intros Hl child ->. specialize (Hl child eq_refl). simpl in *. set_solver. Qed.

Lemma fork_result_made attached (k : K) l :
  attached_seen attached l → eff_post (fork_result parent attached) (k, l) made_only.
Proof.
  intros Hseen. unfold fork_result, get_regs. apply post_request; [|done]. intros r k' _. cbn [fst snd].
  apply (attached_seen_app _ _ [Traced PTRACE_GETREGS parent r]) in Hseen. case_decide as Hneg.
  - destruct attached; [done|]. unfold resume. apply post_request; [|done]. intros c k'' _. by case_decide.
  - case_decide as Hchild; [done|]. subst attached. case_decide as Hpos; [|done].
    apply post_ret. intros stop [= <-]. simpl. split; [done|]. split_and!; [lia|by eapply Hseen|].
    exists r. split; [set_solver|done].
Qed.

Lemma fork_loop_made fuel attached (k : K) l :
  attached_seen attached l → eff_post (fork_loop fuel parent attached) (k, l) made_only.
Proof.
  revert attached k l. induction fuel as [|fuel IH]; intros attached k l Hseen; [by apply post_lift|].
  cbn [fork_loop]. apply post_wait; cbn [fst snd]; [|by intros []]. intros l1 o w k1 _ _.
  apply post_stopped; [|done]. intros _. rewrite <-app_assoc. destruct (is_fork_event _).
  - apply post_event; cbn [fst snd]; [|done]. intros m k2 _. apply post_wait; cbn [fst snd]; [|by intros []].
    intros l2 o2 w2 k3 _ Hw2. apply post_stopped; [|done]. intros Hstop. unfold syscall.
    apply post_request; cbn [fst snd]; [|done]. intros r k4 _. apply IH. intros child [= <-].
    split; [exists m; split; [set_solver|done]|]. exists o2, w2. split_and!; [set_solver|done..].
  - destruct (is_syscall_stop _).
    + by apply fork_result_made, attached_seen_app.
    + unfold syscall. apply post_request; cbn [fst snd]; [|done]. intros r k2 _. apply IH.
      by do 2 apply attached_seen_app.
Qed.

End made.

Lemma continue_to_fork_made {K} `{Ptrace K} fuel stop (k : K) l :
  eff_post (continue_to_fork fuel stop) (k, l) (λ r s, ∀ made, r = Ret (Created made) →
    fs_parent made = pcs_parent stop ∧ kernel_made (pcs_parent stop) (fs_child made) s.2).
Proof.
  unfold continue_to_fork, syscall. apply post_request; [|done]. intros r k' _. by apply fork_loop_made.
Qed.

Lemma kernel_made_app parent child l l' : kernel_made parent child l → kernel_made parent child (l ++ l').
Proof.
  intros (Hpos & (m & Hm) & g & Hg). simpl in *. split_and!; [done| |set_solver].
  simpl. set_solver.
Qed.

(** *** Waiting for a creation and reaping *)

Section parents.
  Context {K : Type} `{Ptrace K}.

Lemma creation_stop_parent parent status (k : K) :
  eff_post (process_creation_stop parent status) k (λ r _, ∀ stop, r = Ret (Some stop) → pcs_parent stop = parent).
Proof.
  apply post_bind. unfold eff_post. destruct (ensure_stopped parent status k) as [[[]|e| |] k1]; try done. simpl.
  case_decide; apply post_bind; unfold eff_post; [destruct (io (get_regs parent) k1) as [[x|e| |] k2]|
    by destruct (io (resume parent _) k1) as [[x|e| |] k2]]; try done.
  apply post_ret. by intros stop [= <-].
Qed.

Lemma wait_for_creation_parent fuel parent (k : K) :
  eff_post (wait_for_process_creation fuel parent) k (λ r _, ∀ stop, r = Ret stop → pcs_parent stop = parent).
Proof.
  revert k. induction fuel as [|fuel IH]; intros k; [by apply post_lift|]. cbn [wait_for_process_creation].
  apply post_bind. unfold eff_post. destruct (io _ k) as [[status|e| |] k1]; try done. simpl.
  apply post_bind. eapply post_mono; [apply creation_stop_parent|].
  intros [[stop|]|e| |] k2 Hstop; simpl; try done. apply post_ret. intros ? [= <-]. by apply Hstop.
Qed.

Lemma try_wait_for_creation_parent fuel parent (k : K) :
  eff_post (try_wait_for_process_creation fuel parent) k
    (λ r _, ∀ stop, r = Ret (Some stop) → pcs_parent stop = parent).
Proof.
  revert k. induction fuel as [|fuel IH]; intros k; [by apply post_lift|]. cbn [try_wait_for_process_creation].
  apply post_bind. unfold eff_post. destruct (io _ k) as [[[status|]|e| |] k1]; try done. simpl.
  apply post_bind. eapply post_mono; [apply creation_stop_parent|].
  intros [[stop|]|e| |] k2 Hstop; simpl; done.
Qed.

Lemma reap_exited_log fuel (k : K) l :
  eff_post (reap_exited fuel) (k, l) (λ r s, ∀ pid, r = Ret (Some pid) → kernel_reaped pid s.2).
Proof.
  revert k l. induction fuel as [|fuel IH]; intros k l; unfold eff_post; simpl; [done|].
  destruct (sys_waitid (Z.lor WEXITED WNOHANG) k) as [r k']. case_decide as Hr.
  { intros pid. case_decide as Hpos; [|done]. intros [= <-]. split; [done|].
    eexists _, r. simpl. by rewrite last_snoc. }
  case_decide; [by apply (IH k')|]. by case_decide.
Qed.

End parents.

(** *** Termination *)

(** The kernel has finitely many stops and interruptions to report, [events] of
    them: a wait consumes one, or has nothing to report or fails for another
    reason than an interruption. *)
Record finite_events {K} `{Ptrace K} (events : K → nat) : Prop := {
  fe_ptrace request pid k : events (sys_ptrace request pid k).2 <= events k;
  fe_wait pid options k : (0 <= pid)%Z → ∃ r k', sys_waitpid pid options k = Some (r, k') ∧
    (events k' < events k ∨ wt_result r ≠ pid ∧ (wt_result r = 0%Z ∨ wt_errno r ≠ EINTR));
  fe_waitid options k : events (sys_waitid options k).2 < events k ∨
    wt_result (sys_waitid options k).1 = 0%Z ∨ wt_errno (sys_waitid options k).1 ≠ EINTR;
}.

Section termination.
  Context {K : Type} `{Ptrace K} (events : K → nat) (Hfin : finite_events events).

(** From fewer than [n] events, [m] ends, and leaves fewer than [n'] if it
    succeeds. *)
Definition ends {E A} (n n' : nat) (m : eff K E A) : Prop :=
  ∀ k, events k < n → eff_post m k (λ r k',
    match r with NoFuel => False | Ret _ => events k' < n' | _ => True end).

Lemma ends_bind {E A B} n n' n'' (m : eff K E A) (f : A → eff K E B) :
  ends n n' m → (∀ a, ends n' n'' (f a)) → ends n n'' (m ≫= f).
Proof.
  intros Hm Hf k Hk. apply post_bind. eapply post_mono; [by apply Hm|].
  intros [a|e| |] k' Hr; simpl; [by apply Hf|done..].
Qed.

Lemma ends_ret {E A} n (a : A) : ends n n (mret a : eff K E A).
Proof. by intros k Hk. Qed.

Lemma ends_throw {E A} n n' (e : E) : ends n n' (eff_throw e : eff K E A).
Proof. by intros k Hk. Qed.

Lemma ends_io {A} n n' (m : eff K Z A) : ends n n' m → ends n n' (io m).
Proof.
  intros Hm k Hk. specialize (Hm k Hk). unfold eff_post, io, eff_map_err in *. by destruct (m k) as [[] k'].
Qed.

Lemma ends_ptrace n request pid : ends n n (ptrace request pid).
Proof.
  intros k Hk. unfold eff_post, ptrace. pose proof (fe_ptrace _ Hfin request pid k).
  destruct (sys_ptrace request pid k) as [r k']. simpl in *. case_decide; [done|lia].
Qed.

Lemma ends_stopped n pid status : ends n n (ensure_stopped pid status).
Proof. unfold ensure_stopped. destruct (WIFSTOPPED status); [apply ends_ret|apply ends_throw]. Qed.

Lemma ends_waitpid fuel n pid options : n <= fuel → (0 <= pid)%Z → ends n (pred n) (waitpid fuel pid options).
Proof.
  intros Hn Hpid. revert n Hn. induction fuel as [|fuel IH]; intros n Hn k Hk; [lia|].
  unfold eff_post. simpl. destruct (fe_wait _ Hfin pid (Z.lor options WALL) k Hpid) as (r & k' & Heq & Hr).
  unfold waitpid. fold (waitpid (K:=K)). rewrite Heq. case_decide as Hres.
  - destruct Hr as [Hr|[Hr _]]; [lia|done].
  - case_decide as Hintr; [|done]. destruct Hr as [Hr|[_ [Hr|Hr]]]; [|lia|by destruct Hintr].
    specialize (IH (pred n) ltac:(lia) k' ltac:(lia)). unfold eff_post in IH.
    destruct (waitpid fuel pid options k') as [[] k'']; [lia|done..].
Qed.

Lemma ends_try_waitpid fuel n pid :
  n <= fuel → (0 <= pid)%Z → ∀ k, events k < n → eff_post (try_waitpid fuel pid) k (λ r k',
    match r with NoFuel => False | Ret (Some _) => events k' < pred n | _ => True end).
Proof.
  intros Hn Hpid. revert n Hn. induction fuel as [|fuel IH]; intros n Hn k Hk; [lia|].
  unfold eff_post. simpl. destruct (fe_wait _ Hfin pid (Z.lor WNOHANG WALL) k Hpid) as (r & k' & Heq & Hr).
  rewrite Heq. case_decide as Hres; [destruct Hr as [Hr|[Hr _]]; [lia|done]|].
  case_decide as Hzero; [done|]. case_decide as Hintr; [|done]. destruct Hr as [Hr|[_ [Hr|Hr]]]; [|done..].
  specialize (IH (pred n) ltac:(lia) k' ltac:(lia)). unfold eff_post in IH.
  destruct (try_waitpid fuel pid k') as [[[]|e| |] k'']; [lia|done..].
Qed.

Lemma ends_reap_exited fuel n : n <= fuel → ∀ k, events k < n → (reap_exited fuel k).1 ≠ NoFuel.
Proof.
  intros Hn. revert n Hn. induction fuel as [|fuel IH]; intros n Hn k Hk; [lia|]. simpl.
  pose proof (fe_waitid _ Hfin (Z.lor WEXITED WNOHANG) k) as Hr.
  destruct (sys_waitid (Z.lor WEXITED WNOHANG) k) as [r k']. simpl in Hr. case_decide; [done|].
  case_decide; [|by case_decide]. apply (IH (pred n)); [lia|]. naive_solver lia.
Qed.

Lemma ends_mono {E A} n n1 n2 (m : eff K E A) : ends n n1 m → n1 <= n2 → ends n n2 m.
Proof. intros Hm Hle k Hk. eapply post_mono; [by apply Hm|]. intros [a|e| |] k' Hr; [lia|done..]. Qed.

Lemma ends_request {A} n request pid (f : ptrace_reply → A) :
  ends n n (io (r ← ptrace request pid; mret (f r))).
Proof. apply ends_io. eapply ends_bind; [apply ends_ptrace|intros; apply ends_ret]. Qed.

Lemma ends_wait fuel n pid options : n <= fuel → (0 <= pid)%Z → ends n (pred n) (io (waitpid fuel pid options)).
Proof. intros Hn Hpid. by apply ends_io, ends_waitpid. Qed.

Lemma ends_fork_result n parent attached : ends n n (fork_result parent attached).
Proof.
  eapply ends_bind; [apply ends_request|]. intros regs. cbv zeta. case_decide.
  - destruct attached; [apply ends_throw|]. eapply ends_bind; [apply ends_request|].
    intros []. case_decide; [by intros k Hk|apply ends_ret].
  - do 2 case_decide; try apply ends_throw; [apply ends_ret|by intros k Hk].
Qed.

(** The child is not negative. *)
Lemma ends_event_child {B} n n' parent (f : Z → eff K RunnerError B) :
  (∀ child, (0 <= child)%Z → ends n n' (f child)) → ends n n' (event_child parent ≫= f).
Proof.
  intros Hf k Hk. apply post_bind. unfold eff_post, event_child, io, eff_map_err, mbind, eff_bind, ptrace.
  pose proof (fe_ptrace _ Hfin PTRACE_GETEVENTMSG parent k).
  destruct (sys_ptrace PTRACE_GETEVENTMSG parent k) as [r k']. simpl in *. case_decide; [done|]. simpl.
  case_decide; [|done]. simpl. apply Hf; lia.
Qed.

Lemma ends_fork_loop fuel n parent attached : n <= fuel → (0 <= parent)%Z → ends n n (fork_loop fuel parent attached).
Proof.
  intros Hn Hp. revert n attached Hn. induction fuel as [|fuel IH]; intros n attached Hn; [intros k Hk; lia|].
  cbn [fork_loop]. eapply ends_bind; [by apply ends_wait|]. intros status.
  eapply ends_bind; [apply ends_stopped|]. intros _. destruct (is_fork_event _).
  - apply ends_event_child. intros child Hchild.
    eapply ends_bind; [apply ends_wait; lia|]. intros child_status.
    eapply ends_bind; [apply ends_stopped|]. intros _.
    eapply ends_bind; [apply ends_request|]. intros _.
    eapply ends_mono; [apply IH|]; lia.
  - destruct (is_syscall_stop status); [eapply ends_mono; [apply ends_fork_result|lia]|].
    eapply ends_bind; [apply ends_request|]. intros _. eapply ends_mono; [apply IH|]; lia.
Qed.

Lemma ends_reject_loop fuel n parent error : n <= fuel → (0 <= parent)%Z → ends n n (reject_loop fuel parent error).
Proof.
  intros Hn Hp. revert n Hn. induction fuel as [|fuel IH]; intros n Hn; [intros k Hk; lia|].
  cbn [reject_loop]. eapply ends_bind; [by apply ends_wait|]. intros status.
  eapply ends_bind; [apply ends_stopped|]. intros _. destruct (is_syscall_stop status).
  - eapply ends_bind; [apply ends_request|]. intros regs. eapply ends_bind; [apply ends_request|]. intros _.
    eapply ends_mono; [apply ends_request|lia].
  - eapply ends_bind; [apply ends_request|]. intros _. eapply ends_mono; [apply IH|]; lia.
Qed.

Lemma ends_creation_stop n parent status : ends n n (process_creation_stop parent status).
Proof.
  eapply ends_bind; [apply ends_stopped|]. intros _. case_decide;
    (eapply ends_bind; [apply ends_request|]; intros; apply ends_ret).
Qed.

Lemma ends_wait_for_creation fuel n parent : n <= fuel → (0 <= parent)%Z → ends n n (wait_for_process_creation fuel parent).
Proof.
  intros Hn Hp. revert n Hn. induction fuel as [|fuel IH]; intros n Hn; [intros k Hk; lia|].
  cbn [wait_for_process_creation]. eapply ends_bind; [by apply ends_wait|]. intros status.
  eapply ends_bind; [apply ends_creation_stop|]. intros [stop|].
  - eapply ends_mono; [apply ends_ret|lia].
  - eapply ends_mono; [apply IH|]; lia.
Qed.

Lemma ends_try_wait_for_creation fuel n parent :
  n <= fuel → (0 <= parent)%Z → ∀ k, events k < n → (try_wait_for_process_creation fuel parent k).1 ≠ NoFuel.
Proof.
  intros Hn Hp. revert n Hn. induction fuel as [|fuel IH]; intros n Hn k Hk; [lia|].
  cbn [try_wait_for_process_creation]. pose proof (ends_try_waitpid (S fuel) n parent Hn Hp k Hk) as Hwait.
  unfold eff_post, io, eff_map_err, mbind, eff_bind in *.
  destruct (try_waitpid (S fuel) parent k) as [[[status|]|e| |] k1]; try done.
  pose proof (ends_creation_stop (pred n) parent status k1 Hwait) as Hstop. unfold eff_post in Hstop.
  destruct (process_creation_stop parent status k1) as [[[stop|]|e| |] k2]; try done. apply (IH (pred n)); lia.
Qed.

End termination.

(** *** Forks whose parent waits for the child *)

Section vfork.
  Context {K : Type} `{Ptrace K} (vforked : K → Prop) (parent : Z).
  Context (Hreq : ∀ k request, vforked k → vforked (sys_ptrace request parent k).2).
  Context (Hwait : ∀ k pid options r k', vforked k → sys_waitpid pid options k = Some (r, k') →
     vforked k' ∧ (pid = parent → wt_result r = parent → stop_event (wt_status r) = PTRACE_EVENT_VFORK)).

(** [m] keeps [vforked], and its results satisfy [Q]. *)
Definition keeps {E A} (Q : A → Prop) (m : eff K E A) : Prop :=
  ∀ k, vforked k → eff_post m k (λ r k', match r with Ret a => Q a ∧ vforked k' | _ => True end).

Lemma keeps_bind {E A B} (P : A → Prop) (Q : B → Prop) (m : eff K E A) (f : A → eff K E B) :
  keeps P m → (∀ a, P a → keeps Q (f a)) → keeps Q (m ≫= f).
Proof.
  intros Hm Hf k Hk. apply post_bind. eapply post_mono; [by apply Hm|].
  intros [a|e| |] k' Hr; simpl; [|done..]. by apply Hf; destruct Hr.
Qed.

Lemma keeps_request {A} request (f : ptrace_reply → A) :
  keeps (λ _, True) (io (r ← ptrace request parent; mret (f r))).
Proof.
  intros k Hk. apply (Hreq k request) in Hk. unfold eff_post, io, eff_map_err, mbind, eff_bind, ptrace.
  destruct (sys_ptrace request parent k) as [r k']. by case_decide.
Qed.

Lemma keeps_event : keeps (λ _, True) (event_child parent).
Proof.
  intros k Hk. apply (Hreq k PTRACE_GETEVENTMSG) in Hk.
  unfold eff_post, event_child, io, eff_map_err, mbind, eff_bind, ptrace.
  destruct (sys_ptrace PTRACE_GETEVENTMSG parent k) as [r k']. simpl in *.
  case_decide; [done|]. simpl. by case_decide.
Qed.

Lemma keeps_stopped pid status : keeps (λ _, True) (ensure_stopped pid status).
Proof. intros k Hk. unfold ensure_stopped. by destruct (WIFSTOPPED status). Qed.

Lemma keeps_wait fuel pid :
  keeps (λ status, pid = parent → stop_event status = PTRACE_EVENT_VFORK) (io (waitpid fuel pid 0)).
Proof.
  induction fuel as [|fuel IH]; intros k Hk; [done|].
  unfold eff_post, io, eff_map_err, waitpid. fold (waitpid (K:=K)).
  destruct (sys_waitpid pid _ k) as [[r k']|] eqn:Hcall; [|done].
  destruct (Hwait _ _ _ _ _ Hk Hcall) as [Hk' Hev]. case_decide as Hres.
  { split; [intros Hp; subst pid; by apply Hev|done]. }
  case_decide; [|done]. by apply (IH k').
Qed.

Lemma vfork_loop fuel attached : keeps (λ _, False) (fork_loop fuel parent attached).
Proof.
  revert attached. induction fuel as [|fuel IH]; intros attached; [by intros k Hk|].
  cbn [fork_loop]. eapply keeps_bind; [apply keeps_wait|]. intros status Hev.
  eapply keeps_bind; [apply keeps_stopped|]. intros _ _.
  assert (is_fork_event (stop_event status) = true) as ->.
  { apply bool_decide_eq_true_2. right. left. by apply Hev. }
  eapply keeps_bind; [apply keeps_event|]. intros child _.
  eapply keeps_bind; [apply keeps_wait|]. intros child_status _.
  eapply keeps_bind; [apply keeps_stopped|]. intros _ _.
  eapply keeps_bind; [apply keeps_request|]. intros _ _. apply IH.
Qed.

End vfork.

(** ** Properties *)

(** C12: following a process-creation system call, for every kernel: each signal
    that stops the parent is passed on by the next call, no other signal is
    delivered and no other process is resumed.  A child is reported as created
    only when the fork event and the return value agree on it, and it has
    stopped; a failure carries the kernel's error, without a fork event, and
    the parent runs on; a panic needs a return value that is neither a process
    nor an error, without a fork event. *)
Theorem continue_to_fork_outcome {K} `{Ptrace K} fuel stop (k : K) :
  (∀ k, Z.of_N (pt_msg (sys_ptrace PTRACE_GETEVENTMSG (pcs_parent stop) k).1) ≠ pcs_parent stop) →
  let '(r, (_, l)) := continue_to_fork fuel stop (k, []) in fork_post (pcs_parent stop) r l.
Proof.
  intros Hown. set (parent := pcs_parent stop) in *.
  assert (Hfirst : ∀ r, follows parent ([] ++ [Traced (PTRACE_SYSCALL 0) parent r])).
  { intros r. apply follows_call; [apply follows_nil|by intros o q|by intros; simplify_eq..]. }
  assert (Hpost : eff_post (continue_to_fork fuel stop) (k, []) (λ r s, fork_post parent r s.2)).
  { unfold continue_to_fork, syscall. fold parent. apply post_request; cbn [fst snd]; [|ends_early Hfirst].
    intros r k' _. apply fork_loop_spec; [done|apply Hfirst|apply (settled_traced _ [])|set_solver]. }
  unfold eff_post in Hpost. by destruct (continue_to_fork fuel stop (k, [])) as [r [k' l]].
Qed.

(** C22: a rejected system call is skipped and fails with the given error: its
    number is replaced by -1 before the process runs on, and when it has
    returned, the process reads [-error] as its result and is resumed.  Signals
    that arrive meanwhile are passed on, and nothing else is changed. *)
Theorem reject_process_creation_effect {K} `{Ptrace K} fuel stop error (k : K) :
  (i32_MIN <= error <= i32_MAX)%Z →
  let parent := pcs_parent stop in
  let '(r, (_, l)) := reject_process_creation fuel stop error (k, []) in
  follows parent l ∧ r ≠ Panic ∧
  (r = Ret () → ∃ g0 c0 s0 mid g c c' regs,
     l = [Traced PTRACE_GETREGS parent g0;
          Traced (PTRACE_SETREGS (set_orig_rax (as_u64 (-1)) (pt_regs g0))) parent c0;
          Traced (PTRACE_SYSCALL 0) parent s0] ++ mid ++
         [Traced PTRACE_GETREGS parent g;
          Traced (PTRACE_SETREGS regs) parent c;
          Traced (PTRACE_CONT 0) parent c'] ∧
     regs = set_rax (as_u64 (- error)) (pt_regs g) ∧ as_i64 (rax regs) = (- error)%Z ∧
     ∀ regs' r', Traced (PTRACE_SETREGS regs') parent r' ∉ mid).
Proof.
  intros Herror parent. pose proof (reject_spec fuel stop error k Herror) as Hpost.
  unfold eff_post in Hpost. by destruct (reject_process_creation fuel stop error (k, [])) as [r [k' l]].
Qed.

(** C23: when the kernel reports finitely many stops and interruptions and no
    wait blocks, every loop of the protocol ends: waiting for a creation, with
    and without blocking, following it, rejecting it and reaping return a
    result or an error, within one turn per report. *)
Theorem ptrace_loops_end {K} `{Ptrace K} (events : K → nat) fuel stop error (k : K) :
  finite_events events → events k < fuel → (0 <= pcs_parent stop)%Z →
  (wait_for_process_creation fuel (pcs_parent stop) k).1 ≠ NoFuel ∧
  (try_wait_for_process_creation fuel (pcs_parent stop) k).1 ≠ NoFuel ∧
  (continue_to_fork fuel stop k).1 ≠ NoFuel ∧
  (reject_process_creation fuel stop error k).1 ≠ NoFuel ∧
  (reap_exited fuel k).1 ≠ NoFuel.
Proof.
  intros Hfin Hk Hp.
  assert (Hends : ∀ {A} (m : eff K RunnerError A) n', ends events fuel n' m → (m k).1 ≠ NoFuel).
  { intros A m n' Hm. specialize (Hm k Hk). unfold eff_post in Hm. by destruct (m k) as [[] k']. }
  split_and!; [eapply Hends|..|eapply Hends|eapply Hends|].
  - by apply ends_wait_for_creation.
  - by apply (ends_try_wait_for_creation events Hfin fuel fuel).
  - eapply ends_bind; [by apply ends_request|]. intros _. by apply ends_fork_loop.
  - do 3 (eapply ends_bind; [by apply ends_request|]; intros ?). by apply ends_reject_loop.
  - by apply (ends_reap_exited events Hfin fuel fuel).
Qed.

(** C24: a [vfork] is never reported as created: as long as nobody resumes the
    child, the kernel reports nothing of the parent after the fork event
    itself, and the child is resumed only after the parent's system call has
    returned. *)
Theorem vfork_never_created {K} `{Ptrace K} (vforked : K → Prop) fuel stop (k : K) :
  let parent := pcs_parent stop in
  (∀ k request, vforked k → vforked (sys_ptrace request parent k).2) →
  (∀ k pid options r k', vforked k → sys_waitpid pid options k = Some (r, k') →
     vforked k' ∧ (pid = parent → wt_result r = parent → stop_event (wt_status r) = PTRACE_EVENT_VFORK)) →
  vforked k → ∀ result, (continue_to_fork fuel stop k).1 ≠ Ret result.
Proof.
  intros parent Hreq Hwait Hk result Heq.
  pose proof (vfork_loop vforked parent Hreq Hwait fuel None) as Hloop.
  assert (Hpost : keeps vforked (λ _, False) (continue_to_fork fuel stop)).
  { eapply keeps_bind; [by apply keeps_request|]. intros _ _. apply Hloop. }
  specialize (Hpost k Hk). unfold eff_post in Hpost.
  destruct (continue_to_fork fuel stop k) as [r k']. simpl in Heq. subst r. by destruct Hpost.
Qed.

(** ** Samples *)

(** The stops that process 7 and its child 43 have yet to report, and the
    value the system call of 7 returns. *)
Record Tracee := { tr_stops : list Z; tr_child_stops : list Z; tr_rax : N }.

Definition no_regs : user_regs :=
  {| orig_rax := 57; rax := 0; rdi := 0; rsi := 0; rdx := 0; r10 := 0; r8 := 0; r9 := 0; other_regs := [] |}.

(** Waiting without a stop to report blocks, or fails. *)
Definition tracee_kernel (blocks : bool) : Ptrace Tracee := {|
  sys_ptrace request pid k :=
    ({| pt_result := 0; pt_errno := 0; pt_regs := set_rax (tr_rax k) no_regs; pt_msg := 43 |}, k);
  sys_waitpid pid options k :=
    let gone := if blocks then None else Some ({| wt_result := -1; wt_errno := ECHILD; wt_status := 0 |}, k) in
    if decide (pid = 7%Z) then
      match tr_stops k with
      | st :: rest => Some ({| wt_result := 7; wt_errno := 0; wt_status := st |},
                           {| tr_stops := rest; tr_child_stops := tr_child_stops k; tr_rax := tr_rax k |})
      | [] => gone
      end
    else
      match tr_child_stops k with
      | st :: rest => Some ({| wt_result := pid; wt_errno := 0; wt_status := st |},
                           {| tr_stops := tr_stops k; tr_child_stops := rest; tr_rax := tr_rax k |})
      | [] => gone
      end;
  sys_waitid options k := ({| wt_result := 0; wt_errno := 0; wt_status := 0 |}, k);
|}.

#[local] Existing Instance tracee_kernel.

(** A [fork] of process 7; [SIGCHLD] stops it first. *)
Definition sample_stop : ProcessCreationStop := {| pcs_parent := 7; pcs_syscall := 57; pcs_args := [0; 0; 0; 0; 0; 0]%N |}.
Definition SIGCHLD_STOP : Z := 4479.
Definition FORK_STOP : Z := 66943.
Definition VFORK_STOP : Z := 132479.
Definition SYSCALL_STOP : Z := 34175.
Definition CHILD_STOP : Z := 8390015.

Definition sample_fork : Tracee :=
  {| tr_stops := [SIGCHLD_STOP; FORK_STOP; SYSCALL_STOP]; tr_child_stops := [CHILD_STOP]; tr_rax := 43 |}.

Lemma continue_to_fork_outcome_witness :
  let '(r, (_, l)) := continue_to_fork (H:=logged (H:=tracee_kernel false)) 9 sample_stop (sample_fork, []) in
  r = Ret (Created {| fs_parent := 7; fs_child := 43 |}) ∧ length l = 9 ∧ fork_post 7 r l.
Proof.
  assert (Hown : ∀ k, Z.of_N (pt_msg (sys_ptrace (Ptrace:=tracee_kernel false) PTRACE_GETEVENTMSG 7 k).1) ≠ 7%Z)
    by (intros k; discriminate).
  pose proof (continue_to_fork_outcome (H:=tracee_kernel false) 9 sample_stop sample_fork Hown) as Hpost.
  destruct (continue_to_fork 9 sample_stop (sample_fork, [])) as [r [k l]] eqn:Heq.
  vm_compute in Heq. injection Heq as Hr _ Hl.
  split; [symmetry; exact Hr|]. split; [rewrite <-Hl; reflexivity|exact Hpost].
Defined.

Lemma reject_process_creation_effect_witness :
  let '(r, (_, l)) := reject_process_creation (H:=logged (H:=tracee_kernel false)) 9 sample_stop 95
    ({| tr_stops := [SIGCHLD_STOP; SYSCALL_STOP]; tr_child_stops := []; tr_rax := 0 |}, []) in
  r = Ret () ∧ follows 7 l.
Proof.
  pose proof (reject_process_creation_effect (H:=tracee_kernel false) 9 sample_stop 95
    {| tr_stops := [SIGCHLD_STOP; SYSCALL_STOP]; tr_child_stops := []; tr_rax := 0 |}) as Hpost.
  destruct (reject_process_creation 9 sample_stop 95 _) as [r [k l]] eqn:Heq.
  vm_compute in Heq. injection Heq as Hr _ _.
  split; [symmetry; exact Hr|]. apply Hpost. unfold i32_MIN, i32_MAX. lia.
Defined.

Definition sample_events (k : Tracee) : nat := length (tr_stops k) + length (tr_child_stops k).

Lemma sample_events_finite : finite_events (H:=tracee_kernel false) sample_events.
Proof.
  split; [done| |by right; left]. intros pid options k Hpid. unfold sample_events. simpl. case_decide.
  - destruct (tr_stops k) as [|st rest]; (eexists _, _; split; [done|]); simpl; [right|left; lia].
    split; [lia|by right].
  - destruct (tr_child_stops k) as [|st rest]; (eexists _, _; split; [done|]); simpl; [right|left; lia].
    split; [lia|by right].
Qed.

Lemma ptrace_loops_end_witness :
  sample_events sample_fork = 4 ∧
  (wait_for_process_creation (H:=tracee_kernel false) 5 7 sample_fork).1 ≠ NoFuel ∧
  (try_wait_for_process_creation (H:=tracee_kernel false) 5 7 sample_fork).1 ≠ NoFuel ∧
  (continue_to_fork (H:=tracee_kernel false) 5 sample_stop sample_fork).1 ≠ NoFuel ∧
  (reject_process_creation (H:=tracee_kernel false) 5 sample_stop 95 sample_fork).1 ≠ NoFuel ∧
  (reap_exited (H:=tracee_kernel false) 5 sample_fork).1 ≠ NoFuel.
Proof.
  split; [reflexivity|].
  apply (ptrace_loops_end (H:=tracee_kernel false) sample_events 5 sample_stop 95 sample_fork).
  - exact sample_events_finite.
  - unfold sample_events. simpl. lia.
  - simpl. lia.
Defined.

Definition sample_vfork : Tracee := {| tr_stops := [VFORK_STOP]; tr_child_stops := [CHILD_STOP]; tr_rax := 43 |}.

(** The child has been seen, and the next wait for the parent blocks. *)
Lemma vfork_never_created_witness :
  (continue_to_fork (H:=tracee_kernel true) 9 sample_stop sample_vfork).1 = NoFuel ∧
  ¬ (continue_to_fork (H:=tracee_kernel true) 9 sample_stop sample_vfork).1 =
    Ret (Created {| fs_parent := 7; fs_child := 43 |}).
Proof.
  split; [vm_compute; reflexivity|].
  apply (vfork_never_created (H:=tracee_kernel true)
    (λ k, Forall (λ st, stop_event st = PTRACE_EVENT_VFORK) (tr_stops k)) 9 sample_stop sample_vfork).
  - intros k request Hk. exact Hk.
  - intros k pid options r k' Hk Hcall. simpl in Hcall. case_decide.
    + destruct (tr_stops k) as [|st rest]; simplify_eq/=. inversion Hk. by split.
    + destruct (tr_child_stops k) as [|st rest]; simplify_eq/=. by split.
  - repeat constructor.
Defined.
