(* ===== verification/Processes.v ===== *)
(** * The processes of the supervisor ([src/src/runner/supervisor.rs])

    The process table, process creation and reaping.  The state of an
    operation is the supervisor with the kernel. *)

From S2P Require Import Prelude Effects Index Graph Model Tracker Policy Fd Buffer Request Scheduler Ptrace.

Definition SYS_clone : Z := 56.
Definition SYS_fork : Z := 57.
Definition SYS_vfork : Z := 58.
Definition SYS_clone3 : Z := 435.
Definition CLONE_FILES : N := 1024.

Definition CLONE_ARGS_SIZE_VER0 : N := 64.

Inductive ProcessCreationOutcome :=
| PCreated (pid : Z)
| PFailed (error : Z)
| PRejected (error : Z).

Inductive ProcessCreationFlags := Flags (flags : N) | Invalid (error : Z).

(** The scheduling fields are those of [Scheduler]. *)
Record Supervisor (PF : Type) := {
  sv_buffer : PageBuffer;
  sv_procs : gmap Z PF;
  sv_sched : Scheduler;
}.
#[global] Arguments sv_buffer {PF}.
#[global] Arguments sv_procs {PF}.
#[global] Arguments sv_sched {PF}.
#[global] Arguments Build_Supervisor {PF}.

(** [u64::from_ne_bytes], little-endian on the one supported target. *)
Definition u64_from_ne_bytes (bytes : list byte) : N :=
  foldr (λ b n, Byte.to_N b + 256 * n)%N 0%N bytes.

Section supervisor.
  Context {PF K : Type} `{ProcFileSpace PF} `{Ptrace K} `{ProcessMemory K}.

Abbreviation Sup := (eff (Supervisor PF * K) RunnerError).

Definition supervisor_new {E} (info : CompiledSetup) : exec E (Supervisor PF) :=
  sched ← sched_new info;
  Ret {| sv_buffer := buf_new; sv_procs := ∅; sv_sched := sched |}.

Definition set_procs (procs : gmap Z PF) (s : Supervisor PF) : Supervisor PF :=
  {| sv_buffer := sv_buffer s; sv_procs := procs; sv_sched := sv_sched s |}.
Definition set_buffer (buffer : PageBuffer) (s : Supervisor PF) : Supervisor PF :=
  {| sv_buffer := buffer; sv_procs := sv_procs s; sv_sched := sv_sched s |}.

(** Code on the kernel, and on [self.buffer] with the kernel. *)
Definition with_kernel {E A} (m : eff K E A) : eff (Supervisor PF * K) E A :=
  eff_zoom snd (λ k s, (s.1, k)) m.
Definition with_buffer {E A} (m : eff (PageBuffer * K) E A) : eff (Supervisor PF * K) E A :=
  eff_zoom (λ s, (sv_buffer s.1, s.2)) (λ b s, (set_buffer b.1 s.1, b.2)) m.

Definition sv_lookup_fd (pid fd : Z) (s : Supervisor PF) : option ChildFile :=
  files ← sv_procs s !! pid; lookup_fd files fd.

Definition register_process (pid : Z) (files : PF) : Sup () := λ s,
  match sv_procs s.1 !! pid with
  | Some _ => (Throw (Fault (ProcessAlreadyTracked pid)), s)
  | None => (Ret (), (set_procs (<[pid := files]> (sv_procs s.1)) s.1, s.2))
  end.

Definition contains_process (pid : Z) (s : Supervisor PF) : bool :=
  bool_decide (is_Some (sv_procs s !! pid)).

(** [self.procs.get(&pid).ok_or(ProcessNotTracked(pid))]. *)
Definition get_process (pid : Z) : Sup PF := λ s,
  match sv_procs s.1 !! pid with
  | Some files => (Ret files, s)
  | None => (Throw (Fault (ProcessNotTracked pid)), s)
  end.

Definition process_creation_flags (stop : ProcessCreationStop) : Sup ProcessCreationFlags :=
  let syscall := pcs_syscall stop in
  if decide (syscall = SYS_fork ∨ syscall = SYS_vfork) then mret (Flags 0)
  else
    arg0 ← eff_lift (vget (pcs_args stop) 0);
    if decide (syscall = SYS_clone) then mret (Flags arg0)
    else if decide (syscall ≠ SYS_clone3) then eff_throw (Fault (UnexpectedSyscall syscall))
    else
      arg1 ← eff_lift (vget (pcs_args stop) 1);
      if decide (arg0 = 0 ∨ arg1 < CLONE_ARGS_SIZE_VER0)%N then mret (Invalid EINVAL)
      else
        copied ← eff_try (with_buffer (copy_from_process_bytes (pcs_parent stop) arg0 8));
        match copied with
        | inr bytes =>
            if decide (length bytes = 8) then mret (Flags (u64_from_ne_bytes bytes)) else eff_panic
        | inl (Errno error) => mret (Invalid error)
        | inl (Buffer.Io error) => eff_throw (RunnerIo (OsError error))
        | inl UnexpectedEof => eff_throw (RunnerIo (CustomError KUnexpectedEof))
        end.

(** Rejecting the system call of [stop]. *)
Definition reject (fuel : nat) (stop : ProcessCreationStop) (error : Z) : Sup ProcessCreationOutcome :=
  _ ← with_kernel (reject_process_creation fuel stop error);
  mret (PRejected error).

Definition handle_process_creation_stop (fuel : nat) (stop : ProcessCreationStop)
    : Sup ProcessCreationOutcome :=
  let pid := pcs_parent stop in
  child_files ← get_process pid;
  flags ← process_creation_flags stop;
  match flags with
  | Invalid error => reject fuel stop error
  | Flags flags =>
      if decide (N.land flags CLONE_FILES ≠ 0%N) then reject fuel stop ENOTSUP
      else
        _ ← get_process pid;
        result ← with_kernel (continue_to_fork fuel stop);
        match result with
        | Failed error => mret (PFailed error)
        | Created stop =>
            let child := fs_child stop in
            registered ← eff_try (E':=RunnerError) (register_process child child_files);
            match registered with
            | inl error =>
                _ ← eff_try (E':=RunnerError) (with_kernel (resume_fork stop));
                eff_throw error
            | inr _ =>
                _ ← with_kernel (io (resume_fork stop));
                mret (PCreated child)
            end
        end
  end.

Definition handle_process_creation (fuel : nat) (pid : Z) : Sup ProcessCreationOutcome := λ s,
  if contains_process pid s.1 then
    (stop ← with_kernel (wait_for_process_creation fuel pid);
     handle_process_creation_stop fuel stop) s
  else (Throw (Fault (ProcessNotTracked pid)), s).

Definition try_handle_process_creation (fuel : nat) (pid : Z) : Sup (option ProcessCreationOutcome) := λ s,
  if contains_process pid s.1 then
    (stop ← with_kernel (try_wait_for_process_creation fuel pid);
     match stop with
     | None => mret None
     | Some stop => outcome ← handle_process_creation_stop fuel stop; mret (Some outcome)
     end) s
  else (Throw (Fault (ProcessNotTracked pid)), s).

Definition remove_process (pid : Z) : eff (Supervisor PF * K) Z (option Z) := λ s,
  (Ret (Some pid), (set_procs (delete pid (sv_procs s.1)) s.1, s.2)).

Definition sv_reap_exited (fuel : nat) : eff (Supervisor PF * K) Z (option Z) :=
  reaped ← with_kernel (reap_exited fuel);
  match reaped with
  | Some pid => remove_process pid
  | None => mret None
  end.

End supervisor.

(** ** Specification *)

(** The process table as such: the runner registers a process with its files, the
    kernel makes a child, which gets the files of its parent, and a process is
    reaped. *)
Inductive table_op {PF} :=
| RegisterProcess (pid : Z) (files : PF)
| ForkProcess (parent child : Z)
| ReapProcess (pid : Z).

Inductive table_step {PF} : table_op → gmap Z PF → gmap Z PF → Prop :=
| table_register pid files t : t !! pid = None → table_step (RegisterProcess pid files) t (<[pid := files]> t)
| table_fork parent child files t :
    t !! parent = Some files → t !! child = None → table_step (ForkProcess parent child) t (<[child := files]> t)
| table_reap pid t : table_step (ReapProcess pid) t (delete pid t).

Definition ret_value {E A} (r : exec E A) : option A := match r with Ret a => Some a | _ => None end.

(** Creations by [parent], with the calls [l]: the table forks a child that the
    kernel made exactly when it is reported; without a result it may have.  The
    scheduling state is not touched. *)
Definition creation_refines {PF} (parent : Z) (o : option (option ProcessCreationOutcome)) (s s' : Supervisor PF)
    (l : list call) : Prop :=
  let forks child := kernel_made parent child l ∧ table_step (ForkProcess parent child) (sv_procs s) (sv_procs s') in
  sv_sched s' = sv_sched s ∧
  match o with
  | Some (Some (PCreated child)) => forks child
  | Some _ => sv_procs s' = sv_procs s
  | None => sv_procs s' = sv_procs s ∨ ∃ child, forks child
  end.

(** The kernel with a log lets memory be read as before. *)
#[export] Instance logged_memory {K} `{ProcessMemory K} : ProcessMemory (K * list call) := {|
  process_vm_readv pid remote len s :=
    let '(r, k) := process_vm_readv pid remote len s.1 in (r, (k, s.2));
|}.

(** Only the buffer may differ. *)
Definition same_table {PF} (s s' : Supervisor PF) : Prop :=
  sv_procs s' = sv_procs s ∧ sv_sched s' = sv_sched s.

(** The table after a creation: [child] has the files of [parent]. *)
Definition inherits {PF} (parent child : Z) (s s' : Supervisor PF) : Prop :=
  sv_sched s' = sv_sched s ∧
  ∃ files, sv_procs s !! parent = Some files ∧ sv_procs s !! child = None ∧
    sv_procs s' = <[child := files]> (sv_procs s).

(** The flags that a process-creation system call asks for. *)
Inductive requested (mem : memory) (stop : ProcessCreationStop) : N → Prop :=
| requested_fork : pcs_syscall stop = SYS_fork ∨ pcs_syscall stop = SYS_vfork → requested mem stop 0
| requested_clone flags :
    pcs_syscall stop = SYS_clone → pcs_args stop !! 0 = Some flags → requested mem stop flags
| requested_clone3 address size bytes :
    pcs_syscall stop = SYS_clone3 → pcs_args stop !! 0 = Some address → pcs_args stop !! 1 = Some size →
    address ≠ 0%N → (CLONE_ARGS_SIZE_VER0 <= size)%N → (address + 8 <= usize_MAX)%N →
    length bytes = 8 → mem_matches mem address bytes → requested mem stop (u64_from_ne_bytes bytes).

(** ** Lemmas *)

Section proofs.
  Context {PF K : Type} `{ProcFileSpace PF} `{Ptrace K} `{ProcessMemory K}.
  Implicit Types s : Supervisor PF * K.

Lemma logged_vm_law mem p : vm_law (K:=K) mem p → vm_law (K:=K * list call) mem p.
Proof.
  intros Hlaw remote len [k l]. specialize (Hlaw remote len k). simpl.
  by destruct (process_vm_readv p remote len k) as [[[? ?] ?] ?].
Qed.

(** Reading memory is not logged. *)
Lemma logged_reads p remote len (s : K * list call) :
  s.2 = [] → (process_vm_readv p remote len s).2.2 = [].
Proof. simpl. by destruct (process_vm_readv p remote len s.1) as [r k]. Qed.

Lemma post_kernel {E A} (m : eff K E A) s Φ :
  eff_post m s.2 (λ r k', Φ r (s.1, k')) → eff_post (with_kernel (PF:=PF) m) s Φ.
Proof. unfold eff_post, with_kernel, eff_zoom. by destruct (m s.2) as [r k']. Qed.

Lemma post_with_kernel {E A} (m : eff K E A) s Φ :
  (∀ r k', (m s.2).1 = r → Φ r (s.1, k')) → eff_post (with_kernel (PF:=PF) m) s Φ.
Proof. intros HΦ. unfold eff_post, with_kernel, eff_zoom. destruct (m s.2) as [r k']. by apply HΦ. Qed.

Lemma same_table_refl (s : Supervisor PF) : same_table s s.
Proof. done. Qed.

Lemma post_register pid files s (Φ : exec RunnerError () → Supervisor PF * K → Prop) :
  (sv_procs s.1 !! pid = None → Φ (Ret ()) (set_procs (<[pid := files]> (sv_procs s.1)) s.1, s.2)) →
  (is_Some (sv_procs s.1 !! pid) → Φ (Throw (Fault (ProcessAlreadyTracked pid))) s) →
  eff_post (register_process pid files) s Φ.
Proof. intros Hnew Hold. unfold eff_post, register_process. destruct (sv_procs s.1 !! pid); eauto. Qed.

Lemma post_get pid s (Φ : exec RunnerError PF → Supervisor PF * K → Prop) :
  (∀ files, sv_procs s.1 !! pid = Some files → Φ (Ret files) s) →
  (sv_procs s.1 !! pid = None → Φ (Throw (Fault (ProcessNotTracked pid))) s) →
  eff_post (get_process pid) s Φ.
Proof. intros Hsome Hnone. unfold eff_post, get_process. destruct (sv_procs s.1 !! pid); eauto. Qed.

Lemma flags_table stop s :
  eff_post (process_creation_flags stop) s (λ _ s', same_table s.1 s'.1).
Proof.
  unfold process_creation_flags. case_decide; [by apply post_ret|].
  apply post_bind, post_lift. unfold vget. destruct (pcs_args stop !! 0) as [arg0|]; [simpl|done].
  case_decide; [by apply post_ret|]. case_decide; [by apply post_throw|].
  apply post_bind, post_lift. unfold vget. destruct (pcs_args stop !! 1) as [arg1|]; [simpl|done].
  case_decide; [by apply post_ret|]. apply post_bind. unfold eff_post, eff_try, with_buffer, eff_zoom.
  destruct (copy_from_process_bytes _ _ _ _) as [[bytes|e| |] b]; [|destruct e|..]; try done.
  simpl. by case_decide.
Qed.

(** Reading the flags reads memory only. *)
Lemma flags_steady stop (I : K → Prop) :
  (∀ remote len k, I k → I (process_vm_readv (pcs_parent stop) remote len k).2) →
  steady (λ s : Supervisor PF * K, I s.2) (process_creation_flags stop).
Proof.
  intros HI. unfold process_creation_flags. case_decide; [auto with steady|].
  apply steady_bind; [auto with steady|]. intros arg0. do 2 (case_decide; [auto with steady|]).
  apply steady_bind; [auto with steady|]. intros arg1. case_decide; [auto with steady|].
  apply steady_bind; [|intros [[]|]; [auto with steady..|]; case_decide; intros ? ?; done].
  apply steady_try, (steady_zoom _ _ _ _ (λ b : PageBuffer * K, I b.2)); [done|done|].
  by apply copy_bytes_steady.
Qed.

Lemma reject_table fuel stop error s :
  eff_post (reject fuel stop error) s (λ r s', same_table s.1 s'.1 ∧ ∀ o, r = Ret o → o = PRejected error).
Proof.
  unfold reject. apply post_bind, post_with_kernel. intros [[]|e| |] k' _; try done.
  simpl. apply post_ret. split; [done|]. by intros o [= <-].
Qed.

(** The outcome of reading the flags, with [mem] the memory of the caller. *)
Definition flags_outcome (mem : memory) (stop : ProcessCreationStop) (r : exec RunnerError ProcessCreationFlags) : Prop :=
  match r with
  | Ret (Flags flags) => requested mem stop flags
  | Ret (Invalid error) =>
      pcs_syscall stop = SYS_clone3 ∧ ∃ address size,
        pcs_args stop !! 0 = Some address ∧ pcs_args stop !! 1 = Some size ∧
        (error = EINVAL ∧ (address = 0 ∨ size < CLONE_ARGS_SIZE_VER0)%N ∨ bad_range mem address 0 8)
  | Throw error =>
      error = Fault (UnexpectedSyscall (pcs_syscall stop)) ∧
        pcs_syscall stop ∉ [SYS_fork; SYS_vfork; SYS_clone; SYS_clone3] ∨
      pcs_syscall stop = SYS_clone3 ∧ ∃ address, pcs_args stop !! 0 = Some address ∧ bad_range mem address 0 8
  | _ => False
  end.

Lemma flags_spec mem stop old s :
  vm_law mem (pcs_parent stop) → length (pcs_args stop) = 6 → buf_holds old (sv_buffer s.1) →
  eff_post (process_creation_flags stop) s (λ r s',
    (∃ b, buf_holds b (sv_buffer s'.1)) ∧ flags_outcome mem stop r).
Proof.
  intros Hlaw Hargs Hb. unfold process_creation_flags.
  destruct (lookup_lt_is_Some_2 (pcs_args stop) 0) as [arg0 Harg0]; [lia|].
  destruct (lookup_lt_is_Some_2 (pcs_args stop) 1) as [arg1 Harg1]; [lia|].
  case_decide as Hfork; [apply post_ret; split; [by eexists|by apply requested_fork]|].
  apply post_bind, post_lift. unfold vget. rewrite Harg0. simpl.
  case_decide as Hclone; [apply post_ret; split; [by eexists|by apply requested_clone]|].
  case_decide as Hclone3.
  { apply post_throw. split; [by eexists|]. left. split; [done|]. set_solver. }
  apply post_bind, post_lift. unfold vget. rewrite Harg1. simpl.
  case_decide as Hbad.
  { apply post_ret. split; [by eexists|]. split; [done|]. exists arg0, arg1. naive_solver. }
  apply post_bind. unfold eff_post, eff_try, with_buffer, eff_zoom.
  pose proof (copy_bytes_spec mem (pcs_parent stop) arg0 Hlaw old 8 (sv_buffer s.1) s.2 Hb) as Hcopy.
  destruct (copy_from_process_bytes _ _ _ _) as [r [b k']].
  destruct Hcopy as [(bytes & -> & Hlen & Hspace & Hm & Hholds)|(e & -> & Hrange & Hholds)]; simpl.
  - rewrite decide_True by done. apply post_ret. split; [by exists bytes|].
    apply (requested_clone3 mem stop arg0 arg1); [done..|lia|lia| |done|done].
    destruct Hspace as [|Hspace]; [done|]. lia.
  - destruct e; (split; [by eexists|]); simpl; eauto 10.
Qed.

Lemma requested_det mem stop f f' : requested mem stop f → requested mem stop f' → f = f'.
Proof.
  assert (Hle : ∀ a bytes bytes', length bytes = 8 → length bytes' = 8 →
    mem_matches mem a bytes → mem_matches mem a bytes' → bytes = bytes').
  { intros a bytes bytes' Hl Hl' Hm Hm'. apply list_eq_same_length with 8; [done..|].
    intros i x y _ Hx Hy. apply Hm in Hx. apply Hm' in Hy. congruence. }
  unfold SYS_fork, SYS_vfork, SYS_clone, SYS_clone3.
  intros [Hs|f1 Hs H1'|a size bytes Hs Ha _ _ _ _ Hl Hm] [Hs'|f2 Hs' H2'|a' size' bytes' Hs' Ha' _ _ _ _ Hl' Hm'];
    try destruct Hs as [Hs|Hs]; try destruct Hs' as [Hs'|Hs']; try done;
    try (rewrite Hs in Hs'; discriminate Hs'); [congruence|].
  simplify_eq. f_equal. by eapply Hle.
Qed.

(** Requested flags are read. *)
Lemma requested_mapped mem stop f a :
  requested mem stop f → pcs_syscall stop = SYS_clone3 → pcs_args stop !! 0 = Some a → ¬ bad_range mem a 0 8.
Proof.
  unfold SYS_clone3. intros Hreq Hs Ha Hbad.
  destruct Hreq as [[Hs'|Hs']|f Hs' _|a' size' bytes _ Ha' Hsize' Hnz Hver Hspace Hl Hm];
    try (rewrite Hs in Hs'; discriminate Hs').
  simplify_eq. destruct Hbad as [Hover|(i & Hi & Hun)]; [lia|].
  destruct (lookup_lt_is_Some_2 bytes i) as [c Hc]; [lia|]. apply Hm in Hc.
  rewrite N.add_0_r in Hun. congruence.
Qed.

Lemma requested_read mem stop f r : requested mem stop f → flags_outcome mem stop r → r = Ret (Flags f).
Proof.
  intros Hreq Hr. destruct r as [[flags|error]|e| |]; simpl in Hr; try done.
  - by rewrite (requested_det _ _ _ _ Hr Hreq).
  - destruct Hr as (Hs & a & size & Ha & Hsize & [[_ Hsmall]|Hbad]); [|by destruct (requested_mapped _ _ _ _ Hreq Hs Ha)].
    exfalso. unfold SYS_clone3 in Hs. destruct Hreq as [[Hs'|Hs']|? Hs' _|]; try (rewrite Hs in Hs'; discriminate Hs').
    simplify_eq. destruct Hsmall; [done|lia].
  - exfalso. destruct Hr as [[_ Hs]|(Hs & a & Ha & Hbad)]; [|by eapply requested_mapped].
    apply Hs. destruct Hreq as [[Hs'|Hs']|? Hs' _|? ? ? Hs']; rewrite Hs'; set_solver.
Qed.

End proofs.

(** The table after an outcome of a creation by [parent]. *)
Definition outcome_table {PF} (parent : Z) (r : exec RunnerError ProcessCreationOutcome) (s s' : Supervisor PF)
    (l : list call) : Prop :=
  match r with
  | Ret (PCreated child) => inherits parent child s s' ∧ kernel_made parent child l
  | Ret _ => same_table s s' ∧ is_Some (sv_procs s !! parent)
  | _ => same_table s s' ∨ ∃ child, inherits parent child s s' ∧ kernel_made parent child l
  end.

Section outcomes.
  Context {PF K : Type} `{ProcFileSpace PF} `{Ptrace K} `{ProcessMemory K}.
  Implicit Types s : Supervisor PF * (K * list call).

Lemma outcome_table_same parent r l s s1 s2 :
  same_table s.1 s1.1 → outcome_table parent r s1.1 s2.1 l → outcome_table parent r s.1 s2.1 l.
Proof. intros [Hp Hs]. unfold outcome_table, inherits, same_table. by rewrite Hp, Hs. Qed.

Lemma handle_stop_table fuel stop s :
  eff_post (handle_process_creation_stop fuel stop) s (λ r s', outcome_table (pcs_parent stop) r s.1 s'.1 s'.2.2).
Proof.
  unfold handle_process_creation_stop. set (parent := pcs_parent stop).
  apply post_bind, post_get; [|by left]. intros files Hfiles. simpl.
  apply post_bind. eapply post_mono; [apply flags_table|]. intros [flags|e| |] s1 Hs1; [simpl|by left..].
  assert (Hparent : is_Some (sv_procs s.1 !! parent)) by (by eexists).
  assert (Hreject : ∀ error, eff_post (reject fuel stop error) s1 (λ r s', outcome_table parent r s.1 s'.1 s'.2.2)).
  { intros error. eapply post_mono; [apply reject_table|]. intros r s2 [Hs2 Hr].
    apply (outcome_table_same _ _ _ s s1); [done|]. destruct r as [o|e| |]; [|by left..].
    rewrite (Hr o) by done. split; [done|]. by rewrite (proj1 Hs1). }
  destruct flags as [flags|error]; [|apply Hreject]. case_decide; [apply Hreject|].
  apply post_bind, post_get; [|by left]. intros ? _. simpl.
  apply post_bind, post_kernel. destruct s1 as [s1 [k1 l1]]. simpl in *.
  eapply post_mono; [apply continue_to_fork_made|].
  intros [[made|error]|e| |] [k' l'] Hmade; simpl; [|by split|by left..].
  destruct (Hmade made eq_refl) as [_ Hkernel]. simpl in Hkernel. clear Hmade.
  apply post_bind. unfold eff_post, eff_try, register_process. simpl.
  destruct (sv_procs s1 !! fs_child made) as [old|] eqn:Hchild; simpl.
  - apply post_bind. unfold eff_post, eff_try, with_kernel, eff_zoom. simpl.
    destruct (resume_fork made (k', l')) as [[] k'']; by left.
  - assert (Hin : inherits parent (fs_child made) s.1 (set_procs (<[fs_child made := files]> (sv_procs s1)) s1)).
    { destruct Hs1 as [Hp Hs]. split; [done|]. exists files. rewrite Hp in *. done. }
    apply post_bind, post_kernel. simpl.
    apply (steady_post (λ s : K * list call, kernel_made parent (fs_child made) s.2)); [|done|].
    + apply steady_map_err, (resume_fork_keeps (kernel_made parent (fs_child made))).
      intros l c. apply kernel_made_app.
    + intros [[]|e| |] s2 Hs2; simpl; [done|by right; eexists..].
Qed.

Lemma outcome_refines parent r l (s s' : Supervisor PF) :
  outcome_table parent r s s' l → creation_refines parent (Some <$> ret_value r) s s' l.
Proof.
  assert (Hfork : ∀ child, inherits parent child s s' →
    sv_sched s' = sv_sched s ∧ table_step (ForkProcess parent child) (sv_procs s) (sv_procs s')).
  { intros child (Hs & files & Hp & Hc & Heq). split; [done|]. rewrite Heq. by apply table_fork. }
  unfold creation_refines, same_table.
  destruct r as [[child|error|error]|e| |]; simpl.
  - intros [[Hs Hstep]%Hfork Hm]. done.
  - by intros [[? ?] _].
  - by intros [[? ?] _].
  - intros [[? ?]|(child & [Hs Hstep]%Hfork & Hm)]; [by split; [|left]|split; [done|right; by exists child]].
  - intros [[? ?]|(child & [Hs Hstep]%Hfork & Hm)]; [by split; [|left]|split; [done|right; by exists child]].
  - intros [[? ?]|(child & [Hs Hstep]%Hfork & Hm)]; [by split; [|left]|split; [done|right; by exists child]].
Qed.

Lemma handle_stop_refines fuel stop s :
  eff_post (handle_process_creation_stop fuel stop) s
    (λ r s', creation_refines (pcs_parent stop) (Some <$> ret_value r) s.1 s'.1 s'.2.2).
Proof. eapply post_mono; [apply handle_stop_table|]. intros r s'. apply outcome_refines. Qed.

Lemma handle_creation_refines fuel pid s :
  eff_post (handle_process_creation fuel pid) s
    (λ r s', creation_refines pid (Some <$> ret_value r) s.1 s'.1 s'.2.2).
Proof.
  unfold eff_post, handle_process_creation. simpl. destruct (contains_process pid s.1); [|by split; [|left]].
  apply (post_bind (with_kernel _) (handle_process_creation_stop fuel)). apply post_kernel.
  eapply post_mono; [apply wait_for_creation_parent|].
  intros [stop|e| |] k' Hstop; [|by split; [|left]..]. rewrite <-(Hstop stop eq_refl).
  apply (handle_stop_refines fuel stop (s.1, k')).
Qed.

Lemma try_handle_creation_refines fuel pid s :
  eff_post (try_handle_process_creation fuel pid) s
    (λ r s', creation_refines pid (ret_value r) s.1 s'.1 s'.2.2).
Proof.
  unfold eff_post, try_handle_process_creation. simpl. destruct (contains_process pid s.1); [|by split; [|left]].
  apply post_bind, post_kernel. eapply post_mono; [apply try_wait_for_creation_parent|].
  intros [[stop|]|e| |] k' Hstop; simpl; [|by split|by split; [|left]..].
  rewrite <-(Hstop stop eq_refl). apply post_bind.
  eapply post_mono; [apply (handle_stop_refines fuel stop (s.1, k'))|]. by intros [] s'.
Qed.

(** Shared tables: the call is skipped, and fails. *)
Lemma reject_logged fuel stop error (s : Supervisor PF) (k : K) :
  (i32_MIN <= error <= i32_MAX)%Z →
  eff_post (reject fuel stop error) (s, (k, [])) (λ r s', skips_first (pcs_parent stop) s'.2.2 ∧
    ∀ o, r = Ret o → o = PRejected error ∧ rejected (pcs_parent stop) error s'.2.2).
Proof.
  intros Herror. unfold reject. apply post_bind, post_kernel.
  pose proof (reject_spec fuel stop error k Herror) as Hspec.
  pose proof (reject_skips fuel stop error k) as Hskip. unfold eff_post in *. simpl.
  destruct (reject_process_creation fuel stop error (k, [])) as [[[]|e| |] [k' l]]; simpl; try by split.
  split; [done|]. intros o [= <-]. split; [done|]. by apply Hspec.
Qed.

End outcomes.

(** ** Properties *)

Section properties.
  Context {PF K : Type} `{ProcFileSpace PF} `{Ptrace K} `{ProcessMemory K}.

(** C16: a process enters the table only when the kernel created it, and starts
    with the files its parent had: whatever the kernel answers, a creation that
    is reported adds exactly the child of the fork event, which was seen to stop
    and which the system call of the parent returned; one that failed or was
    rejected changes nothing; and on an error at most such a child was added. *)
Theorem process_creation_table fuel stop (s : Supervisor PF) (k : K) :
  let parent := pcs_parent stop in
  let '(r, (s', (_, l))) := handle_process_creation_stop fuel stop (s, (k, [])) in
  outcome_table parent r s s' l ∧
  ∀ child, r = Ret (PCreated child) → ∀ pid fd,
    sv_lookup_fd pid fd s' = sv_lookup_fd (if decide (pid = child) then parent else pid) fd s.
Proof.
  intros parent. pose proof (handle_stop_table fuel stop (s, (k, []))) as Hpost. unfold eff_post in Hpost.
  destruct (handle_process_creation_stop fuel stop (s, (k, []))) as [r [s' [k' l]]]. simpl in Hpost.
  split; [done|]. intros child -> pid fd. destruct Hpost as [(_ & files & Hfiles & Hnew & Hprocs) _].
  unfold sv_lookup_fd. rewrite Hprocs. case_decide as Hpid.
  - subst pid. rewrite lookup_insert_eq. unfold parent. by rewrite Hfiles.
  - by rewrite lookup_insert_ne.
Qed.

(** C11: the operations on processes implement the table, whatever the kernel
    answers.  Registering makes the step that registers the process with these
    files, without asking the kernel, or refuses one that is tracked.  Handling
    a creation makes the step that forks the process exactly for the child that
    the kernel made and that is reported, and on an error at most that of such
    a child; a process that is not tracked is refused without asking the
    kernel.  Reaping makes the step that reaps the process that the kernel
    reported.  Nothing else changes the table, and nothing touches the
    scheduling state. *)
Theorem process_table_refines fuel pid files (s : Supervisor PF) (k : K) :
  (let '(r, (s', (_, l))) := register_process pid files (s, (k, [] : list call)) in
   sv_sched s' = sv_sched s ∧ l = [] ∧
   match r with
   | Ret _ => table_step (RegisterProcess pid files) (sv_procs s) (sv_procs s')
   | Throw e => e = Fault (ProcessAlreadyTracked pid) ∧ is_Some (sv_procs s !! pid) ∧ sv_procs s' = sv_procs s
   | _ => False
   end) ∧
  (let '(r, (s', (_, l))) := handle_process_creation fuel pid (s, (k, [])) in
   creation_refines pid (Some <$> ret_value r) s s' l) ∧
  (let '(r, (s', (_, l))) := try_handle_process_creation fuel pid (s, (k, [])) in
   creation_refines pid (ret_value r) s s' l) ∧
  (contains_process pid s = false →
     handle_process_creation fuel pid (s, k) = (Throw (Fault (ProcessNotTracked pid)), (s, k)) ∧
     try_handle_process_creation fuel pid (s, k) = (Throw (Fault (ProcessNotTracked pid)), (s, k))) ∧
  (let '(r, (s', (_, l))) := sv_reap_exited fuel (s, (k, [])) in
   sv_sched s' = sv_sched s ∧
   match ret_value r with
   | Some (Some reaped) => kernel_reaped reaped l ∧ table_step (ReapProcess reaped) (sv_procs s) (sv_procs s')
   | _ => sv_procs s' = sv_procs s
   end).
Proof.
  split_and!.
  - unfold register_process. simpl. destruct (sv_procs s !! pid) eqn:Hpid; simpl; [by split_and!; eauto|].
    split_and!; [done..|]. by apply table_register.
  - pose proof (handle_creation_refines fuel pid (s, (k, []))) as Hpost. unfold eff_post in Hpost.
    by destruct (handle_process_creation fuel pid (s, (k, []))) as [r [s' [k' l]]].
  - pose proof (try_handle_creation_refines fuel pid (s, (k, []))) as Hpost. unfold eff_post in Hpost.
    by destruct (try_handle_process_creation fuel pid (s, (k, []))) as [r [s' [k' l]]].
  - intros Hun. unfold handle_process_creation, try_handle_process_creation. simpl. by rewrite Hun.
  - pose proof (reap_exited_log fuel k []) as Hlog. unfold eff_post in Hlog.
    unfold sv_reap_exited, mbind, eff_bind, with_kernel, eff_zoom. simpl.
    destruct (reap_exited fuel (k, [])) as [[[reaped|]|e| |] [k' l]]; simpl; try done.
    split; [done|]. split; [by apply Hlog|apply table_reap].
Qed.

(** C21: the flags of a creation are read as the kernel will read them: none for
    [fork] and [vfork], the first argument of [clone], the first field of the
    structure of [clone3], byte by byte from the caller's memory.  A structure
    that is absent, too small or not readable is invalid, any other system
    call is a fault, and the copy never panics. *)
Theorem process_creation_flags_correct mem stop old (s : Supervisor PF) (k : K) :
  vm_law mem (pcs_parent stop) → length (pcs_args stop) = 6 → buf_holds old (sv_buffer s) →
  let '(r, (s', _)) := process_creation_flags stop (s, k) in
  same_table s s' ∧ (∃ b, buf_holds b (sv_buffer s')) ∧ flags_outcome mem stop r.
Proof.
  intros Hlaw Hargs Hb. pose proof (flags_table stop (s, k)) as Htable.
  pose proof (flags_spec mem stop old (s, k) Hlaw Hargs Hb) as Hpost. unfold eff_post in *.
  by destruct (process_creation_flags stop (s, k)) as [r [s' k']].
Qed.

(** C20: a creation that would share the file table is never let through: the
    process does not run on before the number of its system call was replaced
    by -1, the supervisor tracks nothing, and what it reports is a rejection
    with [ENOTSUP], after which the process has read that error as the result
    of its call and runs on; or it reports an error of the kernel. *)
Theorem shared_tables_rejected fuel mem stop flags old (s : Supervisor PF) (k : K) :
  vm_law (K:=K) mem (pcs_parent stop) → length (pcs_args stop) = 6 → buf_holds old (sv_buffer s) →
  requested mem stop flags → N.land flags CLONE_FILES ≠ 0%N →
  let '(r, (s', (_, l))) := handle_process_creation_stop fuel stop (s, (k, [])) in
  same_table s s' ∧ skips_first (pcs_parent stop) l ∧
  ∀ outcome, r = Ret outcome → outcome = PRejected ENOTSUP ∧ rejected (pcs_parent stop) ENOTSUP l.
Proof.
  intros Hlaw%logged_vm_law Hargs Hb Hreq Hshared.
  assert (Hnil : skips_first (pcs_parent stop) []) by (intros i c Hc; by rewrite lookup_nil in Hc).
  assert (Hpost : eff_post (handle_process_creation_stop fuel stop) (s, (k, [])) (λ r s',
    same_table s s'.1 ∧ skips_first (pcs_parent stop) s'.2.2 ∧
    ∀ outcome, r = Ret outcome → outcome = PRejected ENOTSUP ∧ rejected (pcs_parent stop) ENOTSUP s'.2.2)).
  { unfold handle_process_creation_stop. apply post_bind, post_get; [|done]. intros files _. simpl.
    apply post_bind. pose proof (flags_table stop (s, (k, [] : list call))) as Htable.
    pose proof (flags_spec mem stop old (s, (k, [])) Hlaw Hargs Hb) as Hflags.
    pose proof (flags_steady (PF:=PF) stop (λ k' : K * list call, k'.2 = []) ltac:(intros; by apply logged_reads)
      (s, (k, [])) eq_refl) as Hlog.
    unfold eff_post in Htable, Hflags |- *. destruct (process_creation_flags stop (s, (k, []))) as [r [s1 [k1 l1]]].
    simpl in Hlog. subst l1. destruct Hflags as [_ Hflags].
    rewrite (requested_read _ _ _ _ Hreq Hflags). simpl. rewrite decide_True by done.
    pose proof (reject_table fuel stop ENOTSUP (s1, (k1, [] : list call))) as Hsame.
    pose proof (reject_logged fuel stop ENOTSUP s1 k1 ltac:(unfold ENOTSUP, i32_MIN, i32_MAX; lia)) as Hrej.
    unfold eff_post in *. destruct (reject fuel stop ENOTSUP (s1, (k1, []))) as [r' [s2 k2]].
    destruct Hsame as [[Hp Hs] _], Htable as [Hp1 Hs1]. split; [split; simpl in *; congruence|done]. }
  unfold eff_post in Hpost. by destruct (handle_process_creation_stop fuel stop (s, (k, []))) as [r [s' [k' l]]].
Qed.

End properties.

(** ** Samples *)

(** The kernel of [Tracee], which also lets [sample_memory] be read. *)
#[local] Instance tracee : Ptrace Tracee := tracee_kernel false.
#[local] Instance tracee_memory : ProcessMemory Tracee := {|
  process_vm_readv pid remote len k := ((process_vm_readv (ProcessMemory:=process_reader sample_memory 3) pid remote len ()).1, k);
|}.

Lemma tracee_memory_law pid : vm_law sample_memory pid.
Proof.
  intros remote len k. pose proof (process_reader_law sample_memory 3 pid ltac:(lia) remote len ()) as Hlaw.
  simpl in *. by case_decide.
Qed.

(** Process 7, with a mock descriptor, and its system calls. *)
Definition sample_files : MappedFileSpace := mapped_insert 3 (Mock {| mock_id := 1 |}) mapped_new.
Definition sample_supervisor : Supervisor MappedFileSpace :=
  {| sv_buffer := buf_new; sv_procs := {[7%Z := sample_files]}; sv_sched := sample_s0 |}.
Definition clone_stop (flags : N) : ProcessCreationStop :=
  {| pcs_parent := 7; pcs_syscall := SYS_clone; pcs_args := [flags; 0; 0; 0; 0; 0]%N |}.
Definition clone3_stop (address size : N) : ProcessCreationStop :=
  {| pcs_parent := 7; pcs_syscall := SYS_clone3; pcs_args := [address; size; 0; 0; 0; 0]%N |}.

(** The structure at 8176 begins with eight bytes ['a']. *)
Lemma process_creation_flags_correct_witness :
  let '(r, (s', _)) := process_creation_flags (clone3_stop 8176 64) (sample_supervisor, sample_fork) in
  same_table sample_supervisor s' ∧ (∃ b, buf_holds b (sv_buffer s')) ∧
  flags_outcome sample_memory (clone3_stop 8176 64) r.
Proof.
  apply (process_creation_flags_correct sample_memory (clone3_stop 8176 64) []).
  - apply tracee_memory_law.
  - reflexivity.
  - apply buf_new_holds.
Defined.

Lemma shared_tables_rejected_witness :
  let '(r, (s', (_, l))) := handle_process_creation_stop 9 (clone_stop 1024)
    (sample_supervisor, ({| tr_stops := [SYSCALL_STOP]; tr_child_stops := []; tr_rax := 0 |}, [])) in
  r = Ret (PRejected ENOTSUP) ∧ same_table sample_supervisor s' ∧ rejected 7 ENOTSUP l.
Proof.
  pose proof (shared_tables_rejected 9 sample_memory (clone_stop 1024) 1024 [] sample_supervisor
    {| tr_stops := [SYSCALL_STOP]; tr_child_stops := []; tr_rax := 0 |} (tracee_memory_law 7) eq_refl
    buf_new_holds (requested_clone sample_memory (clone_stop 1024) 1024 eq_refl eq_refl) ltac:(discriminate)) as Hpost.
  destruct (handle_process_creation_stop 9 (clone_stop 1024) _) as [r [s' [k' l]]] eqn:Heq.
  destruct Hpost as (Hsame & _ & Hret).
  assert (Hr : (handle_process_creation_stop 9 (clone_stop 1024)
    (sample_supervisor, ({| tr_stops := [SYSCALL_STOP]; tr_child_stops := []; tr_rax := 0 |}, []))).1 = Ret (PRejected ENOTSUP))
    by (vm_compute; reflexivity).
  rewrite Heq in Hr. simpl in Hr. split; [exact Hr|]. split; [exact Hsame|]. exact (proj2 (Hret _ Hr)).
Defined.
