(* ===== verification/Supervision.v ===== *)
(** * Supervising a running target ([src/src/runner/supervisor.rs],
    test_support.rs, ptrace.rs)

    The loop that waits for the next process creation of a target while it
    answers the target's notifications, and the creation handled after it.
    What the kernel does with a target under seccomp and ptrace is a state
    machine on views; a kernel that shows views follows it.  The theorems put
    listener, ptrace and process table together. *)

From S2P Require Import Prelude Effects Index Graph Model Tracker Policy Fd Buffer Request Scheduler Ptrace Processes.

(** ** The loop *)

(** [poll] on one descriptor, and [kill]. *)
Class Poll (K : Type) := {
  sys_poll : Z → Z → K → (Z * Z) * K;
  sys_kill : Z → Z → K → Z * K;
}.

Definition SIGKILL : Z := 9.

(** [Result::expect]. *)
Definition eff_expect {K E E' A} (m : eff K E A) : eff K E' A := λ k,
  match m k with
  | (Ret a, k) => (Ret a, k)
  | (NoFuel, k) => (NoFuel, k)
  | (_, k) => (Panic, k)
  end.

(** The descriptor of the tracker, and the process of the guard. *)
Record SpawnedTarget := { st_tracker : Z; st_guard : Z }.

Definition st_pid (target : SpawnedTarget) : Z := st_guard target.

Section loops.
  Context {K E : Type} `{Ptrace K} `{Listener K} `{Poll K}.

(** [libc::poll] on the listener for at most ten milliseconds: the number of
    descriptors that are ready. *)
Definition poll_listener (target : SpawnedTarget) : eff K E Z := λ k,
  let '((ready, _), k) := sys_poll (st_tracker target) 10 k in (Ret ready, k).

(** Answering what the listener has. *)
Definition continue_next (fuel : nat) : eff K E () :=
  req ← eff_expect (recv fuel);
  eff_expect (continue_syscall req).

Fixpoint next_creation_stop (fuel : nat) (target : SpawnedTarget) : eff K E ProcessCreationStop :=
  match fuel with
  | 0 => eff_lift NoFuel
  | S fuel' =>
      stop ← eff_expect (try_wait_for_process_creation fuel (st_pid target));
      match stop with
      | Some stop => mret stop
      | None =>
          ready ← poll_listener target;
          _ ← eff_lift (check (bool_decide (0 <= ready)%Z));
          if decide (0 < ready)%Z then
            _ ← continue_next fuel;
            next_creation_stop fuel' target
          else next_creation_stop fuel' target
      end
  end.

(** [ChildGuard::drop]: [kill], then [waitpid] without flags until it answers. *)
Fixpoint reap_guarded (fuel : nat) (pid : Z) : eff K E () := λ k,
  match fuel with
  | 0 => (NoFuel, k)
  | S fuel =>
      match sys_waitpid pid 0 k with
      | None => (NoFuel, k)
      | Some (r, k) =>
          if decide (wt_result r = pid ∨ (wt_result r < 0 ∧ wt_errno r ≠ EINTR)%Z) then (Ret (), k)
          else reap_guarded fuel pid k
      end
  end.

Definition child_guard_drop (fuel : nat) (pid : Z) : eff K E () := λ k,
  let '(_, k) := sys_kill pid SIGKILL k in reap_guarded fuel pid k.

End loops.

Section supervised.
  Context {PF K E : Type} `{ProcFileSpace PF} `{Ptrace K} `{Listener K} `{Poll K} `{ProcessMemory K}.

Definition handle_next_creation (fuel : nat) (target : SpawnedTarget)
    : eff (Supervisor PF * K) E ProcessCreationOutcome :=
  stop ← with_kernel (next_creation_stop fuel target);
  eff_expect (handle_process_creation_stop fuel stop).

End supervised.

(** ** What the kernel does with a target

    A view of the target: where it is, what it will do, and what has been done
    to it.  The answers are those that seccomp(2), seccomp_unotify(2) and
    ptrace(2) document; [None] leaves an answer open. *)

(** What a process-creation call does: a child after the event, or an error. *)
Inductive creation := Forks (event child : Z) | Refuses (error : Z).

(** What the target does next: nothing for a while, [Quiet]; a wait for it is
    interrupted; a call that notifies, which the listener gets after some
    interruptions; a stop that is not a creation; a creation, whose call does
    what [made] says of its registers, after signals that stop it. *)
Inductive report :=
| Quiet
| Interrupts
| Notifies (interruptions : nat) (req : seccomp_notif)
| Stops (status : Z)
| Creates (regs : user_regs) (signals : list Z) (made : user_regs → creation).

(** Where it is: running, or blocked in a call; in a call that was received;
    in a stop that was reported; before a creation call; in the call; in a stop
    within it; at the fork event, and whether the child was seen to stop; past
    the event; and at the end of the call, with the child and whether the child
    was resumed. *)
Inductive place :=
| Running
| Received (req : seccomp_notif)
| Halted (status : Z)
| AtCreation (regs : user_regs) (signals : list Z) (made : user_regs → creation)
| Inside (regs : user_regs) (signals : list Z) (does : creation)
| InsideHalted (regs : user_regs) (status : Z) (signals : list Z) (does : creation)
| AtFork (regs : user_regs) (child : Z) (seen : bool)
| PastFork (regs : user_regs) (child : Z)
| Returned (regs : user_regs) (child : option Z) (resumed : bool).

(** The answers to notifications, the values creation calls returned, and the
    children that run. *)
Record view := {
  v_place : place;
  v_future : list report;
  v_answers : list seccomp_notif_resp;
  v_results : list Z;
  v_children : list Z;
}.

Definition at_place (p : place) (v : view) : view :=
  {| v_place := p; v_future := v_future v; v_answers := v_answers v;
     v_results := v_results v; v_children := v_children v |}.
Definition moved (p : place) (f : list report) (v : view) : view :=
  {| v_place := p; v_future := f; v_answers := v_answers v;
     v_results := v_results v; v_children := v_children v |}.

(** [SIGTRAP] with an event, and with the mark of a system call. *)
Definition event_stop (event : Z) : Z := (event * 65536 + 1407)%Z.
Definition SYSCALL_EXIT : Z := 34175.
Definition NEW_CHILD : Z := 8390015.
Definition ENOSYS : Z := 38.

Definition waited (pid status : Z) : wait_reply := {| wt_result := pid; wt_errno := 0; wt_status := status |}.

(** What the call does: number -1 is no system call. *)
Definition call_does (regs : user_regs) (made : user_regs → creation) : creation :=
  if decide (as_i64 (orig_rax regs) = -1)%Z then Refuses ENOSYS else made regs.

Section answers.
  Context (pid : Z).

(** A running target.  A wait that may block passes over the quiet times. *)
Fixpoint running_wait (blocks : bool) (v : view) (f : list report) : option (option (wait_reply * view)) :=
  match f with
  | [] => None
  | Quiet :: f' => if blocks then running_wait blocks v f' else Some (Some (waited 0 0, moved Running f v))
  | Interrupts :: f' =>
      Some (Some ({| wt_result := -1; wt_errno := EINTR; wt_status := 0 |}, moved Running f' v))
  | Notifies _ _ :: _ => Some (if blocks then None else Some (waited 0 0, moved Running f v))
  | Stops status :: f' => Some (Some (waited pid status, moved (Halted status) f' v))
  | Creates regs signals made :: f' =>
      Some (Some (waited pid (event_stop PTRACE_EVENT_SECCOMP), moved (AtCreation regs signals made) f' v))
  end.

(** [Some None] is a wait that blocks forever. *)
Definition wait_answer (p options : Z) (v : view) : option (option (wait_reply * view)) :=
  let blocks := bool_decide (Z.land options WNOHANG = 0)%Z in
  let reports status place := Some (Some (waited p status, at_place place v)) in
  match v_place v with
  | Running => if decide (p = pid) then running_wait blocks v (v_future v) else None
  | Inside regs (status :: signals) does =>
      if decide (p = pid) then reports status (InsideHalted regs status signals does) else None
  | Inside regs [] does =>
      if decide (p = pid) then
        match does with
        | Forks event child => reports (event_stop event) (AtFork regs child false)
        | Refuses error => reports SYSCALL_EXIT (Returned (set_rax (as_u64 (- error)) regs) None true)
        end
      else None
  | AtFork regs child false => if decide (p = child) then reports NEW_CHILD (AtFork regs child true) else None
  | PastFork regs child =>
      if decide (p = pid) then reports SYSCALL_EXIT (Returned (set_rax (as_u64 child) regs) (Some child) false)
      else None
  | _ => None
  end.

(** The registers and the message of a reply that succeeds. *)
Definition trace_answer (request : ptrace_request) (p : Z) (v : view) : option (user_regs * N * view) :=
  let goes place := Some (no_regs, 0%N, at_place place v) in
  let reads regs := Some (regs, 0%N, v) in
  match v_place v, request with
  | Halted status, PTRACE_CONT signal =>
      if decide (p = pid ∧ signal = signal_to_deliver status) then goes Running else None
  | AtCreation regs signals made, PTRACE_GETREGS => if decide (p = pid) then reads regs else None
  | AtCreation _ signals made, PTRACE_SETREGS regs => if decide (p = pid) then goes (AtCreation regs signals made) else None
  | AtCreation regs signals made, PTRACE_SYSCALL 0 =>
      if decide (p = pid) then goes (Inside regs signals (call_does regs made)) else None
  | InsideHalted regs status signals does, PTRACE_SYSCALL signal =>
      if decide (p = pid ∧ signal = signal_to_deliver status) then goes (Inside regs signals does) else None
  | AtFork regs child _, PTRACE_GETEVENTMSG =>
      if decide (p = pid) then Some (no_regs, Z.to_N child, v) else None
  | AtFork regs child true, PTRACE_SYSCALL 0 => if decide (p = pid) then goes (PastFork regs child) else None
  | Returned regs child resumed, PTRACE_GETREGS => if decide (p = pid) then reads regs else None
  | Returned _ child resumed, PTRACE_SETREGS regs => if decide (p = pid) then goes (Returned regs child resumed) else None
  | Returned regs child resumed, PTRACE_CONT 0 =>
      if decide (child = Some p) then goes (Returned regs child true)
      else if decide (p = pid ∧ resumed = true) then
        Some (no_regs, 0%N,
          {| v_place := Running; v_future := v_future v; v_answers := v_answers v;
             v_results := v_results v ++ [as_i64 (rax regs)];
             v_children := v_children v ++ option_list child |})
      else None
  | _, _ => None
  end.

End answers.

(** What [poll] says of the listener. *)
Definition poll_answer (v : view) : option (Z * view) :=
  match v_place v, v_future v with
  | Running, Quiet :: f => Some (0%Z, moved Running f v)
  | Running, Notifies _ _ :: _ => Some (1%Z, v)
  | Running, _ :: _ => Some (0%Z, v)
  | _, _ => None
  end.

(** The request, or [None] for an interruption; a receive blocks as long as the
    target is quiet. *)
Fixpoint running_recv (v : view) (f : list report) : option (option seccomp_notif * view) :=
  match f with
  | Quiet :: f => running_recv v f
  | Notifies (S n) req :: f => Some (None, moved Running (Notifies n req :: f) v)
  | Notifies 0 req :: f => Some (Some req, moved (Received req) f v)
  | _ => None
  end.

Definition recv_answer (v : view) : option (option seccomp_notif * view) :=
  match v_place v with Running => running_recv v (v_future v) | _ => None end.

Definition send_answer (resp : seccomp_notif_resp) (v : view) : option view :=
  match v_place v with
  | Received req =>
      if decide (resp_id resp = notif_id req) then
        Some {| v_place := Running; v_future := v_future v; v_answers := v_answers v ++ [resp];
                v_results := v_results v; v_children := v_children v |}
      else None
  | _ => None
  end.

(** A kernel with the target [pid] under supervision: as long as the calls have
    documented answers, it gives those. *)
Class Supervision (K : Type) `{Ptrace K} `{Listener K} `{Poll K} `{ProcessMemory K} (target : SpawnedTarget) := {
  shows : K → view → Prop;
  shows_wait k v p options a : shows k v → wait_answer (st_pid target) p options v = Some a →
    match a with
    | None => sys_waitpid p options k = None
    | Some (r, v') => ∃ k', sys_waitpid p options k = Some (r, k') ∧ shows k' v'
    end;
  shows_trace k v request p regs msg v' :
    shows k v → trace_answer (st_pid target) request p v = Some (regs, msg, v') →
    ∃ r k', sys_ptrace request p k = (r, k') ∧ (0 <= pt_result r)%Z ∧
      (request = PTRACE_GETREGS → pt_regs r = regs) ∧
      (request = PTRACE_GETEVENTMSG → pt_msg r = msg) ∧ shows k' v';
  shows_poll k v ready v' : shows k v → poll_answer v = Some (ready, v') →
    ∃ errno k', sys_poll (st_tracker target) 10 k = ((ready, errno), k') ∧ shows k' v';
  shows_recv k v a v' : shows k v → recv_answer v = Some (a, v') →
    ∃ rc errno req k', ioctl_recv k = ((rc, errno, req), k') ∧ shows k' v' ∧
      match a with Some req' => rc = 0%Z ∧ req = req' | None => (rc < 0)%Z ∧ errno = EINTR end;
  shows_send k v resp v' : shows k v → send_answer resp v = Some v' →
    ∃ rc errno k', ioctl_send resp k = ((rc, errno), k') ∧ (0 <= rc)%Z ∧ shows k' v';
  shows_memory k v p remote len : shows k v → shows (process_vm_readv p remote len k).2 v;
}.

(** ** Specification *)

(** A turn of the loop for each, and one for each interruption. *)
Definition report_cost (r : report) : nat := match r with Notifies n _ => S n | _ => 1 end.
Definition reports_cost (f : list report) : nat := sum_list_with report_cost f.

(** What may come before a creation. *)
Definition before_creation (r : report) : Prop :=
  match r with
  | Creates _ _ _ => False
  | Stops status => WIFSTOPPED status = true ∧ stop_event status ≠ PTRACE_EVENT_SECCOMP
  | _ => True
  end.

(** The answers that let the notified calls continue. *)
Definition continue_response (req : seccomp_notif) : seccomp_notif_resp :=
  {| resp_id := notif_id req; resp_val := 0; resp_error := 0; resp_flags := SECCOMP_USER_NOTIF_FLAG_CONTINUE |}.
Definition continued (f : list report) : list seccomp_notif_resp :=
  omap (λ r, match r with Notifies _ req => Some (continue_response req) | _ => None end) f.

(** A running view, and one before a creation. *)
Definition running (f : list report) answers results children : view :=
  {| v_place := Running; v_future := f; v_answers := answers; v_results := results; v_children := children |}.

(** The creation that the supervisor sees. *)
Definition stop_at (pid : Z) (regs : user_regs) : ProcessCreationStop :=
  {| pcs_parent := pid; pcs_syscall := as_i64 (orig_rax regs);
     pcs_args := [rdi regs; rsi regs; rdx regs; r10 regs; r8 regs; r9 regs] |}.

(** ** Rules for the calls *)

(** An answer of the state machine at a known place. *)
Ltac answers :=
  cbn [wait_answer trace_answer send_answer at_place moved running v_place];
  rewrite ?decide_False by (done || congruence); by rewrite decide_True.

Lemma waitpid_S {K} `{Ptrace K} fuel pid options (k : K) :
  waitpid (S fuel) pid options k =
    match sys_waitpid pid (Z.lor options WALL) k with
    | None => (NoFuel, k)
    | Some (r, k) =>
        if decide (wt_result r = pid) then (Ret (wt_status r), k)
        else if decide (wt_result r < 0 ∧ wt_errno r = EINTR)%Z then waitpid fuel pid options k
        else (Throw (wt_errno r), k)
    end.
Proof. reflexivity. Qed.

Lemma try_waitpid_S {K} `{Ptrace K} fuel pid (k : K) :
  try_waitpid (S fuel) pid k =
    match sys_waitpid pid (Z.lor WNOHANG WALL) k with
    | None => (NoFuel, k)
    | Some (r, k) =>
        if decide (wt_result r = pid) then (Ret (Some (wt_status r)), k)
        else if decide (wt_result r = 0)%Z then (Ret None, k)
        else if decide (wt_errno r = EINTR) then try_waitpid fuel pid k
        else (Throw (wt_errno r), k)
    end.
Proof. reflexivity. Qed.

Section rules.
  Context {K : Type} `{Supervision K target}.
  Context (Hpid : (0 < st_pid target <= i32_MAX)%Z).
  Abbreviation pid := (st_pid target).

Lemma ewp_wait fuel p v status v' k (P : Z → K → Prop) (Q : Z → K → Prop) :
  shows k v → wait_answer pid p (Z.lor 0 WALL) v = Some (Some (waited p status, v')) → 0 < fuel →
  (∀ k', shows k' v' → P status k') → ewp (waitpid fuel p 0) k P Q.
Proof.
  intros Hk Ha Hfuel HP. destruct fuel as [|fuel]; [lia|].
  destruct (shows_wait (target:=target) k v p _ _ Hk Ha) as (k' & Hcall & Hk').
  unfold ewp. rewrite waitpid_S, Hcall. simpl. rewrite decide_True by done. by apply HP.
Qed.

Lemma ewp_request request p v regs msg v' k (P : ptrace_reply → K → Prop) (Q : Z → K → Prop) :
  shows k v → trace_answer pid request p v = Some (regs, msg, v') →
  (∀ r k', (request = PTRACE_GETREGS → pt_regs r = regs) → (request = PTRACE_GETEVENTMSG → pt_msg r = msg) →
     shows k' v' → P r k') →
  ewp (ptrace request p) k P Q.
Proof.
  intros Hk Ha HP.
  destruct (shows_trace (target:=target) _ _ _ _ _ _ _ Hk Ha) as (r & k' & Hcall & Hr & Hregs & Hmsg & Hk').
  unfold ewp, ptrace. rewrite Hcall. rewrite decide_False by lia. by apply HP.
Qed.

Lemma ewp_resume p signal v regs msg v' k (P : () → K → Prop) (Q : Z → K → Prop) :
  shows k v → trace_answer pid (PTRACE_CONT signal) p v = Some (regs, msg, v') →
  (∀ k', shows k' v' → P () k') → ewp (resume p signal) k P Q.
Proof.
  intros Hk Ha HP. apply ewp_bind. eapply ewp_request; [done..|]. intros r k' _ _ Hk'. by apply ewp_ret, HP.
Qed.

Lemma ewp_try {E E' A} (m : eff K E A) k (P : E + A → K → Prop) (Q : E' → K → Prop) :
  ewp m k (λ a, P (inr a)) (λ e, P (inl e)) → ewp (eff_try m) k P Q.
Proof. unfold ewp, eff_try. by destruct (m k) as [[] k']. Qed.

(** The requests that only act. *)
Lemma ewp_act request p v regs msg v' k (P : () → K → Prop) (Q : RunnerError → K → Prop) :
  shows k v → trace_answer pid request p v = Some (regs, msg, v') →
  (∀ k', shows k' v' → P () k') → ewp (io (_ ← ptrace request p; mret ())) k P Q.
Proof.
  intros Hk Ha HP. apply ewp_map_err, ewp_bind. eapply ewp_request; [done..|].
  intros r k' _ _ Hk'. by apply ewp_ret, HP.
Qed.

Lemma ewp_get_regs p v regs msg v' k (P : user_regs → K → Prop) (Q : RunnerError → K → Prop) :
  shows k v → trace_answer pid PTRACE_GETREGS p v = Some (regs, msg, v') →
  (∀ k', shows k' v' → P regs k') → ewp (io (get_regs p)) k P Q.
Proof.
  intros Hk Ha HP. apply ewp_map_err, ewp_bind. eapply ewp_request; [done..|].
  intros r k' Hr _ Hk'. rewrite (Hr eq_refl). by apply ewp_ret, HP.
Qed.

Lemma ewp_stopped p status k (P : () → K → Prop) Q :
  WIFSTOPPED status = true → P () k → ewp (ensure_stopped p status) k P Q.
Proof. intros Hst HP. unfold ensure_stopped. rewrite Hst. by apply ewp_ret. Qed.

(** ** Waiting for a creation *)

(** Interruptions are retried. *)
Lemma ewp_try_waitpid fuel f ans res ch r v' n k (P : option Z → K → Prop) (Q : Z → K → Prop) :
  shows k (running (replicate n Interrupts ++ f) ans res ch) → n < fuel →
  wait_answer pid pid (Z.lor WNOHANG WALL) (running f ans res ch) = Some (Some (r, v')) →
  (wt_result r = pid ∨ wt_result r = 0%Z) →
  (∀ k', shows k' v' → P (if decide (wt_result r = pid) then Some (wt_status r) else None) k') →
  ewp (try_waitpid fuel pid) k P Q.
Proof.
  revert fuel k. induction n as [|n IH]; intros [|fuel] k Hk Hn Ha Hr HP; try lia.
  - destruct (shows_wait (target:=target) _ _ _ _ _ Hk Ha) as (k' & Hcall & Hk').
    unfold ewp. rewrite try_waitpid_S, Hcall. specialize (HP k' Hk').
    case_decide as Hp; [done|]. by rewrite decide_True by naive_solver.
  - destruct (shows_wait (target:=target) k _ pid (Z.lor WNOHANG WALL) _ Hk
      ltac:(answers)) as (k' & Hcall & Hk').
    unfold ewp. rewrite try_waitpid_S, Hcall. cbn [wt_result wt_errno].
    rewrite !decide_False by lia. rewrite decide_True by done. apply IH; [exact Hk'|lia|done..].
Qed.

Lemma interrupts_split f :
  ∃ n f', f = replicate n Interrupts ++ f' ∧ head f' ≠ Some Interrupts.
Proof.
  induction f as [|r f (n & f' & -> & Hf')]; [by exists 0, []|].
  destruct r; try (by exists 0; eexists). by exists (S n), f'.
Qed.

Lemma continued_interrupts n f : continued (replicate n Interrupts ++ f) = continued f.
Proof. by induction n. Qed.

(** The loops pass over reports that need no answer. *)
Record passed (f f' : list report) : Prop := {
  pa_before : Forall before_creation f → Forall before_creation f';
  pa_cost : reports_cost f' <= reports_cost f;
  pa_answers : continued f' = continued f;
}.

Lemma passed_refl f : passed f f.
Proof. by split. Qed.

Lemma passed_cons r f f' :
  match r with Notifies _ _ => False | _ => True end → passed f f' → passed (r :: f) f'.
Proof.
  intros Hr [Hb Hc Ha]. split.
  - intros [_ Hf]%Forall_cons. by apply Hb.
  - unfold reports_cost in *. simpl. lia.
  - rewrite Ha. by destruct r.
Qed.

Lemma passed_interrupts n f f' : passed f f' → passed (replicate n Interrupts ++ f) f'.
Proof. intros Hf. induction n; [done|]. by apply passed_cons. Qed.

(** Reports that wait for the runner. *)
Definition waits (f : list report) : Prop :=
  match f with Quiet :: _ | Notifies _ _ :: _ => True | _ => False end.

Lemma ewp_creation_stop regs signals made f ans res ch k (P : option ProcessCreationStop → K → Prop) Q :
  shows k (moved (AtCreation regs signals made) f (running f ans res ch)) →
  (∀ k', shows k' (moved (AtCreation regs signals made) f (running f ans res ch)) → P (Some (stop_at pid regs)) k') →
  ewp (process_creation_stop pid (event_stop PTRACE_EVENT_SECCOMP)) k P Q.
Proof.
  intros Hk HP. unfold process_creation_stop. apply ewp_bind, ewp_stopped; [done|].
  rewrite decide_True by done. apply ewp_bind. eapply ewp_get_regs; [done| |].
  { cbn [trace_answer moved v_place]. by rewrite decide_True. }
  intros k' Hk'. by apply ewp_ret, HP.
Qed.

(** One poll of the target: its creation, or reports that wait. *)
Lemma try_wait_spec fuel pre regs signals made f ans res ch k
    (P : option ProcessCreationStop → K → Prop) Q (rest := Creates regs signals made :: f) :
  shows k (running (pre ++ rest) ans res ch) → Forall before_creation pre → reports_cost pre < fuel →
  (∀ k', continued pre = [] → shows k' (moved (AtCreation regs signals made) f (running rest ans res ch)) →
     P (Some (stop_at pid regs)) k') →
  (∀ k' pre', shows k' (running (pre' ++ rest) ans res ch) → waits pre' → passed pre pre' → P None k') →
  ewp (try_wait_for_process_creation fuel pid) k P Q.
Proof.
  revert pre k. induction fuel as [|fuel IH]; intros pre k Hk Hpre Hfuel HS HN; [lia|].
  cbn [try_wait_for_process_creation]. apply ewp_bind, ewp_map_err.
  destruct (interrupts_split pre) as (n & pre' & -> & Hhead).
  assert (Hn : n + reports_cost pre' < S fuel).
  { unfold reports_cost in *. rewrite sum_list_with_app in Hfuel. clear -Hfuel.
    assert (sum_list_with report_cost (replicate n Interrupts) = n) as Heq by (induction n; simpl in *; lia). lia. }
  apply Forall_app in Hpre as [_ Hpre]. rewrite <-app_assoc in Hk.
  destruct pre' as [|[| |m req|status|] pre']; try done; simpl in Hn.
  - eapply (ewp_try_waitpid _ _ _ _ _ _ _ _ _ _ _ Hk); [lia|answers|by left|].
    intros k' Hk'. rewrite decide_True by done. apply ewp_bind.
    eapply ewp_creation_stop; [exact Hk'|]. intros k2 Hk2. by apply ewp_ret, HS; [rewrite continued_interrupts|].
  - eapply (ewp_try_waitpid _ _ _ _ _ _ _ _ _ _ _ Hk); [lia|answers|by right|].
    intros k' Hk'. rewrite decide_False by (simpl; lia). apply ewp_ret, (HN k' (Quiet :: pre')); [done|done|].
    by apply passed_interrupts, passed_refl.
  - eapply (ewp_try_waitpid _ _ _ _ _ _ _ _ _ _ _ Hk); [lia|answers|by right|].
    intros k' Hk'. rewrite decide_False by (simpl; lia). apply ewp_ret, (HN k' (Notifies m req :: pre')); [done|done|].
    by apply passed_interrupts, passed_refl.
  - apply Forall_cons in Hpre as [[Hst Hev] Hpre].
    eapply (ewp_try_waitpid _ _ _ _ _ _ _ _ _ _ _ Hk); [lia|answers|by left|].
    intros k' Hk'. rewrite decide_True by done. cbn [wt_status waited]. apply ewp_bind.
    unfold process_creation_stop. apply ewp_bind, ewp_stopped; [done|]. rewrite decide_False by done.
    apply ewp_bind. eapply ewp_act; [exact Hk'| |].
    { cbn [trace_answer moved v_place]. by rewrite decide_True. }
    intros k2 Hk2. apply ewp_ret. apply (IH pre'); [exact Hk2|done|unfold reports_cost in *; simpl in *; lia| |].
    { intros k3 Hnone. apply HS. by rewrite continued_interrupts. }
    intros k3 pre3 Hk3 Hw Hp. apply (HN k3 pre3); [done|done|]. apply passed_interrupts. by apply passed_cons.
  - by apply Forall_cons in Hpre as [[] _].
Qed.

(** ** The loop *)

Lemma ewp_recv fuel n req f ans res ch k (P : seccomp_notif → K → Prop) (Q : Z → K → Prop) :
  shows k (running (Notifies n req :: f) ans res ch) → n < fuel →
  (∀ k', shows k' (moved (Received req) f (running (Notifies n req :: f) ans res ch)) → P req k') →
  ewp (recv fuel) k P Q.
Proof.
  revert fuel k. induction n as [|n IH]; intros [|fuel] k Hk Hn HP; try lia;
    destruct (shows_recv _ _ _ _ Hk eq_refl) as (rc & errno & req' & k' & Hcall & Hk' & Hr);
    unfold ewp; cbn [recv]; rewrite Hcall.
  - destruct Hr as [-> ->]. by apply HP.
  - destruct Hr as [Hrc ->]. rewrite decide_False by lia. rewrite decide_True by done.
    apply IH; [done|lia|done].
Qed.

Lemma ewp_send resp v v' k (P : () → K → Prop) (Q : Z → K → Prop) :
  shows k v → send_answer resp v = Some v' → (∀ k', shows k' v' → P () k') → ewp (send_response resp) k P Q.
Proof.
  intros Hk Ha HP. destruct (shows_send _ _ _ _ Hk Ha) as (rc & errno & k' & Hcall & Hrc & Hk').
  unfold ewp, send_response, mbind, eff_bind, rc_result. rewrite Hcall. rewrite decide_False by lia. by apply HP.
Qed.

Lemma ewp_expect {E E' A} (m : eff K E A) k (P : A → K → Prop) (Q : E' → K → Prop) :
  ewp m k P (λ _ _, False) → ewp (eff_expect m) k P Q.
Proof. unfold ewp, eff_expect. by destruct (m k) as [[] k']. Qed.

Lemma ewp_poll {E} ready v v' k (P : Z → K → Prop) (Q : E → K → Prop) :
  shows k v → poll_answer v = Some (ready, v') → (∀ k', shows k' v' → P ready k') →
  ewp (poll_listener target) k P Q.
Proof.
  intros Hk Ha HP. destruct (shows_poll _ _ _ _ Hk Ha) as (errno & k' & Hcall & Hk').
  unfold ewp, poll_listener. rewrite Hcall. by apply HP.
Qed.

(** A notified call continues. *)
Lemma continue_next_spec {E} fuel n req f ans res ch k (P : () → K → Prop) (Q : E → K → Prop) :
  shows k (running (Notifies n req :: f) ans res ch) → n < fuel →
  (∀ k', shows k' (running f (ans ++ [continue_response req]) res ch) → P () k') →
  ewp (continue_next fuel) k P Q.
Proof.
  intros Hk Hn HP. unfold continue_next. apply ewp_bind, ewp_expect. eapply ewp_recv; [done|done|].
  intros k' Hk'. apply ewp_expect. eapply ewp_send; [exact Hk'| |exact HP].
  cbn [send_answer moved v_place]. by rewrite decide_True.
Qed.

Lemma next_creation_spec {E} fuel pre regs signals made f ans res ch k
    (P : ProcessCreationStop → K → Prop) (Q : E → K → Prop) (rest := Creates regs signals made :: f) :
  shows k (running (pre ++ rest) ans res ch) → Forall before_creation pre → reports_cost pre < fuel →
  (∀ k', shows k' (moved (AtCreation regs signals made) f (running rest (ans ++ continued pre) res ch)) →
     P (stop_at pid regs) k') →
  ewp (next_creation_stop fuel target) k P Q.
Proof.
  revert pre ans k. induction fuel as [|fuel IH]; intros pre ans k Hk Hpre Hfuel HP; [lia|].
  cbn [next_creation_stop]. apply ewp_bind, ewp_expect.
  eapply (try_wait_spec _ pre); [exact Hk|done|done| |].
  { intros k' Hnone Hk'. apply ewp_ret, HP. by rewrite Hnone, app_nil_r. }
  intros k' pre' Hk' Hw [Hb Hc Ha]. rewrite <-Ha in HP. specialize (Hb Hpre). clear Ha.
  apply ewp_bind. destruct pre' as [|[| |n req|status|] pre']; try done; apply Forall_cons in Hb as [_ Hb].
  - eapply ewp_poll; [exact Hk'|reflexivity|]. intros k2 Hk2. apply ewp_bind, ewp_lift, wp_check; [done|].
    rewrite decide_False by done.
    apply (IH pre' ans); [exact Hk2|done|unfold reports_cost in *; simpl in *; lia|exact HP].
  - eapply ewp_poll; [exact Hk'|reflexivity|]. intros k2 Hk2. apply ewp_bind, ewp_lift, wp_check; [done|].
    rewrite decide_True by done.
    apply ewp_bind. eapply (continue_next_spec _ n); [exact Hk2|unfold reports_cost in *; simpl in *; lia|].
    intros k3 Hk3. apply (IH pre' (ans ++ [continue_response req]));
      [exact Hk3|done|unfold reports_cost in *; simpl in *; lia|].
    intros k4. rewrite <-app_assoc. apply HP.
Qed.

(** ** Following and rejecting a creation *)

(** A stop for a signal, within a call. *)
Definition inside_stop (status : Z) : Prop :=
  WIFSTOPPED status = true ∧ is_fork_event (stop_event status) = false ∧ is_syscall_stop status = false.

(** What a call may do when its caller goes on: no [vfork]. *)
Definition creation_ok (does : creation) : Prop :=
  match does with
  | Forks event child =>
      (event = PTRACE_EVENT_FORK ∨ event = PTRACE_EVENT_CLONE) ∧ (0 < child <= i32_MAX)%Z ∧ child ≠ pid
  | Refuses error => (0 < error <= i32_MAX)%Z
  end.

(** The value the call returns. *)
Definition creation_value (does : creation) : Z :=
  match does with Forks _ child => child | Refuses error => (- error)%Z end.

Definition finished (result : Z) (child : option Z) (v : view) : view :=
  {| v_place := Running; v_future := v_future v; v_answers := v_answers v;
     v_results := v_results v ++ [result]; v_children := v_children v ++ option_list child |}.

Lemma ewp_io_wait fuel p v status v' k (P : Z → K → Prop) (Q : RunnerError → K → Prop) :
  shows k v → wait_answer pid p (Z.lor 0 WALL) v = Some (Some (waited p status, v')) → 0 < fuel →
  (∀ k', shows k' v' → P status k') → ewp (io (waitpid fuel p 0)) k P Q.
Proof. intros. apply ewp_map_err. by eapply ewp_wait. Qed.

Lemma event_stop_facts event : event = PTRACE_EVENT_FORK ∨ event = PTRACE_EVENT_CLONE →
  WIFSTOPPED (event_stop event) = true ∧ is_fork_event (stop_event (event_stop event)) = true.
Proof. by intros [->| ->]. Qed.

Lemma as_i64_positive x : (0 <= x <= i32_MAX)%Z → as_i64 (as_u64 x) = x.
Proof. intros Hx. rewrite <-(Z.opp_involutive x) at 1. rewrite as_i64_u64; unfold i32_MIN, i32_MAX in *; lia. Qed.

Lemma as_i32_small x : (0 <= x <= i32_MAX)%Z → as_i32 x = x.
Proof. intros Hx. unfold as_i32, i32_MAX in *. rewrite Z.mod_small by lia. by rewrite decide_True by lia. Qed.

(** A call that fails, without a fork event. *)
Lemma fork_failed_spec regs error v k (P : ProcessCreationResult → K → Prop) Q :
  shows k (at_place (Returned (set_rax (as_u64 (- error)) regs) None true) v) → (0 < error <= i32_MAX)%Z →
  (∀ k', shows k' (finished (- error) None v) → P (Failed error) k') →
  ewp (fork_result pid None) k P Q.
Proof.
  intros Hk He HP. unfold fork_result. apply ewp_bind. eapply ewp_get_regs; [exact Hk|answers|].
  intros k' Hk'. cbn [rax set_rax]. assert (Hval : as_i64 (as_u64 (- error)) = (- error)%Z)
    by (apply as_i64_u64; unfold i32_MIN, i32_MAX in *; lia).
  rewrite Hval, decide_True by lia. apply ewp_bind. eapply ewp_act; [exact Hk'| |].
  { cbn [trace_answer at_place v_place]. rewrite decide_False by done. by rewrite decide_True. }
  intros k2 Hk2. rewrite decide_False by (unfold i64_MIN, i32_MAX in *; lia).
  apply ewp_ret. rewrite Z.opp_involutive, as_i32_small by lia. apply HP. unfold finished. by rewrite <-Hval.
Qed.

(** A call whose event was seen. *)
Lemma fork_made_spec regs child v k (P : ProcessCreationResult → K → Prop) Q :
  shows k (at_place (Returned (set_rax (as_u64 child) regs) (Some child) false) v) → (0 < child <= i32_MAX)%Z →
  (∀ k', shows k' (at_place (Returned (set_rax (as_u64 child) regs) (Some child) false) v) →
     P (Created {| fs_parent := pid; fs_child := child |}) k') →
  ewp (fork_result pid (Some child)) k P Q.
Proof.
  intros Hk Hc HP. unfold fork_result. apply ewp_bind. eapply ewp_get_regs; [exact Hk|answers|].
  intros k' Hk'. cbn [rax set_rax]. rewrite as_i64_positive by lia.
  rewrite decide_False by lia. rewrite (decide_True (P:=(0 < child <= i32_MAX)%Z)) by done.
  rewrite decide_False by (intros Hne; by apply Hne). by apply ewp_ret, HP.
Qed.

Lemma fork_loop_view fuel regs signals does v k (P : ProcessCreationResult → K → Prop) Q :
  shows k (at_place (Inside regs signals does) v) → Forall inside_stop signals → creation_ok does →
  length signals + 1 < fuel →
  (∀ k', match does with
         | Forks _ child => shows k' (at_place (Returned (set_rax (as_u64 child) regs) (Some child) false) v) →
             P (Created {| fs_parent := pid; fs_child := child |}) k'
         | Refuses error => shows k' (finished (- error) None v) → P (Failed error) k'
         end) →
  ewp (fork_loop fuel pid None) k P Q.
Proof.
  revert fuel k. induction signals as [|status signals IH]; intros [|fuel] k Hk Hsig Hok Hfuel HP; simpl in Hfuel; try lia;
    cbn [fork_loop]; apply ewp_bind.
  - destruct does as [event child|error]; simpl in Hok.
    + destruct Hok as (Hev & Hc & Hne). destruct (event_stop_facts event Hev) as [Hst Hfork].
      destruct fuel as [|fuel]; [lia|].
      eapply ewp_io_wait; [exact Hk|answers|lia|].
      intros k1 Hk1. apply ewp_bind, ewp_stopped; [done|]. rewrite Hfork. apply ewp_bind.
      unfold event_child. apply ewp_bind, ewp_map_err. eapply ewp_request; [exact Hk1|answers|].
      intros r k2 _ Hmsg Hk2. rewrite (Hmsg eq_refl), Z2N.id by lia. rewrite decide_True by lia. apply ewp_ret.
      apply ewp_bind. eapply ewp_io_wait; [exact Hk2|answers|lia|].
      intros k3 Hk3. apply ewp_bind, ewp_stopped; [done|].
      apply ewp_bind. eapply ewp_act; [exact Hk3|answers|].
      intros k4 Hk4. cbn [fork_loop]. apply ewp_bind.
      eapply ewp_io_wait; [exact Hk4|answers|lia|].
      intros k5 Hk5. apply ewp_bind, ewp_stopped; [done|].
      change (is_fork_event (stop_event SYSCALL_EXIT)) with false. change (is_syscall_stop SYSCALL_EXIT) with true.
      cbn match. eapply fork_made_spec; [exact Hk5|done|]. intros k6. apply HP.
    + eapply ewp_io_wait; [exact Hk|answers|lia|].
      intros k1 Hk1. apply ewp_bind, ewp_stopped; [done|].
      change (is_fork_event (stop_event SYSCALL_EXIT)) with false. change (is_syscall_stop SYSCALL_EXIT) with true.
      cbn match. by eapply fork_failed_spec; [exact Hk1| |].
  - apply Forall_cons in Hsig as [(Hst & Hnf & Hns) Hsig].
    eapply ewp_io_wait; [exact Hk|answers|lia|].
    intros k1 Hk1. apply ewp_bind, ewp_stopped; [done|]. rewrite Hnf, Hns.
    apply ewp_bind. eapply ewp_act; [exact Hk1|answers|].
    intros k2 Hk2. apply (IH fuel k2); [exact Hk2|done|done|lia|done].
Qed.

(** The loop of a rejection, in a call that was skipped. *)
Lemma reject_loop_view fuel regs signals error v k (P : () → K → Prop) Q :
  shows k (at_place (Inside regs signals (Refuses ENOSYS)) v) → Forall inside_stop signals →
  (0 < error <= i32_MAX)%Z → length signals < fuel →
  (∀ k', shows k' (finished (- error) None v) → P () k') →
  ewp (reject_loop fuel pid error) k P Q.
Proof.
  revert fuel k. induction signals as [|status signals IH]; intros [|fuel] k Hk Hsig He Hfuel HP; simpl in Hfuel; try lia;
    cbn [reject_loop]; apply ewp_bind.
  - eapply ewp_io_wait; [exact Hk|answers|lia|].
    intros k1 Hk1. apply ewp_bind, ewp_stopped; [done|]. change (is_syscall_stop SYSCALL_EXIT) with true. cbn match.
    apply ewp_bind. eapply ewp_get_regs; [exact Hk1|answers|].
    intros k2 Hk2. apply ewp_bind.
    eapply ewp_act; [exact Hk2|answers|].
    intros k3 Hk3. eapply ewp_act; [exact Hk3|answers|].
    intros k4 Hk4. apply HP. unfold finished. cbn [rax set_rax] in Hk4.
    rewrite as_i64_u64 in Hk4 by (unfold i32_MIN, i32_MAX in *; lia). exact Hk4.
  - apply Forall_cons in Hsig as [(Hst & _ & Hns) Hsig].
    eapply ewp_io_wait; [exact Hk|answers|lia|].
    intros k1 Hk1. apply ewp_bind, ewp_stopped; [done|]. rewrite Hns.
    apply ewp_bind. eapply ewp_act; [exact Hk1|answers|].
    intros k2 Hk2. apply (IH fuel k2); [exact Hk2|done|done|lia|done].
Qed.

Lemma reject_view fuel regs signals made error v k (P : () → K → Prop) Q :
  shows k (at_place (AtCreation regs signals made) v) → Forall inside_stop signals →
  (0 < error <= i32_MAX)%Z → length signals < fuel →
  (∀ k', shows k' (finished (- error) None v) → P () k') →
  ewp (reject_process_creation fuel (stop_at pid regs) error) k P Q.
Proof.
  intros Hk Hsig He Hfuel HP. unfold reject_process_creation. cbn [pcs_parent stop_at].
  apply ewp_bind. eapply ewp_get_regs; [exact Hk|answers|].
  intros k1 Hk1. apply ewp_bind.
  eapply ewp_act; [exact Hk1|answers|].
  intros k2 Hk2. apply ewp_bind.
  eapply ewp_act; [exact Hk2|answers|].
  intros k3 Hk3. by eapply reject_loop_view; [exact Hk3|..].
Qed.

Lemma continue_view fuel regs signals made v k (P : ProcessCreationResult → K → Prop) Q :
  shows k (at_place (AtCreation regs signals made) v) → as_i64 (orig_rax regs) ≠ (-1)%Z →
  Forall inside_stop signals → creation_ok (made regs) → length signals + 1 < fuel →
  (∀ k', match made regs with
         | Forks _ child => shows k' (at_place (Returned (set_rax (as_u64 child) regs) (Some child) false) v) →
             P (Created {| fs_parent := pid; fs_child := child |}) k'
         | Refuses error => shows k' (finished (- error) None v) → P (Failed error) k'
         end) →
  ewp (continue_to_fork fuel (stop_at pid regs)) k P Q.
Proof.
  intros Hk Hnr Hsig Hok Hfuel HP. unfold continue_to_fork. cbn [pcs_parent stop_at].
  apply ewp_bind. eapply ewp_act; [exact Hk|answers|].
  intros k1 Hk1. unfold call_does in Hk1. rewrite decide_False in Hk1 by done.
  by eapply fork_loop_view; [exact Hk1|..].
Qed.

(** Both processes run again. *)
Lemma resume_view regs child v k (P : () → K → Prop) Q :
  shows k (at_place (Returned (set_rax (as_u64 child) regs) (Some child) false) v) →
  (0 < child <= i32_MAX)%Z → child ≠ pid →
  (∀ k', shows k' (finished child (Some child) v) → P () k') →
  ewp (io (resume_fork {| fs_parent := pid; fs_child := child |})) k P Q.
Proof.
  intros Hk Hc Hne HP. apply ewp_map_err. unfold resume_fork. cbn [fs_child fs_parent].
  apply ewp_bind, ewp_try. eapply ewp_resume; [exact Hk|answers|].
  intros k1 Hk1. apply ewp_bind, ewp_try. eapply ewp_resume; [exact Hk1| |].
  { cbn [trace_answer at_place v_place]. rewrite decide_False by congruence. by rewrite decide_True. }
  intros k2 Hk2. cbn [rax set_rax] in Hk2. rewrite as_i64_positive in Hk2 by lia. by apply ewp_ret, HP.
Qed.

End rules.

(** ** A creation under the supervisor *)

(** What becomes of a call that asks for [flags] and would do [does]: the
    outcome, the value the target gets, and the new child. *)
Definition supervised (flags : N) (does : creation) : ProcessCreationOutcome * Z * option Z :=
  if decide (N.land flags CLONE_FILES ≠ 0%N) then (PRejected ENOTSUP, (- ENOTSUP)%Z, None)
  else match does with
       | Forks _ child => (PCreated child, child, Some child)
       | Refuses error => (PFailed error, (- error)%Z, None)
       end.

Section creation.
  Context {PF K : Type} `{ProcFileSpace PF} `{Supervision K target}.
  Abbreviation pid := (st_pid target).
  Implicit Types s : Supervisor PF.

Lemma flags_view mem stop flags old s v k :
  vm_law (K:=K) mem (pcs_parent stop) → length (pcs_args stop) = 6 → buf_holds old (sv_buffer s) →
  requested mem stop flags → shows k v →
  ∃ s' k', process_creation_flags stop (s, k) = (Ret (Flags flags), (s', k')) ∧ same_table s s' ∧ shows k' v.
Proof.
  intros Hlaw Hargs Hb Hreq Hk. pose proof (flags_table stop (s, k)) as Htable.
  pose proof (flags_spec mem stop old (s, k) Hlaw Hargs Hb) as Hflags.
  assert (Hsteady : steady (λ s : Supervisor PF * K, shows s.2 v) (process_creation_flags stop))
    by (apply (flags_steady stop (λ k, shows k v)); intros remote len k' Hk'; by apply shows_memory).
  specialize (Hsteady (s, k) Hk). unfold eff_post in *.
  destruct (process_creation_flags stop (s, k)) as [r [s' k']]. destruct Hflags as [_ Hflags].
  rewrite (requested_read _ _ _ _ Hreq Hflags). by exists s', k'.
Qed.

(** The table with the new process. *)
Definition with_child (files : PF) (child : option Z) (procs : gmap Z PF) : gmap Z PF :=
  match child with Some child => <[child := files]> procs | None => procs end.

(** How a creation ends: the outcome, the target and the table. *)
Definition creation_post (files : PF) s (v : view) (ends : ProcessCreationOutcome * Z * option Z)
    (o : ProcessCreationOutcome) (s' : Supervisor PF * K) : Prop :=
  let '(outcome, result, child) := ends in
  o = outcome ∧ shows s'.2 (finished result child v) ∧
  sv_sched s'.1 = sv_sched s ∧ sv_procs s'.1 = with_child files child (sv_procs s).

Lemma ewp_with_kernel {E A} (m : eff K E A) s k (P : A → Supervisor PF * K → Prop) Q :
  ewp m k (λ a k', P a (s, k')) (λ e k', Q e (s, k')) → ewp (with_kernel m) (s, k) P Q.
Proof. intros Hm. by apply ewp_zoom. Qed.

Lemma ewp_get_process p files s k (P : PF → Supervisor PF * K → Prop) Q :
  sv_procs s !! p = Some files → P files (s, k) → ewp (get_process p) (s, k) P Q.
Proof. intros Hp HP. unfold ewp, get_process. simpl. by rewrite Hp. Qed.

Lemma ewp_register child files s k (P : RunnerError + () → Supervisor PF * K → Prop) Q :
  sv_procs s !! child = None → P (inr ()) (set_procs (<[child := files]> (sv_procs s)) s, k) →
  ewp (eff_try (E':=RunnerError) (register_process child files)) (s, k) P Q.
Proof. intros Hc HP. unfold ewp, eff_try, register_process. simpl. by rewrite Hc. Qed.

(** After the flags. *)
Lemma creation_view fuel files flags regs signals made s s1 v k :
  shows k (at_place (AtCreation regs signals made) v) → as_i64 (orig_rax regs) ≠ (-1)%Z →
  Forall inside_stop signals → creation_ok (target:=target) (made regs) → length signals + 1 < fuel →
  sv_procs s !! pid = Some files → same_table s s1 →
  (∀ event child, made regs = Forks event child → sv_procs s !! child = None) →
  ewp (if decide (N.land flags CLONE_FILES ≠ 0%N) then reject fuel (stop_at pid regs) ENOTSUP
       else
         _ ← get_process pid;
         result ← with_kernel (continue_to_fork fuel (stop_at pid regs));
         match result with
         | Failed error => mret (PFailed error)
         | Created stop =>
             let child := fs_child stop in
             registered ← eff_try (E':=RunnerError) (register_process child files);
             match registered with
             | inl error =>
                 _ ← eff_try (E':=RunnerError) (with_kernel (resume_fork stop));
                 eff_throw error
             | inr _ =>
                 _ ← with_kernel (io (resume_fork stop));
                 mret (PCreated child)
             end
         end) (s1, k) (creation_post files s v (supervised flags (made regs))) (λ _ _, False).
Proof.
  intros Hk Hnr Hsig Hok Hfuel Hfiles [Hp Hs] Hnew. unfold supervised. case_decide.
  - unfold reject. apply ewp_bind, ewp_with_kernel.
    eapply reject_view; [exact Hk|done|unfold ENOTSUP, i32_MAX; lia|lia|].
    intros k' Hk'. by apply ewp_ret.
  - apply ewp_bind. eapply ewp_get_process; [by rewrite Hp|].
    apply ewp_bind, ewp_with_kernel. eapply continue_view; [exact Hk|done|done|done|done|].
    intros k' . destruct (made regs) as [event child|error] eqn:Hmade; intros Hk'; [|by apply ewp_ret].
    destruct Hok as (_ & Hc & Hne). cbn [fs_child]. apply ewp_bind.
    apply ewp_register; [rewrite Hp; by eapply Hnew|].
    apply ewp_bind, ewp_with_kernel. eapply resume_view; [exact Hk'|done|done|].
    intros k2 Hk2. apply ewp_ret. unfold creation_post. simpl. rewrite Hp. done.
Qed.

Lemma handle_stop_view mem old fuel files flags regs signals made s v k :
  shows k (at_place (AtCreation regs signals made) v) → Forall inside_stop signals →
  creation_ok (target:=target) (made regs) → length signals + 1 < fuel →
  vm_law (K:=K) mem pid → buf_holds old (sv_buffer s) → requested mem (stop_at pid regs) flags →
  sv_procs s !! pid = Some files →
  (∀ event child, made regs = Forks event child → sv_procs s !! child = None) →
  ewp (handle_process_creation_stop fuel (stop_at pid regs)) (s, k)
    (creation_post files s v (supervised flags (made regs))) (λ _ _, False).
Proof.
  intros Hk Hsig Hok Hfuel Hlaw Hb Hreq Hfiles Hnew. unfold handle_process_creation_stop. cbn [pcs_parent stop_at].
  apply ewp_bind. eapply ewp_get_process; [done|]. apply ewp_bind.
  destruct (flags_view mem (stop_at pid regs) flags old s _ k Hlaw eq_refl Hb Hreq Hk) as (s1 & k1 & Heq & Hsame & Hk1).
  unfold ewp at 1. rewrite Heq. cbn [wp].
  eapply creation_view; [exact Hk1| |done..].
  intros Hnr. assert (pcs_syscall (stop_at pid regs) = (-1)%Z) as Hsys by done.
  destruct Hreq as [[Hs|Hs]|? Hs _|? ? ? Hs]; rewrite Hsys in Hs; discriminate Hs.
Qed.

End creation.

(** ** Waiting without answering *)

Section blocking.
  Context {K : Type} `{Supervision K target}.
  Context (Hpid : (0 < st_pid target <= i32_MAX)%Z).
  Context (n : nat) (req : seccomp_notif) (f : list report) (ans : list seccomp_notif_resp) (res ch : list Z).
  Abbreviation pid := (st_pid target).
  Abbreviation blocked pre := (running (pre ++ Notifies n req :: f) ans res ch).

(** The first answer to a wait that may block. *)
Lemma blocking_answer pre v :
  Forall before_creation pre →
  running_wait pid true v (pre ++ Notifies n req :: f) = Some None ∨
  ∃ pre', Forall before_creation pre' ∧
    (running_wait pid true v (pre ++ Notifies n req :: f) =
       Some (Some ({| wt_result := -1; wt_errno := EINTR; wt_status := 0 |}, moved Running (pre' ++ Notifies n req :: f) v)) ∨
     ∃ status, running_wait pid true v (pre ++ Notifies n req :: f) =
       Some (Some (waited pid status, moved (Halted status) (pre' ++ Notifies n req :: f) v)) ∧
       WIFSTOPPED status = true ∧ stop_event status ≠ PTRACE_EVENT_SECCOMP).
Proof.
  induction pre as [|[| |m req'|status|] pre IH]; intros Hpre; simpl; [by left|..];
    apply Forall_cons in Hpre as [Hr Hpre]; [by apply IH| |by left| |done].
  - right. exists pre. split; [done|by left].
  - right. exists pre. split; [done|right]. by exists status.
Qed.

Lemma blocked_wait fuel pre k :
  shows k (blocked pre) → Forall before_creation pre →
  eff_post (io (waitpid fuel pid 0)) k (λ r k', r = NoFuel ∨ ∃ status pre', r = Ret status ∧
    WIFSTOPPED status = true ∧ stop_event status ≠ PTRACE_EVENT_SECCOMP ∧ Forall before_creation pre' ∧
    shows k' (moved (Halted status) (pre' ++ Notifies n req :: f) (blocked pre))).
Proof.
  revert pre k. induction fuel as [|fuel IH]; intros pre k Hk Hpre; [by left|].
  unfold eff_post, io, eff_map_err. rewrite waitpid_S.
  assert (Hans : ∀ a, running_wait pid true (blocked pre) (pre ++ Notifies n req :: f) = Some a →
    wait_answer pid pid (Z.lor 0 WALL) (blocked pre) = Some a)
    by (intros a Ha; cbn [wait_answer running v_place v_future]; by rewrite decide_True).
  destruct (blocking_answer pre (blocked pre) Hpre) as [Ha|(pre' & Hpre' & [Ha|(status & Ha & Hst & Hev)])].
  - pose proof (shows_wait _ _ _ _ _ Hk (Hans _ Ha)) as Hcall. simpl in Hcall. rewrite Hcall. by left.
  - destruct (shows_wait _ _ _ _ _ Hk (Hans _ Ha)) as (k' & Hcall & Hk'). rewrite Hcall. cbn [wt_result wt_errno].
    rewrite decide_False by lia. rewrite decide_True by (split; [lia|done]).
    specialize (IH pre' k' Hk' Hpre'). unfold eff_post, io, eff_map_err in IH.
    destruct (waitpid fuel pid 0 k') as [[status|e| |] k2]; [|done|done|by left].
    destruct IH as [?|(st & pre2 & [= ->] & ?)]; [done|]. right. exists st, pre2. done.
  - destruct (shows_wait _ _ _ _ _ Hk (Hans _ Ha)) as (k' & Hcall & Hk'). rewrite Hcall.
    rewrite decide_True by done. right. by exists status, pre'.
Qed.

Lemma blocked_creation fuel pre k :
  shows k (blocked pre) → Forall before_creation pre → (wait_for_process_creation fuel pid k).1 = NoFuel.
Proof.
  revert pre k. induction fuel as [|fuel IH]; intros pre k Hk Hpre; [done|].
  pose proof (blocked_wait (S fuel) pre k Hk Hpre) as Hwait. unfold eff_post in Hwait.
  cbn [wait_for_process_creation]. unfold mbind at 1, eff_bind at 1.
  destruct (io (waitpid (S fuel) pid 0) k) as [r k1].
  destruct Hwait as [->|(status & pre' & -> & Hst & Hev & Hpre' & Hk1)]; [done|].
  assert (Hresume : ewp (process_creation_stop pid status) k1 (λ r k', r = None ∧ shows k' (blocked pre')) (λ _ _, False)).
  { unfold process_creation_stop. apply ewp_bind, ewp_stopped; [done|]. rewrite decide_False by done.
    apply ewp_bind. eapply ewp_act; [exact Hk1|answers|]. intros k2 Hk2. by apply ewp_ret. }
  unfold ewp in Hresume. unfold mbind, eff_bind.
  destruct (process_creation_stop pid status k1) as [[o|e| |] k2]; simpl in Hresume; try done.
  destruct Hresume as [-> Hk2]. by apply (IH pre').
Qed.

End blocking.

(** ** Properties *)

Section properties.
  Context {PF K : Type} `{ProcFileSpace PF} `{Supervision K target}.

(** C9: a target under the event loop: whatever notifications, signals and
    interruptions come before its next process creation, each notified call is
    let through exactly once and in order, every signal is delivered (the
    target stays stopped otherwise), and the creation is handled: it is rejected
    with [ENOTSUP] if it would share the file table; otherwise it takes place,
    the target gets the kernel's result, and a child is tracked with the files
    of its parent before both run on.  The one creation left out is a vfork. *)
Theorem supervised_creation {E} mem old fuel pre regs signals made f ans res ch files flags (s : Supervisor PF) (k : K) :
  let pid := st_pid target in
  (0 < pid <= i32_MAX)%Z →
  shows k (running (pre ++ Creates regs signals made :: f) ans res ch) →
  Forall before_creation pre → Forall inside_stop signals → creation_ok (target:=target) (made regs) →
  reports_cost pre + length signals + 1 < fuel →
  vm_law (K:=K) mem pid → buf_holds old (sv_buffer s) → requested mem (stop_at pid regs) flags →
  sv_procs s !! pid = Some files →
  (∀ event child, made regs = Forks event child → sv_procs s !! child = None) →
  let '(outcome, result, child) := supervised flags (made regs) in
  ∃ s' k', handle_next_creation (E:=E) fuel target (s, k) = (Ret outcome, (s', k')) ∧
    shows k' (running f (ans ++ continued pre) (res ++ [result]) (ch ++ option_list child)) ∧
    sv_procs s' = with_child files child (sv_procs s) ∧ sv_sched s' = sv_sched s.
Proof.
  intros pid Hpid Hk Hpre Hsig Hok Hfuel Hlaw Hb Hreq Hfiles Hnew.
  assert (Hrun : ewp (handle_next_creation (E:=E) fuel target) (s, k)
    (creation_post files s (running f (ans ++ continued pre) res ch) (supervised flags (made regs))) (λ _ _, False)).
  { unfold handle_next_creation. apply ewp_bind, ewp_with_kernel.
    eapply next_creation_spec; [done|exact Hk|done|lia|]. intros k1 Hk1. apply ewp_expect.
    eapply (handle_stop_view mem old); [exact Hk1|done|done|lia|done..]. }
  unfold ewp in Hrun. destruct (handle_next_creation fuel target (s, k)) as [[o|e| |] [s' k']]; simpl in Hrun; try done.
  destruct (supervised flags (made regs)) as [[outcome result] child].
  destruct Hrun as (-> & Hk' & Hsched & Hprocs). by exists s', k'.
Qed.

(** C25: the blocking form is not enough: [handle_process_creation] never returns
    when the target makes a call that notifies before its next creation, which
    is why event loops poll. *)
Theorem blocking_wait_starves fuel pre n req f ans res ch (s : Supervisor PF) (k : K) :
  (0 < st_pid target <= i32_MAX)%Z →
  shows k (running (pre ++ Notifies n req :: f) ans res ch) → Forall before_creation pre →
  contains_process (st_pid target) s = true →
  (handle_process_creation fuel (st_pid target) (s, k)).1 = NoFuel.
Proof.
  intros Hpid Hk Hpre Hin. unfold handle_process_creation. simpl. rewrite Hin.
  pose proof (blocked_creation Hpid n req f ans res ch fuel pre k Hk Hpre) as Hwait.
  unfold mbind, eff_bind, with_kernel, eff_zoom. simpl.
  destruct (wait_for_process_creation fuel (st_pid target) k) as [r k']. simpl in Hwait. by subst r.
Qed.

End properties.

(** ** A kernel *)

(** The state machine itself, with a memory for every process, and the
    processes that were killed. *)
Record Machine := { m_view : view; m_killed : list Z }.

Definition see (v : view) (k : Machine) : Machine := {| m_view := v; m_killed := m_killed k |}.

Definition ESRCH : Z := 3.
Definition ENOENT : Z := 2.

Section machine.
  Context (target : SpawnedTarget) (mem : memory).

Definition machine_ptrace : Ptrace Machine := {|
  sys_ptrace request p k :=
    match trace_answer (st_pid target) request p (m_view k) with
    | Some (regs, msg, v) => ({| pt_result := 0; pt_errno := 0; pt_regs := regs; pt_msg := msg |}, see v k)
    | None => ({| pt_result := -1; pt_errno := ESRCH; pt_regs := no_regs; pt_msg := 0 |}, k)
    end;
  sys_waitpid p options k :=
    if decide (p ∈ m_killed k) then Some (waited p SIGKILL, k)
    else
      match wait_answer (st_pid target) p options (m_view k) with
      | Some (Some (r, v)) => Some (r, see v k)
      | Some None => None
      | None => Some ({| wt_result := -1; wt_errno := ECHILD; wt_status := 0 |}, k)
      end;
  sys_waitid _ k := ({| wt_result := -1; wt_errno := ECHILD; wt_status := 0 |}, k);
|}.

Definition blank : seccomp_notif := {| notif_id := 0; notif_pid := 0; notif_nr := 0; notif_args := [] |}.

Definition machine_listener : Listener Machine := {|
  ioctl_recv k :=
    match recv_answer (m_view k) with
    | Some (Some req, v) => ((0, 0, req)%Z, see v k)
    | Some (None, v) => ((-1, EINTR, blank)%Z, see v k)
    | None => ((-1, ENOENT, blank)%Z, k)
    end;
  ioctl_send resp k :=
    match send_answer resp (m_view k) with
    | Some v => ((0, 0)%Z, see v k)
    | None => ((-1, ENOENT)%Z, k)
    end;
  ioctl_addfd _ k := ((-1, ENOENT)%Z, k);
  ioctl_id_valid _ k := ((-1, ENOENT)%Z, k);
|}.

Definition machine_poll : Poll Machine := {|
  sys_poll _ _ k :=
    match poll_answer (m_view k) with
    | Some (ready, v) => ((ready, 0)%Z, see v k)
    | None => ((0, 0)%Z, k)
    end;
  sys_kill p _ k := (0%Z, {| m_view := m_view k; m_killed := p :: m_killed k |});
|}.

Definition machine_memory : ProcessMemory Machine := {|
  process_vm_readv p remote len k := ((process_vm_readv (ProcessMemory:=process_reader mem 3) p remote len ()).1, k);
|}.

#[local] Existing Instance machine_ptrace.
#[local] Existing Instance machine_listener.
#[local] Existing Instance machine_poll.
#[local] Existing Instance machine_memory.

Lemma machine_memory_law p : vm_law (K:=Machine) mem p.
Proof.
  intros remote len k. pose proof (process_reader_law mem 3 p ltac:(lia) remote len ()) as Hlaw.
  simpl in *. by case_decide.
Qed.

Definition machine_supervision : Supervision Machine target.
Proof.
  refine {| shows k v := m_view k = v ∧ m_killed k = [] |}.
  - intros k v p options a [<- Hkill] Ha. simpl. rewrite Hkill, Ha. destruct a as [[r v']|]; [|done]. by eexists.
  - intros k v request p regs msg v' [<- Hkill] Ha. simpl. rewrite Ha. by eexists _, _.
  - intros k v ready v' [<- Hkill] Ha. simpl. rewrite Ha. by eexists _, _.
  - intros k v a v' [<- Hkill] Ha. simpl. rewrite Ha. destruct a; by eexists _, _, _, _.
  - intros k v resp v' [<- Hkill] Ha. simpl. rewrite Ha. by eexists _, _, _.
  - done.
Defined.

End machine.

(** A shell that opens a file, loses a race with a signal, and forks. *)
Definition sample_target : SpawnedTarget := {| st_tracker := 9; st_guard := 7 |}.
Definition fork_regs : user_regs := no_regs.
Definition sample_reports : list report :=
  [Quiet; Notifies 2 sample_req; Interrupts; Stops SIGCHLD_STOP; Quiet].
Definition sample_machine (future : list report) : Machine :=
  {| m_view := running future [] [] []; m_killed := [] |}.

Lemma supervised_creation_witness :
  let '(r, (s', k')) := handle_next_creation
    (H0:=machine_ptrace sample_target) (H1:=machine_listener) (H2:=machine_poll) (H3:=machine_memory sample_memory)
    (E:=()) 20 sample_target
    (sample_supervisor, sample_machine (sample_reports ++ [Creates fork_regs [SIGCHLD_STOP] (λ _, Forks PTRACE_EVENT_FORK 43)])) in
  r = Ret (PCreated 43) ∧ v_answers (m_view k') = [continue_response sample_req] ∧
  v_results (m_view k') = [43%Z] ∧ sv_procs s' !! 43%Z = Some sample_files.
Proof.
  pose proof (supervised_creation (E:=()) (target:=sample_target)
    (H0:=machine_ptrace sample_target) (H1:=machine_listener) (H2:=machine_poll) (H3:=machine_memory sample_memory)
    (H4:=machine_supervision sample_target sample_memory)
    sample_memory [] 20 sample_reports fork_regs [SIGCHLD_STOP] (λ _, Forks PTRACE_EVENT_FORK 43) [] [] [] []
    sample_files 0%N sample_supervisor
    (sample_machine (sample_reports ++ [Creates fork_regs [SIGCHLD_STOP] (λ _, Forks PTRACE_EVENT_FORK 43)]))) as Hrun.
  destruct Hrun as (s' & k' & Heq & Hk' & Hprocs & _).
  - by vm_compute.
  - by split.
  - repeat constructor; vm_compute; congruence.
  - repeat constructor.
  - split; [by left|]. by vm_compute.
  - vm_compute. lia.
  - apply machine_memory_law.
  - apply buf_new_holds.
  - apply requested_fork. by left.
  - reflexivity.
  - intros event child [= <- <-]. reflexivity.
  - rewrite Heq. split; [reflexivity|]. destruct Hk' as [Hk' _]. simpl in Hk'. rewrite Hk', Hprocs.
    split; [reflexivity|]. split; reflexivity.
Defined.

Lemma blocking_wait_starves_witness :
  (handle_process_creation
    (H0:=machine_ptrace sample_target) (H1:=machine_memory sample_memory)
    9 7 (sample_supervisor, sample_machine [Quiet; Notifies 0 sample_req; Creates fork_regs [] (λ _, Refuses 11)])).1 = NoFuel.
Proof.
  apply (blocking_wait_starves (target:=sample_target)
    (H0:=machine_ptrace sample_target) (H1:=machine_listener) (H2:=machine_poll) (H3:=machine_memory sample_memory)
    (H4:=machine_supervision sample_target sample_memory)
    9 [Quiet] 0 sample_req [Creates fork_regs [] (λ _, Refuses 11)] [] [] []).
  - by vm_compute.
  - by split.
  - repeat constructor.
  - reflexivity.
Defined.
