(* ===== verification/RunnerTests.v ===== *)
(** * The unit tests of the buffer and of the supervisor (the [tests] modules
    of [src/src/buffer.rs] and [src/src/runner/supervisor.rs])

    The tests that need no process of their own, run on the model.  Those that
    copy from the test process itself read a memory that holds what the test
    placed there; the allocation of the buffer has no address here, so its
    alignment is not asserted.  The tests that run a target are in
    [TargetTests]. *)

From S2P Require Import Prelude Effects Index Graph Model Compiler Tracker Policy Fd Buffer Request Scheduler Ptrace Processes GraphTests.

(** ** [buffer.rs] *)

(** A byte string literal. *)
Definition bytes_of (s : string) : list byte := String.list_byte_of_string s.

Definition starts_with_one_aligned_page : test :=
  let buffer := buf_new in
  _ ← assert_eq (capacity buffer) MAX_PATH;
  assert_eq (buf_len buffer) 0.

Definition path_operations_stay_within_path_max : test :=
  let path := bytes_of "some/path" ++ nul :: bytes_of "ignored" in
  buffer ← unwrap (set_path path buf_new);
  bytes ← buf_deref buffer;
  _ ← assert_eq bytes path;
  buffer ← truncate_at_nul buffer;
  bytes ← buf_deref buffer;
  _ ← assert_eq bytes (bytes_of "some/path");
  let buffer := buf_truncate 4 buffer in
  bytes ← buf_deref buffer;
  _ ← assert_eq bytes (bytes_of "some");
  let buffer := buf_clear buffer in
  _ ← assert_eq (buf_len buffer) 0;
  error ← unwrap_err (set_path (replicate (MAX_PATH + 1) nul) buffer);
  assert_eq (buf_len buffer) 0.

Definition general_operations_grow_in_aligned_pages : test :=
  let bytes := replicate (MAX_PATH + 1) Byte.x2a in
  buffer ← set_bytes bytes buf_new;
  _ ← assert_eq (capacity buffer) (MAX_PATH * 2);
  actual ← buf_deref buffer;
  assert_eq actual bytes.

(** A closure that writes [bytes] and returns their length. *)
Definition write_all (bytes : list byte) : eff (PageBuffer * ()) ProcessCopyError (nat * ()) :=
  _ ← write_self 0 bytes; mret (length bytes, ()).

Definition closure_writes_have_distinct_path_and_byte_capacities : test :=
  let '(written, s) := write_path_with (write_all (bytes_of "path")) (buf_new, ()) in
  _ ← unwrap written;
  bytes ← buf_deref s.1;
  _ ← assert_eq bytes (bytes_of "path");
  let sevens := replicate (MAX_PATH + 8) Byte.x07 in
  let '(written, s) := write_bytes_with (MAX_PATH + 8) (write_all sevens) s in
  _ ← unwrap written;
  _ ← assert_eq (capacity s.1) (MAX_PATH * 2);
  _ ← assert_eq (buf_len s.1) (MAX_PATH + 8);
  bytes ← buf_deref s.1;
  check (forallb (λ byte, bool_decide (byte = Byte.x07)) bytes).

(** Memory that holds [bytes] from [address] on, and nothing else. *)
Definition holding (address : N) (bytes : list byte) : memory := λ a,
  if decide (address <= a)%N then bytes !! N.to_nat (a - address) else None.

(** The kernel on such a memory; it copies a page at a time. *)
Definition reader (address : N) (bytes : list byte) : ProcessMemory () :=
  process_reader (holding address bytes) MAX_PATH.

Definition ADDRESS : N := 65536.

Definition copies_explicitly_sized_paths_and_bytes : test :=
  let path := bytes_of "path" ++ nul :: bytes_of "after" in
  let '(copied, s) := copy_from_process_path_with_len (H:=reader ADDRESS path) 1 ADDRESS (length path) (buf_new, ()) in
  copied ← unwrap copied;
  _ ← assert_eq copied path;
  let bytes := replicate (MAX_PATH + 1) Byte.x2a in
  let '(copied, s) := copy_from_process_bytes (H:=reader ADDRESS bytes) 1 ADDRESS (length bytes) s in
  copied ← unwrap copied;
  assert_eq copied bytes.

Definition rejects_an_explicit_path_larger_than_path_max : test :=
  error ← unwrap_err (copy_from_process_path_with_len (H:=reader ADDRESS []) 1 0 (MAX_PATH + 1) (buf_new, ())).1;
  assert_eq error (Errno ENAMETOOLONG).

Definition copies_c_paths_without_the_nul : test :=
  let path := bytes_of "some/path" ++ nul :: bytes_of "ignored" in
  copied ← unwrap (copy_from_process_c_path (H:=reader ADDRESS path) 1 ADDRESS (buf_new, ())).1;
  assert_eq copied (bytes_of "some/path").

Definition rejects_c_paths_without_a_nul_in_path_max : test :=
  let path := replicate MAX_PATH Byte.x78 in
  error ← unwrap_err (copy_from_process_c_path (H:=reader ADDRESS path) 1 ADDRESS (buf_new, ())).1;
  assert_eq error (Errno ENAMETOOLONG).

Definition reports_an_invalid_remote_address_as_caller_errno : test :=
  error ← unwrap_err (copy_from_process_bytes (H:=reader ADDRESS []) 1 0 1 (buf_new, ())).1;
  assert_eq error (Errno EFAULT).

(** The string ends with its page, and the next page is not mapped. *)
Definition c_path_stops_before_the_next_unmapped_page : test :=
  let path := bytes_of "path" ++ [nul] in
  let address := (ADDRESS - N.of_nat (length path))%N in
  copied ← unwrap (copy_from_process_c_path (H:=reader address path) 1 address (buf_new, ())).1;
  assert_eq copied (bytes_of "path").

Definition c_path_reports_an_unmapped_page_before_its_terminator : test :=
  let address := (ADDRESS - 4)%N in
  error ← unwrap_err (copy_from_process_c_path (H:=reader address (bytes_of "xxxx")) 1 address (buf_new, ())).1;
  assert_eq error (Errno EFAULT).

(** No process has this number. *)
Definition ESRCH : Z := 3.
Definition no_process : ProcessMemory () := {| process_vm_readv _ _ _ k := ((-1, ESRCH, [])%Z, k) |}.

Definition preserves_unrelated_kernel_failures_as_io_errors : test :=
  error ← unwrap_err (copy_from_process_bytes (H:=no_process) (-1) ADDRESS 1 (buf_new, ())).1;
  assert_eq error (Buffer.Io ESRCH).

Definition accepts_the_longest_c_path : test :=
  let path := replicate (MAX_PATH - 1) Byte.x78 in
  copied ← unwrap (copy_from_process_c_path (H:=reader ADDRESS (path ++ [nul])) 1 ADDRESS (buf_new, ())).1;
  _ ← assert_eq (length copied) (MAX_PATH - 1);
  check (forallb (λ byte, bool_decide (byte = Byte.x78)) copied).

Definition buffer_tests : list test := [
  starts_with_one_aligned_page; path_operations_stay_within_path_max; general_operations_grow_in_aligned_pages;
  closure_writes_have_distinct_path_and_byte_capacities; copies_explicitly_sized_paths_and_bytes;
  rejects_an_explicit_path_larger_than_path_max; copies_c_paths_without_the_nul;
  rejects_c_paths_without_a_nul_in_path_max; reports_an_invalid_remote_address_as_caller_errno;
  c_path_stops_before_the_next_unmapped_page; c_path_reports_an_unmapped_page_before_its_terminator;
  preserves_unrelated_kernel_failures_as_io_errors; accepts_the_longest_c_path].

Lemma buffer_tests_pass : Forall (λ t, t = Ret ()) buffer_tests.
Proof. unfold buffer_tests. run_tests. Qed.

(** ** [supervisor.rs] *)

Record TestFileSpace := { test_space : N }.

#[local] Instance TestFileSpace_dec : EqDecision TestFileSpace.
Proof. solve_decision. Defined.

(** The methods that answer a notification are [unreachable!()]. *)
#[local] Instance TestFileSpace_files : ProcFileSpace TestFileSpace := {|
  lookup_fd _ _ := None;
  respond_real _ _ _ _ := eff_panic;
  respond_mock _ _ _ _ _ := eff_panic;
  remove_file s _ := (None, s);
|}.

(** These tests do not reach the kernel. *)
#[local] Instance no_ptrace : Ptrace () := {|
  sys_ptrace _ _ k := ({| pt_result := -1; pt_errno := 38; pt_regs := no_regs; pt_msg := 0 |}, k);
  sys_waitpid _ _ _ := None;
  sys_waitid _ k := ({| wt_result := -1; wt_errno := 38; wt_status := 0 |}, k);
|}.
#[local] Instance no_memory : ProcessMemory () := reader 0 [].

Definition empty_supervisor `{HashOrder} : exec () (Supervisor TestFileSpace) :=
  setup ← unwrap (compile task_info_default);
  supervisor_new setup.

Definition creation_stop (syscall pid : Z) (args : list N) : ProcessCreationStop :=
  {| pcs_parent := pid; pcs_syscall := syscall; pcs_args := args |}.

Definition SYS_openat : Z := 257.

Section tests.
  Context `{HashOrder}.

Definition registering_a_process_twice_is_a_supervisor_fault : test :=
  supervisor ← empty_supervisor;
  let '(first, s) := register_process (K:=()) 17 {| test_space := 1 |} (supervisor, ()) in
  _ ← unwrap first;
  let '(second, s) := register_process 17 {| test_space := 2 |} s in
  error ← unwrap_err second;
  _ ← match error with Fault (ProcessAlreadyTracked 17) => Ret () | _ => Panic end;
  files ← expect (sv_procs s.1 !! 17%Z);
  assert_eq (test_space files) 1%N.

Definition non_creation_syscall_is_a_supervisor_fault : test :=
  supervisor ← empty_supervisor;
  error ← unwrap_err (process_creation_flags (creation_stop SYS_openat 17 (replicate 6 0%N)) (supervisor, ())).1;
  match error with Fault (UnexpectedSyscall 257) => Ret () | _ => Panic end.

Definition clone3_with_an_undersized_argument_is_invalid : test :=
  supervisor ← empty_supervisor;
  let stop := creation_stop SYS_clone3 17 (<[1:=(CLONE_ARGS_SIZE_VER0 - 1)%N]> (<[0:=1%N]> (replicate 6 0%N))) in
  flags ← unwrap (process_creation_flags stop (supervisor, ())).1;
  match flags with Invalid error => assert_eq error EINVAL | _ => Panic end.

Definition supervisor_tests : list test := [
  registering_a_process_twice_is_a_supervisor_fault; non_creation_syscall_is_a_supervisor_fault;
  clone3_with_an_undersized_argument_is_invalid].

End tests.

Lemma supervisor_tests_pass : Forall (λ t, t = Ret ()) (supervisor_tests (H:=hash_elements)).
Proof. unfold supervisor_tests. run_tests. Qed.
