(* ===== verification/Programs.v ===== *)
(** * Programs of concurrent processes

    [prog call reply E A] is code that runs step by step: it has either ended,
    or it is at a call and knows how to go on with the reply.  Unlike the
    functions of [Effects] it can be interleaved with other programs.  [wlp] is
    its logic: an assertion for every call it is at, and one for its end. *)

From S2P Require Import Prelude.

Section prog.
  Context {call reply : Type}.

Inductive prog (E A : Type) : Type :=
| Stop (r : exec E A)
| Call (c : call) (k : reply → prog E A).

End prog.
Arguments prog call reply E A : clear implicits.
Arguments Stop {call reply E A} r.
Arguments Call {call reply E A} c k.

(** ** Operations *)

Section operations.
  Context {call reply : Type}.

(** What follows a program, whichever way it ends. *)
Fixpoint pcase {E A E' B} (k : exec E A → prog call reply E' B) (m : prog call reply E A)
    : prog call reply E' B :=
  match m with
  | Stop r => k r
  | Call c k' => Call c (λ r, pcase k (k' r))
  end.

#[export] Instance prog_ret {E} : MRet (prog call reply E) := λ A a, Stop (Ret a).
#[export] Instance prog_bind {E} : MBind (prog call reply E) := λ A B k,
  pcase (λ r, match r with
              | Ret a => k a
              | Throw e => Stop (Throw e)
              | Panic => Stop Panic
              | NoFuel => Stop NoFuel
              end).

Definition pthrow {E A} (e : E) : prog call reply E A := Stop (Throw e).
Definition plift {E A} (m : exec E A) : prog call reply E A := Stop m.

(** [Result::map_err]; building the new error may panic. *)
Definition pmap_err {E E' A} (f : E → exec E' A) : prog call reply E A → prog call reply E' A :=
  pcase (λ r, match r with
              | Ret a => Stop (Ret a)
              | Throw e => Stop (f e)
              | Panic => Stop Panic
              | NoFuel => Stop NoFuel
              end).

(** A [Result] that the caller inspects. *)
Definition ptry {E E' A} : prog call reply E A → prog call reply E' (E + A) :=
  pcase (λ r, match r with
              | Ret a => Stop (Ret (inr a))
              | Throw e => Stop (Ret (inl e))
              | Panic => Stop Panic
              | NoFuel => Stop NoFuel
              end).

Definition sys {E} (c : call) : prog call reply E reply := Call c (λ r, Stop (Ret r)).

End operations.

(** ** The logic *)

Section wlp.
  Context {call reply L : Type}.
  (** What a call does to the log of the process, for every reply it may get. *)
  Context (sem : L → call → (reply → L → Prop) → Prop).
  (** What holds whenever the process is at a call. *)
  Context (At : L → call → Prop).

Fixpoint wlp {E A} (m : prog call reply E A) (l : L) (Q : exec E A → L → Prop) : Prop :=
  match m with
  | Stop r => Q r l
  | Call c k => At l c ∧ sem l c (λ r l', wlp (k r) l' Q)
  end.

Hypothesis sem_mono : ∀ l c (P P' : reply → L → Prop),
  (∀ r l', P r l' → P' r l') → sem l c P → sem l c P'.

Lemma wlp_mono {E A} (m : prog call reply E A) l (Q Q' : exec E A → L → Prop) :
  (∀ r l', Q r l' → Q' r l') → wlp m l Q → wlp m l Q'.
Proof.
  intros HQ. revert l. induction m as [r|c k IH]; intros l; simpl; [by apply HQ|].
  intros [Hat Hsem]. split; [done|]. eapply sem_mono; [|done]. intros r l'. apply IH.
Qed.

Lemma wlp_case {E A E' B} (k : exec E A → prog call reply E' B) m l Q :
  wlp m l (λ r l', wlp (k r) l' Q) → wlp (pcase k m) l Q.
Proof.
  revert l. induction m as [r|c k' IH]; intros l; simpl; [done|].
  intros [Hat Hsem]. split; [done|]. eapply sem_mono; [|done]. intros r l'. apply IH.
Qed.

Lemma wlp_bind {E A B} (m : prog call reply E A) (k : A → prog call reply E B) l Q :
  wlp m l (λ r l', match r with
                   | Ret a => wlp (k a) l' Q
                   | Throw e => Q (Throw e) l'
                   | Panic => Q Panic l'
                   | NoFuel => Q NoFuel l'
                   end) → wlp (m ≫= k) l Q.
Proof. intros Hm. apply wlp_case. eapply wlp_mono; [|done]. by intros []. Qed.

Lemma wlp_map_err {E E' A} (f : E → exec E' A) (m : prog call reply E A) l Q :
  wlp m l (λ r l', match r with
                   | Ret a => Q (Ret a) l'
                   | Throw e => Q (f e) l'
                   | Panic => Q Panic l'
                   | NoFuel => Q NoFuel l'
                   end) → wlp (pmap_err f m) l Q.
Proof. intros Hm. apply wlp_case. eapply wlp_mono; [|done]. by intros []. Qed.

Lemma wlp_try {E E' A} (m : prog call reply E A) l (Q : exec E' (E + A) → L → Prop) :
  wlp m l (λ r l', match r with
                   | Ret a => Q (Ret (inr a)) l'
                   | Throw e => Q (Ret (inl e)) l'
                   | Panic => Q Panic l'
                   | NoFuel => Q NoFuel l'
                   end) → wlp (ptry m) l Q.
Proof. intros Hm. apply wlp_case. eapply wlp_mono; [|done]. by intros []. Qed.

Lemma wlp_sys {E} c l (Q : exec E reply → L → Prop) :
  At l c → sem l c (λ r l', Q (Ret r) l') → wlp (sys c) l Q.
Proof. by split. Qed.

Lemma wlp_sys_bind {E A} c (k : reply → prog call reply E A) l Q :
  At l c → sem l c (λ r l', wlp (k r) l' Q) → wlp (sys c ≫= k) l Q.
Proof. by split. Qed.

End wlp.
