(* ===== verification/Spawn.v ===== *)
(** * Starting a target ([spawn.rs])

    The three processes of a launch as programs over the calls they make: the
    supervisor ([spawn_seccomp_target]), the spawner it forks ([spawner_main])
    and the target ([target_entry]), which shares the memory and the
    descriptors of the spawner until it executes.  They share a page of
    integers, which they read and write with [Load] and [Store]. *)

From S2P Require Import Prelude Effects Tracker Ptrace Programs.

Local Open Scope Z_scope.

(** ** Constants *)

Definition STATE_EMPTY : Z := 0.
Definition STATE_LISTENER_CREATED : Z := 1.
Definition STATE_SPAWNED : Z := 2.
Definition STATE_FAILED : Z := 3.

Definition STARTUP_PENDING : Z := 0.
Definition STARTUP_DONE : Z := 1.

Definition TARGET_READY_BYTE : Z := 82.
Definition TRACER_ATTACHED_BYTE : Z := 65.
Definition TRANSFER_BYTE : Z := 83.
Definition TARGET_STACK_SIZE : Z := 1024 * 1024.

Definition EBADF : Z := 9.
Definition EPIPE : Z := 32.
Definition EPROTO : Z := 71.
Definition u16_MAX : Z := 65535.
Definition SIGKILL : Z := 9.
Definition SOL_SOCKET : Z := 1.
Definition SCM_RIGHTS : Z := 1.
Definition MSG_CTRUNC : Z := 8.
Definition MSG_TRUNC : Z := 32.

(** [CMSG_LEN(size_of::<RawFd>())]. *)
Definition CMSG_LEN_FD : Z := 20.

(** [size_of::<SharedStartup>()]: six fields of four bytes. *)
Definition SHARED_STARTUP_SIZE : Z := 24.

(** [WIFEXITED] and [WEXITSTATUS]. *)
Definition WIFEXITED (status : Z) : bool := bool_decide (Z.land status 127 = 0).
Definition WEXITSTATUS (status : Z) : Z := Z.land (Z.shiftr status 8) 255.

(** ** Data *)

Inductive StartupStep :=
| SNone | Stdin | Stdout | Stderr | CloseDescriptors | CloneTarget | NoNewPrivileges
| InstallSeccomp | Exec | TransferListener | AttachTracer.

#[export] Instance StartupStep_dec : EqDecision StartupStep.
Proof. solve_decision. Defined.

(** [step as u32]. *)
Definition step_as_u32 (step : StartupStep) : Z :=
  match step with
  | SNone => 0 | Stdin => 1 | Stdout => 2 | Stderr => 3 | CloseDescriptors => 4 | CloneTarget => 5
  | NoNewPrivileges => 6 | InstallSeccomp => 7 | Exec => 8 | TransferListener => 9 | AttachTracer => 10
  end.

Definition from_raw (value : Z) : StartupStep :=
  match value with
  | 1 => Stdin | 2 => Stdout | 3 => Stderr | 4 => CloseDescriptors | 5 => CloneTarget
  | 6 => NoNewPrivileges | 7 => InstallSeccomp | 8 => Exec | 9 => TransferListener
  | 10 => AttachTracer | _ => SNone
  end.

Record SpawnError := { se_step : StartupStep; se_errno : Z }.

(** [Err(SpawnError::new(step, errno))]. *)
Definition spawn_error {A} (step : StartupStep) (errno : Z) : exec SpawnError A :=
  errno ← normalize errno;
  Throw {| se_step := step; se_errno := errno |}.

(** The fields of the page. *)
Inductive Field := Done | State | TargetPid | ListenerFd | ErrorStep | ErrorCode.

#[export] Instance Field_dec : EqDecision Field.
Proof. solve_decision. Defined.

Record SharedStartup := {
  done : Z; state : Z; target_pid : Z; listener_fd : Z; error_step : Z; error_code : Z;
}.

Definition page_get (f : Field) (p : SharedStartup) : Z :=
  match f with
  | Done => done p | State => state p | TargetPid => target_pid p
  | ListenerFd => listener_fd p | ErrorStep => error_step p | ErrorCode => error_code p
  end.

Definition page_set (f : Field) (v : Z) (p : SharedStartup) : SharedStartup :=
  let set g := if decide (f = g) then v else page_get g p in
  {| done := set Done; state := set State; target_pid := set TargetPid;
     listener_fd := set ListenerFd; error_step := set ErrorStep; error_code := set ErrorCode |}.

(** [libc::sock_filter] is one integer of eight bytes. *)
Abbreviation sock_filter := N.

(** The memory a pointer leads to is not read here; zero is null. *)
Abbreviation pointer := N.

Record SpawnerArgs := {
  sa_filter : list sock_filter; sa_executable : pointer; sa_argv : pointer; sa_envp : pointer;
  sa_spawner_socket : Z; sa_stdin : bool; sa_stdout : bool; sa_stderr : bool;
}.

Record TargetArgs := {
  ta_filter : list sock_filter; ta_filter_len : Z;
  ta_executable : pointer; ta_argv : pointer; ta_envp : pointer;
}.

(** ** Calls and replies *)

Inductive call :=
| Load (f : Field) | Store (f : Field) (v : Z)
| Sysconf | Mmap (len : Z) | Munmap (address len : Z)
| Socketpair | Close (fd : Z) | Send (socket byte : Z) | Recv (socket : Z)
| Sendmsg (socket byte descriptor : Z) | Recvmsg (socket : Z)
| Fork | Waitpid (pid options : Z) | Kill (pid signal : Z) | Attach (request : ptrace_request) (pid : Z)
| Factory (destination : Z) | Dup2 (source destination : Z) | CloseRange (first last : Z)
| CloneChild (stack_top flags : Z) (args : TargetArgs)
| PrctlNoNewPrivs | SeccompNewListener (len : Z) (filter : list sock_filter)
| Execve (executable argv envp : pointer) | Exit (code : Z).

(** One control message: its level, type, length, and the descriptor in it. *)
Record cmsg := { cm_level : Z; cm_type : Z; cm_len : Z; cm_fd : Z }.

(** The result and [errno], and what the call wrote or made: the status of a
    process, the byte, flags and control messages of a message, a pair of
    sockets, the answer of a callback. *)
Record Reply := {
  rp_result : Z; rp_errno : Z; rp_status : Z; rp_byte : Z; rp_flags : Z;
  rp_control : list cmsg; rp_sockets : Z * Z; rp_made : Z + Z;
}.

Abbreviation Prog := (prog call Reply).

Definition load {E} (f : Field) : Prog E Z := r ← sys (Load f); mret (rp_result r).
Definition store {E} (f : Field) (v : Z) : Prog E () := _ ← sys (Store f v); mret ().
Definition close {E} (fd : Z) : Prog E () := _ ← sys (Close fd); mret ().

(** A call on [EINTR] again. *)
Definition interrupted (r : Reply) : Prop := rp_result r < 0 ∧ rp_errno r = EINTR.

#[export] Instance interrupted_dec r : Decision (interrupted r).
Proof. unfold interrupted. apply _. Defined.

(** ** The page *)

Definition fresh_page : SharedStartup :=
  {| done := STARTUP_PENDING; state := STATE_EMPTY; target_pid := -1; listener_fd := -1;
     error_step := step_as_u32 SNone; error_code := 0 |}.

(** The new page is given with its first contents. *)
Definition exchange_new : Prog IoError (Z * Z * SharedStartup) :=
  r ← sys Sysconf;
  let page_size := rp_result r in
  if decide (page_size <= 0) then pthrow (OsError (rp_errno r))
  else if decide (SHARED_STARTUP_SIZE > page_size) then pthrow (CustomError KOther)
  else
    m ← sys (Mmap page_size);
    if decide (rp_result m = -1) then pthrow (OsError (rp_errno m))
    else if decide (rp_result m = 0) then plift Panic
    else mret (rp_result m, page_size, fresh_page).

(** [Drop]; the debug assertion panics. *)
Definition exchange_drop (exchange : Z * Z) : Prog IoError () :=
  r ← sys (Munmap exchange.1 exchange.2);
  if decide (rp_result r = 0) then mret () else plift Panic.

Definition reset {E} : Prog E () :=
  _ ← store Done STARTUP_PENDING;
  _ ← store TargetPid (-1);
  _ ← store ListenerFd (-1);
  _ ← store ErrorStep (step_as_u32 SNone);
  _ ← store ErrorCode 0;
  store State STATE_EMPTY.

Definition record_failure {E} (step : StartupStep) (errno : Z) : Prog E () :=
  _ ← store ErrorStep (step_as_u32 step);
  errno ← plift (normalize errno);
  _ ← store ErrorCode errno;
  store State STATE_FAILED.

Definition publish_target_failure {E} (step : StartupStep) (errno : Z) : Prog E () :=
  _ ← store ErrorStep (step_as_u32 step);
  errno ← plift (normalize errno);
  _ ← store ErrorCode errno;
  store State STATE_FAILED.

(** [Err(read_shared_error(shared))]. *)
Definition read_shared_error {A} : Prog SpawnError A :=
  step ← load ErrorStep;
  code ← load ErrorCode;
  plift (spawn_error (from_raw step) code).

Section spawn.
  (** A bound on the calls that are interrupted in a row. *)
  Context (fuel : nat).

(** ** Messages *)

Definition socket_pair : Prog IoError (Z * Z) :=
  r ← sys Socketpair;
  if decide (rp_result r < 0) then pthrow (OsError (rp_errno r)) else mret (rp_sockets r).

Fixpoint send_control_loop {E} (n : nat) (socket byte : Z) : Prog E (Z + ()) :=
  match n with
  | O => plift NoFuel
  | S n =>
      r ← sys (Send socket byte);
      if decide (rp_result r = 1) then mret (inr ())
      else if decide (interrupted r) then send_control_loop n socket byte
      else mret (inl (if decide (rp_result r < 0) then rp_errno r else EIO))
  end.
Definition send_control {E} (socket byte : Z) : Prog E (Z + ()) := send_control_loop fuel socket byte.

Fixpoint recv_control_loop {E} (n : nat) (socket : Z) : Prog E (Z + Z) :=
  match n with
  | O => plift NoFuel
  | S n =>
      r ← sys (Recv socket);
      if decide (rp_result r = 1) then mret (inr (rp_byte r))
      else if decide (interrupted r) then recv_control_loop n socket
      else mret (inl (if decide (rp_result r < 0) then rp_errno r else EPIPE))
  end.
Definition recv_control {E} (socket : Z) : Prog E (Z + Z) := recv_control_loop fuel socket.

Fixpoint send_fd_loop {E} (n : nat) (socket descriptor : Z) : Prog E (Z + ()) :=
  match n with
  | O => plift NoFuel
  | S n =>
      r ← sys (Sendmsg socket TRANSFER_BYTE descriptor);
      if decide (rp_result r = 1) then mret (inr ())
      else if decide (rp_result r < 0) then
        if decide (rp_errno r = EINTR) then send_fd_loop n socket descriptor
        else mret (inl (rp_errno r))
      else mret (inl EIO)
  end.
Definition send_fd {E} (socket descriptor : Z) : Prog E (Z + ()) := send_fd_loop fuel socket descriptor.

(** The first control message with a descriptor; a negative one is ignored. *)
Fixpoint received_fd (control : list cmsg) : option Z :=
  match control with
  | [] => None
  | header :: rest =>
      if decide (cm_level header = SOL_SOCKET ∧ cm_type header = SCM_RIGHTS ∧
                 CMSG_LEN_FD <= cm_len header) then
        if decide (0 <= cm_fd header) then Some (cm_fd header) else None
      else received_fd rest
  end.

Fixpoint recvmsg_loop (n : nat) (socket : Z) : Prog IoError Reply :=
  match n with
  | O => plift NoFuel
  | S n =>
      r ← sys (Recvmsg socket);
      if decide (0 <= rp_result r) then mret r
      else if decide (rp_errno r ≠ EINTR) then pthrow (OsError (rp_errno r))
      else recvmsg_loop n socket
  end.

(** An [OwnedFd] that goes out of scope. *)
Definition drop_fd {E} (received : option Z) : Prog E () :=
  match received with Some fd => close fd | None => mret () end.

Definition recv_fd (socket : Z) : Prog IoError Z :=
  r ← recvmsg_loop fuel socket;
  if decide (rp_result r = 0) then pthrow (CustomError KUnexpectedEof)
  else
    let received := received_fd (rp_control r) in
    if decide (rp_result r ≠ 1 ∨ rp_byte r ≠ TRANSFER_BYTE) then
      _ ← drop_fd received;
      pthrow (CustomError KInvalidData)
    else if decide (Z.land (rp_flags r) (Z.lor MSG_CTRUNC MSG_TRUNC) ≠ 0) then
      _ ← drop_fd received;
      pthrow (CustomError KInvalidData)
    else
      match received with
      | Some fd => mret fd
      | None => pthrow (CustomError KInvalidData)
      end.

(** ** Waiting *)

Fixpoint waitpid_nointr_loop {E} (n : nat) (pid : Z) : Prog E (IoError + Z) :=
  match n with
  | O => plift NoFuel
  | S n =>
      r ← sys (Waitpid pid 0);
      if decide (rp_result r = pid) then mret (inr (rp_status r))
      else if decide (interrupted r) then waitpid_nointr_loop n pid
      else mret (inl (OsError (rp_errno r)))
  end.
Definition waitpid_nointr {E} (pid : Z) : Prog E (IoError + Z) := waitpid_nointr_loop fuel pid.

(** The loop returns whether the target has to be killed. *)
Fixpoint reap_target_loop {E} (n : nat) (pid : Z) : Prog E bool :=
  match n with
  | O => plift NoFuel
  | S n =>
      r ← sys (Waitpid pid WNOHANG);
      if decide (rp_result r = pid ∨ (rp_result r < 0 ∧ rp_errno r = ECHILD)) then mret false
      else if decide (rp_result r < 0) then
        if decide (rp_errno r = EINTR) then reap_target_loop n pid else mret false
      else mret true
  end.

Definition terminate_and_reap_target {E} : Prog E () :=
  pid ← load TargetPid;
  if decide (pid <= 0) then mret ()
  else
    alive ← reap_target_loop fuel pid;
    if alive : bool then
      _ ← sys (Kill pid SIGKILL);
      _ ← waitpid_nointr pid;
      mret ()
    else mret ().

(** ** The target *)

Definition target_entry (args : TargetArgs) : Prog SpawnError () :=
  let exit := λ code, sys (Exit code) ≫= λ _, plift Panic in
  p ← sys PrctlNoNewPrivs;
  if decide (rp_result p < 0) then
    _ ← publish_target_failure NoNewPrivileges (rp_errno p);
    exit 127
  else
    s ← sys (SeccompNewListener (ta_filter_len args mod (u16_MAX + 1)) (ta_filter args));
    let listener := rp_result s in
    if decide (listener < 0) then
      _ ← publish_target_failure InstallSeccomp (rp_errno s);
      exit 127
    else
      _ ← store ListenerFd (as_i32 listener);
      _ ← store State STATE_LISTENER_CREATED;
      e ← sys (Execve (ta_executable args) (ta_argv args) (ta_envp args));
      _ ← publish_target_failure Exec (rp_errno e);
      exit 127.

Definition CLONE_VM : Z := 256.
Definition CLONE_VFORK : Z := 16384.
Definition CLONE_FILES : Z := 1024.
Definition CLONE_PARENT : Z := 32768.
Definition SIGCHLD : Z := 17.

(** The process id, and the [errno] that is left. *)
Definition clone_target {E} (args : TargetArgs) : Prog E (Z * Z) :=
  stack ← sys (Mmap TARGET_STACK_SIZE);
  if decide (rp_result stack = -1) then mret (-1, rp_errno stack)
  else
    let stack_top := rp_result stack + TARGET_STACK_SIZE in
    let flags := Z.lor CLONE_VM (Z.lor CLONE_VFORK (Z.lor CLONE_FILES (Z.lor CLONE_PARENT SIGCHLD))) in
    pid ← sys (CloneChild stack_top flags args);
    _ ← sys (Munmap (rp_result stack) TARGET_STACK_SIZE);
    mret (rp_result pid, rp_errno pid).

(** ** The spawner *)

(** [Result<(), c_int>] as a value: [inl errno] or [inr ()]. *)
Definition install_standard_stream {E} (factory : bool) (destination : Z) : Prog E (Z + ()) :=
  if factory then
    m ← sys (Factory destination);
    match rp_made m with
    | inl errno => errno ← plift (normalize errno); mret (inl errno)
    | inr source =>
        if decide (source < 0) then mret (inl EBADF)
        else if decide (source <= 2) then mret (inl EINVAL)
        else
          r ← sys (Dup2 source destination);
          if decide (rp_result r < 0) then
            _ ← close source;
            mret (inl (rp_errno r))
          else
            _ ← close source;
            mret (inr ())
    end
  else mret (inr ()).

Fixpoint close_range_loop {E} (n : nat) (first last : Z) : Prog E (Z + ()) :=
  match n with
  | O => plift NoFuel
  | S n =>
      r ← sys (CloseRange first last);
      if decide (rp_result r = 0) then mret (inr ())
      else if decide (rp_errno r ≠ EINTR) then mret (inl (rp_errno r))
      else close_range_loop n first last
  end.
Definition close_range {E} (first last : Z) : Prog E (Z + ()) := close_range_loop fuel first last.

(** [keep] is a non-negative [i32], so the casts and the sum do not wrap. *)
Definition close_unwanted_fds {E} (keep : Z) : Prog E (Z + ()) :=
  if decide (keep < 3) then mret (inl EINVAL)
  else
    below ← (if decide (keep > 3) then close_range 3 (keep - 1) else mret (inr ()));
    match below with
    | inl errno => mret (inl errno)
    | inr _ => close_range (keep + 1) (Z.of_N u32_MAX)
    end.

(** The two ways in which the spawner gives up. *)
Definition fail_startup {E} (step : StartupStep) (errno : Z) : Prog E Z :=
  _ ← record_failure step errno;
  mret 127.
Definition fail_launched {E} (target_pid : Z) (step : StartupStep) (errno : Z) : Prog E Z :=
  _ ← record_failure step errno;
  _ ← sys (Kill target_pid SIGKILL);
  mret 127.

(** [send_control], [recv_control] and [send_fd] once the target runs. *)
Definition hand_over {E} (socket target_pid listener : Z) : Prog E Z :=
  ready ← send_control socket TARGET_READY_BYTE;
  match ready with
  | inl errno => fail_launched target_pid TransferListener errno
  | inr _ =>
      attached ← recv_control socket;
      match attached with
      | inl errno => fail_launched target_pid TransferListener errno
      | inr byte =>
          if decide (byte = TRACER_ATTACHED_BYTE) then
            sent ← send_fd socket listener;
            match sent with
            | inl errno => fail_launched target_pid TransferListener errno
            | inr _ => _ ← store State STATE_SPAWNED; mret 0
            end
          else fail_launched target_pid TransferListener EPROTO
      end
  end.

Definition launch_target {E} (socket : Z) (args : TargetArgs) : Prog E Z :=
  target ← clone_target args;
  let '(target_pid, errno) := target : Z * Z in
  if decide (target_pid < 0) then fail_startup CloneTarget errno
  else
    _ ← store TargetPid target_pid;
    failed ← load State;
    if decide (failed = STATE_FAILED) then mret 127
    else
      created ← load State;
      if decide (created ≠ STATE_LISTENER_CREATED) then fail_launched target_pid Exec EIO
      else
        listener ← load ListenerFd;
        if decide (listener < 0) then fail_launched target_pid InstallSeccomp EBADF
        else hand_over socket target_pid listener.

Definition spawner_main {E} (args : SpawnerArgs) : Prog E Z :=
  stdin ← install_standard_stream (sa_stdin args) 0;
  match stdin with
  | inl errno => fail_startup Stdin errno
  | inr _ =>
  stdout ← install_standard_stream (sa_stdout args) 1;
  match stdout with
  | inl errno => fail_startup Stdout errno
  | inr _ =>
  stderr ← install_standard_stream (sa_stderr args) 2;
  match stderr with
  | inl errno => fail_startup Stderr errno
  | inr _ =>
  closed ← close_unwanted_fds (sa_spawner_socket args);
  match closed with
  | inl errno => fail_startup CloseDescriptors errno
  | inr _ =>
      launch_target (sa_spawner_socket args)
        {| ta_filter := sa_filter args; ta_filter_len := Z.of_nat (length (sa_filter args));
           ta_executable := sa_executable args; ta_argv := sa_argv args; ta_envp := sa_envp args |}
  end end end end.

(** ** The supervisor *)

Definition validate_inputs (filter : list sock_filter) (executable argv envp : pointer)
    : exec SpawnError () :=
  if decide (length filter = 0%nat ∨ u16_MAX < Z.of_nat (length filter)) then
    spawn_error InstallSeccomp EINVAL
  else if decide (executable = 0%N ∨ argv = 0%N ∨ envp = 0%N) then spawn_error Exec EFAULT
  else Ret ().

(** [ptrace::seize]. *)
Definition seize (pid : Z) : Prog IoError () :=
  r ← sys (Attach (PTRACE_SEIZE TRACE_OPTIONS) pid);
  if decide (rp_result r < 0) then pthrow (OsError (rp_errno r)) else mret ().

Definition step_error {A} (step : StartupStep) : Prog IoError A → Prog SpawnError A :=
  pmap_err (λ error, spawn_error step (from_io error)).

(** The closure whose result is [listener_result]. *)
Definition receive_listener (socket : Z) : Prog SpawnError Z :=
  message ← recv_control socket;
  match message with
  | inl error => plift (spawn_error TransferListener error)
  | inr message =>
      if decide (message ≠ TARGET_READY_BYTE) then plift (spawn_error TransferListener EPROTO)
      else
        pid ← load TargetPid;
        if decide (pid <= 0) then plift (spawn_error CloneTarget ECHILD)
        else
          _ ← step_error AttachTracer (seize pid);
          sent ← send_control socket TRACER_ATTACHED_BYTE;
          match sent with
          | inl error => plift (spawn_error TransferListener error)
          | inr _ => step_error TransferListener (recv_fd socket)
          end
  end.

(** The second closure, up to [startup_done = true] and from there on. *)
Definition startup_status (wait_result : IoError + Z) : Prog SpawnError Z :=
  match wait_result with
  | inl error => plift (spawn_error CloneTarget (from_io error))
  | inr status =>
      finished ← load Done;
      if decide (finished ≠ STARTUP_DONE) then plift (spawn_error CloneTarget ECHILD)
      else mret status
  end.

Definition startup_result (status : Z) (listener_result : SpawnError + Z) : Prog SpawnError (Z * Z) :=
  let checked :=
    failed ← load State;
    if decide (failed = STATE_FAILED) then read_shared_error
    else if decide (WIFEXITED status = false ∨ WEXITSTATUS status ≠ 0) then
      plift (spawn_error CloneTarget ECHILD)
    else
      match listener_result with
      | inl error => pthrow error
      | inr listener =>
          spawned ← load State;
          if decide (spawned ≠ STATE_SPAWNED) then plift (spawn_error CloneTarget EIO)
          else
            pid ← load TargetPid;
            if decide (pid <= 0) then plift (spawn_error CloneTarget ECHILD)
            else mret (listener, pid)
      end in
  match listener_result with
  | inl error =>
      if decide (se_step error = AttachTracer) then plift (spawn_error (se_step error) (se_errno error))
      else checked
  | inr _ => checked
  end.

Definition drop_listener {E} (listener_result : SpawnError + Z) : Prog E () :=
  match listener_result with inl _ => mret () | inr listener => close listener end.

(** After [fork], in the supervisor. The closure drops the listener when it
    fails, and the function its socket when it ends. *)
Definition supervise (supervisor_socket spawner_socket spawner_pid : Z) : Prog SpawnError (Z * Z) :=
  _ ← close spawner_socket;
  listener_result ← ptry (receive_listener supervisor_socket);
  _ ← (match listener_result with inl _ => close supervisor_socket | inr _ => mret () end);
  wait_result ← waitpid_nointr spawner_pid;
  let finish := λ result : exec SpawnError (Z * Z),
    _ ← (match listener_result with inl _ => mret () | inr _ => close supervisor_socket end);
    plift result in
  status ← ptry (startup_status wait_result);
  match status with
  | inl error => _ ← drop_listener listener_result; finish (Throw error)
  | inr status =>
      result ← ptry (startup_result status listener_result);
      match result with
      | inl error =>
          _ ← drop_listener listener_result;
          _ ← terminate_and_reap_target;
          finish (Throw error)
      | inr tracker => finish (Ret tracker)
      end
  end.

(** [fork] returns in both processes. The result is the listener of the
    [Tracker] and the process. *)
Definition spawn_seccomp_target (filter : list sock_filter) (executable argv envp : pointer)
    (stdin stdout stderr : bool) : Prog SpawnError (Z * Z) :=
  _ ← plift (validate_inputs filter executable argv envp);
  _ ← reset;
  sockets ← step_error TransferListener socket_pair;
  let '(supervisor_socket, spawner_socket) := sockets : Z * Z in
  let args := {| sa_filter := filter; sa_executable := executable; sa_argv := argv; sa_envp := envp;
                 sa_spawner_socket := spawner_socket;
                 sa_stdin := stdin; sa_stdout := stdout; sa_stderr := stderr |} in
  forked ← sys Fork;
  let spawner_pid := rp_result forked in
  if decide (spawner_pid < 0) then
    _ ← close spawner_socket;
    _ ← close supervisor_socket;
    plift (spawn_error CloneTarget (rp_errno forked))
  else if decide (spawner_pid = 0) then
    exit_code ← spawner_main args;
    _ ← store Done STARTUP_DONE;
    _ ← sys (Exit exit_code);
    plift Panic
  else supervise supervisor_socket spawner_socket spawner_pid.

End spawn.
