(* ===== verification/Filters.v ===== *)
(** * The embedded filters ([src/src/seccomp_filters.rs])

    The crate embeds the files the build script wrote: [include_bytes!] reads
    them at compile time and [transmute] turns the bytes into an array of
    [sock_filter].  A compilation error is [Panic].  The second half composes
    this with the build script: the constants the runner installs are the
    policies of [Policy]. *)

From S2P Require Import Prelude Policy Buffer Processes.
From S2P Require Spawn.

(** ** From a file to a constant *)

(** [size_of::<libc::sock_filter>()], asserted by the file. *)
Definition SOCK_FILTER_SIZE : nat := 8.

(** An instruction is its eight bytes, as in [Spawn]. *)
Abbreviation sock_filter := Spawn.sock_filter.

Section include.
  Context {E : Type}.

Definition filter_len (bytes : list byte) : exec E nat :=
  _ ← check (bool_decide (length bytes `mod` SOCK_FILTER_SIZE = 0));
  Ret (length bytes `div` SOCK_FILTER_SIZE).

(** [transmute::<[u8; N], [sock_filter; LEN]>]. *)
Definition transmute_filter (bytes : list byte) (len : nat) : list sock_filter :=
  (λ i, u64_from_ne_bytes (take SOCK_FILTER_SIZE (drop (SOCK_FILTER_SIZE * i) bytes))) <$> seq 0 len.

(** The macro on the bytes of the file. *)
Definition include_filter (bytes : list byte) : exec E (list sock_filter) :=
  len ← filter_len bytes;
  Ret (transmute_filter bytes len).

(** [include_bytes!(concat!(env!("OUT_DIR"), "/", $file))] in a directory
    given by its files. *)
Definition generated_filter_bytes (out_dir : string) (files : list (string * list byte)) (file : string)
    : exec E (list byte) :=
  expect (snd ∘ snd <$> list_find (λ f, f.1 = out_dir +:+ "/" +:+ file) files).

Section constants.
  Context (out_dir : string) (files : list (string * list byte)).

Definition embed (file : string) : exec E (list sock_filter) :=
  bytes ← generated_filter_bytes out_dir files file;
  include_filter bytes.

Definition X86_64_RANGE_FILE_ONLY : exec E (list sock_filter) := embed "x86_64_range_file_only.bpf".
Definition X86_64_RANGE_STRICT : exec E (list sock_filter) := embed "x86_64_range_strict.bpf".
Definition X86_64_MAPPED_FILE_ONLY : exec E (list sock_filter) := embed "x86_64_mapped_file_only.bpf".
Definition X86_64_MAPPED_STRICT : exec E (list sock_filter) := embed "x86_64_mapped_strict.bpf".

End constants.
End include.

(** ** The memory of a program *)

Definition byte_of (n : N) : byte := default Byte.x00 (Byte.of_N (n `mod` 256)).

(** The eight bytes of an instruction, as the kernel finds them. *)
Fixpoint ne_bytes (len : nat) (n : N) : list byte :=
  match len with
  | 0 => []
  | S len => byte_of n :: ne_bytes len (n / 256)
  end.

Definition program_bytes (program : list sock_filter) : list byte :=
  program ≫= ne_bytes SOCK_FILTER_SIZE.

(** What the files of a build contain, and what the kernel does with a program
    in memory; [bpf_run] is what it does with an exported one. *)
Class FilterFiles `{Libseccomp} := {
  bpf_bytes : Bpf → list byte;
  program_run : list sock_filter → N → list N → ScmpAction;
}.

Class FilterFilesLaws `{FilterFiles} := {
  law_bytes_len b : bpf_byte_len b = N.of_nat (length (bpf_bytes b));
  law_program_run b program nr args : program_bytes program = bpf_bytes b →
    Forall (λ w, w < 2 ^ 64)%N program → program_run program nr args = bpf_run b nr args;
}.

(** ** Lemmas *)

Lemma to_N_byte_of n : Byte.to_N (byte_of n) = (n `mod` 256)%N.
Proof.
  unfold byte_of. destruct (Byte.of_N (n `mod` 256)) as [b|] eqn:Hb; [by apply Byte.to_of_N|].
  apply Byte.of_N_None_iff in Hb. pose proof (N.mod_lt n 256). lia.
Qed.

Lemma byte_of_to_N b : byte_of (Byte.to_N b) = b.
Proof.
  unfold byte_of. pose proof (Byte.to_N_bounded b). rewrite N.mod_small by lia. by rewrite Byte.of_to_N.
Qed.

Lemma length_ne_bytes len n : length (ne_bytes len n) = len.
Proof. revert n. induction len; intros n; simpl; auto. Qed.

Lemma ne_bytes_from bytes : ne_bytes (length bytes) (u64_from_ne_bytes bytes) = bytes.
Proof.
  induction bytes as [|b bytes IH]; [done|]. cbn [length ne_bytes]. unfold u64_from_ne_bytes in *. cbn [foldr].
  set (n := foldr _ _ _) in *. pose proof (Byte.to_N_bounded b). f_equal.
  - rewrite <-(byte_of_to_N b) at 2. unfold byte_of. do 2 f_equal.
    rewrite N.mul_comm. apply N.Div0.mod_add.
  - rewrite N.mul_comm, N.div_add, N.div_small by lia. by rewrite N.add_0_l.
Qed.

Lemma from_ne_bytes len n : u64_from_ne_bytes (ne_bytes len n) = (n `mod` 256 ^ N.of_nat len)%N.
Proof.
  unfold u64_from_ne_bytes. revert n. induction len as [|len IH]; intros n; cbn [ne_bytes foldr].
  - by rewrite N.mod_1_r.
  - rewrite IH, to_N_byte_of, Nat2N.inj_succ, N.pow_succ_r'. by rewrite N.Div0.mod_mul_r.
Qed.

Lemma from_ne_bytes_bound bytes : (u64_from_ne_bytes bytes < 256 ^ N.of_nat (length bytes))%N.
Proof. rewrite <-(ne_bytes_from bytes) at 1. rewrite from_ne_bytes. apply N.mod_lt. by apply N.pow_nonzero. Qed.

Lemma length_program_bytes program : length (program_bytes program) = SOCK_FILTER_SIZE * length program.
Proof.
  unfold program_bytes. induction program as [|w program IH]; [done|]. rewrite bind_cons, length_app, length_ne_bytes, IH.
  cbn [length]. lia.
Qed.

Lemma transmute_cons c bytes len : length c = SOCK_FILTER_SIZE →
  transmute_filter (c ++ bytes) (S len) = u64_from_ne_bytes c :: transmute_filter bytes len.
Proof.
  intros Hc. unfold transmute_filter. rewrite <-cons_seq, fmap_cons. f_equal.
  - rewrite Nat.mul_0_r, drop_0, <-Hc. by rewrite take_app_length.
  - rewrite <-fmap_S_seq, <-list_fmap_compose. apply list_fmap_ext. intros i j _. unfold compose. do 2 f_equal.
    replace (SOCK_FILTER_SIZE * S j) with (length c + SOCK_FILTER_SIZE * j) by lia. by rewrite drop_app_add.
Qed.

(** The array has the bytes of the file. *)
Lemma transmute_program bytes len : length bytes = SOCK_FILTER_SIZE * len →
  program_bytes (transmute_filter bytes len) = bytes ∧
  Forall (λ w, w < 2 ^ 64)%N (transmute_filter bytes len).
Proof.
  revert bytes. induction len as [|len IH]; intros bytes Hlen.
  - rewrite Nat.mul_0_r in Hlen. by apply nil_length_inv in Hlen as ->.
  - rewrite <-(take_drop SOCK_FILTER_SIZE bytes).
    assert (Hc : length (take SOCK_FILTER_SIZE bytes) = SOCK_FILTER_SIZE) by (rewrite length_take; lia).
    destruct (IH (drop SOCK_FILTER_SIZE bytes)) as [Hb Hf]; [rewrite length_drop; lia|].
    rewrite transmute_cons by done. split.
    + unfold program_bytes in *. rewrite bind_cons, Hb. f_equal. rewrite <-Hc at 1. apply ne_bytes_from.
    + constructor; [|done]. pose proof (from_ne_bytes_bound (take SOCK_FILTER_SIZE bytes)) as Hb'.
      by rewrite Hc in Hb'.
Qed.

Lemma transmute_program_bytes program : Forall (λ w, w < 2 ^ 64)%N program →
  transmute_filter (program_bytes program) (length program) = program.
Proof.
  induction 1 as [|w program Hw _ IH]; [done|]. unfold program_bytes in *. rewrite bind_cons. cbn [length].
  rewrite transmute_cons by apply length_ne_bytes. rewrite IH. f_equal. rewrite from_ne_bytes. by apply N.mod_small.
Qed.

Lemma include_filter_ret {E} bytes : length bytes `mod` SOCK_FILTER_SIZE = 0 →
  include_filter (E:=E) bytes = Ret (transmute_filter bytes (length bytes `div` SOCK_FILTER_SIZE)).
Proof. intros Hm. unfold include_filter, filter_len. by rewrite bool_decide_true. Qed.

(** The compiler finds each file of the build under its name. *)
Lemma find_policy_file {A} (Q : Policy → A → Prop) dir ps files p :
  NoDup (file_name <$> ps) → p ∈ ps →
  Forall2 (λ p (f : string * A), f.1 = dir +:+ "/" +:+ file_name p ∧ Q p f.2) ps files →
  ∃ i f, list_find (λ f, f.1 = dir +:+ "/" +:+ file_name p) files = Some (i, f) ∧ Q p f.2.
Proof.
  intros Hnd Hp Hall. induction Hall as [|q f ps files [Hq HQ] _ IH]; [by apply elem_of_nil in Hp|].
  rewrite fmap_cons in Hnd. apply NoDup_cons in Hnd as [Hnew Hnd]. simpl. apply elem_of_cons in Hp as [->|Hp].
  - rewrite decide_True by done. by exists 0, f.
  - rewrite decide_False.
    + destruct IH as (i & f' & Hf & HQ'); [done|done|]. rewrite Hf. by exists (S i), f'.
    + rewrite Hq. intros Heq%(inj _)%(inj _). apply Hnew. rewrite Heq. by apply list_elem_of_fmap_2.
Qed.

Section build.
  Context `{LibseccompLaws}.

(** The script checks the length of what libseccomp wrote. *)
Lemma export_filter_len create path p b :
  export_filter create path p = Ret b → (bpf_byte_len b ≠ 0 ∧ bpf_byte_len b `mod` 8 = 0)%N.
Proof.
  unfold export_filter. intros Hb.
  repeat first [apply bind_ret_inv in Hb as (? & _ & Hb) | case_match; [|done] | case_match]; [done|].
  injection Hb as ->. match goal with H : decide _ = right ?n |- _ => clear H; rename n into Hok end.
  split; [tauto|]. apply dec_stable. tauto.
Qed.

Context `{!FilterFiles} `{!FilterFilesLaws}.

(** A constant that behaves as a policy says. *)
Definition embeds (p : Policy) (constant : exec () (list sock_filter)) : Prop :=
  ∃ filter, constant = Ret filter ∧ filter ≠ [] ∧
    (∀ name nr args, syscall_from_name name = Some nr →
       program_run filter nr args = policy_decision p name args) ∧
    (∀ nr args, (∀ name, syscall_from_name name ≠ Some nr) → program_run filter nr args = Notify).

Lemma include_bpf p b :
  bpf_decides p b → (bpf_byte_len b ≠ 0 ∧ bpf_byte_len b `mod` 8 = 0)%N → embeds p (include_filter (bpf_bytes b)).
Proof.
  intros [Hknown Hunknown] [Hne Hmod]. rewrite law_bytes_len in Hne, Hmod.
  assert (Hm : length (bpf_bytes b) `mod` SOCK_FILTER_SIZE = 0).
  { unfold SOCK_FILTER_SIZE. apply Nat2N.inj. rewrite Nat2N.inj_mod. exact Hmod. }
  set (len := length (bpf_bytes b) `div` SOCK_FILTER_SIZE).
  assert (Hlen : length (bpf_bytes b) = SOCK_FILTER_SIZE * len).
  { rewrite (Nat.div_mod_eq (length (bpf_bytes b)) SOCK_FILTER_SIZE) at 1. rewrite Hm. fold len. lia. }
  destruct (transmute_program _ _ Hlen) as [Hbytes Hwords].
  exists (transmute_filter (bpf_bytes b) len). split; [by apply include_filter_ret|]. split_and!.
  - intros Hnil. rewrite Hnil in Hbytes. rewrite <-Hbytes in Hne. done.
  - intros name nr args Hn. rewrite (law_program_run b) by done. by apply Hknown.
  - intros nr args Hn. rewrite (law_program_run b) by done. by apply Hunknown.
Qed.

Lemma embed_policy p dir files :
  p ∈ POLICIES →
  Forall2 (λ p g, g.1 = dir +:+ "/" +:+ file_name p ∧ bpf_decides p g.2 ∧
    (bpf_byte_len g.2 ≠ 0 ∧ bpf_byte_len g.2 `mod` 8 = 0)%N) POLICIES files →
  embeds p (embed dir (prod_map id bpf_bytes <$> files) (file_name p)).
Proof.
  intros Hp Hall. unfold embed, generated_filter_bytes.
  destruct (find_policy_file (λ p bytes, ∃ b, bytes = bpf_bytes b ∧ bpf_decides p b ∧
    (bpf_byte_len b ≠ 0 ∧ bpf_byte_len b `mod` 8 = 0)%N) dir POLICIES (prod_map id bpf_bytes <$> files) p)
    as (i & [path bytes] & Hf & b & Hb & Hdec & Hlen).
  - refine (bool_decide_unpack _ _). vm_compute. exact I.
  - done.
  - apply Forall2_fmap_r. eapply Forall2_impl; [done|]. intros q [path b] (Hpath & Hdec & Hlen). split; [done|]. by exists b.
  - rewrite Hf. simpl in *. rewrite Hb. by apply include_bpf.
Qed.

End build.

(** ** Properties *)

(** C38: embedding loses nothing: a file is accepted exactly when it is made of
    whole instructions, the memory of the constant is then the file byte for
    byte, and the bytes of any program are embedded as that program. *)
Theorem include_filter_roundtrip bytes program :
  (include_filter (E:=()) bytes = Ret program ↔
   program_bytes program = bytes ∧ Forall (λ w, w < 2 ^ 64)%N program) ∧
  ((∃ program, include_filter (E:=()) bytes = Ret program) ↔ length bytes `mod` SOCK_FILTER_SIZE = 0).
Proof.
  assert (Hfit : ∀ program', include_filter (E:=()) bytes = Ret program' →
    length bytes `mod` SOCK_FILTER_SIZE = 0 ∧ program' = transmute_filter bytes (length bytes `div` SOCK_FILTER_SIZE)).
  { intros program'. unfold include_filter, filter_len. case_bool_decide as Hm; [|done]. simpl. by intros [= <-]. }
  split; split.
  - intros [Hm ->]%Hfit. apply transmute_program. by apply Nat.Div0.div_exact.
  - intros [<- Hw]. rewrite include_filter_ret; rewrite length_program_bytes, Nat.mul_comm.
    + rewrite Nat.div_mul by done. by rewrite transmute_program_bytes.
    + apply Nat.Div0.mod_mul.
  - by intros (program' & [? _]%Hfit).
  - intros Hm. rewrite include_filter_ret by done. by eexists.
Qed.

(** C18: the build script and the crate fit together: for an x86-64 Linux target
    and a writable output directory the script succeeds, the four constants of
    the crate compile against what it wrote, none is empty, and the kernel
    runs each as its policy decides every system call. *)
Theorem embedded_filters_decide `{FilterFilesLaws} `{!LibseccompLaws} env dir :
  is_Some (syscall_from_name "mmap") → (∀ path, creates env path = true) →
  target_os env = Some "linux" → target_arch env = Some "x86_64" → out_dir env = Some dir →
  ∃ files base, main env = Ret (files, base) ∧
    let contents := prod_map id bpf_bytes <$> files in
    Forall2 embeds POLICIES
      [X86_64_RANGE_FILE_ONLY dir contents; X86_64_RANGE_STRICT dir contents;
       X86_64_MAPPED_FILE_ONLY dir contents; X86_64_MAPPED_STRICT dir contents].
Proof.
  intros Hmmap Hcreate Hos Harch Hdir.
  destruct (main_files env dir Hmmap Hcreate Hos Harch Hdir) as (files & Hmain & Hall).
  exists files, MOCK_FD_BASE. split; [done|]. simpl.
  assert (Hembed : ∀ p, p ∈ POLICIES → embeds p (embed dir (prod_map id bpf_bytes <$> files) (file_name p))).
  { intros p Hp. apply embed_policy; [done|]. eapply Forall2_impl; [done|].
    intros q f (Hpath & Hdec & create & path & Hb). split; [done|]. split; [done|]. by eapply export_filter_len. }
  repeat constructor; (apply (Hembed {| file_name := _; fd_policy := _; scope := _ |}); set_solver).
Qed.

(** ** A libseccomp whose programs are bytes *)

#[local] Instance ScmpAction_countable : Countable ScmpAction.
Proof.
  refine (inj_countable' (λ a, match a with Allow => inl (inl ()) | Notify => inl (inr ()) | Trace n => inr n end)
    (λ x, match x with inl (inl _) => Allow | inl (inr _) => Notify | inr n => Trace n end) _).
  by intros [].
Defined.

#[local] Instance ScmpCmp_countable : Countable ScmpCmp.
Proof.
  refine (inj_countable' (λ c, match c with CmpLess i n => inl (i, n) | CmpMaskedEq i m n => inr (i, m, n) end)
    (λ x, match x with inl (i, n) => CmpLess i n | inr (i, m, n) => CmpMaskedEq i m n end) _).
  by intros [].
Defined.

(** Numbers as instructions. *)
Fixpoint digits (fuel : nat) (n : N) : list N :=
  match fuel with
  | 0 => []
  | S fuel => (n `mod` 2 ^ 64)%N :: digits fuel (n / 2 ^ 64)%N
  end.
Definition undigits (ws : list N) : N := foldr (λ w n, w + 2 ^ 64 * n)%N 0%N ws.

Lemma undigits_digits fuel n : (n < (2 ^ 64) ^ N.of_nat fuel)%N → undigits (digits fuel n) = n.
Proof.
  unfold undigits. revert n. induction fuel as [|fuel IH]; intros n Hn; cbn [digits foldr].
  - change ((2 ^ 64) ^ N.of_nat 0)%N with 1%N in Hn. lia.
  - rewrite Nat2N.inj_succ, N.pow_succ_r' in Hn. rewrite IH by (by apply N.Div0.div_lt_upper_bound).
    rewrite N.add_comm. symmetry. apply N.div_mod'.
Qed.

Lemma digits_bound fuel n : Forall (λ w, w < 2 ^ 64)%N (digits fuel n).
Proof. revert n. induction fuel; intros n; cbn [digits]; constructor; [by apply N.mod_lt|done]. Qed.

Definition sample_words (b : rule_list) : list N := digits (S (Pos.size_nat (encode b))) (Npos (encode b)).
Definition sample_len (b : rule_list) : N := N.of_nat (length (program_bytes (sample_words b))).

Lemma sample_words_inv b : undigits (sample_words b) = Npos (encode b).
Proof.
  apply undigits_digits. generalize (encode b). intros q.
  rewrite Nat2N.inj_succ, <-N.pow_mul_r. eapply N.lt_le_trans; [apply N.size_gt|].
  apply N.pow_le_mono_r; [done|]. cbn [N.size]. pose proof (Pos2Nat.is_pos (Pos.size q)).
  assert (Pos.size_nat q = Pos.to_nat (Pos.size q)) as -> by (clear; induction q; simpl; rewrite ?Pos2Nat.inj_succ, ?IHq; done).
  lia.
Qed.

#[local] Instance bytes_seccomp : Libseccomp := list_seccomp sample_len.

#[local] Instance bytes_seccomp_laws : LibseccompLaws.
Proof.
  apply list_seccomp_laws. intros b. unfold sample_len. rewrite length_program_bytes. unfold sample_words.
  split; [cbn [digits length]; unfold SOCK_FILTER_SIZE; lia|].
  rewrite Nat2N.inj_mul. apply N.Lcm0.mod_divide. eexists. apply N.mul_comm.
Defined.

#[local] Instance bytes_files : FilterFiles := {|
  bpf_bytes (b : Bpf) := program_bytes (sample_words b);
  program_run ws nr args :=
    match undigits ws with
    | Npos q => match decode (A:=rule_list) q with Some b => bpf_run (b : Bpf) nr args | None => Notify end
    | _ => Notify
    end;
|}.

#[local] Instance bytes_files_laws : FilterFilesLaws.
Proof.
  split; [done|]. intros b program nr args Heq Hwords. cbn [bpf_bytes bytes_files] in Heq.
  assert (program = sample_words b) as ->.
  { rewrite <-(transmute_program_bytes program), <-(transmute_program_bytes (sample_words b)) by (done || apply digits_bound).
    rewrite Heq. f_equal. apply (f_equal length) in Heq. rewrite !length_program_bytes in Heq.
    unfold SOCK_FILTER_SIZE in Heq. lia. }
  unfold program_run, bytes_files. rewrite sample_words_inv, decode_encode. done.
Defined.

Definition sample_env : BuildEnv :=
  {| target_os := Some "linux"; target_arch := Some "x86_64"; out_dir := Some "out"; creates := λ _, true |}.

(** Reading an ordinary descriptor is allowed, a reserved one notifies. *)
Lemma embedded_filters_decide_witness :
  ∃ files base filter, main sample_env = Ret (files, base) ∧
    X86_64_RANGE_STRICT (E:=()) "out" (prod_map id bpf_bytes <$> files) = Ret filter ∧
    program_run filter 3 [3%N] = Allow ∧ program_run filter 3 [MOCK_FD_BASE] = Notify.
Proof.
  destruct (embedded_filters_decide sample_env "out") as (files & base & Hmain & Hall).
  - eexists. reflexivity.
  - reflexivity.
  - reflexivity.
  - reflexivity.
  - reflexivity.
  - destruct (Forall2_lookup_l _ _ _ 1 {| file_name := "x86_64_range_strict.bpf"; fd_policy := ReservedRange; scope := Strict |} Hall eq_refl)
      as (constant & Hc & filter & Heq & _ & Hrun & _).
    exists files, base, filter. split; [exact Hmain|]. injection Hc as <-. split; [exact Heq|].
    rewrite (Hrun "read" 3%N [3%N]), (Hrun "read" 3%N [MOCK_FD_BASE]) by reflexivity. split; vm_compute; reflexivity.
Defined.
