(* ===== verification/Messages.v ===== *)
(** * What errors say ([src/src/runner/error.rs], spawn.rs, [src/src/buffer.rs])

    The [Display] and [Error] implementations of the error types.  How the
    standard library prints an [io::Error] is a parameter; numbers are printed
    as the formatting machinery of the language does. *)

From Stdlib Require Import Ascii.
From stdpp Require Import pretty.
From S2P Require Import Prelude Effects Buffer Ptrace.
From S2P Require Spawn.

(** ** Formatting *)

(** [{:x}] of an unsigned number. *)
Definition hex_digit (n : N) : ascii :=
  match n with
  | 0 => "0" | 1 => "1" | 2 => "2" | 3 => "3" | 4 => "4" | 5 => "5" | 6 => "6" | 7 => "7"
  | 8 => "8" | 9 => "9" | 10 => "a" | 11 => "b" | 12 => "c" | 13 => "d" | 14 => "e" | _ => "f"
  end%char%N.

(** The digits of a number below [16 ^ fuel], without leading zeros. *)
Fixpoint hex_digits (fuel : nat) (n : N) (s : string) : string :=
  match fuel with
  | 0 => s
  | S fuel =>
      let s := String (hex_digit (n `mod` 16)) s in
      if decide (n / 16 = 0)%N then s else hex_digits fuel (n / 16)%N s
  end.

(** [{:#x}] of an [i32]: its two's complement. *)
Definition fmt_hex_i32 (n : Z) : string := "0x" +:+ hex_digits 8 (Z.to_N (n mod 2 ^ 32)) "".

(** [{:?}] of an [Option<pid_t>]. *)
Definition fmt_option_pid (pid : option Z) : string :=
  match pid with Some pid => "Some(" +:+ pretty pid +:+ ")" | None => "None" end.

(** [Display for io::Error]. *)
Class IoDisplay := { io_fmt : IoError → string }.

(** ** [runner/error.rs] *)

Definition fault_fmt (fault : RunnerFault) : string :=
  match fault with
  | ProcessAlreadyTracked pid => "process " +:+ pretty pid +:+ " is already tracked"
  | ProcessNotTracked pid => "process " +:+ pretty pid +:+ " is not tracked"
  | UnexpectedSyscall syscall => "syscall " +:+ pretty syscall +:+ " does not create a process"
  | UnexpectedWaitStatus pid status =>
      "unexpected wait status " +:+ fmt_hex_i32 status +:+ " for process " +:+ pretty pid
  | ChildPidOutOfRange pid => "kernel returned out-of-range child PID " +:+ pretty pid
  | ForkResultMismatch result event_child =>
      "process-creation result " +:+ pretty result +:+ " does not match ptrace child " +:+
      fmt_option_pid event_child
  end.

Definition error_fmt `{IoDisplay} (error : RunnerError) : string :=
  match error with
  | Fault fault => fault_fmt fault
  | RunnerIo error => io_fmt error
  end.

Definition error_source (error : RunnerError) : option IoError :=
  match error with
  | Fault _ => None
  | RunnerIo error => Some error
  end.

(** [From<RunnerFault> for RunnerError]. *)
Definition fault_into (fault : RunnerFault) : RunnerError := Fault fault.

(** ** [buffer.rs] *)

Definition path_too_long_fmt (_ : PathTooLong) : string := "path exceeds PATH_MAX".

(** The two ways in which [ProcessCopyError::Io] is made. *)
Definition copy_io_error (error : ProcessCopyError) : IoError :=
  match error with
  | Errno errno | Buffer.Io errno => OsError errno
  | UnexpectedEof => CustomError KUnexpectedEof
  end.

Definition copy_error_fmt `{IoDisplay} (error : ProcessCopyError) : string :=
  match error with
  | Errno errno => io_fmt (OsError errno)
  | error => io_fmt (copy_io_error error)
  end.

Definition copy_error_source (error : ProcessCopyError) : option IoError :=
  match error with
  | Errno _ => None
  | error => Some (copy_io_error error)
  end.

(** ** [runner/spawn.rs] *)

(** [{:?}] of a step. *)
Definition step_fmt (step : Spawn.StartupStep) : string :=
  match step with
  | Spawn.SNone => "None" | Spawn.Stdin => "Stdin" | Spawn.Stdout => "Stdout" | Spawn.Stderr => "Stderr"
  | Spawn.CloseDescriptors => "CloseDescriptors" | Spawn.CloneTarget => "CloneTarget"
  | Spawn.NoNewPrivileges => "NoNewPrivileges" | Spawn.InstallSeccomp => "InstallSeccomp"
  | Spawn.Exec => "Exec" | Spawn.TransferListener => "TransferListener" | Spawn.AttachTracer => "AttachTracer"
  end.

Definition spawn_io_error (error : Spawn.SpawnError) : IoError := OsError (Spawn.se_errno error).

Definition spawn_error_fmt `{IoDisplay} (error : Spawn.SpawnError) : string :=
  "process startup failed during " +:+ step_fmt (Spawn.se_step error) +:+ ": " +:+
  io_fmt (spawn_io_error error).

(** ** The words of a message *)

Fixpoint tokens (s : string) : list string :=
  match s with
  | EmptyString => [""]
  | String a s =>
      if decide (a = " "%char) then "" :: tokens s
      else match tokens s with t :: ts => String a t :: ts | [] => [String a ""] end
  end.

Fixpoint no_space (s : string) : Prop :=
  match s with
  | EmptyString => True
  | String a s => a ≠ " "%char ∧ no_space s
  end.

Lemma tokens_word s : no_space s → tokens s = [s].
Proof. induction s as [|a s IH]; simpl; [done|]. intros [Ha Hs]. by rewrite decide_False, IH. Qed.

Lemma tokens_app s r : no_space s → tokens (s +:+ String " " r) = s :: tokens r.
Proof. induction s as [|a s IH]; simpl; [done|]. intros [Ha Hs]. by rewrite decide_False, IH. Qed.

Lemma no_space_app s r : no_space s → no_space r → no_space (s +:+ r).
Proof. induction s as [|a s IH]; simpl; [done|]. naive_solver. Qed.

Lemma pretty_N_no_space (n : N) : no_space (pretty n).
Proof.
  unfold pretty, pretty_N. case_decide; [split; [discriminate|exact I]|].
  cut (∀ s, no_space s → no_space (pretty_N_go n s)); [intros Hgo; by apply Hgo|]. clear.
  induction (N.lt_wf_0 n) as [n _ IH]. intros s Hs. destruct (decide (n = 0)%N) as [->|Hn]; [done|].
  rewrite pretty_N_go_step by lia. apply IH; [apply N.div_lt; lia|]. split; [|done].
  unfold pretty_N_char. by repeat case_match.
Qed.

Lemma pretty_Z_no_space (n : Z) : no_space (pretty n).
Proof.
  destruct n as [|p|p]; [split; [discriminate|exact I]| |].
  - apply (pretty_N_no_space (Npos p)).
  - apply (no_space_app "-"); [done|]. apply (pretty_N_no_space (Npos p)).
Qed.

Lemma hex_digits_no_space fuel n s : no_space s → no_space (hex_digits fuel n s).
Proof.
  revert n s. induction fuel as [|fuel IH]; intros n s Hs; simpl; [done|].
  assert (Hd : hex_digit (n `mod` 16) ≠ " "%char) by (unfold hex_digit; by repeat case_match).
  case_decide; [done|]. by apply IH.
Qed.

(** The number that hexadecimal digits spell. *)
Definition digit_value (a : ascii) : N :=
  let n := N_of_ascii a in if decide (n < 58)%N then (n - 48)%N else (n - 87)%N.
Fixpoint hex_value (n : N) (s : string) : N :=
  match s with
  | EmptyString => n
  | String a s => hex_value (16 * n + digit_value a) s
  end.

Lemma digit_value_hex n : (n < 16)%N → digit_value (hex_digit n) = n.
Proof.
  intros Hn. destruct n as [|p]; [done|].
  do 4 (destruct p as [p|p|]; try done; try lia).
Qed.

Lemma hex_value_digits fuel n s : (n < 16 ^ N.of_nat fuel)%N → hex_value 0 (hex_digits fuel n s) = hex_value n s.
Proof.
  revert n s. induction fuel as [|fuel IH]; intros n s Hn; cbn [hex_digits].
  - change (16 ^ N.of_nat 0)%N with 1%N in Hn. by assert (n = 0%N) as -> by lia.
  - rewrite Nat2N.inj_succ, N.pow_succ_r' in Hn.
    assert (Hlast : hex_value (n / 16) (String (hex_digit (n `mod` 16)) s) = hex_value n s).
    { cbn [hex_value]. rewrite digit_value_hex by by apply N.mod_lt. f_equal. symmetry. apply N.div_mod'. }
    case_decide as Hz; [by rewrite <-Hlast, Hz|]. rewrite IH; [done|by apply N.Div0.div_lt_upper_bound].
Qed.

Lemma fmt_hex_inj a b :
  (i32_MIN <= a <= i32_MAX)%Z → (i32_MIN <= b <= i32_MAX)%Z → fmt_hex_i32 a = fmt_hex_i32 b → a = b.
Proof.
  unfold i32_MIN, i32_MAX, fmt_hex_i32. intros Ha Hb Heq%(inj (String.append "0x"))%(f_equal (hex_value 0)).
  assert (Hlt : ∀ z, (Z.to_N (z mod 2 ^ 32) < 16 ^ N.of_nat 8)%N).
  { intros z. change (16 ^ N.of_nat 8)%N with (Z.to_N (2 ^ 32)). destruct (Z.mod_pos_bound z (2 ^ 32) eq_refl) as [Hge Hlt].
    by apply Z2N.inj_lt. }
  rewrite !hex_value_digits in Heq by apply Hlt. cbn [hex_value] in Heq.
  change (2 ^ 32)%Z with 4294967296%Z in Heq. apply Z2N.inj in Heq; [Z.to_euclidean_division_equations; lia|by apply Z.mod_pos_bound..].
Qed.

Lemma fmt_hex_no_space n : no_space (fmt_hex_i32 n).
Proof. apply (no_space_app "0x"); [by repeat split|]. by apply hex_digits_no_space. Qed.

Lemma append_char_inj a s r : s +:+ String a "" = r +:+ String a "" → s = r.
Proof.
  revert r. induction s as [|b s IH]; intros [|c r]; simpl; [done| | |].
  - intros [= _ Hr]. by destruct r.
  - intros [= _ Hs]. by destruct s.
  - intros [= -> Heq]. f_equal. by apply IH.
Qed.

#[local] Instance fmt_option_inj : Inj (=) (=) fmt_option_pid.
Proof.
  intros [a|] [b|]; simpl; [|done..]. intros Heq%(inj (String.append "Some("))%append_char_inj.
  f_equal. by apply (inj pretty).
Qed.

Lemma fmt_option_no_space pid : no_space (fmt_option_pid pid).
Proof.
  destruct pid as [pid|]; [|by repeat split]. apply (no_space_app "Some("); [by repeat split|].
  apply no_space_app; [apply pretty_Z_no_space|by repeat split].
Qed.

Definition fault_words (fault : RunnerFault) : list string :=
  match fault with
  | ProcessAlreadyTracked pid => ["process"; pretty pid; "is"; "already"; "tracked"]
  | ProcessNotTracked pid => ["process"; pretty pid; "is"; "not"; "tracked"]
  | UnexpectedSyscall syscall => ["syscall"; pretty syscall; "does"; "not"; "create"; "a"; "process"]
  | UnexpectedWaitStatus pid status =>
      ["unexpected"; "wait"; "status"; fmt_hex_i32 status; "for"; "process"; pretty pid]
  | ChildPidOutOfRange pid => ["kernel"; "returned"; "out-of-range"; "child"; "PID"; pretty pid]
  | ForkResultMismatch result event_child =>
      ["process-creation"; "result"; pretty result; "does"; "not"; "match"; "ptrace"; "child";
       fmt_option_pid event_child]
  end.

Fixpoint sentence (words : list string) : string :=
  match words with
  | [] => ""
  | [w] => w
  | w :: words => w +:+ String " " (sentence words)
  end.

Lemma tokens_sentence words : words ≠ [] → Forall no_space words → tokens (sentence words) = words.
Proof.
  intros Hne Hall. induction Hall as [|w words Hw Hall IH]; [done|]. destruct words as [|w' words].
  - by apply tokens_word.
  - cbn [sentence]. rewrite tokens_app by done. f_equal. by apply IH.
Qed.

Lemma fault_sentence fault : fault_fmt fault = sentence (fault_words fault).
Proof.
  destruct fault as [pid|pid|nr|pid status|pid|result child]; cbn [fault_fmt fault_words sentence];
    try generalize (pretty pid); try generalize (pretty nr); try generalize (pretty result);
    try generalize (fmt_hex_i32 status); try generalize (fmt_option_pid child); reflexivity.
Qed.

Lemma tokens_fault fault : tokens (fault_fmt fault) = fault_words fault.
Proof.
  rewrite fault_sentence. apply tokens_sentence; [by destruct fault|].
  destruct fault; cbn [fault_words]; repeat constructor;
    first [discriminate | apply pretty_Z_no_space | apply pretty_N_no_space | apply fmt_hex_no_space | apply fmt_option_no_space].
Qed.

(** ** Properties *)

(** The numbers of a fault are in the range of their types. *)
Definition fault_typed (fault : RunnerFault) : Prop :=
  match fault with
  | UnexpectedWaitStatus _ status => (i32_MIN <= status <= i32_MAX)%Z
  | _ => True
  end.

(** No two faults of the runner print the same message: the message tells
    which fault it was, and every number in it. *)
Theorem fault_messages_distinct a b :
  fault_typed a → fault_typed b → fault_fmt a = fault_fmt b → a = b.
Proof.
  intros Ha Hb Heq%(f_equal tokens). rewrite !tokens_fault in Heq.
  pose proof fmt_hex_inj as Hhex. revert Hhex Heq. unfold fault_words. generalize fmt_hex_i32. intros hex Hhex Heq.
  destruct a, b; simplify_eq; try done. f_equal. by apply Hhex.
Qed.

Lemma fault_messages_distinct_witness :
  fault_typed (UnexpectedWaitStatus 7 (-1)) ∧
  fault_fmt (UnexpectedWaitStatus 7 (-1)) = "unexpected wait status 0xffffffff for process 7" ∧
  fault_fmt (UnexpectedWaitStatus 7 (-1)) ≠ fault_fmt (UnexpectedWaitStatus 7 4991).
Proof.
  split; [vm_compute; split; discriminate|]. split; [vm_compute; reflexivity|].
  intros Heq.
  assert (Hsame : UnexpectedWaitStatus 7 (-1) = UnexpectedWaitStatus 7 4991); [|discriminate Hsame].
  apply fault_messages_distinct; [vm_compute; split; discriminate..|exact Heq].
Defined.
