(* ===== verification/Startup.v ===== *)
(** * The processes of a launch

    The programs of [Spawn] run side by side: a [world] holds the supervisor,
    the process or processes it has forked, and the log of everything that
    happened.  [fork] and [clone] are steps of the world, the page is what the
    stores in the log have left in it, and the kernel answers every other call
    as [admits] allows.  Memory is sequentially consistent: the orderings of the
    atomic accesses are not modelled. *)

From S2P Require Import Prelude Effects Ptrace Programs Spawn.

Local Open Scope Z_scope.

(** ** Events *)

Inductive who := Supervisor | Spawner | Target.

#[export] Instance who_dec : EqDecision who.
Proof. solve_decision. Defined.

(** A call that returned, or a process that was killed. *)
Inductive event := Did (w : who) (c : call) (r : Reply) | Died (w : who).

Abbreviation log := (list event).

Definition event_who (e : event) : who := match e with Did w _ _ => w | Died w => w end.

(** The page after the stores of a log. *)
Definition page_after (p : SharedStartup) (l : log) : SharedStartup :=
  foldl (λ p e, match e with Did _ (Store f v) _ => page_set f v p | _ => p end) p l.

(** A successful [execve] does not return; here its result is zero. *)
Definition executes (c : call) (r : Reply) : Prop :=
  match c with Execve _ _ _ => 0 <= rp_result r | _ => False end.

#[export] Instance executes_dec c r : Decision (executes c r).
Proof. unfold executes. destruct c; apply _. Defined.

(** Calls that the programs make again when they are interrupted. *)
Definition retried (c : call) (r : Reply) : Prop :=
  match c with
  | Send _ _ | Recv _ | Sendmsg _ _ _ | Recvmsg _ | Waitpid _ _ => interrupted r
  | CloseRange _ _ => rp_result r ≠ 0 ∧ rp_errno r = EINTR
  | _ => False
  end.

#[export] Instance retried_dec c r : Decision (retried c r).
Proof. unfold retried. destruct c; apply _. Defined.

(** ** Processes *)

(** The forked side: not there yet; the spawner; the target, with the spawner
    suspended by [CLONE_VFORK]; the target after its spawner was killed; over.
    The target leaves the shared memory when it executes, exits or dies, and
    is not followed further. *)
Inductive child :=
| Unborn
| Spawning (p : Prog SpawnError (Z * Z))
| Launching (t : Prog SpawnError ()) (p : Prog SpawnError (Z * Z))
| Orphan (t : Prog SpawnError ())
| Ended.

(** Calls whose effect on the processes is not just a reply. *)
Definition ordinary (c : call) : Prop :=
  match c with Fork | CloneChild _ _ _ | Exit _ => False | _ => True end.

(** Memory is shared and the caller suspended until the child executes. *)
Definition vfork_flags (flags : Z) : Prop :=
  Z.land flags CLONE_VM ≠ 0 ∧ Z.land flags CLONE_VFORK ≠ 0.

(** The target's own step: what happens, and what is left of its launch. *)
Inductive target_step : Prog SpawnError () → event → option (Prog SpawnError ()) → Prop :=
| target_call c k r :
    ordinary c → ¬ executes c r → target_step (Call c k) (Did Target c r) (Some (k r))
| target_executes c k r :
    executes c r → target_step (Call c k) (Did Target c r) None
| target_exits code k r :
    target_step (Call (Exit code) k) (Did Target (Exit code) r) None
| target_dies t : target_step t (Died Target) None.

Inductive child_step : child → event → child → Prop :=
| spawner_call c k r :
    ordinary c → child_step (Spawning (Call c k)) (Did Spawner c r) (Spawning (k r))
| spawner_clones top flags args k r :
    vfork_flags flags → 0 < rp_result r →
    child_step (Spawning (Call (CloneChild top flags args) k)) (Did Spawner (CloneChild top flags args) r)
               (Launching (target_entry args) (k r))
| spawner_clone_fails top flags args k r :
    rp_result r < 0 →
    child_step (Spawning (Call (CloneChild top flags args) k)) (Did Spawner (CloneChild top flags args) r)
               (Spawning (k r))
| spawner_exits code k r :
    child_step (Spawning (Call (Exit code) k)) (Did Spawner (Exit code) r) Ended
| spawner_dies c k : child_step (Spawning (Call c k)) (Died Spawner) Ended
| launch_goes_on t e t' p :
    target_step t e (Some t') → child_step (Launching t p) e (Launching t' p)
| launch_ends t e p :
    target_step t e None → child_step (Launching t p) e (Spawning p)
| suspended_dies t p : child_step (Launching t p) (Died Spawner) (Orphan t)
| orphan_goes_on t e t' : target_step t e (Some t') → child_step (Orphan t) e (Orphan t')
| orphan_ends t e : target_step t e None → child_step (Orphan t) e Ended.

(** ** The kernel *)

Class Kernel := admits : log → who → call → Reply → Prop.

Section world.
  Context `{Kernel} (p0 : SharedStartup).

(** What a call may answer after a log. *)
Definition answers (l : log) (e : event) : Prop :=
  match e with
  | Did w (Load f) r => rp_result r = page_get f (page_after p0 l)
  | Did w (Store f v) r => True
  | Did w c r => admits l w c r
  | Died _ => True
  end.

Record world := { w_sup : Prog SpawnError (Z * Z); w_child : child; w_log : log }.

(** [fork] returns zero in the child. *)
Definition in_child (r : Reply) : Reply :=
  {| rp_result := 0; rp_errno := rp_errno r; rp_status := rp_status r; rp_byte := rp_byte r;
     rp_flags := rp_flags r; rp_control := rp_control r; rp_sockets := rp_sockets r;
     rp_made := rp_made r |}.

Inductive world_step : world → world → Prop :=
| supervisor_call c k r ch l :
    ordinary c → answers l (Did Supervisor c r) →
    world_step {| w_sup := Call c k; w_child := ch; w_log := l |}
               {| w_sup := k r; w_child := ch; w_log := l ++ [Did Supervisor c r] |}
| supervisor_forks k r l :
    answers l (Did Supervisor Fork r) → 0 < rp_result r →
    world_step {| w_sup := Call Fork k; w_child := Unborn; w_log := l |}
               {| w_sup := k r; w_child := Spawning (k (in_child r)); w_log := l ++ [Did Supervisor Fork r] |}
| supervisor_fork_fails k r ch l :
    answers l (Did Supervisor Fork r) → rp_result r < 0 →
    world_step {| w_sup := Call Fork k; w_child := ch; w_log := l |}
               {| w_sup := k r; w_child := ch; w_log := l ++ [Did Supervisor Fork r] |}
| child_goes_on m ch e ch' l :
    child_step ch e ch' → answers l e →
    world_step {| w_sup := m; w_child := ch; w_log := l |}
               {| w_sup := m; w_child := ch'; w_log := l ++ [e] |}.

(** The start of a launch. *)
Definition launch_world (m : Prog SpawnError (Z * Z)) : world :=
  {| w_sup := m; w_child := Unborn; w_log := [] |}.

Definition reached (m : Prog SpawnError (Z * Z)) (w : world) : Prop :=
  rtc world_step (launch_world m) w.

End world.
