(* ===== verification/StartupLogic.v ===== *)
(** * Reasoning about a launch

    Each process is followed through its own part of the log, without the calls
    that were interrupted.  [sem] says what a call adds to that part, [At] what
    holds of it whenever the process is at a call; [fork] passes from the
    supervisor's part to the empty one of its child. *)

From S2P Require Import Prelude Effects Tracker Ptrace Programs Spawn Startup.

Local Open Scope Z_scope.

(** ** Facts about logs *)

(** The values stored in a field. *)
Definition stores (f : Field) (l : log) : list Z :=
  omap (λ e, match e with Did _ (Store g v) _ => if decide (g = f) then Some v else None | _ => None end) l.

Lemma stores_app f l l' : stores f (l ++ l') = stores f l ++ stores f l'.
Proof. apply omap_app. Qed.

Lemma page_after_app p l l' : page_after p (l ++ l') = page_after (page_after p l) l'.
Proof. apply foldl_app. Qed.

Lemma page_get_set f g v p : page_get f (page_set g v p) = if decide (g = f) then v else page_get f p.
Proof. by destruct f, g. Qed.

(** A field holds the last value stored. *)
Lemma page_get_after f p l : page_get f (page_after p l) = default (page_get f p) (last (stores f l)).
Proof.
  revert p. induction l as [|e l IH] using rev_ind; intros p; [done|].
  rewrite page_after_app, stores_app, last_app.
  destruct e as [w c r|w]; [|simpl; apply IH].
  destruct c; simpl; try apply IH. rewrite page_get_set.
  case_decide; [done|apply IH].
Qed.

(** Messages that a process has sent and received. *)
Definition is_message (w : who) (e : event) : Prop :=
  match e with Did w' (Send _ _) r | Did w' (Sendmsg _ _ _) r => w' = w ∧ rp_result r = 1 | _ => False end.
Definition is_receipt (w : who) (e : event) : Prop :=
  match e with Did w' (Recv _) r | Did w' (Recvmsg _) r => w' = w ∧ 0 < rp_result r | _ => False end.

#[export] Instance is_message_dec w e : Decision (is_message w e).
Proof. unfold is_message. destruct e as [? [] ?|]; apply _. Defined.
#[export] Instance is_receipt_dec w e : Decision (is_receipt w e).
Proof. unfold is_receipt. destruct e as [? [] ?|]; apply _. Defined.

Definition sent (w : who) (l : log) : nat := length (filter (is_message w) l).
Definition received (w : who) (l : log) : nat := length (filter (is_receipt w) l).

(** The pair of sockets that the supervisor made. *)
Definition sockets_of (l : log) : Z * Z :=
  default (0, 0) (last (omap (λ e, match e with
    | Did Supervisor Socketpair r => if decide (rp_result r < 0) then None else Some (rp_sockets r)
    | _ => None end) l)).

(** The parts of the log. *)
Definition child_event (e : event) : Prop :=
  match e with
  | Did Supervisor _ _ => False
  | Did Spawner c r => ¬ retried c r
  | Did Target _ _ => True
  | Died w => w = Target
  end.
Definition supervisor_event (e : event) : Prop :=
  match e with Did Supervisor c r => ¬ retried c r | _ => False end.

#[export] Instance child_event_dec e : Decision (child_event e).
Proof. unfold child_event. destruct e as [[] c r|]; apply _. Defined.
#[export] Instance supervisor_event_dec e : Decision (supervisor_event e).
Proof. unfold supervisor_event. destruct e as [[] c r|]; apply _. Defined.

Definition child_log (l : log) : log := filter child_event l.
Definition supervisor_log (l : log) : log := filter supervisor_event l.

(** Replies without contradictions: a call that fails says why, and a wait for
    one process reports that process, unless it does not block. *)
Definition sane (c : call) (r : Reply) : Prop :=
  match c with
  | CloseRange _ _ => rp_result r ≠ 0 → 0 < rp_errno r
  | Factory _ => ∀ errno, rp_made r = inl errno → 0 < errno
  | Waitpid pid options => (rp_result r < 0 → 0 < rp_errno r) ∧
      (rp_result r = pid ∨ rp_result r < 0 ∨ options = WNOHANG)
  | _ => rp_result r < 0 → 0 < rp_errno r
  end.

(** What the child reads from the page is what it has written there. *)
Definition child_reads (l : log) (c : call) (r : Reply) : Prop :=
  match c with
  | Load f => rp_result r = page_get f (page_after fresh_page l)
  | Store _ _ => True
  | _ => sane c r
  end.
Definition supervisor_reads (c : call) (r : Reply) : Prop :=
  match c with Load _ | Store _ _ => True | _ => sane c r end.

(** ** What the processes have done *)

Definition did (l : log) (w : who) (c : call) (P : Reply → Prop) : Prop := ∃ r, Did w c r ∈ l ∧ P r.

Lemma did_sub l l' w c P : l ⊆ l' → did l w c P → did l' w c P.
Proof. intros Hsub (r & Hr & HP). exists r. split; [by apply Hsub|done]. Qed.

Lemma did_last l w c r (P : Reply → Prop) : P r → did (l ++ [Did w c r]) w c P.
Proof. intros HP. exists r. split; [set_solver|done]. Qed.

Section facts.
  Context (filter : list sock_filter) (executable argv envp : pointer) (stdin stdout stderr : bool).

Definition target_args : TargetArgs :=
  {| ta_filter := filter; ta_filter_len := Z.of_nat (length filter);
     ta_executable := executable; ta_argv := argv; ta_envp := envp |}.

(** A descriptor made by the callback is a standard stream. *)
Definition stream_installed (l : log) (destination : Z) : Prop :=
  ∃ source, did l Spawner (Factory destination) (λ r, rp_made r = inr source) ∧ 2 < source ∧
    did l Spawner (Dup2 source destination) (λ r, 0 <= rp_result r).

Definition streams_installed (l : log) : Prop :=
  (stdin = true → stream_installed l 0) ∧ (stdout = true → stream_installed l 1) ∧
  (stderr = true → stream_installed l 2).

(** Everything but the standard streams and [keep] is closed. *)
Definition descriptors_closed (l : log) (keep : Z) : Prop :=
  3 <= keep ∧ ∀ fd, 3 <= fd <= Z.of_N u32_MAX → fd ≠ keep →
    ∃ first last, first <= fd <= last ∧ did l Spawner (CloseRange first last) (λ r, rp_result r = 0).

(** The target has installed the filter and crossed [execve], unless it was
    killed before. *)
Definition target_launched (l : log) (listener : Z) : Prop :=
  did l Target PrctlNoNewPrivs (λ r, 0 <= rp_result r) ∧
  did l Target (SeccompNewListener (Z.of_nat (length filter)) filter)
    (λ r, 0 <= rp_result r ∧ as_i32 (rp_result r) = listener) ∧
  (did l Target (Execve executable argv envp) (λ r, 0 <= rp_result r) ∨ Died Target ∈ l).

(** A failure is recorded on the page. *)
Definition failure_recorded (l : log) : Prop :=
  let page := page_after fresh_page l in
  state page = STATE_FAILED ∧ 0 < error_code page ∧
  ∃ step, step ≠ SNone ∧ error_step page = step_as_u32 step.

(** The spawner has done its part. *)
Definition handed_over (socket : Z) (l : log) : Prop :=
  ∃ pid listener top flags, state (page_after fresh_page l) = STATE_SPAWNED ∧
    stores TargetPid l = [pid] ∧ 0 < pid ∧
    streams_installed l ∧ descriptors_closed l socket ∧
    did l Spawner (CloneChild top flags target_args) (λ r, rp_result r = pid) ∧
    target_launched l listener ∧ 0 <= listener ∧
    did l Spawner (Sendmsg socket TRANSFER_BYTE listener) (λ r, rp_result r = 1).

(** What [spawner_main] leaves when it returns [code]. *)
Definition spawner_outcome (socket : Z) (code : Z) (l : log) : Prop :=
  (code = 0 ∧ handed_over socket l) ∨ (code = 127 ∧ failure_recorded l).

(** At all times: the spawner has not exited, and has stored no process or the
    one it has made. *)
Definition target_known (l : log) : Prop :=
  stores TargetPid l = [] ∨
  ∃ pid, 0 < pid ∧ stores TargetPid l = [pid] ∧
    ∃ top flags args, did l Spawner (CloneChild top flags args) (λ r, rp_result r = pid).

Definition running (l : log) : Prop :=
  (∀ code r, Did Spawner (Exit code) r ∉ l) ∧ target_known l.

Definition pending (l : log) : Prop := done (page_after fresh_page l) = STARTUP_PENDING.

(** Before the target is known. *)
Definition early (l : log) : Prop := running l ∧ pending l ∧ stores TargetPid l = [].

(** While it waits for the tracer, the spawner has sent one message, received
    none, and no longer holds the supervisor's socket. *)
Definition waits_for_tracer (socket : Z) (l : log) : Prop :=
  sent Spawner l = 1%nat ∧ received Spawner l = 0%nat ∧ descriptors_closed l socket.

(** ** Assertions at the calls *)

Definition target_at (ended : log → Prop) (l : log) (c : call) : Prop :=
  early l ∧ ended (l ++ [Died Target]) ∧
  match c with
  | Fork | CloneChild _ _ _ | Recv _ | Recvmsg _ | Waitpid _ _ | Store TargetPid _ | Store Done _ => False
  | _ => True
  end.

Definition spawner_at (socket : Z) (l : log) (c : call) : Prop :=
  running l ∧
  match c with
  | Exit code => done (page_after fresh_page l) = STARTUP_DONE ∧ spawner_outcome socket code l
  | CloneChild _ flags args => early l ∧ vfork_flags flags ∧ args = target_args
  | Recv s => pending l ∧ s = socket ∧ waits_for_tracer socket l
  | Recvmsg _ | Waitpid _ _ | Fork => False
  | Store TargetPid pid => early l ∧
      ∃ top flags args, did l Spawner (CloneChild top flags args) (λ r, rp_result r = pid)
  | _ => pending l
  end.

(** The supervisor reads the target only after the fork, attaches to the
    target it has read, reads what the spawner left only when that is over,
    and waits only for what will come. *)
Definition supervisor_at_with (mine its : Z) (l : log) (c : call) : Prop :=
  let forked := did l Supervisor Fork (λ r, 0 < rp_result r) in
  match c with
  | Store _ _ | Socketpair => ¬ forked
  | Fork => ¬ forked ∧ (∀ p, page_after p l = fresh_page) ∧ did l Supervisor Socketpair (λ r, 0 <= rp_result r)
  | Load TargetPid => forked
  | Load Done => ∃ pid, did l Supervisor Fork (λ r, 0 < rp_result r ∧ rp_result r = pid) ∧
      did l Supervisor (Waitpid pid 0) (λ r, rp_result r = pid)
  | Load _ => did l Supervisor (Load Done) (λ r, rp_result r = STARTUP_DONE)
  | Attach _ pid => 0 < pid ∧ did l Supervisor (Load TargetPid) (λ r, rp_result r = pid)
  | Recv s => forked ∧ s = mine ∧ did l Supervisor (Close its) (λ _, True) ∧ received Supervisor l = 0%nat
  | Recvmsg s => forked ∧ s = mine ∧ did l Supervisor (Close its) (λ _, True) ∧
      received Supervisor l = 1%nat ∧ sent Supervisor l = 1%nat
  | Waitpid pid options => forked ∧
     (options = WNOHANG ∨ did l Supervisor (Kill pid SIGKILL) (λ _, True) ∨
      did l Supervisor Fork (λ r, 0 < rp_result r ∧ rp_result r = pid) ∧
        (did l Supervisor (Close mine) (λ _, True) ∨ received Supervisor l = 2%nat))
  | CloneChild _ _ _ | Exit _ => False
  | _ => True
  end.

Definition supervisor_at (l : log) (c : call) : Prop :=
  supervisor_at_with (sockets_of l).1 (sockets_of l).2 l c.

(** ** What a call adds *)

Inductive view := Sup (l : log) | Spn (sockets : Z * Z) (l : log).

Definition target_sem (ended : log → Prop) (l : log) (c : call) (P : Reply → log → Prop) : Prop :=
  ∀ r, child_reads l c r →
    let l' := l ++ [Did Target c r] in
    match c with
    | Exit _ => ended l'
    | _ => if decide (executes c r) then ended l' else P r l'
    end.

(** The launch of the target, up to its end. *)
Definition target_runs (ended : log → Prop) (t : Prog SpawnError ()) (l : log) : Prop :=
  wlp (target_sem ended) (target_at ended) t l (λ _ _, False).

Definition sem (v : view) (c : call) (P : Reply → view → Prop) : Prop :=
  match v with
  | Sup l => ∀ r, supervisor_reads c r →
      if decide (retried c r) then P r v
      else
        let v' := Sup (l ++ [Did Supervisor c r]) in
        match c with
        | Fork => (rp_result r < 0 → P r v') ∧
            (0 < rp_result r → P r v' ∧ P (in_child r) (Spn (sockets_of l) []))
        | CloneChild _ _ _ | Exit _ => True
        | _ => P r v'
        end
  | Spn sockets l => ∀ r, child_reads l c r →
      if decide (retried c r) then P r v
      else
        let l' := l ++ [Did Spawner c r] in
        match c with
        | CloneChild _ _ args =>
            (rp_result r < 0 → P r (Spn sockets l')) ∧
            (0 < rp_result r → target_runs (λ l'', P r (Spn sockets l'')) (target_entry args) l')
        | Fork | Exit _ => True
        | _ => P r (Spn sockets l')
        end
  end.

Definition At (v : view) (c : call) : Prop :=
  match v with
  | Sup l => supervisor_at l c
  | Spn sockets l => spawner_at sockets.2 l c
  end.

Lemma target_runs_mono (P P' : log → Prop) t l :
  (∀ l, P l → P' l) → target_runs P t l → target_runs P' t l.
Proof.
  intros HP. unfold target_runs. revert l. induction t as [r|c k IH]; intros l; simpl; [done|].
  intros [(He & Hd & Hc) Hsem]. split; [split_and!; auto|]. intros r Hr. specialize (Hsem r Hr).
  destruct c; try case_decide; auto.
Qed.

Lemma sem_mono v c (P P' : Reply → view → Prop) :
  (∀ r v', P r v' → P' r v') → sem v c P → sem v c P'.
Proof.
  intros HP. destruct v as [l|sockets l]; cbn [sem]; intros Hsem r Hr; specialize (Hsem r Hr);
    case_decide; [by auto| |by auto|].
  - destruct c; naive_solver.
  - destruct c; try by auto. destruct Hsem as [Hfail Hrun].
    split; [by auto|]. intros Hpos. eapply target_runs_mono; [|by apply Hrun]. auto.
Qed.

End facts.
