(* ===== verification/StartupProofs.v ===== *)
(** * The programs of a launch keep their assertions *)

From S2P Require Import Prelude Effects Tracker Ptrace Programs Spawn Startup StartupLogic.

Local Open Scope Z_scope.

Section proofs.
  Context (filter : list sock_filter) (executable argv envp : pointer) (stdin stdout stderr : bool).

Abbreviation W := (wlp sem (At filter executable argv envp stdin stdout stderr)).
Abbreviation at_call := (At filter executable argv envp stdin stdout stderr).

(** ** Rules *)

Definition add (v : view) (c : call) (r : Reply) : view :=
  match v with
  | Sup l => Sup (l ++ [Did Supervisor c r])
  | Spn sockets l => Spn sockets (l ++ [Did Spawner c r])
  end.

Definition reads (v : view) (c : call) (r : Reply) : Prop :=
  match v with Sup _ => supervisor_reads c r | Spn _ l => child_reads l c r end.

Lemma sem_ordinary v c P :
  ordinary c → (∀ r, reads v c r → if decide (retried c r) then P r v else P r (add v c r)) → sem v c P.
Proof.
  intros Hc HP. destruct v as [l|sockets l]; simpl in *; intros r Hr; specialize (HP r Hr);
    case_decide; try done; by destruct c.
Qed.

Lemma w_bind {E A B} (m : Prog E A) (k : A → Prog E B) v Q :
  W m v (λ r v', match r with
                 | Ret a => W (k a) v' Q
                 | Throw e => Q (Throw e) v'
                 | Panic => Q Panic v'
                 | NoFuel => Q NoFuel v'
                 end) → W (m ≫= k) v Q.
Proof. apply wlp_bind, sem_mono. Qed.

Lemma w_mono {E A} (m : Prog E A) v (Q Q' : exec E A → view → Prop) :
  (∀ r v', Q r v' → Q' r v') → W m v Q → W m v Q'.
Proof. apply wlp_mono, sem_mono. Qed.

Lemma w_ret {E A} (a : A) v (Q : exec E A → view → Prop) : Q (Ret a) v → W (mret a) v Q.
Proof. done. Qed.

Lemma w_try {E E' A} (m : Prog E A) v (Q : exec E' (E + A) → view → Prop) :
  W m v (λ r v', match r with
                 | Ret a => Q (Ret (inr a)) v'
                 | Throw e => Q (Ret (inl e)) v'
                 | Panic => Q Panic v'
                 | NoFuel => Q NoFuel v'
                 end) → W (ptry m) v Q.
Proof. apply wlp_try, sem_mono. Qed.

(** A call that is made once. *)
Lemma w_call {E A} c (k : Reply → Prog E A) v Q :
  at_call v c → ordinary c → (∀ r, ¬ retried c r) →
  (∀ r, reads v c r → W (k r) (add v c r) Q) → W (sys c ≫= k) v Q.
Proof.
  intros Hat Hc Hr Hk. apply wlp_sys_bind; [done|]. apply sem_ordinary; [done|].
  intros r Hrd. rewrite decide_False by done. by apply Hk.
Qed.

Lemma w_store {E A} f x (k : () → Prog E A) v Q :
  at_call v (Store f x) → (∀ r, W (k ()) (add v (Store f x) r) Q) → W (store f x ≫= k) v Q.
Proof.
  intros Hat Hk. apply w_bind. unfold store. apply w_call; [done|done|tauto|]. intros r _. apply Hk.
Qed.

Lemma w_store_end {E} f x v (Q : exec E () → view → Prop) :
  at_call v (Store f x) → (∀ r, Q (Ret ()) (add v (Store f x) r)) → W (store f x) v Q.
Proof. intros Hat HQ. unfold store. apply w_call; [done|done|tauto|]. intros r _. apply HQ. Qed.

Lemma w_close {E A} fd (k : () → Prog E A) v Q :
  at_call v (Close fd) → (∀ r, W (k ()) (add v (Close fd) r) Q) → W (close fd ≫= k) v Q.
Proof.
  intros Hat Hk. apply w_bind. unfold close. apply w_call; [done|done|tauto|]. intros r _. apply Hk.
Qed.

Lemma w_close_end {E} fd v (Q : exec E () → view → Prop) :
  at_call v (Close fd) → (∀ r, Q (Ret ()) (add v (Close fd) r)) → W (close fd) v Q.
Proof. intros Hat HQ. unfold close. apply w_call; [done|done|tauto|]. intros r _. apply HQ. Qed.

Lemma w_load {E A} f (k : Z → Prog E A) v Q :
  at_call v (Load f) →
  (∀ r, reads v (Load f) r → W (k (rp_result r)) (add v (Load f) r) Q) → W (load f ≫= k) v Q.
Proof.
  intros Hat Hk. apply w_bind. unfold load. apply w_call; [done|done|tauto|]. intros r Hr. by apply Hk.
Qed.

(** A call that is made until it is not interrupted. *)
Lemma w_retry {E A} c (k : Reply → Prog E A) v (Q : exec E A → view → Prop) :
  at_call v c → ordinary c →
  (∀ r, reads v c r → retried c r → W (k r) v Q) →
  (∀ r, reads v c r → ¬ retried c r → W (k r) (add v c r) Q) → W (sys c ≫= k) v Q.
Proof.
  intros Hat Hc Hagain Hk. apply wlp_sys_bind; [done|]. apply sem_ordinary; [done|].
  intros r Hrd. case_decide; auto.
Qed.

(** ** The retrying operations *)

Section retry.
  Context (fuel : nat) {E : Type}.

Lemma w_send_control socket byte v (Q : exec E (Z + ()) → view → Prop) :
  at_call v (Send socket byte) → Q NoFuel v →
  (∀ r, rp_result r = 1 → Q (Ret (inr ())) (add v (Send socket byte) r)) →
  (∀ r errno, 0 < errno → rp_result r ≠ 1 → Q (Ret (inl errno)) (add v (Send socket byte) r)) →
  W (send_control fuel socket byte) v Q.
Proof.
  intros Hat HN Hok Herr. unfold send_control. generalize fuel as n. intros n.
  induction n as [|n IH]; [done|]. cbn [send_control_loop].
  apply w_retry; [done|done|..]; intros r Hr Hint; cbn in Hint.
  - rewrite decide_False by (intros Hres; destruct Hint; lia). by rewrite decide_True.
  - case_decide as Hres; [by apply Hok|]. rewrite decide_False by done.
    apply Herr; [|done]. case_decide; [|done]. destruct v; cbn in Hr; auto.
Qed.

Lemma w_recv_control socket v (Q : exec E (Z + Z) → view → Prop) :
  at_call v (Recv socket) → Q NoFuel v →
  (∀ r, rp_result r = 1 → Q (Ret (inr (rp_byte r))) (add v (Recv socket) r)) →
  (∀ r errno, 0 < errno → rp_result r ≠ 1 → Q (Ret (inl errno)) (add v (Recv socket) r)) →
  W (recv_control fuel socket) v Q.
Proof.
  intros Hat HN Hok Herr. unfold recv_control. generalize fuel as n. intros n.
  induction n as [|n IH]; [done|]. cbn [recv_control_loop].
  apply w_retry; [done|done|..]; intros r Hr Hint; cbn in Hint.
  - rewrite decide_False by (intros Hres; destruct Hint; lia). by rewrite decide_True.
  - case_decide as Hres; [by apply Hok|]. rewrite decide_False by done.
    apply Herr; [|done]. case_decide; [|done]. destruct v; cbn in Hr; auto.
Qed.

Lemma w_send_fd socket descriptor v (Q : exec E (Z + ()) → view → Prop) :
  let c := Sendmsg socket TRANSFER_BYTE descriptor in
  at_call v c → Q NoFuel v →
  (∀ r, rp_result r = 1 → Q (Ret (inr ())) (add v c r)) →
  (∀ r errno, 0 < errno → rp_result r ≠ 1 → Q (Ret (inl errno)) (add v c r)) →
  W (send_fd fuel socket descriptor) v Q.
Proof.
  intros c Hat HN Hok Herr. unfold send_fd. generalize fuel as n. intros n.
  induction n as [|n IH]; [done|]. cbn [send_fd_loop]. fold c.
  apply w_retry; [done|done|..]; intros r Hr Hint; cbn in Hint.
  - destruct Hint as [Hneg Hint]. rewrite decide_False by lia. by rewrite !decide_True.
  - case_decide as Hres; [by apply Hok|]. case_decide as Hneg; [|by apply Herr].
    rewrite decide_False by (intros ?; by apply Hint). apply Herr; [|done]. destruct v; cbn in Hr; auto.
Qed.

Lemma w_close_range first last v (Q : exec E (Z + ()) → view → Prop) :
  let c := CloseRange first last in
  at_call v c → Q NoFuel v →
  (∀ r, rp_result r = 0 → Q (Ret (inr ())) (add v c r)) →
  (∀ r errno, 0 < errno → Q (Ret (inl errno)) (add v c r)) →
  W (close_range fuel first last) v Q.
Proof.
  intros c Hat HN Hok Herr. unfold close_range. generalize fuel as n. intros n.
  induction n as [|n IH]; [done|]. cbn [close_range_loop]. fold c.
  apply w_retry; [done|done|..]; intros r Hr Hint; cbn in Hint.
  - destruct Hint as [Hneg Hint]. rewrite decide_False by done. by rewrite decide_False by (intros ?; done).
  - case_decide as Hres; [by apply Hok|]. rewrite decide_True by (intros ?; by apply Hint).
    apply Herr. destruct v; cbn in Hr; auto.
Qed.

End retry.
(** ** Facts that stay true *)

Lemma streams_installed_sub l l' :
  l ⊆ l' → streams_installed stdin stdout stderr l → streams_installed stdin stdout stderr l'.
Proof.
  intros Hsub (H0 & H1 & H2).
  assert (Hone : ∀ d, stream_installed l d → stream_installed l' d).
  { intros d (source & Hf & Hs & Hd). exists source. split_and!; [|done|]; by eapply did_sub. }
  split_and!; auto.
Qed.

Lemma descriptors_closed_sub l l' keep : l ⊆ l' → descriptors_closed l keep → descriptors_closed l' keep.
Proof.
  intros Hsub [Hk Hc]. split; [done|]. intros fd Hfd Hne.
  destruct (Hc fd Hfd Hne) as (first & last & Hin & Hdid). exists first, last. split; [done|].
  by eapply did_sub.
Qed.

Lemma target_launched_sub l l' listener : l ⊆ l' →
  target_launched filter executable argv envp l listener →
  target_launched filter executable argv envp l' listener.
Proof.
  intros Hsub (Hp & Hs & He). split_and!; [by eapply did_sub..|].
  destruct He as [He|He]; [left; by eapply did_sub|right; by apply Hsub].
Qed.

Lemma target_known_sub l l' :
  l ⊆ l' → stores TargetPid l' = stores TargetPid l → target_known l → target_known l'.
Proof.
  intros Hsub Hst [Hk|(pid & Hpid & Hk & top & flags & args & Hdid)]; [left; congruence|right].
  exists pid. split_and!; [done|congruence|]. exists top, flags, args. by eapply did_sub.
Qed.

(** Calls that change neither the page nor the messages. *)
Definition quiet (c : call) : Prop :=
  match c with
  | Store _ _ | Send _ _ | Recv _ | Sendmsg _ _ _ | Recvmsg _ | Exit _ => False
  | _ => True
  end.

Definition silent (c : call) : Prop := match c with Store _ _ | Exit _ => False | _ => True end.

Lemma quiet_silent c : quiet c → silent c.
Proof. by destruct c. Qed.

Lemma page_add l w c r :
  silent c → page_after fresh_page (l ++ [Did w c r]) = page_after fresh_page l.
Proof. intros Hc. rewrite page_after_app. by destruct c. Qed.

Lemma stores_add f l w c r : silent c → stores f (l ++ [Did w c r]) = stores f l.
Proof. intros Hc. rewrite stores_app. destruct c; try done; apply app_nil_r. Qed.

Lemma messages_add w' l w c r :
  quiet c → sent w' (l ++ [Did w c r]) = sent w' l ∧ received w' (l ++ [Did w c r]) = received w' l.
Proof. intros Hc. unfold sent, received. rewrite !filter_app, !length_app. destruct c; simpl in *; try done; lia. Qed.

Lemma sent_add w' l w c r : quiet c → sent w' (l ++ [Did w c r]) = sent w' l.
Proof. intros Hc. by apply messages_add. Qed.
Lemma received_add w' l w c r : quiet c → received w' (l ++ [Did w c r]) = received w' l.
Proof. intros Hc. by apply messages_add. Qed.

Lemma running_add l w c r :
  silent c → running l → running (l ++ [Did w c r]).
Proof.
  intros Hc [He Hs]. split; [|eapply target_known_sub; [|by rewrite stores_add|done]; set_solver].
  intros code r' [Hin|Hin%list_elem_of_singleton]%elem_of_app; [by eapply He|].
  by injection Hin as _ <- _.
Qed.

(** ** The spawner *)

(** What [spawner_main] leaves. *)
Definition main_post (sockets : Z * Z) (r : exec SpawnError Z) (v : view) : Prop :=
  match r with
  | Ret code => ∃ l, v = Spn sockets l ∧ running l ∧ pending l ∧
      spawner_outcome filter executable argv envp stdin stdout stderr sockets.2 code l
  | NoFuel => True
  | _ => False
  end.

(** Before the launch: nothing is written, sent or received. *)
Definition idle (l : log) : Prop :=
  running l ∧ page_after fresh_page l = fresh_page ∧ sent Spawner l = 0%nat ∧ received Spawner l = 0%nat.

Lemma idle_early l : idle l → early l.
Proof.
  intros (Hr & Hp & _). assert (Hpid : page_get TargetPid (page_after fresh_page l) = -1) by (by rewrite Hp).
  split_and!; [done|unfold pending; by rewrite Hp|].
  destruct Hr as [_ [?|(pid & Hpos & Hs & _)]]; [done|].
  rewrite page_get_after, Hs in Hpid. simpl in Hpid. lia.
Qed.

Lemma idle_pending l : idle l → pending l.
Proof. intros Hi%idle_early. apply Hi. Qed.

Lemma idle_add l c r : quiet c → idle l → idle (l ++ [Did Spawner c r]).
Proof.
  intros Hc (Hr & Hp & Hs & Hv). pose proof (quiet_silent _ Hc). pose proof (messages_add Spawner l Spawner c r Hc) as [Hs' Hv'].
  split_and!; [by apply running_add|by rewrite page_add|congruence..].
Qed.

Lemma normalize_pos {E} errno : 0 < errno → normalize (E:=E) errno = Ret errno.
Proof. intros He. unfold normalize. by rewrite decide_True by lia. Qed.

Lemma w_normalize {E A} errno (k : Z → Prog E A) v Q :
  0 < errno → W (k errno) v Q → W (plift (normalize errno) ≫= k) v Q.
Proof. intros He HQ. by rewrite normalize_pos. Qed.

Lemma record_failure_spec {E} step errno sockets l (Q : exec E () → view → Prop) :
  running l → pending l → 0 < errno → step ≠ SNone →
  (∀ l', l ⊆ l' → running l' → pending l' → failure_recorded l' → Q (Ret ()) (Spn sockets l')) →
  W (record_failure step errno) (Spn sockets l) Q.
Proof.
  intros Hr Hp He Hs HQ. unfold record_failure.
  assert (Hstore : ∀ f x r l, f ≠ TargetPid → f ≠ Done → running l → pending l →
    running (l ++ [Did Spawner (Store f x) r]) ∧ pending (l ++ [Did Spawner (Store f x) r])).
  { intros f x r l0 Hf Hd [Hr1 Hr2] Hp0. unfold running, pending.
    rewrite page_after_app. simpl. rewrite decide_False by done.
    split_and!; [|eapply target_known_sub; [|rewrite stores_app; simpl; by rewrite decide_False, app_nil_r|done]; set_solver|done].
    intros code r' [Hin|Hin%list_elem_of_singleton]%elem_of_app; [by eapply Hr1|done]. }
  apply w_store; [by split|]. intros r1. cbn [add]. apply w_normalize; [done|].
  destruct (Hstore ErrorStep (step_as_u32 step) r1 l) as [Hr1 Hp1]; [done..|].
  apply w_store; [by split|]. intros r2. cbn [add].
  destruct (Hstore ErrorCode errno r2 _ (ltac:(done)) (ltac:(done)) Hr1 Hp1) as [Hr2 Hp2].
  apply w_store_end; [by split|]. intros r3. cbn [add].
  destruct (Hstore State STATE_FAILED r3 _ (ltac:(done)) (ltac:(done)) Hr2 Hp2) as [Hr3 Hp3].
  apply HQ; [set_solver|done|done|]. unfold failure_recorded. rewrite !page_after_app. simpl.
  split_and!; [done|done|]. by exists step.
Qed.

Lemma fail_startup_spec step errno sockets l :
  running l → pending l → 0 < errno → step ≠ SNone →
  W (fail_startup step errno) (Spn sockets l) (main_post sockets).
Proof.
  intros Hr Hp He Hs. apply w_bind, record_failure_spec; [done..|].
  intros l' _ Hr' Hp' Hf. exists l'. split_and!; [done..|]. by right.
Qed.

Lemma fail_launched_spec pid step errno sockets l :
  running l → pending l → 0 < errno → step ≠ SNone →
  W (fail_launched pid step errno) (Spn sockets l) (main_post sockets).
Proof.
  intros Hr Hp He Hs. apply w_bind, record_failure_spec; [done..|].
  intros l' _ Hr' Hp' Hf. apply w_call; [by split|done|tauto|]. intros r _. cbn [add].
  eexists. split_and!; [done|by apply running_add|unfold pending; by rewrite page_add|].
  right. split; [done|]. unfold failure_recorded. by rewrite page_add.
Qed.

Lemma install_standard_stream_spec {E} factory destination sockets l (Q : exec E (Z + ()) → view → Prop) :
  idle l →
  (∀ l', l ⊆ l' → idle l' → (factory = true → stream_installed l' destination) →
     Q (Ret (inr ())) (Spn sockets l')) →
  (∀ l' errno, idle l' → 0 < errno → Q (Ret (inl errno)) (Spn sockets l')) →
  W (install_standard_stream factory destination) (Spn sockets l) Q.
Proof.
  intros Hi Hok Herr. unfold install_standard_stream.
  destruct factory; [|by apply Hok].
  assert (Hat : ∀ l c, quiet c → match c with Recvmsg _ | Waitpid _ _ | Fork | CloneChild _ _ _ => False | _ => True end →
    idle l → at_call (Spn sockets l) c).
  { intros l0 c Hc Hc' Hi0. pose proof (idle_pending _ Hi0). split; [apply Hi0|by destruct c]. }
  apply w_call; [by apply Hat|done|tauto|]. intros m Hm. cbn [add].
  pose proof (idle_add l _ m (I : quiet (Factory destination)) Hi) as Hi1.
  destruct (rp_made m) as [errno|source] eqn:Hmade.
  { apply w_normalize; [by apply Hm|]. apply Herr; [done|by apply Hm]. }
  case_decide; [by apply Herr|]. case_decide; [by apply Herr|].
  apply w_call; [by apply Hat|done|tauto|]. intros r Hr. cbn [add].
  pose proof (idle_add _ _ r (I : quiet (Dup2 source destination)) Hi1) as Hi2.
  case_decide; (apply w_close; [by apply Hat|]); intros r'; cbn [add];
    pose proof (idle_add _ _ r' (I : quiet (Close source)) Hi2) as Hi3.
  - apply Herr; [done|by apply Hr].
  - apply Hok; [set_solver|done|]. intros _. exists source. split_and!; [|lia|].
    + exists m. split; [set_solver|done].
    + exists r. split; [set_solver|lia].
Qed.

Lemma close_unwanted_fds_spec {E} fuel keep sockets l (Q : exec E (Z + ()) → view → Prop) :
  idle l → (∀ l', Q NoFuel (Spn sockets l')) →
  (∀ l', l ⊆ l' → idle l' → descriptors_closed l' keep → Q (Ret (inr ())) (Spn sockets l')) →
  (∀ l' errno, idle l' → 0 < errno → Q (Ret (inl errno)) (Spn sockets l')) →
  W (close_unwanted_fds fuel keep) (Spn sockets l) Q.
Proof.
  intros Hi HN Hok Herr. unfold close_unwanted_fds. case_decide as Hkeep; [by apply Herr|].
  assert (Hat : ∀ l a b, idle l → at_call (Spn sockets l) (CloseRange a b))
    by (intros l0 a b Hi0; split; [apply Hi0|by apply idle_pending]).
  assert (Habove : ∀ l1, l ⊆ l1 → idle l1 →
    (∀ fd, 3 <= fd < keep → ∃ a b, a <= fd <= b ∧ did l1 Spawner (CloseRange a b) (λ r, rp_result r = 0)) →
    W (close_range fuel (keep + 1) (Z.of_N u32_MAX)) (Spn sockets l1) Q).
  { intros l1 Hsub Hi1 Hbelow. apply w_close_range; [by apply Hat|done|..].
    - intros r Hr. cbn [add]. apply Hok; [set_solver|by apply idle_add|]. split; [lia|]. intros fd Hfd Hne.
      destruct (decide (fd < keep)) as [Hlt|Hge].
      + destruct (Hbelow fd) as (a & b & ? & ?); [lia|]. exists a, b. split; [done|].
        eapply did_sub; [|done]. set_solver.
      + exists (keep + 1), (Z.of_N u32_MAX). split; [lia|]. by apply did_last.
    - intros r errno He. apply Herr; [by apply idle_add|done]. }
  apply w_bind. case_decide as Hgt.
  - apply w_close_range; [by apply Hat|done|..].
    + intros r Hr. cbn [add]. apply Habove; [set_solver|by apply idle_add|]. intros fd Hfd.
      exists 3, (keep - 1). split; [lia|]. by apply did_last.
    + intros r errno He. cbn [add]. apply Herr; [by apply idle_add|done].
  - apply (Habove l); [done|done|]. intros fd. lia.
Qed.

(** ** The target *)

(** While the target is launched from [l0]: nothing published yet, or the
    filter is installed and the listener published. *)
Definition launching (l0 l : log) : Prop :=
  l0 ⊆ l ∧ early l ∧ sent Spawner l = 0%nat ∧ received Spawner l = 0%nat ∧
  let page := page_after fresh_page l in
  (state page = STATE_EMPTY ∨
   (state page = STATE_LISTENER_CREATED ∧
    did l Target PrctlNoNewPrivs (λ r, 0 <= rp_result r) ∧
    did l Target (SeccompNewListener (Z.of_nat (length filter)) filter)
      (λ r, 0 <= rp_result r ∧ as_i32 (rp_result r) = listener_fd page))).

(** How a launch ends. *)
Definition launch_ended (l0 l : log) : Prop :=
  l0 ⊆ l ∧ early l ∧ sent Spawner l = 0%nat ∧ received Spawner l = 0%nat ∧
  let page := page_after fresh_page l in
  (state page = STATE_EMPTY ∨
   (state page = STATE_LISTENER_CREATED ∧
    target_launched filter executable argv envp l (listener_fd page)) ∨
   failure_recorded l).

(** An event of the target that does not say who it is or what it installed. *)
Definition own_event (e : event) : Prop :=
  match e with
  | Did Target (Store f _) _ => f ≠ TargetPid ∧ f ≠ Done
  | Did Target _ _ | Died Target => True
  | _ => False
  end.

Lemma early_own l e : own_event e → early l → early (l ++ [e]).
Proof.
  intros He ([Hx Hs] & Hp & Ht). unfold early, running, pending.
  rewrite !stores_app, page_after_app, Ht.
  assert (Hst : stores TargetPid [e] = []).
  { destruct e as [[] [] ?|]; simpl in *; try done. destruct He. by rewrite decide_False. }
  assert (Hd : ∀ p, done (page_after p [e]) = done p).
  { intros p. destruct e as [[] [] ?|]; simpl in *; try done. destruct He. by rewrite decide_False. }
  split_and!; [|left; by rewrite stores_app, Ht, Hst|by rewrite Hd|by rewrite Hst].
  intros code r' [Hin|Hin%list_elem_of_singleton]%elem_of_app; [by eapply Hx|by subst e].
Qed.

Lemma messages_own l e : own_event e →
  sent Spawner (l ++ [e]) = sent Spawner l ∧ received Spawner (l ++ [e]) = received Spawner l.
Proof.
  intros He. unfold sent, received. rewrite !filter_app, !length_app.
  destruct e as [[] [] ?|]; simpl in *; try done; try lia;
    rewrite !filter_cons_False by (by intros [? _]); simpl; lia.
Qed.

Lemma launching_dies l0 l : launching l0 l → launch_ended l0 (l ++ [Died Target]).
Proof.
  intros (Hsub & He & Hs & Hr & Hpage). destruct (messages_own l (Died Target) I) as [Hs' Hr'].
  split_and!; [set_solver|by apply early_own|congruence..|]. rewrite page_after_app. simpl.
  destruct Hpage as [?|(? & ? & ?)]; [by left|right; left]. split; [done|].
  split_and!; [eapply did_sub; [|done]; set_solver..|]. right. set_solver.
Qed.

Lemma launching_calls l0 l c r :
  match c with Store f _ => f = ErrorStep ∨ f = ErrorCode | _ => True end →
  launching l0 l → launching l0 (l ++ [Did Target c r]).
Proof.
  intros Hc (Hsub & He & Hs & Hr & Hpage).
  assert (Hown : own_event (Did Target c r)) by (destruct c; try done; destruct Hc as [-> | ->]; done).
  destruct (messages_own l _ Hown) as [Hs' Hr'].
  assert (Hsame : state (page_after fresh_page (l ++ [Did Target c r])) = state (page_after fresh_page l) ∧
    listener_fd (page_after fresh_page (l ++ [Did Target c r])) = listener_fd (page_after fresh_page l)).
  { rewrite page_after_app. destruct c; simpl; try done. destruct Hc as [-> | ->]; done. }
  destruct Hsame as [Hstate Hfd]. unfold launching. cbn zeta. rewrite Hstate, Hfd. split_and!; [set_solver|by apply early_own|congruence..|].
  destruct Hpage as [?|(? & ? & ?)]; [by left|right].
  split_and!; [done|eapply did_sub; [|done]; set_solver..].
Qed.

Abbreviation T l0 := (wlp (E:=SpawnError) (A:=()) (target_sem (launch_ended l0)) (target_at (launch_ended l0))).

Lemma target_call l0 l c (k : Reply → Prog SpawnError ()) Q :
  match c with
  | Fork | CloneChild _ _ _ | Recv _ | Recvmsg _ | Waitpid _ _ | Exit _ | Store TargetPid _ | Store Done _ => False
  | _ => True
  end →
  launching l0 l →
  (∀ r, child_reads l c r → executes c r → launch_ended l0 (l ++ [Did Target c r])) →
  (∀ r, child_reads l c r → ¬ executes c r → T l0 (k r) (l ++ [Did Target c r]) Q) →
  T l0 (sys c ≫= k) l Q.
Proof.
  intros Hc Hl Hx Hk. split.
  - split_and!; [apply Hl|by apply launching_dies|by destruct c].
  - intros r Hr. specialize (Hx r Hr). specialize (Hk r Hr). destruct c; try case_decide; auto.
Qed.

Lemma target_store l0 l f x (k : () → Prog SpawnError ()) Q :
  f ≠ TargetPid → f ≠ Done → launching l0 l →
  (∀ r, T l0 (k ()) (l ++ [Did Target (Store f x) r]) Q) → T l0 (store f x ≫= k) l Q.
Proof.
  intros Hf Hd Hl Hk. apply (target_call l0 l (Store f x)); [by destruct f|done|done|]. intros r _ _. apply Hk.
Qed.

Lemma publish_failure_spec l0 l step errno code :
  launching l0 l → 0 < errno → step ≠ SNone →
  T l0 (publish_target_failure step errno ≫= λ _, sys (Exit code) ≫= λ _, plift Panic) l (λ _ _, False).
Proof.
  intros Hl He Hs. unfold publish_target_failure. rewrite (normalize_pos (E:=SpawnError)) by done.
  change (T l0 (store ErrorStep (step_as_u32 step) ≫= λ _,
    store ErrorCode errno ≫= λ _, store State STATE_FAILED ≫= λ _,
    sys (Exit code) ≫= λ _, plift Panic) l (λ _ _, False)).
  apply target_store; [done..|]. intros r1.
  assert (Hl1 := launching_calls _ _ (Store ErrorStep (step_as_u32 step)) r1 (or_introl eq_refl) Hl).
  apply target_store; [done..|]. intros r2.
  assert (Hl2 := launching_calls _ _ (Store ErrorCode errno) r2 (or_intror eq_refl) Hl1).
  apply target_store; [done..|]. intros r3.
  assert (Hown : own_event (Did Target (Store State STATE_FAILED) r3)) by done.
  destruct Hl2 as (Hsub & Hearly & Hsent & Hrecv & _).
  set (l3 := ((l ++ _) ++ _) ++ _).
  assert (Hend : ∀ e, own_event e → match e with Did _ (Store _ _) _ => False | _ => True end →
    launch_ended l0 (l3 ++ [e])).
  { intros e He' Hns. destruct (messages_own l3 e He') as [Hs1 Hr1].
    destruct (messages_own _ _ Hown : sent Spawner l3 = _ ∧ received Spawner l3 = _) as [Hs2 Hr2].
    split_and!; [set_solver|by apply early_own; [|apply early_own]|congruence..|]. right. right.
    unfold failure_recorded, l3. rewrite !page_after_app.
    destruct e as [? [] ?|]; simpl in *; try done; (split_and!; [done|done|by exists step]). }
  split; [split_and!; [by apply early_own|by apply Hend|done]|].
  intros r4 _. by apply Hend.
Qed.

(** Publishing the listener. *)
Lemma launching_listener l0 l r0 r1 listener :
  launching l0 l → state (page_after fresh_page l) = STATE_EMPTY →
  did l Target PrctlNoNewPrivs (λ r, 0 <= rp_result r) →
  did l Target (SeccompNewListener (Z.of_nat (length filter)) filter)
    (λ r, 0 <= rp_result r ∧ as_i32 (rp_result r) = listener) →
  let l1 := l ++ [Did Target (Store ListenerFd listener) r0] in
  launching l0 l1 ∧ launching l0 (l1 ++ [Did Target (Store State STATE_LISTENER_CREATED) r1]).
Proof.
  intros (Hsub & He & Hs & Hr & _) Hst Hp Hsc.
  set (e0 := Did Target (Store ListenerFd listener) r0).
  set (e1 := Did Target (Store State STATE_LISTENER_CREATED) r1). intros l1.
  assert (Hown0 : own_event e0) by done. assert (Hown1 : own_event e1) by done.
  destruct (messages_own l e0 Hown0) as [Hs0 Hr0], (messages_own l1 e1 Hown1) as [Hs1 Hr1].
  assert (He1 : early l1) by by apply early_own.
  split; unfold launching; cbn zeta.
  - split_and!; [set_solver|done|unfold l1; congruence..|]. left. unfold l1. by rewrite page_after_app.
  - split; [set_solver|]. split; [by apply early_own|]. split; [unfold l1 in *; congruence|].
    split; [unfold l1 in *; congruence|]. right. unfold l1. rewrite !page_after_app. simpl.
    split_and!; [done|eapply did_sub; [|done]; set_solver..].
Qed.

Lemma target_entry_spec l :
  Z.of_nat (length filter) <= u16_MAX → early l → sent Spawner l = 0%nat → received Spawner l = 0%nat →
  state (page_after fresh_page l) = STATE_EMPTY →
  target_runs (launch_ended l) (target_entry (target_args filter executable argv envp)) l.
Proof.
  intros Hlen He Hs Hr Hpage. unfold target_runs, target_entry. cbn [ta_filter_len ta_filter ta_executable ta_argv ta_envp target_args].
  rewrite Z.mod_small by (unfold u16_MAX in *; lia).
  assert (Hl0 : launching l l) by (split_and!; [done..|by left]).
  apply target_call; [done|done|by intros|]. intros p Hp _. cbn in Hp.
  assert (Hl1 := launching_calls l l PrctlNoNewPrivs p I Hl0).
  case_decide; [apply publish_failure_spec; [done|by apply Hp|done]|].
  apply target_call; [done|done|by intros|]. intros s Hsc _. cbn in Hsc.
  set (c := SeccompNewListener (Z.of_nat (length filter)) filter) in *.
  assert (Hl2 := launching_calls l _ c s I Hl1).
  case_decide; [apply publish_failure_spec; [done|by apply Hsc|done]|].
  set (l2 := (l ++ _) ++ _) in *.
  assert (Hst2 : state (page_after fresh_page l2) = STATE_EMPTY) by (unfold l2; by rewrite !page_after_app).
  assert (Hpublish := λ r0 r1, launching_listener l l2 r0 r1 (as_i32 (rp_result s)) Hl2 Hst2).
  assert (Hdid : did l2 Target PrctlNoNewPrivs (λ r, 0 <= rp_result r))
    by (exists p; split; [set_solver|lia]).
  assert (Hdid' : did l2 Target c (λ r, 0 <= rp_result r ∧ as_i32 (rp_result r) = as_i32 (rp_result s)))
    by (exists s; split; [set_solver|lia]).
  apply target_store; [done|done|done|]. intros r0.
  destruct (Hpublish r0 r0 Hdid Hdid') as [Hl3 _].
  apply target_store; [done|done|done|]. intros r1.
  destruct (Hpublish r0 r1 Hdid Hdid') as [_ Hl4].
  set (l4 := (l2 ++ _) ++ _) in *.
  apply target_call; [done|done|..]; intros r2 Hr2 Hx.
  - assert (Hl5 := launching_calls l l4 (Execve executable argv envp) r2 I Hl4).
    destruct Hl5 as (Hsub & He5 & Hs5 & Hr5 & Hcase). split_and!; [done..|]. cbn zeta.
    destruct Hcase as [?|(? & ? & ?)]; [by left|right; left].
    split; [done|]. split_and!; [done..|]. left. by apply did_last.
  - assert (Hl5 := launching_calls l l4 (Execve executable argv envp) r2 I Hl4).
    apply publish_failure_spec; [done| |done]. cbn in Hr2, Hx. apply Hr2. lia.
Qed.

(** ** The launch *)

(** What the spawner knows of a target that runs. *)
Definition launched (socket pid listener : Z) (l : log) : Prop :=
  running l ∧ pending l ∧ stores TargetPid l = [pid] ∧ 0 < pid ∧
  streams_installed stdin stdout stderr l ∧ descriptors_closed l socket ∧
  (∃ top flags, did l Spawner (CloneChild top flags (target_args filter executable argv envp))
     (λ r, rp_result r = pid)) ∧
  target_launched filter executable argv envp l listener ∧ 0 <= listener.

Lemma launched_add socket pid listener l c r :
  silent c → launched socket pid listener l → launched socket pid listener (l ++ [Did Spawner c r]).
Proof.
  intros Hc (Hr & Hp & Hs & Hpid & Hst & Hcl & (top & flags & Hclone) & Ht & Hl).
  assert (Hsub : l ⊆ l ++ [Did Spawner c r]) by set_solver.
  split_and!; [by apply running_add|unfold pending; by rewrite page_add|by rewrite stores_add|done|..|done].
  - by eapply streams_installed_sub.
  - by eapply descriptors_closed_sub.
  - exists top, flags. by eapply did_sub.
  - by eapply target_launched_sub.
Qed.

Lemma hand_over_spec fuel sockets pid listener l :
  launched sockets.2 pid listener l → sent Spawner l = 0%nat → received Spawner l = 0%nat →
  W (hand_over fuel sockets.2 pid listener) (Spn sockets l) (main_post sockets).
Proof.
  intros Hl Hs Hr. unfold hand_over.
  assert (Hgive : ∀ l errno, launched sockets.2 pid listener l → 0 < errno →
    W (fail_launched pid TransferListener errno) (Spn sockets l) (main_post sockets))
    by (intros l' errno (? & ? & _) ?; by apply fail_launched_spec).
  apply w_bind, w_send_control; [split; apply Hl|done|..].
  2:{ intros r errno He _. apply Hgive; [by apply launched_add|done]. }
  intros r1 Hr1. cbn [add]. set (l1 := l ++ _).
  assert (Hl1 : launched sockets.2 pid listener l1) by (by apply launched_add).
  assert (Hmsg : sent Spawner l1 = 1%nat ∧ received Spawner l1 = 0%nat).
  { unfold sent, received, l1 in *. rewrite !filter_app, !length_app, Hs, Hr.
    rewrite filter_cons_True by done. rewrite filter_cons_False by tauto. done. }
  apply w_bind, w_recv_control; [|done|..].
  - split; [apply Hl1|]. split; [apply Hl1|]. split; [done|].
    destruct Hmsg. split_and!; [done..|apply Hl1].
  - intros r2 Hr2. cbn [add]. set (l2 := l1 ++ _).
    assert (Hl2 : launched sockets.2 pid listener l2) by (by apply launched_add).
    case_decide; [|by apply Hgive].
    apply w_bind, w_send_fd; [split; apply Hl2|done|..].
    2:{ intros r errno He _. apply Hgive; [by apply launched_add|done]. }
    intros r3 Hr3. cbn [add]. set (l3 := l2 ++ _).
    assert (Hl3 : launched sockets.2 pid listener l3) by (by apply launched_add).
    apply w_store; [split; apply Hl3|]. intros r4. cbn [add].
    set (l4 := l3 ++ _).
    destruct Hl3 as ((Hx & _) & Hp & Hst & Hpid & Hstr & Hcl & (top & flags & Hclone) & Ht & Hfd).
    assert (Hsub : l3 ⊆ l4) by set_solver.
    assert (Hst4 : stores TargetPid l4 = [pid]) by (unfold l4; rewrite stores_app, Hst; done).
    exists l4. split_and!; [done| | |].
    + split; [|right; exists pid; split_and!; [done|done|]; exists top, flags, (target_args filter executable argv envp);
        by eapply did_sub]. intros code r'.
      intros [Hin|Hin%list_elem_of_singleton]%elem_of_app; [by eapply Hx|done].
    + unfold pending, l4. by rewrite page_after_app.
    + left. split; [done|]. exists pid, listener, top, flags.
      split_and!; [unfold l4; by rewrite page_after_app|done|done|..].
      * by eapply streams_installed_sub.
      * by eapply descriptors_closed_sub.
      * by eapply did_sub.
      * by eapply target_launched_sub.
      * done.
      * exists r3. split; [unfold l4, l3; set_solver|done].
  - intros r errno He _. apply Hgive; [by apply launched_add|done].
Qed.

(** The pid is stored: the rest of the page is as the launch left it. *)
Lemma target_known l0 l pid r top flags :
  launch_ended l0 l → 0 < pid →
  did l Spawner (CloneChild top flags (target_args filter executable argv envp)) (λ r, rp_result r = pid) →
  let l1 := l ++ [Did Spawner (Store TargetPid pid) r] in
  stores TargetPid l1 = [pid] ∧ running l1 ∧ pending l1 ∧
  sent Spawner l1 = 0%nat ∧ received Spawner l1 = 0%nat ∧
  ∀ f, f ≠ TargetPid → page_get f (page_after fresh_page l1) = page_get f (page_after fresh_page l).
Proof.
  intros (Hsub & He & Hs & Hr & _) Hpid Hclone l1.
  assert (Hst1 : stores TargetPid l1 = [pid]).
  { destruct He as (_ & _ & Hst). unfold l1. by rewrite stores_app, Hst. }
  split_and!; [done| | |unfold sent, l1 in *; by rewrite filter_app, length_app, Hs
    |unfold received, l1 in *; by rewrite filter_app, length_app, Hr|].
  - destruct He as [[Hx _] _].
    split; [|right; exists pid; split_and!; [done|done|]; exists top, flags, (target_args filter executable argv envp);
      eapply did_sub; [|done]; set_solver].
    intros code r' [Hin|Hin%list_elem_of_singleton]%elem_of_app; [by eapply Hx|done].
  - unfold pending, l1. rewrite page_after_app. apply He.
  - intros f Hf. unfold l1. rewrite page_after_app. simpl. rewrite page_get_set. by rewrite decide_False by done.
Qed.

Lemma still_running l c r : silent c → running l → pending l →
  running (l ++ [Did Spawner c r]) ∧ pending (l ++ [Did Spawner c r]).
Proof. intros. split; [by apply running_add|unfold pending; by rewrite page_add]. Qed.

Lemma failure_recorded_page l l' :
  (∀ f, f ≠ TargetPid → page_get f (page_after fresh_page l') = page_get f (page_after fresh_page l)) →
  failure_recorded l → failure_recorded l'.
Proof.
  intros Hpage Hf. pose proof (Hpage State) as HS. pose proof (Hpage ErrorCode) as HC.
  pose proof (Hpage ErrorStep) as HE. simpl in HS, HC, HE. unfold failure_recorded in *. cbn zeta in *.
  rewrite HS, HC, HE by done. done.
Qed.

(** After the launch, whatever came of it. *)
Lemma after_launch_spec fuel sockets pid l0 l :
  launch_ended l0 l → 0 < pid →
  streams_installed stdin stdout stderr l0 → descriptors_closed l0 sockets.2 →
  (∃ top flags, did l0 Spawner (CloneChild top flags (target_args filter executable argv envp))
     (λ r, rp_result r = pid)) →
  W (_ ← store TargetPid pid;
     failed ← load State;
     if decide (failed = STATE_FAILED) then mret 127
     else
       created ← load State;
       if decide (created ≠ STATE_LISTENER_CREATED) then fail_launched pid Exec EIO
       else
         listener ← load ListenerFd;
         if decide (listener < 0) then fail_launched pid InstallSeccomp EBADF
         else hand_over fuel sockets.2 pid listener) (Spn sockets l) (main_post sockets).
Proof.
  intros (Hsub & He & Hs & Hr & Hcase) Hpid Hstr Hcl (top & flags & Hclone).
  assert (Hknown : did l Spawner (CloneChild top flags (target_args filter executable argv envp)) (λ r, rp_result r = pid))
    by by eapply did_sub.
  apply w_store; [split; [apply He|split; [done|by eexists _, _, _]]|]. intros r0. cbn [add].
  destruct (target_known l0 l pid r0 top flags) as (Hst1 & Hrun1 & Hp1 & Hsent1 & Hrecv1 & Hpage); [by split_and!|done..|].
  set (l1 := l ++ _) in *. assert (Hsub1 : l ⊆ l1) by set_solver.
  apply w_load; [by split|]. intros r1 Hr1. cbn [add]. cbn [reads child_reads] in Hr1. rewrite Hr1.
  destruct (still_running l1 (Load State) r1 I Hrun1 Hp1) as [Hrun2 Hp2].
  rewrite (Hpage State) by done. case_decide as Hfailed.
  { eexists. split_and!; [done|done|done|]. right. split; [done|].
    simpl in Hfailed. destruct Hcase as [Hst|[[Hst _]|Hf]]; [by rewrite Hst in Hfailed..|].
    apply (failure_recorded_page l); [|done]. intros f Hf'. rewrite page_add by done. by apply Hpage. }
  apply w_load; [by split|]. intros r2 Hr2. cbn [add]. cbn [reads child_reads] in Hr2. rewrite Hr2.
  destruct (still_running _ (Load State) r2 I Hrun2 Hp2) as [Hrun3 Hp3].
  rewrite page_add by done. rewrite (Hpage State) by done.
  case_decide as Hcreated; [by apply fail_launched_spec|].
  apply w_load; [by split|]. intros r3 Hr3. cbn [add]. cbn [reads child_reads] in Hr3. rewrite Hr3.
  destruct (still_running _ (Load ListenerFd) r3 I Hrun3 Hp3) as [Hrun4 Hp4].
  rewrite !page_add by done. rewrite (Hpage ListenerFd) by done.
  case_decide as Hneg; [by apply fail_launched_spec|].
  simpl in Hcreated, Hfailed, Hneg.
  destruct Hcase as [Hst|[[_ Hlaunched]|[Hst _]]]; [by rewrite Hst in Hcreated| |by rewrite Hst in Hfailed].
  assert (Hsub4 : l ⊆ ((l1 ++ [Did Spawner (Load State) r1]) ++ [Did Spawner (Load State) r2]) ++
    [Did Spawner (Load ListenerFd) r3]) by set_solver.
  apply hand_over_spec.
  - split_and!; [done|done|by rewrite !stores_add|done|..].
    + eapply streams_installed_sub; [|done]. set_solver.
    + eapply descriptors_closed_sub; [|done]. set_solver.
    + exists top, flags. eapply did_sub; [|done]. set_solver.
    + by eapply target_launched_sub.
    + clear -Hneg. simpl. lia.
  - by rewrite !sent_add by done.
  - by rewrite !received_add by done.
Qed.

Lemma launch_target_spec fuel sockets l :
  Z.of_nat (length filter) <= u16_MAX → idle l →
  streams_installed stdin stdout stderr l → descriptors_closed l sockets.2 →
  W (launch_target fuel sockets.2 (target_args filter executable argv envp)) (Spn sockets l) (main_post sockets).
Proof.
  intros Hlen Hi Hstr Hcl. unfold launch_target, clone_target.
  pose proof (idle_early l Hi) as He. apply w_bind.
  apply w_call; [split; [apply He|apply He]|done|tauto|]. intros stack Hstack. cbn [add].
  pose proof (idle_add l _ stack (I : quiet (Mmap TARGET_STACK_SIZE)) Hi) as Hi1.
  case_decide as Hfail.
  { apply w_ret. cbn beta iota. rewrite decide_True by lia. apply fail_startup_spec; [apply Hi1|by apply idle_pending| |done].
    cbn in Hstack. apply Hstack. lia. }
  set (l1 := l ++ _) in *. assert (Hsub1 : l ⊆ l1) by set_solver.
  set (c := CloneChild _ _ _). pose proof (idle_early l1 Hi1) as He1.
  apply wlp_sys_bind.
  { split; [apply He1|]. split; [done|]. split; [|done]. split; vm_compute; discriminate. }
  intros r Hr. cbn [sem retried c]. rewrite decide_False by tauto. fold c.
  pose proof (idle_add l1 c r I Hi1) as Hi2. split; intros Hpid.
  - apply w_call; [split; [apply Hi2|by apply idle_pending]|done|tauto|]. intros r' _. cbn [add].
    apply w_ret. cbn beta iota. rewrite decide_True by done.
    pose proof (idle_add _ _ r' (I : quiet (Munmap (rp_result stack) TARGET_STACK_SIZE)) Hi2) as Hi3.
    apply fail_startup_spec; [apply Hi3|by apply idle_pending| |done]. cbn in Hr. auto.
  - eapply target_runs_mono; [|apply target_entry_spec; [done|by apply idle_early|apply Hi2..|]].
    2:{ destruct Hi2 as (_ & Hpage & _). by rewrite Hpage. }
    intros l3 Hl3. set (l2 := l1 ++ _) in *.
    assert (Hl4 : ∀ r', launch_ended l2 (l3 ++ [Did Spawner (Munmap (rp_result stack) TARGET_STACK_SIZE) r'])).
    { intros r'. destruct Hl3 as (Hsub & (Hrun & Hp & Hst) & Hs & Hv & Hcase).
      split; [set_solver|]. split; [split_and!; [by apply running_add|unfold pending; by rewrite page_add|by rewrite stores_add]|].
      rewrite sent_add, received_add by done. split_and!; [done..|]. rewrite page_add by done.
      destruct Hcase as [?|[[? ?]|Hf]]; [by left|right; left; split; [done|]|right; right].
      - eapply target_launched_sub; [|done]. set_solver.
      - unfold failure_recorded in *. by rewrite page_add. }
    apply w_call; [split; [apply Hl3|apply Hl3]|done|tauto|]. intros r' _. cbn [add]. specialize (Hl4 r').
    apply w_ret. cbn beta iota. rewrite decide_False by lia.
    apply (after_launch_spec fuel sockets (rp_result r) l2); [done|done|..].
    + eapply streams_installed_sub; [|done]. set_solver.
    + eapply descriptors_closed_sub; [|done]. set_solver.
    + eexists _, _. apply did_last. done.
Qed.

Definition spawner_args (sockets : Z * Z) : SpawnerArgs :=
  {| sa_filter := filter; sa_executable := executable; sa_argv := argv; sa_envp := envp;
     sa_spawner_socket := sockets.2; sa_stdin := stdin; sa_stdout := stdout; sa_stderr := stderr |}.

Lemma spawner_main_spec fuel sockets l :
  Z.of_nat (length filter) <= u16_MAX → idle l →
  W (spawner_main fuel (spawner_args sockets)) (Spn sockets l) (main_post sockets).
Proof.
  intros Hlen Hi. unfold spawner_main. cbn [spawner_args sa_stdin sa_stdout sa_stderr sa_spawner_socket].
  assert (Hgive : ∀ step l errno, idle l → 0 < errno → step ≠ SNone →
    W (fail_startup step errno) (Spn sockets l) (main_post sockets))
    by (intros step l' errno Hi' ? ?; apply fail_startup_spec; [apply Hi'|by apply idle_pending|done..]).
  apply w_bind, install_standard_stream_spec; [done| |by intros; apply Hgive].
  intros l1 _ Hi1 H1. apply w_bind, install_standard_stream_spec; [done| |by intros; apply Hgive].
  intros l2 Hs2 Hi2 H2. apply w_bind, install_standard_stream_spec; [done| |by intros; apply Hgive].
  intros l3 Hs3 Hi3 H3. apply w_bind, close_unwanted_fds_spec; [done|done| |by intros; apply Hgive].
  intros l4 Hs4 Hi4 Hcl. apply launch_target_spec; [done|done| |done].
  eapply streams_installed_sub; [done|].
  assert (Hone : ∀ l l' d, l ⊆ l' → stream_installed l d → stream_installed l' d).
  { intros l0 l' d Hsub (source & Hf & Hs & Hd). exists source. split_and!; [|done|]; by eapply did_sub. }
  split_and!; [|eauto|done]. intros Ht. apply (Hone l1); [set_solver|auto].
Qed.

(** The child of the fork runs to its exit. *)
Lemma forked_spec fuel sockets :
  Z.of_nat (length filter) <= u16_MAX →
  W (exit_code ← spawner_main fuel (spawner_args sockets);
     _ ← store Done STARTUP_DONE;
     _ ← sys (Exit exit_code);
     plift (E:=SpawnError) (A:=Z * Z) Panic) (Spn sockets []) (λ r _, r = NoFuel).
Proof.
  intros Hlen. apply w_bind. eapply w_mono.
  2:{ apply spawner_main_spec; [done|]. split_and!; [|done..]. split; [|by left]. intros ? ? ?%elem_of_nil. done. }
  intros [code|e| |] v; cbn [main_post]; cbn beta iota; [|done|done|done].
  intros (l & -> & Hr & Hp & Hout).
  apply w_store; [by split|]. intros r. cbn [add]. set (l' := l ++ _).
  apply wlp_sys_bind; [|intros r' _; by case_decide].
  assert (Hsub : l ⊆ l') by set_solver.
  split.
  { destruct Hr as [Hx Hs]. split; [|eapply target_known_sub; [done|unfold l'; by rewrite stores_app, app_nil_r|done]].
    intros code' r' [Hin|Hin%list_elem_of_singleton]%elem_of_app; [by eapply Hx|done]. }
  split; [unfold l'; by rewrite page_after_app|].
  destruct Hout as [[-> Hh]|[-> Hf]]; [left|right]; split; try done.
  - destruct Hh as (pid & listener & top & flags & Hst & Hpids & Hpid & Hstr & Hcl & Hclone & Ht & Hfd & Hsend).
    exists pid, listener, top, flags. split_and!; [|unfold l'; by rewrite stores_app, app_nil_r|done|..|done|].
    + unfold l'. by rewrite page_after_app.
    + by eapply streams_installed_sub.
    + by eapply descriptors_closed_sub.
    + by eapply did_sub.
    + by eapply target_launched_sub.
    + by eapply did_sub.
  - unfold failure_recorded, l' in *. by rewrite page_after_app.
Qed.

End proofs.
