(* ===== verification/StartupSupervisor.v ===== *)
(** * The supervisor's side of a launch *)

From S2P Require Import Prelude Effects Tracker Ptrace Programs Spawn Startup StartupLogic StartupProofs.

Local Open Scope Z_scope.

(** ** What the supervisor has done *)

(** The descriptors that arrived. *)
Definition incoming (l : log) : list Z :=
  omap (λ e, match e with
    | Did Supervisor (Recvmsg _) r => if decide (0 < rp_result r) then received_fd (rp_control r) else None
    | _ => None end) l.

(** After the fork: the sockets, the spawner, and the traffic so far. *)
Record supervising (mine its pid : Z) (s v : nat) (fds : list Z) (l : log) : Prop := {
  sv_forked : did l Supervisor Fork (λ r, 0 < rp_result r ∧ rp_result r = pid);
  sv_sockets : sockets_of l = (mine, its);
  sv_closed : did l Supervisor (Close its) (λ _, True);
  sv_sent : sent Supervisor l = s;
  sv_received : received Supervisor l = v;
  sv_incoming : incoming l = fds;
  sv_unread : ∀ r, Did Supervisor (Load Done) r ∉ l;
}.

(** The descriptors that arrived are closed again. *)
Definition dropped (l : log) : Prop := ∀ fd, fd ∈ incoming l → did l Supervisor (Close fd) (λ _, True).

(** The target was attached to and its listener received. *)
Definition listener_received (fd : Z) (l : log) : Prop :=
  (∃ pid, 0 < pid ∧ did l Supervisor (Load TargetPid) (λ r, rp_result r = pid) ∧
     did l Supervisor (Attach (PTRACE_SEIZE TRACE_OPTIONS) pid) (λ r, 0 <= rp_result r)) ∧
  ∃ socket, did l Supervisor (Recvmsg socket)
    (λ r, rp_result r = 1 ∧ rp_byte r = TRANSFER_BYTE ∧ received_fd (rp_control r) = Some fd).

(** There is no target, or a wait for it reported something or failed, or it was
    killed. *)
Definition target_settled (l : log) : Prop :=
  did l Supervisor (Load TargetPid) (λ r, rp_result r <= 0) ∨
  ∃ pid, 0 < pid ∧ did l Supervisor (Load TargetPid) (λ r, rp_result r = pid) ∧
    (did l Supervisor (Waitpid pid WNOHANG) (λ r, rp_result r = pid ∨ rp_result r < 0) ∨
     did l Supervisor (Kill pid SIGKILL) (λ _, True)).

(** The error is the one that the spawner or the target recorded. *)
Definition shared_error (e : SpawnError) (l : log) : Prop :=
  did l Supervisor (Load State) (λ r, rp_result r = STATE_FAILED) ∧
  did l Supervisor (Load ErrorStep) (λ r, from_raw (rp_result r) = se_step e) ∧
  did l Supervisor (Load ErrorCode) (λ r, normalize (E:=()) (rp_result r) = Ret (se_errno e)).

(** The errors the supervisor makes itself. *)
Definition own_error (e : SpawnError) : Prop := se_step e ≠ SNone ∧ 0 < se_errno e.

(** How [spawn_seccomp_target] ends. *)
Definition supervisor_post (r : exec SpawnError (Z * Z)) (l : log) : Prop :=
  match r with
  | Ret (fd, pid) =>
      0 < pid ∧ listener_received fd l ∧
      (∃ spawner, did l Supervisor Fork (λ r, 0 < rp_result r ∧ rp_result r = spawner) ∧
         did l Supervisor (Waitpid spawner 0)
           (λ r, rp_result r = spawner ∧ WIFEXITED (rp_status r) = true ∧ WEXITSTATUS (rp_status r) = 0)) ∧
      did l Supervisor (Load Done) (λ r, rp_result r = STARTUP_DONE) ∧
      did l Supervisor (Load State) (λ r, rp_result r = STATE_SPAWNED) ∧
      did l Supervisor (Load TargetPid) (λ r, rp_result r = pid)
  | Throw e =>
      (own_error e ∨ shared_error e l) ∧ dropped l ∧
      (did l Supervisor (Load Done) (λ r, rp_result r = STARTUP_DONE) →
         target_settled l ∧
         (se_step e = AttachTracer ∨
          shared_error e l ∨ did l Supervisor (Load State) (λ r, rp_result r ≠ STATE_FAILED)))
  | Panic => did l Supervisor (Load State) (λ r, rp_result r = STATE_FAILED) ∧
      did l Supervisor (Load ErrorCode) (λ r, rp_result r = i32_MIN)
  | NoFuel => True
  end.

Section proofs.
  Context (filter : list sock_filter) (executable argv envp : pointer) (stdin stdout stderr : bool).

Abbreviation W := (wlp sem (At filter executable argv envp stdin stdout stderr)).

(** Calls that are neither messages nor make sockets. *)
Definition bystander (c : call) : Prop :=
  match c with
  | Send _ _ | Recv _ | Sendmsg _ _ _ | Recvmsg _ | Socketpair => False
  | _ => True
  end.

Lemma sockets_of_add l c r :
  c ≠ Socketpair → sockets_of (l ++ [Did Supervisor c r]) = sockets_of l.
Proof.
  intros Hc. unfold sockets_of. rewrite omap_app, last_app. by destruct c.
Qed.

Lemma incoming_app l l' : incoming (l ++ l') = incoming l ++ incoming l'.
Proof. apply omap_app. Qed.

(** What a log shows, a longer one shows. *)
Lemma listener_received_sub fd l l' : l ⊆ l' → listener_received fd l → listener_received fd l'.
Proof.
  intros Hsub ((p & Hp & Ha1 & Ha2) & socket & Hmsg).
  split; [exists p; split_and!; [done|..]|exists socket]; by eapply did_sub.
Qed.

Lemma shared_error_sub e l l' : l ⊆ l' → shared_error e l → shared_error e l'.
Proof. intros Hsub (? & ? & ?). split_and!; by eapply did_sub. Qed.

Lemma target_settled_sub l l' : l ⊆ l' → target_settled l → target_settled l'.
Proof.
  intros Hsub [Hs|(p & Hpos & Hp & Hs)]; [left; by eapply did_sub|right].
  exists p. split; [done|]. split; [by eapply did_sub|]. destruct Hs; [left|right]; by eapply did_sub.
Qed.

Lemma dropped_sub l l' : l ⊆ l' → incoming l' = incoming l → dropped l → dropped l'.
Proof. intros Hsub Hin Hd fd. rewrite Hin. intros Hfd%Hd. by eapply did_sub. Qed.

Lemma sent_app w l l' : sent w (l ++ l') = (sent w l + sent w l')%nat.
Proof. unfold sent. by rewrite filter_app, length_app. Qed.
Lemma received_app w l l' : received w (l ++ l') = (received w l + received w l')%nat.
Proof. unfold received. by rewrite filter_app, length_app. Qed.

Lemma supervising_step mine its pid s v fds l c r :
  c ≠ Socketpair → c ≠ Load Done → supervising mine its pid s v fds l →
  supervising mine its pid (s + sent Supervisor [Did Supervisor c r])
    (v + received Supervisor [Did Supervisor c r]) (fds ++ incoming [Did Supervisor c r])
    (l ++ [Did Supervisor c r]).
Proof.
  intros Hc Hd [Hf Hs Hc' Hsent Hrecv Hin Hu]. split.
  - eapply did_sub; [|done]. set_solver.
  - by rewrite sockets_of_add.
  - eapply did_sub; [|done]. set_solver.
  - by rewrite sent_app, Hsent.
  - by rewrite received_app, Hrecv.
  - by rewrite incoming_app, Hin.
  - intros r' [Hr|Hr%list_elem_of_singleton]%elem_of_app; [by eapply Hu|]. by injection Hr as <- _.
Qed.

Lemma supervising_add mine its pid s v fds l c r :
  bystander c → c ≠ Load Done → supervising mine its pid s v fds l →
  supervising mine its pid s v fds (l ++ [Did Supervisor c r]).
Proof.
  intros Hc Hd Hl. assert (Hsock : c ≠ Socketpair) by (by intros ->).
  pose proof (supervising_step _ _ _ _ _ _ _ c r Hsock Hd Hl) as Hl'.
  destruct c; try done; cbn in Hl'; by rewrite !Nat.add_0_r, app_nil_r in Hl'.
Qed.

Lemma dropped_add l c r :
  incoming [Did Supervisor c r] = [] → dropped l → dropped (l ++ [Did Supervisor c r]).
Proof.
  intros Hc Hd fd. rewrite incoming_app, Hc, app_nil_r. intros Hin.
  eapply did_sub; [|by apply Hd]. set_solver.
Qed.

Lemma dropped_close mine its pid s v fd l r :
  supervising mine its pid s v [fd] l → dropped (l ++ [Did Supervisor (Close fd) r]).
Proof.
  intros Hl fd'. rewrite incoming_app, (sv_incoming _ _ _ _ _ _ _ Hl). simpl.
  intros ->%list_elem_of_singleton. by apply did_last.
Qed.

(** The assertion at a call, with the sockets known. *)
Lemma supervisor_at_sockets mine its l c :
  sockets_of l = (mine, its) → supervisor_at_with mine its l c → supervisor_at l c.
Proof. intros Hs. unfold supervisor_at. by rewrite Hs. Qed.

(** ** Errors *)

Lemma w_spawn_error {A} step errno v (Q : exec SpawnError A → view → Prop) :
  0 < errno → Q (Throw {| se_step := step; se_errno := errno |}) v → W (plift (spawn_error step errno)) v Q.
Proof. intros He HQ. unfold spawn_error. by rewrite normalize_pos. Qed.

Lemma w_step_error {A} step (m : Prog IoError A) v (Q : exec SpawnError A → view → Prop) :
  W m v (λ r v', match r with
                 | Ret a => Q (Ret a) v'
                 | Throw e => 0 < from_io e ∧ Q (Throw {| se_step := step; se_errno := from_io e |}) v'
                 | Panic => Q Panic v'
                 | NoFuel => Q NoFuel v'
                 end) → W (step_error step m) v Q.
Proof.
  intros Hm. apply wlp_map_err; [apply sem_mono|]. eapply w_mono; [|done].
  intros [a|e| |] v'; try done. intros [He HQ]. unfold spawn_error. by rewrite normalize_pos.
Qed.

(** ** Receiving the listener *)

Lemma w_recvmsg fuel socket l (Q : exec IoError Reply → view → Prop) :
  supervisor_at l (Recvmsg socket) → Q NoFuel (Sup l) →
  (∀ r, 0 <= rp_result r → Q (Ret r) (Sup (l ++ [Did Supervisor (Recvmsg socket) r]))) →
  (∀ r, 0 < rp_errno r → rp_result r < 0 →
     Q (Throw (OsError (rp_errno r))) (Sup (l ++ [Did Supervisor (Recvmsg socket) r]))) →
  W (recvmsg_loop fuel socket) (Sup l) Q.
Proof.
  intros Hat HN Hok Herr. induction fuel as [|n IH]; [done|]. cbn [recvmsg_loop].
  apply w_retry; [done|done|..]; intros r Hr Hint; cbn in Hint, Hr.
  - destruct Hint as [Hneg Hint]. rewrite decide_False by lia. rewrite decide_False by (intros Hne; by apply Hne). done.
  - case_decide as Hres; [by apply Hok|]. rewrite decide_True by (intros ?; apply Hint; split; [lia|done]).
    apply Herr; [apply Hr|]; lia.
Qed.

Lemma recv_fd_spec fuel mine its pid l (Q : exec IoError Z → view → Prop) :
  supervising mine its pid 1 1 [] l → Q NoFuel (Sup l) →
  (∀ fd l', l ⊆ l' → supervising mine its pid 1 2 [fd] l' →
     (∃ socket, did l' Supervisor (Recvmsg socket)
       (λ r, rp_result r = 1 ∧ rp_byte r = TRANSFER_BYTE ∧ received_fd (rp_control r) = Some fd)) →
     Q (Ret fd) (Sup l')) →
  (∀ e l' v fds, l ⊆ l' → supervising mine its pid 1 v fds l' → dropped l' → 0 < from_io e →
     Q (Throw e) (Sup l')) →
  W (recv_fd fuel mine) (Sup l) Q.
Proof.
  intros Hl HN Hok Herr. unfold recv_fd. apply w_bind, w_recvmsg; [|done|..].
  - apply supervisor_at_sockets with mine its; [apply Hl|]. simpl.
    split; [destruct (sv_forked _ _ _ _ _ _ _ Hl) as (r & ? & ? & ?); by exists r|].
    destruct Hl as [_ Hs Hc Hsent Hrecv _ _]. split_and!; done.
  - intros r Hr. set (l1 := l ++ _). assert (Hsub : l ⊆ l1) by set_solver.
    set (c := Recvmsg mine) in *.
    pose proof (supervising_step _ _ _ _ _ _ _ c r (ltac:(done)) (ltac:(done)) Hl : supervising _ _ _ _ _ _ l1) as Hl1.
    assert (Hin : incoming l1 = if decide (0 < rp_result r) then
      match received_fd (rp_control r) with Some fd => [fd] | None => [] end else []).
    { unfold l1. rewrite incoming_app, (sv_incoming _ _ _ _ _ _ _ Hl). simpl.
      case_decide; [|done]. by destruct (received_fd _). }
    assert (Hs0 : sent Supervisor [Did Supervisor c r] = 0%nat) by done. rewrite Hs0 in Hl1.
    destruct (decide (rp_result r = 0)) as [Hzero|Hzero].
    { eapply Herr; [done|done| |done]. intros fd. rewrite Hin. rewrite decide_False by lia. set_solver. }
    rewrite decide_True in Hin by lia.
    assert (Hbad : W (_ ← drop_fd (received_fd (rp_control r)); pthrow (CustomError KInvalidData)) (Sup l1) Q).
    { destruct (received_fd (rp_control r)) as [fd|] eqn:Hfd; cbn [drop_fd].
      - apply w_close; [done|]. intros r'. cbn [add].
        eapply Herr; [set_solver|by apply supervising_add| |done].
        intros fd'. rewrite incoming_app, Hin, app_nil_r. intros ->%list_elem_of_singleton. by apply did_last.
      - eapply Herr; [done|done| |done]. intros fd. rewrite Hin. set_solver. }
    case_decide as Hmsg; [done|]. case_decide as Htrunc; [done|].
    assert (rp_result r = 1 ∧ rp_byte r = TRANSFER_BYTE) as [Hone Hbyte]
      by (split; apply dec_stable; intros ?; apply Hmsg; auto).
    destruct (received_fd (rp_control r)) as [fd|] eqn:Hfd.
    + apply w_ret, Hok; [done| |].
      * destruct Hl1 as [? ? ? Hs Hv Hi Hu]. split; [done..| | |done|done].
        -- by rewrite Hs.
        -- rewrite Hv. unfold received. rewrite filter_cons_True by (cbn; split; [done|lia]). done.
      * exists mine, r. split; [set_solver|done].
    + eapply Herr; [done|done| |done]. intros fd. rewrite Hin. set_solver.
  - intros r He Hneg.
    pose proof (supervising_step _ _ _ _ _ _ _ (Recvmsg mine) r (ltac:(done)) (ltac:(done)) Hl) as Hl1.
    rewrite (eq_refl : sent Supervisor [Did Supervisor (Recvmsg mine) r] = 0%nat) in Hl1.
    eapply Herr; [set_solver|done| |done]. intros fd.
    rewrite incoming_app, (sv_incoming _ _ _ _ _ _ _ Hl). simpl. rewrite decide_False by lia. set_solver.
Qed.

Lemma supervising_dropped mine its pid s v l : supervising mine its pid s v [] l → dropped l.
Proof. intros Hl fd. rewrite (sv_incoming _ _ _ _ _ _ _ Hl). by intros ?%elem_of_nil. Qed.

Lemma supervising_forked mine its pid s v fds l :
  supervising mine its pid s v fds l → did l Supervisor Fork (λ r, 0 < rp_result r).
Proof. intros Hl. destruct (sv_forked _ _ _ _ _ _ _ Hl) as (r & Hr & Hp & _). by exists r. Qed.

(** How the first closure ends. *)
Definition received_post (mine its pid : Z) (r : exec SpawnError Z) (v : view) : Prop :=
  ∃ l, v = Sup l ∧
  match r with
  | Ret fd => supervising mine its pid 1 2 [fd] l ∧ listener_received fd l
  | Throw e => (∃ s v fds, supervising mine its pid s v fds l) ∧ dropped l ∧ own_error e
  | Panic => False
  | NoFuel => True
  end.

Lemma received_error mine its pid s v fds step errno l :
  supervising mine its pid s v fds l → dropped l → 0 < errno → step ≠ SNone →
  W (plift (spawn_error step errno)) (Sup l) (received_post mine its pid).
Proof.
  intros Hl Hd He Hs. apply w_spawn_error; [done|]. exists l. split; [done|].
  split; [by exists s, v, fds|]. done.
Qed.

(** A byte received, and one sent. *)
Lemma supervising_recv mine its pid s v fds l r :
  0 < rp_result r → supervising mine its pid s v fds l →
  supervising mine its pid s (S v) fds (l ++ [Did Supervisor (Recv mine) r]).
Proof.
  intros Hr Hl.
  pose proof (supervising_step _ _ _ _ _ _ _ (Recv mine) r (ltac:(done)) (ltac:(done)) Hl) as Hl'.
  assert (Hv : received Supervisor [Did Supervisor (Recv mine) r] = 1%nat)
    by (unfold received; by rewrite filter_cons_True by (cbn; split; [done|lia])).
  by rewrite Hv, Nat.add_0_r, Nat.add_1_r, app_nil_r in Hl'.
Qed.

Lemma supervising_send mine its pid s v fds l byte r :
  rp_result r = 1 → supervising mine its pid s v fds l →
  supervising mine its pid (S s) v fds (l ++ [Did Supervisor (Send mine byte) r]).
Proof.
  intros Hr Hl.
  pose proof (supervising_step _ _ _ _ _ _ _ (Send mine byte) r (ltac:(done)) (ltac:(done)) Hl) as Hl'.
  assert (Hs : sent Supervisor [Did Supervisor (Send mine byte) r] = 1%nat)
    by (unfold sent; by rewrite filter_cons_True).
  by rewrite Hs, Nat.add_0_r, Nat.add_1_r, app_nil_r in Hl'.
Qed.

Lemma receive_listener_spec fuel mine its pid l :
  supervising mine its pid 0 0 [] l →
  W (receive_listener fuel mine) (Sup l) (received_post mine its pid).
Proof.
  intros Hl. unfold receive_listener.
  assert (Herr : ∀ s v l step errno, supervising mine its pid s v [] l → 0 < errno → step ≠ SNone →
    W (plift (spawn_error step errno)) (Sup l) (received_post mine its pid)).
  { intros s v l' step errno Hl' ? ?. eapply received_error; [done|by eapply supervising_dropped|done..]. }
  apply w_bind, w_recv_control.
  { apply supervisor_at_sockets with mine its; [apply Hl|].
    split; [by eapply supervising_forked|]. split_and!; [done|apply Hl|apply Hl]. }
  { by exists l. }
  2:{ intros r errno He Hr. cbn [add].
      pose proof (supervising_step _ _ _ _ _ _ _ (Recv mine) r (ltac:(done)) (ltac:(done)) Hl) as Hl1.
      eapply Herr; done. }
  intros r Hr. cbn [add]. set (l1 := l ++ _).
  assert (Hl1 : supervising mine its pid 0 1 [] l1) by (apply supervising_recv; [lia|done]).
  case_decide; [by eapply Herr|].
  apply w_load; [by eapply supervising_forked|]. intros r2 _. cbn [add]. set (l2 := l1 ++ _).
  assert (Hl2 : supervising mine its pid 0 1 [] l2) by by apply supervising_add.
  case_decide as Hpid; [by eapply Herr|].
  set (target := rp_result r2) in *.
  assert (Hread : did l2 Supervisor (Load TargetPid) (λ r, rp_result r = target)) by by apply did_last.
  apply w_bind, w_step_error. unfold seize.
  apply w_call; [split; [lia|done]|done|tauto|]. intros r3 Hr3. cbn [add]. set (l3 := l2 ++ _).
  assert (Hl3 : supervising mine its pid 0 1 [] l3) by by apply supervising_add.
  assert (Hsub : l2 ⊆ l3) by set_solver.
  case_decide as Hseize.
  { split; [by apply Hr3|]. exists l3. split; [done|]. split; [by eexists _, _, _|].
    split; [by eapply supervising_dropped|]. split; [done|by apply Hr3]. }
  apply w_ret. apply w_bind, w_send_control; [done|by exists l3|..].
  2:{ intros r4 errno He Hr4. cbn [add].
      pose proof (supervising_step _ _ _ _ _ _ _ (Send mine TRACER_ATTACHED_BYTE) r4 (ltac:(done)) (ltac:(done)) Hl3) as Hl4.
      eapply Herr; done. }
  intros r4 Hr4. cbn [add]. set (l4 := l3 ++ _).
  assert (Hl4 : supervising mine its pid 1 1 [] l4) by by apply supervising_send.
  apply w_step_error, (recv_fd_spec fuel mine its pid); [done|by exists l4|..].
  - intros fd l' Hsub' Hl' Hmsg. exists l'. split; [done|]. split; [done|]. split; [|done].
    exists target. split; [lia|]. split; [eapply did_sub; [|done]; set_solver|].
    exists r3. split; [set_solver|lia].
  - intros e l' v fds _ Hl' Hd He. split; [done|]. exists l'. split; [done|].
    split; [by eexists _, _, _|]. done.
Qed.

(** ** Waiting for the spawner *)

Lemma w_waitpid_nointr {E} fuel pid l (Q : exec E (IoError + Z) → view → Prop) :
  supervisor_at l (Waitpid pid 0) → 0 < pid → Q NoFuel (Sup l) →
  (∀ r, rp_result r = pid → Q (Ret (inr (rp_status r))) (Sup (l ++ [Did Supervisor (Waitpid pid 0) r]))) →
  (∀ r, 0 < rp_errno r → Q (Ret (inl (OsError (rp_errno r)))) (Sup (l ++ [Did Supervisor (Waitpid pid 0) r]))) →
  W (waitpid_nointr fuel pid) (Sup l) Q.
Proof.
  intros Hat Hpid HN Hok Herr. unfold waitpid_nointr. generalize fuel as n. intros n.
  induction n as [|n IH]; [done|]. cbn [waitpid_nointr_loop].
  apply w_retry; [done|done|..]; intros r [Hr Hres] Hint; cbn in Hint.
  - rewrite decide_False by (intros Hres'; destruct Hint; lia). by rewrite decide_True.
  - case_decide as Hp; [by apply Hok|]. rewrite decide_False by done.
    apply Herr, Hr. destruct Hres as [?|[?|?]]; [done|done|discriminate].
Qed.

(** Once [startup_done] is set. *)
Record concluding (fds : list Z) (l : log) : Prop := {
  cc_done : did l Supervisor (Load Done) (λ r, rp_result r = STARTUP_DONE);
  cc_forked : did l Supervisor Fork (λ r, 0 < rp_result r);
  cc_incoming : incoming l = fds;
}.

Lemma concluding_add fds l c r :
  bystander c → concluding fds l → concluding fds (l ++ [Did Supervisor c r]).
Proof.
  intros Hc [Hd Hf Hi]. split; [eapply did_sub; [|done]; set_solver..|].
  rewrite incoming_app, Hi. destruct c; try done; apply app_nil_r.
Qed.

Lemma reap_target_spec {E} fuel pid l (Q : exec E bool → view → Prop) :
  0 < pid → did l Supervisor Fork (λ r, 0 < rp_result r) → Q NoFuel (Sup l) →
  (∀ (alive : bool) r, (alive = false → rp_result r = pid ∨ rp_result r < 0) →
     Q (Ret alive) (Sup (l ++ [Did Supervisor (Waitpid pid WNOHANG) r]))) →
  W (reap_target_loop fuel pid) (Sup l) Q.
Proof.
  intros Hpid Hf HN HQ. induction fuel as [|n IH]; [done|]. cbn [reap_target_loop].
  apply w_retry; [split; [done|by left]|done|..]; intros r _ Hint; cbn in Hint.
  - destruct Hint as [Hneg Hint]. rewrite decide_False by (intros [?|[_ He]]; [lia|by rewrite He in Hint]).
    rewrite decide_True by done. by rewrite decide_True.
  - case_decide as Hres; [apply HQ; tauto|].
    case_decide as Hneg; [|by apply HQ].
    rewrite decide_False by (intros He; by apply Hint). apply HQ. auto.
Qed.

Lemma terminate_spec {E} fuel fds l (Q : exec E () → view → Prop) :
  concluding fds l → (∀ l', Q NoFuel (Sup l')) →
  (∀ l', l ⊆ l' → concluding fds l' → target_settled l' → Q (Ret ()) (Sup l')) →
  W (terminate_and_reap_target fuel) (Sup l) Q.
Proof.
  intros Hl HN HQ. unfold terminate_and_reap_target.
  apply w_load; [apply Hl|]. intros r _. cbn [add]. set (l1 := l ++ _).
  assert (Hl1 : concluding fds l1) by by apply concluding_add.
  assert (Hread : did l1 Supervisor (Load TargetPid) (λ r', rp_result r' = rp_result r)) by by apply did_last.
  case_decide as Hpid.
  { apply w_ret, HQ; [set_solver|done|]. left. exists r. split; [set_solver|done]. }
  set (pid := rp_result r) in *. apply w_bind, reap_target_spec; [lia|apply Hl1|done|].
  intros alive r2 Hr2. set (l2 := l1 ++ _).
  assert (Hl2 : concluding fds l2) by by apply concluding_add.
  assert (Hread2 : did l2 Supervisor (Load TargetPid) (λ r', rp_result r' = pid))
    by (eapply did_sub; [|done]; set_solver).
  destruct alive.
  - apply w_call; [done|done|tauto|]. intros r3 _. cbn [add]. set (l3 := l2 ++ _).
    assert (Hl3 : concluding fds l3) by by apply concluding_add.
    assert (Hkill : did l3 Supervisor (Kill pid SIGKILL) (λ _, True)) by by apply did_last.
    assert (Hend : ∀ r, Q (Ret ()) (Sup (l3 ++ [Did Supervisor (Waitpid pid 0) r]))).
    { intros r4. apply HQ; [set_solver|by apply concluding_add|]. right. exists pid.
      split; [lia|]. split; [eapply did_sub; [|exact Hread2]; set_solver|]. right. eapply did_sub; [|done]. set_solver. }
    apply w_bind, w_waitpid_nointr; [|lia|done|..].
    + split; [apply Hl3|]. right. by left.
    + intros r4 _. by apply w_ret.
    + intros r4 _. by apply w_ret.
  - apply w_ret, HQ; [set_solver|done|]. right. exists pid. split; [lia|]. split; [done|]. left.
    apply did_last. auto.
Qed.

(** How the second closure ends once [startup_done] is set. *)
Definition concluded (l0 : log) (fds : list Z) (listener_result : SpawnError + Z) (status : Z)
    (r : exec SpawnError (Z * Z)) (v : view) : Prop :=
  ∃ l, v = Sup l ∧ l0 ⊆ l ∧ concluding fds l ∧
  match r with
  | Ret (fd, pid) => listener_result = inr fd ∧ 0 < pid ∧
      WIFEXITED status = true ∧ WEXITSTATUS status = 0 ∧
      did l Supervisor (Load State) (λ r, rp_result r = STATE_SPAWNED) ∧
      did l Supervisor (Load TargetPid) (λ r, rp_result r = pid)
  | Throw e => (own_error e ∨ shared_error e l) ∧
      (se_step e = AttachTracer ∨ shared_error e l ∨
       did l Supervisor (Load State) (λ r, rp_result r ≠ STATE_FAILED))
  | Panic => did l Supervisor (Load State) (λ r, rp_result r = STATE_FAILED) ∧
      did l Supervisor (Load ErrorCode) (λ r, rp_result r = i32_MIN)
  | NoFuel => False
  end.

Lemma read_shared_error_spec l0 fds listener_result status l :
  l0 ⊆ l → concluding fds l → did l Supervisor (Load State) (λ r, rp_result r = STATE_FAILED) →
  W read_shared_error (Sup l) (concluded l0 fds listener_result status).
Proof.
  intros Hsub Hl Hstate. unfold read_shared_error.
  apply w_load; [apply Hl|]. intros r1 _. cbn [add].
  pose proof (concluding_add _ _ (Load ErrorStep) r1 I Hl) as Hl1.
  apply w_load; [apply Hl1|]. intros r2 _. cbn [add].
  pose proof (concluding_add _ _ (Load ErrorCode) r2 I Hl1) as Hl2. set (l2 := (l ++ _) ++ _) in *.
  assert (Hshared : ∀ e, from_raw (rp_result r1) = se_step e →
    normalize (E:=()) (rp_result r2) = Ret (se_errno e) → shared_error e l2).
  { intros e Hstep Hcode. split; [eapply did_sub; [|done]; set_solver|].
    split; [exists r1|exists r2]; (split; [set_solver|done]). }
  exists l2. split; [done|]. split; [set_solver|]. split; [done|].
  unfold spawn_error, normalize, neg_i32, mbind, exec_bind, plift in *.
  repeat case_decide; try (split; [right|right; left]; by apply Hshared).
  split; [eapply did_sub; [|done]; set_solver|]. exists r2. split; [set_solver|done].
Qed.

Lemma startup_result_spec fds status listener_result l :
  concluding fds l → match listener_result with inl e => own_error e | inr _ => True end →
  W (startup_result status listener_result) (Sup l) (concluded l fds listener_result status).
Proof.
  intros Hl Herror. unfold startup_result.
  assert (Herr : ∀ l' step errno, l ⊆ l' → concluding fds l' → 0 < errno → step ≠ SNone →
    did l' Supervisor (Load State) (λ r, rp_result r ≠ STATE_FAILED) →
    W (plift (spawn_error step errno)) (Sup l') (concluded l fds listener_result status)).
  { intros l' step errno Hsub Hl' He Hs Hst. apply w_spawn_error; [done|].
    exists l'. split; [done|]. split; [done|]. split; [done|].
    split; [by left|by right; right]. }
  match goal with |- context [load State ≫= ?k] =>
    assert (Hchecked : W (load State ≫= k) (Sup l) (concluded l fds listener_result status)) end.
  { apply w_load; [apply Hl|]. intros r1 _. cbn [add]. set (l1 := l ++ _).
    assert (Hl1 : concluding fds l1) by by apply concluding_add.
    assert (Hsub1 : l ⊆ l1) by set_solver.
    case_decide as Hfailed; [apply read_shared_error_spec; [done|done|by apply did_last]|].
    assert (Hnot : did l1 Supervisor (Load State) (λ r, rp_result r ≠ STATE_FAILED)) by by apply did_last.
    case_decide as Hstatus; [by apply Herr|].
    destruct listener_result as [error|fd].
    { exists l1. split_and!; [done|done|done|by left|by right; right]. }
    apply w_load; [apply Hl1|]. intros r2 _. cbn [add]. set (l2 := l1 ++ _).
    assert (Hl2 : concluding fds l2) by by apply concluding_add.
    assert (Hnot2 : did l2 Supervisor (Load State) (λ r, rp_result r ≠ STATE_FAILED))
      by (eapply did_sub; [|done]; set_solver).
    assert (Hsub2 : l ⊆ l2) by set_solver.
    case_decide as Hspawned; [by apply Herr|].
    apply w_load; [apply Hl2|]. intros r3 _. cbn [add]. set (l3 := l2 ++ _).
    assert (Hl3 : concluding fds l3) by by apply concluding_add.
    case_decide as Hpid.
    { apply Herr; [set_solver|done|done|done|]. eapply did_sub; [|done]. set_solver. }
    apply w_ret. exists l3. split; [done|]. split; [set_solver|]. split; [done|]. split; [done|]. split; [lia|].
    split; [destruct (WIFEXITED status) eqn:Hw; [done|]; exfalso; apply Hstatus; by left|].
    split; [apply dec_stable; intros Hw; apply Hstatus; by right|]. split; [|by apply did_last].
    exists r2. split; [set_solver|done]. }
  destruct listener_result as [error|fd]; [|exact Hchecked].
  destruct (decide (se_step error = AttachTracer)) as [Hattach|]; [|exact Hchecked]. destruct Herror as [Hs He].
  apply w_spawn_error; [done|]. exists l. split_and!; [done|done|done|by left|by left].
Qed.

(** ** The whole function *)

(** The end: [done] was not seen set. *)
Lemma unready_end e l :
  own_error e → dropped l →
  ¬ did l Supervisor (Load Done) (λ r, rp_result r = STARTUP_DONE) → supervisor_post (Throw e) l.
Proof. intros He Hd Hn. split; [by left|]. split; [done|]. intros ?. by destruct Hn. Qed.

(** Closing what is left to close. *)
Definition final (r : exec SpawnError (Z * Z)) (v : view) : Prop :=
  match v with Sup l => supervisor_post r l | Spn _ _ => r = NoFuel end.

(** What was received so far is closed, or is the listener. *)
Definition holds_listener (listener_result : SpawnError + Z) (l : log) : Prop :=
  match listener_result with
  | inl e => own_error e ∧ dropped l
  | inr fd => incoming l = [fd] ∧ listener_received fd l
  end.

Lemma holds_listener_sub listener_result l l' :
  l ⊆ l' → incoming l' = incoming l → holds_listener listener_result l → holds_listener listener_result l'.
Proof.
  intros Hsub Hin. destruct listener_result as [e|fd]; simpl; [|rewrite Hin]; intros [H1 H2];
    (split; [done|]); [by eapply dropped_sub|by eapply listener_received_sub].
Qed.

Lemma w_drop_listener {E A} (listener_result : SpawnError + Z) (k : () → Prog E A) l Q :
  holds_listener listener_result l →
  (∀ l', dropped l' → (l' = l ∨ ∃ fd r, l' = l ++ [Did Supervisor (Close fd) r]) →
     W (k ()) (Sup l') Q) →
  W (drop_listener listener_result ≫= k) (Sup l) Q.
Proof.
  intros Hh HQ. destruct listener_result as [e|fd]; cbn [drop_listener].
  - apply (HQ l); [apply Hh|by left].
  - apply w_close; [done|]. intros r. cbn [add]. apply HQ; [|right; by exists fd, r].
    intros fd'. rewrite incoming_app, (proj1 Hh). simpl. intros ->%list_elem_of_singleton. by apply did_last.
Qed.

(** From the wait for the spawner on. *)
Section after_wait.
  Context (mine spawner : Z) (listener_result : SpawnError + Z).

Abbreviation finish := (λ result : exec SpawnError (Z * Z),
  _ ← (match listener_result with inl _ => mret () | inr _ => close mine end);
  plift result).

Lemma w_finish result l :
  supervisor_post result l →
  (∀ r, supervisor_post result (l ++ [Did Supervisor (Close mine) r])) →
  W (finish result) (Sup l) final.
Proof.
  intros Hp Hp'. destruct listener_result; [done|]. apply w_close; [done|]. intros r. cbn [add]. apply Hp'.
Qed.

(** The startup was not seen to be done. *)
Definition not_started (l : log) : Prop :=
  ∀ r, Did Supervisor (Load Done) r ∈ l → rp_result r ≠ STARTUP_DONE.

Lemma not_started_close l fd r : not_started l → not_started (l ++ [Did Supervisor (Close fd) r]).
Proof. intros Hn r' [Hin|Hin%list_elem_of_singleton]%elem_of_app; [by apply Hn|done]. Qed.

Lemma not_started_end error l :
  own_error error → holds_listener listener_result l → not_started l →
  W (_ ← drop_listener listener_result; finish (Throw error)) (Sup l) final.
Proof.
  intros He Hh Hn. apply w_drop_listener; [done|]. intros l' Hd Hl'.
  assert (Hn' : not_started l') by (destruct Hl' as [->|(fd & r & ->)]; [done|by apply not_started_close]).
  assert (Hend : ∀ l, dropped l → not_started l → supervisor_post (Throw error) l).
  { intros l0 Hd0 Hn0. apply unready_end; [done|done|]. intros (r & Hr & Hp). by apply Hn0 in Hr. }
  apply w_finish; [by apply Hend|]. intros r. apply Hend; [by apply dropped_add|by apply not_started_close].
Qed.

(** The target was started. *)
Lemma started_post fd pid status l l2 l3 :
  listener_received fd l → concluding [fd] l2 → l ⊆ l2 → l2 ⊆ l3 →
  did l Supervisor Fork (λ r, 0 < rp_result r ∧ rp_result r = spawner) →
  did l Supervisor (Waitpid spawner 0) (λ r, rp_result r = spawner ∧ rp_status r = status) →
  0 < pid → WIFEXITED status = true → WEXITSTATUS status = 0 →
  did l2 Supervisor (Load State) (λ r, rp_result r = STATE_SPAWNED) →
  did l2 Supervisor (Load TargetPid) (λ r, rp_result r = pid) →
  supervisor_post (Ret (fd, pid)) l3.
Proof.
  intros Hrecv [Hdone _ _] Hsub2 Hsub3 Hfork (rw & Hrw & Hpw & Hstatus) Hpid Hwx Hws Hstate Hload.
  assert (Hsub : l ⊆ l3) by set_solver.
  split; [done|]. split; [by eapply listener_received_sub|]. split.
  { exists spawner. split; [by eapply did_sub|]. exists rw. split; [set_solver|]. by rewrite Hstatus. }
  split_and!; (eapply did_sub; [|done]; done).
Qed.

(** The target was started, and something failed. *)
Lemma started_failed fuel error fds l :
  concluding fds l → holds_listener listener_result l →
  own_error error ∨ shared_error error l →
  se_step error = AttachTracer ∨ shared_error error l ∨
    did l Supervisor (Load State) (λ r, rp_result r ≠ STATE_FAILED) →
  W (_ ← drop_listener listener_result; _ ← terminate_and_reap_target fuel; finish (Throw error)) (Sup l) final.
Proof.
  intros Hl Hh Herr Hwhy. apply w_drop_listener; [done|]. intros l3 Hd3 Hl3.
  assert (Hsub3 : l ⊆ l3) by (destruct Hl3 as [->|(fd & r' & ->)]; set_solver).
  assert (Hc3 : concluding fds l3)
    by (destruct Hl3 as [->|(fd & r' & ->)]; [done|by apply concluding_add]).
  apply w_bind, (terminate_spec fuel fds); [done|done|]. intros l4 Hsub4 Hc4 Hsettled.
  assert (Hpost : ∀ l5, l4 ⊆ l5 → incoming l5 = incoming l4 → supervisor_post (Throw error) l5).
  { intros l5 Hsub5 Hin5. assert (Hsub : l ⊆ l5) by set_solver.
    split; [destruct Herr; [by left|right; by apply (shared_error_sub _ l)]|]. split.
    - apply (dropped_sub l3); [|by rewrite Hin5, (cc_incoming _ _ Hc4), (cc_incoming _ _ Hc3)|done]. set_solver.
    - intros _. split; [by apply (target_settled_sub l4)|].
      destruct Hwhy as [?|[?|?]]; [by left|right; left; by apply (shared_error_sub _ l)|].
      right. right. by apply (did_sub l). }
  apply w_finish; [by apply Hpost|]. intros r'. apply Hpost; [set_solver|].
  by rewrite incoming_app, app_nil_r.
Qed.

Lemma after_wait_spec fuel (wait_result : IoError + Z) l :
  holds_listener listener_result l → (∀ r, Did Supervisor (Load Done) r ∉ l) →
  did l Supervisor Fork (λ r, 0 < rp_result r ∧ rp_result r = spawner) →
  match wait_result with
  | inl e => 0 < from_io e
  | inr status => did l Supervisor (Waitpid spawner 0) (λ r, rp_result r = spawner ∧ rp_status r = status)
  end →
  W (status ← ptry (startup_status wait_result);
     match status with
     | inl error => _ ← drop_listener listener_result; finish (Throw error)
     | inr status =>
         result ← ptry (startup_result status listener_result);
         match result with
         | inl error =>
             _ ← drop_listener listener_result;
             _ ← terminate_and_reap_target fuel;
             finish (Throw error)
         | inr tracker => finish (Ret tracker)
         end
     end) (Sup l) final.
Proof.
  intros Hh Hunread Hfork Hwait. apply w_bind, w_try.
  destruct wait_result as [error|status]; unfold startup_status.
  { apply w_spawn_error; [done|]. apply not_started_end; [done|done|]. intros r Hr. by apply Hunread in Hr. }
  apply w_load.
  { exists spawner. split; [done|].
    destruct Hwait as (r & Hr & Hp & _). by exists r. }
  intros r _. cbn [add]. set (l1 := l ++ _). assert (Hsub1 : l ⊆ l1) by set_solver.
  assert (Hh1 : holds_listener listener_result l1)
    by (apply (holds_listener_sub _ l); [done|unfold l1; by rewrite incoming_app, app_nil_r|done]).
  case_decide as Hdone.
  { apply w_spawn_error; [done|]. apply not_started_end; [done|done|].
    intros r' [Hin|Hin%list_elem_of_singleton]%elem_of_app; [by apply Hunread in Hin|by injection Hin as ->]. }
  apply w_ret. cbn beta iota.
  assert (Hl1 : concluding (incoming l1) l1).
  { split; [by apply did_last| |done]. eapply did_sub; [done|]. destruct Hfork as (r' & Hr' & Hp & _). by exists r'. }
  apply w_bind, w_try. eapply w_mono.
  2:{ apply startup_result_spec; [exact Hl1|]. destruct listener_result; [apply Hh1|done]. }
  intros result v (l2 & -> & Hsub2 & Hl2 & Hres). destruct result as [[fd pid]|error| |]; [| |done|done].
  - destruct Hres as (Hlr & Hpid & Hwx & Hws & Hstate & Hload). rewrite Hlr in Hh1. destruct Hh1 as [Hin1 Hrecv].
    rewrite Hin1 in Hl2.
    assert (Hpost : ∀ l3, l2 ⊆ l3 → supervisor_post (Ret (fd, pid)) l3).
    { intros l3 Hsub3. eapply (started_post fd pid status l1 l2); [done..| | |done|done|done|done|done];
        by eapply did_sub. }
    apply w_finish; [by apply Hpost|]. intros r'. apply Hpost. set_solver.
  - destruct Hres as [Herr Hwhy]. eapply started_failed; [done| |done|done].
    apply (holds_listener_sub _ l1); [done|by rewrite (cc_incoming _ _ Hl2)|done].
Qed.

End after_wait.

Lemma supervise_spec fuel mine its pid l :
  0 < pid → (∀ r, supervising mine its pid 0 0 [] (l ++ [Did Supervisor (Close its) r])) →
  W (supervise fuel mine its pid) (Sup l) final.
Proof.
  intros Hpid Hl. unfold supervise. apply w_close; [done|]. intros r. cbn [add]. specialize (Hl r).
  apply w_bind, w_try. eapply w_mono; [|by apply (receive_listener_spec fuel mine its pid)].
  assert (Hwait : ∀ listener_result l, holds_listener listener_result l →
    (∀ r, Did Supervisor (Load Done) r ∉ l) →
    did l Supervisor Fork (λ r, 0 < rp_result r ∧ rp_result r = pid) → sockets_of l = (mine, its) →
    did l Supervisor (Close mine) (λ _, True) ∨ received Supervisor l = 2%nat →
    ∀ k, (∀ wait_result l', holds_listener listener_result l' →
      (∀ r, Did Supervisor (Load Done) r ∉ l') →
      did l' Supervisor Fork (λ r, 0 < rp_result r ∧ rp_result r = pid) →
      match wait_result with
      | inl e => 0 < from_io e
      | inr status => did l' Supervisor (Waitpid pid 0) (λ r, rp_result r = pid ∧ rp_status r = status)
      end → W (k wait_result) (Sup l') final) →
    W (waitpid_nointr fuel pid ≫= k) (Sup l) final).
  { intros lr l1 Hh Hun Hfork Hsock Hready k Hk.
    assert (Hkeep : ∀ r, let l' := l1 ++ [Did Supervisor (Waitpid pid 0) r] in
      holds_listener lr l' ∧ (∀ r, Did Supervisor (Load Done) r ∉ l') ∧
      did l' Supervisor Fork (λ r, 0 < rp_result r ∧ rp_result r = pid)).
    { intros r1 l'. assert (Hsub : l1 ⊆ l') by set_solver. split_and!; [|set_solver|by eapply did_sub].
      apply (holds_listener_sub _ l1); [done|unfold l'; by rewrite incoming_app, app_nil_r|done]. }
    apply w_bind, w_waitpid_nointr; [|done|done|..].
    - apply supervisor_at_sockets with mine its; [done|].
      split; [destruct Hfork as (r1 & ? & ? & _); by exists r1|]. right. right. done.
    - intros r1 Hr1. destruct (Hkeep r1) as (? & ? & ?). apply Hk; [done..|]. by apply did_last.
    - intros r1 Hr1. destruct (Hkeep r1) as (? & ? & ?). by apply Hk. }
  intros [fd|e| |] v (l1 & -> & Hres); [| |done|done]; cbn beta iota.
  - destruct Hres as [Hs Hrecv].
    apply (Hwait (inr fd)); [by split; [apply Hs|]|apply Hs|apply Hs|apply Hs|right; apply Hs|].
    intros wait_result l' Hh Hun Hfork Hw. by eapply (after_wait_spec mine pid (inr fd)).
  - destruct Hres as ((s & v & fds & Hs) & Hd & He).
    apply w_close; [done|]. intros r2. cbn [add].
    pose proof (supervising_add _ _ _ _ _ _ _ (Close mine) r2 I (ltac:(done)) Hs) as Hs2.
    apply (Hwait (inl e)); [split; [done|by apply dropped_add]|apply Hs2|apply Hs2|apply Hs2|left; by apply did_last|].
    intros wait_result l' Hh Hun Hfork Hw. by eapply (after_wait_spec mine pid (inl e)).
Qed.

(** Before the fork: the page is reset, and only that. *)
Definition preparing (l : log) : Prop :=
  (∀ p, page_after p l = fresh_page) ∧ incoming l = [] ∧ sent Supervisor l = 0%nat ∧
  received Supervisor l = 0%nat ∧
  ∀ c r, Did Supervisor c r ∈ l → match c with Store _ _ | Socketpair | Close _ => True | _ => False end.

Lemma preparing_undone l c P :
  preparing l → match c with Store _ _ | Socketpair | Close _ => False | _ => True end → ¬ did l Supervisor c P.
Proof. intros (_ & _ & _ & _ & Hc) Hne (r & Hr & _). apply Hc in Hr. by destruct c. Qed.

Lemma preparing_add l c r :
  match c with Socketpair | Close _ => True | _ => False end → preparing l →
  preparing (l ++ [Did Supervisor c r]).
Proof.
  intros Hc (Hp & Hi & Hs & Hv & Hl). split.
  { intros p. rewrite page_after_app, Hp. by destruct c. }
  rewrite incoming_app, sent_app, received_app, Hi, Hs, Hv.
  split; [by destruct c|]. split; [by destruct c|]. split; [by destruct c|].
  intros c' r' [Hin|Hin%list_elem_of_singleton]%elem_of_app; [by eapply Hl|].
  injection Hin as -> ->. by destruct c.
Qed.

Lemma prepared_error e l : preparing l → own_error e → final (Throw e) (Sup l).
Proof.
  intros Hl He. apply unready_end; [done| |by apply preparing_undone].
  intros fd. destruct Hl as (_ & -> & _). by intros ?%elem_of_nil.
Qed.

Lemma reset_spec {A} (k : () → Prog SpawnError A) Q :
  (∀ l, preparing l → W (k ()) (Sup l) Q) → W (reset ≫= k) (Sup []) Q.
Proof.
  intros Hk. apply w_bind. unfold reset.
  assert (Hat : ∀ l f x, Forall (λ e, match e with Did _ (Store _ _) _ => True | _ => False end) l →
    At filter executable argv envp stdin stdout stderr (Sup l) (Store f x)).
  { intros l f x Hl (r & Hr & _). rewrite Forall_forall in Hl. by apply Hl in Hr. }
  do 5 (apply w_store; [apply Hat; by repeat constructor|]; intros ?; cbn [add app]).
  apply w_store_end; [apply Hat; by repeat constructor|]. intros ?; cbn [add app]. apply Hk.
  split; [by intros []|]. split_and!; [done..|].
  intros c' r' Hin. repeat (apply elem_of_cons in Hin as [[= -> ->]|Hin]; [done|]). by apply elem_of_nil in Hin.
Qed.

Lemma validate_inputs_spec {A} (k : () → Prog SpawnError A) (Q : exec SpawnError A → view → Prop) v :
  (∀ e, own_error e → Q (Throw e) v) → (Z.of_nat (length filter) <= u16_MAX → W (k ()) v Q) →
  W (plift (validate_inputs filter executable argv envp) ≫= k) v Q.
Proof.
  intros He Hk. unfold validate_inputs.
  case_decide as Hlen; [by apply He|]. case_decide; [by apply He|]. apply Hk. lia.
Qed.

(** The function from its start, with nothing done. *)
Lemma spawn_seccomp_target_spec fuel :
  W (spawn_seccomp_target fuel filter executable argv envp stdin stdout stderr) (Sup []) final.
Proof.
  unfold spawn_seccomp_target. apply validate_inputs_spec.
  { intros e He. apply unready_end; [done|by intros fd ?%elem_of_nil|by intros (r & ?%elem_of_nil & _)]. }
  intros Hlen. apply reset_spec. intros l Hl.
  apply w_bind, w_step_error. unfold socket_pair.
  apply w_call; [|done|tauto|].
  { intros (r & Hr & _). destruct Hl as (_ & _ & _ & _ & Hc). by apply Hc in Hr. }
  intros r Hr. cbn [add]. cbn in Hr. set (l1 := l ++ _).
  assert (Hl1 : preparing l1) by by apply preparing_add.
  case_decide as Hfail.
  { split; [by apply Hr|]. apply prepared_error; [done|]. split; [done|by apply Hr]. }
  apply w_ret. destruct (rp_sockets r) as [mine its] eqn:Hsock.
  assert (Hsock1 : sockets_of l1 = (mine, its)).
  { unfold sockets_of, l1. rewrite omap_app, last_app. simpl. rewrite decide_False by done. simpl. by rewrite Hsock. }
  apply wlp_sys_bind.
  { split; [by apply preparing_undone|]. split; [apply Hl1|]. exists r. split; [set_solver|lia]. }
  intros r1 Hr1. cbn in Hr1. cbn [retried]. rewrite decide_False by tauto. split.
  - intros Hneg. rewrite decide_True by done. set (l2 := l1 ++ _).
    apply w_close; [done|]. intros r2. apply w_close; [done|]. intros r3. cbn [add].
    apply w_spawn_error; [by apply Hr1|]. set (l4 := (l2 ++ _) ++ _).
    assert (Hin : incoming l4 = []) by (unfold l4, l2; rewrite !incoming_app; destruct Hl1 as (_ & -> & _); done).
    apply unready_end; [split; [done|by apply Hr1]|intros fd; rewrite Hin; by intros ?%elem_of_nil|].
    intros (r' & Hr' & _). assert (Did Supervisor (Load Done) r' ∈ l1) by (unfold l4, l2 in Hr'; set_solver).
    eapply (preparing_undone l1 (Load Done) (λ _, True)); [done|done|]. by exists r'.
  - intros Hpos. split.
    + rewrite decide_False by lia. rewrite decide_False by lia.
      apply supervise_spec; [done|]. intros r2. set (l2 := l1 ++ _).
      assert (Hun : ∀ r, Did Supervisor (Load Done) r ∉ l1).
      { intros r' Hr'. eapply (preparing_undone l1 (Load Done) (λ _, True)); [done|done|]. by exists r'. }
      destruct Hl1 as (_ & Hi & Hs & Hv & _). split.
      * exists r1. split; [set_solver|done].
      * unfold l2. by rewrite !sockets_of_add by done.
      * by apply did_last.
      * unfold l2. by rewrite !sent_app, Hs.
      * unfold l2. by rewrite !received_app, Hv.
      * unfold l2. by rewrite !incoming_app, Hi.
      * unfold l2. set_solver.
    + cbn [in_child rp_result]. rewrite decide_False by lia. rewrite decide_True by done.
      rewrite Hsock1. eapply w_mono; [|by apply (forked_spec filter executable argv envp stdin stdout stderr fuel (mine, its))].
      intros r' v ->. by destruct v.
Qed.

End proofs.
