(* ===== verification/StartupCorrect.v ===== *)
(** * What a launch achieves

    The assertions of the programs, put together in the world: an invariant of
    every reachable world, from which follow what a successful launch
    guarantees, what a failed one reports, and that no launch gets stuck. *)

From S2P Require Import Prelude Effects Tracker Ptrace Programs Spawn Startup StartupLogic StartupProofs StartupSupervisor.

Local Open Scope Z_scope.

(** ** What the kernel promises *)

Class KernelLaws `{Kernel} := {
  (** A call that fails sets [errno]; a wait reports the process asked for. *)
  sane_replies l w c r : admits l w c r → sane c r;
  (** A wait for the spawner reports how it ended. *)
  wait_reports l pid options r :
    admits l Supervisor (Waitpid pid options) r → rp_result r = pid →
    did l Supervisor Fork (λ r, 0 < rp_result r ∧ rp_result r = pid) →
    (∃ code, did l Spawner (Exit code) (λ _, True) ∧
       WIFEXITED (rp_status r) = true ∧ WEXITSTATUS (rp_status r) = Z.land code 255) ∨
    (Died Spawner ∈ l ∧ WIFEXITED (rp_status r) = false);
  (** A wait that does not ask for stops reports those of traced children only. *)
  stops_are_traced l pid r :
    admits l Supervisor (Waitpid pid WNOHANG) r → 0 < pid → rp_result r = pid → WIFSTOPPED (rp_status r) = true →
    did l Supervisor (Attach (PTRACE_SEIZE TRACE_OPTIONS) pid) (λ r, 0 <= rp_result r);
  (** A process that was killed cannot be attached to. *)
  attach_needs_life l request pid top flags args r :
    admits l Supervisor (Attach request pid) r → 0 <= rp_result r →
    did l Spawner (CloneChild top flags args) (λ r, rp_result r = pid) → Died Target ∉ l;
}.

(** The processes that hold an end of the pair of sockets. *)
Definition spawner_end (l : log) : Prop :=
  (∃ code, did l Spawner (Exit code) (λ _, True)) ∨ Died Spawner ∈ l.

Definition target_end (l : log) : Prop :=
  (∀ top flags args, ¬ did l Spawner (CloneChild top flags args) (λ r, 0 < rp_result r)) ∨
  (∃ code, did l Target (Exit code) (λ _, True)) ∨ Died Target ∈ l ∨
  ∃ executable argv envp, did l Target (Execve executable argv envp) (λ r, 0 <= rp_result r).

(** Calls that may wait for another process. *)
Definition blocking (c : call) : Prop :=
  match c with Recv _ | Recvmsg _ => True | Waitpid _ options => options ≠ WNOHANG | _ => False end.

#[export] Instance blocking_dec c : Decision (blocking c).
Proof. unfold blocking. destruct c; apply _. Defined.

(** Calls return, and those that wait do so once there is something to report:
    a message or the end of a stream, a process that ended. A pair of sockets
    is new, and none of the standard streams, which the supervisor has open. *)
Class ProgressLaws `{Kernel} := {
  calls_return l w c : ¬ blocking c →
    ∃ r, admits l w c r ∧ match c with Fork | CloneChild _ _ _ => rp_result r ≠ 0 | _ => True end;
  sockets_are_new l w r : admits l w Socketpair r → 0 <= rp_result r →
    3 <= (rp_sockets r).1 <= Z.of_N u32_MAX ∧ (rp_sockets r).1 ≠ (rp_sockets r).2;
  messages_are_sent l c r : admits l Supervisor c r →
    match c with Recv _ | Recvmsg _ => 0 < rp_result r | _ => False end →
    (received Supervisor l < sent Spawner l)%nat;
  supervisor_receives l c :
    c = Recv (sockets_of l).1 ∨ c = Recvmsg (sockets_of l).1 →
    (received Supervisor l < sent Spawner l)%nat ∨
    (did l Supervisor (Close (sockets_of l).2) (λ _, True) ∧ spawner_end l ∧ target_end l) →
    ∃ r, admits l Supervisor c r;
  spawner_receives l :
    (received Spawner l < sent Supervisor l)%nat ∨
    (did l Supervisor (Close (sockets_of l).1) (λ _, True) ∧
     ∃ first last, first <= (sockets_of l).1 <= last ∧ did l Spawner (CloseRange first last) (λ r, rp_result r = 0)) →
    ∃ r, admits l Spawner (Recv (sockets_of l).2) r;
  waits_return l pid options :
    did l Supervisor (Kill pid SIGKILL) (λ _, True) ∨
    (did l Supervisor Fork (λ r, 0 < rp_result r ∧ rp_result r = pid) ∧ spawner_end l) →
    ∃ r, admits l Supervisor (Waitpid pid options) r;
}.

(** ** The invariant *)

Section invariant.
  Context `{KernelLaws} (p0 : SharedStartup).
  Context (filter : list sock_filter) (executable argv envp : pointer) (stdin stdout stderr : bool).

Abbreviation W := (wlp sem (At filter executable argv envp stdin stdout stderr)).
Abbreviation outcome := (spawner_outcome filter executable argv envp stdin stdout stderr).
Abbreviation spawner_at := (spawner_at filter executable argv envp stdin stdout stderr).

(** A child that is over keeps what its last call asserted. *)
Definition child_inv (ch : child) (sockets : Z * Z) (l : log) : Prop :=
  match ch with
  | Unborn => l = []
  | Spawning p => W p (Spn sockets l) final
  | Launching t p => target_runs (λ l', W p (Spn sockets l') final) t l
  | Orphan t => ∃ ended, target_runs ended t l
  | Ended =>
      (pending l ∨ ∃ l0 code, l0 ⊆ l ∧ page_after fresh_page l = page_after fresh_page l0 ∧
         outcome sockets.2 code l0) ∧
      ∀ code, did l Spawner (Exit code) (λ _, True) →
        ∃ l0, l0 ⊆ l ∧ stores TargetPid l = stores TargetPid l0 ∧ outcome sockets.2 code l0
  end.

(** The spawner is over. *)
Definition spawner_over (ch : child) : Prop := match ch with Ended | Orphan _ => True | _ => False end.

Definition forked (l : log) : Prop := did l Supervisor Fork (λ r, 0 < rp_result r).

Record world_inv (w : world) : Prop := {
  wi_supervisor : W (w_sup w) (Sup (supervisor_log (w_log w))) final;
  wi_child : child_inv (w_child w) (sockets_of (supervisor_log (w_log w))) (child_log (w_log w));
  wi_forked : w_child w = Unborn ↔ ¬ forked (supervisor_log (w_log w));
  wi_page : page_after p0 (w_log w) =
    match w_child w with
    | Unborn => page_after p0 (supervisor_log (w_log w))
    | _ => page_after fresh_page (child_log (w_log w))
    end;
  wi_over : spawner_end (w_log w) → spawner_over (w_child w);
  wi_known : stores TargetPid (child_log (w_log w)) = [] ∨
    ∃ pid, stores TargetPid (child_log (w_log w)) = [pid] ∧ ∃ top flags args,
      did (child_log (w_log w)) Spawner (CloneChild top flags args) (λ r, rp_result r = pid);
  wi_target r : Did Supervisor (Load TargetPid) r ∈ w_log w → 0 < rp_result r →
    stores TargetPid (child_log (w_log w)) = [rp_result r];
  wi_attached request pid r : Did Supervisor (Attach request pid) r ∈ w_log w →
    (∃ r', Did Supervisor (Load TargetPid) r' ∈ w_log w ∧ 0 < rp_result r' ∧ rp_result r' = pid) ∧
    (0 <= rp_result r → Died Target ∉ child_log (w_log w));
  wi_waits pid options r : Did Supervisor (Waitpid pid options) r ∈ w_log w → ¬ retried (Waitpid pid options) r →
    forked (supervisor_log (w_log w));
  wi_waited pid options r : Did Supervisor (Waitpid pid options) r ∈ w_log w → rp_result r = pid →
    did (supervisor_log (w_log w)) Supervisor Fork (λ r, 0 < rp_result r ∧ rp_result r = pid) →
    (∃ code, did (w_log w) Spawner (Exit code) (λ _, True) ∧
       WIFEXITED (rp_status r) = true ∧ WEXITSTATUS (rp_status r) = Z.land code 255) ∨
    (Died Spawner ∈ w_log w ∧ WIFEXITED (rp_status r) = false);
  wi_done r : Did Supervisor (Load Done) r ∈ w_log w → rp_result r = STARTUP_DONE →
    w_child w = Ended ∧ ¬ pending (child_log (w_log w));
  wi_read f r : Did Supervisor (Load f) r ∈ w_log w →
    match f with TargetPid | Done => False | _ => True end →
    (w_child w = Ended ∧ ¬ pending (child_log (w_log w))) ∧
    rp_result r = page_get f (page_after fresh_page (child_log (w_log w)));
}.

(** ** Logs *)

Lemma supervisor_log_app l l' : supervisor_log (l ++ l') = supervisor_log l ++ supervisor_log l'.
Proof. apply filter_app. Qed.
Lemma child_log_app l l' : child_log (l ++ l') = child_log l ++ child_log l'.
Proof. apply filter_app. Qed.

Lemma elem_of_supervisor_log l c r :
  Did Supervisor c r ∈ supervisor_log l ↔ Did Supervisor c r ∈ l ∧ ¬ retried c r.
Proof. unfold supervisor_log. rewrite list_elem_of_filter. simpl. tauto. Qed.

(** What an event adds to the two parts. *)
Lemma supervisor_adds c r :
  supervisor_log [Did Supervisor c r] = (if decide (retried c r) then [] else [Did Supervisor c r]) ∧
  child_log [Did Supervisor c r] = [].
Proof.
  unfold supervisor_log, child_log. split.
  - case_decide as Hr; [by rewrite filter_cons_False by (simpl; tauto)|by rewrite filter_cons_True by (simpl; tauto)].
  - by rewrite filter_cons_False by (simpl; tauto).
Qed.

Lemma spawner_adds c r :
  supervisor_log [Did Spawner c r] = [] ∧
  child_log [Did Spawner c r] = (if decide (retried c r) then [] else [Did Spawner c r]).
Proof.
  unfold supervisor_log, child_log. split.
  - by rewrite filter_cons_False by (simpl; tauto).
  - case_decide as Hr; [by rewrite filter_cons_False by (simpl; tauto)|by rewrite filter_cons_True by (simpl; tauto)].
Qed.

Lemma others_add e : match e with Did Target _ _ | Died Target => True | _ => False end →
  supervisor_log [e] = [] ∧ child_log [e] = [e].
Proof. by destruct e as [[] ? ?|[]]. Qed.

(** ** The child *)

Lemma spawner_at_running socket l c : spawner_at socket l c → running l.
Proof. by intros [? _]. Qed.

Lemma target_step_some t e t' ended l :
  target_step t e (Some t') → target_runs ended t l →
  match e with Did _ c r => child_reads l c r | _ => True end → target_runs ended t' (l ++ [e]).
Proof.
  intros Hstep. inversion Hstep as [c k r Hc Hx| | |]; subst. intros [_ Hsem] Hr.
  specialize (Hsem r Hr). destruct c; try done; by rewrite decide_False in Hsem.
Qed.

Lemma target_step_none t e ended l :
  target_step t e None → target_runs ended t l →
  match e with Did _ c r => child_reads l c r | _ => True end → ended (l ++ [e]).
Proof.
  intros Hstep. inversion Hstep as [|c k r Hx|code k r|]; subst.
  - intros [_ Hsem] Hr. specialize (Hsem r Hr). destruct c; try done. by rewrite decide_True in Hsem.
  - intros [_ Hsem] Hr. by apply (Hsem r).
  - intros Hruns _. destruct t as [|c k]; [done|]. by destruct Hruns as [(_ & ? & _) _].
Qed.

Lemma target_step_event t e o : target_step t e o →
  match e with Did Target _ _ | Died Target => True | _ => False end.
Proof. by intros []. Qed.

Lemma target_runs_early ended t l : target_runs ended t l → early l.
Proof. intros Hruns. destruct t as [|c k]; [done|]. by destruct Hruns as [[? _] _]. Qed.

Lemma child_step_inv ch e ch' sockets l :
  child_step ch e ch' → child_inv ch sockets l →
  match e with Did _ c r => child_reads l c r | _ => True end →
  child_inv ch' sockets (l ++ child_log [e]).
Proof.
  intros Hstep Hinv Hr.
  assert (Htarget : ∀ t o, target_step t e o → child_log [e] = [e])
    by (intros t o Ht; apply others_add; by eapply target_step_event).
  destruct Hstep as [c k r Hc|top flags args k r Hf Hp|top flags args k r Hp|code k r|c k|t e t' p Ht|t e p Ht|t p|t e t' Ht|t e Ht].
  - destruct Hinv as [_ Hsem]. specialize (Hsem r Hr). rewrite (proj2 (spawner_adds c r)).
    case_decide; [by rewrite app_nil_r|]. by destruct c.
  - destruct Hinv as [_ Hsem]. specialize (Hsem r Hr). rewrite (proj2 (spawner_adds _ r)).
    cbn [sem retried] in *. rewrite decide_False in Hsem by tauto. rewrite decide_False by tauto. by apply Hsem.
  - destruct Hinv as [_ Hsem]. specialize (Hsem r Hr). rewrite (proj2 (spawner_adds _ r)).
    cbn [sem retried] in *. rewrite decide_False in Hsem by tauto. rewrite decide_False by tauto. by apply Hsem.
  - destruct Hinv as [[[Hx Hk] [Hdone Hout]] _]. rewrite (proj2 (spawner_adds _ r)). cbn [retried].
    rewrite decide_False by tauto. split.
    + right. exists l, code. split_and!; [set_solver|by rewrite page_after_app|done].
    + intros code' (r' & [Hin|Hin%list_elem_of_singleton]%elem_of_app & _); [by apply Hx in Hin|].
      injection Hin as -> _. exists l. split_and!; [set_solver|by rewrite stores_app, app_nil_r|done].
  - destruct Hinv as [Hat _]. simpl. rewrite app_nil_r. split.
    + destruct Hat as [_ Hat]. destruct c as [|[] ?| | | | | | | | | | | | | | | | | | | | |]; try (by left); try done;
        try (left; apply Hat). right. exists l, code. split_and!; [done|done|apply Hat].
    + intros code (r' & Hin & _). by apply (proj1 (spawner_at_running _ _ _ Hat)) in Hin.
  - rewrite (Htarget _ _ Ht). by eapply target_step_some.
  - rewrite (Htarget _ _ Ht). by apply (target_step_none t e (λ l', W p (Spn sockets l') final)).
  - simpl. rewrite app_nil_r. by eexists.
  - destruct Hinv as [ended Hruns]. rewrite (Htarget _ _ Ht). exists ended. by eapply target_step_some.
  - destruct Hinv as [ended Hruns]. rewrite (Htarget _ _ Ht).
    apply target_runs_early in Hruns as ([Hx _] & Hp & _). split.
    + left. unfold pending in *. rewrite page_after_app.
      inversion Ht as [|c k r0 Hexec| |]; subst; try done. by destruct c.
    + intros code (r & [Hin|Hin%list_elem_of_singleton]%elem_of_app & _); [by apply Hx in Hin|].
      subst e. by apply target_step_event in Ht.
Qed.

(** What a step of the child can add. *)
Lemma child_step_who ch e ch' : child_step ch e ch' → event_who e ≠ Supervisor.
Proof. intros Hstep. destruct Hstep as [| | | | |? ? ? ? Ht|? ? ? Ht| |? ? ? Ht|? ? Ht]; try done; by inversion Ht. Qed.

Lemma child_step_stores ch e ch' sockets l :
  child_step ch e ch' → child_inv ch sockets l →
  stores TargetPid (child_log [e]) = [] ∨
  (stores TargetPid l = [] ∧ ∃ pid, stores TargetPid (child_log [e]) = [pid] ∧
     ∃ top flags args, did l Spawner (CloneChild top flags args) (λ r, rp_result r = pid)).
Proof.
  intros Hstep Hinv.
  assert (Htarget : ∀ t o ended, target_step t e o → target_runs ended t l → stores TargetPid (child_log [e]) = []).
  { intros t o ended Ht Hruns. rewrite (proj2 (others_add e (target_step_event _ _ _ Ht))).
    destruct Ht as [c k r Hc Hx|c k r Hx|code k r|t']; try done.
    - destruct Hruns as [(_ & _ & Hat) _]. destruct c as [f|f v| | | | | | | | | | | | | | | | | | | | |]; try done. by destruct f.
    - by destruct c. }
  destruct Hstep as [c k r Hc|top flags args k r Hf Hp|top flags args k r Hp|code k r|c k|t e t' p Ht|t e p Ht|t p|t e t' Ht|t e Ht];
    try (left; done); try (left; by eapply Htarget).
  - rewrite (proj2 (spawner_adds c r)). case_decide as Hret; [by left|].
    destruct Hinv as [[_ Hat] _]. destruct c; try (by left). simpl.
    case_decide as Hfield; [subst f|by left]. destruct Hat as [(_ & _ & Hst) Hclone].
    right. split; [done|]. by exists v.
  - left. destruct Hinv as [ended Hruns]. by eapply Htarget.
  - left. destruct Hinv as [ended Hruns]. by eapply Htarget.
Qed.

Lemma child_step_died ch ch' sockets l :
  child_step ch (Died Target) ch' → child_inv ch sockets l → stores TargetPid l = [].
Proof.
  intros Hstep Hinv. inversion Hstep; subst; simpl in Hinv.
  - by apply target_runs_early in Hinv as (_ & _ & ?).
  - by apply target_runs_early in Hinv as (_ & _ & ?).
  - destruct Hinv as [ended Hruns]. by apply target_runs_early in Hruns as (_ & _ & ?).
  - destruct Hinv as [ended Hruns]. by apply target_runs_early in Hruns as (_ & _ & ?).
Qed.

Lemma child_step_end ch e ch' : child_step ch e ch' → spawner_end [e] → spawner_over ch'.
Proof.
  intros Hstep Hend.
  assert (Hspawner : event_who e = Spawner ∧ (∀ c r, e = Did Spawner c r → ∃ code, c = Exit code)).
  { destruct Hend as [(code & r & Hin%list_elem_of_singleton & _)|Hin%list_elem_of_singleton]; subst e.
    - split; [done|]. intros c r' [= <- <-]. by exists code.
    - done. }
  destruct Hspawner as [Hwho Hcall].
  destruct Hstep as [c k r Hc|top flags args k r Hf Hp|top flags args k r Hp|code k r|c k|t e t' p Ht|t e p Ht|t p|t e t' Ht|t e Ht];
    try done; try (by inversion Ht; subst).
  - destruct (Hcall c r eq_refl) as [code Heq]. by subst c.
  - by destruct (Hcall _ r eq_refl).
  - by destruct (Hcall _ r eq_refl).
Qed.

Lemma child_step_over ch e ch' : child_step ch e ch' → spawner_over ch → spawner_over ch'.
Proof. by intros []. Qed.

Lemma page_child p e :
  event_who e ≠ Supervisor → page_after p [e] = page_after p (child_log [e]).
Proof.
  intros Hwho. destruct e as [[] c r|[]]; try done.
  rewrite (proj2 (spawner_adds c r)). case_decide as Hr; [|done]. by destruct c.
Qed.

Lemma answers_sane l w c r : answers p0 l (Did w c r) →
  match c with
  | Load f => rp_result r = page_get f (page_after p0 l)
  | Store _ _ => True
  | _ => sane c r
  end.
Proof. intros Hans. destruct c; first [done|exact (sane_replies _ _ _ _ Hans)]. Qed.

(** A step of the child keeps the invariant. *)
Lemma child_keeps m ch e ch' l :
  world_inv {| w_sup := m; w_child := ch; w_log := l |} → child_step ch e ch' → answers p0 l e →
  world_inv {| w_sup := m; w_child := ch'; w_log := l ++ [e] |}.
Proof.
  intros [Hs Hc Hf Hp Ho Hk Ht Ha Hws Hw Hd Hr] Hstep Hans. simpl in *.
  pose proof (child_step_who _ _ _ Hstep) as Hwho.
  assert (Hunborn : ch ≠ Unborn) by (by inversion Hstep). assert (Hunborn' : ch' ≠ Unborn) by (by inversion Hstep).
  assert (Hlive : ch ≠ Ended) by (by inversion Hstep).
  assert (Hsl : supervisor_log (l ++ [e]) = supervisor_log l).
  { rewrite supervisor_log_app. destruct e as [[] c r|]; try done; simpl; apply app_nil_r. }
  assert (Hpage : page_after p0 l = page_after fresh_page (child_log l)) by (by destruct ch).
  assert (Hreads : match e with Did _ c r => child_reads (child_log l) c r | _ => True end).
  { destruct e as [w c r|]; [|done]. pose proof (answers_sane l w c r Hans).
    unfold child_reads. destruct c; try done. by rewrite <-Hpage. }
  assert (Hin : ∀ c r, Did Supervisor c r ∈ l ++ [e] → Did Supervisor c r ∈ l).
  { intros c r [?|Hin%list_elem_of_singleton]%elem_of_app; [done|]. by subst e. }
  pose proof (child_step_stores _ _ _ _ _ Hstep Hc) as Hst.
  split; simpl; rewrite ?Hsl, ?child_log_app.
  - done.
  - by eapply child_step_inv.
  - split; [done|]. intros Hnf. apply Hf in Hnf. done.
  - rewrite !page_after_app, Hpage, (page_child _ _ Hwho). by destruct ch'.
  - intros Hend. assert (spawner_end l ∨ spawner_end [e]) as [Hl|He].
    { destruct Hend as [(code & r & Hin' & _)|Hin'].
      - apply elem_of_app in Hin' as [?|?]; [left|right]; left; exists code; by exists r.
      - apply elem_of_app in Hin' as [?|?]; [left|right]; by right. }
    + by eapply child_step_over; [|apply Ho].
    + by eapply child_step_end.
  - rewrite stores_app. destruct Hst as [Hnil|(Hnil & pid & Hnew & top & flags & args & Hclone)].
    + rewrite Hnil, app_nil_r. destruct Hk as [?|(pid & Hk & top & flags & args & Hclone)]; [by left|right].
      exists pid. split; [done|]. exists top, flags, args. eapply did_sub; [|done]. set_solver.
    + rewrite Hnil, Hnew. right. exists pid. split; [done|]. exists top, flags, args.
      eapply did_sub; [|done]. set_solver.
  - intros r Hin' Hpos. rewrite stores_app. specialize (Ht r (Hin _ _ Hin') Hpos).
    destruct Hst as [Hnil|(Hnil & _)]; [by rewrite Hnil, app_nil_r|congruence].
  - intros request pid r Hin'. destruct (Ha request pid r (Hin _ _ Hin')) as [(r' & Hr' & Hpos & Heq) Hdead].
    split; [exists r'; split; [set_solver|done]|]. intros Hok [Hdied|Hdied]%elem_of_app; [by apply Hdead|].
    specialize (Ht r' Hr' Hpos).
    assert (e = Died Target) as ->.
    { destruct e as [[] c r0|[]]; unfold child_log in Hdied; apply list_elem_of_filter in Hdied as [_ Hd'];
        apply list_elem_of_singleton in Hd'; by try congruence. }
    pose proof (child_step_died _ _ _ _ Hstep Hc). congruence.
  - intros pid options r Hin'. by eapply Hws, Hin.
  - intros pid options r Hin' Hres Hfork.
    destruct (Hw pid options r (Hin _ _ Hin') Hres Hfork) as [(code & Hcode & Hst')|[Hdied Hst']]; [left|right].
    + exists code. split; [|done]. eapply did_sub; [|done]. set_solver.
    + split; [set_solver|done].
  - intros r Hin' Hres. by destruct (Hd r (Hin _ _ Hin') Hres).
  - intros f r Hin' Hfield. by destruct (Hr f r (Hin _ _ Hin') Hfield) as [[? _] _].
Qed.

(** ** The supervisor *)

Lemma forked_add l c r :
  (c = Fork → rp_result r < 0) → forked (l ++ [Did Supervisor c r]) ↔ forked l.
Proof.
  intros Hc. split; intros (r' & Hr & Hp).
  - apply elem_of_app in Hr as [Hr|Hr%list_elem_of_singleton]; [by exists r'|].
    injection Hr as <- ->. specialize (Hc eq_refl). lia.
  - exists r'. split; [set_solver|done].
Qed.

(** A call that is made again changes nothing. *)
Lemma retried_keeps m m' c r ch l :
  world_inv {| w_sup := m; w_child := ch; w_log := l |} → retried c r →
  W m' (Sup (supervisor_log l)) final →
  world_inv {| w_sup := m'; w_child := ch; w_log := l ++ [Did Supervisor c r] |}.
Proof.
  intros [Hs Hc Hf Hp Ho Hk Ht Ha Hws Hw Hd Hr] Hret Hs'. simpl in *.
  destruct (supervisor_adds c r) as [Hsl Hcl]. rewrite decide_True in Hsl by done.
  assert (Hold : ∀ c' r', Did Supervisor c' r' ∈ l ++ [Did Supervisor c r] →
    Did Supervisor c' r' ∈ l ∨ c' = c ∧ r' = r).
  { intros c' r' [?|Hin%list_elem_of_singleton]%elem_of_app; [by left|right]. by injection Hin. }
  split; simpl; rewrite ?supervisor_log_app, ?child_log_app, ?Hsl, ?Hcl, ?app_nil_r; try done.
  - rewrite page_after_app, Hp. by destruct c, ch.
  - intros Hend. apply Ho. destruct Hend as [(code & r' & Hin & _)|Hin].
    + left. exists code, r'. split; [set_solver|done].
    + right. set_solver.
  - intros r' [Hin|[<- _]]%Hold; [by apply Ht|done].
  - intros request pid r' [Hin|[<- _]]%Hold; [|done].
    destruct (Ha _ _ _ Hin) as [(r2 & ? & ?) ?]. split; [|done]. exists r2. split; [set_solver|done].
  - intros pid options r' [Hin|[<- ->]]%Hold; [by eapply Hws|done].
  - intros pid options r' [Hin|[<- ->]]%Hold Hres Hfork.
    + destruct (Hw _ _ _ Hin Hres Hfork) as [(code & ? & ?)|[? ?]]; [left|right].
      * exists code. split; [|done]. eapply did_sub; [|done]. set_solver.
      * split; [set_solver|done].
    + destruct Hfork as (r2 & _ & Hpos & Heq), Hret. lia.
  - intros r' [Hin|[<- _]]%Hold; [by apply Hd|done].
  - intros f r' [Hin|[<- _]]%Hold; [by apply Hr|done].
Qed.

(** The page as the supervisor reads it, after the fork. *)
Lemma page_forked m ch l :
  world_inv {| w_sup := m; w_child := ch; w_log := l |} → forked (supervisor_log l) →
  page_after p0 l = page_after fresh_page (child_log l).
Proof. intros Hinv Hf. pose proof (wi_page _ Hinv). pose proof (wi_forked _ Hinv). simpl in *. destruct ch; tauto. Qed.

Lemma did_supervisor l c P : did (supervisor_log l) Supervisor c P → did l Supervisor c P.
Proof. intros (r & [Hr _]%elem_of_supervisor_log & HP). by exists r. Qed.

(** What a new entry of the supervisor's log says. *)
Lemma attach_new l request pid r m ch :
  world_inv {| w_sup := m; w_child := ch; w_log := l |} →
  supervisor_at (supervisor_log l) (Attach request pid) → answers p0 l (Did Supervisor (Attach request pid) r) →
  (∃ r', Did Supervisor (Load TargetPid) r' ∈ l ∧ 0 < rp_result r' ∧ rp_result r' = pid) ∧
  (0 <= rp_result r → Died Target ∉ child_log l).
Proof.
  intros Hinv [Hpos (r' & Hr' & Heq)%did_supervisor] Hans. split; [exists r'; split_and!; [done|lia|done]|].
  intros Hok Hdied. assert (Hst := wi_target _ Hinv r' Hr'). simpl in Hst.
  rewrite Heq in Hst. specialize (Hst Hpos).
  destruct (wi_known _ Hinv) as [Hnil|(pid' & Hk & top & flags & args & Hclone)]; simpl in *; [congruence|].
  assert (pid' = pid) as -> by congruence.
  assert (Hclone' : did l Spawner (CloneChild top flags args) (λ r, rp_result r = pid)).
  { eapply did_sub; [|exact Hclone]. intros e He. by apply list_elem_of_filter in He as [_ ?]. }
  eapply (attach_needs_life l _ _ _ _ _ _ Hans Hok Hclone'). by apply list_elem_of_filter in Hdied as [_ ?].
Qed.

Lemma waited_new l pid options r m ch :
  world_inv {| w_sup := m; w_child := ch; w_log := l |} →
  answers p0 l (Did Supervisor (Waitpid pid options) r) → rp_result r = pid →
  did (supervisor_log l) Supervisor Fork (λ r, 0 < rp_result r ∧ rp_result r = pid) →
  (∃ code, did l Spawner (Exit code) (λ _, True) ∧
     WIFEXITED (rp_status r) = true ∧ WEXITSTATUS (rp_status r) = Z.land code 255) ∨
  (Died Spawner ∈ l ∧ WIFEXITED (rp_status r) = false).
Proof. intros Hinv Hans Hres Hfork. eapply wait_reports; [done|done|]. by apply did_supervisor. Qed.

Lemma done_new l r m ch :
  world_inv {| w_sup := m; w_child := ch; w_log := l |} →
  supervisor_at (supervisor_log l) (Load Done) → answers p0 l (Did Supervisor (Load Done) r) →
  rp_result r = STARTUP_DONE → ch = Ended ∧ ¬ pending (child_log l).
Proof.
  intros Hinv (pid & Hfork & Hwait) Hans Hdone.
  assert (Hforked : forked (supervisor_log l)) by (destruct Hfork as (r' & ? & ? & _); by exists r').
  assert (Hover : spawner_over ch).
  { apply (wi_over _ Hinv). apply did_supervisor in Hwait as (r' & Hr' & Hres).
    destruct (wi_waited _ Hinv _ _ _ Hr' Hres Hfork) as [(code & ? & _)|[? _]]; [left; by exists code|by right]. }
  simpl in Hans. rewrite (page_forked _ _ _ Hinv Hforked) in Hans.
  assert (Hnp : ¬ pending (child_log l)) by (unfold pending; rewrite <-Hans, Hdone; done).
  destruct ch as [| | |t|]; try done. exfalso.
  destruct (wi_child _ Hinv) as [ended Hruns]. by apply target_runs_early in Hruns as (_ & Hp & _).
Qed.

Lemma target_new l r m ch :
  world_inv {| w_sup := m; w_child := ch; w_log := l |} →
  supervisor_at (supervisor_log l) (Load TargetPid) → answers p0 l (Did Supervisor (Load TargetPid) r) →
  0 < rp_result r → stores TargetPid (child_log l) = [rp_result r].
Proof.
  intros Hinv Hforked Hans Hpos. simpl in Hans. rewrite (page_forked _ _ _ Hinv Hforked) in Hans.
  change (target_pid ?p) with (page_get TargetPid p) in Hans. rewrite page_get_after in Hans.
  destruct (wi_known _ Hinv) as [Hnil|(pid & Hk & _)]; simpl in *.
  - rewrite Hnil in Hans. simpl in Hans. lia.
  - rewrite Hk in *. simpl in Hans. congruence.
Qed.

(** A completed call of the supervisor keeps the invariant. *)
Lemma completed_keeps m m' c r ch l :
  world_inv {| w_sup := m; w_child := ch; w_log := l |} → (c = Fork → rp_result r < 0) → ¬ retried c r →
  supervisor_at (supervisor_log l) c → answers p0 l (Did Supervisor c r) →
  W m' (Sup (supervisor_log l ++ [Did Supervisor c r])) final →
  world_inv {| w_sup := m'; w_child := ch; w_log := l ++ [Did Supervisor c r] |}.
Proof.
  intros Hinv Hfork Hret Hat Hans Hs'. pose proof Hinv as [Hs Hc Hf Hp Ho Hk Ht Ha Hws Hw Hd Hr]. simpl in *.
  destruct (supervisor_adds c r) as [Hsl Hcl]. rewrite decide_False in Hsl by done.
  assert (Hold : ∀ c' r', Did Supervisor c' r' ∈ l ++ [Did Supervisor c r] →
    Did Supervisor c' r' ∈ l ∨ c' = c ∧ r' = r).
  { intros c' r' [?|Hin%list_elem_of_singleton]%elem_of_app; [by left|right]. by injection Hin. }
  assert (Hdid : ∀ pid,
    did (supervisor_log l ++ [Did Supervisor c r]) Supervisor Fork (λ r, 0 < rp_result r ∧ rp_result r = pid) →
    did (supervisor_log l) Supervisor Fork (λ r, 0 < rp_result r ∧ rp_result r = pid)).
  { intros pid (r' & [Hin|Hin%list_elem_of_singleton]%elem_of_app & HP); [by exists r'|].
    injection Hin as <- ->. specialize (Hfork eq_refl). lia. }
  split; simpl; rewrite ?supervisor_log_app, ?child_log_app, ?Hsl, ?Hcl, ?app_nil_r; try done.
  - assert (c = Socketpair ∨ c ≠ Socketpair) as [->|Hsock] by (destruct c; auto).
    + assert (ch = Unborn) as -> by by apply Hf. done.
    + by rewrite sockets_of_add.
  - by rewrite forked_add.
  - rewrite !page_after_app, Hp. destruct c; try by destruct ch.
    assert (ch = Unborn) as -> by by apply Hf. done.
  - intros Hend. apply Ho. destruct Hend as [(code & r' & Hin & _)|Hin].
    + left. exists code, r'. split; [set_solver|done].
    + right. set_solver.
  - intros r' [Hin|[<- ->]]%Hold Hpos; [by apply Ht|by eapply target_new].
  - intros request pid r' [Hin|[<- ->]]%Hold.
    + destruct (Ha _ _ _ Hin) as [(r2 & ? & ?) ?]. split; [|done]. exists r2. split; [set_solver|done].
    + destruct (attach_new _ _ _ _ _ _ Hinv Hat Hans) as [(r2 & ? & ?) ?].
      split; [|done]. exists r2. split; [set_solver|done].
  - intros pid options r' [Hin|[<- ->]]%Hold Hnr.
    + apply forked_add; [done|]. by eapply Hws.
    + apply forked_add; [done|]. apply Hat.
  - intros pid options r' Hin Hres Hfk%Hdid.
    assert (Hold' : (∃ code, did l Spawner (Exit code) (λ _, True) ∧
       WIFEXITED (rp_status r') = true ∧ WEXITSTATUS (rp_status r') = Z.land code 255) ∨
      (Died Spawner ∈ l ∧ WIFEXITED (rp_status r') = false)).
    { apply Hold in Hin as [Hin|[<- ->]]; [by eapply Hw|by eapply waited_new]. }
    destruct Hold' as [(code & ? & ?)|[? ?]]; [left|right].
    + exists code. split; [|done]. eapply did_sub; [|done]. set_solver.
    + split; [set_solver|done].
  - intros r' [Hin|[<- ->]]%Hold Hdone; [by eapply Hd|by eapply done_new].
  - intros f r' [Hin|[<- ->]]%Hold Hfield; [by apply Hr|].
    assert (Hdone : did (supervisor_log l) Supervisor (Load Done) (λ r, rp_result r = STARTUP_DONE)) by (by destruct f).
    apply did_supervisor in Hdone as (r2 & Hr2 & Hdone). destruct (Hd _ Hr2 Hdone) as [-> Hnp].
    split; [done|]. by rewrite <-Hp.
Qed.

(** A call of the supervisor, whatever its reply. *)
Lemma supervisor_keeps c k r ch l :
  world_inv {| w_sup := Call c k; w_child := ch; w_log := l |} → ordinary c →
  answers p0 l (Did Supervisor c r) →
  world_inv {| w_sup := k r; w_child := ch; w_log := l ++ [Did Supervisor c r] |}.
Proof.
  intros Hinv Hord Hans. destruct (wi_supervisor _ Hinv) as [Hat Hsem]. simpl in Hat, Hsem.
  assert (Hreads : supervisor_reads c r).
  { pose proof (answers_sane l _ _ _ Hans). by destruct c. }
  specialize (Hsem r Hreads). destruct (decide (retried c r)) as [Hret|Hret].
  - by eapply retried_keeps.
  - eapply completed_keeps; try done; [by intros ->|by destruct c].
Qed.

(** The fork. *)
Lemma fork_keeps k r l :
  world_inv {| w_sup := Call Fork k; w_child := Unborn; w_log := l |} →
  answers p0 l (Did Supervisor Fork r) → 0 < rp_result r →
  world_inv {| w_sup := k r; w_child := Spawning (k (in_child r)); w_log := l ++ [Did Supervisor Fork r] |}.
Proof.
  intros Hinv Hans Hpos. destruct (wi_supervisor _ Hinv) as [(Hnf & Hfresh & _) Hsem].
  pose proof Hinv as [Hs Hc Hf Hp Ho Hk Ht Ha Hws Hw Hd Hr]. simpl in *.
  pose proof (sane_replies _ _ _ _ Hans) as Hsane. specialize (Hsem r Hsane).
  destruct (proj2 Hsem Hpos) as [Hsup Hchild].
  destruct (supervisor_adds Fork r) as [Hsl Hcl]. rewrite decide_False in Hsl by (simpl; tauto).
  assert (Hold : ∀ c' r', c' ≠ Fork → Did Supervisor c' r' ∈ l ++ [Did Supervisor Fork r] →
    Did Supervisor c' r' ∈ l).
  { intros c' r' Hne [?|Hin%list_elem_of_singleton]%elem_of_app; [done|]. by injection Hin as ->. }
  split; simpl; rewrite ?supervisor_log_app, ?child_log_app, ?Hsl, ?Hcl, ?app_nil_r; try done.
  - rewrite sockets_of_add by done. by rewrite Hc.
  - split; [done|]. intros Hnf'. destruct Hnf'. by apply did_last.
  - rewrite page_after_app, Hp, Hc. simpl. apply Hfresh.
  - intros Hend. exfalso. apply (Ho : spawner_end l → False).
    destruct Hend as [(code & r' & Hin & _)|Hin]; [left|right; set_solver].
    exists code, r'. split; [set_solver|done].
  - intros r' Hin%Hold; [by apply Ht|done].
  - intros request pid r' Hin%Hold; [|done].
    destruct (Ha _ _ _ Hin) as [(r2 & ? & ?) ?]. split; [|done]. exists r2. split; [set_solver|done].
  - intros pid options r' Hin%Hold Hnr; [|done]. destruct Hnf. by eapply Hws.
  - intros pid options r' Hin%Hold Hres Hfk; [|done]. exfalso. apply Hnf.
    apply (Hws _ _ _ Hin). intros [Hneg _]. destruct Hfk as (r2 & _ & ? & ?). lia.
  - intros r' Hin%Hold Hdone; [|done]. by destruct (Hd r' Hin Hdone).
  - intros f r' Hin%Hold Hfield; [|done]. by destruct (Hr f r' Hin Hfield) as [[? _] _].
Qed.

Lemma step_keeps w w' : world_inv w → world_step p0 w w' → world_inv w'.
Proof.
  intros Hinv Hstep. destruct Hstep as [c k r ch l Hord Hans|k r l Hans Hpos|k r ch l Hans Hneg|m ch e ch' l Hch Hans].
  - by apply supervisor_keeps.
  - by apply fork_keeps.
  - destruct (wi_supervisor _ Hinv) as [Hat Hsem]. pose proof (sane_replies _ _ _ _ Hans) as Hsane.
    specialize (Hsem r Hsane). cbn [sem retried] in Hsem. rewrite decide_False in Hsem by tauto.
    eapply completed_keeps; [done|done|simpl; tauto|done|done|exact (proj1 Hsem Hneg)].
  - by eapply child_keeps.
Qed.

(** The program under study. *)
Definition launch (fuel : nat) : Prog SpawnError (Z * Z) :=
  spawn_seccomp_target fuel filter executable argv envp stdin stdout stderr.

(** Every event of a reached world was answered on what came before. *)
Lemma reached_answers m w e : reached p0 m w → e ∈ w_log w → ∃ l, l ⊆ w_log w ∧ answers p0 l e.
Proof.
  assert (Hstep : ∀ w w', world_step p0 w w' → ∃ e, w_log w' = w_log w ++ [e] ∧ answers p0 (w_log w) e)
    by (intros w1 w2 Hw; inversion Hw; subst; simpl; by eexists).
  assert (Hrtc : ∀ w w', rtc (world_step p0) w w' → (∀ e, e ∈ w_log w → ∃ l, l ⊆ w_log w ∧ answers p0 l e) →
    ∀ e, e ∈ w_log w' → ∃ l, l ⊆ w_log w' ∧ answers p0 l e).
  { intros w1 w2 Hw. induction Hw as [|w1 w2 w3 Hw _ IH]; [done|]. intros Hall. apply IH.
    destruct (Hstep _ _ Hw) as (e' & -> & He'). intros e0 [Hin|Hin%list_elem_of_singleton]%elem_of_app.
    - destruct (Hall _ Hin) as (l & Hl & Hans). exists l. split; [set_solver|done].
    - subst e0. exists (w_log w1). split; [set_solver|done]. }
  intros Hreach. apply (Hrtc _ _ Hreach). by intros e0 ?%elem_of_nil.
Qed.

Lemma launch_inv fuel : world_inv (launch_world (launch fuel)).
Proof.
  split; cbn [launch_world w_sup w_child w_log].
  - unfold launch. change (supervisor_log []) with (@nil event). apply spawn_seccomp_target_spec.
  - done.
  - split; [intros _|done]. by intros (r & ?%elem_of_nil & _).
  - done.
  - by intros [(code & r & ?%elem_of_nil & _)|?%elem_of_nil].
  - by left.
  - by intros r ?%elem_of_nil.
  - by intros request pid r ?%elem_of_nil.
  - by intros pid options r ?%elem_of_nil.
  - by intros pid options r ?%elem_of_nil.
  - by intros r ?%elem_of_nil.
  - by intros f r ?%elem_of_nil.
Qed.

Lemma reached_inv fuel w : reached p0 (launch fuel) w → world_inv w.
Proof.
  intros Hreach. pose proof (launch_inv fuel) as Hinv. unfold reached in Hreach.
  induction Hreach as [|w1 w2 w3 Hstep _ IH]; [done|]. by apply IH, (step_keeps w1).
Qed.

End invariant.
