(* ===== verification/SampleKernel.v ===== *)
(** * A kernel

    A kernel that keeps the promises of [KernelLaws] and [ProgressLaws]: every
    call answers as soon as the log allows, except those that [fault] makes
    fail.  [run] schedules the processes of a launch on it, so that launches can
    be computed. *)

From S2P Require Import Prelude Effects Tracker Ptrace Programs Spawn Startup StartupLogic StartupProofs StartupSupervisor StartupCorrect.

Local Open Scope Z_scope.

(** ** Replies *)

Definition reply (result : Z) : Reply :=
  {| rp_result := result; rp_errno := 0; rp_status := 0; rp_byte := 0; rp_flags := 0;
     rp_control := []; rp_sockets := (0, 0); rp_made := inr 0 |}.

Definition failure (errno : Z) : Reply :=
  {| rp_result := -1; rp_errno := errno; rp_status := 0; rp_byte := 0; rp_flags := 0;
     rp_control := []; rp_sockets := (0, 0); rp_made := inl errno |}.

Definition message (byte : Z) : Reply :=
  {| rp_result := 1; rp_errno := 0; rp_status := 0; rp_byte := byte; rp_flags := 0;
     rp_control := [{| cm_level := SOL_SOCKET; cm_type := SCM_RIGHTS; cm_len := CMSG_LEN_FD; cm_fd := 7 |}];
     rp_sockets := (0, 0); rp_made := inr 0 |}.

Definition reported (pid status : Z) : Reply :=
  {| rp_result := pid; rp_errno := 0; rp_status := status; rp_byte := 0; rp_flags := 0;
     rp_control := []; rp_sockets := (0, 0); rp_made := inr 0 |}.

Definition made (sockets : Z * Z) (descriptor : Z) : Reply :=
  {| rp_result := 0; rp_errno := 0; rp_status := 0; rp_byte := 0; rp_flags := 0;
     rp_control := []; rp_sockets := sockets; rp_made := inr descriptor |}.

Definition SPAWNER : Z := 100.
Definition TARGET : Z := 200.
Definition ESRCH : Z := 3.

(** ** What the log says *)

Definition exit_code (l : log) : option Z :=
  head (omap (λ e, match e with Did Spawner (Exit code) _ => Some code | _ => None end) l).

Definition has (l : log) (P : event → bool) : bool := existsb P l.

Definition spawner_gone (l : log) : bool :=
  has l (λ e, match e with Did Spawner (Exit _) _ | Died Spawner => true | _ => false end).
Definition target_gone (l : log) : bool :=
  negb (has l (λ e, match e with Did Spawner (CloneChild _ _ _) r => bool_decide (0 < rp_result r) | _ => false end)) ||
  has l (λ e, match e with
    | Did Target (Exit _) _ | Died Target => true
    | Did Target (Execve _ _ _) r => bool_decide (0 <= rp_result r)
    | _ => false end).
Definition closed (l : log) (fd : Z) : bool :=
  has l (λ e, match e with Did Supervisor (Close fd') _ => bool_decide (fd' = fd) | _ => false end).
Definition range_closed (l : log) (fd : Z) : bool :=
  has l (λ e, match e with
    | Did Spawner (CloseRange first last) r => bool_decide (first <= fd <= last ∧ rp_result r = 0)
    | _ => false end).
Definition forked_as (l : log) (pid : Z) : bool :=
  has l (λ e, match e with Did Supervisor Fork r => bool_decide (0 < rp_result r ∧ rp_result r = pid) | _ => false end).
Definition killed (l : log) (pid : Z) : bool :=
  has l (λ e, match e with
    | Did Supervisor (Kill pid' signal) _ => bool_decide (pid' = pid ∧ signal = SIGKILL)
    | _ => false end).

(** The process was waited for. *)
Definition reaped (l : log) (pid : Z) : bool :=
  has l (λ e, match e with Did Supervisor (Waitpid pid' _) r => bool_decide (pid' = pid ∧ rp_result r = pid) | _ => false end).

(** ** Answers *)

Definition supervisor_message (l : log) (m : Reply) : option Reply :=
  if decide (received Supervisor l < sent Spawner l)%nat then Some m
  else if closed l (sockets_of l).2 && spawner_gone l && target_gone l then Some (reply 0) else None.

Definition spawner_message (l : log) (m : Reply) : option Reply :=
  if decide (received Spawner l < sent Supervisor l)%nat then Some m
  else if closed l (sockets_of l).1 && range_closed l (sockets_of l).1 then Some (reply 0) else None.

Definition wait_answer (l : log) (pid options : Z) : option Reply :=
  if decide (options = WNOHANG) then Some (if reaped l pid then failure ECHILD else reply 0)
  else if decide (pid <= 0) then Some (failure ECHILD)
  else if forked_as l pid then
    match exit_code l with
    | Some code => Some (reported pid (Z.shiftl (Z.land code 255) 8))
    | None => if spawner_gone l then Some (reported pid SIGKILL)
              else if killed l pid then Some (failure ECHILD) else None
    end
  else if killed l pid then Some (reported pid SIGKILL) else None.

Definition answer (fault : call → Z) (l : log) (w : who) (c : call) : option Reply :=
  match c with
  | Recv _ =>
      match w with
      | Supervisor => supervisor_message l (message TARGET_READY_BYTE)
      | _ => spawner_message l (message TRACER_ATTACHED_BYTE)
      end
  | Recvmsg _ => supervisor_message l (message TRANSFER_BYTE)
  | Waitpid pid options => wait_answer l pid options
  | _ =>
      Some (if decide (0 < fault c) then failure (fault c) else
        match c with
        | Sysconf => reply 4096
        | Mmap _ => reply 65536
        | Socketpair => made (5, 6) 0
        | Send _ _ | Sendmsg _ _ _ => reply 1
        | Fork => reply SPAWNER
        | CloneChild _ _ _ => reply TARGET
        | SeccompNewListener _ _ => reply 7
        | Factory destination => made (0, 0) (10 + destination)
        | Attach _ _ => if has l (λ e, match e with Died Target => true | _ => false end)
                        then failure ESRCH else reply 0
        | _ => reply 0
        end)
  end.

Definition sample (fault : call → Z) : Kernel := λ l w c r, answer fault l w c = Some r.

(** ** Its promises *)

Lemma has_true (l : log) P : has l P = true ↔ ∃ e, e ∈ l ∧ P e = true.
Proof.
  unfold has. rewrite existsb_exists. split; intros (e & He & HP); exists e; (split; [|done]); by apply list_elem_of_In.
Qed.

Lemma has_did (l : log) w c P f : did l w c P → (∀ r, P r → f (Did w c r) = true) → has l f = true.
Proof. intros (r & Hr & HP) Hf. apply has_true. exists (Did w c r). auto. Qed.

Lemma spawner_gone_true l : spawner_end l ↔ spawner_gone l = true.
Proof.
  unfold spawner_gone. split.
  - intros [(code & Hc)|Hd]; [by eapply has_did|]. apply has_true. by exists (Died Spawner).
  - intros (e & He & HP)%has_true. destruct e as [[] [] r|[]]; try done; [left; eexists _, r|right]; done.
Qed.

Lemma target_gone_true l : target_end l → target_gone l = true.
Proof.
  unfold target_gone. rewrite orb_true_iff, negb_true_iff. intros [Hnone|Hend].
  - left. apply not_true_iff_false. intros (e & He & HP)%has_true.
    destruct e as [[] [] r|[]]; try done. apply bool_decide_eq_true in HP. eapply Hnone. by exists r.
  - right. destruct Hend as [(code & Hc)|[Hd|(x & a & v & Hx)]].
    + by eapply has_did.
    + apply has_true. by exists (Died Target).
    + eapply has_did; [done|]. intros r Hr. by apply bool_decide_eq_true.
Qed.

Lemma exit_status code :
  WIFEXITED (Z.shiftl (Z.land code 255) 8) = true ∧
  WEXITSTATUS (Z.shiftl (Z.land code 255) 8) = Z.land code 255.
Proof.
  unfold WIFEXITED, WEXITSTATUS. split.
  - apply bool_decide_eq_true. rewrite (Z.land_ones _ 7) by lia. rewrite Z.shiftl_mul_pow2 by lia.
    change (2 ^ 8) with (2 * 2 ^ 7). rewrite Z.mul_assoc. by apply Z_mod_mult.
  - rewrite Z.shiftr_shiftl_l by lia. rewrite Z.shiftl_0_r. by rewrite <-Z.land_assoc, Z.land_diag.
Qed.

Lemma exit_code_some l code : exit_code l = Some code → did l Spawner (Exit code) (λ _, True).
Proof.
  unfold exit_code. intros Hhead. apply head_Some_elem_of in Hhead.
  apply list_elem_of_omap in Hhead as (e & He & Heq).
  destruct e as [[] [] r|]; try done. injection Heq as ->. by exists r.
Qed.

Lemma exit_code_none l : exit_code l = None → spawner_gone l = true → Died Spawner ∈ l.
Proof.
  intros Hnone [(code & r & Hr & _)|?]%spawner_gone_true; [exfalso|done].
  unfold exit_code in Hnone.
  assert (Hin : code ∈ omap (λ e, match e with Did Spawner (Exit code) _ => Some code | _ => None end) l)
    by (apply list_elem_of_omap; by eexists).
  destruct (omap _ l); [by apply elem_of_nil in Hin|done].
Qed.

Section laws.
  Context (fault : call → Z).

Lemma sample_sane l w c r : answer fault l w c = Some r → sane c r.
Proof.
  intros Hans. destruct c; cbn [answer] in Hans;
    try (injection Hans as <-; case_decide; simpl; unfold SPAWNER, TARGET; intros; first [lia|congruence]).
  - destruct w; unfold supervisor_message, spawner_message in Hans;
      repeat case_match; simplify_eq; simpl; lia.
  - unfold supervisor_message in Hans. repeat case_match; simplify_eq; simpl; lia.
  - unfold wait_answer in Hans. repeat case_match; simplify_eq; simpl; unfold ECHILD; lia.
  - injection Hans as <-. repeat case_match; simpl; unfold ESRCH; lia.
Qed.

#[export] Instance sample_laws : @KernelLaws (sample fault).
Proof.
  split; unfold admits, sample.
  - exact sample_sane.
  - intros l pid options r Hans Hres Hfork. cbn [answer] in Hans. unfold wait_answer in Hans.
    assert (Hf : forked_as l pid = true) by (eapply has_did; [done|]; intros r' Hr'; by apply bool_decide_eq_true).
    rewrite Hf in Hans. assert (0 < pid) by (destruct Hfork as (? & ? & ? & ?); lia).
    case_decide as Hopt; [destruct (reaped l pid); injection Hans as <-; simpl in *; lia|]. rewrite decide_False in Hans by lia.
    destruct (exit_code l) as [z|] eqn:Hcode.
    + injection Hans as <-. left. exists z. split; [by apply exit_code_some|apply exit_status].
    + destruct (spawner_gone l) eqn:Hgone.
      * injection Hans as <-. right. split; [by apply exit_code_none|done].
      * case_match; [|done]. injection Hans as <-. simpl in *. lia.
  - intros l pid r Hans Hpos Hres _. cbn [answer] in Hans. unfold wait_answer in Hans.
    rewrite decide_True in Hans by done. destruct (reaped l pid); injection Hans as <-; simpl in *; lia.
  - intros l request pid top flags args r Hans Hok _ Hdied. cbn [answer] in Hans. injection Hans as <-.
    case_decide; [done|]. case_match eqn:Hhas; [done|].
    apply not_true_iff_false in Hhas. apply Hhas, has_true. by exists (Died Target).
Qed.

Lemma supervisor_message_some l m :
  (received Supervisor l < sent Spawner l)%nat ∨
  (did l Supervisor (Close (sockets_of l).2) (λ _, True) ∧ spawner_end l ∧ target_end l) →
  is_Some (supervisor_message l m).
Proof.
  intros Hready. unfold supervisor_message. case_decide as Hlt; [done|].
  destruct Hready as [?|(Hc & Hs%spawner_gone_true & Ht%target_gone_true)]; [done|].
  assert (closed l (sockets_of l).2 = true) as -> by (eapply has_did; [done|]; intros; by apply bool_decide_eq_true).
  by rewrite Hs, Ht.
Qed.

#[export] Instance sample_progress : @ProgressLaws (sample fault).
Proof.
  split; unfold admits, sample.
  - intros l w c Hb. destruct c; cbn [answer blocking] in *; try (by destruct Hb);
      try (by eexists); try (eexists; split; [done|]; by case_decide).
    unfold wait_answer. destruct (decide (options = WNOHANG)); [by eexists|by destruct Hb].
  - intros l w r Hans Hok. cbn [answer] in Hans. injection Hans as <-. case_decide; [done|]. simpl. lia.
  - intros l c r Hans Hc. destruct c; try done; cbn [answer] in Hans; unfold supervisor_message in Hans;
      case_decide; try done; case_match; simplify_eq; done.
  - intros l c Hc Hready. destruct Hc as [Heq|Heq]; subst c; cbn [answer]; by apply supervisor_message_some.
  - intros l Hready. cbn [answer]. unfold spawner_message. destruct (decide _) as [Hlt|Hlt]; [by eexists|].
    destruct Hready as [Hlt'|Hclosed]; [done|].
    destruct Hclosed as (Hc & a & b & Hin & Hcl).
    assert (closed l (sockets_of l).1 = true) as -> by (eapply has_did; [exact Hc|]; intros; by apply bool_decide_eq_true).
    assert (range_closed l (sockets_of l).1 = true) as ->
      by (eapply has_did; [exact Hcl|]; intros; by apply bool_decide_eq_true).
    by eexists.
  - intros l pid options Hwhy. cbn [answer]. unfold wait_answer. case_decide; [by eexists|]. case_decide; [by eexists|].
    destruct Hwhy as [Hkill|[Hfork Hend]].
    + assert (killed l pid = true) as -> by (eapply has_did; [done|]; intros; by apply bool_decide_eq_true).
      repeat case_match; by eexists.
    + assert (forked_as l pid = true) as -> by (eapply has_did; [done|]; intros; by apply bool_decide_eq_true).
      apply spawner_gone_true in Hend. rewrite Hend. case_match; by eexists.
Qed.

End laws.

(** ** Running a launch *)

#[export] Instance ordinary_dec c : Decision (ordinary c).
Proof. unfold ordinary. destruct c; apply _. Defined.
#[export] Instance vfork_flags_dec flags : Decision (vfork_flags flags).
Proof. unfold vfork_flags. apply _. Defined.

Section run.
  Context (fault : call → Z) (p0 : SharedStartup).

Definition answered (l : log) (w : who) (c : call) : option Reply :=
  match c with
  | Load f => Some (reply (page_get f (page_after p0 l)))
  | Store _ _ => Some (reply 0)
  | _ => answer fault l w c
  end.

Definition run_supervisor (w : world) : option world :=
  match w_sup w with
  | Call c k =>
      r ← answered (w_log w) Supervisor c;
      let l := w_log w ++ [Did Supervisor c r] in
      match c with
      | Fork =>
          if decide (rp_result r < 0) then Some {| w_sup := k r; w_child := w_child w; w_log := l |}
          else match w_child w with
               | Unborn => if decide (0 < rp_result r) then
                   Some {| w_sup := k r; w_child := Spawning (k (in_child r)); w_log := l |} else None
               | _ => None
               end
      | _ => if decide (ordinary c) then Some {| w_sup := k r; w_child := w_child w; w_log := l |} else None
      end
  | Stop _ => None
  end.

Definition run_target (l : log) (t : Prog SpawnError ()) : option (event * option (Prog SpawnError ())) :=
  match t with
  | Call c k =>
      r ← answered l Target c;
      if decide (executes c r) then Some (Did Target c r, None)
      else match c with
           | Exit _ => Some (Did Target c r, None)
           | _ => if decide (ordinary c) then Some (Did Target c r, Some (k r)) else None
           end
  | Stop _ => None
  end.

Definition run_child (l : log) (ch : child) : option (event * child) :=
  match ch with
  | Spawning (Call c k) =>
      r ← answered l Spawner c;
      match c with
      | CloneChild _ flags args =>
          if decide (rp_result r < 0) then Some (Did Spawner c r, Spawning (k r))
          else if decide (vfork_flags flags ∧ 0 < rp_result r) then
            Some (Did Spawner c r, Launching (target_entry args) (k r))
          else None
      | Exit _ => Some (Did Spawner c r, Ended)
      | _ => if decide (ordinary c) then Some (Did Spawner c r, Spawning (k r)) else None
      end
  | Launching t p =>
      '(e, t') ← run_target l t;
      Some (e, match t' with Some t' => Launching t' p | None => Spawning p end)
  | _ => None
  end.

(** The supervisor runs whenever it can. *)
Definition run_world (w : world) : option world :=
  match run_supervisor w with
  | Some w' => Some w'
  | None =>
      '(e, ch') ← run_child (w_log w) (w_child w);
      Some {| w_sup := w_sup w; w_child := ch'; w_log := w_log w ++ [e] |}
  end.

Fixpoint run (n : nat) (w : world) : world :=
  match n with
  | O => w
  | S n => match run_world w with Some w' => run n w' | None => w end
  end.

Abbreviation kernel := (sample fault).

Lemma answered_answers l w c r : answered l w c = Some r → answers (H:=kernel) p0 l (Did w c r).
Proof. intros Hans. destruct c; try done. by injection Hans as <-. Qed.

Lemma run_supervisor_step w w' : run_supervisor w = Some w' → world_step (H:=kernel) p0 w w'.
Proof.
  destruct w as [m ch l]. unfold run_supervisor. cbn [w_sup w_child w_log]. destruct m as [r|c k]; [done|].
  intros (r & Hans%answered_answers & Hstep)%bind_Some.
  destruct c; try (case_decide; [injection Hstep as <-; by apply supervisor_call|done]); try done.
  case_decide; [injection Hstep as <-; by apply supervisor_fork_fails|].
  destruct ch; try done. case_decide; [|done]. injection Hstep as <-. by apply supervisor_forks.
Qed.

Lemma run_target_step l t e o :
  run_target l t = Some (e, o) → target_step t e o ∧ answers (H:=kernel) p0 l e.
Proof.
  unfold run_target. destruct t as [r|c k]; [done|]. intros (r & Hans%answered_answers & Hstep)%bind_Some.
  case_decide; [injection Hstep as <- <-; split; [by apply target_executes|done]|].
  destruct c; try (case_decide; [|done]); injection Hstep as <- <-;
    (split; [|done]); first [by apply Startup.target_call|apply target_exits].
Qed.

Lemma run_child_step l ch e ch' :
  run_child l ch = Some (e, ch') → child_step ch e ch' ∧ answers (H:=kernel) p0 l e.
Proof.
  unfold run_child. destruct ch as [|[r|c k]|t p|t|]; try done.
  - intros (r & Hans%answered_answers & Hstep)%bind_Some.
    destruct c; try (case_decide; [|try done]);
      try (injection Hstep as <- <-; split; [|done]; first [by apply spawner_call|by apply spawner_clone_fails|apply spawner_exits]).
    destruct (decide (vfork_flags flags ∧ 0 < rp_result r)) as [[Hf Hp]|Hn]; [|done].
    injection Hstep as <- <-. by split; [apply spawner_clones|].
  - intros ([e' o] & [Ht Hans]%run_target_step & [= <- <-])%bind_Some. split; [|done].
    destruct o; [by apply launch_goes_on|by apply launch_ends].
Qed.

Lemma run_reached n w : rtc (world_step (H:=kernel) p0) w (run n w).
Proof.
  revert w. induction n as [|n IH]; intros w; [done|]. cbn [run].
  destruct (run_world w) as [w'|] eqn:Hrun; [|done]. eapply rtc_l; [|by apply IH].
  unfold run_world in Hrun. destruct (run_supervisor w) as [w1|] eqn:Hsup.
  - injection Hrun as <-. by apply run_supervisor_step.
  - apply bind_Some in Hrun as ([e ch'] & [Hch Hans]%run_child_step & [= <-]).
    destruct w. by apply child_goes_on.
Qed.

End run.

(** ** Launches on it *)

Definition sample_launch : Prog SpawnError (Z * Z) :=
  spawn_seccomp_target 5 [6442450944%N; 9223090561878065158%N] 1%N 2%N 3%N true false true.

Definition sample_world (fault : call → Z) : world :=
  run fault fresh_page 200 (launch_world sample_launch).

Lemma sample_reached fault : reached (H:=sample fault) fresh_page sample_launch (sample_world fault).
Proof. apply run_reached. Qed.

(** Nothing fails; the second stream has no source; the target does not execute. *)
Definition no_fault (c : call) : Z := 0.
Definition exec_fault (c : call) : Z := match c with Execve _ _ _ => 2 | _ => 0 end.

Example sample_launch_succeeds : w_sup (sample_world no_fault) = Stop (Ret (7, TARGET)).
Proof. vm_compute. reflexivity. Qed.

Example sample_launch_fails :
  w_sup (sample_world exec_fault) = Stop (Throw {| se_step := Exec; se_errno := 2 |}).
Proof. vm_compute. reflexivity. Qed.
