(* ===== verification/LaunchTests.v ===== *)
(** * The unit tests of [src/src/runner/spawn.rs]

    The tests of launches that fail, run on the sample kernel: the fault of the
    test is injected into the call it concerns.  The test of a launch that
    succeeds is in [TargetTests]. *)

From S2P Require Import Prelude Effects Index Tracker Ptrace Programs GraphTests.
From S2P Require Import Spawn Startup StartupLogic StartupProofs StartupSupervisor StartupCorrect SampleKernel.

Local Open Scope Z_scope.

Definition ENOENT : Z := 2.
Definition EACCES : Z := 13.

(** Any filter, and pointers that are not null. *)
Definition test_launch (filter : list sock_filter) (stdin : bool) : Prog SpawnError (Z * Z) :=
  spawn_seccomp_target 5 filter 1%N 2%N 3%N stdin false false.

(** The world when the launch has run on a new exchange, and the error. *)
Definition launched_on (fault : call → Z) (launch : Prog SpawnError (Z * Z)) : world :=
  run fault fresh_page 200 (launch_world launch).

Definition err (w : world) : exec () SpawnError :=
  match w_sup w with
  | Stop (Throw e) => Ret e
  | Stop _ => Panic
  | Call _ _ => NoFuel
  end.

(** What a field of the exchange holds. *)
Definition exchange_field (w : world) (f : Field) : Z := page_get f (page_after fresh_page (w_log w)).

(** The call of [execve] finds no file. *)
Definition missing_executable (c : call) : Z := match c with Execve _ _ _ => ENOENT | _ => 0 end.

Definition failed_exec_is_reported_and_reaped (filter : list sock_filter) : test :=
  let w := launched_on missing_executable (test_launch filter false) in
  error ← err w;
  _ ← assert_eq (se_step error) Exec;
  _ ← assert_eq (se_errno error) ENOENT;
  _ ← assert_eq (exchange_field w Done) STARTUP_DONE;
  let target_pid := exchange_field w TargetPid in
  _ ← check (bool_decide (0 < target_pid));
  r ← expect (wait_answer (w_log w) target_pid WNOHANG);
  _ ← assert_eq (rp_result r) (-1);
  assert_eq (rp_errno r) ECHILD.

(** The closure for the standard input fails. *)
Definition stdin_denied (c : call) : Z := match c with Factory 0 => EACCES | _ => 0 end.

Definition spawner_failure_is_published_before_return (filter : list sock_filter) : test :=
  let w := launched_on stdin_denied (test_launch filter true) in
  error ← err w;
  _ ← assert_eq (se_step error) Stdin;
  _ ← assert_eq (se_errno error) EACCES;
  _ ← assert_eq (exchange_field w Done) STARTUP_DONE;
  assert_eq (exchange_field w TargetPid) (-1).

(** The tests pass. *)
Theorem launch_tests_pass :
  Forall (λ t, t [6442450944%N; 9223090561878065158%N] = Ret ())
    [failed_exec_is_reported_and_reaped; spawner_failure_is_published_before_return].
Proof. run_tests. Qed.
