(* ===== verification/TargetTests.v ===== *)
(** * The unit tests that run a target ([src/src/runner/supervisor.rs],
    [spawn.rs] and test_support.rs)

    Each test launches its target on the sample kernel and goes on with it on
    the state machine of [Supervision]: what the target does is a script.  The
    loops of the tests are kept; dropping the target kills and reaps it. *)

From S2P Require Import Prelude Effects Index Graph Model Compiler Tracker Policy Fd Buffer Request Scheduler Ptrace.
From S2P Require Import Programs Spawn SampleKernel GraphTests LaunchTests RunnerTests Processes Supervision.

#[local] Existing Instance TestFileSpace_files.

#[local] Instance ProcessCreationOutcome_dec : EqDecision ProcessCreationOutcome.
Proof. solve_decision. Defined.

(** ** [test_support.rs] *)

(** [open] of [/dev/null]. *)
Definition open_null {K} (open : K → (Z * Z) * K) : eff K Z Z := λ k,
  let '((fd, errno), k) := open k in
  (if decide (fd < 0)%Z then Throw errno else Ret fd, k).

(** What a launch returned. *)
Definition launched (w : Startup.world) : exec SpawnError (Z * Z) :=
  match Startup.w_sup w with Stop r => r | Call _ _ => NoFuel end.

(** The pointers of the executable, its arguments and its environment are not
    null; the output streams come from [open_null]. *)
Definition spawn_target (filter : list sock_filter) : exec () SpawnedTarget :=
  '(tracker, pid) ← unwrap (launched (launched_on no_fault
    (spawn_seccomp_target 5 filter 1%N 2%N 3%N false true true)));
  Ret {| st_tracker := tracker; st_guard := pid |}.

(** ** [ptrace.rs] *)

Definition CLONE_SIGHAND : N := 2048.
Definition CLONE_VM : N := 256.
Definition SIGCHLD : N := 17.

Section rewriting.
  Context {K : Type} `{Ptrace K}.

(** The stopped call becomes a [clone] that the kernel refuses. *)
Definition rewrite_as_failing_clone (stop : ProcessCreationStop) : eff K Z ProcessCreationStop :=
  regs ← get_regs (pcs_parent stop);
  let rdi := N.lor CLONE_SIGHAND SIGCHLD in
  let regs := {| orig_rax := as_u64 SYS_clone; rax := rax regs; rdi := rdi; rsi := 0; rdx := rdx regs;
                 r10 := r10 regs; r8 := r8 regs; r9 := r9 regs; other_regs := other_regs regs |} in
  _ ← set_regs (pcs_parent stop) regs;
  mret {| pcs_parent := pcs_parent stop; pcs_syscall := SYS_clone; pcs_args := [rdi; 0; 0; 0; 0; 0]%N |}.

End rewriting.

(** ** The tests of [supervisor.rs] *)

Section tests.
  Context {K : Type} `{Ptrace K} `{Listener K} `{Poll K} `{ProcessMemory K}.
  Abbreviation TestRun := (eff (Supervisor TestFileSpace * K) ()).

(** The parent is registered with file space 42. *)
Definition register_parent (target : SpawnedTarget) : TestRun () :=
  eff_expect (register_process (st_pid target) {| test_space := 42 |}).

Definition clone_files_is_rejected_explicitly (fuel : nat) (target : SpawnedTarget) : TestRun () :=
  _ ← register_parent target;
  outcome ← handle_next_creation fuel target;
  eff_lift (assert_eq outcome (PRejected ENOTSUP)).

(** Calls of the parent continue until the child is heard of. *)
Fixpoint answer_child (fuel : nat) (child : Z) : eff K () () :=
  match fuel with
  | 0 => eff_lift NoFuel
  | S fuel' =>
      req ← eff_expect (recv fuel);
      if decide (as_i32 (notif_pid req) = child) then eff_expect (respond_errno req ENOSYS)
      else _ ← eff_expect (continue_syscall req); answer_child fuel' child
  end.

Definition supervisor_tracks_the_file_table_inherited_across_fork (fuel : nat) (target : SpawnedTarget) : TestRun () :=
  _ ← register_parent target;
  outcome ← handle_next_creation fuel target;
  child ← eff_lift (match outcome with PCreated child => Ret child | _ => Panic end);
  files ← (λ s, (expect (sv_procs s.1 !! child), s));
  _ ← eff_lift (assert_eq (test_space files) 42%N);
  _ ← with_kernel (answer_child fuel child);
  with_kernel (child_guard_drop fuel child).

Definition failed_process_creation_returns_without_a_fork_event (fuel : nat) (target : SpawnedTarget) : TestRun () :=
  _ ← register_parent target;
  stop ← with_kernel (next_creation_stop fuel target);
  stop ← with_kernel (eff_expect (rewrite_as_failing_clone stop));
  outcome ← eff_expect (handle_process_creation_stop fuel stop);
  eff_lift (assert_eq outcome (PFailed EINVAL)).

(** ** The test of [spawn.rs] *)

Definition EPIPE : Z := 32.

Fixpoint first_openat (fuel : nat) (pid : Z) : eff K () seccomp_notif :=
  match fuel with
  | 0 => eff_lift NoFuel
  | S fuel' =>
      notification ← eff_expect (recv fuel);
      _ ← eff_lift (assert_eq (as_i32 (notif_pid notification)) pid);
      if decide (notif_nr notification = SYS_openat) then mret notification
      else _ ← eff_expect (continue_syscall notification); first_openat fuel' pid
  end.

Definition post_exec_openat_is_delivered_to_supervisor (fuel : nat) (target : SpawnedTarget) : TestRun () :=
  notification ← with_kernel (first_openat fuel (st_pid target));
  with_kernel (eff_expect (respond_errno notification EPIPE)).

(** The guard of the target is dropped when its test returns. *)
Definition with_target (fuel : nat) (body : nat → SpawnedTarget → TestRun ()) (target : SpawnedTarget) : TestRun () :=
  _ ← body fuel target;
  with_kernel (child_guard_drop fuel (st_guard target)).

End tests.

(** ** Scripts *)

(** Creation calls as clone(2) says: handlers cannot be shared without the
    memory. *)
Definition linux_creation (child : Z) (regs : user_regs) : creation :=
  if decide (N.land (rdi regs) CLONE_SIGHAND ≠ 0%N ∧ N.land (rdi regs) CLONE_VM = 0%N)
  then Refuses EINVAL else Forks PTRACE_EVENT_FORK child.

Definition calls (pid nr : Z) : seccomp_notif :=
  {| notif_id := Z.to_N (pid + nr); notif_pid := pid; notif_nr := nr; notif_args := [] |}.

Definition creation_regs (syscall : Z) (arg0 arg1 : N) : user_regs :=
  {| orig_rax := as_u64 syscall; rax := 0; rdi := arg0; rsi := arg1; rdx := 0; r10 := 0; r8 := 0; r9 := 0;
     other_regs := [] |}.

(** The arguments with which the test harness starts a thread, by [clone3]. *)
Definition thread_args : memory := holding ADDRESS
  [Byte.x00; Byte.x0f; Byte.x3d; Byte.x00; Byte.x00; Byte.x00; Byte.x00; Byte.x00].

(** The harness opens files and starts a thread; a signal comes in between. *)
Definition harness (pid : Z) : list report :=
  [Quiet; Notifies 1 (calls pid SYS_openat); Stops SIGCHLD_STOP; Quiet; Notifies 0 (calls pid SYS_openat);
   Creates (creation_regs SYS_clone3 ADDRESS 88) [SIGCHLD_STOP] (linux_creation 201)].

(** The shell opens a file and forks; then both run. *)
Definition shell (pid : Z) : list report :=
  [Notifies 0 (calls pid SYS_openat); Interrupts; Quiet;
   Creates (creation_regs SYS_clone 18874385 0) [] (linux_creation 201);
   Quiet; Notifies 0 (calls pid SYS_openat); Notifies 2 (calls 201 SYS_openat)].

(** The program loads its libraries. *)
Definition loader (pid : Z) : list report :=
  [Notifies 0 (calls pid 9); Quiet; Notifies 3 (calls pid SYS_openat)].

Abbreviation target_body :=
  (∀ (p : Ptrace Machine) (l : Listener Machine) (w : Poll Machine) (m : ProcessMemory Machine),
   nat → SpawnedTarget → eff (Supervisor TestFileSpace * Machine) () ()).

(** A test on a target that follows its script: its result, and the target
    afterwards. *)
Definition on_target `{HashOrder} (filter : list sock_filter) (script : Z → list report) (body : target_body)
    : exec () (exec () () * Machine) :=
  target ← spawn_target filter;
  supervisor ← empty_supervisor;
  let ptrace := machine_ptrace target in
  let listener := machine_listener in
  let poll := machine_poll in
  let memory := machine_memory thread_args in
  let '(r, (_, k)) := with_target 30 (body ptrace listener poll memory) target (supervisor, sample_machine (script (st_pid target))) in
  Ret (r, k).

Definition target_tests : list ((Z → list report) * target_body) := [
  (harness, λ p l w m, clone_files_is_rejected_explicitly (H:=p) (H0:=l) (H1:=w) (H2:=m));
  (shell, λ p l w m, supervisor_tracks_the_file_table_inherited_across_fork (H:=p) (H0:=l) (H1:=w) (H2:=m));
  (harness, λ p l w m, failed_process_creation_returns_without_a_fork_event (H:=p) (H0:=l) (H1:=w) (H2:=m));
  (loader, λ p l w m, post_exec_openat_is_delivered_to_supervisor (H0:=l))].

(** The tests pass, and leave their targets dead: the first creation failed with
    the error of the supervisor, the second made a child that ran, the third
    failed with the error of the kernel. *)
Theorem target_tests_pass :
  Forall2 (λ '(script, body) '(results, children, killed),
    ∃ k, on_target (H:=hash_elements) [6442450944%N; 9223090561878065158%N] script body = Ret (Ret (), k) ∧
      v_results (m_view k) = results ∧ v_children (m_view k) = children ∧ m_killed k = killed)
    target_tests
    [([-95], [], [200]); ([201], [201], [200; 201]); ([-22], [], [200]); ([], [], [200])]%Z.
Proof. unfold target_tests. repeat constructor; (eexists; split; [vm_compute; reflexivity|by vm_compute]). Qed.
