(* ===== verification/Launch.v ===== *)
(** * Launches

    What a launch guarantees when it succeeds, what it reports and leaves behind
    when it fails, and that it always comes to an end: the theorems on
    [spawn_seccomp_target], for every interleaving of the processes and every
    kernel that keeps its promises. *)

From S2P Require Import Prelude Effects Tracker Ptrace Programs Spawn Startup StartupLogic StartupProofs StartupSupervisor StartupCorrect SampleKernel.

Local Open Scope Z_scope.

Section launches.
  Context `{KernelLaws} (p0 : SharedStartup).
  Context (filter : list sock_filter) (executable argv envp : pointer) (stdin stdout stderr : bool).
  Context (fuel : nat).

Abbreviation launch := (launch filter executable argv envp stdin stdout stderr fuel).
Abbreviation inv := (world_inv p0 filter executable argv envp stdin stdout stderr).

Lemma child_log_sub l : child_log l ⊆ l.
Proof. intros e He. by apply list_elem_of_filter in He as [_ ?]. Qed.

Lemma supervisor_log_sub l : supervisor_log l ⊆ l.
Proof. intros e He. by apply list_elem_of_filter in He as [_ ?]. Qed.

(** The end of the supervisor. *)
Lemma ended_post w r :
  inv w → w_sup w = Stop r → supervisor_post r (supervisor_log (w_log w)).
Proof. intros Hinv Hend. pose proof (wi_supervisor _ _ _ _ _ _ _ _ _ Hinv) as Hs. by rewrite Hend in Hs. Qed.

(** Once the page says so, the spawner has done all it was to do. *)
Lemma ended_outcome w :
  inv w → w_child w = Ended → ¬ pending (child_log (w_log w)) →
  ∃ l0 code socket, page_after fresh_page (child_log (w_log w)) = page_after fresh_page l0 ∧
    spawner_outcome filter executable argv envp stdin stdout stderr socket code l0.
Proof.
  intros Hinv Hended Hnp. pose proof (wi_child _ _ _ _ _ _ _ _ _ Hinv) as Hc. rewrite Hended in Hc.
  destruct Hc as [[Hp|(l0 & code & _ & Hpage & Hout)] _]; [done|]. by eexists l0, code, _.
Qed.

Lemma done_ended w :
  inv w → did (supervisor_log (w_log w)) Supervisor (Load Done) (λ r, rp_result r = STARTUP_DONE) →
  w_child w = Ended ∧ ¬ pending (child_log (w_log w)).
Proof.
  intros Hinv (r & Hr & Hdone). apply supervisor_log_sub in Hr.
  by apply (wi_done _ _ _ _ _ _ _ _ _ Hinv r Hr Hdone).
Qed.

(** A failure on the page is a failure that was recorded. *)
Lemma failed_recorded w :
  inv w → w_child w = Ended → ¬ pending (child_log (w_log w)) →
  state (page_after fresh_page (child_log (w_log w))) = STATE_FAILED → failure_recorded (child_log (w_log w)).
Proof.
  intros Hinv Hended Hnp Hfailed. destruct (ended_outcome w Hinv Hended Hnp) as (l0 & code & socket & Hpage & Hout).
  destruct Hout as [[_ Hh]|[_ Hf]].
  - destruct Hh as (pid & listener & top & flags & Hst & _). by rewrite Hpage, Hst in Hfailed.
  - unfold failure_recorded in *. by rewrite Hpage.
Qed.

(** What the supervisor has read of it. *)
Lemma read_page w f P :
  inv w → match f with TargetPid | Done => False | _ => True end →
  did (supervisor_log (w_log w)) Supervisor (Load f) P →
  (w_child w = Ended ∧ ¬ pending (child_log (w_log w))) ∧
  ∃ r, P r ∧ rp_result r = page_get f (page_after fresh_page (child_log (w_log w))).
Proof.
  intros Hinv Hf (r & Hr & HP).
  destruct (wi_read _ _ _ _ _ _ _ _ _ Hinv f r (supervisor_log_sub _ _ Hr) Hf) as [Hended Hval].
  split; [done|]. by exists r.
Qed.

Lemma from_raw_step step : from_raw (step_as_u32 step) = step.
Proof. by destruct step. Qed.

(** A shared error is the one recorded. *)
Lemma shared_error_recorded w e :
  inv w → shared_error e (supervisor_log (w_log w)) →
  let page := page_after fresh_page (child_log (w_log w)) in
  own_error e ∧ error_step page = step_as_u32 (se_step e) ∧ error_code page = se_errno e.
Proof.
  intros Hinv (Hs & Hstep & Hcode) page.
  apply read_page in Hs as [[Hended Hnp] (rs & Hfailed & Hrs)]; [|done..].
  apply read_page in Hstep as [_ (r1 & Hstep & Hr1)]; [|done..].
  apply read_page in Hcode as [_ (r2 & Hcode & Hr2)]; [|done..]. simpl in *.
  destruct (failed_recorded w Hinv Hended Hnp) as (_ & Hpos & step & Hne & Hrec); [congruence|].
  rewrite normalize_pos in Hcode by (rewrite Hr2; exact Hpos). injection Hcode as Hcode.
  rewrite Hr1, Hrec, from_raw_step in Hstep. subst step.
  split; [split; [done|]|split; [done|]]; rewrite <-Hcode, Hr2; [exact Hpos|done].
Qed.

(** Any report on the target counts as its end: it is not killed after a report
    that it stopped, although a traced process reports its stops too. *)
Lemma reported_target_left n pid status :
  0 < pid →
  ∃ k k', terminate_and_reap_target (E:=SpawnError) (S n) = Call (Load TargetPid) k ∧
    k (reply pid) = Call (Waitpid pid WNOHANG) k' ∧
    k' (reported pid status) = mret ().
Proof.
  intros Hpid. eexists _, _. split; [reflexivity|]. cbn. rewrite decide_False by lia.
  split; [reflexivity|]. cbn. by rewrite decide_True by (by left).
Qed.

(** What became of the target of a launch that failed: there was none, it was
    killed, it is no child any more, it was reaped, or it was left at a stop
    that it reported, which takes a tracer. *)
Definition target_fate (l : log) : Prop :=
  did l Supervisor (Load TargetPid) (λ r, rp_result r <= 0) ∨
  ∃ pid, 0 < pid ∧ did l Supervisor (Load TargetPid) (λ r, rp_result r = pid) ∧
    (did l Supervisor (Kill pid SIGKILL) (λ _, True) ∨
     did l Supervisor (Waitpid pid WNOHANG) (λ r, rp_result r < 0) ∨
     did l Supervisor (Waitpid pid WNOHANG) (λ r, rp_result r = pid ∧ WIFSTOPPED (rp_status r) = false) ∨
     (did l Supervisor (Waitpid pid WNOHANG) (λ r, rp_result r = pid ∧ WIFSTOPPED (rp_status r) = true) ∧
      did l Supervisor (Attach (PTRACE_SEIZE TRACE_OPTIONS) pid) (λ r, 0 <= rp_result r))).

Lemma settled_fate w :
  reached p0 launch w → target_settled (supervisor_log (w_log w)) → target_fate (w_log w).
Proof.
  intros Hreach Hsettled. pose proof (supervisor_log_sub (w_log w)) as Hsub.
  destruct Hsettled as [Hs|(pid & Hpos & Hp & Hs)]; [left; by eapply did_sub|right].
  exists pid. split; [done|]. split; [by eapply did_sub|].
  destruct Hs as [(r & Hr & Hres)|Hkill]; [right|left; by eapply did_sub]. apply Hsub in Hr.
  destruct Hres as [Hres|Hneg]; [right|left; by exists r].
  destruct (WIFSTOPPED (rp_status r)) eqn:Hst; [right|left; by exists r].
  split; [by exists r|]. destruct (reached_answers p0 _ w _ Hreach Hr) as (l & Hl & Hans). simpl in Hans.
  eapply did_sub; [exact Hl|]. by eapply stops_are_traced.
Qed.

(** No [errno] on the page makes [normalize] panic. *)
Lemma never_panics w : inv w → w_sup w ≠ Stop Panic.
Proof.
  intros Hinv Hend. destruct (ended_post _ _ Hinv Hend) as [Hs Hcode].
  apply read_page in Hs as [[Hended Hnp] (rs & Hfailed & Hrs)]; [|done..].
  apply read_page in Hcode as [_ (r2 & Hcode & Hr2)]; [|done..]. simpl in *.
  destruct (failed_recorded w Hinv Hended Hnp) as (_ & Hpos & _); [congruence|].
  rewrite <-Hr2, Hcode in Hpos. unfold i32_MIN in Hpos. lia.
Qed.

(** ** Properties *)

(** C6: when [spawn_seccomp_target] returns a listener and a process, whatever
    the interleaving and whatever calls failed or were interrupted before: the
    descriptors of the callbacks are the standard streams and every other
    descriptor of the spawner but its socket was closed; the process is the one
    the spawner cloned, it has set [no_new_privs], installed the whole filter
    and crossed [execve]; the supervisor is attached to it; the listener of
    that filter is the descriptor that was sent, and one was received; and the
    spawner has exited with success and was reaped. *)
Theorem spawned_target_ready w fd pid :
  reached p0 launch w → w_sup w = Stop (Ret (fd, pid)) →
  let l := w_log w in
  ∃ socket listener spawner,
    0 < pid ∧ streams_installed stdin stdout stderr l ∧ descriptors_closed l socket ∧
    (∃ top flags args, did l Spawner (CloneChild top flags args) (λ r, rp_result r = pid)) ∧
    did l Target PrctlNoNewPrivs (λ r, 0 <= rp_result r) ∧
    did l Target (SeccompNewListener (Z.of_nat (length filter)) filter)
      (λ r, 0 <= rp_result r ∧ as_i32 (rp_result r) = listener) ∧
    did l Target (Execve executable argv envp) (λ r, 0 <= rp_result r) ∧
    did l Supervisor (Attach (PTRACE_SEIZE TRACE_OPTIONS) pid) (λ r, 0 <= rp_result r) ∧
    did l Spawner (Sendmsg socket TRANSFER_BYTE listener) (λ r, rp_result r = 1) ∧
    (∃ mine, did l Supervisor (Recvmsg mine)
       (λ r, rp_result r = 1 ∧ rp_byte r = TRANSFER_BYTE ∧ received_fd (rp_control r) = Some fd)) ∧
    did l Supervisor Fork (λ r, 0 < rp_result r ∧ rp_result r = spawner) ∧
    did l Spawner (Exit 0) (λ _, True) ∧
    did l Supervisor (Waitpid spawner 0) (λ r, rp_result r = spawner ∧ WEXITSTATUS (rp_status r) = 0).
Proof.
  intros Hreach Hend l. pose proof (reached_inv _ _ _ _ _ _ _ _ _ _ Hreach) as Hinv.
  destruct (ended_post _ _ Hinv Hend) as (Hpid & ((p & Hp & Hread & Hatt) & mine & Hmsg) &
    (spawner & Hfork & rw & Hrw & Hres & Hwx & Hws) & Hdone & Hstate & Hload).
  pose proof (child_log_sub l) as Hcsub. pose proof (supervisor_log_sub l) as Hssub.
  assert (Hexit : ∃ code, did l Spawner (Exit code) (λ _, True) ∧ Z.land code 255 = 0).
  { destruct (wi_waited _ _ _ _ _ _ _ _ _ Hinv spawner 0 rw (Hssub _ Hrw) Hres Hfork)
      as [(code & Hcode & _ & Hst)|[_ Hst]]; [|congruence]. exists code. split; [done|congruence]. }
  destruct Hexit as (code & Hexit & Hland).
  assert (Hexit' : did (child_log l) Spawner (Exit code) (λ _, True)).
  { destruct Hexit as (r & Hr & _). exists r. split; [|done]. apply list_elem_of_filter. split; [simpl; tauto|done]. }
  destruct (done_ended w Hinv Hdone) as [Hended _].
  pose proof (wi_child _ _ _ _ _ _ _ _ _ Hinv) as Hc. rewrite Hended in Hc.
  destruct (proj2 Hc code Hexit') as (l0 & Hsub & Hstores & Hout). fold l in Hsub, Hstores.
  destruct Hout as [[-> Hh]|[-> _]]; [|done].
  destruct Hh as (pid' & listener & top & flags & _ & Hst & _ & Hstr & Hcl & Hclone & Ht & _ & Hsend).
  assert (Hsubl : l0 ⊆ l) by set_solver. rewrite Hst in Hstores.
  assert (Hsame : ∀ q, 0 < q → did (supervisor_log l) Supervisor (Load TargetPid) (λ r, rp_result r = q) → q = pid').
  { intros q Hq (r & Hr & Heq). pose proof (wi_target _ _ _ _ _ _ _ _ _ Hinv r (Hssub _ Hr)) as Hv.
    fold l in Hv. rewrite Heq, Hstores in Hv. specialize (Hv Hq). congruence. }
  pose proof (Hsame pid Hpid Hload) as <-. pose proof (Hsame p Hp Hread) as ->.
  destruct Ht as (Hprctl & Hsecc & Hexec).
  exists (sockets_of (supervisor_log (w_log w))).2, listener, spawner.
  split_and!; try done; try (by eapply (did_sub l0)); try (by eapply (did_sub (supervisor_log l))).
  - by eapply streams_installed_sub.
  - by eapply descriptors_closed_sub.
  - exists top, flags, (target_args filter executable argv envp). by eapply did_sub.
  - destruct Hexec as [Hexec|Hdied]; [by eapply (did_sub l0)|exfalso].
    destruct Hatt as (ra & Hra & Hok).
    destruct (wi_attached _ _ _ _ _ _ _ _ _ Hinv _ _ _ (Hssub _ Hra)) as [_ Hlive].
    by apply (Hlive Hok), Hsub.
  - exists mine. by eapply (did_sub (supervisor_log l)).
  - exists rw. split; [by apply Hssub|done].
Qed.

(** C8: when [spawn_seccomp_target] fails, the error names a step and has a
    positive [errno]; every descriptor that had arrived is closed again; and
    once the supervisor has read that the spawner is done, the target, if there
    is one, was killed, is no child any more or was reaped, or, when the
    supervisor had attached to it, was left at a stop it reported; and a failure
    that the spawner or the target recorded on the page is the error returned,
    unless attaching to the target failed.  [spawn_seccomp_target] never
    panics. *)
Theorem spawn_failure_reported w :
  reached p0 launch w →
  let l := w_log w in
  let page := page_after fresh_page (child_log l) in
  w_sup w ≠ Stop Panic ∧ ∀ e, w_sup w = Stop (Throw e) →
    se_step e ≠ SNone ∧ 0 < se_errno e ∧
    (∀ fd, fd ∈ incoming (supervisor_log l) → did l Supervisor (Close fd) (λ _, True)) ∧
    (did (supervisor_log l) Supervisor (Load Done) (λ r, rp_result r = STARTUP_DONE) →
       target_fate l ∧
       (state page = STATE_FAILED → se_step e = AttachTracer ∨
          (error_step page = step_as_u32 (se_step e) ∧ error_code page = se_errno e))).
Proof.
  intros Hreach l page. pose proof (reached_inv _ _ _ _ _ _ _ _ _ _ Hreach) as Hinv. split; [by apply never_panics|].
  intros e Hend. destruct (ended_post _ _ Hinv Hend) as (Herr & Hdropped & Hdone).
  assert (Hown : own_error e) by (destruct Herr as [?|?%shared_error_recorded]; naive_solver).
  split; [apply Hown|]. split; [apply Hown|]. split.
  + intros fd Hfd. eapply (did_sub (supervisor_log l)); [apply supervisor_log_sub|]. by apply Hdropped.
  + intros Hd. destruct (Hdone Hd) as [Hsettled Hwhy]. split.
    * by apply settled_fate.
    * intros Hfailed. destruct Hwhy as [?|[Hsh|Hnot]]; [by left|right|exfalso].
      -- by apply shared_error_recorded.
      -- apply read_page in Hnot as [_ (r & Hr & Hval)]; [|done..]. apply Hr. by rewrite Hval.
Qed.

End launches.

(** ** On the sample kernel *)

Lemma spawned_target_ready_witness :
  w_sup (sample_world no_fault) = Stop (Ret (7, TARGET)) ∧
  did (w_log (sample_world no_fault)) Target (Execve 1%N 2%N 3%N) (λ r, 0 <= rp_result r).
Proof.
  assert (Hend : w_sup (sample_world no_fault) = Stop (Ret (7, TARGET))) by (vm_compute; reflexivity).
  split; [exact Hend|].
  pose proof (spawned_target_ready (H:=sample no_fault) fresh_page _ _ _ _ _ _ _ _ _ _ _
    (sample_reached no_fault) Hend) as (socket & listener & spawner & _ & _ & _ & _ & _ & _ & Hexec & _).
  exact Hexec.
Defined.

Lemma spawn_failure_reported_witness :
  w_sup (sample_world exec_fault) = Stop (Throw {| se_step := Exec; se_errno := 2 |}) ∧
  target_fate (w_log (sample_world exec_fault)).
Proof.
  assert (Hend : w_sup (sample_world exec_fault) = Stop (Throw {| se_step := Exec; se_errno := 2 |}))
    by (vm_compute; reflexivity).
  split; [exact Hend|].
  destruct (proj2 (spawn_failure_reported (H:=sample exec_fault) fresh_page _ _ _ _ _ _ _ _ _
    (sample_reached exec_fault)) _ Hend) as (_ & _ & _ & Hdone).
  refine (proj1 (Hdone _)). exists (reply STARTUP_DONE). split; [|reflexivity].
  vm_compute. repeat first [apply list_elem_of_here|apply list_elem_of_further].
Defined.
