(* ===== verification/Interruptions.v ===== *)
(** * Calls that are interrupted

    The programs of a launch make interrupted calls again, at most [fuel]
    times in a row.  As long as fewer calls than that are interrupted, none of
    them runs out of fuel. *)

From S2P Require Import Prelude Effects Tracker Ptrace Programs Spawn Startup.

(** ** The interruptions that may still come *)

Definition isem (n : nat) (c : call) (P : Reply → nat → Prop) : Prop :=
  ∀ r, if decide (retried c r) then match n with O => True | S n => P r n end else P r n.

Abbreviation W := (wlp isem (λ _ _, True)).

Lemma isem_mono n c (P P' : Reply → nat → Prop) :
  (∀ r n', P r n' → P' r n') → isem n c P → isem n c P'.
Proof. intros HP Hsem r. specialize (Hsem r). case_decide; [destruct n|]; auto. Qed.

(** Fewer interruptions do no harm. *)
Lemma w_fewer {E A} (m : Prog E A) n n' (Q : exec E A → Prop) :
  (n' <= n)%nat → W m n (λ r _, Q r) → W m n' (λ r _, Q r).
Proof.
  revert n n'. induction m as [r|c k IH]; intros n n' Hle; [done|]. intros [_ Hsem]. split; [done|].
  intros r. specialize (Hsem r). case_decide; [|by eapply IH].
  destruct n' as [|n']; [done|]. destruct n as [|n]; [lia|]. eapply IH; [|done]. lia.
Qed.

Definition patient (fuel : nat) {E A} (m : Prog E A) : Prop :=
  ∀ n, (n < fuel)%nat → W m n (λ r n', r ≠ NoFuel ∧ (n' <= n)%nat).

Section rules.
  Context (fuel : nat).

Lemma patient_stop {E A} (r : exec E A) : r ≠ NoFuel → patient fuel (Stop r).
Proof. by intros Hr n Hn. Qed.

Lemma patient_case {E A E' B} (k : exec E A → Prog E' B) (m : Prog E A) :
  patient fuel m → (∀ r, r ≠ NoFuel → patient fuel (k r)) → patient fuel (pcase k m).
Proof.
  intros Hm Hk n Hn. apply wlp_case; [exact isem_mono|].
  eapply wlp_mono; [exact isem_mono| |by apply Hm]. intros r n' [Hr Hle]. simpl.
  eapply wlp_mono; [exact isem_mono| |apply Hk; [done|lia]]. intros r' n'' [? ?]. split; [done|lia].
Qed.

Lemma patient_bind {E A B} (m : Prog E A) (k : A → Prog E B) :
  patient fuel m → (∀ a, patient fuel (k a)) → patient fuel (m ≫= k).
Proof.
  intros Hm Hk. apply patient_case; [done|]. intros [a|e| |] Hr; [apply Hk|by apply patient_stop..|done].
Qed.

Lemma patient_try {E E' A} (m : Prog E A) : patient fuel m → patient fuel (ptry (E':=E') m).
Proof. intros Hm. apply patient_case; [done|]. intros [a|e| |] Hr; [by apply patient_stop..|done]. Qed.

Lemma patient_map_err {E E' A} (f : E → exec E' A) (m : Prog E A) :
  (∀ e, f e ≠ NoFuel) → patient fuel m → patient fuel (pmap_err f m).
Proof. intros Hf Hm. apply patient_case; [done|]. intros [a|e| |] Hr; [by apply patient_stop|by apply patient_stop, Hf|by apply patient_stop|done]. Qed.

Lemma patient_call {E A} c (k : Reply → Prog E A) : (∀ r, patient fuel (k r)) → patient fuel (Call c k).
Proof.
  intros Hk n Hn. split; [done|]. intros r. case_decide; [|by apply Hk].
  destruct n as [|n]; [done|]. eapply wlp_mono; [exact isem_mono| |apply Hk; lia].
  intros r' n' [? ?]. split; [done|lia].
Qed.

Lemma patient_sys {E} c : patient fuel (E:=E) (sys c).
Proof. apply patient_call. intros r. by apply patient_stop. Qed.

Lemma normalize_fuel {E} n : normalize (E:=E) n ≠ NoFuel.
Proof. unfold normalize, neg_i32. by repeat case_decide. Qed.

Lemma spawn_error_fuel {A} step n : spawn_error (A:=A) step n ≠ NoFuel.
Proof.
  unfold spawn_error. pose proof (normalize_fuel (E:=SpawnError) n).
  by destruct (normalize (E:=SpawnError) n) as [?|?| |].
Qed.

Lemma patient_ret {E A} (a : A) : patient fuel (mret (M:=Prog E) a).
Proof. by apply patient_stop. Qed.

Lemma patient_throw {E A} (e : E) : patient fuel (A:=A) (pthrow e).
Proof. by apply patient_stop. Qed.

Lemma patient_lift {E A} (r : exec E A) : r ≠ NoFuel → patient fuel (plift r).
Proof. apply patient_stop. Qed.

Lemma patient_exit {E A} code (k : Reply → Prog E A) : (∀ r, patient fuel (k r)) → patient fuel (sys (Exit code) ≫= k).
Proof. intros Hk. apply patient_bind; [apply patient_sys|done]. Qed.

End rules.

(** A call that is made again only when it was interrupted. *)
Lemma patient_retry {E A} fuel c (k : Reply → Prog E A) :
  (∀ r, ¬ retried c r → patient (S fuel) (k r)) → (∀ r, retried c r → patient fuel (k r)) →
  patient (S fuel) (sys c ≫= k).
Proof.
  intros Hdone Hagain n Hn. split; [done|]. intros r. case_decide as Hr; [|by apply Hdone].
  destruct n as [|n]; [done|]. eapply wlp_mono; [exact isem_mono| |apply Hagain; [done|lia]].
  intros r' n' [? ?]. split; [done|lia].
Qed.

(** Decomposes a program, using what is known of its parts. *)
Ltac patient :=
  repeat first
    [ assumption
    | solve [auto with patience]
    | apply patient_ret
    | apply patient_throw
    | apply patient_lift; first [done|apply normalize_fuel|apply spawn_error_fuel]
    | apply patient_bind; [|intros ?]
    | apply patient_try
    | apply patient_map_err; [intros ?; apply spawn_error_fuel|]
    | exfalso; lia
    | case_decide
    | match goal with |- patient _ (match ?x with _ => _ end) => destruct x end ].

Create HintDb patience.
#[export] Hint Resolve patient_sys : patience.

(** A loop around one call. *)
Ltac patient_loop :=
  match goal with |- patient ?n _ =>
    induction n as [|? ?]; [by intros ? ?%Nat.nlt_0_r|];
    apply patient_retry; intros r Hr; cbn [retried] in Hr; unfold interrupted in *; patient
  end.

(** ** The programs of a launch *)

Section programs.
  Context (fuel : nat).

Lemma load_patient {E} f : patient fuel (load (E:=E) f).
Proof. unfold load. patient. Qed.
Lemma store_patient {E} f v : patient fuel (store (E:=E) f v).
Proof. unfold store. patient. Qed.
Lemma close_patient {E} fd : patient fuel (close (E:=E) fd).
Proof. unfold close. patient. Qed.
Lemma send_control_patient {E} socket byte : patient fuel (send_control (E:=E) fuel socket byte).
Proof. unfold send_control. patient_loop. Qed.
Lemma recv_control_patient {E} socket : patient fuel (recv_control (E:=E) fuel socket).
Proof. unfold recv_control. patient_loop. Qed.
Lemma send_fd_patient {E} socket fd : patient fuel (send_fd (E:=E) fuel socket fd).
Proof. unfold send_fd. patient_loop. Qed.
Lemma recvmsg_patient socket : patient fuel (recvmsg_loop fuel socket).
Proof. patient_loop. Qed.
Lemma waitpid_patient {E} pid : patient fuel (waitpid_nointr (E:=E) fuel pid).
Proof. unfold waitpid_nointr. patient_loop. Qed.
Lemma reap_target_patient {E} pid : patient fuel (reap_target_loop (E:=E) fuel pid).
Proof. patient_loop. Qed.
Lemma close_range_patient {E} first last : patient fuel (close_range (E:=E) fuel first last).
Proof. unfold close_range. patient_loop. Qed.

Hint Resolve load_patient store_patient close_patient send_control_patient recv_control_patient
  send_fd_patient recvmsg_patient waitpid_patient reap_target_patient close_range_patient : patience.

Lemma fail_startup_patient {E} step errno : patient fuel (fail_startup (E:=E) step errno).
Proof. unfold fail_startup, record_failure. patient. Qed.
Lemma fail_launched_patient {E} pid step errno : patient fuel (fail_launched (E:=E) pid step errno).
Proof. unfold fail_launched, record_failure. patient. Qed.
Hint Resolve fail_startup_patient fail_launched_patient : patience.

Lemma install_standard_stream_patient {E} factory destination :
  patient fuel (install_standard_stream (E:=E) factory destination).
Proof. unfold install_standard_stream. patient. Qed.
Lemma close_unwanted_fds_patient {E} keep : patient fuel (close_unwanted_fds (E:=E) fuel keep).
Proof. unfold close_unwanted_fds. patient. Qed.
Lemma clone_target_patient {E} args : patient fuel (clone_target (E:=E) args).
Proof. unfold clone_target. patient. Qed.
Lemma hand_over_patient {E} socket pid listener : patient fuel (hand_over (E:=E) fuel socket pid listener).
Proof. unfold hand_over. patient. Qed.
Hint Resolve install_standard_stream_patient close_unwanted_fds_patient clone_target_patient
  hand_over_patient : patience.

Lemma launch_target_patient {E} socket args : patient fuel (launch_target (E:=E) fuel socket args).
Proof. unfold launch_target. patient. Qed.
Hint Resolve launch_target_patient : patience.
Lemma spawner_main_patient {E} args : patient fuel (spawner_main (E:=E) fuel args).
Proof. unfold spawner_main. patient. Qed.

Lemma terminate_patient {E} : patient fuel (terminate_and_reap_target (E:=E) fuel).
Proof. unfold terminate_and_reap_target. patient. Qed.
Lemma recv_fd_patient socket : patient fuel (recv_fd fuel socket).
Proof. unfold recv_fd, drop_fd. patient. Qed.
Hint Resolve spawner_main_patient terminate_patient recv_fd_patient : patience.

Lemma receive_listener_patient socket : patient fuel (receive_listener fuel socket).
Proof. unfold receive_listener, step_error, seize. patient. Qed.
Lemma startup_status_patient wait_result : patient fuel (startup_status wait_result).
Proof. unfold startup_status. patient. Qed.
Lemma startup_result_patient status listener_result : patient fuel (startup_result status listener_result).
Proof. unfold startup_result, read_shared_error. patient. Qed.
Hint Resolve receive_listener_patient startup_status_patient startup_result_patient : patience.

Lemma supervise_patient mine its pid : patient fuel (supervise fuel mine its pid).
Proof. unfold supervise, drop_listener. patient. Qed.
Hint Resolve supervise_patient : patience.

Lemma spawn_seccomp_target_patient filter executable argv envp stdin stdout stderr :
  patient fuel (spawn_seccomp_target fuel filter executable argv envp stdin stdout stderr).
Proof. unfold spawn_seccomp_target, validate_inputs, reset, step_error, socket_pair. patient. Qed.

End programs.

(** ** Launches with few interruptions *)

Definition interrupted_call (e : event) : Prop :=
  match e with Did _ c r => retried c r | Died _ => False end.

#[export] Instance interrupted_call_dec e : Decision (interrupted_call e).
Proof. unfold interrupted_call. destruct e; apply _. Defined.

Definition interruptions (l : log) : nat := length (filter interrupted_call l).

Lemma interruptions_add l e :
  interruptions (l ++ [e]) = (interruptions l + if decide (interrupted_call e) then 1 else 0)%nat.
Proof.
  unfold interruptions. rewrite filter_app, length_app. f_equal. by case_decide as He;
    [rewrite filter_cons_True|rewrite filter_cons_False].
Qed.

Section worlds.
  Context `{Kernel} (p0 : SharedStartup) (fuel : nat).

(** What the programs still bear. *)
Definition bears {E A} (l : log) (m : Prog E A) : Prop :=
  W m (fuel - S (interruptions l)) (λ r _, r ≠ NoFuel).

Definition child_bears (l : log) (ch : child) : Prop :=
  match ch with Spawning p | Launching _ p => bears l p | _ => True end.

Definition world_bears (w : world) : Prop :=
  (interruptions (w_log w) < fuel)%nat → bears (w_log w) (w_sup w) ∧ child_bears (w_log w) (w_child w).

Lemma bears_add {E A} l e (m : Prog E A) : bears l m → bears (l ++ [e]) m.
Proof. apply w_fewer. rewrite interruptions_add. case_decide; lia. Qed.

Lemma child_bears_add l e ch : child_bears l ch → child_bears (l ++ [e]) ch.
Proof. destruct ch; simpl; auto using bears_add. Qed.

Lemma bears_call {E A} l w c r (k : Reply → Prog E A) :
  (interruptions (l ++ [Did w c r]) < fuel)%nat → bears l (Call c k) → bears (l ++ [Did w c r]) (k r).
Proof.
  unfold bears. rewrite interruptions_add. intros Hlt [_ Hsem]. specialize (Hsem r).
  change (interrupted_call (Did w c r)) with (retried c r) in *. case_decide as Hr.
  - rewrite decide_True in * by done. destruct (fuel - S (interruptions l))%nat eqn:Hn; [lia|].
    by replace (fuel - S (interruptions l + 1))%nat with n by lia.
  - rewrite decide_False in * by done. by rewrite Nat.add_0_r.
Qed.

Lemma bears_fork {E A} l r (k : Reply → Prog E A) :
  bears l (Call Fork k) → bears (l ++ [Did Supervisor Fork r]) (k (in_child r)).
Proof.
  intros [_ Hsem]. apply bears_add. specialize (Hsem (in_child r)). by rewrite decide_False in Hsem by (simpl; tauto).
Qed.

Lemma child_bears_step l ch e ch' :
  child_step ch e ch' → (interruptions (l ++ [e]) < fuel)%nat → child_bears l ch → child_bears (l ++ [e]) ch'.
Proof.
  intros Hstep Hlt. destruct Hstep; simpl; auto using bears_add; intros; by apply bears_call.
Qed.

Lemma step_bears w w' : world_step p0 w w' → world_bears w → world_bears w'.
Proof.
  intros Hstep Hw Hlt. destruct Hstep; cbn [w_sup w_child w_log] in *.
  all: assert (Hlt' : (interruptions l < fuel)%nat) by (rewrite interruptions_add in Hlt; lia).
  all: destruct (Hw Hlt') as [Hsup Hchild]; cbn [w_sup w_child w_log] in *.
  - split; [by apply bears_call|by apply child_bears_add].
  - split; [by apply bears_call|by apply bears_fork].
  - split; [by apply bears_call|by apply child_bears_add].
  - split; [by apply bears_add|by eapply child_bears_step].
Qed.

Lemma reached_bears filter executable argv envp stdin stdout stderr w :
  reached p0 (spawn_seccomp_target fuel filter executable argv envp stdin stdout stderr) w → world_bears w.
Proof.
  intros Hreach. unfold reached in Hreach.
  assert (Hstart : world_bears (launch_world (spawn_seccomp_target fuel filter executable argv envp stdin stdout stderr))).
  { intros Hlt. split; [|done]. unfold bears. cbn [launch_world w_log w_sup] in *.
    eapply wlp_mono; [exact isem_mono| |apply spawn_seccomp_target_patient; lia]. by intros r n [? _]. }
  induction Hreach as [|w1 w2 w3 Hstep _ IH]; [done|]. apply IH. by eapply step_bears.
Qed.

(** Neither side runs out. *)
Lemma world_bears_fuel w : world_bears w → (interruptions (w_log w) < fuel)%nat →
  w_sup w ≠ Stop NoFuel ∧ w_child w ≠ Spawning (Stop NoFuel).
Proof.
  intros Hw Hlt. destruct (Hw Hlt) as [Hs Hc]. split; intros Heq.
  - rewrite Heq in Hs. by apply Hs.
  - rewrite Heq in Hc. by apply Hc.
Qed.

End worlds.
