(* ===== verification/Progress.v ===== *)
(** * Every launch ends

    No run of a launch is infinite, and no launch gets stuck: as long as the
    supervisor has not returned, some process can go on. *)

From S2P Require Import Prelude Effects Tracker Ptrace Programs Spawn Startup StartupLogic StartupProofs StartupSupervisor StartupCorrect SampleKernel Launch Interruptions.

Local Open Scope Z_scope.

(** ** Termination *)

Definition child_next (ch' ch : child) : Prop := ∃ e, child_step ch e ch'.

Lemma target_next c k e (t' : Prog SpawnError ()) :
  target_step (Call c k) e (Some t') → ∃ r, t' = k r.
Proof. intros Hstep. inversion Hstep as [c' k' r| | |]; subst. by exists r. Qed.

Lemma ended_acc : Acc child_next Ended.
Proof. constructor. intros ch' [e Hstep]. inversion Hstep. Qed.

Lemma orphan_acc t : Acc child_next (Orphan t).
Proof.
  induction t as [r|c k IH]; constructor; intros ch' [e Hstep];
    (inversion Hstep as [| | | | | | | |t1 e1 t' Ht|t1 e1 Ht]; subst; [|exact ended_acc]).
  - inversion Ht.
  - destruct (target_next _ _ _ _ Ht) as [r ->]. apply IH.
Qed.

Lemma launching_acc t p : Acc child_next (Spawning p) → Acc child_next (Launching t p).
Proof.
  intros Hp. induction t as [r|c k IH]; constructor; intros ch' [e Hstep];
    (inversion Hstep as [| | | | |t1 e1 t' p1 Ht|t1 e1 p1 Ht|t1 p1| |]; subst; [|exact Hp|apply orphan_acc]).
  - inversion Ht.
  - destruct (target_next _ _ _ _ Ht) as [r ->]. apply IH.
Qed.

Lemma spawning_acc p : Acc child_next (Spawning p).
Proof.
  induction p as [r|c k IH]; constructor; intros ch' [e Hstep].
  - inversion Hstep.
  - inversion Hstep as [c' k' r|top flags args k' r|top flags args k' r|code k' r|c' k'| | | | |]; subst;
      [apply IH|apply launching_acc, IH|apply IH|exact ended_acc|exact ended_acc].
Qed.

Lemma child_acc ch : Acc child_next ch.
Proof.
  destruct ch as [|p|t p|t|];
    [|apply spawning_acc|apply launching_acc, spawning_acc|apply orphan_acc|exact ended_acc].
  constructor. intros ch' [e Hstep]. inversion Hstep.
Qed.

Lemma world_acc `{Kernel} p0 w : Acc (λ w' w, world_step p0 w w') w.
Proof.
  destruct w as [m ch l]. revert ch l. induction m as [r|c k IH]; intros ch;
    induction (child_acc ch) as [ch _ IHch]; intros l; constructor; intros w' Hstep;
    (inversion Hstep as [c' k' r' ch' l' Hord Hans|k' r' l' Hans Hpos|k' r' ch' l' Hans Hneg|m' ch' e ch'' l' Hch Hans];
     subst; try apply IH; apply IHch; by exists e).
Qed.

(** ** Parts of the log *)

Lemma omap_filter {A B} (P : A → Prop) `{∀ x, Decision (P x)} (f : A → option B) (l : list A) :
  (∀ x, ¬ P x → f x = None) → omap f (filter P l) = omap f l.
Proof.
  intros Hf. induction l as [|x l IH]; [done|]. destruct (decide (P x)) as [Hx|Hx].
  - rewrite filter_cons_True by done. cbn. by rewrite <-IH.
  - rewrite filter_cons_False by done. cbn. by rewrite Hf, <-IH.
Qed.

Lemma sockets_of_part l : sockets_of (supervisor_log l) = sockets_of l.
Proof.
  unfold sockets_of, supervisor_log. rewrite omap_filter; [done|].
  intros [[] [] r|] Hx; try done. simpl in Hx. destruct Hx. tauto.
Qed.

Lemma filter_filter_sub {A} (P Q : A → Prop) `{∀ x, Decision (P x)} `{∀ x, Decision (Q x)} (l : list A) :
  (∀ x, P x → Q x) → filter P (filter Q l) = filter P l.
Proof. intros HPQ. rewrite list_filter_filter. apply list_filter_iff. naive_solver. Qed.

Lemma messages_part l :
  sent Supervisor (supervisor_log l) = sent Supervisor l ∧
  received Supervisor (supervisor_log l) = received Supervisor l ∧
  sent Spawner (child_log l) = sent Spawner l ∧ received Spawner (child_log l) = received Spawner l.
Proof.
  unfold sent, received, supervisor_log, child_log.
  rewrite !filter_filter_sub; [done|..]; intros [w [] r|] Hx; try done; destruct Hx as [-> Hx];
    simpl; intros Hneg; destruct Hneg; lia.
Qed.

(** ** What keeps the processes from waiting for each other *)

Section progress.
  Context `{KernelLaws} `{!ProgressLaws} (p0 : SharedStartup).
  Context (filter : list sock_filter) (executable argv envp : pointer) (stdin stdout stderr : bool).
  Context (fuel : nat).

Abbreviation launch := (launch filter executable argv envp stdin stdout stderr fuel).
Abbreviation inv := (world_inv p0 filter executable argv envp stdin stdout stderr).

Definition new_sockets (sockets : Z * Z) : Prop :=
  3 <= sockets.1 <= Z.of_N u32_MAX ∧ sockets.1 ≠ sockets.2.

Record progress_inv (w : world) : Prop := {
  pi_sockets : did (w_log w) Supervisor Socketpair (λ r, 0 <= rp_result r) → new_sockets (sockets_of (w_log w));
  pi_forked : forked (w_log w) → did (w_log w) Supervisor Socketpair (λ r, 0 <= rp_result r);
  pi_received : (received Supervisor (w_log w) <= sent Spawner (w_log w))%nat;
  pi_over : spawner_over (w_child w) → spawner_end (w_log w);
  pi_target : match w_child w with Launching _ _ | Orphan _ => True | _ => target_end (w_log w) end;
}.

Lemma spawner_end_sub l l' : l ⊆ l' → spawner_end l → spawner_end l'.
Proof. intros Hsub [(code & Hcode)|Hdied]; [left; exists code; by eapply did_sub|right; by apply Hsub]. Qed.

(** The target's end stays, unless another target is cloned. *)
Lemma target_end_add l e :
  match e with Did Spawner (CloneChild _ _ _) r => rp_result r <= 0 | _ => True end →
  target_end l → target_end (l ++ [e]).
Proof.
  intros He [Hnone|[(code & Hcode)|[Hdied|(x & a & v & Hexec)]]].
  - left. intros top flags args (r & [Hr|Hr%list_elem_of_singleton]%elem_of_app & Hpos).
    + apply (Hnone top flags args). by exists r.
    + subst e. lia.
  - right. left. exists code. eapply did_sub; [|done]. set_solver.
  - right. right. left. set_solver.
  - right. right. right. exists x, a, v. eapply did_sub; [|done]. set_solver.
Qed.

Lemma target_ended_now t e l : target_step t e None → target_end (l ++ [e]).
Proof.
  intros Hstep. inversion Hstep as [|c k r Hx|code k r|t']; subst; right.
  - right. right. destruct c; try done. eexists _, _, _. by apply did_last.
  - left. exists code. by apply did_last.
  - right. left. set_solver.
Qed.

Lemma child_target ch e ch' l :
  child_step ch e ch' →
  match ch with Launching _ _ | Orphan _ => True | _ => target_end l end →
  match ch' with Launching _ _ | Orphan _ => True | _ => target_end (l ++ [e]) end.
Proof.
  intros Hstep Hend.
  destruct Hstep as [c k r Hc|top flags args k r Hf Hp|top flags args k r Hp|code k r|c k|t e t' p Ht|t e p Ht|t p|t e t' Ht|t e Ht];
    try done; try (by eapply target_ended_now); apply target_end_add; try done.
  - by destruct c.
  - lia.
Qed.

Lemma child_spawner_end ch e ch' l :
  child_step ch e ch' → (spawner_over ch → spawner_end l) → spawner_over ch' → spawner_end (l ++ [e]).
Proof.
  intros Hstep Hend Hover.
  destruct Hstep as [c k r Hc|top flags args k r Hf Hp|top flags args k r Hp|code k r|c k|t e t' p Ht|t e p Ht|t p|t e t' Ht|t e Ht];
    try done; try (eapply spawner_end_sub; [|by apply Hend]; set_solver).
  - left. exists code. by apply did_last.
  - right. set_solver.
  - right. set_solver.
Qed.

Lemma received_keeps l e :
  match e with
  | Did Supervisor (Recv s as c) r | Did Supervisor (Recvmsg s as c) r =>
      0 < rp_result r → (received Supervisor l < sent Spawner l)%nat
  | _ => True
  end →
  (received Supervisor l <= sent Spawner l)%nat →
  (received Supervisor (l ++ [e]) <= sent Spawner (l ++ [e]))%nat.
Proof.
  intros He Hle. rewrite received_app, sent_app.
  assert (Hone : (received Supervisor [e] = 0 ∨ (received Supervisor [e] = 1 ∧ received Supervisor l < sent Spawner l))%nat).
  { unfold received at 1 2. destruct (decide (is_receipt Supervisor e)) as [Hr|Hr].
    - rewrite !filter_cons_True by done. right. split; [done|].
      destruct e as [[] [] r|]; simpl in *; try done; try (by destruct Hr); by apply He, Hr.
    - left. by rewrite filter_cons_False. }
  lia.
Qed.

Lemma did_new l e c P :
  did (l ++ [e]) Supervisor c P → did l Supervisor c P ∨ ∃ r, e = Did Supervisor c r ∧ P r.
Proof.
  intros (r & [Hr|Hr%list_elem_of_singleton]%elem_of_app & HP); [left|right]; by exists r.
Qed.

Lemma sockets_of_other l e :
  match e with Did Supervisor Socketpair r => rp_result r < 0 | _ => True end →
  sockets_of (l ++ [e]) = sockets_of l.
Proof.
  intros He. unfold sockets_of. rewrite omap_app, last_app.
  destruct e as [[] [] r|]; try done. simpl. by rewrite decide_True.
Qed.

(** What the supervisor's calls and the fork add. *)
Lemma supervisor_progress m ch c r l m' ch' :
  progress_inv {| w_sup := m; w_child := ch; w_log := l |} → answers p0 l (Did Supervisor c r) →
  (c = Fork → did l Supervisor Socketpair (λ r, 0 <= rp_result r)) →
  (spawner_over ch' → spawner_over ch) →
  (match ch with Launching _ _ | Orphan _ => True | _ => target_end l end →
   match ch' with Launching _ _ | Orphan _ => True | _ => target_end l end) →
  progress_inv {| w_sup := m'; w_child := ch'; w_log := l ++ [Did Supervisor c r] |}.
Proof.
  intros [Hs Hf Hv Ho Ht] Hans Hfork Hover Htarget. simpl in *.
  assert (Hsub : l ⊆ l ++ [Did Supervisor c r]) by set_solver.
  split; cbn [w_sup w_child w_log].
  - intros Hdid. destruct c;
      try (rewrite sockets_of_other by done; apply Hs;
           apply did_new in Hdid as [?|(r' & [=] & _)]; done).
    destruct (decide (rp_result r < 0)) as [Hneg|Hpos].
    + rewrite sockets_of_other by done. apply Hs.
      apply did_new in Hdid as [?|(r' & [= <-] & ?)]; [done|lia].
    + unfold sockets_of. rewrite omap_app, last_app. simpl. rewrite decide_False by done.
      eapply sockets_are_new; [done|lia].
  - intros Hfk. eapply did_sub; [done|]. apply did_new in Hfk as [?|(r' & [= -> <-] & _)]; [by apply Hf|by apply Hfork].
  - apply received_keeps; [|done]. destruct c; try done; intros Hpos; by eapply messages_are_sent.
  - intros Ho'. eapply spawner_end_sub; [done|]. auto.
  - specialize (Htarget Ht). destruct ch'; try done; by apply target_end_add.
Qed.

Lemma progress_keeps w w' : inv w → progress_inv w → world_step p0 w w' → progress_inv w'.
Proof.
  intros Hinv Hp Hstep.
  destruct Hstep as [c k r ch l Hord Hans|k r l Hans Hpos|k r ch l Hans Hneg|m ch e ch' l Hch Hans].
  - eapply supervisor_progress; [done|done|by intros ->|done|done].
  - destruct (wi_supervisor _ _ _ _ _ _ _ _ _ Hinv) as [(_ & _ & Hdid) _].
    eapply supervisor_progress; [done|done| |done|done]. intros _. by apply did_supervisor.
  - destruct (wi_supervisor _ _ _ _ _ _ _ _ _ Hinv) as [(_ & _ & Hdid) _].
    eapply supervisor_progress; [done|done| |done|done]. intros _. by apply did_supervisor.
  - destruct Hp as [Hs Hf Hv Ho Ht]. cbn [w_sup w_child w_log] in *.
    pose proof (child_step_who _ _ _ Hch) as Hwho.
    assert (Hold : ∀ c P, did (l ++ [e]) Supervisor c P → did l Supervisor c P).
    { intros c P [?|(r & -> & _)]%did_new; done. }
    split; cbn [w_sup w_child w_log].
    + intros Hdid. rewrite sockets_of_other; [by apply Hs, Hold|]. by destruct e as [[] c r|].
    + intros Hfk. eapply did_sub; [|by apply Hf, Hold]. set_solver.
    + apply received_keeps; [|done]. by destruct e as [[] [] r|].
    + by eapply child_spawner_end.
    + by eapply child_target.
Qed.

Lemma reached_progress w : reached p0 launch w → inv w ∧ progress_inv w.
Proof.
  intros Hreach.
  assert (Hstart : inv (launch_world launch) ∧ progress_inv (launch_world launch)).
  { split; [by apply launch_inv|]. split; cbn [launch_world w_sup w_child w_log].
    - by intros (r & ?%elem_of_nil & _).
    - by intros (r & ?%elem_of_nil & _).
    - done.
    - done.
    - left. by intros top flags args (r & ?%elem_of_nil & _). }
  unfold reached in Hreach. induction Hreach as [|w1 w2 w3 Hstep _ IH]; [done|]. destruct Hstart as [Hi Hp].
  apply IH. split; [by eapply step_keeps|by eapply progress_keeps].
Qed.

(** ** Somebody can go on *)

(** A step that is a call, not the death of a process. *)
Definition goes_on (w : world) : Prop :=
  ∃ who c r w', world_step p0 w w' ∧ w_log w' = w_log w ++ [Did who c r].

Definition spawner_out_of_fuel (w : world) : Prop := w_child w = Spawning (Stop NoFuel).

Lemma call_answers l w c : ¬ blocking c →
  ∃ r, answers p0 l (Did w c r) ∧ match c with Fork | CloneChild _ _ _ => rp_result r ≠ 0 | _ => True end.
Proof.
  intros Hb. destruct (calls_return l w c Hb) as (r & Hr & Hok).
  destruct c as [f| | | | | | | | | | | | | | | | | | | | | |]; try (by exists r).
  exists {| rp_result := page_get f (page_after p0 l); rp_errno := 0; rp_status := 0; rp_byte := 0;
     rp_flags := 0; rp_control := []; rp_sockets := (0, 0); rp_made := inl 0 |}. done.
Qed.

Lemma child_goes m ch l c r ch' :
  child_step ch (Did c.1 c.2 r) ch' → answers p0 l (Did c.1 c.2 r) →
  goes_on {| w_sup := m; w_child := ch; w_log := l |}.
Proof. intros Hch Hans. eexists c.1, c.2, r, _. split; [by apply child_goes_on|done]. Qed.

(** The target always can. *)
Lemma target_goes ended t l l' :
  target_runs ended t l' →
  ∃ c r o, target_step t (Did Target c r) o ∧ answers p0 l (Did Target c r).
Proof.
  intros Hruns. destruct t as [|c k]; [done|]. destruct Hruns as [(_ & _ & Hat) _].
  assert (Hb : ¬ blocking c) by (destruct c; first [done|intros []]).
  destruct (call_answers l Target c Hb) as (r & Hr & _). exists c, r.
  destruct (decide (executes c r)) as [Hx|Hx].
  { exists None. split; [by apply target_executes|done]. }
  destruct c; try done; try (eexists; split; [by apply Startup.target_call|exact Hr]).
  eexists. split; [by apply target_exits|done].
Qed.

(** The spawner can, unless it waits for the tracer. *)
Lemma spawner_goes m c k l socket l' :
  spawner_at filter executable argv envp stdin stdout stderr socket l' c →
  match c with Recv _ => False | _ => True end →
  goes_on {| w_sup := m; w_child := Spawning (Call c k); w_log := l |}.
Proof.
  intros [_ Hat] Hc. assert (Hb : ¬ blocking c) by (destruct c; first [done|intros []]).
  destruct (call_answers l Spawner c Hb) as (r & Hr & Hok).
  destruct c; try done;
    try (by eapply (child_goes _ _ _ (Spawner, _)); [by apply spawner_call|exact Hr]).
  - destruct Hat as (_ & Hflags & _). destruct (decide (0 < rp_result r)).
    + by eapply (child_goes _ _ _ (Spawner, _)); [by apply spawner_clones|exact Hr].
    + eapply (child_goes _ _ _ (Spawner, _) r); [apply spawner_clone_fails; lia|exact Hr].
  - by eapply (child_goes _ _ _ (Spawner, _)); [by apply spawner_exits|exact Hr].
Qed.

(** Where the child is when it cannot go on. *)
Lemma child_waits w : inv w →
  goes_on w ∨ spawner_out_of_fuel w ∨ w_child w = Unborn ∨ w_child w = Ended ∨
  ∃ k, w_child w = Spawning (Call (Recv (sockets_of (w_log w)).2) k) ∧
    waits_for_tracer (sockets_of (w_log w)).2 (child_log (w_log w)).
Proof.
  intros Hinv. pose proof (wi_child _ _ _ _ _ _ _ _ _ Hinv) as Hc. rewrite sockets_of_part in Hc.
  destruct w as [m ch l]. cbn [w_child w_log] in *. destruct ch as [|[r|c k]|t p|t|]; cbn [child_inv] in Hc.
  - tauto.
  - right. left. unfold spawner_out_of_fuel. cbn. cbn in Hc. by rewrite Hc.
  - destruct Hc as [Hat _]. destruct c; try (left; by eapply spawner_goes).
    destruct Hat as (_ & _ & -> & Hwait). right. right. right. right. by exists k.
  - left. destruct (target_goes _ t l _ Hc) as (c & r & [t'|] & Hstep & Hr).
    + by eapply (child_goes _ _ _ (Target, c)); [by apply launch_goes_on|].
    + by eapply (child_goes _ _ _ (Target, c)); [by apply launch_ends|].
  - left. destruct Hc as [ended Hc]. destruct (target_goes _ t l _ Hc) as (c & r & [t'|] & Hstep & Hr).
    + by eapply (child_goes _ _ _ (Target, c)); [by apply orphan_goes_on|].
    + by eapply (child_goes _ _ _ (Target, c)); [by apply orphan_ends|].
  - tauto.
Qed.

(** A spawner that waits for the tracer gets its answer, or sees the end of
    the stream. *)
Lemma spawner_served m k l :
  let sockets := sockets_of l in
  (received Spawner l < sent Supervisor l)%nat ∨
  (did l Supervisor (Close sockets.1) (λ _, True) ∧
     ∃ first last, first <= sockets.1 <= last ∧ did l Spawner (CloseRange first last) (λ r, rp_result r = 0)) →
  goes_on {| w_sup := m; w_child := Spawning (Call (Recv sockets.2) k); w_log := l |}.
Proof.
  intros sockets Hserve. destruct (spawner_receives l Hserve) as [r Hr].
  eapply (child_goes _ _ _ (Spawner, Recv sockets.2) r); [by apply spawner_call|exact Hr].
Qed.

Lemma supervisor_goes c k r ch l :
  ordinary c → answers p0 l (Did Supervisor c r) →
  goes_on {| w_sup := Call c k; w_child := ch; w_log := l |}.
Proof. intros Hc Hr. eexists Supervisor, c, r, _. split; [by apply supervisor_call|done]. Qed.

Lemma did_child l c P : did (child_log l) Spawner c P → did l Spawner c P.
Proof. intros (r & [_ Hr]%list_elem_of_filter & HP). by exists r. Qed.

(** While the supervisor waits for a message. *)
Lemma receiver_goes w c k (n : nat) :
  inv w → progress_inv w → w_sup w = Call c k →
  c = Recv (sockets_of (w_log w)).1 ∧ n = 0%nat ∨ c = Recvmsg (sockets_of (w_log w)).1 ∧ n = 1%nat →
  forked (w_log w) → did (w_log w) Supervisor (Close (sockets_of (w_log w)).2) (λ _, True) →
  received Supervisor (w_log w) = n → (n = 1 → sent Supervisor (w_log w) = 1)%nat →
  goes_on w ∨ spawner_out_of_fuel w.
Proof.
  intros Hinv Hp Hsup Hc Hfk Hclosed Hrecv Hsent.
  pose proof (pi_target w Hp) as Htarget. pose proof (pi_over w Hp) as Hover.
  destruct (child_waits w Hinv) as [?|[?|[Hun|[Hended|(k' & Hch & Hone & Hnone & _)]]]]; [by left|by right|..]; left.
  - exfalso. apply (wi_forked _ _ _ _ _ _ _ _ _ Hinv) in Hun. apply Hun.
    destruct Hfk as (r & Hr & Hpos). exists r. split; [|done]. apply elem_of_supervisor_log.
    split; [done|simpl; tauto].
  - destruct w as [s ch l]. cbn [w_sup w_child w_log] in *. subst s ch.
    destruct (supervisor_receives l c) as [r Hr]; [tauto|right; split_and!; [done|by apply Hover|done]|].
    by destruct Hc as [[-> _]|[-> _]]; eapply supervisor_goes.
  - destruct w as [s ch l]. cbn [w_sup w_child w_log] in *. subst s ch.
    destruct (messages_part l) as (_ & _ & Hs & Hr). rewrite Hs in Hone. rewrite Hr in Hnone.
    destruct Hc as [[-> ->]|[-> ->]].
    + destruct (supervisor_receives l (Recv (sockets_of l).1)) as [r Hans]; [by left|left; lia|].
      by eapply supervisor_goes.
    + apply spawner_served. left. rewrite Hsent by done. lia.
Qed.

(** While the supervisor waits for a process. *)
Lemma waiter_goes w pid options k :
  inv w → progress_inv w → w_sup w = Call (Waitpid pid options) k → forked (w_log w) →
  did (w_log w) Supervisor (Kill pid SIGKILL) (λ _, True) ∨
  did (w_log w) Supervisor Fork (λ r, 0 < rp_result r ∧ rp_result r = pid) ∧
    (did (w_log w) Supervisor (Close (sockets_of (w_log w)).1) (λ _, True) ∨
     received Supervisor (w_log w) = 2%nat) →
  goes_on w ∨ spawner_out_of_fuel w.
Proof.
  intros Hinv Hp Hsup Hfk Hwhy.
  pose proof (pi_over w Hp) as Hover. pose proof (pi_received w Hp) as Hle.
  pose proof (pi_sockets w Hp (pi_forked w Hp Hfk)) as [Hrange Hne].
  assert (Hanswer : (∃ r, admits (w_log w) Supervisor (Waitpid pid options) r) → goes_on w).
  { intros [r Hr]. destruct w as [s ch l]. cbn [w_sup w_child w_log] in *. subst s. by eapply supervisor_goes. }
  destruct Hwhy as [Hkill|[Hfork Hwhy]]; [left; apply Hanswer, waits_return; by left|].
  destruct (child_waits w Hinv) as [?|[?|[Hun|[Hended|(k' & Hch & Hone & Hnone & Hkeep & Hcl)]]]];
    [by left|by right|..]; left.
  - exfalso. apply (wi_forked _ _ _ _ _ _ _ _ _ Hinv) in Hun. apply Hun.
    destruct Hfk as (r & Hr & Hpos). exists r. split; [|done]. apply elem_of_supervisor_log.
    split; [done|simpl; tauto].
  - apply Hanswer, waits_return. right. split; [done|]. apply Hover. by rewrite Hended.
  - destruct w as [s ch l]. cbn [w_sup w_child w_log] in *. subst s ch.
    destruct (messages_part l) as (_ & _ & Hs & _). rewrite Hs in Hone.
    destruct Hwhy as [Hclosed|Htwo]; [|lia].
    apply spawner_served. right. split; [done|].
    destruct (Hcl (sockets_of l).1) as (first & last & Hin & Hdid); [done|done|].
    exists first, last. split; [done|by apply did_child].
Qed.

Lemma somebody_goes_on w :
  inv w → progress_inv w → (∃ r, w_sup w = Stop r) ∨ spawner_out_of_fuel w ∨ goes_on w.
Proof.
  intros Hinv Hp. pose proof (wi_supervisor _ _ _ _ _ _ _ _ _ Hinv) as Hs.
  destruct (w_sup w) as [r|c k] eqn:Hsup; [left; by exists r|]. right.
  destruct Hs as [Hat _]. cbn [At] in Hat. unfold supervisor_at in Hat. rewrite sockets_of_part in Hat.
  destruct (messages_part (w_log w)) as (Hsent & Hrecv & _).
  assert (Hgo : goes_on w ∨ spawner_out_of_fuel w); [|tauto].
  destruct (decide (blocking c)) as [Hb|Hb].
  - destruct c as [| | | | | | | |s| |s| |pid options| | | | | | | | | |]; try done; cbn [supervisor_at_with] in Hat.
    + destruct Hat as (Hfk & -> & Hcl & Hr). rewrite Hrecv in Hr.
      apply did_supervisor in Hfk, Hcl. by eapply (receiver_goes w _ _ 0); eauto.
    + destruct Hat as (Hfk & -> & Hcl & Hr & Hse). rewrite Hrecv in Hr. rewrite Hsent in Hse.
      apply did_supervisor in Hfk, Hcl. by eapply (receiver_goes w _ _ 1); eauto.
    + destruct Hat as (Hfk%did_supervisor & [?|[Hkill%did_supervisor|(Hfork%did_supervisor & Hwhy)]]); [done|..].
      * eapply waiter_goes; eauto.
      * eapply waiter_goes; eauto. right. split; [done|].
        rewrite Hrecv in Hwhy. destruct Hwhy; [left; by apply did_supervisor|by right].
  - left. destruct (call_answers (w_log w) Supervisor c Hb) as (r & Hr & Hok).
    pose proof (wi_forked _ _ _ _ _ _ _ _ _ Hinv) as Hfk.
    destruct w as [s ch l]. cbn [w_sup w_child w_log] in *. subst s.
    destruct c; try done; try (by apply (supervisor_goes _ _ r)).
    destruct Hat as (Hnf & _). apply Hfk in Hnf. subst ch.
    destruct (decide (0 < rp_result r)).
    + eexists Supervisor, Fork, r, _. by split; [apply supervisor_forks|].
    + eexists Supervisor, Fork, r, _. by split; [apply supervisor_fork_fails; [exact Hr|lia]|].
Qed.

(** ** Properties *)

(** C7: a launch ends. No run of its processes is infinite, and, as long as
    fewer calls than [fuel] were interrupted, [spawn_seccomp_target] has
    returned or failed, or one of the processes can make its next call: neither
    the supervisor nor the spawner waits for a message or for a process that
    will never come, whatever calls failed and whichever processes were
    killed. *)
Theorem launch_ends w :
  reached p0 launch w →
  Acc (λ w' w, world_step p0 w w') w ∧
  ((interruptions (w_log w) < fuel)%nat →
     (∃ tracker, w_sup w = Stop (Ret tracker)) ∨ (∃ e, w_sup w = Stop (Throw e)) ∨ goes_on w).
Proof.
  intros Hreach. split; [apply world_acc|]. intros Hfew.
  destruct (reached_progress w Hreach) as [Hinv Hp].
  destruct (world_bears_fuel fuel w (reached_bears _ _ _ _ _ _ _ _ _ _ Hreach) Hfew) as [Hsup Hchild].
  destruct (somebody_goes_on w Hinv Hp) as [[[tracker|e| |] Hr]|[Hout|Hgo]].
  - left. by exists tracker.
  - right. left. by exists e.
  - by eapply never_panics in Hr.
  - done.
  - done.
  - by right; right.
Qed.

End progress.

(** ** On the sample kernel *)

Lemma launch_ends_witness :
  (interruptions (w_log (launch_world sample_launch)) < 5)%nat ∧
  goes_on (H:=sample no_fault) fresh_page (launch_world sample_launch).
Proof.
  assert (Hfew : (interruptions (w_log (launch_world sample_launch)) < 5)%nat) by (vm_compute; lia).
  split; [exact Hfew|].
  destruct (proj2 (launch_ends (H:=sample no_fault) fresh_page _ _ _ _ _ _ _ _ (launch_world sample_launch)
    (rtc_refl _ (launch_world sample_launch) : reached (H:=sample no_fault) fresh_page sample_launch _)) Hfew) as [[tracker Hend]|[[e Hend]|Hgo]].
  - discriminate Hend.
  - discriminate Hend.
  - exact Hgo.
Defined.
